(* ===== verification/_CoqProject ===== *)
-Q . S2P
Prelude.v
Prog.v
Bytes.v
Bitmap.v
Blocks.v
Mapping.v
Compact.v
FrameTable.v
Header.v
Export.v
Serial.v
SerialV5.v
HeaderIO.v
Tracker.v
Regions.v
Uffd.v
Cache.v
Overlay.v
Snapshot.v
Drain.v
Fill.v
Dedup.v
Memory.v
Nbd.v
ReadFile.v
Chunker.v
SetOnce.v
Lifecycle.v
Store.v
Compress.v
Upload.v
Redis.v
RedisSafe.v
RedisStuck.v
RedisRuns.v
Placement.v
PlacementRuns.v
Egress.v
EgressRuns.v
Slots.v
Pool.v
PoolRuns.v
