(* ===== verification/Prelude.v ===== *)
(** * e2b-infra: a verification library of the sandbox core

    ** The program

    The repository runs sandboxes: Firecracker virtual machines that are
    started from a template, paused into a snapshot and resumed, possibly on
    another host.  Its services are the API ([src/packages/api]), which places
    sandboxes on nodes, the orchestrator ([src/packages/orchestrator]), which
    runs them on a node, the proxy, the agent inside the guest, and the shared
    libraries ([src/packages/shared]).

    The state a snapshot must not lose is the memory and the root file system
    of the virtual machine.  Both are block images, stored as layers: every
    build stores only the blocks that differ from its parent, packed one after
    another, and a header that maps every byte of the image to a build and a
    position in it.  The parts and how they meet:

    - a running sandbox reads through an overlay: a write cache over a
      read-only device ([sandbox/block/overlay.go], [cache.go], [tracker.go]);
    - pausing it packs the dirty blocks of the cache into a diff file
      ([Cache.ExportToDiff], [rootfs/direct.go]) or the dirty pages of the
      memory into a new cache ([NewCacheFromProcessMemory],
      [NewCacheFromMemfd], [dedupDrain] and [Cache.Dedup]);
    - [header.ToDiffHeader] layers the mapping of the diff over the one of the
      parent ([CreateMapping], [MergeMappings], [NormalizeMappings]) and
      packs it into columns ([compact.go]);
    - [StoreHeader] and [LoadHeader] carry the header through object storage in
      one of three wire formats, together with the frame tables of compressed
      builds ([compress_frame_table.go]);
    - a resumed sandbox asks [GetShiftedMapping] where a byte is, and [locate]
      which compressed frame holds it;
    - the kernel of its guest reads and writes the root file system through a
      network block device ([nbd/dispatch.go]), and every first touch of a page
      of its memory is a fault that the orchestrator serves
      ([uffd/userfaultfd]); when it is paused, [processMemorySnapshot] asks the
      handler of the faults which pages differ from the image.

    Around the storage, the API admits a request to start or remove a sandbox
    ([sandbox/store.go] over [storage/redis] and [reservations]), chooses a
    node for it ([orchestrator/placement]) and asks the node; the node gives
    the sandbox a network slot from a pool ([sandbox/network/pool.go]), whose
    firewall and TCP proxy ([firewall.go], [tcpfirewall]) decide what it may
    reach.

    ** The files and what they model

    [hd] is [src/packages/shared/pkg/storage/header], [st] is
    [src/packages/shared/pkg/storage], [bk] is
    [src/packages/orchestrator/pkg/sandbox/block].

    - [Prelude] (this file): machine integers with their wraps, results of
      fallible calls, binary search, lists indexed by Go ints, the tactics.
    - [Bytes]: [encoding/binary] (little endian, varints) and [io.ReadFull].
    - [Bitmap]: the interface [Bitmap] of the roaring library the code calls,
      with the laws the proofs use; the instance on finite sets shows they can
      hold.
    - [Blocks]: [hd/block.go], the zero test of [hd/diff.go].
    - [Mapping]: [hd/mapping.go], [hd/inspect.go].  A list of entries denotes
      [source]: the build and position of every byte.
    - [Compact]: [hd/compact.go].  [Mapping] is the record of columns, [Slice]
      and [At] materialise it, [Validate] and [SearchOffset] work on it.
    - [FrameTable]: [st/compress_frame_table.go].
    - [Header]: [hd/header.go], [hd/metadata.go], the builder of [hd/diff.go].
    - [Export]: [exportToDiff] of [sandbox/rootfs/direct.go].
    - [Serial], [SerialV5], [HeaderIO]: [hd/serialization_v3.go], [_v4.go],
      [_v5.go], [serialization.go].  LZ4 and object storage are the interfaces
      [LZ4] and [Blobs].
    - [Tracker]: [bk/tracker.go], [bk/range.go].
    - [Regions]: [sandbox/uffd/memory], the regions of the guest memory and
      the translation between offsets and host addresses.
    - [Uffd]: [sandbox/uffd/userfaultfd] ([userfaultfd.go], [deferred.go],
      [prefault.go], [fd.go]), the prefetch tracker and [Uffd.DiffMetadata].
      The moves of the loop and of the goroutines it starts ([code]) are
      atomic between two lock operations or system calls, and interleave with
      the faults, writes and returned memory of the guest ([environment]).
      In a clean execution the guest gives back no page it faults in, gives
      back already or that is being prefaulted when the kernel discards it,
      neither touches nor prefaults a page being given back, and writes a zero
      page only once it is protected.  Nothing in the code sees to that; two
      executions that are not clean lose a byte ([Early_write_is_lost],
      [Prefault_overtakes_remove]) and are recorded as findings.
    - [Memory]: [processMemorySnapshot] of [sandbox/sandbox.go],
      [sandbox/fc/memory.go] and the background caches of [bk/memfd.go]: every
      way the memory of a paused sandbox becomes a cache and a header.
    - [Nbd]: [sandbox/nbd/dispatch.go]: the parser of the requests, the
      goroutine each starts, the write lock of the responses.  A connection
      is any splitting of the byte stream into reads.
    - [ReadFile]: [sandbox/build/build.go], the reads of an image over its
      header.  The store of builds is the interface [Builds]: it may evict a
      build, or change its header, between any two reads.
    - [Chunker]: [bk/streaming_chunk.go], [bk/fetch_session.go]: readers that
      share fetches in progress.  Every critical section is one step, the
      step relation interleaves readers, fetch goroutines, failures and
      cancellations.
    - [Lifecycle]: [api/internal/sandbox/states.go] and [startRemoving] of
      [storage/memory], the transitions of one sandbox under any interleaving
      of the requests that pause, kill, snapshot or evict it.
    - [Store]: the maps of the memory storage, the reservations of a team
      ([reservations/reservation.go]) and the [Store] over both ([store.go]).
    - [Compress]: [st/compress_upload.go], [compress_config.go],
      [compress_encode.go], the compressed side of [storage_fs.go] and
      [validateCompressConfig] of [sandbox/build_upload.go].  The codecs are
      the interface [Codec]; what the scheduler decides is a parameter.
    - [Upload]: [sandbox/uploads.go], [build_upload.go] and its two versions,
      [build/header_load.go].  Uploads are programs over the
      calls that touch storage, devices, futures and peers; the programs of
      all uploads of all nodes interleave call by call, with what else happens
      on a node.  Clean executions name a build once, write V4 headers and keep
      a template cached while its build is uploaded; besides, an ancestor that
      is in storage as the executions start is named by the header of the
      snapshot or stored uncompressed.  Outside these conditions the code loses
      an entry or shows a header too early ([Ancestor_entry_is_lost],
      [V3_header_comes_first]).
    - [Redis]: the Redis backend all API instances share
      ([api/internal/sandbox/storage/redis], [reservations/redis]) and the
      requests over it ([sandbox/store.go], [orchestrator]'s
      [create_instance.go], [delete_instance.go], [snapshot_template.go],
      [keep_alive.go], [update_network.go], [autoresume.go]).  A request is a
      program whose calls are single commands and Lua scripts; the programs of
      all instances interleave call by call, a command may fail, applied or
      not, locks, transitions and results expire, and a request may leave a
      goroutine behind ([forks]).  In a timely execution nothing a request
      holds expires in its hands; in a clean one no removal releases the
      reservation of a later start either, which is no matter of time and which
      nothing in the code prevents; in a reliable one no command fails besides.
      [RedisSafe] holds the invariant and what it gives, [RedisStuck] the
      removal nobody finishes, [RedisRuns] the executions, among them those
      that show why the conditions are needed.
    - [Placement]: [api/internal/orchestrator/placement] and what it reads and
      writes of a node ([nodemanager]).  Placements interleave by single reads
      and writes of a node, with reports, status changes and removals; scores
      are the binary64 numbers of the code.  Two placements of one sandbox may
      run at once; what holds only of a sandbox placed by one at a time says
      so ([step_once]).  [PlacementRuns] holds executions.
    - [Egress]: the firewall of a network slot ([sandbox/network/firewall.go],
      [slot.go]), the decisions of the TCP proxy behind it
      ([tcpfirewall/handlers.go]) and the address lists
      ([shared/pkg/sandbox-network]).  The kernel judges a packet by a chain of
      rules; changes are buffered and flushed as a whole, or fail in any way.
      The sets of addresses are the interface [Toolkit].  [EgressRuns] holds
      executions.
    - [Slots]: the addresses of a slot and the three storages of slots
      ([storage_memory.go], [storage_local.go], [storage_kv.go]), instances of
      the interface [SlotStorage].
    - [Pool]: [sandbox/network/pool.go] over [Egress] and any [SlotStorage],
      and the index of sandboxes by address ([sandbox/map.go]): [Populate],
      sandboxes and [Close] interleave call by call.  [PoolRuns] holds
      executions.
    - [Prog]: the programs of [Upload], [Redis], [Placement] and [Pool]: a free
      monad over typed calls and its weakest precondition under interference.
    - [SetOnce]: the cells of [shared/pkg/utils/set_once.go].

    A property is a theorem whose doc comment starts with C and a number; each
    that has hypotheses is followed, at the end of its file, by a witness that
    applies it to a concrete input.

    ** What the theorems show

    - Layers: the mapping of a paused sandbox covers the device without gap or
      overlap and gives every byte the build and position it should have
      ([MergeMappings_override], [CreateMapping_packed],
      [NormalizeMappings_canonical], [ToDiffHeader_layers]); lookups find
      exactly that ([GetShiftedMapping_resolves]); the compact form loses
      nothing ([NewMapping_roundtrip], [Validate_tiles]).
    - Snapshots: exporting the write cache, the root file system or the
      memory, and reading the files back through the new header over the old
      layers, restores every byte ([snapshot_restores],
      [exportToDiff_restores], [Dedup_restores]).  [snapshot_restores] composes
      the overlay, the cache, the export and the header; the abstract
      specification is the byte array of [Overlay_implements_array].
    - Memory: in every clean execution of the fault handler, the pages the
      handler calls dirty, empty and untouched are so
      ([Snapshot_keeps_memory]) and no fault stays without an answer
      ([Faults_answered]); in every execution nothing moves after the close
      ([Close_is_final]).  [Memory_snapshot_restores] composes the handler, the
      regions, the caches, the deduplication and the header: of a sandbox whose
      execution was clean, the new build reads every byte as the guest last saw
      it, or the pause failed for a named reason.
    - The block device: every response belongs to one request, requests read
      and write the device as if one after another, and responses are not cut
      into each other ([Handle_reads_commands], [Responses_linearizable],
      [Responses_framed]).  The reads of a connection end early at a command
      that is refused, a fatal error or the end of the context.
    - Storage: a header that was stored is loaded back in every format
      ([StoreHeader_LoadHeader_roundtrip]), a V5 header if it has no more
      entries than the reader admits; that the writer does not look at that is
      a defect ([StoreHeader_strands_V5]).
    - Reads: [readAt] and [Slice] of an image return the bytes of the image
      under evictions and any order of parallel segments, and end when the
      evictions do ([readAt_reads_image], [Slice_reads_image]); the chunker
      returns the
      bytes of the object in every interleaving, and every execution ends
      ([Slice_serves_object], [Slice_terminates]), as long as readers cut
      the object the same way ([mixed_tables_serve_unfetched]).
    - Uploads: a compressed upload opened through its frame table gives the
      input back, its parts are what a multipart upload accepts, and a
      validated configuration meets the assumption of the chunker on frames
      ([compressStream_roundtrip], [compressStream_parts],
      [compressStream_suits_chunker]).  In clean executions no header is
      stored, or used as final, before every body it names is in storage under
      the codec it says ([Completed_headers_settled]).
    - Sandboxes: one owner of a transition at a time, no waiter left behind,
      states only along the allowed transitions ([Transitions_exclusive],
      [Transitions_settle], [States_follow_transitions]); synchronisation,
      starts and limits ([Reconcile_evicts_orphans], [Starts_shared],
      [Admission_within_limit]).  Across all API instances, in clean
      executions: one operation on a node at a time, the kills of orphans and
      of refused sandboxes not counted, states along the transitions, the
      limit of a team, and waits that end with what they wait for
      ([Node_operations_exclusive], [Stored_states_follow],
      [Team_within_limit], [Waits_for_the_transition]); and what is lost when a
      removal is left half done ([Killing_without_owner_stays]).
    - Placement: the node chosen is the best of a sample of the eligible ones
      ([chooseNode_best]); what counts as in progress is being placed, and a
      sandbox placed by one placement at a time counts exactly where it may be
      starting ([Placements_accounted]); failed nodes are not asked again
      ([Placement_tries]).
    - Network: the kernel holds the rules of the last change that succeeded
      ([Slot_keeps_policy]), no sandbox reaches a denied address
      ([Denied_ranges_unreachable]); a slot is with one sandbox at a time
      ([Slots_apart], over [Slots_disjoint]), which is judged by its own rules
      and nobody else's ([Tenant_rules]) and to which a connection from its
      address is attributed ([Connections_attributed]); closing the pool gives
      every slot back ([Close_releases_all]).

    ** Bounds and fuel

    A 64-bit integer is a [Z] with its wrap ([i64], [u64]) wherever an
    operation can leave the width; the hypotheses of a theorem say which sizes
    are assumed, as a rule that the image and the offsets fit in an [int64].
    Loops that are not structural take fuel; a lemma of the same file shows
    that the fuel the definition passes is enough ([search_loop_fuel],
    [MergeMappings_terminates], [drainIovs_delivers], ...), or the theorem
    says after how much fuel the loop has ended ([pwritevAll_complete],
    [readAt_reads_image]).  The concurrent components have no fuel: they are
    relations, with a cost that every move lowers.  In [Redis] the numbers
    [tries] and [polls] are how often a retry or a poll finds the context of
    the request open, and so are [tries] in [Placement] and [rounds] in
    [Pool]; the theorems hold for all.  The loops of [Close] take as many
    rounds as the channels have room for, and one or two more, which
    [Close_releases_all] shows to be enough.

    ** What is not modelled

    System calls, object storage and the codecs are interfaces with laws, each
    with an instance.  Metrics, logging, tracing and contexts are left out, a
    cancelled context being one more result of a wait.  The bytes of a memory
    mapping are read at the time a slice is returned: the reuse of the memory
    by its owner is not modelled.  A call of the
    memory storage of sandboxes is one step.  Kernels (namespaces, links,
    iptables), Firecracker, the agent in the guest, the template builder, the
    database and the HTTP front ends are not modelled: the code around them
    configures processes, or is a client of other services, and keeps no state
    of its own whose invariant could be stated without them.  That every upload
    ends is not shown: it depends on the answers of peers.  The pool of block
    devices and the cache of builds are left out: their state is that of the
    kernel's devices and of files on disk.  Of smaller things: a header always
    has its metadata, so that the test for [nil] of [ValidateHeader] is left
    out; the two questions of [Uffd.DiffMetadata] are asked of one state of a
    paused sandbox; and orphans are killed one after another, in any order.
*)

From stdpp Require Export base gmap sets list strings numbers sorting options.

#[global] Open Scope Z_scope.

(** ** Machine integers

    A Go integer of width w is a [Z]; every operation that can leave the width
    is written out with one of the wrap functions below.  [uN] is reduction
    modulo 2^N, [iN] the two's complement reading of the low N bits: they are
    at once the conversions [uint64(x)], [int64(x)], ... and the truncation of
    an arithmetic result. *)

Definition u8 (x : Z) : Z := x mod 2 ^ 8.
Definition u16 (x : Z) : Z := x mod 2 ^ 16.
Definition u32 (x : Z) : Z := x mod 2 ^ 32.
Definition u64 (x : Z) : Z := x mod 2 ^ 64.
Definition i32 (x : Z) : Z := (x + 2 ^ 31) mod 2 ^ 32 - 2 ^ 31.
Definition i64 (x : Z) : Z := (x + 2 ^ 63) mod 2 ^ 64 - 2 ^ 63.

Definition is_u8 (x : Z) : Prop := 0 <= x < 2 ^ 8.
Definition is_u16 (x : Z) : Prop := 0 <= x < 2 ^ 16.
Definition is_u32 (x : Z) : Prop := 0 <= x < 2 ^ 32.
Definition is_u64 (x : Z) : Prop := 0 <= x < 2 ^ 64.
Definition is_i32 (x : Z) : Prop := - 2 ^ 31 <= x < 2 ^ 31.
Definition is_i64 (x : Z) : Prop := - 2 ^ 63 <= x < 2 ^ 63.

#[global] Instance is_u8_dec x : Decision (is_u8 x).
Proof. unfold is_u8. apply _. Defined.
#[global] Instance is_u16_dec x : Decision (is_u16 x).
Proof. unfold is_u16. apply _. Defined.
#[global] Instance is_u32_dec x : Decision (is_u32 x).
Proof. unfold is_u32. apply _. Defined.
#[global] Instance is_u64_dec x : Decision (is_u64 x).
Proof. unfold is_u64. apply _. Defined.
#[global] Instance is_i32_dec x : Decision (is_i32 x).
Proof. unfold is_i32. apply _. Defined.
#[global] Instance is_i64_dec x : Decision (is_i64 x).
Proof. unfold is_i64. apply _. Defined.

Ltac unfold_int :=
  unfold is_u8, is_u16, is_u32, is_u64, is_i32, is_i64 in *.

(** [ilia]: [lia] after unfolding the width predicates. *)
Ltac ilia := unfold_int; lia.

Lemma u8_id x : is_u8 x → u8 x = x.
Proof. intros. apply Z.mod_small. ilia. Qed.
Lemma u16_id x : is_u16 x → u16 x = x.
Proof. intros. apply Z.mod_small. ilia. Qed.
Lemma u32_id x : is_u32 x → u32 x = x.
Proof. intros. apply Z.mod_small. ilia. Qed.
Lemma u64_id x : is_u64 x → u64 x = x.
Proof. intros. apply Z.mod_small. ilia. Qed.
Lemma i64_id x : is_i64 x → i64 x = x.
Proof. intros. unfold i64. rewrite Z.mod_small; ilia. Qed.
Lemma i32_id x : is_i32 x → i32 x = x.
Proof. intros. unfold i32. rewrite Z.mod_small; ilia. Qed.

Lemma u8_range x : is_u8 (u8 x).
Proof. apply Z.mod_pos_bound. lia. Qed.
Lemma u16_range x : is_u16 (u16 x).
Proof. apply Z.mod_pos_bound. lia. Qed.
Lemma u32_range x : is_u32 (u32 x).
Proof. apply Z.mod_pos_bound. lia. Qed.
Lemma u64_range x : is_u64 (u64 x).
Proof. apply Z.mod_pos_bound. lia. Qed.
Lemma i64_range x : is_i64 (i64 x).
Proof. unfold i64, is_i64. pose proof (Z.mod_pos_bound (x + 2 ^ 63) (2 ^ 64)). lia. Qed.
Lemma i32_range x : is_i32 (i32 x).
Proof. unfold i32, is_i32. pose proof (Z.mod_pos_bound (x + 2 ^ 31) (2 ^ 32)). lia. Qed.

(** The signed reading of an unsigned value and back. *)
Lemma u64_i64 x : u64 (i64 x) = u64 x.
Proof.
  unfold u64, i64.
  rewrite Zminus_mod, Zmod_mod, <- Zminus_mod. f_equal. lia.
Qed.

Create HintDb ints.
#[export] Hint Resolve u8_range u16_range u32_range u64_range i32_range i64_range : ints.

(** [unwrap] removes every wrap whose argument provably fits its width. *)
Ltac unwrap :=
  repeat match goal with
  | |- context [u64 ?x] => rewrite (u64_id x) by ilia
  | |- context [i64 ?x] => rewrite (i64_id x) by ilia
  | |- context [u32 ?x] => rewrite (u32_id x) by ilia
  | |- context [i32 ?x] => rewrite (i32_id x) by ilia
  | |- context [u16 ?x] => rewrite (u16_id x) by ilia
  | |- context [u8 ?x] => rewrite (u8_id x) by ilia
  end.
Ltac unwrap_in H :=
  repeat match type of H with
  | context [u64 ?x] => rewrite (u64_id x) in H by ilia
  | context [i64 ?x] => rewrite (i64_id x) in H by ilia
  | context [u32 ?x] => rewrite (u32_id x) in H by ilia
  | context [i32 ?x] => rewrite (i32_id x) in H by ilia
  | context [u16 ?x] => rewrite (u16_id x) in H by ilia
  | context [u8 ?x] => rewrite (u8_id x) in H by ilia
  end.

(** Boolean comparisons of [Z] to propositions, in the goal and everywhere. *)
Ltac zbool :=
  repeat match goal with
  | H : andb _ _ = true |- _ => apply andb_true_iff in H; destruct H
  | H : orb _ _ = false |- _ => apply orb_false_iff in H; destruct H
  | H : negb _ = true |- _ => apply negb_true_iff in H
  | H : negb _ = false |- _ => apply negb_false_iff in H
  | H : (_ <? _)%Z = true |- _ => apply Z.ltb_lt in H
  | H : (_ <? _)%Z = false |- _ => apply Z.ltb_ge in H
  | H : (_ <=? _)%Z = true |- _ => apply Z.leb_le in H
  | H : (_ <=? _)%Z = false |- _ => apply Z.leb_gt in H
  | H : (_ =? _)%Z = true |- _ => apply Z.eqb_eq in H
  | H : (_ =? _)%Z = false |- _ => apply Z.eqb_neq in H
  end.

(** Case analysis on the first [Z] test of the goal, keeping its meaning. *)
Ltac ztest :=
  match goal with
  | |- context [(?a <? ?b)%Z] => destruct (Z.ltb_spec a b)
  | |- context [(?a <=? ?b)%Z] => destruct (Z.leb_spec a b)
  | |- context [(?a =? ?b)%Z] => destruct (Z.eqb_spec a b)
  end.
Ltac ztests := repeat (ztest; simpl; try lia).
Ltac ztest_in H :=
  match type of H with
  | context [(?a <? ?b)%Z] => destruct (Z.ltb_spec a b)
  | context [(?a <=? ?b)%Z] => destruct (Z.leb_spec a b)
  | context [(?a =? ?b)%Z] => destruct (Z.eqb_spec a b)
  end.

(** ** Results: a Go call that returns [(value, error)] *)

Inductive result (E A : Type) : Type :=
| Ok (a : A)
| Err (e : E).
Arguments Ok {E A} a.
Arguments Err {E A} e.

#[global] Instance result_ret E : MRet (result E) := λ A a, Ok a.
#[global] Instance result_bind E : MBind (result E) := λ A B f r,
  match r with Ok a => f a | Err e => Err e end.
#[global] Instance result_fmap E : FMap (result E) := λ A B f r,
  match r with Ok a => Ok (f a) | Err e => Err e end.

Definition is_ok {E A} (r : result E A) : bool :=
  match r with Ok _ => true | Err _ => false end.

Definition from_option {E A} (e : E) (o : option A) : result E A :=
  match o with Some a => Ok a | None => Err e end.

(** [guard_err c e]: the early return [if !c { return e }]. *)
Definition guard_err {E} (c : bool) (e : E) : result E unit :=
  if c then Ok () else Err e.

Lemma bind_ok {E A B} (r : result E A) (f : A → result E B) b :
  (r ≫= f) = Ok b ↔ ∃ a, r = Ok a ∧ f a = Ok b.
Proof. destruct r; cbn; naive_solver. Qed.
Lemma bind_err {E A B} (r : result E A) (f : A → result E B) e :
  (r ≫= f) = Err e ↔ r = Err e ∨ ∃ a, r = Ok a ∧ f a = Err e.
Proof. destruct r; cbn; naive_solver. Qed.
Lemma ok_inj {E A} (a b : A) : @Ok E A a = Ok b → a = b.
Proof. by intros [= ->]. Qed.
Lemma guard_err_ok {E} c (e : E) u : guard_err c e = Ok u ↔ c = true.
Proof. destruct c, u; cbn; naive_solver. Qed.

(** Inversion of a successful sequence of calls. *)
Ltac ok_inv H :=
  repeat match type of H with
  | (_ ≫= _) = Ok _ =>
      apply bind_ok in H; let a := fresh "a" in let Ha := fresh "Ha" in
      destruct H as (a & Ha & H)
  end.

(** ** Binary search: [sort.Search] and the hand-written loops like it

    [search_loop] is the loop shared by Go's [sort.Search(n, f)] and by
    [Mapping.SearchOffset]; every iteration shrinks [j - i], so [n] units of
    fuel always reach the exit test ([search_loop_fuel]). *)

Fixpoint search_loop (fuel : nat) (f : Z → bool) (i j : Z) : Z :=
  match fuel with
  | O => i
  | S fuel =>
      if i <? j then
        let h := (i + j) / 2 in
        if f h then search_loop fuel f i h else search_loop fuel f (h + 1) j
      else i
  end.

Definition sort_search (n : Z) (f : Z → bool) : Z :=
  search_loop (Z.to_nat n) f 0 n.

Lemma mid_bounds i j : i < j → i <= (i + j) / 2 < j.
Proof.
  intros. split; [apply Z.div_le_lower_bound | apply Z.div_lt_upper_bound]; lia.
Qed.

(** More fuel than [j - i] changes nothing: the loop has left by its test. *)
Lemma search_loop_fuel f k1 k2 i j :
  j - i <= Z.of_nat k1 → j - i <= Z.of_nat k2 →
  search_loop k1 f i j = search_loop k2 f i j.
Proof.
  revert k2 i j. induction k1 as [|k1 IH]; intros [|k2] i j H1 H2; simpl; auto.
  - ztests.
  - ztests.
  - destruct (Z.ltb_spec i j); [|done].
    pose proof (mid_bounds i j ltac:(lia)).
    destruct (f _); apply IH; lia.
Qed.

Section search.
Context (f : Z → bool) (n : Z).
Hypothesis mono : ∀ a b, 0 <= a → a <= b → b < n → f a = true → f b = true.

Lemma search_loop_spec k i j :
  0 <= i → i <= j → j <= n → j - i <= Z.of_nat k →
  (∀ a, 0 <= a < i → f a = false) → (∀ a, j <= a < n → f a = true) →
  let r := search_loop k f i j in
  i <= r <= j ∧ (∀ a, 0 <= a < r → f a = false) ∧
  (∀ a, r <= a < n → f a = true).
Proof using mono.
  revert i j. induction k as [|k IH]; intros i j Hi Hij Hj Hk Hlo Hhi; simpl.
  { assert (i = j) as -> by lia. auto with lia. }
  destruct (Z.ltb_spec i j); [|assert (i = j) as -> by lia; auto with lia].
  pose proof (mid_bounds i j ltac:(lia)). destruct (f _) eqn:Hf.
  - destruct (IH i ((i + j) / 2)) as (? & ? & ?); eauto with lia.
    intros a Ha. apply (mono ((i + j) / 2)); auto with lia.
  - destruct (IH ((i + j) / 2 + 1) j) as (? & ? & ?); eauto with lia.
    intros a Ha. destruct (f a) eqn:Hfa; [|done].
    rewrite (mono a ((i + j) / 2)) in Hf; auto with lia.
Qed.

(** [sort.Search] on a monotone predicate: the first index where it holds. *)
Lemma sort_search_spec :
  0 <= n →
  0 <= sort_search n f <= n ∧ (∀ a, 0 <= a < sort_search n f → f a = false) ∧
  (∀ a, sort_search n f <= a < n → f a = true).
Proof using mono. intros. apply search_loop_spec; lia. Qed.
End search.

(** ** Lists indexed by Go [int]s *)

Definition len {A} (l : list A) : Z := Z.of_nat (length l).

(** [l[i]] for an [int] index; [None] is the run-time panic. *)
Definition at_ {A} (l : list A) (i : Z) : option A :=
  if i <? 0 then None else l !! Z.to_nat i.

(** [l[i:j]], with the bounds clamped to the list. *)
Definition slice {A} (i j : Z) (l : list A) : list A :=
  take (Z.to_nat (j - i)) (drop (Z.to_nat i) l).

Lemma len_nonneg {A} (l : list A) : 0 <= len l.
Proof. unfold len. lia. Qed.
Lemma len_to_nat {A} (l : list A) : Z.to_nat (len l) = length l.
Proof. apply Nat2Z.id. Qed.
Lemma len_app {A} (l k : list A) : len (l ++ k) = len l + len k.
Proof. unfold len. rewrite length_app. lia. Qed.
Lemma len_cons {A} (x : A) l : len (x :: l) = 1 + len l.
Proof. unfold len. simpl. lia. Qed.
Lemma len_nil {A} : len (@nil A) = 0.
Proof. done. Qed.
Lemma len_fmap {A B} (f : A → B) l : len (f <$> l) = len l.
Proof. unfold len. by rewrite length_fmap. Qed.

Lemma at_Some {A} (l : list A) i x :
  at_ l i = Some x → 0 <= i < len l.
Proof.
  unfold at_, len. intros H. ztest_in H; [done|].
  apply lookup_lt_Some in H. lia.
Qed.
Lemma at_is_Some {A} (l : list A) i : 0 <= i < len l → is_Some (at_ l i).
Proof.
  unfold at_, len. intros. ztest; [lia|]. apply lookup_lt_is_Some. lia.
Qed.
Lemma at_fmap {A B} (f : A → B) (l : list A) i : at_ (f <$> l) i = f <$> at_ l i.
Proof. unfold at_. ztest; [done|]. apply list_lookup_fmap. Qed.
Lemma at_of_nat {A} (l : list A) (i : nat) : at_ l (Z.of_nat i) = l !! i.
Proof. unfold at_. ztest; [lia|]. by rewrite Nat2Z.id. Qed.

#[export] Hint Rewrite @len_app @len_cons @len_nil @len_fmap : lens.

Lemma Forall2_at {A B} (R : A → B → Prop) l k i x :
  Forall2 R l k → at_ l i = Some x → ∃ y, at_ k i = Some y ∧ R x y.
Proof.
  unfold at_. intros HR Hx. destruct (i <? 0); [done|].
  destruct (Forall2_lookup_l _ _ _ _ _ HR Hx) as (y & ? & ?). eauto.
Qed.

(** A sum over a list: the measures of the concurrent components. *)
Fixpoint sumZ {A} (f : A → Z) (l : list A) : Z :=
  match l with [] => 0 | x :: l => f x + sumZ f l end.

Lemma sumZ_app {A} (f : A → Z) l k : sumZ f (l ++ k) = sumZ f l + sumZ f k.
Proof. induction l as [|x l IH]; cbn; [done|]. rewrite IH. ring. Qed.
Lemma sumZ_insert {A} (f : A → Z) l i x y : l !! i = Some x → sumZ f (<[i := y]> l) = sumZ f l - f x + f y.
Proof.
  revert i. induction l as [|z l IH]; intros [|i] Hx; cbn in *; try done.
  - injection Hx as ->. ring.
  - rewrite IH by done. ring.
Qed.
Lemma sumZ_bound {A} (f : A → Z) k l : (∀ x, 0 <= f x <= k) → 0 <= sumZ f l <= k * len l.
Proof.
  intros Hf. induction l as [|x l IH]; cbn; [unfold len; cbn; lia|].
  pose proof (Hf x). rewrite len_cons. lia.
Qed.
Lemma sumZ_nonneg {A} (f : A → Z) l : (∀ i x, l !! i = Some x → 0 <= f x) → 0 <= sumZ f l.
Proof.
  induction l as [|x l IH]; intros Hf; cbn; [lia|].
  pose proof (Hf O x eq_refl). specialize (IH (λ i, Hf (S i))). lia.
Qed.
