(* ===== verification/Prog.v ===== *)
(** * Prog: programs over the calls of an environment

    A program is a tree of calls, each with the type of its answer, that ends
    in a result.  [wp] is its weakest precondition when other programs run in
    between: [rely] is what they may do, [pre] what a call needs, and [ans]
    what an answer tells; [H] is what the program has obtained so far.  The
    components that run against storage and other processes ([Upload],
    [Redis]) write the code as such programs. *)

From S2P Require Import Prelude.

Section prog.
Context {C : Type → Type}.

Inductive prog (R : Type) : Type :=
| Ret (r : R)
| Do {A : Type} (c : C A) (k : A → prog R).
Arguments Ret {R} r.
Arguments Do {R A} c k.

Fixpoint prog_bind {A B} (p : prog A) (f : A → prog B) : prog B :=
  match p with
  | Ret r => f r
  | Do c k => Do c (λ a, prog_bind (k a) f)
  end.
#[global] Instance prog_mret : MRet prog := λ A a, Ret a.
#[global] Instance prog_mbind : MBind prog := λ A B f p, prog_bind p f.

Definition perform {A} (c : C A) : prog A := Do c Ret.

(** [if err != nil { return err }]. *)
Definition check {E A B} (p : prog (result E A)) (k : A → prog (result E B)) : prog (result E B) :=
  p ≫= λ r, match r with Ok a => k a | Err e => Ret (Err e) end.

Definition returned {R} (p : prog R) : option R := match p with Ret r => Some r | Do _ _ => None end.

Section logic.
Context {W H : Type}.
Context (rely : H → W → W → Prop) (pre : ∀ A, C A → H → W → Prop).
Context (ans : ∀ A, C A → H → W → A → H → W → Prop).

Fixpoint wp {R} (p : prog R) (Q : H → W → R → Prop) (h : H) (w : W) : Prop :=
  match p with
  | Ret r => Q h w r
  | @Do _ A c k => ∀ w1, rely h w w1 → pre A c h w1 ∧ ∀ a h' w2, ans A c h w1 a h' w2 → wp (k a) Q h' w2
  end.

Lemma prog_wp_mono {R} (p : prog R) (Q Q' : H → W → R → Prop) h w : (∀ h w r, Q h w r → Q' h w r) → wp p Q h w → wp p Q' h w.
Proof using.
  intros HQ. revert h w. induction p as [r|A c k IH]; cbn; intros h w; [by apply HQ|].
  intros Hp w1 Hr. destruct (Hp w1 Hr) as [Hpre Hk]. split; [done|]. intros a h' w2 Ha. by apply IH, Hk.
Qed.

Lemma prog_wp_bind {A B} (p : prog A) (f : A → prog B) Q h w : wp p (λ h w a, wp (f a) Q h w) h w → wp (p ≫= f) Q h w.
Proof using.
  revert h w. induction p as [r|D c k IH]; cbn; intros h w; [done|].
  intros Hp w1 Hr. destruct (Hp w1 Hr) as [Hpre Hk]. split; [done|]. intros a h' w2 Ha. by apply IH, Hk.
Qed.

Lemma prog_wp_perform {A} (c : C A) (Q : H → W → A → Prop) h w :
  (∀ w1, rely h w w1 → pre A c h w1 ∧ ∀ a h' w2, ans A c h w1 a h' w2 → Q h' w2 a) → wp (perform c) Q h w.
Proof using. done. Qed.

(** The error case of a checked program needs nothing but the postcondition. *)
Lemma prog_wp_check {E A B} (p : prog (result E A)) (k : A → prog (result E B)) (Q : H → W → result E B → Prop) h w :
  (∀ h w e, Q h w (Err e)) → wp p (λ h w r, match r with Ok a => wp (k a) Q h w | Err _ => True end) h w → wp (check p k) Q h w.
Proof using.
  intros He Hp. unfold check. apply prog_wp_bind. eapply prog_wp_mono; [|exact Hp]. intros h' w' [a|e]; cbn; auto.
Qed.

(** What others do is no harm, where they may do it once more. *)
Lemma prog_wp_rely {R} (p : prog R) Q h w w' : (∀ h w1 w2 w3, rely h w1 w2 → rely h w2 w3 → rely h w1 w3) →
  (∀ w w' r, rely h w w' → Q h w r → Q h w' r) → rely h w w' → wp p Q h w → wp p Q h w'.
Proof using.
  intros Htrans HQ Hr. destruct p as [r|A c k]; cbn; [by apply HQ|]. intros Hp w1 H1. apply Hp. by eapply Htrans.
Qed.

(** What nobody takes away is kept. *)
Lemma prog_wp_frame {R} (P : W → Prop) (p : prog R) Q h w : (∀ h w w', rely h w w' → P w → P w') →
  (∀ A c h w a h' w', ans A c h w a h' w' → P w → P w') → P w → wp p Q h w → wp p (λ h w r, Q h w r ∧ P w) h w.
Proof using.
  intros Hrel Hans. revert h w. induction p as [r|A c k IH]; cbn; intros h w Hw; [done|].
  intros Hp w1 Hr. destruct (Hp w1 Hr) as [Hpre Hk]. split; [done|]. intros a h' w2 Ha. apply IH; [|by apply Hk].
  eapply Hans; [exact Ha|]. by eapply Hrel.
Qed.
End logic.
End prog.

Arguments prog C R : clear implicits.
Arguments Ret {C R} r.
Arguments Do {C R A} c k.

Declare Scope prog_scope.
Notation "x ←! c ; q" := (mbind (M:=prog _) (λ x, q) (perform c)) (at level 20, c at level 100, q at level 200, right associativity) : prog_scope.
Notation "x ←? p ; q" := (check p (λ x, q)) (at level 20, p at level 100, q at level 200, right associativity) : prog_scope.
