(* ===== verification/Bytes.v ===== *)
(** * Bytes: Go's [encoding/binary] as the headers use it

    Byte strings are lists of [Z] (each an 8-bit value where it matters,
    [bytes_ok]).  A [bytes.Reader] is the list of the bytes not read yet, so
    [reader.Len()] is [len r].  This file models the parts of the Go standard
    library the header formats call: fixed-width little-endian integers,
    [io.ReadFull], and the unsigned and zig-zag varints, with one round-trip
    lemma per encoder. *)

From S2P Require Import Prelude.

Notation bytes := (list Z) (only parsing).

Definition bytes_ok (b : bytes) : Prop := Forall is_u8 b.

Inductive io_err : Set :=
| EOF
| UnexpectedEOF
| VarintOverflow.

#[global] Instance io_err_eq_dec : EqDecision io_err.
Proof. solve_decision. Defined.

Definition reader (A : Type) : Type := bytes → result io_err (A * bytes).

(** ** Fixed-width little-endian integers *)

Fixpoint le_enc (n : nat) (x : Z) : bytes :=
  match n with
  | O => []
  | S n => x mod 256 :: le_enc n (x / 256)
  end.

Fixpoint le_dec (b : bytes) : Z :=
  match b with
  | [] => 0
  | x :: b => x + 256 * le_dec b
  end.

(** [io.ReadFull]: [EOF] when nothing is left, [UnexpectedEOF] on a short
    read, and no error for an empty request. *)
Definition read_full (n : nat) : reader bytes := λ r,
  if decide (n = O) then Ok ([], r)
  else match r with
       | [] => Err EOF
       | _ => if decide (length r < n)%nat then Err UnexpectedEOF
              else Ok (take n r, drop n r)
       end.

Definition read_uint (n : nat) : reader Z := λ r,
  '(b, r) ← read_full n r; Ok (le_dec b, r).

Definition read_u32 : reader Z := read_uint 4.
Definition read_u64 : reader Z := read_uint 8.
Definition read_i32 : reader Z := λ r, '(x, r) ← read_uint 4 r; Ok (i32 x, r).
Definition read_i64 : reader Z := λ r, '(x, r) ← read_uint 8 r; Ok (i64 x, r).

Definition put_u32 (x : Z) : bytes := le_enc 4 (u32 x).
Definition put_u64 (x : Z) : bytes := le_enc 8 (u64 x).

Lemma length_le_enc n x : length (le_enc n x) = n.
Proof. revert x. induction n; intros; simpl; auto. Qed.

Lemma le_enc_ok n x : bytes_ok (le_enc n x).
Proof.
  revert x. induction n as [|n IH]; intros x; simpl; constructor; [|apply IH].
  pose proof (Z.mod_pos_bound x 256). ilia.
Qed.

Lemma le_dec_enc n x : le_dec (le_enc n x) = x mod 256 ^ Z.of_nat n.
Proof.
  revert x. induction n as [|n IH]; intros x; simpl le_dec.
  { by rewrite Z.mod_1_r. }
  rewrite IH, Nat2Z.inj_succ, Z.pow_succ_r by lia.
  assert (0 < 256 ^ Z.of_nat n) by (apply Z.pow_pos_nonneg; lia).
  rewrite Z.rem_mul_r; lia.
Qed.

Lemma le_dec_bound b : bytes_ok b → 0 <= le_dec b < 256 ^ len b.
Proof.
  induction 1 as [|x b Hx Hb IH]; [done|]. simpl le_dec.
  unfold len in *. simpl length. rewrite Nat2Z.inj_succ, Z.pow_succ_r by lia. ilia.
Qed.

Lemma read_full_app n b r : length b = n → n ≠ O → read_full n (b ++ r) = Ok (b, r).
Proof.
  intros Hb Hn. unfold read_full. rewrite decide_False by done.
  destruct (b ++ r) eqn:E.
  { apply (f_equal length) in E. rewrite length_app in E. simpl in E. lia. }
  rewrite <- E, decide_False, take_app_length', drop_app_length'; auto.
  rewrite length_app. lia.
Qed.

Lemma read_full_len n r b r' :
  read_full n r = Ok (b, r') → length b = n ∧ r = b ++ r'.
Proof.
  unfold read_full. case_decide; [naive_solver|]. destruct r; [done|].
  case_decide; [done|]. injection 1 as <- <-.
  split; [rewrite length_take; lia | by rewrite take_drop].
Qed.

Lemma read_uint_app n x r :
  n ≠ O → 0 <= x < 256 ^ Z.of_nat n → read_uint n (le_enc n x ++ r) = Ok (x, r).
Proof.
  intros Hn Hx. unfold read_uint. rewrite read_full_app by auto using length_le_enc.
  cbn. rewrite le_dec_enc, Z.mod_small by lia. done.
Qed.

Lemma read_u32_put x r : is_u32 x → read_u32 (put_u32 x ++ r) = Ok (x, r).
Proof. intros. unfold put_u32. unwrap. apply read_uint_app; [done|]. ilia. Qed.
Lemma read_u64_put x r : is_u64 x → read_u64 (put_u64 x ++ r) = Ok (x, r).
Proof. intros. unfold put_u64. unwrap. apply read_uint_app; [done|]. ilia. Qed.

Lemma i64_u64 x : is_i64 x → i64 (u64 x) = x.
Proof.
  intros. unfold i64, u64. rewrite Zplus_mod_idemp_l.
  rewrite Z.mod_small; ilia.
Qed.
Lemma i32_u32 x : is_i32 x → i32 (u32 x) = x.
Proof.
  intros. unfold i32, u32. rewrite Zplus_mod_idemp_l.
  rewrite Z.mod_small; ilia.
Qed.

Lemma read_i64_put x r : is_i64 x → read_i64 (put_u64 x ++ r) = Ok (x, r).
Proof.
  intros. unfold read_i64, put_u64. rewrite read_uint_app; [|done|apply u64_range].
  cbn. by rewrite i64_u64.
Qed.
Lemma read_i32_put x r : is_i32 x → read_i32 (put_u32 x ++ r) = Ok (x, r).
Proof.
  intros. unfold read_i32, put_u32. rewrite read_uint_app; [|done|apply u32_range].
  cbn. by rewrite i32_u32.
Qed.

#[global] Arguments put_u32 : simpl never.
#[global] Arguments put_u64 : simpl never.
#[global] Arguments read_u32 : simpl never.
#[global] Arguments read_u64 : simpl never.
#[global] Arguments read_i32 : simpl never.
#[global] Arguments read_i64 : simpl never.
#[global] Arguments read_full : simpl never.

#[export] Hint Rewrite length_le_enc : lens.

(** ** Varints *)

(** [binary.PutUvarint]: seven bits per byte, low bits first, at most ten. *)
Fixpoint put_uvarint_aux (fuel : nat) (x : Z) : bytes :=
  match fuel with
  | O => [x]
  | S fuel => if 128 <=? x then (128 + x mod 128) :: put_uvarint_aux fuel (x / 128)
              else [x]
  end.
Definition put_uvarint (x : Z) : bytes := put_uvarint_aux 9 x.

(** [binary.ReadUvarint]: the loop over at most [MaxVarintLen64] bytes.  The
    or of the code is a sum here, the shifted group and the accumulator having
    disjoint bits. *)
Fixpoint read_uvarint_aux (fuel : nat) (i s x : Z) (r : bytes) : result io_err (Z * bytes) :=
  match fuel with
  | O => Err VarintOverflow
  | S fuel =>
      match r with
      | [] => Err (if 0 <? i then UnexpectedEOF else EOF)
      | b :: r =>
          if b <? 128 then
            if (i =? 9) && (1 <? b) then Err VarintOverflow
            else Ok (x + u64 (b * 2 ^ s), r)
          else read_uvarint_aux fuel (i + 1) (s + 7) (x + u64 (b mod 128 * 2 ^ s)) r
      end
  end.
Definition read_uvarint : reader Z := read_uvarint_aux 10 0 0 0.

Definition put_varint (x : Z) : bytes :=
  let ux := u64 (2 * x) in
  put_uvarint (if x <? 0 then u64 (Z.lnot ux) else ux).
Definition read_varint : reader Z := λ r,
  '(ux, r) ← read_uvarint r;
  let x := ux / 2 in
  Ok (if Z.odd ux then Z.lnot x else x, r).

Lemma put_uvarint_nonempty x : (1 <= length (put_uvarint x))%nat.
Proof. unfold put_uvarint. simpl. destruct (128 <=? x); simpl; lia. Qed.
Lemma put_varint_nonempty x : (1 <= length (put_varint x))%nat.
Proof. apply put_uvarint_nonempty. Qed.

Lemma read_uvarint_aux_cons k i s x b r :
  read_uvarint_aux (S k) i s x (b :: r) =
  if b <? 128 then
    if (i =? 9) && (1 <? b) then Err VarintOverflow
    else Ok (x + u64 (b * 2 ^ s), r)
  else read_uvarint_aux k (i + 1) (s + 7) (x + u64 (b mod 128 * 2 ^ s)) r.
Proof. done. Qed.

Lemma read_uvarint_aux_app k i x acc r :
  (k <= 9)%nat → i = 9 - Z.of_nat k → 0 <= x → x * 2 ^ (7 * i) < 2 ^ 64 →
  read_uvarint_aux (S k) i (7 * i) acc (put_uvarint_aux k x ++ r) =
  Ok (acc + x * 2 ^ (7 * i), r).
Proof.
  revert i x acc. induction k as [|k IH]; intros i x acc Hk Hi Hx Hb.
  - subst i. change (7 * (9 - Z.of_nat 0)) with 63 in *. simpl.
    assert (x <= 1) by lia.
    destruct (Z.ltb_spec x 128); [|lia]. destruct (Z.ltb_spec 1 x); [lia|].
    rewrite u64_id by ilia. done.
  - assert (0 < 2 ^ (7 * i)) by lia. cbn [put_uvarint_aux].
    destruct (Z.leb_spec 128 x).
    + pose proof (Z.mod_pos_bound x 128 ltac:(lia)).
      pose proof (Z.div_mod x 128 ltac:(lia)).
      rewrite <- app_comm_cons, read_uvarint_aux_cons.
      destruct (Z.ltb_spec (128 + x mod 128) 128); [lia|].
      replace (7 * i + 7) with (7 * (i + 1)) by lia.
      assert (E : 2 ^ (7 * (i + 1)) = 128 * 2 ^ (7 * i)).
      { rewrite Z.mul_add_distr_l, Z.pow_add_r by lia. lia. }
      rewrite IH; [|lia|lia|apply Z.div_pos; lia|rewrite E; nia].
      assert ((128 + x mod 128) mod 128 = x mod 128) as ->
        by (symmetry; apply (Z.mod_unique _ _ 1); lia).
      rewrite u64_id by (unfold_int; nia).
      do 2 f_equal. rewrite E. nia.
    + cbn [app]. rewrite read_uvarint_aux_cons. destruct (Z.ltb_spec x 128); [|lia].
      destruct (Z.eqb_spec i 9); [lia|]. cbn [andb].
      rewrite u64_id; [done|]. unfold_int; nia.
Qed.

Lemma read_uvarint_put x r : is_u64 x → read_uvarint (put_uvarint x ++ r) = Ok (x, r).
Proof.
  intros Hx. unfold read_uvarint, put_uvarint.
  change 0 with (7 * 0) at 2. rewrite read_uvarint_aux_app by ilia.
  cbn [Z.mul Z.pow]. do 2 f_equal. lia.
Qed.

Lemma read_varint_put x r : is_i64 x → read_varint (put_varint x ++ r) = Ok (x, r).
Proof.
  intros Hx. unfold read_varint, put_varint.
  rewrite read_uvarint_put by (destruct (x <? 0); apply u64_range).
  cbn. destruct (Z.ltb_spec x 0).
  - assert (E : u64 (2 * x) = 2 * x + 2 ^ 64).
    { unfold u64. symmetry. apply (Z.mod_unique _ _ (-1)); ilia. }
    assert (E' : u64 (Z.lnot (2 * x + 2 ^ 64)) = 2 * (- x - 1) + 1).
    { unfold u64, Z.lnot. symmetry. apply (Z.mod_unique _ _ (-1)); unfold Z.pred; ilia. }
    rewrite E, E'.
    assert (Z.odd (2 * (- x - 1) + 1) = true) as ->
      by (rewrite Z.add_comm, Z.odd_add_mul_2; done).
    assert ((2 * (- x - 1) + 1) / 2 = - x - 1) as ->
      by (symmetry; apply (Z.div_unique _ _ _ 1); lia).
    do 2 f_equal. unfold Z.lnot. lia.
  - rewrite u64_id by ilia. rewrite Z.odd_mul. cbn [Z.odd andb].
    rewrite Z.mul_comm, Z.div_mul by lia. done.
Qed.
