(* ===== verification/Bitmap.v ===== *)
(** * Bitmap: the interface of [roaring.Bitmap]

    The diff metadata, the block tracker and the dedup plan keep sets of
    [uint32] block indices in a third-party [roaring.Bitmap].  The library's
    code is not part of the repository, so it is an interface here: the class
    [Bitmap] lists the operations the repository calls with the documented law
    of each, every client is proved against the class, and [gset_bitmap] is a
    concrete instance that shows the laws can be met (and that the witnesses
    of the other files run). *)

From S2P Require Import Prelude.

(** Number of indices of [[s, e)] that satisfy [f]. *)
Definition countZ (f : Z → bool) (s e : Z) : Z :=
  len (filter (λ x, f x = true) (seqZ s (e - s))).

Definition in_range (x : Z) (r : Z * Z) : bool := (r.1 <=? x) && (x <? r.2).

(** [Ranges()] yields the maximal runs [[s, e)] of set bits in ascending
    order: non-empty, within [uint32], never adjacent. *)
Fixpoint ranges_wf (lo : Z) (rs : list (Z * Z)) : Prop :=
  match rs with
  | [] => True
  | (s, e) :: rs => lo <= s ∧ s < e ∧ e <= 2 ^ 32 ∧ ranges_wf (e + 1) rs
  end.

Class Bitmap (B : Type) := {
  bm_new : B;
  bm_contains : B → Z → bool;
  bm_add : Z → B → B;
  bm_add_range : Z → Z → B → B;
  bm_remove_range : Z → Z → B → B;
  bm_or : B → B → B;
  bm_and_not : B → B → B;
  bm_ranges : B → list (Z * Z);
  bm_card_range : Z → Z → B → Z;

  bm_contains_u32 b x : bm_contains b x = true → is_u32 x;
  bm_contains_new x : bm_contains bm_new x = false;
  bm_contains_add x b y : is_u32 x →
    bm_contains (bm_add x b) y = (x =? y) || bm_contains b y;
  bm_contains_add_range s e b x : 0 <= s → e <= 2 ^ 32 →
    bm_contains (bm_add_range s e b) x = in_range x (s, e) || bm_contains b x;
  bm_contains_remove_range s e b x : 0 <= s → e <= 2 ^ 32 →
    bm_contains (bm_remove_range s e b) x = negb (in_range x (s, e)) && bm_contains b x;
  bm_contains_or b c x : bm_contains (bm_or b c) x = bm_contains b x || bm_contains c x;
  bm_contains_and_not b c x : bm_contains (bm_and_not b c) x = bm_contains b x && negb (bm_contains c x);
  bm_ranges_wf b : ranges_wf 0 (bm_ranges b);
  bm_ranges_contains b x : existsb (in_range x) (bm_ranges b) = bm_contains b x;
  bm_card_range_count s e b : 0 <= s → s <= e → e <= 2 ^ 32 →
    bm_card_range s e b = countZ (bm_contains b) s e
}.

(** ** Counting lemmas shared by the clients *)

Lemma countZ_empty f s e : e <= s → countZ f s e = 0.
Proof. intros. unfold countZ. by rewrite seqZ_nil by lia. Qed.

Lemma countZ_split f s m e : s <= m → m <= e → countZ f s e = countZ f s m + countZ f m e.
Proof.
  intros. unfold countZ. replace (e - s) with ((m - s) + (e - m)) by lia.
  rewrite seqZ_app by lia. rewrite filter_app, len_app. do 4 f_equal. lia.
Qed.

Lemma countZ_step f s e : s < e →
  countZ f s e = (if f s then 1 else 0) + countZ f (s + 1) e.
Proof.
  intros. rewrite (countZ_split f s (s + 1)) by lia. f_equal.
  unfold countZ. replace (s + 1 - s) with 1 by lia.
  change (seqZ s 1) with [s]. rewrite filter_cons, filter_nil.
  case_decide; destruct (f s); done.
Qed.

Lemma countZ_bounds f s e : s <= e → 0 <= countZ f s e <= e - s.
Proof.
  intros. unfold countZ, len.
  pose proof (length_filter (λ x, f x = true) (seqZ s (e - s))) as L.
  rewrite length_seqZ in L. lia.
Qed.

Lemma countZ_all f s e : s <= e →
  countZ f s e = e - s ↔ ∀ x, s <= x < e → f x = true.
Proof.
  intros Hse. remember (Z.to_nat (e - s)) as n eqn:Hn.
  revert s Hse Hn. induction n as [|n IH]; intros s Hse Hn.
  { rewrite countZ_empty by lia. split; [lia|]. lia. }
  rewrite countZ_step by lia. specialize (IH (s + 1) ltac:(lia) ltac:(lia)).
  pose proof (countZ_bounds f (s + 1) e ltac:(lia)).
  split.
  - intros Hc x Hx. destruct (f s) eqn:Hf; [|lia].
    destruct (decide (x = s)) as [->|]; [done|]. apply IH; lia.
  - intros Hall. rewrite Hall by lia. rewrite (proj2 IH); [lia|].
    intros x Hx. apply Hall. lia.
Qed.

Lemma countZ_ext f g s e : (∀ x, s <= x < e → f x = g x) → countZ f s e = countZ g s e.
Proof.
  remember (Z.to_nat (e - s)) as n eqn:Hn. revert s Hn.
  induction n as [|n IH]; intros s Hn Hfg; [by rewrite !countZ_empty by lia|].
  rewrite !(countZ_step _ s) by lia. rewrite Hfg by lia.
  rewrite (IH (s + 1)); [done|lia|auto with lia].
Qed.

Lemma countZ_none f s e : (∀ x, s <= x < e → f x = false) → countZ f s e = 0.
Proof.
  intros Hf. remember (Z.to_nat (e - s)) as n eqn:Hn. revert s Hn Hf.
  induction n as [|n IH]; intros s Hn Hf; [by rewrite countZ_empty by lia|].
  rewrite countZ_step, Hf, (IH (s + 1)) by (done || lia || auto with lia). done.
Qed.

(** ** Ranges *)

Lemma ranges_wf_weaken lo lo' rs : lo' <= lo → ranges_wf lo rs → ranges_wf lo' rs.
Proof. destruct rs as [|[s e] rs]; simpl; intuition lia. Qed.

Lemma ranges_wf_below lo rs x : ranges_wf lo rs → x < lo → existsb (in_range x) rs = false.
Proof.
  revert lo. induction rs as [|[s e] rs IH]; intros lo; simpl; [done|].
  intros (? & ? & ? & Hr) Hx. rewrite (IH (e + 1)) by (done || lia).
  unfold in_range. simpl. ztests; done.
Qed.

Definition in_runs (rs : list (Z * Z)) (y : Z) : bool := existsb (in_range y) rs.

(** Bits below [y] in a list of runs: those of the first run, then the rest. *)
Lemma countZ_runs lo s e rs y :
  lo <= s → s < e → ranges_wf e rs →
  countZ (in_runs ((s, e) :: rs)) lo y =
  if y <=? s then 0 else if y <? e then y - s else (e - s) + countZ (in_runs rs) e y.
Proof.
  intros Hlo Hse Hwf.
  assert (Hb : ∀ z, z < s → in_runs ((s, e) :: rs) z = false).
  { intros z Hz. cbn. rewrite (ranges_wf_below _ _ _ Hwf) by lia. unfold in_range; simpl. lia. }
  assert (Hi : ∀ z, s <= z < e → in_runs ((s, e) :: rs) z = true).
  { intros z Hz. cbn. unfold in_range; simpl. lia. }
  destruct (Z.leb_spec y s); [apply countZ_none; intros; apply Hb; lia|].
  rewrite (countZ_split _ lo s), (countZ_none _ lo s) by (lia || intros; apply Hb; lia).
  destruct (Z.ltb_spec y e).
  { rewrite (proj2 (countZ_all _ s y ltac:(lia))); [lia|]. intros; apply Hi; lia. }
  rewrite (countZ_split _ s e), (proj2 (countZ_all _ s e ltac:(lia))) by
    (try lia; intros; apply Hi; lia).
  rewrite (countZ_ext _ (in_runs rs) e y); [lia|].
  intros z Hz. cbn. unfold in_range; simpl. destruct (Z.ltb_spec z e); [lia|].
  by rewrite andb_false_r.
Qed.

#[export] Hint Rewrite @bm_contains_new @bm_contains_or : bitmap.

(** ** A concrete instance: finite sets of integers *)

Definition gs_in (s : gset Z) (x : Z) : bool := bool_decide (is_u32 x) && bool_decide (x ∈ s).

Fixpoint runs (l : list Z) : list (Z * Z) :=
  match l with
  | [] => []
  | x :: l =>
      match runs l with
      | (s, e) :: rs => if x + 1 =? s then (x, e) :: rs else (x, x + 1) :: (s, e) :: rs
      | [] => [(x, x + 1)]
      end
  end.

Definition gs_elems (s : gset Z) : list Z :=
  merge_sort Z.le (filter (λ x, is_u32 x) (elements s)).

Lemma runs_nonempty l : Forall (λ r, r.1 < r.2) (runs l).
Proof.
  induction l as [|x l IH]; simpl; [done|].
  destruct (runs l) as [|[s e] rs]; [repeat constructor; simpl; lia|].
  inversion IH; subst; simpl in *.
  destruct (Z.eqb_spec (x + 1) s); repeat constructor; simpl; try lia; done.
Qed.

Lemma runs_contains l x : existsb (in_range x) (runs l) = bool_decide (x ∈ l).
Proof.
  induction l as [|y l IH]; [done|]. cbn [runs].
  assert (bool_decide (x ∈ y :: l) = (x =? y) || bool_decide (x ∈ l)) as ->.
  { destruct (Z.eqb_spec x y) as [->|]; simpl.
    - apply bool_decide_eq_true_2. set_solver.
    - apply bool_decide_ext. set_solver. }
  rewrite <- IH. unfold in_range. pose proof (runs_nonempty l) as Hne.
  destruct (runs l) as [|[s e] rs]; simpl; [lia|].
  apply Forall_cons in Hne as [Hse _]. simpl in Hse.
  destruct (Z.eqb_spec (y + 1) s); simpl; destruct (existsb _ rs); lia.
Qed.

Lemma runs_wf l lo :
  StronglySorted Z.lt l → Forall (λ x, lo <= x ∧ is_u32 x) l → ranges_wf lo (runs l).
Proof.
  revert lo. induction l as [|x l IH]; intros lo; simpl; [done|].
  intros [Hs Hlt]%StronglySorted_inv [[Hlo Hx] Hl]%Forall_cons.
  assert (Hr : ranges_wf (x + 1) (runs l)).
  { apply IH; [done|]. rewrite Forall_forall in *. intros y Hy.
    specialize (Hlt y Hy). specialize (Hl y Hy). cbv beta in *. ilia. }
  destruct (runs l) as [|[s e] rs]; simpl in *; [ilia|].
  destruct Hr as (? & ? & ? & ?).
  destruct (Z.eqb_spec (x + 1) s); simpl; repeat split; try ilia; auto.
Qed.

Lemma gs_elems_spec s x : x ∈ gs_elems s ↔ gs_in s x = true.
Proof.
  unfold gs_elems, gs_in. rewrite merge_sort_Permutation.
  rewrite list_elem_of_filter, elem_of_elements.
  rewrite andb_true_iff, !bool_decide_eq_true. done.
Qed.

Lemma gs_elems_sorted s : StronglySorted Z.lt (gs_elems s).
Proof.
  assert (Hs : StronglySorted Z.le (gs_elems s)) by apply (StronglySorted_merge_sort Z.le).
  assert (Hn : NoDup (gs_elems s)).
  { unfold gs_elems. rewrite merge_sort_Permutation. apply NoDup_filter, NoDup_elements. }
  induction (gs_elems s) as [|x l IH]; constructor.
  - apply StronglySorted_inv in Hs as [? _]. apply NoDup_cons in Hn as [_ ?]. auto.
  - apply StronglySorted_inv in Hs as [_ Hs]. apply NoDup_cons in Hn as [Hx _].
    rewrite Forall_forall in *. intros y Hy. specialize (Hs y Hy).
    assert (x ≠ y) by (intros ->; done). lia.
Qed.

Lemma gs_count s lo hi : 0 <= lo → hi <= 2 ^ 32 →
  Z.of_nat (size (filter (λ x, lo <= x < hi) s)) = countZ (gs_in s) lo hi.
Proof.
  intros. unfold countZ, len, size, set_size. simpl. f_equal.
  apply Permutation_length, NoDup_Permutation.
  - apply NoDup_elements.
  - apply NoDup_filter, NoDup_seqZ.
  - intros x. rewrite elem_of_elements, elem_of_filter, list_elem_of_filter, elem_of_seqZ.
    unfold gs_in. rewrite andb_true_iff, !bool_decide_eq_true.
    split; intros; destruct_and?; repeat split; auto; ilia.
Qed.

#[export, refine] Instance gset_bitmap : Bitmap (gset Z) := {|
  bm_new := ∅;
  bm_contains := gs_in;
  bm_add := λ x s, {[x]} ∪ s;
  bm_add_range := λ a b s, list_to_set (seqZ a (b - a)) ∪ s;
  bm_remove_range := λ a b s, s ∖ list_to_set (seqZ a (b - a));
  bm_or := λ s t, s ∪ t;
  bm_and_not := λ s t, s ∖ t;
  bm_ranges := λ s, runs (gs_elems s);
  bm_card_range := λ a b s, Z.of_nat (size (filter (λ x, a <= x < b) s))
|}.
Proof.
  - intros s x [?%bool_decide_eq_true _]%andb_true_iff. done.
  - intros x. unfold gs_in. rewrite (bool_decide_eq_false_2 (x ∈ ∅)) by set_solver.
    apply andb_false_r.
  - intros x s y Hx. unfold gs_in. destruct (Z.eqb_spec x y) as [<-|Hne].
    + rewrite !bool_decide_eq_true_2 by (done || set_solver). done.
    + simpl. f_equal. apply bool_decide_ext. set_solver.
  - intros a b s x Ha Hb. unfold gs_in, in_range; simpl.
    destruct (Z.leb_spec a x), (Z.ltb_spec x b); simpl;
      try (f_equal; apply bool_decide_ext; rewrite elem_of_union, elem_of_list_to_set, elem_of_seqZ; split; [intros [|]; [lia|done]|auto]).
    rewrite !bool_decide_eq_true_2; [done| |ilia].
    rewrite elem_of_union, elem_of_list_to_set, elem_of_seqZ. lia.
  - intros a b s x Ha Hb. unfold gs_in, in_range; simpl.
    destruct (bool_decide (is_u32 x)); [|by rewrite andb_false_r].
    simpl. destruct (Z.leb_spec a x), (Z.ltb_spec x b); simpl;
      try (apply bool_decide_ext; rewrite elem_of_difference, elem_of_list_to_set, elem_of_seqZ; intuition lia).
    apply bool_decide_eq_false_2. rewrite elem_of_difference, elem_of_list_to_set, elem_of_seqZ. lia.
  - intros s t x. unfold gs_in. destruct (bool_decide (is_u32 x)); [|done]. simpl.
    rewrite <- bool_decide_or. apply bool_decide_ext. set_solver.
  - intros s t x. unfold gs_in. destruct (bool_decide (is_u32 x)); [|done]. simpl.
    rewrite <- bool_decide_not, <- bool_decide_and. apply bool_decide_ext. set_solver.
  - intros s. apply runs_wf; [apply gs_elems_sorted|].
    apply Forall_forall. intros x Hx%gs_elems_spec.
    apply andb_true_iff in Hx as [Hx%bool_decide_eq_true _]. ilia.
  - intros s x. rewrite runs_contains. apply eq_true_iff_eq.
    rewrite bool_decide_eq_true. apply gs_elems_spec.
  - intros a b s Ha Hab Hb. by apply gs_count.
Defined.
