(* ===== verification/Blocks.v ===== *)
(** * Blocks: block arithmetic, zero detection and build identifiers

    Models [header/block.go] (block indices and offsets on [int64]) and
    [IsZero] of [header/diff.go]; [uuid.UUID] is its array of 16 bytes. *)

From S2P Require Import Prelude Bytes.

(** ** Build identifiers *)

Notation uuid := (list Z) (only parsing).

Definition uuid_nil : uuid := replicate 16 0.
#[global] Arguments uuid_nil : simpl never.
Definition uuid_ok (u : uuid) : Prop := length u = 16%nat ∧ bytes_ok u.

#[global] Instance uuid_ok_dec u : Decision (uuid_ok u).
Proof. unfold uuid_ok, bytes_ok. apply _. Defined.

Lemma uuid_nil_ok : uuid_ok uuid_nil.
Proof. split; [done|]. apply Forall_replicate. ilia. Qed.

(** ** [header/block.go] *)

Definition PageSize : Z := 4 * 2 ^ 10.
Definition HugepageSize : Z := 2 * 2 ^ 20.
Definition RootfsBlockSize : Z := 4 * 2 ^ 10.

Definition TotalBlocks (size blockSize : Z) : Z :=
  Z.quot (i64 (i64 (size + blockSize) - 1)) blockSize.

Definition BlockOffset (idx blockSize : Z) : Z := i64 (idx * blockSize).

Definition BlocksOffsets (size blockSize : Z) : list Z :=
  (λ i, BlockOffset i blockSize) <$> seqZ 0 (TotalBlocks size blockSize).

Definition BlockIdx (off blockSize : Z) : Z := Z.quot off blockSize.

Definition BlockCeilIdx (off blockSize : Z) : Z :=
  Z.quot (i64 (i64 (off + blockSize) - 1)) blockSize.

(** ** [IsZero] of [header/diff.go] *)

Definition IsZero (b : bytes) : bool :=
  let n := length b in
  if decide (n = O) then true
  else if negb (Z.lor (Z.lor (nth 0 b 0) (nth (n - 1) b 0)) (nth (n / 2) b 0) =? 0) then false
  else if decide (n <= 3)%nat then true
  else bool_decide (take (n - 1) b = drop 1 b).

(** ** Block arithmetic without overflow *)

Lemma BlockIdx_div off bs : 0 <= off → 0 < bs → BlockIdx off bs = off / bs.
Proof. intros. apply Z.quot_div_nonneg; lia. Qed.

Lemma BlockOffset_mul i bs : is_i64 (i * bs) → BlockOffset i bs = i * bs.
Proof. apply i64_id. Qed.

Lemma BlockCeilIdx_div off bs :
  0 <= off → 0 < bs → off + bs < 2 ^ 63 → BlockCeilIdx off bs = (off + bs - 1) / bs.
Proof. intros. unfold BlockCeilIdx. unwrap. apply Z.quot_div_nonneg; lia. Qed.

(** The ceiling index bounds the block of every byte below [off]. *)
Lemma ceil_div_spec off bs x :
  0 < bs → 0 <= off → x / bs < (off + bs - 1) / bs ↔ x / bs * bs < off.
Proof.
  intros Hbs Hoff.
  pose proof (Z.div_mod (off + bs - 1) bs ltac:(lia)).
  pose proof (Z.mod_pos_bound (off + bs - 1) bs Hbs).
  split; intros; nia.
Qed.

Lemma TotalBlocks_ceil size bs : TotalBlocks size bs = BlockCeilIdx size bs.
Proof. done. Qed.

(** ** [IsZero] decides whether every byte is zero *)

Lemma shift_const (b : bytes) i :
  take (length b - 1) b = drop 1 b → (i < length b)%nat → b !! i = b !! O.
Proof.
  intros E. induction i as [|i IH]; intros Hi; [done|].
  rewrite <- IH by lia.
  change (b !! S i) with (b !! (1 + i)%nat). rewrite <- lookup_drop, <- E.
  by rewrite lookup_take_lt by lia.
Qed.

Lemma nth_lookup_or (b : bytes) i : nth i b 0 = default 0 (b !! i).
Proof. by rewrite nth_lookup. Qed.

Lemma Forall_eq_lookup (b : bytes) c :
  Forall (λ y, y = c) b ↔ ∀ i, (i < length b)%nat → b !! i = Some c.
Proof.
  rewrite Forall_lookup. split.
  - intros H i Hi. destruct (lookup_lt_is_Some_2 b i Hi) as [x Hx]. by rewrite Hx, (H i x).
  - intros H i x Hx. specialize (H i (lookup_lt_Some _ _ _ Hx)). congruence.
Qed.

Lemma lor3_zero a b c : Z.lor (Z.lor a b) c = 0 ↔ a = 0 ∧ b = 0 ∧ c = 0.
Proof. rewrite !Z.lor_eq_0_iff. tauto. Qed.

(** The sampled first, middle and last byte with the adjacent-pairs test
    decide exactly the all-zero blocks. *)
Lemma IsZero_spec b : IsZero b = true ↔ Forall (λ y, y = 0) b.
Proof.
  unfold IsZero. case_decide as Hn.
  { destruct b; [|done]. split; [constructor|done]. }
  destruct (Z.eqb_spec (Z.lor (Z.lor (nth 0 b 0) (nth (length b - 1) b 0))
    (nth (length b / 2) b 0)) 0) as [Hs|Hs]; simpl.
  - apply lor3_zero in Hs as (H0 & Hl & Hm). rewrite !nth_lookup_or in *.
    assert (Hlt : ∀ i, (i < length b)%nat → default 0 (b !! i) = 0 → b !! i = Some 0).
    { intros i Hi. destruct (lookup_lt_is_Some_2 b i Hi) as [x ->]. simpl. congruence. }
    pose proof (Nat.div_lt (length b) 2).
    apply Hlt in H0; [|lia]. apply Hlt in Hl; [|lia]. apply Hlt in Hm; [|lia].
    rewrite Forall_eq_lookup. case_decide as Hn3.
    + split; [intros _ i Hi|done].
      assert (Hi3 : (i = 0 ∨ i = length b - 1 ∨ i = length b / 2)%nat).
      { pose proof (Nat.div_mod (length b) 2). pose proof (Nat.mod_upper_bound (length b) 2). lia. }
      destruct Hi3 as [Hi3 | [Hi3 | Hi3]]; by rewrite Hi3.
    + rewrite bool_decide_eq_true. split.
      * intros E i Hi. by rewrite (shift_const b i E Hi).
      * intros E. apply list_eq. intros i. rewrite lookup_drop.
        destruct (decide (i < length b - 1)%nat).
        -- rewrite lookup_take_lt, !E by lia. done.
        -- rewrite lookup_take_ge by lia. symmetry. apply lookup_ge_None. lia.
  - split; [done|]. intros Hall. destruct Hs. rewrite !nth_lookup_or.
    assert (Hz : ∀ i, default 0 (b !! i) = 0).
    { intros i. destruct (b !! i) eqn:E; [|done]. simpl. by eapply Forall_lookup in Hall. }
    by rewrite !Hz.
Qed.

Lemma IsZero_replicate n : IsZero (replicate n 0) = true.
Proof. apply IsZero_spec, Forall_replicate. done. Qed.

Lemma zeroes_replicate b : Forall (λ y, y = 0) b → b = replicate (length b) 0.
Proof. induction 1; simpl; congruence. Qed.

(** [IsZero] decides whether a block is all zero: sampling the first,
    middle and last byte and then comparing the block with itself shifted by
    one byte accepts exactly the blocks whose every byte is zero, at every
    length, the short ones included. *)
Theorem IsZero_correct (b : bytes) : IsZero b = true ↔ b = replicate (length b) 0.
Proof.
  rewrite IsZero_spec. split; [apply zeroes_replicate|]. intros ->. by apply Forall_replicate.
Qed.
