(* ===== verification/Mapping.v ===== *)
(** * Mapping: the block-device source map and its algebra

    Models [header/mapping.go] ([BuildMap], [CreateMapping], [MergeMappings],
    [NormalizeMappings]) and the checks and helpers of [header/inspect.go].
    The specification is [source]: the build and storage position a byte of
    the device is read from.  [CreateMapping] realises the packed order of a
    dirty bitmap, [MergeMappings] the override of a base by a diff, and
    [NormalizeMappings] keeps every byte's source. *)

From S2P Require Import Prelude Bytes Bitmap Blocks.

Record BuildMap := mkBuildMap {
  Offset : Z;              (* uint64 *)
  Length : Z;              (* uint64 *)
  BuildId : uuid;
  BuildStorageOffset : Z   (* uint64 *)
}.

#[global] Instance BuildMap_eq_dec : EqDecision BuildMap.
Proof. solve_decision. Defined.

(** [m.Offset + m.Length] as the code computes it. *)
Definition end64 (m : BuildMap) : Z := u64 (Offset m + Length m).

(** ** [CreateMapping] *)

Fixpoint create_loop (buildId : uuid) (blockSize : Z) (rs : list (Z * Z)) (sto : Z)
    : list BuildMap :=
  match rs with
  | [] => []
  | (start, endExcl) :: rs =>
      let blockLength := i64 (i64 endExcl - i64 start) in
      let m := mkBuildMap (u64 (BlockOffset (i64 start) blockSize))
                          (u64 (BlockOffset blockLength blockSize)) buildId sto in
      m :: create_loop buildId blockSize rs (u64 (sto + Length m))
  end.

Definition CreateMapping `{Bitmap B} (buildId : uuid) (dirty : B) (blockSize : Z)
    : list BuildMap :=
  create_loop buildId blockSize (bm_ranges dirty) 0.

(** ** [MergeMappings]

    One iteration of the loop per unit of fuel.  [base] and [diff] are the
    suffixes at [baseIdx] and [diffIdx]; overwriting [baseMapping[baseIdx]]
    replaces the head of [base].  [None] is running out of fuel, which the
    fuel of [MergeMappings] excludes ([merge_loop_total]). *)

Definition left_part (base : BuildMap) (leftBaseLength : Z) : BuildMap :=
  mkBuildMap (Offset base) (u64 leftBaseLength) (BuildId base) (BuildStorageOffset base).

Definition right_part (base : BuildMap) (rightBaseShift rightBaseLength : Z) : BuildMap :=
  mkBuildMap (u64 (Offset base + u64 rightBaseShift)) (u64 rightBaseLength) (BuildId base)
             (u64 (BuildStorageOffset base + u64 rightBaseShift)).

Fixpoint merge_loop (fuel : nat) (base diff acc : list BuildMap) : option (list BuildMap) :=
  match fuel with
  | O => None
  | S fuel =>
      match base, diff with
      | b :: base', d :: diff' =>
          if Length b =? 0 then merge_loop fuel base' diff acc
          else if Length d =? 0 then merge_loop fuel base diff' acc
          else if end64 b <=? Offset d then merge_loop fuel base' diff (acc ++ [b])
          else if end64 d <=? Offset b then merge_loop fuel base diff' (acc ++ [d])
          else if (Offset d <=? Offset b) && (end64 b <=? end64 d) then
            merge_loop fuel base' diff acc
          else
          let leftBaseLength := i64 (i64 (Offset d) - i64 (Offset b)) in
          let rightBaseShift := i64 (i64 (i64 (Offset d) + i64 (Length d)) - i64 (Offset b)) in
          let rightBaseLength := i64 (i64 (Length b) - rightBaseShift) in
          if (Offset b <=? Offset d) && (end64 d <=? end64 b) then
            let acc := if 0 <? leftBaseLength then acc ++ [left_part b leftBaseLength] else acc in
            if 0 <? rightBaseLength then
              merge_loop fuel (right_part b rightBaseShift rightBaseLength :: base') diff' (acc ++ [d])
            else merge_loop fuel base' diff' (acc ++ [d])
          else if Offset d <? Offset b then
            if 0 <? rightBaseLength then
              merge_loop fuel (right_part b rightBaseShift rightBaseLength :: base') diff' (acc ++ [d])
            else merge_loop fuel base' diff' (acc ++ [d])
          else if Offset b <? Offset d then
            merge_loop fuel base' diff
              (if 0 <? leftBaseLength then acc ++ [left_part b leftBaseLength] else acc)
          else merge_loop fuel base diff acc
      | _, _ => Some (acc ++ base ++ diff)
      end
  end.

Definition MergeMappings (baseMapping diffMapping : list BuildMap) : list BuildMap :=
  match diffMapping with
  | [] => baseMapping
  | _ =>
      match merge_loop (S (length baseMapping + length diffMapping)) baseMapping diffMapping [] with
      | Some mappings => mappings
      | None => []
      end
  end.

(** ** [NormalizeMappings] *)

Fixpoint normalize_loop (current : BuildMap) (ms result : list BuildMap) : list BuildMap :=
  match ms with
  | [] => result ++ [current]
  | mp :: ms =>
      let storageContiguous :=
        bool_decide (BuildId mp = uuid_nil) ||
        (BuildStorageOffset mp =? u64 (BuildStorageOffset current + Length current)) in
      if bool_decide (BuildId mp = BuildId current) && storageContiguous then
        normalize_loop (mkBuildMap (Offset current) (u64 (Length current + Length mp))
                          (BuildId current) (BuildStorageOffset current)) ms result
      else normalize_loop mp ms (result ++ [current])
  end.

Definition NormalizeMappings (mappings : list BuildMap) : list BuildMap :=
  match mappings with
  | [] => []
  | m :: ms => normalize_loop m ms []
  end.

(** ** [header/inspect.go] *)

Inductive mapping_err : Set :=
| WrongOffset (i : Z)       (* does not start at the correct offset *)
| BadLength (i : Z)         (* not a multiple of the block size *)
| BeyondSize (i : Z)        (* goes beyond the size *)
| NotWhole                  (* does not cover the whole size *)
| ZeroBlockSize
| DivisionByZero            (* run-time panic: modulo a zero block size *)
| IndexOutOfRange.          (* run-time panic: the last mapping of none *)

#[global] Instance mapping_err_eq_dec : EqDecision mapping_err.
Proof. solve_decision. Defined.

Fixpoint validate_loop (ms : list BuildMap) (size blockSize currentOffset i : Z)
    : result mapping_err Z :=
  match ms with
  | [] => Ok currentOffset
  | m :: ms =>
      if blockSize =? 0 then Err DivisionByZero
      else if negb (currentOffset =? Offset m) then Err (WrongOffset i)
      else if negb (Length m mod blockSize =? 0) then Err (BadLength i)
      else if size <? u64 (currentOffset + Length m) then Err (BeyondSize i)
      else validate_loop ms size blockSize (u64 (currentOffset + Length m)) (i + 1)
  end.

Definition ValidateMappings (ms : list BuildMap) (size blockSize : Z) : result mapping_err unit :=
  c ← validate_loop ms size blockSize 0 0;
  if negb (c =? size) then
    match ms with [] => Err IndexOutOfRange | _ => Err NotWhole end
  else Ok ().

Definition Layers (ms : list BuildMap) : gset uuid := list_to_set (BuildId <$> ms).

Definition BuildMap_Equal (m other : BuildMap) : bool :=
  (Offset m =? Offset other) && (Length m =? Length other) &&
  bool_decide (BuildId m = BuildId other).

Fixpoint maps_Equal (a b : list BuildMap) : bool :=
  match a, b with
  | [], [] => true
  | x :: a, y :: b => BuildMap_Equal x y && maps_Equal a b
  | _, _ => false
  end.

(** ** Specification: where a byte of the device comes from *)

Definition covers (m : BuildMap) (x : Z) : bool :=
  (Offset m <=? x) && (x <? Offset m + Length m).

Definition source_in (m : BuildMap) (x : Z) : uuid * Z :=
  (BuildId m, BuildStorageOffset m + (x - Offset m)).

Fixpoint source (ms : list BuildMap) (x : Z) : option (uuid * Z) :=
  match ms with
  | [] => None
  | m :: ms => if covers m x then Some (source_in m x) else source ms x
  end.

(** The same with the storage position of empty regions erased: a nil build
    reads as zeros wherever it claims to be stored. *)
Definition erase_nil (s : uuid * Z) : uuid * Z :=
  if bool_decide (s.1 = uuid_nil) then (uuid_nil, 0) else s.
Definition content (ms : list BuildMap) (x : Z) : option (uuid * Z) := erase_nil <$> source ms x.

(** Entries whose arithmetic stays within [int64] and [uint64]. *)
Definition entry_ok (m : BuildMap) : Prop :=
  0 <= Offset m ∧ 0 <= Length m ∧ Offset m + Length m < 2 ^ 63 ∧
  0 <= BuildStorageOffset m ∧ BuildStorageOffset m + Length m < 2 ^ 63.

#[global] Instance entry_ok_dec m : Decision (entry_ok m).
Proof. unfold entry_ok. apply _. Defined.

(** Sorted and disjoint from [lo] on. *)
Fixpoint sorted_from (lo : Z) (ms : list BuildMap) : Prop :=
  match ms with
  | [] => True
  | m :: ms => lo <= Offset m ∧ entry_ok m ∧ sorted_from (Offset m + Length m) ms
  end.

(** Exactly tiling [[lo, hi)]. *)
Fixpoint tiles (lo hi : Z) (ms : list BuildMap) : Prop :=
  match ms with
  | [] => lo = hi
  | m :: ms => Offset m = lo ∧ entry_ok m ∧ tiles (lo + Length m) hi ms
  end.

#[global] Instance sorted_from_dec lo ms : Decision (sorted_from lo ms).
Proof. revert lo. induction ms; intros; simpl; apply _. Defined.
#[global] Instance tiles_dec lo hi ms : Decision (tiles lo hi ms).
Proof. revert lo. induction ms; intros; simpl; apply _. Defined.

(** ** Basic facts of the specification *)

Lemma sorted_weaken lo lo' ms : lo' <= lo → sorted_from lo ms → sorted_from lo' ms.
Proof. destruct ms; simpl; intuition lia. Qed.

Lemma tiles_sorted lo hi ms : tiles lo hi ms → sorted_from lo ms.
Proof.
  revert lo. induction ms as [|m ms IH]; intros lo; simpl; [done|].
  intros (<- & ? & ?). split; [lia|]. auto.
Qed.

Lemma tiles_le lo hi ms : tiles lo hi ms → lo <= hi.
Proof.
  revert lo. induction ms as [|m ms IH]; intros lo; simpl; [lia|].
  intros (<- & Hm & Ht). apply IH in Ht. unfold entry_ok in Hm. lia.
Qed.

Lemma coversP m x :
  BoolSpec (Offset m <= x < Offset m + Length m) (¬ Offset m <= x < Offset m + Length m)
           (covers m x).
Proof. unfold covers. ztests; constructor; lia. Qed.

Lemma source_below lo ms x : sorted_from lo ms → x < lo → source ms x = None.
Proof.
  revert lo. induction ms as [|m ms IH]; intros lo; simpl; [done|].
  unfold entry_ok. intros (? & ? & Hs) Hx.
  rewrite (IH _ Hs) by lia. destruct (coversP m x); [lia|done].
Qed.

Lemma source_tiles lo hi ms x : tiles lo hi ms → is_Some (source ms x) ↔ lo <= x < hi.
Proof.
  revert lo. induction ms as [|m ms IH]; intros lo; simpl.
  { intros ->. split; [intros []%is_Some_None | lia]. }
  intros (<- & Hm & Ht). pose proof (tiles_le _ _ _ Ht). unfold entry_ok in Hm.
  specialize (IH _ Ht). destruct (coversP m x); [|rewrite IH; lia].
  split; [lia | eauto].
Qed.

Lemma covers_source m ms x : covers m x = true → source (m :: ms) x = Some (source_in m x).
Proof. simpl. by intros ->. Qed.
Lemma covers_source_ne m ms x : covers m x = false → source (m :: ms) x = source ms x.
Proof. simpl. by intros ->. Qed.

Lemma sorted_app lo l k :
  sorted_from lo (l ++ k) ↔
  sorted_from lo l ∧ sorted_from (foldl (λ _ m, Offset m + Length m) lo l) k.
Proof.
  revert lo. induction l as [|m l IH]; intros lo; simpl; [tauto|].
  rewrite IH. tauto.
Qed.

(** ** [MergeMappings]: termination and override *)

Lemma merge_loop_acc k base diff acc :
  merge_loop k base diff acc = (λ r, acc ++ r) <$> merge_loop k base diff [].
Proof.
  revert base diff acc. induction k as [|k IH]; intros base diff acc; [done|].
  cbn [merge_loop]. destruct base as [|b base], diff as [|d diff]; [done..|].
  repeat case_match; try apply IH;
    rewrite IH; symmetry; rewrite IH, <- option_fmap_compose;
    apply option_fmap_ext; intros r; simpl; by rewrite <- ?app_assoc.
Qed.

(** Every iteration drops an entry of the base or of the diff, whatever the
    numbers: the "invalid case" at the end of the loop body is unreachable. *)
Lemma merge_loop_total k base diff acc :
  (length base + length diff < k)%nat → is_Some (merge_loop k base diff acc).
Proof.
  revert base diff acc. induction k as [|k IH]; intros base diff acc Hk; [lia|].
  cbn [merge_loop]. destruct base as [|b base], diff as [|d diff]; [eauto..|].
  simpl in Hk.
  repeat case_match; apply IH; simpl; lia.
Qed.

Definition overlay (top bot : option (uuid * Z)) : option (uuid * Z) :=
  match top with Some s => Some s | None => bot end.

Lemma overlay_None_r top : overlay top None = top.
Proof. by destruct top. Qed.

Lemma right_part_val b s l :
  entry_ok b → 0 <= s → s + l = Length b → 0 < l →
  right_part b s l = mkBuildMap (Offset b + s) l (BuildId b) (BuildStorageOffset b + s).
Proof. unfold entry_ok. intros. unfold right_part. unwrap. done. Qed.

Lemma left_part_val b l :
  entry_ok b → 0 <= l <= Length b →
  left_part b l = mkBuildMap (Offset b) l (BuildId b) (BuildStorageOffset b).
Proof. unfold entry_ok. intros. unfold left_part. unwrap. done. Qed.

(** One step of the override: emitting [m], the rest being as specified. *)
Lemma overlay_emit m r top bot top' bot' lo :
  lo <= Offset m → entry_ok m →
  sorted_from (Offset m + Length m) r →
  (∀ x, source r x = overlay (top' x) (bot' x)) →
  (∀ x, overlay (top x) (bot x) =
        if covers m x then Some (source_in m x) else overlay (top' x) (bot' x)) →
  sorted_from lo (m :: r) ∧ ∀ x, source (m :: r) x = overlay (top x) (bot x).
Proof.
  intros Hlo Hm Hs Hr Hstep. split; [done|]. intros x. rewrite Hstep. simpl.
  destruct (covers m x); [done|apply Hr].
Qed.

(** Decide every [covers] of the goal, discharging the impossible cases and
    the entries that start after [x]. *)
Ltac covers_cases :=
  repeat match goal with
  | |- context [covers ?m ?x] => destruct (coversP m x); simpl in *; try lia
  end.
Ltac source_none :=
  repeat match goal with
  | Hs : sorted_from ?lo ?ms |- context [source ?ms ?x] =>
      rewrite (source_below lo ms x Hs) by lia
  end.

(** What is left of a base entry once a diff entry ending at [e] inside it has
    been emitted. *)
Definition base_rest (b : BuildMap) (base : list BuildMap) (e : Z) : list BuildMap :=
  if 0 <? Length b - (e - Offset b)
  then right_part b (e - Offset b) (Length b - (e - Offset b)) :: base else base.

Lemma base_rest_spec b base e :
  entry_ok b → sorted_from (Offset b + Length b) base →
  Offset b <= e → e <= Offset b + Length b →
  sorted_from e (base_rest b base e) ∧
  ∀ x, e <= x → source (base_rest b base e) x = source (b :: base) x.
Proof.
  intros Hb Hs He1 He2. assert (Hb' := Hb). unfold entry_ok in Hb'. unfold base_rest.
  destruct (Z.ltb_spec 0 (Length b - (e - Offset b))).
  - rewrite right_part_val by (done || lia). split.
    + simpl. split; [lia|]. split; [unfold entry_ok; simpl; lia|].
      eapply sorted_weaken; [|done]. lia.
    + intros x Hx. simpl. covers_cases; [|done].
      unfold source_in; simpl. do 2 f_equal. lia.
  - split; [eapply sorted_weaken; [|done]; lia|].
    intros x Hx. simpl. covers_cases. done.
Qed.

(** Both lists start at or after [lo], every entry being in range. *)
Ltac sorted_side :=
  simpl; unfold entry_ok; simpl;
  repeat match goal with |- _ ∧ _ => split end;
  first [done | lia | eapply sorted_weaken; [|eassumption]; simpl; lia].

(** The source of every byte is settled by the entries that cover it. *)
Ltac source_cases := intros ?x; simpl; covers_cases; source_none; done.

(** Past [e] the rest of the base reads as the base did; before it, as nothing. *)
Ltac rest_cases Hrest e x :=
  unfold overlay; case_match; try done;
  destruct (Z.le_gt_cases e x);
  [rewrite Hrest by lia; simpl; covers_cases; source_none; done | source_none; first [done | lia]].

(** A diff entry [d] ends inside the base entry [b]: it is emitted, preceded by
    the part of [b] to its left if there is one, and the merge goes on with
    what is left of [b]. *)
Lemma merge_cut b base d diff r lo :
  entry_ok b → entry_ok d → sorted_from (Offset b + Length b) base →
  sorted_from (Offset d + Length d) diff →
  lo <= Offset b → lo <= Offset d →
  Offset b < Offset d + Length d → Offset d + Length d <= Offset b + Length b →
  sorted_from (Offset d + Length d) r →
  (∀ x, source r x = overlay (source diff x)
                       (source (base_rest b base (Offset d + Length d)) x)) →
  let out := if 0 <? Offset d - Offset b
             then [left_part b (Offset d - Offset b); d] else [d] in
  sorted_from lo (out ++ r) ∧
  ∀ x, source (out ++ r) x = overlay (source (d :: diff) x) (source (b :: base) x).
Proof.
  intros Hb Hd Hbs Hds Hlb Hld H1 H2 Hr Hsrc out.
  assert (Hb' := Hb). assert (Hd' := Hd). unfold entry_ok in Hb', Hd'.
  destruct (base_rest_spec b base (Offset d + Length d) Hb Hbs ltac:(lia) H2) as [Hrs Hrest].
  assert (Hemit : sorted_from (Offset d) (d :: r) ∧ ∀ x, source (d :: r) x =
    overlay (source (d :: diff) x) (source (base_rest b base (Offset d + Length d)) x)).
  { eapply overlay_emit; try done. source_cases. }
  destruct Hemit as [Hds' Hemit].
  unfold out. destruct (Z.ltb_spec 0 (Offset d - Offset b)); cbn [app].
  - rewrite left_part_val by (done || lia).
    eapply overlay_emit; [done|unfold entry_ok; simpl; lia|sorted_side|exact Hemit|].
    intros x. simpl. covers_cases; source_none; try done; rest_cases Hrest (Offset d + Length d) x.
  - split; [sorted_side|]. intros x. rewrite Hemit. simpl. covers_cases; try done; rest_cases Hrest (Offset d + Length d) x.
Qed.

Lemma merge_rest_val k b base e diff acc :
  (if 0 <? Length b - (e - Offset b)
   then merge_loop k (right_part b (e - Offset b) (Length b - (e - Offset b)) :: base) diff acc
   else merge_loop k base diff acc) =
  merge_loop k (base_rest b base e) diff acc.
Proof. unfold base_rest. by destruct (0 <? _). Qed.

Lemma merge_loop_spec k base diff lo r :
  sorted_from lo base → sorted_from lo diff → merge_loop k base diff [] = Some r →
  sorted_from lo r ∧ ∀ x, source r x = overlay (source diff x) (source base x).
Proof.
  revert base diff lo r. induction k as [|k IH]; intros base diff lo r Hb Hd; [done|].
  cbn [merge_loop]. destruct base as [|b base].
  { intros [= <-]. split; [done|]. intros x. by rewrite overlay_None_r. }
  destruct diff as [|d diff].
  { intros [= <-]. rewrite app_nil_r. done. }
  simpl in Hb, Hd. destruct Hb as (Hlb & Hb & Hbs), Hd as (Hld & Hd & Hds).
  assert (Hb' := Hb). assert (Hd' := Hd). unfold entry_ok in Hb', Hd'.
  unfold end64. unwrap.
  destruct (Z.eqb_spec (Length b) 0).
  { intros Hr. destruct (IH base (d :: diff) lo r) as [? Hsrc]; [sorted_side..|done|].
    split; [done|]. intros x. rewrite Hsrc. simpl. covers_cases; done. }
  destruct (Z.eqb_spec (Length d) 0).
  { intros Hr. destruct (IH (b :: base) diff lo r) as [? Hsrc]; [sorted_side..|done|].
    split; [done|]. intros x. rewrite Hsrc. simpl. covers_cases; done. }
  cbn [app]. destruct (Z.leb_spec (Offset b + Length b) (Offset d)).
  { rewrite merge_loop_acc. intros (r' & Hr & ->)%fmap_Some.
    destruct (IH base (d :: diff) (Offset b + Length b) r') as [? Hsrc]; [sorted_side..|done|].
    eapply overlay_emit; try done. source_cases. }
  destruct (Z.leb_spec (Offset d + Length d) (Offset b)).
  { rewrite merge_loop_acc. intros (r' & Hr & ->)%fmap_Some.
    destruct (IH (b :: base) diff (Offset d + Length d) r') as [? Hsrc]; [sorted_side..|done|].
    eapply overlay_emit; try done. source_cases. }
  destruct (Z.leb_spec (Offset d) (Offset b)), (Z.leb_spec (Offset b + Length b) (Offset d + Length d));
    cbn [andb].
  { intros Hr. destruct (IH base (d :: diff) lo r) as [? Hsrc]; [sorted_side..|done|].
    split; [done|]. intros x. rewrite Hsrc. simpl. covers_cases; done. }
  all: rewrite !merge_rest_val.
  all: assert (Hcut : ∀ r', Offset d + Length d <= Offset b + Length b →
      merge_loop k (base_rest b base (Offset d + Length d)) diff [] = Some r' →
      let out := if 0 <? Offset d - Offset b
                 then [left_part b (Offset d - Offset b); d] else [d] in
      sorted_from lo (out ++ r') ∧
      ∀ x, source (out ++ r') x = overlay (source (d :: diff) x) (source (b :: base) x))
    by (intros r' Hle Hr;
        destruct (base_rest_spec b base (Offset d + Length d)) as [Hrs _]; [done..|lia|lia|];
        destruct (IH _ diff (Offset d + Length d) r' Hrs Hds Hr) as [? Hsrc];
        apply merge_cut; done || lia).
  all: destruct (Z.ltb_spec 0 (Offset d - Offset b)), (Z.leb_spec (Offset b) (Offset d)),
      (Z.leb_spec (Offset d + Length d) (Offset b + Length b)),
      (Z.ltb_spec (Offset d) (Offset b)); cbn [andb]; try lia;
      try (destruct (Z.ltb_spec (Offset b) (Offset d)); [|lia]).
  all: cbn [app]; rewrite merge_loop_acc; intros (r' & Hr & ->)%fmap_Some; try by apply Hcut.
  (* the base starts before the diff and ends inside it *)
  destruct (IH base (d :: diff) (Offset d) r') as [? Hsrc]; [sorted_side..|done|].
  cbn [app]. rewrite left_part_val by (done || lia).
  eapply overlay_emit; [done|unfold entry_ok; simpl; lia|sorted_side|exact Hsrc|].
  source_cases.
Qed.

(** [MergeMappings] in one statement: the result is sorted and every byte is
    read from the diff where the diff covers it, from the base elsewhere. *)
Lemma MergeMappings_spec base diff lo :
  sorted_from lo base → sorted_from lo diff →
  sorted_from lo (MergeMappings base diff) ∧
  ∀ x, source (MergeMappings base diff) x = overlay (source diff x) (source base x).
Proof.
  intros Hb Hd. unfold MergeMappings. destruct diff as [|d diff]; [done|].
  destruct (merge_loop_total (S (length base + length (d :: diff))) base (d :: diff) [])
    as [r Hr]; [lia|].
  rewrite Hr. by eapply merge_loop_spec.
Qed.

(** Entries of positive length, which the loop never breaks into empty ones. *)
Definition positive (ms : list BuildMap) : Prop := Forall (λ m, 0 < Length m) ms.

Lemma merge_loop_positive k base diff acc r :
  positive base → positive diff → positive acc →
  merge_loop k base diff acc = Some r → positive r.
Proof.
  unfold positive.
  revert base diff acc r. induction k as [|k IH]; intros base diff acc r Hb Hd Ha; [done|].
  cbn [merge_loop]. destruct base as [|b base], diff as [|d diff];
    try (intros [= <-]; rewrite ?app_nil_r; by repeat apply Forall_app_2).
  inversion Hb as [|? ? Hb1 Hb2]; subst. inversion Hd as [|? ? Hd1 Hd2]; subst.
  repeat case_match; apply IH; rewrite ?Forall_app, ?Forall_cons; repeat split; auto;
    simpl; zbool; try done.
  all: match goal with |- 0 < u64 (i64 ?y) =>
         pose proof (i64_range y); rewrite u64_id by ilia end; lia.
Qed.

Lemma MergeMappings_positive base diff :
  positive base → positive diff → positive (MergeMappings base diff).
Proof.
  intros Hb Hd. unfold MergeMappings. destruct diff as [|d diff]; [done|].
  destruct (merge_loop _ _ _ _) eqn:E; [|constructor].
  exact (merge_loop_positive _ _ _ [] _ Hb Hd (Forall_nil_2 _) E).
Qed.

Lemma tiles_of_source lo hi ms :
  lo <= hi → sorted_from lo ms → positive ms →
  (∀ x, is_Some (source ms x) ↔ lo <= x < hi) → tiles lo hi ms.
Proof.
  revert lo. induction ms as [|m ms IH]; intros lo Hle Hs Hp Hsrc; simpl.
  { destruct (Z.eq_dec lo hi); [done|].
    destruct (proj2 (Hsrc lo)) as [? [=]]. lia. }
  destruct Hs as (Hlo & Hm & Hs). inversion Hp as [|? ? Hm0 Hp']; subst.
  assert (Hend : Offset m + Length m - 1 < hi).
  { apply (Hsrc (Offset m + Length m - 1)). rewrite covers_source; [eauto|].
    destruct (coversP m (Offset m + Length m - 1)); [done|lia]. }
  assert (Offset m = lo) as Ho.
  { destruct (Z.eq_dec (Offset m) lo); [done|].
    destruct (proj2 (Hsrc lo)) as [s Hs']; [lia|]. simpl in Hs'.
    destruct (coversP m lo); [lia|]. rewrite (source_below _ _ _ Hs) in Hs'; [done|lia]. }
  split; [done|]. split; [done|]. rewrite <- Ho. apply IH; auto; [lia|].
  intros x. specialize (Hsrc x). simpl in Hsrc. destruct (coversP m x).
  - rewrite (source_below _ _ _ Hs) by lia. split; [intros []%is_Some_None|lia].
  - rewrite Hsrc. lia.
Qed.

(** [MergeMappings] of a base that tiles the device with a diff inside it tiles
    the device again. *)
Lemma MergeMappings_tiles base diff lo hi :
  tiles lo hi base → sorted_from lo diff → positive base → positive diff →
  (∀ x, is_Some (source diff x) → x < hi) →
  tiles lo hi (MergeMappings base diff).
Proof.
  intros Hb Hd Hpb Hpd Hin. pose proof (tiles_sorted _ _ _ Hb) as Hsb.
  destruct (MergeMappings_spec base diff lo Hsb Hd) as [Hs Hsrc].
  apply tiles_of_source; [by eapply tiles_le|done|by apply MergeMappings_positive|].
  intros x. rewrite Hsrc. specialize (Hin x).
  destruct (source diff x) eqn:E; simpl; [|by apply source_tiles].
  split; [|eauto]. intros _. split; [|eauto].
  destruct (Z.le_gt_cases lo x); [done|].
  rewrite (source_below _ _ _ Hd) in E; [done|lia].
Qed.

(** ** [NormalizeMappings] *)

(** Two neighbours the loop would have joined. *)
Definition joinable (a b : BuildMap) : bool :=
  bool_decide (BuildId b = BuildId a) &&
  (bool_decide (BuildId b = uuid_nil) ||
   (BuildStorageOffset b =? u64 (BuildStorageOffset a + Length a))).

Fixpoint normalized (ms : list BuildMap) : Prop :=
  match ms with
  | a :: (b :: _) as ms => joinable a b = false ∧ normalized ms
  | _ => True
  end.

#[global] Instance normalized_dec ms : Decision (normalized ms).
Proof. induction ms as [|a [|b ms] IH]; simpl; apply _. Defined.

(** Joined runs keep room for their storage end: every storage offset plus the
    size of the tiled region stays an [int64]. *)
Definition storage_room (size : Z) (ms : list BuildMap) : Prop :=
  Forall (λ m, BuildStorageOffset m + size < 2 ^ 63) ms.

Lemma normalize_loop_acc c ms acc :
  normalize_loop c ms acc = acc ++ normalize_loop c ms [].
Proof.
  revert c acc. induction ms as [|m ms IH]; intros c acc; [done|]. cbn [normalize_loop].
  case_match; [apply IH|]. rewrite (IH m (acc ++ [c])), (IH m ([] ++ [c])).
  by rewrite <- app_assoc.
Qed.

Lemma normalize_loop_cons c m ms :
  normalize_loop c (m :: ms) [] =
  if joinable c m then
    normalize_loop (mkBuildMap (Offset c) (u64 (Length c + Length m)) (BuildId c)
                      (BuildStorageOffset c)) ms []
  else c :: normalize_loop m ms [].
Proof.
  cbn [normalize_loop]. unfold joinable. case_match; [done|].
  by rewrite normalize_loop_acc.
Qed.

Lemma joinable_spec a b :
  joinable a b = true ↔
  BuildId b = BuildId a ∧
  (BuildId b = uuid_nil ∨ BuildStorageOffset b = u64 (BuildStorageOffset a + Length a)).
Proof.
  unfold joinable. rewrite andb_true_iff, orb_true_iff, !bool_decide_eq_true, Z.eqb_eq. done.
Qed.

(** Joining two adjacent neighbours keeps the content of every byte. *)
Lemma join_content c m ms x :
  entry_ok c → entry_ok m → Offset m = Offset c + Length c → joinable c m = true →
  content (mkBuildMap (Offset c) (Length c + Length m) (BuildId c) (BuildStorageOffset c) :: ms) x =
  content (c :: m :: ms) x.
Proof.
  unfold entry_ok. intros Hc Hm Ho [Hid Hsto]%joinable_spec.
  unfold content. simpl. covers_cases; try done.
  simpl. f_equal. unfold erase_nil, source_in; simpl.
  destruct Hsto as [Hnil|Hsto].
  - rewrite <- Hid, Hnil. by rewrite !bool_decide_eq_true_2.
  - rewrite Hid. case_bool_decide; [done|]. f_equal. rewrite Hsto. unwrap. lia.
Qed.

Lemma normalize_loop_spec c ms hi size :
  entry_ok c → BuildStorageOffset c + size < 2 ^ 63 →
  tiles (Offset c + Length c) hi ms → hi - Offset c <= size → hi < 2 ^ 63 →
  storage_room size ms →
  let r := normalize_loop c ms [] in
  tiles (Offset c) hi r ∧ (∀ x, content r x = content (c :: ms) x) ∧
  (length r <= S (length ms))%nat.
Proof.
  intros Hc Hsz Ht Hhi Hmax Hroom. revert c Hc Hsz Ht Hhi.
  induction ms as [|m ms IH]; intros c Hc Hsz Ht Hhi; cbv zeta.
  { simpl. simpl in Ht. auto. }
  inversion Hroom as [|? ? Hroom1 Hroom2]; subst. specialize (IH Hroom2).
  rewrite normalize_loop_cons. destruct Ht as (Ho & Hm & Ht).
  assert (Hc' := Hc). assert (Hm' := Hm). unfold entry_ok in Hc', Hm'.
  pose proof (tiles_le _ _ _ Ht).
  destruct (joinable c m) eqn:Hj.
  - unwrap. destruct (IH (mkBuildMap (Offset c) (Length c + Length m) (BuildId c)
      (BuildStorageOffset c))) as (? & Hcon & ?); simpl; try done.
    { unfold entry_ok. simpl. lia. } { by rewrite Z.add_assoc. }
    split; [done|]. split; [|lia]. intros x. rewrite Hcon. by apply join_content.
  - destruct (IH m) as (? & Hcon & ?); try done; [by rewrite Ho|lia|].
    split; [simpl; by rewrite <- Ho|]. split; [|simpl; lia].
    intros x. specialize (Hcon x). unfold content in *. simpl in *.
    destruct (covers c x); [done|exact Hcon].
Qed.

Lemma NormalizeMappings_spec ms lo hi :
  tiles lo hi ms → hi < 2 ^ 63 → storage_room (hi - lo) ms →
  tiles lo hi (NormalizeMappings ms) ∧
  (∀ x, content (NormalizeMappings ms) x = content ms x) ∧
  (length (NormalizeMappings ms) <= length ms)%nat.
Proof.
  intros Ht Hhi Hroom. destruct ms as [|m ms]; [done|].
  inversion Hroom; subst. destruct Ht as (Ho & Hm & Ht). unfold NormalizeMappings.
  destruct (normalize_loop_spec m ms hi (hi - lo)) as (? & ? & ?); try done.
  { by rewrite Ho. } { lia. }
  by rewrite <- Ho.
Qed.

Lemma normalize_loop_head c ms : ∃ l r,
  normalize_loop c ms [] = mkBuildMap (Offset c) l (BuildId c) (BuildStorageOffset c) :: r.
Proof.
  revert c. induction ms as [|m ms IH]; intros c.
  { exists (Length c), []. by destruct c. }
  rewrite normalize_loop_cons. destruct (joinable c m).
  - by destruct (IH (mkBuildMap (Offset c) (u64 (Length c + Length m)) (BuildId c)
      (BuildStorageOffset c))) as (l & r & ->); eauto.
  - destruct c. eauto.
Qed.

(** Whatever the input, the output holds no two joinable neighbours. *)
Lemma NormalizeMappings_normalized ms : normalized (NormalizeMappings ms).
Proof.
  destruct ms as [|c ms]; [done|]. unfold NormalizeMappings.
  revert c. induction ms as [|m ms IH]; intros c; [done|].
  rewrite normalize_loop_cons. destruct (joinable c m) eqn:Hj; [apply IH|].
  specialize (IH m). destruct (normalize_loop_head m ms) as (l & r & E). rewrite E in *.
  split; [|done]. unfold joinable in *. by destruct m.
Qed.

Lemma normalize_loop_id c ms : normalized (c :: ms) → normalize_loop c ms [] = c :: ms.
Proof.
  revert c. induction ms as [|m ms IH]; intros c; [done|].
  intros [Hj Hn]. by rewrite normalize_loop_cons, Hj, IH.
Qed.

(** A second pass changes nothing. *)
Lemma NormalizeMappings_idemp ms :
  NormalizeMappings (NormalizeMappings ms) = NormalizeMappings ms.
Proof.
  pose proof (NormalizeMappings_normalized ms).
  destruct (NormalizeMappings ms) as [|c r]; [done|]. by apply normalize_loop_id.
Qed.

(** ** [CreateMapping]: the packed order of a bitmap *)

Section create.
Context (id : uuid) (bs : Z).
Hypothesis Hbs : 0 < bs <= 2 ^ 30.

Lemma range_entry s e sto :
  0 <= s → s < e → e <= 2 ^ 32 →
  mkBuildMap (u64 (BlockOffset (i64 s) bs)) (u64 (BlockOffset (i64 (i64 e - i64 s)) bs)) id sto
  = mkBuildMap (s * bs) ((e - s) * bs) id sto.
Proof using Hbs.
  intros. assert (e * bs <= 2 ^ 32 * 2 ^ 30) by nia.
  assert (s * bs < e * bs) by nia. assert (0 <= s * bs) by nia.
  unwrap. rewrite !BlockOffset_mul by (unfold is_i64; nia).
  rewrite !u64_id by (unfold is_u64; nia). done.
Qed.

Lemma div_range s e x : 0 <= x → s * bs <= x < e * bs ↔ s <= x / bs < e.
Proof using Hbs.
  intros. pose proof (Z.div_mod x bs ltac:(lia)).
  pose proof (Z.mod_pos_bound x bs ltac:(lia)). nia.
Qed.

Lemma create_loop_spec rs lo sto :
  0 <= lo → ranges_wf lo rs → 0 <= sto → sto + (2 ^ 32 - lo) * bs < 2 ^ 63 →
  let f := in_runs rs in
  let r := create_loop id bs rs sto in
  sorted_from (lo * bs) r ∧ positive r ∧
  ∀ x, 0 <= x → source r x =
    if f (x / bs) then Some (id, sto + countZ f lo (x / bs) * bs + x mod bs) else None.
Proof using Hbs.
  revert lo sto. induction rs as [|[s e] rs IH]; intros lo sto Hlo Hwf Hsto Hroom; cbv zeta.
  { split; [done|]. split; [constructor|done]. }
  destruct Hwf as (H1 & H2 & H3 & Hwf). cbn [create_loop]. cbv zeta.
  rewrite range_entry by lia. cbn [Length].
  assert (0 <= (e - s) * bs <= (2 ^ 32 - lo) * bs) by nia.
  rewrite (u64_id (sto + _)) by (unfold is_u64; lia).
  assert (He : ranges_wf e rs) by (eapply ranges_wf_weaken; [|done]; lia).
  destruct (IH e (sto + (e - s) * bs)) as (Hs & Hp & Hsrc); [lia|done|lia|nia|].
  split; [|split].
  - cbn [sorted_from Offset Length]. split; [nia|]. split.
    + unfold entry_ok; simpl. assert (s * bs < 2 ^ 32 * 2 ^ 30) by nia. nia.
    + replace (s * bs + (e - s) * bs) with (e * bs) by lia. done.
  - constructor; [simpl; nia|done].
  - intros x Hx. cbn [source]. specialize (Hsrc x Hx). change (in_runs ((s, e) :: rs) (x / bs)) with
      (in_range (x / bs) (s, e) || in_runs rs (x / bs)). unfold in_range; simpl.
    destruct (coversP (mkBuildMap (s * bs) ((e - s) * bs) id sto) x) as [Hc|Hc]; simpl in Hc.
    + assert (Hc' : s <= x / bs < e) by (apply div_range; lia).
      rewrite countZ_runs by done.
      destruct (Z.leb_spec (x / bs) s), (Z.ltb_spec (x / bs) e), (Z.leb_spec s (x / bs));
        try lia; cbn [andb orb]; unfold source_in; simpl; do 2 f_equal;
        pose proof (Z.div_mod x bs ltac:(lia)); nia.
    + assert (Hc' : ¬ s <= x / bs < e) by (rewrite <- div_range by lia; lia).
      rewrite countZ_runs by done. rewrite Hsrc.
      destruct (Z.leb_spec (x / bs) s), (Z.ltb_spec (x / bs) e), (Z.leb_spec s (x / bs));
        try lia; cbn [andb orb].
      * unfold in_runs. rewrite (ranges_wf_below _ _ _ He) by lia. done.
      * destruct (in_runs rs (x / bs)); [|done]. do 2 f_equal. lia.
Qed.
End create.

Lemma CreateMapping_spec `{Bitmap B} id (b : B) bs :
  0 < bs <= 2 ^ 30 →
  sorted_from 0 (CreateMapping id b bs) ∧ positive (CreateMapping id b bs) ∧
  ∀ x, 0 <= x → source (CreateMapping id b bs) x =
    if bm_contains b (x / bs)
    then Some (id, countZ (bm_contains b) 0 (x / bs) * bs + x mod bs) else None.
Proof.
  intros Hbs. unfold CreateMapping.
  destruct (create_loop_spec id bs Hbs (bm_ranges b) 0 0) as (Hs & Hp & Hsrc);
    [lia|apply bm_ranges_wf|lia|lia|].
  split; [done|]. split; [done|]. intros x Hx. rewrite Hsrc by done.
  unfold in_runs at 1. rewrite bm_ranges_contains.
  rewrite (countZ_ext _ (bm_contains b)); [done|]. intros. apply bm_ranges_contains.
Qed.

(** ** Alignment

    Every quantity the three functions compute is a sum or difference of the
    inputs' offsets and lengths, and 2^64 is a multiple of the page size, so
    page alignment survives even wrap-around. *)

Definition paged (x : Z) : Prop := (PageSize | x).
Definition aligned (ms : list BuildMap) : Prop :=
  Forall (λ m, paged (Offset m) ∧ paged (Length m) ∧ paged (BuildStorageOffset m)) ms.

#[global] Instance paged_dec x : Decision (paged x).
Proof.
  refine (cast_if (decide (x mod PageSize = 0))); abstract (unfold paged; by rewrite <- Z.mod_divide).
Defined.
#[global] Instance aligned_dec ms : Decision (aligned ms).
Proof. unfold aligned. apply _. Defined.

Lemma paged_add x y : paged x → paged y → paged (x + y).
Proof. apply Z.divide_add_r. Qed.
Lemma paged_sub x y : paged x → paged y → paged (x - y).
Proof. apply Z.divide_sub_r. Qed.
Lemma paged_u64 x : paged x → paged (u64 x).
Proof.
  intros Hx. unfold u64. rewrite Z.mod_eq by lia. apply paged_sub; [done|].
  unfold paged. exists (2 ^ 52 * (x / 2 ^ 64)). unfold PageSize. lia.
Qed.
Lemma paged_i64 x : paged x → paged (i64 x).
Proof.
  intros Hx. unfold i64. apply paged_sub; [|by exists (2 ^ 51)].
  change (?a mod 2 ^ 64) with (u64 a). apply paged_u64, paged_add; [done|by exists (2 ^ 51)].
Qed.

Create HintDb paged.
#[export] Hint Resolve paged_add paged_sub paged_u64 paged_i64 : paged.

Lemma merge_loop_aligned k base diff acc r :
  aligned base → aligned diff → aligned acc →
  merge_loop k base diff acc = Some r → aligned r.
Proof.
  unfold aligned.
  revert base diff acc r. induction k as [|k IH]; intros base diff acc r Hb Hd Ha; [done|].
  cbn [merge_loop]. destruct base as [|b base], diff as [|d diff];
    try (intros [= <-]; rewrite ?app_nil_r; by repeat apply Forall_app_2).
  inversion Hb as [|? ? (? & ? & ?) Hb2]; subst. inversion Hd as [|? ? (? & ? & ?) Hd2]; subst.
  repeat case_match; apply IH; rewrite ?Forall_app, ?Forall_cons;
    repeat match goal with |- _ ∧ _ => split end; auto using Forall_nil_2; simpl; auto 10 with paged.
Qed.

Lemma MergeMappings_aligned base diff :
  aligned base → aligned diff → aligned (MergeMappings base diff).
Proof.
  intros Hb Hd. unfold MergeMappings. destruct diff as [|d diff]; [done|].
  destruct (merge_loop _ _ _ _) eqn:E; [|constructor].
  exact (merge_loop_aligned _ _ _ [] _ Hb Hd (Forall_nil_2 _) E).
Qed.

Lemma NormalizeMappings_aligned ms : aligned ms → aligned (NormalizeMappings ms).
Proof.
  destruct ms as [|c ms]; [done|]. unfold NormalizeMappings.
  intros [Hc Hms]%Forall_cons. revert c Hc. induction ms as [|m ms IH]; intros c Hc.
  { apply Forall_singleton. done. }
  apply Forall_cons in Hms as [Hm Hms]. rewrite normalize_loop_cons.
  case_match; [|constructor; [done|by apply IH]].
  apply IH; [done|]. simpl. destruct Hc as (? & ? & ?), Hm as (? & ? & ?). auto with paged.
Qed.

Lemma CreateMapping_aligned `{Bitmap B} id (b : B) bs :
  paged bs → aligned (CreateMapping id b bs).
Proof.
  intros Hbs. unfold CreateMapping. assert (Hsto : paged 0) by (by exists 0).
  revert Hsto. generalize 0. induction (bm_ranges b) as [|[s e] rs IH]; intros sto Hsto; [constructor|].
  assert (Hm : ∀ z, paged (u64 (BlockOffset z bs))).
  { intros z. apply paged_u64, paged_i64. by apply Z.divide_mul_r. }
  constructor; [split; [apply Hm|split; [apply Hm|done]]|].
  apply IH. simpl. auto with paged.
Qed.

(** ** Where the entries of the results come from *)

(** Splitting an entry of the base keeps any property that both parts inherit. *)
Lemma merge_loop_Forall (P : BuildMap → Prop) k base diff acc r :
  (∀ b l, P b → P (left_part b l)) → (∀ b s l, P b → P (right_part b s l)) →
  Forall P base → Forall P diff → Forall P acc →
  merge_loop k base diff acc = Some r → Forall P r.
Proof.
  intros Hl Hr. revert base diff acc r.
  induction k as [|k IH]; intros base diff acc r Hb Hd Ha; [done|].
  cbn [merge_loop]. destruct base as [|b base], diff as [|d diff];
    try (intros [= <-]; rewrite ?app_nil_r; by repeat apply Forall_app_2).
  inversion Hb; subst. inversion Hd; subst.
  repeat case_match; apply IH; rewrite ?Forall_app, ?Forall_cons; split_and?; auto.
Qed.

Lemma MergeMappings_builds (S : uuid → Prop) base diff :
  Forall (λ m, S (BuildId m)) base → Forall (λ m, S (BuildId m)) diff →
  Forall (λ m, S (BuildId m)) (MergeMappings base diff).
Proof.
  intros Hb Hd. unfold MergeMappings. destruct diff as [|d diff]; [done|].
  destruct (merge_loop _ _ _ _) eqn:E; [|constructor].
  refine (merge_loop_Forall _ _ _ _ [] _ _ _ Hb Hd (Forall_nil_2 _) E); done.
Qed.

Lemma CreateMapping_builds `{Bitmap B} (S : uuid → Prop) id (b : B) bs :
  S id → Forall (λ m, S (BuildId m)) (CreateMapping id b bs).
Proof.
  intros HS. unfold CreateMapping. generalize 0.
  induction (bm_ranges b) as [|[s e] rs IH]; intros sto; constructor; [done|apply IH].
Qed.

(** Every entry of a normalised list is an entry of the input, lengthened. *)
Definition heads (P : Z → uuid → Z → Prop) (ms : list BuildMap) : Prop :=
  Forall (λ m, P (Offset m) (BuildId m) (BuildStorageOffset m)) ms.

Lemma NormalizeMappings_heads P ms : heads P ms → heads P (NormalizeMappings ms).
Proof.
  unfold heads. destruct ms as [|c ms]; [done|]. unfold NormalizeMappings.
  intros [Hc Hms]%Forall_cons. revert c Hc. induction Hms as [|m ms Hm Hms IH]; intros c Hc.
  { by apply Forall_singleton. }
  rewrite normalize_loop_cons. case_match; [by apply IH|]. constructor; [done|by apply IH].
Qed.

Lemma NormalizeMappings_positive ms lo hi :
  0 <= lo → tiles lo hi ms → hi < 2 ^ 63 → positive ms → positive (NormalizeMappings ms).
Proof.
  unfold positive. destruct ms as [|c ms]; [done|]. unfold NormalizeMappings.
  intros H0 (<- & _ & Ht) Hhi [Hp Hps]%Forall_cons.
  revert c H0 Ht Hp. induction ms as [|m ms IH]; intros c H0 Ht Hp.
  { by apply Forall_singleton. }
  apply Forall_cons in Hps as [Hpm Hps]. destruct Ht as (Ho & Hm & Ht).
  rewrite normalize_loop_cons. pose proof (tiles_le _ _ _ Ht).
  case_match; [|constructor; [done|apply IH; auto; rewrite ?Ho; (done || lia)]].
  unwrap. apply IH; simpl; auto; [by rewrite Z.add_assoc|lia].
Qed.

(** ** Entries of a tiling by index *)

Lemma source_entry lo ms i e x :
  sorted_from lo ms → ms !! i = Some e → covers e x = true → source ms x = Some (source_in e x).
Proof.
  revert lo i. induction ms as [|m ms IH]; intros lo [|i] Hs He Hc; cbn in *; try done.
  { simplify_eq. by rewrite Hc. }
  destruct Hs as (Hlo & Hm & Hs). rewrite (IH _ i Hs He Hc).
  destruct (coversP m x); [|done].
  rewrite (source_below _ _ _ Hs) in IH by lia. by specialize (IH _ i Hs He Hc).
Qed.

Lemma sorted_lower lo ms j b : sorted_from lo ms → ms !! j = Some b → lo <= Offset b.
Proof.
  revert lo j. induction ms as [|m ms IH]; intros lo [|j] Hs Hb; cbn in *; try done;
    destruct Hs as (Hlo & Hm & Hs); [by simplify_eq|].
  specialize (IH _ _ Hs Hb). unfold entry_ok in Hm. lia.
Qed.

Lemma sorted_mono lo ms i j a b :
  sorted_from lo ms → ms !! i = Some a → ms !! j = Some b → (i <= j)%nat →
  Offset a <= Offset b.
Proof.
  revert lo i j. induction ms as [|m ms IH]; intros lo [|i] [|j] Hs Ha Hb Hij; cbn in *;
    try done; try lia; destruct Hs as (Hlo & Hm & Hs); simplify_eq; [lia| |].
  - pose proof (sorted_lower _ _ _ _ Hs Hb). unfold entry_ok in Hm. lia.
  - eapply IH; eauto. lia.
Qed.

Lemma tiles_lookup lo hi ms i e :
  tiles lo hi ms → ms !! i = Some e → lo <= Offset e ∧ Offset e + Length e <= hi ∧ entry_ok e.
Proof.
  revert lo i. induction ms as [|m ms IH]; intros lo [|i] Ht He; cbn in *; try done;
    destruct Ht as (Ho & Hm & Ht).
  - simplify_eq. pose proof (tiles_le _ _ _ Ht). split_and!; [lia..|done].
  - destruct (IH _ _ Ht He) as (? & ? & ?). unfold entry_ok in Hm. split_and!; [lia..|done].
Qed.

(** Neighbours of a tiling touch, and its last entry ends at the end. *)
Lemma tiles_next lo hi ms i e :
  tiles lo hi ms → ms !! i = Some e →
  match ms !! S i with
  | Some n => Offset n = Offset e + Length e
  | None => hi = Offset e + Length e
  end.
Proof.
  revert lo i. induction ms as [|m ms IH]; intros lo i Ht He; [done|].
  destruct Ht as (Ho & Hm & Ht). destruct i as [|i]; [|by eapply IH].
  cbn in He. simplify_eq. cbn [lookup list_lookup].
  destruct ms as [|n ms]; cbn in *; [lia|]. by destruct Ht.
Qed.

Lemma tiles_first lo hi ms : tiles lo hi ms → lo < hi → ∃ e, ms !! O = Some e ∧ Offset e = lo.
Proof. destruct ms as [|m ms]; cbn; [lia|]. intros (? & _ & _) _. eauto. Qed.

(** ** The properties of the mapping algebra *)

Definition id_a : uuid := replicate 16 1.
Definition id_b : uuid := replicate 16 2.
Definition base_example : list BuildMap :=
  [mkBuildMap 0 8192 id_a 0; mkBuildMap 8192 8192 id_b 4096].
Definition diff_example : list BuildMap := [mkBuildMap 4096 8192 id_b 0].

(** C15. [MergeMappings] overrides the base by the diff: on a base that tiles
    the device and a sorted diff inside it, the result tiles the device again
    and every byte is read from the diff's entry where the diff covers it and
    from the base's entry everywhere else. *)
Theorem MergeMappings_override base diff lo hi :
  tiles lo hi base → positive base → sorted_from lo diff → positive diff →
  (∀ x, is_Some (source diff x) → x < hi) →
  tiles lo hi (MergeMappings base diff) ∧ positive (MergeMappings base diff) ∧
  ∀ x, source (MergeMappings base diff) x =
       match source diff x with Some s => Some s | None => source base x end.
Proof.
  intros Hb Hpb Hd Hpd Hin. split_and!.
  - by apply MergeMappings_tiles.
  - by apply MergeMappings_positive.
  - eapply (MergeMappings_spec base diff lo); [by eapply tiles_sorted|done].
Qed.

Lemma MergeMappings_override_witness :
  MergeMappings base_example diff_example =
    [mkBuildMap 0 4096 id_a 0; mkBuildMap 4096 8192 id_b 0; mkBuildMap 12288 4096 id_b 8192] ∧
  tiles 0 16384 (MergeMappings base_example diff_example).
Proof.
  split; [vm_compute; reflexivity|].
  apply (MergeMappings_override base_example diff_example 0 16384).
  - apply (bool_decide_unpack _). vm_compute. exact I.
  - apply (bool_decide_unpack _). vm_compute. exact I.
  - apply (bool_decide_unpack _). vm_compute. exact I.
  - apply (bool_decide_unpack _). vm_compute. exact I.
  - intros x [s Hs]. simpl in Hs. destruct (coversP (mkBuildMap 4096 8192 id_b 0) x); [|done].
    simpl in *. lia.
Defined.

(** The merge loop ends on every input: each iteration drops an entry of
    the base or of the diff, so as many iterations as the two lists have
    entries always reach the exit, and the branch for invalid cases, which
    would not make progress, is never taken. *)
Theorem MergeMappings_terminates base diff :
  ∃ r, merge_loop (S (length base + length diff)) base diff [] = Some r ∧
    MergeMappings base diff = r.
Proof.
  destruct (merge_loop_total (S (length base + length diff)) base diff []) as [r Hr]; [lia|].
  exists r. split; [done|]. unfold MergeMappings. destruct diff as [|d diff]; [|by rewrite Hr].
  destruct base; cbn in Hr; injection Hr as <-; by rewrite ?app_nil_r.
Qed.

(** [NormalizeMappings] keeps the content of every byte (the build and the
    position it is read from, nil builds reading as zeros wherever they claim
    to be stored) and the tiling of the device, never adds entries, leaves no
    two neighbours that could be joined, and changes nothing the second time. *)
Theorem NormalizeMappings_canonical ms lo hi :
  tiles lo hi ms → hi < 2 ^ 63 → storage_room (hi - lo) ms →
  tiles lo hi (NormalizeMappings ms) ∧
  (∀ x, content (NormalizeMappings ms) x = content ms x) ∧
  (length (NormalizeMappings ms) <= length ms)%nat ∧
  normalized (NormalizeMappings ms) ∧
  NormalizeMappings (NormalizeMappings ms) = NormalizeMappings ms.
Proof.
  intros Ht Hhi Hroom. destruct (NormalizeMappings_spec ms lo hi Ht Hhi Hroom) as (? & ? & ?).
  split_and!; auto; [apply NormalizeMappings_normalized|apply NormalizeMappings_idemp].
Qed.

Definition split_example : list BuildMap :=
  [mkBuildMap 0 4096 id_a 0; mkBuildMap 4096 4096 id_a 4096; mkBuildMap 8192 4096 uuid_nil 0;
   mkBuildMap 12288 4096 uuid_nil 0].

Lemma NormalizeMappings_canonical_witness :
  NormalizeMappings split_example = [mkBuildMap 0 8192 id_a 0; mkBuildMap 8192 8192 uuid_nil 0] ∧
  content (NormalizeMappings split_example) 5000 = content split_example 5000.
Proof.
  split; [vm_compute; reflexivity|].
  refine (proj1 (proj2 (NormalizeMappings_canonical split_example 0 16384 _ _ _)) 5000).
  - apply (bool_decide_unpack _). vm_compute. exact I.
  - lia.
  - repeat constructor; simpl; lia.
Defined.

(** [CreateMapping] realises the packed order of a dirty bitmap: the byte
    at [x] is in the diff exactly when its block is dirty, and it is stored at
    the rank of its block among the dirty ones, which is where the exported
    diff file holds it. *)
Theorem CreateMapping_packed `{Bitmap B} id (dirty : B) bs :
  0 < bs <= 2 ^ 30 →
  sorted_from 0 (CreateMapping id dirty bs) ∧
  ∀ x, 0 <= x → source (CreateMapping id dirty bs) x =
    if bm_contains dirty (x / bs)
    then Some (id, countZ (bm_contains dirty) 0 (x / bs) * bs + x mod bs) else None.
Proof. intros Hbs. destruct (CreateMapping_spec id dirty bs Hbs) as (? & _ & ?). auto. Qed.

Lemma CreateMapping_packed_witness :
  CreateMapping id_a ({[1; 2; 5]} : gset Z) 4096 =
    [mkBuildMap 4096 8192 id_a 0; mkBuildMap 20480 4096 id_a 8192] ∧
  source (CreateMapping id_a ({[1; 2; 5]} : gset Z) 4096) 20490 = Some (id_a, 8202).
Proof.
  split; [vm_compute; reflexivity|].
  destruct (CreateMapping_packed id_a ({[1; 2; 5]} : gset Z) 4096) as [_ H]; [lia|].
  rewrite H; [vm_compute; reflexivity|lia].
Defined.
