(* ===== verification/Compact.v ===== *)
(** * Compact: the columnar in-memory mapping

    Models [header/compact.go]: [Mapping] stores offset, length and storage
    position as [uint32] block indices and the build as a [uint16] index into
    a table of distinct builds, in parallel columns.  The theorems: packing
    and materialising is the identity, packing fails on exactly the inputs its
    errors name, the compact validation agrees with [ValidateMappings], and
    [SearchOffset] is the first entry that starts beyond an offset. *)

From S2P Require Import Prelude Bytes Bitmap Blocks Mapping.

Record Mapping := mkMapping {
  m_blockSize : Z;
  m_builds : list uuid;
  m_offsets : list Z;
  m_lengths : list Z;
  m_storage : list Z;
  m_buildIdx : list Z
}.

#[global] Instance Mapping_eq_dec : EqDecision Mapping.
Proof. solve_decision. Defined.

Definition nilBuildIdx : Z := 65535.
Definition maxBuildsPerHeader : Z := nilBuildIdx.
Definition maxBlockIdx : Z := 2 ^ 32 - 1.

Inductive compact_err : Set :=
| ZeroBlock
| OffsetUnaligned (i : Z)
| LengthUnaligned (i : Z)
| StorageUnaligned (i : Z)
| IndexTooLarge (i : Z)
| TooManyBuilds
| ColumnMismatch
| BuildIdxOutOfRange (i : Z).

#[global] Instance compact_err_eq_dec : EqDecision compact_err.
Proof. solve_decision. Defined.

(** ** [NewMapping] *)

(** The build of an entry to its index, extending the table on first use. *)
Definition intern (b : uuid) (idxByBuild : gmap uuid Z) (builds : list uuid)
    : result compact_err (Z * gmap uuid Z * list uuid) :=
  if bool_decide (b = uuid_nil) then Ok (nilBuildIdx, idxByBuild, builds)
  else match idxByBuild !! b with
       | Some idx => Ok (idx, idxByBuild, builds)
       | None =>
           if maxBuildsPerHeader <=? len builds then Err TooManyBuilds
           else let idx := u16 (len builds) in
                Ok (idx, <[b := idx]> idxByBuild, builds ++ [b])
       end.

Fixpoint new_loop (src : list BuildMap) (i : Z) (idxByBuild : gmap uuid Z) (acc : Mapping)
    : result compact_err Mapping :=
  match src with
  | [] => Ok acc
  | m :: src =>
      let blockSize := m_blockSize acc in
      if negb (Offset m mod blockSize =? 0) then Err (OffsetUnaligned i)
      else if negb (Length m mod blockSize =? 0) then Err (LengthUnaligned i)
      else if negb (BuildStorageOffset m mod blockSize =? 0) then Err (StorageUnaligned i)
      else
      let offBlocks := Offset m / blockSize in
      let lenBlocks := Length m / blockSize in
      let stoBlocks := BuildStorageOffset m / blockSize in
      if (maxBlockIdx <? offBlocks) || (maxBlockIdx <? lenBlocks) || (maxBlockIdx <? stoBlocks)
      then Err (IndexTooLarge i)
      else
      '(idx, idxByBuild, builds) ← intern (BuildId m) idxByBuild (m_builds acc);
      new_loop src (i + 1) idxByBuild
        (mkMapping blockSize builds (m_offsets acc ++ [u32 offBlocks])
           (m_lengths acc ++ [u32 lenBlocks]) (m_storage acc ++ [u32 stoBlocks])
           (m_buildIdx acc ++ [idx]))
  end.

Definition NewMapping (blockSize : Z) (src : list BuildMap) : result compact_err Mapping :=
  if blockSize =? 0 then Err ZeroBlock
  else new_loop src 0 ∅ (mkMapping blockSize [] [] [] [] []).

(** ** [newMappingFromColumns] *)

Fixpoint check_idx (bis : list Z) (nbuilds i : Z) : result compact_err unit :=
  match bis with
  | [] => Ok ()
  | bi :: bis =>
      if bi =? nilBuildIdx then check_idx bis nbuilds (i + 1)
      else if nbuilds <=? bi then Err (BuildIdxOutOfRange i)
      else check_idx bis nbuilds (i + 1)
  end.

Definition newMappingFromColumns (blockSize : Z) (builds : list uuid)
    (offsets lengths storage buildIdx : list Z) : result compact_err Mapping :=
  let n := len offsets in
  if negb (len lengths =? n) || negb (len storage =? n) || negb (len buildIdx =? n)
  then Err ColumnMismatch
  else _ ← check_idx buildIdx (len builds) 0;
       Ok (mkMapping blockSize builds offsets lengths storage buildIdx).

(** ** Reading: [Len], [At], [All], [Slice], [BytesByBuild] *)

Definition Len (m : Mapping) : Z := len (m_offsets m).

(** [None] is the index-out-of-range panic. *)
Definition resolve (builds : list uuid) (bi : Z) : option uuid :=
  if bi =? nilBuildIdx then Some uuid_nil else at_ builds bi.

Definition At (m : Mapping) (i : Z) : option BuildMap :=
  bi ← at_ (m_buildIdx m) i;
  buildID ← resolve (m_builds m) bi;
  off ← at_ (m_offsets m) i;
  length ← at_ (m_lengths m) i;
  sto ← at_ (m_storage m) i;
  Some (mkBuildMap (u64 (off * m_blockSize m)) (u64 (length * m_blockSize m)) buildID
          (u64 (sto * m_blockSize m))).

Definition All (m : Mapping) : option (list (Z * BuildMap)) :=
  mapM (λ i, pair i <$> At m i) (seqZ 0 (Len m)).

Definition Slice (m : Mapping) : option (list BuildMap) :=
  mapM (At m) (seqZ 0 (Len m)).

Fixpoint sum_loop (bis lens sums : list Z) : list Z :=
  match bis, lens with
  | bi :: bis, l :: lens =>
      sum_loop bis lens
        (if bi =? nilBuildIdx then sums
         else alter (λ s, u64 (s + l)) (Z.to_nat bi) sums)
  | _, _ => sums
  end.

Definition BytesByBuild (m : Mapping) : gmap uuid Z :=
  let sums := sum_loop (m_buildIdx m) (m_lengths m) (replicate (length (m_builds m)) 0) in
  foldl (λ out '(b, blocks), <[b := u64 (blocks * m_blockSize m)]> out) ∅
    (zip (m_builds m) sums).

(** ** [Validate] *)

Fixpoint compact_validate_loop (offsets lengths : list Z) (bs size currentOffset i : Z)
    : result mapping_err Z :=
  match offsets, lengths with
  | off :: offsets, l :: lengths =>
      let offset := u64 (off * bs) in
      let length := u64 (l * bs) in
      if negb (currentOffset =? offset) then Err (WrongOffset i)
      else if size <? u64 (currentOffset + length) then Err (BeyondSize i)
      else compact_validate_loop offsets lengths bs size (u64 (currentOffset + length)) (i + 1)
  | _, _ => Ok currentOffset
  end.

Definition Validate (m : Mapping) (size blockSize : Z) : result mapping_err unit :=
  if blockSize =? 0 then Err ZeroBlockSize
  else if negb (m_blockSize m mod blockSize =? 0) then
    match Slice m with
    | Some ms => ValidateMappings ms size blockSize
    | None => Err IndexOutOfRange
    end
  else
    c ← compact_validate_loop (m_offsets m) (m_lengths m) (m_blockSize m) size 0 0;
    if negb (c =? size) then Err NotWhole else Ok ().

(** ** [SearchOffset]: [None] is the division by a zero block size *)

Definition SearchOffset (m : Mapping) (off : Z) : option Z :=
  if (off <? 0) || (len (m_offsets m) =? 0) then Some 0
  else if m_blockSize m =? 0 then None
  else
    let target := off / m_blockSize m in
    let n := len (m_offsets m) in
    Some (search_loop (Z.to_nat n)
            (λ mid, target <? default 0 (at_ (m_offsets m) mid)) 0 n).

(** ** Well-formed compact mappings *)

Definition idx_ok (m : Mapping) (bi : Z) : Prop :=
  bi = nilBuildIdx ∨ 0 <= bi < len (m_builds m) ∧ bi < nilBuildIdx.

Record mapping_wf (m : Mapping) : Prop := {
  wf_bs : 0 < m_blockSize m <= 2 ^ 32;
  wf_builds : NoDup (m_builds m);
  wf_nil : uuid_nil ∉ m_builds m;
  wf_len_l : length (m_lengths m) = length (m_offsets m);
  wf_len_s : length (m_storage m) = length (m_offsets m);
  wf_len_b : length (m_buildIdx m) = length (m_offsets m);
  wf_off : Forall is_u32 (m_offsets m);
  wf_lens : Forall is_u32 (m_lengths m);
  wf_sto : Forall is_u32 (m_storage m);
  wf_idx : Forall (idx_ok m) (m_buildIdx m)
}.

(** The rows of the columns and the entry a row stands for. *)
Definition rows (m : Mapping) : list (Z * Z * Z * Z) :=
  zip (zip (zip (m_offsets m) (m_lengths m)) (m_storage m)) (m_buildIdx m).

Definition row_entry (bs : Z) (builds : list uuid) (r : Z * Z * Z * Z) : option BuildMap :=
  let '(off, l, sto, bi) := r in
  buildID ← resolve builds bi;
  Some (mkBuildMap (u64 (off * bs)) (u64 (l * bs)) buildID (u64 (sto * bs))).

(** ** The mapping as the list of its rows *)

Lemma mapM_at {A B} (f : A → option B) (k l : list A) :
  mapM (λ i, at_ (k ++ l) i ≫= f) (seqZ (len k) (len l)) = mapM f l.
Proof.
  revert k. induction l as [|x l IH]; intros k; [done|].
  rewrite seqZ_cons by (rewrite len_cons; pose proof (len_nonneg l); lia).
  cbn [mapM].
  assert (at_ (k ++ x :: l) (len k) = Some x) as ->.
  { unfold len. by rewrite at_of_nat, list_lookup_middle. }
  cbn.
  rewrite len_cons. replace (Z.pred (1 + len l)) with (len l) by lia.
  specialize (IH (k ++ [x])). rewrite <- app_assoc in IH. cbn in IH. rewrite <- IH.
  rewrite len_app. cbn. by replace (Z.succ (len k)) with (len k + 1) by lia.
Qed.

Lemma len_rows m : mapping_wf m → len (rows m) = Len m.
Proof.
  intros []. unfold rows, Len, len. rewrite !length_zip_with. lia.
Qed.

Lemma At_rows m i :
  mapping_wf m → At m i = (at_ (rows m) i ≫= row_entry (m_blockSize m) (m_builds m)).
Proof.
  intros []. unfold At, rows, at_. destruct (i <? 0); [done|].
  rewrite !lookup_zip_with.
  set (n := Z.to_nat i).
  destruct (decide (n < length (m_offsets m))%nat) as [Hn|Hn].
  - destruct (lookup_lt_is_Some_2 (m_offsets m) n) as [o ->]; [done|].
    destruct (lookup_lt_is_Some_2 (m_lengths m) n) as [l ->]; [lia|].
    destruct (lookup_lt_is_Some_2 (m_storage m) n) as [s ->]; [lia|].
    destruct (lookup_lt_is_Some_2 (m_buildIdx m) n) as [b ->]; [lia|].
    cbn. by destruct (resolve _ _).
  - rewrite (lookup_ge_None_2 (m_offsets m)), (lookup_ge_None_2 (m_buildIdx m)) by lia. done.
Qed.

Lemma Slice_rows m :
  mapping_wf m → Slice m = mapM (row_entry (m_blockSize m) (m_builds m)) (rows m).
Proof.
  intros Hwf. unfold Slice. rewrite <- (len_rows m Hwf).
  rewrite <- (mapM_at _ [] (rows m)). cbn.
  apply mapM_ext. intros i. by apply At_rows.
Qed.

Lemma row_entry_idx_ok m off l s bi :
  idx_ok m bi → is_Some (row_entry (m_blockSize m) (m_builds m) (off, l, s, bi)).
Proof.
  intros [->|[Hbi Hnil]]; cbn; [done|]. unfold resolve.
  destruct (Z.eqb_spec bi nilBuildIdx); [lia|].
  destruct (at_is_Some _ _ Hbi) as [b ->]. done.
Qed.

(** A well-formed mapping materialises without a panic. *)
Lemma Slice_wf m : mapping_wf m → ∃ ms, Slice m = Some ms ∧ len ms = Len m.
Proof.
  intros Hwf. rewrite Slice_rows by done.
  assert (Hrow : Forall (λ r, is_Some (row_entry (m_blockSize m) (m_builds m) r)) (rows m)).
  { apply Forall_lookup. intros i [[[o l] s] b] Hr. unfold rows in Hr.
    apply lookup_zip_with_Some in Hr as (? & b' & [= <- <-] & _ & Hb).
    apply row_entry_idx_ok. eapply Forall_lookup_1; [apply wf_idx|]; done. }
  apply mapM_is_Some_2 in Hrow as [ms Hms]. exists ms. split; [done|].
  rewrite <- len_rows by done. unfold len. by rewrite (length_mapM _ _ _ Hms).
Qed.

Lemma All_Slice m : All m = (λ ms, zip (seqZ 0 (Len m)) ms) <$> Slice m.
Proof.
  unfold All, Slice. induction (seqZ 0 (Len m)) as [|i l IH]; [done|].
  cbn. rewrite IH. destruct (At m i); cbn; [|done]. by destruct (mapM (At m) l).
Qed.

(** ** [NewMapping] *)

Definition entry_u64 (m : BuildMap) : Prop :=
  is_u64 (Offset m) ∧ is_u64 (Length m) ∧ is_u64 (BuildStorageOffset m).

(** What the alignment and range checks of [NewMapping] ask of an entry. *)
Definition packable (bs : Z) (m : BuildMap) : Prop :=
  (Offset m mod bs = 0 ∧ Length m mod bs = 0 ∧ BuildStorageOffset m mod bs = 0) ∧
  (Offset m / bs <= maxBlockIdx ∧ Length m / bs <= maxBlockIdx ∧
   BuildStorageOffset m / bs <= maxBlockIdx).

#[global] Instance entry_u64_dec m : Decision (entry_u64 m).
Proof. unfold entry_u64. apply _. Defined.
#[global] Instance packable_dec bs m : Decision (packable bs m).
Proof. unfold packable. apply _. Defined.

Definition table_ok (idx : gmap uuid Z) (builds : list uuid) : Prop :=
  NoDup builds ∧ uuid_nil ∉ builds ∧ len builds <= maxBuildsPerHeader ∧
  ∀ b i, idx !! b = Some i ↔ at_ builds i = Some b.

Lemma at_app_l {A} (l k : list A) i x : at_ l i = Some x → at_ (l ++ k) i = Some x.
Proof. unfold at_. destruct (i <? 0); [done|]. apply lookup_app_l_Some. Qed.

Lemma at_elem {A} (l : list A) x : x ∈ l ↔ ∃ i, at_ l i = Some x.
Proof.
  rewrite list_elem_of_lookup. split.
  - intros [i Hi]. exists (Z.of_nat i). by rewrite at_of_nat.
  - unfold at_. intros [i Hi]. destruct (i <? 0); [done|eauto].
Qed.

Lemma at_snoc {A} (l : list A) x i y :
  at_ (l ++ [x]) i = Some y ↔ at_ l i = Some y ∨ (i = len l ∧ y = x).
Proof.
  split.
  - intros H. pose proof (at_Some _ _ _ H) as Hi. rewrite len_app in Hi. cbn in Hi.
    unfold at_ in *. destruct (Z.ltb_spec i 0); [done|].
    apply lookup_app_Some in H as [?|[? H]]; [auto|right].
    apply list_lookup_singleton_Some in H as [? ->]. unfold len in *. split; [lia|done].
  - intros [H|[-> ->]]; [by apply at_app_l|].
    unfold len. rewrite at_of_nat. by apply list_lookup_middle.
Qed.

Lemma resolve_app builds k bi b : resolve builds bi = Some b → resolve (builds ++ k) bi = Some b.
Proof. unfold resolve. destruct (bi =? _); [done|]. apply at_app_l. Qed.

(** Interning either resolves the build in a table extended by at most that
    build, or the table is full and the build is a new one. *)
Lemma intern_spec b idx builds :
  table_ok idx builds →
  match intern b idx builds with
  | Ok (bi, idx', builds') =>
      table_ok idx' builds' ∧ resolve builds' bi = Some b ∧
      (bi = nilBuildIdx ∨ 0 <= bi < len builds' ∧ bi < nilBuildIdx) ∧
      (∃ k, builds' = builds ++ k) ∧
      (list_to_set builds' : gset uuid) = list_to_set builds ∪ ({[b]} ∖ {[uuid_nil]})
  | Err _ => len builds = maxBuildsPerHeader ∧ b ≠ uuid_nil ∧ b ∉ builds
  end.
Proof.
  intros Ht. destruct (id Ht) as (Hnd & Hnil & Hlen & Htab). unfold intern.
  case_bool_decide as Hb.
  { subst b. unfold resolve. rewrite Z.eqb_refl. split_and!; auto.
    - exists []. by rewrite app_nil_r.
    - set_solver. }
  destruct (idx !! b) as [bi|] eqn:E.
  { apply Htab in E as E'. pose proof (at_Some _ _ _ E').
    unfold resolve. destruct (Z.eqb_spec bi nilBuildIdx); [unfold maxBuildsPerHeader in *; lia|].
    split_and!; auto; [unfold maxBuildsPerHeader in *; lia|exists []; by rewrite app_nil_r|].
    assert (b ∈ builds) by (apply at_elem; eauto). set_solver. }
  assert (Hnew : b ∉ builds).
  { intros [i Hi]%at_elem. apply Htab in Hi. congruence. }
  destruct (Z.leb_spec maxBuildsPerHeader (len builds)); [split_and!; auto; lia|].
  pose proof (len_nonneg builds). unfold maxBuildsPerHeader, nilBuildIdx in *.
  rewrite u16_id by ilia. unfold resolve.
  destruct (Z.eqb_spec (len builds) nilBuildIdx); [unfold nilBuildIdx in *; lia|].
  assert (Hat : at_ (builds ++ [b]) (len builds) = Some b) by (apply at_snoc; auto).
  split; [split; [|split; [|split]]|]; [| | | |split; [done|split; [|split; [by eexists|set_solver]]]].
  - apply NoDup_app. split; [done|]. split; [|apply NoDup_singleton]. set_solver.
  - set_solver.
  - rewrite len_app, len_cons, len_nil. unfold maxBuildsPerHeader, nilBuildIdx. lia.
  - intros b' i. rewrite at_snoc. destruct (decide (b' = b)) as [->|].
    + rewrite lookup_insert_eq. split; [intros [= <-]; auto|].
      intros [Hi|[-> _]]; [|done]. apply Htab in Hi. congruence.
    + rewrite lookup_insert_ne by done. setoid_rewrite Htab. naive_solver.
  - right. assert (len (builds ++ [b]) = len builds + 1) as -> by (by rewrite len_app). lia.
Qed.

Lemma unpack_block x bs :
  0 < bs → is_u64 x → x mod bs = 0 → x / bs <= maxBlockIdx → u64 (u32 (x / bs) * bs) = x.
Proof.
  intros Hbs Hx Hmod Hmax. unfold maxBlockIdx in *.
  assert (0 <= x / bs) by (apply Z.div_pos; ilia).
  rewrite (u32_id (x / bs)) by ilia.
  pose proof (Z.div_mod x bs ltac:(lia)). rewrite u64_id by (unfold_int; lia). lia.
Qed.

(** One more row at the end of the columns. *)
Definition push (m : Mapping) (builds : list uuid) (off l sto bi : Z) : Mapping :=
  mkMapping (m_blockSize m) builds (m_offsets m ++ [off]) (m_lengths m ++ [l])
            (m_storage m ++ [sto]) (m_buildIdx m ++ [bi]).

Lemma rows_push m builds off l sto bi :
  mapping_wf m → rows (push m builds off l sto bi) = rows m ++ [(off, l, sto, bi)].
Proof.
  intros []. unfold rows, push. cbn.
  by rewrite !zip_with_app by (rewrite ?length_zip_with; lia).
Qed.

Lemma idx_ok_app m m' k bi :
  m_builds m' = m_builds m ++ k → idx_ok m bi → idx_ok m' bi.
Proof. unfold idx_ok. intros ->. rewrite len_app. pose proof (len_nonneg k). lia. Qed.

Lemma push_wf m idx k off l sto bi :
  mapping_wf m → table_ok idx (m_builds m ++ k) →
  is_u32 off → is_u32 l → is_u32 sto → idx_ok (push m (m_builds m ++ k) off l sto bi) bi →
  mapping_wf (push m (m_builds m ++ k) off l sto bi).
Proof.
  intros [] (? & ? & _ & _) ????. split; cbn; rewrite ?length_app; auto;
    try (apply Forall_app; auto).
  split; [|auto].
  eapply Forall_impl; [eassumption|]. intros. by eapply (idx_ok_app m).
Qed.

Lemma row_entry_app bs builds k r e :
  row_entry bs builds r = Some e → row_entry bs (builds ++ k) r = Some e.
Proof.
  destruct r as [[[off l] sto] bi]. cbn.
  intros (b & Hb & [= <-])%bind_Some. by rewrite (resolve_app _ _ _ _ Hb).
Qed.

Lemma Slice_push m k off l sto bi b ms :
  mapping_wf m → mapping_wf (push m (m_builds m ++ k) off l sto bi) →
  Slice m = Some ms → resolve (m_builds m ++ k) bi = Some b →
  Slice (push m (m_builds m ++ k) off l sto bi) =
    Some (ms ++ [mkBuildMap (u64 (off * m_blockSize m)) (u64 (l * m_blockSize m)) b
                            (u64 (sto * m_blockSize m))]).
Proof.
  intros Hm Hp Hms Hb. rewrite Slice_rows in Hms |- * by done. rewrite rows_push by done.
  cbn [push m_blockSize m_builds]. apply mapM_Some. apply mapM_Some in Hms.
  apply Forall2_app.
  - eapply Forall2_impl; [exact Hms|]. intros r e. apply row_entry_app.
  - constructor; [|constructor]. cbn. by rewrite Hb.
Qed.

Lemma new_loop_cons m src i idx acc :
  packable (m_blockSize acc) m →
  new_loop (m :: src) i idx acc =
  '(bi, idx, builds) ← intern (BuildId m) idx (m_builds acc);
  new_loop src (i + 1) idx
    (push acc builds (u32 (Offset m / m_blockSize acc)) (u32 (Length m / m_blockSize acc))
       (u32 (BuildStorageOffset m / m_blockSize acc)) bi).
Proof.
  intros ((Ho & Hl & Hs) & ? & ? & ?). cbn [new_loop]. rewrite Ho, Hl, Hs. cbn.
  by destruct (Z.ltb_spec maxBlockIdx (Offset m / m_blockSize acc)),
    (Z.ltb_spec maxBlockIdx (Length m / m_blockSize acc)),
    (Z.ltb_spec maxBlockIdx (BuildStorageOffset m / m_blockSize acc)); try lia.
Qed.

Lemma new_loop_unpackable m src i idx acc r :
  ¬ packable (m_blockSize acc) m → new_loop (m :: src) i idx acc ≠ Ok r.
Proof.
  intros Hp. cbn [new_loop]. repeat (case_match; [done|]). zbool. destruct Hp.
  repeat match goal with H : _ || _ = false |- _ => apply orb_false_iff in H as [? ?] end.
  zbool. by split_and!.
Qed.

(** The builds a packed list needs in its table. *)
Definition table_of (src : list BuildMap) : gset uuid := Layers src ∖ {[uuid_nil]}.

Lemma table_of_cons m src :
  table_of (m :: src) = ({[BuildId m]} ∖ {[uuid_nil]}) ∪ table_of src.
Proof. unfold table_of, Layers. set_solver. Qed.

Lemma size_builds idx builds :
  table_ok idx builds → Z.of_nat (size (list_to_set builds : gset uuid)) = len builds.
Proof. intros (Hnd & _). by rewrite size_list_to_set. Qed.

Lemma new_loop_ok src i idx acc ms :
  table_ok idx (m_builds acc) → mapping_wf acc → Forall entry_u64 src → Slice acc = Some ms →
  ∀ r, new_loop src i idx acc = Ok r →
  mapping_wf r ∧ m_blockSize r = m_blockSize acc ∧ Slice r = Some (ms ++ src) ∧
  Forall (packable (m_blockSize acc)) src ∧
  Z.of_nat (size (list_to_set (m_builds acc) ∪ table_of src)) <= maxBuildsPerHeader.
Proof.
  revert i idx acc ms. induction src as [|m src IH]; intros i idx acc ms Ht Hwf Hsrc Hms r.
  { intros [= <-]. rewrite app_nil_r. split_and!; auto.
    assert (list_to_set (m_builds acc) ∪ table_of [] = (list_to_set (m_builds acc) : gset uuid))
      as -> by (unfold table_of, Layers; set_solver).
    rewrite (size_builds idx) by done. apply Ht. }
  apply Forall_cons in Hsrc as [(Ho & Hl & Hs) Hsrc].
  destruct (decide (packable (m_blockSize acc) m)) as [Hp|Hp];
    [|intros E; by apply new_loop_unpackable in E].
  rewrite new_loop_cons by done. pose proof (intern_spec (BuildId m) _ _ Ht) as Hi.
  destruct (intern _ _ _) as [[[bi idx'] builds]|]; [|done].
  destruct Hi as (Ht' & Hres & Hbi & [k ->] & Hset). cbn.
  destruct (id Hp) as ((? & ? & ?) & ? & ? & ?).
  assert (Hw : mapping_wf (push acc (m_builds acc ++ k) (u32 (Offset m / m_blockSize acc))
    (u32 (Length m / m_blockSize acc)) (u32 (BuildStorageOffset m / m_blockSize acc)) bi)).
  { eapply push_wf; eauto with ints. }
  intros E. eapply IH in E; [|exact Ht'|done|done|by eapply Slice_push].
  destruct E as (? & ? & Hsl & ? & Hsz). cbn in *.
  destruct (wf_bs _ Hwf). rewrite !unpack_block, <- app_assoc in Hsl by (done || lia).
  split_and!; auto; [by destruct m|].
  by rewrite table_of_cons, union_assoc_L, <- Hset.
Qed.

Lemma new_loop_total src i idx acc :
  table_ok idx (m_builds acc) → Forall (packable (m_blockSize acc)) src →
  Z.of_nat (size (list_to_set (m_builds acc) ∪ table_of src)) <= maxBuildsPerHeader →
  ∃ r, new_loop src i idx acc = Ok r.
Proof.
  revert i idx acc. induction src as [|m src IH]; intros i idx acc Ht Hp Hsz; [by eexists|].
  apply Forall_cons in Hp as [Hp Hps].
  rewrite new_loop_cons by done. pose proof (intern_spec (BuildId m) _ _ Ht) as Hi.
  rewrite table_of_cons, union_assoc_L in Hsz.
  destruct (intern _ _ _) as [[[bi idx'] builds]|].
  - destruct Hi as (Ht' & _ & _ & _ & Hset). cbn. apply IH; auto. cbn. by rewrite Hset.
  - destruct Hi as (Hlen & Hnn & Hnew). exfalso.
    assert (Hsub : ({[BuildId m]} ∪ list_to_set (m_builds acc) : gset uuid) ⊆
      list_to_set (m_builds acc) ∪ ({[BuildId m]} ∖ {[uuid_nil]}) ∪ table_of src) by set_solver.
    apply subseteq_size in Hsub. rewrite size_union, size_singleton in Hsub by set_solver.
    pose proof (size_builds _ _ Ht). lia.
Qed.

Lemma table_ok_empty : table_ok ∅ [].
Proof.
  split_and!; [constructor|set_solver|done|]. intros b i. rewrite lookup_empty.
  split; [done|]. intros H%at_Some. unfold len in H. simpl in H. lia.
Qed.

Lemma empty_wf bs : 0 < bs <= 2 ^ 32 → mapping_wf (mkMapping bs [] [] [] [] []).
Proof. intros. split; cbn; auto; [constructor|set_solver]. Qed.

Lemma NewMapping_spec bs src r :
  0 < bs <= 2 ^ 32 → Forall entry_u64 src → NewMapping bs src = Ok r →
  mapping_wf r ∧ m_blockSize r = bs ∧ Slice r = Some src ∧
  Forall (packable bs) src ∧ Z.of_nat (size (table_of src)) <= maxBuildsPerHeader.
Proof.
  intros Hbs Hsrc. unfold NewMapping. destruct (Z.eqb_spec bs 0); [lia|]. intros E.
  eapply new_loop_ok in E as (? & ? & Hsl & ? & Hsz); [| |by apply empty_wf|done|done].
  - cbn in *. rewrite union_empty_l_L in Hsz. auto.
  - apply table_ok_empty.
Qed.

Lemma NewMapping_total bs src :
  0 < bs → Forall (packable bs) src → Z.of_nat (size (table_of src)) <= maxBuildsPerHeader →
  ∃ r, NewMapping bs src = Ok r.
Proof.
  intros Hbs Hp Hsz. unfold NewMapping. destruct (Z.eqb_spec bs 0); [lia|].
  apply new_loop_total; [apply table_ok_empty|done|]. cbn. by rewrite union_empty_l_L.
Qed.

(** ** Validation *)

Lemma validate_loop_spec ms size bs c i e :
  0 < bs → 0 <= c <= size → size < 2 ^ 63 → Forall entry_ok ms →
  validate_loop ms size bs c i = Ok e ↔
  tiles c e ms ∧ Forall (λ m, Length m mod bs = 0) ms ∧ e <= size.
Proof.
  intros Hbs. revert c i. induction ms as [|m ms IH]; intros c i Hc Hsz Hok; cbn.
  { split; [intros [= <-]|intros (-> & _ & _)]; [|done]. split_and!; auto; lia. }
  apply Forall_cons in Hok as [Hm Hok]. assert (Hm' := Hm). unfold entry_ok in Hm'.
  rewrite Forall_cons. destruct (Z.eqb_spec bs 0); [lia|].
  destruct (Z.eqb_spec c (Offset m)) as [->|]; cbn; [|split; [done|naive_solver congruence]].
  destruct (Z.eqb_spec (Length m mod bs) 0); cbn; [|split; [done|naive_solver]].
  rewrite u64_id by ilia. destruct (Z.ltb_spec size (Offset m + Length m)).
  - split; [done|]. intros ((_ & _ & Ht%tiles_le) & _ & ?). lia.
  - rewrite IH by (done || lia). naive_solver.
Qed.

(** The checks of [inspect.go] accept exactly the tilings of the device. *)
Lemma ValidateMappings_spec ms size bs :
  0 < bs → 0 <= size < 2 ^ 63 → Forall entry_ok ms →
  ValidateMappings ms size bs = Ok () ↔
  tiles 0 size ms ∧ Forall (λ m, Length m mod bs = 0) ms.
Proof.
  intros Hbs Hsz Hok. unfold ValidateMappings. rewrite bind_ok. split.
  - intros (c & Hc & Hr). apply validate_loop_spec in Hc as (? & ? & ?); try (done || lia).
    destruct (Z.eqb_spec c size) as [->|]; [done|]. by destruct ms.
  - intros [Ht Hb]. exists size. split.
    + apply validate_loop_spec; auto with lia.
    + by rewrite Z.eqb_refl.
Qed.

Lemma compact_validate_loop_eq offs lens bs ms size blockSize c i :
  0 < blockSize → bs mod blockSize = 0 → 0 < bs <= 2 ^ 32 →
  length offs = length lens → Forall is_u32 lens →
  Forall2 (λ p m, Offset m = u64 (p.1 * bs) ∧ Length m = u64 (p.2 * bs)) (zip offs lens) ms →
  compact_validate_loop offs lens bs size c i = validate_loop ms size blockSize c i.
Proof.
  intros Hb Hmod Hbs. revert lens ms c i.
  induction offs as [|o offs IH]; intros [|l lens] ms c i Hlen Hl H2; try done.
  { by inversion H2. }
  inversion H2 as [|? m ? ms' [Ho Hln] H2']; subst. cbn in *.
  apply Forall_cons in Hl as [Hl Hls].
  destruct (Z.eqb_spec blockSize 0); [lia|]. rewrite Ho, Hln.
  destruct (c =? u64 (o * bs)); cbn; [|done].
  rewrite (u64_id (l * bs)) by (unfold_int; nia).
  rewrite (Z.mul_mod l bs), Hmod, Z.mul_0_r, Z.mod_0_l by lia. cbn.
  destruct (size <? _); [done|]. apply IH; auto; lia.
Qed.

Lemma Slice_columns m ms :
  mapping_wf m → Slice m = Some ms →
  Forall2 (λ p e, Offset e = u64 (p.1 * m_blockSize m) ∧ Length e = u64 (p.2 * m_blockSize m))
    (zip (m_offsets m) (m_lengths m)) ms.
Proof.
  intros Hwf. rewrite Slice_rows by done. intros Hms%mapM_Some.
  assert (E : zip (m_offsets m) (m_lengths m) = fst <$> (fst <$> rows m)).
  { destruct Hwf. unfold rows.
    assert (Hf : ∀ A C (l : list A) (k : list C), length l = length k → fst <$> zip l k = l)
      by (intros; apply fst_zip; lia).
    rewrite !Hf; try done; rewrite !length_zip_with; lia. }
  rewrite E. apply Forall2_fmap_l, Forall2_fmap_l. eapply Forall2_impl; [exact Hms|].
  intros [[[o l] s] b] e. cbn. intros (? & _ & [= <-])%bind_Some. done.
Qed.

(** The compact validation is the validation of the materialised entries; only
    an empty mapping of a non-empty device tells them apart, where the latter
    indexes out of range. *)
Lemma Validate_Slice m ms size blockSize :
  mapping_wf m → Slice m = Some ms → 0 < blockSize → ms ≠ [] ∨ size = 0 →
  Validate m size blockSize = ValidateMappings ms size blockSize.
Proof.
  intros Hwf Hms Hb Hne. unfold Validate, ValidateMappings.
  destruct (Z.eqb_spec blockSize 0); [lia|].
  destruct (Z.eqb_spec (m_blockSize m mod blockSize) 0); cbn; [|by rewrite Hms].
  rewrite (compact_validate_loop_eq _ _ _ ms size blockSize); auto;
    [|apply Hwf|symmetry; apply Hwf|apply Hwf|by apply Slice_columns].
  destruct (validate_loop ms size blockSize 0 0) as [c|] eqn:E; [|done]. cbn.
  destruct (Z.eqb_spec c size); [done|]. cbn. destruct ms; [|done].
  injection E as <-. destruct Hne; [done|congruence].
Qed.

(** ** [SearchOffset] *)

Lemma SearchOffset_spec m off :
  mapping_wf m → 0 <= off →
  (∀ i j x y, (i <= j)%nat → m_offsets m !! i = Some x → m_offsets m !! j = Some y → x <= y) →
  ∃ r, SearchOffset m off = Some r ∧ 0 <= r <= Len m ∧
    (∀ i x, 0 <= i < r → at_ (m_offsets m) i = Some x → x * m_blockSize m <= off) ∧
    (∀ i x, r <= i → at_ (m_offsets m) i = Some x → off < x * m_blockSize m).
Proof.
  intros Hwf Hoff Hsort. destruct (wf_bs _ Hwf) as [Hbs _]. unfold SearchOffset, Len.
  pose proof (len_nonneg (m_offsets m)) as Hn.
  destruct (Z.ltb_spec off 0); [lia|]. cbn.
  destruct (Z.eqb_spec (len (m_offsets m)) 0) as [Hz|].
  { exists 0. split_and!; try done; try lia. intros i x ? Hx%at_Some. lia. }
  destruct (Z.eqb_spec (m_blockSize m) 0); [lia|].
  set (f := λ mid, off / m_blockSize m <? default 0 (at_ (m_offsets m) mid)).
  assert (Hmono : ∀ a b, 0 <= a → a <= b → b < len (m_offsets m) → f a = true → f b = true).
  { intros a b Ha Hab Hb. unfold f.
    destruct (at_is_Some (m_offsets m) a) as [x Hx]; [lia|].
    destruct (at_is_Some (m_offsets m) b) as [y Hy]; [lia|]. rewrite Hx, Hy. cbn.
    unfold at_ in Hx, Hy. destruct (Z.ltb_spec a 0), (Z.ltb_spec b 0); try done.
    assert (x <= y) by (eapply (Hsort (Z.to_nat a) (Z.to_nat b)); eauto; lia). lia. }
  assert (Hf : ∀ i x, at_ (m_offsets m) i = Some x →
    f i = true ↔ off < x * m_blockSize m).
  { intros i x Hx. unfold f. rewrite Hx. cbn. rewrite Z.ltb_lt.
    pose proof (Z.div_mod off (m_blockSize m)). pose proof (Z.mod_pos_bound off (m_blockSize m)).
    nia. }
  destruct (sort_search_spec f _ Hmono Hn) as (Hr & Hlo & Hhi).
  eexists. split; [done|]. fold f. fold (sort_search (len (m_offsets m)) f).
  split; [lia|]. split.
  - intros i x Hi Hx. specialize (Hlo i Hi). pose proof (Hf i x Hx).
    destruct (f i); [done|]. destruct (Z.le_gt_cases (x * m_blockSize m) off); [done|naive_solver].
  - intros i x Hi Hx. apply (Hf i x Hx). apply Hhi. pose proof (at_Some _ _ _ Hx). lia.
Qed.

(** ** Lookup by offset in a tiling *)

Lemma At_Slice m ms i : mapping_wf m → Slice m = Some ms → At m i = at_ ms i.
Proof.
  intros Hwf Hms. rewrite At_rows by done. rewrite Slice_rows in Hms by done.
  apply mapM_Some in Hms. unfold at_. destruct (i <? 0); [done|].
  destruct (rows m !! Z.to_nat i) as [r|] eqn:E; cbn.
  - destruct (Forall2_lookup_l _ _ _ _ _ Hms E) as (e & -> & <-). done.
  - symmetry. apply lookup_ge_None. apply lookup_ge_None in E.
    by rewrite <- (Forall2_length _ _ _ Hms).
Qed.

Lemma offsets_Slice m ms i e :
  mapping_wf m → Slice m = Some ms → at_ ms i = Some e →
  ∃ o, at_ (m_offsets m) i = Some o ∧ Offset e = o * m_blockSize m.
Proof.
  intros Hwf Hms He. pose proof (Slice_columns _ _ Hwf Hms) as Hc.
  unfold at_ in *. destruct (i <? 0); [done|].
  destruct (Forall2_lookup_r _ _ _ _ _ Hc He) as ([o l] & Hz & Ho & _).
  apply lookup_zip_with_Some in Hz as (? & ? & [= <- <-] & Hoff & _).
  exists o. split; [done|]. rewrite Ho. cbn.
  pose proof (Forall_lookup_1 _ _ _ _ (wf_off _ Hwf) Hoff). destruct (wf_bs _ Hwf).
  apply u64_id. unfold_int. cbv beta in *. nia.
Qed.

Lemma Slice_len m ms : mapping_wf m → Slice m = Some ms → len ms = Len m.
Proof. intros Hwf Hms. destruct (Slice_wf m Hwf) as (ms' & Hms' & ?). congruence. Qed.

(** The entry before [SearchOffset] is the one that covers the offset. *)
Lemma SearchOffset_covers m ms hi off :
  mapping_wf m → Slice m = Some ms → tiles 0 hi ms → 0 <= off < hi →
  ∃ r e, SearchOffset m off = Some r ∧ 0 < r ∧ At m (r - 1) = Some e ∧ covers e off = true ∧
    source ms off = Some (source_in e off) ∧ entry_ok e ∧ e ∈ ms.
Proof.
  intros Hwf Hms Ht Hoff. pose proof (Slice_len m ms Hwf Hms) as Hlen.
  destruct (wf_bs _ Hwf) as [Hbs _].
  assert (Hent : ∀ i o, at_ (m_offsets m) i = Some o →
    ∃ e, at_ ms i = Some e ∧ Offset e = o * m_blockSize m).
  { intros i o Ho. pose proof (at_Some _ _ _ Ho) as Hi. fold (Len m) in Hi.
    destruct (at_is_Some ms i) as [e He]; [lia|]. exists e. split; [done|].
    destruct (offsets_Slice m ms i e Hwf Hms He) as (o' & Ho' & ->). congruence. }
  destruct (SearchOffset_spec m off Hwf ltac:(lia)) as (r & Hr & Hb & Hlo & Hhi).
  { intros i j x y Hij Hx Hy. rewrite <- at_of_nat in Hx, Hy.
    destruct (Hent _ _ Hx) as (a & Ha & Hax), (Hent _ _ Hy) as (b & Hb & Hby).
    rewrite at_of_nat in Ha, Hb.
    pose proof (sorted_mono _ _ _ _ _ _ (tiles_sorted _ _ _ Ht) Ha Hb Hij). nia. }
  assert (Hr0 : 0 < r).
  { destruct (tiles_first _ _ _ Ht ltac:(lia)) as (e0 & He0 & Ho0).
    assert (He0' : at_ ms 0 = Some e0) by done.
    destruct (offsets_Slice m ms 0 e0 Hwf Hms He0') as (o & Ho & Heq).
    destruct (Z.lt_ge_cases 0 r); [done|]. specialize (Hhi 0 o ltac:(lia) Ho). lia. }
  destruct (at_is_Some ms (r - 1)) as [e He]; [lia|].
  destruct (offsets_Slice m ms _ e Hwf Hms He) as (o & Ho & Heq).
  specialize (Hlo (r - 1) o ltac:(lia) Ho). rewrite <- Heq in Hlo.
  assert (He' : ms !! Z.to_nat (r - 1) = Some e).
  { unfold at_ in He. destruct (Z.ltb_spec (r - 1) 0); [lia|done]. }
  assert (Hc : covers e off = true).
  { pose proof (tiles_next _ _ _ _ _ Ht He') as Hn.
    replace (S (Z.to_nat (r - 1))) with (Z.to_nat r) in Hn by lia.
    destruct (coversP e off) as [|Hnc]; [done|]. destruct Hnc. split; [done|].
    destruct (ms !! Z.to_nat r) as [n|] eqn:En; [|lia].
    assert (En' : at_ ms r = Some n) by (unfold at_; destruct (Z.ltb_spec r 0); [lia|done]).
    destruct (offsets_Slice m ms r n Hwf Hms En') as (o' & Ho' & Heq').
    specialize (Hhi r o' ltac:(lia) Ho'). lia. }
  exists r, e. rewrite (At_Slice _ _ _ Hwf Hms). split_and!; auto.
  - eapply source_entry; [by eapply tiles_sorted|done|done].
  - by eapply tiles_lookup.
  - by eapply list_elem_of_lookup_2.
Qed.

(** ** The properties of the compact mapping *)

Definition compact_example : list BuildMap :=
  [mkBuildMap 0 8192 id_a 0; mkBuildMap 8192 4096 uuid_nil 0; mkBuildMap 12288 4096 id_b 4096].

(** Packing succeeds on exactly the lists its checks describe (every
    offset, length and storage position aligned to the block size with a block
    index in [uint32], and at most 65535 distinct non-nil builds), and then
    materialising the compact form gives back the list it was built from. *)
Theorem NewMapping_roundtrip bs src :
  0 < bs <= 2 ^ 32 → Forall entry_u64 src →
  ((∃ m, NewMapping bs src = Ok m) ↔
     Forall (packable bs) src ∧ Z.of_nat (size (table_of src)) <= maxBuildsPerHeader) ∧
  ∀ m, NewMapping bs src = Ok m → Slice m = Some src.
Proof.
  intros Hbs Hsrc. split; [split|].
  - intros [m Hm]. by destruct (NewMapping_spec bs src m Hbs Hsrc Hm) as (_ & _ & _ & ? & ?).
  - intros [? ?]. apply NewMapping_total; [lia|done|done].
  - intros m Hm. by destruct (NewMapping_spec bs src m Hbs Hsrc Hm) as (_ & _ & ? & _).
Qed.

Lemma NewMapping_roundtrip_witness :
  Forall (packable 4096) compact_example ∧
  (NewMapping 4096 compact_example ≫= (λ m, from_option ColumnMismatch (Slice m))) = Ok compact_example.
Proof.
  assert (H : ∀ m, NewMapping 4096 compact_example = Ok m → Slice m = Some compact_example).
  { apply (NewMapping_roundtrip 4096 compact_example); [lia|].
    apply (bool_decide_unpack _). vm_compute. exact I. }
  split; [apply (bool_decide_unpack _); vm_compute; exact I|].
  destruct (NewMapping 4096 compact_example) as [m|] eqn:E.
  - cbn. by rewrite (H m eq_refl).
  - vm_compute in E. done.
Defined.

(** [Validate] on the compact columns is [ValidateMappings] on the
    materialised entries, and both accept exactly the lists that tile the
    device from zero to its size in whole blocks. *)
Theorem Validate_tiles m ms size bs :
  mapping_wf m → Slice m = Some ms → 0 < bs → 0 < size < 2 ^ 63 → ms ≠ [] →
  Forall entry_ok ms →
  Validate m size bs = ValidateMappings ms size bs ∧
  (Validate m size bs = Ok () ↔ tiles 0 size ms ∧ Forall (λ e, Length e mod bs = 0) ms).
Proof.
  intros Hwf Hms Hbs Hsz Hne Hent.
  assert (E : Validate m size bs = ValidateMappings ms size bs)
    by (apply Validate_Slice; auto).
  split; [done|]. rewrite E. apply ValidateMappings_spec; [done|lia|done].
Qed.

Definition compact_columns : Mapping :=
  mkMapping 4096 [id_a; id_b] [0; 2; 3] [2; 1; 1] [0; 0; 1] [0; nilBuildIdx; 1].

Lemma compact_columns_wf : mapping_wf compact_columns.
Proof.
  split; try (apply (bool_decide_unpack _); vm_compute; exact I); try done.
Qed.

Lemma Validate_tiles_witness :
  Validate compact_columns 16384 4096 = Ok () ∧ Validate compact_columns 20480 4096 = Err NotWhole ∧
  tiles 0 16384 compact_example.
Proof.
  split; [vm_compute; reflexivity|]. split; [vm_compute; reflexivity|].
  assert (H : Validate compact_columns 16384 4096 = Ok () ↔
    tiles 0 16384 compact_example ∧ Forall (λ e, Length e mod 4096 = 0) compact_example).
  { apply (Validate_tiles compact_columns compact_example 16384 4096).
    - exact compact_columns_wf.
    - vm_compute. reflexivity.
    - lia.
    - lia.
    - discriminate.
    - apply (bool_decide_unpack _). vm_compute. exact I. }
  apply H. vm_compute. reflexivity.
Defined.
