(* ===== verification/FrameTable.v ===== *)
(** * FrameTable: the decompression index of a compressed build

    Models [storage/compress_frame_table.go].  A table lists frames sorted in
    the uncompressed (U) and compressed (C) address spaces; gaps are allowed.
    The theorems: the wire form round-trips and rejects unsorted tables,
    [locate] finds exactly the frame that covers an offset, [TrimToRanges]
    keeps every lookup inside the kept ranges, and a full table locates every
    byte of the file.  A nil [*FrameTable] is [None]. *)

From S2P Require Import Prelude Bytes.

(** ** Data *)

(** [CompressionType] is a [byte]: any value can be read from the wire. *)
Definition CompressionNone : Z := 0.
Definition CompressionZstd : Z := 1.
Definition CompressionLZ4 : Z := 2.
Definition numCompressionTypes : Z := 3.
Definition maxDeserializedFrames : Z := 1024 * 1024.

Record FrameSize := mkFrameSize { SizeOfU : Z; SizeOfC : Z }.
Record Range := mkRange { r_Offset : Z; r_Length : Z }.
Record frameEntry := mkFrame { StartU : Z; StartC : Z; SizeU : Z; SizeC : Z }.
Record FrameTable := mkFT { compressionType : Z; entries : list frameEntry }.

#[global] Instance Range_eq_dec : EqDecision Range.
Proof. solve_decision. Defined.
#[global] Instance frameEntry_eq_dec : EqDecision frameEntry.
Proof. solve_decision. Defined.
#[global] Instance FrameTable_eq_dec : EqDecision FrameTable.
Proof. solve_decision. Defined.

Inductive frame_err : Set :=
| NilTable
| NotFound (off : Z)
| InGap (off : Z)
| FIo (e : io_err)
| ZeroTypeWithFrames (n : Z)
| TooManyFrames (n : Z)
| BadFrameSize (i : Z)
| UnsortedU (i : Z)
| UnsortedC (i : Z).

#[global] Instance frame_err_eq_dec : EqDecision frame_err.
Proof. solve_decision. Defined.

Definition UncompressedFrameTable : FrameTable := mkFT CompressionNone [].

(** [FullFrameTable] wraps a table that covers a whole file; nil is [None]. *)
Record FullFrameTable := mkFull { full_ft : FrameTable }.
Definition UncompressedFullFrameTable : FullFrameTable := mkFull UncompressedFrameTable.

Definition Table (ft : option FullFrameTable) : option FrameTable := full_ft <$> ft.

Definition FullFromTable (ft : option FrameTable) : FullFrameTable :=
  match ft with
  | Some t => match entries t with [] => UncompressedFullFrameTable | _ => mkFull t end
  | None => UncompressedFullFrameTable
  end.

Definition endU (e : frameEntry) : Z := i64 (StartU e + SizeU e).
Definition endC (e : frameEntry) : Z := i64 (StartC e + SizeC e).

(** ** Construction and size *)

Fixpoint full_loop (sizes : list FrameSize) (u c : Z) : list frameEntry :=
  match sizes with
  | [] => []
  | s :: sizes =>
      mkFrame u c (SizeOfU s) (SizeOfC s) ::
      full_loop sizes (i64 (u + SizeOfU s)) (i64 (c + SizeOfC s))
  end.

Definition NewFullFrameTable (ct : Z) (sizes : list FrameSize) : FullFrameTable :=
  mkFull (mkFT ct (full_loop sizes 0 0)).

Definition ft_CompressionType (ft : option FrameTable) : Z :=
  match ft with Some t => compressionType t | None => CompressionNone end.
Definition IsCompressed (ft : option FrameTable) : bool :=
  match ft with Some t => negb (compressionType t =? CompressionNone) | None => false end.
Definition NumFrames (ft : option FrameTable) : Z :=
  match ft with Some t => len (entries t) | None => 0 end.
Definition FrameAt (ft : FrameTable) (i : Z) : option (Z * Z * Z * Z) :=
  (λ e, (StartU e, endU e, StartC e, endC e)) <$> at_ (entries ft) i.
Definition UncompressedSize (ft : option FrameTable) : Z :=
  match ft with Some t => foldl (λ s e, i64 (s + SizeU e)) 0 (entries t) | None => 0 end.
Definition CompressedSize (ft : option FrameTable) : Z :=
  match ft with Some t => foldl (λ s e, i64 (s + SizeC e)) 0 (entries t) | None => 0 end.

(** ** Lookup *)

Definition frame_start_after (es : list frameEntry) (off i : Z) : bool :=
  match at_ es i with Some e => off <? StartU e | None => true end.

Definition locate (ft : option FrameTable) (offset : Z) : result frame_err frameEntry :=
  match ft with
  | None => Err NilTable
  | Some t =>
      let i := sort_search (len (entries t)) (frame_start_after (entries t) offset) - 1 in
      if i <? 0 then Err (NotFound offset)
      else match at_ (entries t) i with
           | Some e => if endU e <=? offset then Err (InGap offset) else Ok e
           | None => Err (NotFound offset)
           end
  end.

Definition LocateCompressed (ft : option FrameTable) (offset : Z) : result frame_err Range :=
  e ← locate ft offset; Ok (mkRange (StartC e) (SizeC e)).
Definition LocateUncompressed (ft : option FrameTable) (offset : Z) : result frame_err Range :=
  e ← locate ft offset; Ok (mkRange (StartU e) (SizeU e)).

(** ** Wire form *)

Definition put_frame (e : frameEntry) : bytes :=
  put_u64 (StartU e) ++ put_u64 (StartC e) ++ put_u32 (SizeU e) ++ put_u32 (SizeC e).

Definition Serialize (ft : option FrameTable) : bytes :=
  let '(ct, es) :=
    match ft with
    | Some t => if compressionType t =? CompressionNone then (0, []) else (compressionType t, entries t)
    | None => (0, [])
    end in
  put_u32 ct ++ put_u32 (len es) ++ concat (put_frame <$> es).

Definition get_frame : reader frameEntry := λ r,
  '(su, r) ← read_i64 r; '(sc, r) ← read_i64 r;
  '(zu, r) ← read_i32 r; '(zc, r) ← read_i32 r;
  Ok (mkFrame su sc zu zc, r).

(** [binary.Read] of a slice of [n] frames: one [io.ReadFull] of all its bytes,
    decoded in order. *)
Fixpoint get_frames (n : nat) : reader (list frameEntry) := λ r,
  match n with
  | O => Ok ([], r)
  | S n => '(e, r) ← get_frame r; '(es, r) ← get_frames n r; Ok (e :: es, r)
  end.

Definition read_frames (n : nat) : reader (list frameEntry) := λ r,
  '(b, r) ← read_full (24 * n) r;
  '(es, _) ← get_frames n b;
  Ok (es, r).

Fixpoint check_frames (prev : option frameEntry) (es : list frameEntry) (i : Z)
    : result frame_err unit :=
  match es with
  | [] => Ok ()
  | e :: es =>
      if (SizeU e <=? 0) || (SizeC e <=? 0) then Err (BadFrameSize i)
      else match prev with
           | Some p => if StartU e <? endU p then Err (UnsortedU i)
                       else if StartC e <? endC p then Err (UnsortedC i)
                       else check_frames (Some e) es (i + 1)
           | None => check_frames (Some e) es (i + 1)
           end
  end.

Definition io {A} (r : result io_err A) : result frame_err A :=
  match r with Ok a => Ok a | Err e => Err (FIo e) end.

Definition DeserializeFrameTable (r : bytes) : result frame_err (option FrameTable * bytes) :=
  '(ct, r) ← io (read_u32 r);
  '(n, r) ← io (read_u32 r);
  if (ct =? 0) && (0 <? n) then Err (ZeroTypeWithFrames n)
  else if (ct =? 0) || (n =? 0) then Ok (None, r)
  else if maxDeserializedFrames <? n then Err (TooManyFrames n)
  else
    '(es, r) ← io (read_frames (Z.to_nat n) r);
    _ ← check_frames None es 0;
    Ok (Some (mkFT (u8 ct) es), r).

(** ** [TrimToRanges] *)

(** The inner loop: mark the frames from [i] on while they start before [eU].
    [keep] and [es] are the suffixes at [i]. *)
Fixpoint mark_while (es : list frameEntry) (keep : list bool) (eU : Z) : list bool :=
  match es, keep with
  | e :: es, k :: keep =>
      if StartU e <? eU then true :: mark_while es keep eU else k :: keep
  | _, _ => keep
  end.

Definition mark_range (es : list frameEntry) (keep : list bool) (r : Range) : list bool :=
  let startU := r_Offset r in
  let eU := i64 (r_Offset r + r_Length r) in
  let lo := Z.to_nat (sort_search (len es)
    (λ i, match at_ es i with Some e => startU <? endU e | None => true end)) in
  take lo keep ++ mark_while (drop lo es) (drop lo keep) eU.

Fixpoint kept_frames (es : list frameEntry) (keep : list bool) : list frameEntry :=
  match es, keep with
  | e :: es, k :: keep => if k : bool then e :: kept_frames es keep else kept_frames es keep
  | _, _ => []
  end.

Definition TrimToRanges (ft : option FrameTable) (ranges : list Range) : option FrameTable :=
  match ft with
  | None => None
  | Some t =>
      if (len (entries t) =? 0) || (len ranges =? 0) then Some t
      else
        let keep := foldl (mark_range (entries t)) (replicate (length (entries t)) false) ranges in
        if forallb id keep then Some t
        else Some (mkFT (compressionType t) (kept_frames (entries t) keep))
  end.

(** ** Well-formed tables *)

Fixpoint frames_ok (u c : Z) (es : list frameEntry) : Prop :=
  match es with
  | [] => True
  | e :: es =>
      (u <= StartU e ∧ 0 < SizeU e < 2 ^ 31 ∧ StartU e + SizeU e < 2 ^ 63) ∧
      (c <= StartC e ∧ 0 < SizeC e < 2 ^ 31 ∧ StartC e + SizeC e < 2 ^ 63) ∧
      frames_ok (StartU e + SizeU e) (StartC e + SizeC e) es
  end.

#[global] Instance frames_ok_dec u c es : Decision (frames_ok u c es).
Proof. revert u c. induction es; intros; simpl; apply _. Defined.

Definition inside (off : Z) (e : frameEntry) : Prop := StartU e <= off < StartU e + SizeU e.
#[global] Instance inside_dec off e : Decision (inside off e).
Proof. unfold inside. apply _. Defined.

Lemma frames_ok_elem u c es e :
  0 <= u → 0 <= c → frames_ok u c es → e ∈ es →
  u <= StartU e ∧ c <= StartC e ∧ 0 < SizeU e < 2 ^ 31 ∧ 0 < SizeC e < 2 ^ 31 ∧
  endU e = StartU e + SizeU e ∧ endC e = StartC e + SizeC e ∧ StartU e + SizeU e < 2 ^ 63.
Proof.
  revert u c. induction es as [|e' es IH]; intros u c Hu Hc; cbn; [by intros _ ?%elem_of_nil|].
  intros (HU & HC & Hes) [->|He]%elem_of_cons.
  - unfold endU, endC. unwrap. lia.
  - apply IH in Hes; [|lia|lia|done]. lia.
Qed.

Lemma frames_ok_lower u c es e :
  frames_ok u c es → e ∈ es → u <= StartU e ∧ c <= StartC e.
Proof.
  revert u c. induction es as [|e' es IH]; intros u c; cbn; [by intros _ ?%elem_of_nil|].
  intros (HU & HC & Hes) [->|He]%elem_of_cons; [lia|]. specialize (IH _ _ Hes He). lia.
Qed.

Lemma frames_ok_order u c es i j a b :
  frames_ok u c es → es !! i = Some a → es !! j = Some b → (i < j)%nat →
  StartU a + SizeU a <= StartU b ∧ StartC a + SizeC a <= StartC b.
Proof.
  revert u c i j. induction es as [|e es IH]; intros u c i j; [done|].
  cbn. intros (HU & HC & Hes) Ha Hb Hij. destruct j as [|j]; [lia|].
  destruct i as [|i]; cbn in *; [|eapply IH; eauto; lia]. simplify_eq.
  eapply frames_ok_lower; [done|]. by eapply list_elem_of_lookup_2.
Qed.

(** ** [locate] *)

Section locate.
Context (t : FrameTable).
Hypothesis Hok : frames_ok 0 0 (entries t).

Lemma start_after_at off i e :
  at_ (entries t) i = Some e → frame_start_after (entries t) off i = (off <? StartU e).
Proof using. unfold frame_start_after. by intros ->. Qed.

Lemma at_order i j a b :
  at_ (entries t) i = Some a → at_ (entries t) j = Some b → i < j →
  StartU a + SizeU a <= StartU b.
Proof using Hok.
  unfold at_. destruct (Z.ltb_spec i 0), (Z.ltb_spec j 0); try done.
  intros Ha Hb Hij. destruct (frames_ok_order _ _ _ _ _ _ _ Hok Ha Hb); lia.
Qed.

Lemma start_after_mono off a b :
  0 <= a → a <= b → b < len (entries t) →
  frame_start_after (entries t) off a = true → frame_start_after (entries t) off b = true.
Proof using Hok.
  intros Ha Hab Hb. destruct (decide (a = b)) as [->|]; [done|].
  destruct (at_is_Some (entries t) a) as [x Hx]; [lia|].
  destruct (at_is_Some (entries t) b) as [y Hy]; [lia|].
  rewrite (start_after_at _ _ _ Hx), (start_after_at _ _ _ Hy).
  pose proof (at_order _ _ _ _ Hx Hy ltac:(lia)).
  assert (Hin : x ∈ entries t) by (unfold at_ in Hx; case_match; [done|]; by eapply list_elem_of_lookup_2).
  pose proof (frames_ok_elem 0 0 _ _ ltac:(lia) ltac:(lia) Hok Hin). lia.
Qed.

(** The frame found is the one that covers the offset; an offset in no frame
    is an error. *)
Lemma locate_spec off e :
  locate (Some t) off = Ok e ↔ e ∈ entries t ∧ inside off e.
Proof using Hok.
  unfold locate, inside. pose proof (len_nonneg (entries t)) as Hn.
  destruct (sort_search_spec _ _ (start_after_mono off) Hn) as (Hr & Hlo & Hhi).
  set (r := sort_search _ _) in *.
  assert (Hin : ∀ i x, at_ (entries t) i = Some x → x ∈ entries t).
  { intros i x Hx. unfold at_ in Hx. case_match; [done|]. by eapply list_elem_of_lookup_2. }
  assert (Hok' : ∀ i x, at_ (entries t) i = Some x →
    0 < SizeU x ∧ endU x = StartU x + SizeU x).
  { intros i x Hx%Hin. pose proof (frames_ok_elem 0 0 _ _ ltac:(lia) ltac:(lia) Hok Hx). lia. }
  split.
  - destruct (Z.ltb_spec (r - 1) 0); [done|].
    destruct (at_ (entries t) (r - 1)) as [e'|] eqn:E; [|done].
    destruct (Z.leb_spec (endU e') off); [done|]. intros [= <-].
    split; [by eapply Hin|]. specialize (Hlo (r - 1) ltac:(lia)).
    rewrite (start_after_at _ _ _ E) in Hlo. destruct (Hok' _ _ E). lia.
  - intros [[i Hi]%list_elem_of_lookup Hoff].
    assert (Hi' : at_ (entries t) (Z.of_nat i) = Some e) by (by rewrite at_of_nat).
    pose proof (at_Some _ _ _ Hi'). destruct (Hok' _ _ Hi') as [Hpos Hend].
    assert (r = Z.of_nat i + 1) as ->.
    { assert (Z.of_nat i < r).
      { destruct (Z.lt_ge_cases (Z.of_nat i) r); [done|].
        specialize (Hhi (Z.of_nat i) ltac:(lia)). rewrite (start_after_at _ _ _ Hi') in Hhi. lia. }
      destruct (Z.eq_dec r (Z.of_nat i + 1)); [done|].
      destruct (at_is_Some (entries t) (Z.of_nat i + 1)) as [y Hy]; [lia|].
      specialize (Hlo (Z.of_nat i + 1) ltac:(lia)). rewrite (start_after_at _ _ _ Hy) in Hlo.
      pose proof (at_order _ _ _ _ Hi' Hy ltac:(lia)). lia. }
    destruct (Z.ltb_spec (Z.of_nat i + 1 - 1) 0); [lia|].
    replace (Z.of_nat i + 1 - 1) with (Z.of_nat i) by lia. rewrite Hi', Hend.
    destruct (Z.leb_spec (StartU e + SizeU e) off); [lia|done].
Qed.
End locate.

(** ** The wire form *)

Definition frame_fits (e : frameEntry) : Prop :=
  is_i64 (StartU e) ∧ is_i64 (StartC e) ∧ is_i32 (SizeU e) ∧ is_i32 (SizeC e).

Lemma get_frame_put e r : frame_fits e → get_frame (put_frame e ++ r) = Ok (e, r).
Proof.
  intros (? & ? & ? & ?). unfold get_frame, put_frame. rewrite <- !app_assoc.
  rewrite read_i64_put by done. cbn. rewrite read_i64_put by done. cbn.
  rewrite read_i32_put by done. cbn. rewrite read_i32_put by done. cbn. by destruct e.
Qed.

Lemma length_put_frame e : length (put_frame e) = 24%nat.
Proof. unfold put_frame, put_u64, put_u32. by rewrite !length_app, !length_le_enc. Qed.

Lemma length_put_frames es : length (concat (put_frame <$> es)) = (24 * length es)%nat.
Proof.
  induction es as [|e es IH]; [done|]. cbn [fmap list_fmap concat].
  rewrite length_app, IH, length_put_frame. simpl. lia.
Qed.

Lemma get_frames_put es r :
  Forall frame_fits es → get_frames (length es) (concat (put_frame <$> es) ++ r) = Ok (es, r).
Proof.
  induction 1 as [|e es He Hes IH]; [done|]. cbn [fmap list_fmap concat length get_frames].
  rewrite <- app_assoc, get_frame_put by done. cbn. by rewrite IH.
Qed.

Lemma read_frames_put es r :
  es ≠ [] → Forall frame_fits es →
  read_frames (length es) (concat (put_frame <$> es) ++ r) = Ok (es, r).
Proof.
  intros Hne Hes. unfold read_frames.
  rewrite read_full_app; [|by rewrite length_put_frames|destruct es; [done|simpl; lia]].
  cbn. pose proof (get_frames_put es [] Hes) as E. rewrite app_nil_r in E. by rewrite E.
Qed.

Lemma frames_ok_fits u c es : 0 <= u → 0 <= c → frames_ok u c es → Forall frame_fits es.
Proof.
  revert u c. induction es as [|e es IH]; intros u c Hu Hc; cbn; [done|].
  intros (HU & HC & Hes). constructor; [|eapply IH; [| |done]; lia].
  unfold frame_fits. unfold_int. lia.
Qed.

Lemma check_frames_ok u c es prev i :
  0 <= u → 0 <= c → frames_ok u c es →
  match prev with Some p => endU p <= u ∧ endC p <= c | None => True end →
  check_frames prev es i = Ok ().
Proof.
  revert u c prev i. induction es as [|e es IH]; intros u c prev i Hu Hc; [done|].
  intros Hok Hprev. destruct Hok as (HU & HC & Hes). cbn [check_frames].
  destruct (Z.leb_spec (SizeU e) 0), (Z.leb_spec (SizeC e) 0); try lia. cbn.
  assert (check_frames (Some e) es (i + 1) = Ok ()) as E.
  { eapply IH; [| |exact Hes|]; [lia..|]. unfold endU, endC. unwrap. lia. }
  destruct prev as [p|]; [|done].
  destruct (Z.ltb_spec (StartU e) (endU p)), (Z.ltb_spec (StartC e) (endC p)); [lia..|done].
Qed.

Definition table_ok (t : FrameTable) : Prop :=
  0 < compressionType t < 2 ^ 8 ∧ 0 < len (entries t) <= maxDeserializedFrames ∧
  frames_ok 0 0 (entries t).
#[global] Instance table_ok_dec t : Decision (table_ok t).
Proof. unfold table_ok. apply _. Defined.

Lemma DeserializeFrameTable_Serialize t r :
  table_ok t → DeserializeFrameTable (Serialize (Some t) ++ r) = Ok (Some t, r).
Proof.
  intros (Hct & Hn & Hok). unfold Serialize, CompressionNone.
  destruct (Z.eqb_spec (compressionType t) 0); [lia|].
  unfold DeserializeFrameTable, maxDeserializedFrames in *.
  rewrite <- !app_assoc, read_u32_put by (unfold_int; lia). cbn -[Z.ltb read_frames].
  rewrite read_u32_put by (unfold_int; lia). cbn -[Z.ltb read_frames].
  destruct (Z.eqb_spec (compressionType t) 0); [lia|].
  destruct (Z.eqb_spec (len (entries t)) 0); [lia|]. cbn -[Z.ltb read_frames].
  destruct (Z.ltb_spec (1024 * 1024) (len (entries t))); [lia|].
  unfold len. rewrite Nat2Z.id, read_frames_put;
    [|intros E; rewrite E in Hn; unfold len in Hn; simpl in Hn; lia|by eapply frames_ok_fits].
  cbn -[read_frames]. rewrite (check_frames_ok 0 0) by (done || lia). cbn.
  rewrite u8_id by (unfold_int; lia). by destruct t.
Qed.

(** The nil table, and every table without a codec, comes back as nil. *)
Lemma DeserializeFrameTable_none ft r :
  IsCompressed ft = false → DeserializeFrameTable (Serialize ft ++ r) = Ok (None, r).
Proof.
  intros Hc. assert (Serialize ft = put_u32 0 ++ put_u32 0) as ->; [|done].
  destruct ft as [t|]; [|done]. cbn in Hc. unfold Serialize.
  apply negb_false_iff in Hc. by rewrite Hc.
Qed.

(** ** [TrimToRanges] *)

Definition range_ok (r : Range) : Prop :=
  0 <= r_Offset r ∧ 0 <= r_Length r ∧ r_Offset r + r_Length r < 2 ^ 63.
#[global] Instance range_ok_dec r : Decision (range_ok r).
Proof. unfold range_ok. apply _. Defined.

Definition overlaps (e : frameEntry) (r : Range) : bool :=
  (r_Offset r <? StartU e + SizeU e) && (StartU e <? r_Offset r + r_Length r).

Lemma mark_while_zip u c es keep eU :
  frames_ok u c es → length keep = length es →
  mark_while es keep eU = zip_with (λ e k, k || (StartU e <? eU)) es keep.
Proof.
  revert u c keep. induction es as [|e es IH]; intros u c [|k keep] Hok Hlen; try done.
  cbn in *. destruct Hok as (HU & HC & Hes).
  destruct (Z.ltb_spec (StartU e) eU).
  - rewrite orb_true_r. f_equal. eapply IH; [done|lia].
  - rewrite orb_false_r. f_equal.
    assert (Hall : ∀ x, x ∈ es → (StartU x <? eU) = false).
    { intros x Hx. destruct (frames_ok_lower _ _ _ _ Hes Hx). lia. }
    assert (Hlen' : length keep = length es) by lia.
    clear IH Hes Hlen. revert keep Hlen'. induction es as [|x es IH]; intros [|k' keep] ?; try done.
    cbn in *. rewrite Hall by set_solver. rewrite orb_false_r. f_equal.
    apply IH; [intros; apply Hall; set_solver|lia].
Qed.

Lemma frames_ok_drop u c es n :
  0 <= u → 0 <= c → frames_ok u c es → ∃ u' c', frames_ok u' c' (drop n es).
Proof.
  revert u c n. induction es as [|e es IH]; intros u c [|n] Hu Hc Hok; [by exists 0, 0..| |].
  - by exists u, c.
  - cbn in *. destruct Hok as (HU & HC & Hes). eapply IH; [| |done]; lia.
Qed.

Lemma zip_with_same {A B} (f : A → B → B) (l : list A) (k : list B) :
  length k = length l → (∀ i a b, l !! i = Some a → k !! i = Some b → f a b = b) →
  zip_with f l k = k.
Proof.
  revert k. induction l as [|a l IH]; intros [|b k] Hlen Hf; try done. cbn in *.
  rewrite (Hf O a b) by done. f_equal. apply IH; [lia|]. intros i. apply (Hf (S i)).
Qed.

Lemma mark_range_zip t keep r :
  frames_ok 0 0 (entries t) → range_ok r → length keep = length (entries t) →
  mark_range (entries t) keep r =
  zip_with (λ e k, k || overlaps e r) (entries t) keep.
Proof.
  intros Hok (Ho & Hl & Hr) Hlen. unfold mark_range. rewrite (i64_id (_ + _)) by ilia.
  set (f := λ i, _). pose proof (len_nonneg (entries t)) as Hn.
  assert (Hf : ∀ i e, at_ (entries t) i = Some e → f i = (r_Offset r <? StartU e + SizeU e)).
  { intros i e He. unfold f. rewrite He.
    assert (Hin : e ∈ entries t) by (unfold at_ in He; case_match; [done|]; by eapply list_elem_of_lookup_2).
    pose proof (frames_ok_elem 0 0 _ _ ltac:(lia) ltac:(lia) Hok Hin) as He'.
    destruct He' as (_ & _ & _ & _ & -> & _). done. }
  assert (Hmono : ∀ a b, 0 <= a → a <= b → b < len (entries t) → f a = true → f b = true).
  { intros a b Ha Hab Hb. destruct (decide (a = b)) as [->|]; [done|].
    destruct (at_is_Some (entries t) a) as [x Hx]; [lia|].
    destruct (at_is_Some (entries t) b) as [y Hy]; [lia|].
    rewrite (Hf _ _ Hx), (Hf _ _ Hy). pose proof (at_order t Hok _ _ _ _ Hx Hy ltac:(lia)).
    assert (Hin : y ∈ entries t) by (unfold at_ in Hy; case_match; [done|]; by eapply list_elem_of_lookup_2).
    pose proof (frames_ok_elem 0 0 _ _ ltac:(lia) ltac:(lia) Hok Hin). lia. }
  destruct (sort_search_spec f _ Hmono Hn) as (Hb & Hlo & Hhi).
  set (lo := Z.to_nat (sort_search (len (entries t)) f)) in *.
  assert (Hlolen : (lo <= length (entries t))%nat) by (unfold lo, len in *; lia).
  rewrite <- (take_drop lo (zip_with _ _ _)). rewrite zip_with_take, zip_with_drop. f_equal.
  - symmetry. apply zip_with_same; [rewrite !length_take; lia|].
    intros i e k He Hk. assert (Hi : (i < lo)%nat) by (apply lookup_lt_Some in He; rewrite length_take in He; lia).
    rewrite lookup_take_lt in He by done. rewrite <- at_of_nat in He.
    unfold overlaps. rewrite <- (Hf _ _ He), Hlo by (unfold lo in Hi; lia). apply orb_false_r.
  - destruct (frames_ok_drop 0 0 _ lo ltac:(lia) ltac:(lia) Hok) as (u' & c' & Hd).
    rewrite (mark_while_zip u' c') by (done || rewrite !length_drop; lia).
    assert (Hall : ∀ i e, drop lo (entries t) !! i = Some e → (r_Offset r <? StartU e + SizeU e) = true).
    { intros i e He. rewrite lookup_drop in He. rewrite <- at_of_nat in He.
      rewrite <- (Hf _ _ He). apply Hhi. pose proof (at_Some _ _ _ He). unfold lo in *. lia. }
    apply list_eq. intros i. rewrite !lookup_zip_with.
    destruct (drop lo (entries t) !! i) as [e|] eqn:E; [|done]. cbn.
    unfold overlaps. by rewrite (Hall _ _ E).
Qed.

Lemma kept_frames_filter (P : frameEntry → bool) es :
  kept_frames es (zip_with (λ e k, k || P e) es (replicate (length es) false)) =
  filter (λ e, P e = true) es.
Proof.
  induction es as [|e es IH]; [done|]. rewrite filter_cons. cbn.
  destruct (P e); cbn; by rewrite IH.
Qed.

Lemma zip_with_or (P Q : frameEntry → bool) es keep :
  zip_with (λ e k, k || Q e) es (zip_with (λ e k, k || P e) es keep) =
  zip_with (λ e k, k || (P e || Q e)) es keep.
Proof.
  revert keep. induction es as [|e es IH]; intros [|k keep]; try done. cbn.
  by rewrite IH, orb_assoc.
Qed.

Lemma mark_ranges_zip t keep ranges :
  frames_ok 0 0 (entries t) → Forall range_ok ranges → length keep = length (entries t) →
  foldl (mark_range (entries t)) keep ranges =
  zip_with (λ e k, k || existsb (overlaps e) ranges) (entries t) keep.
Proof.
  intros Hok. revert keep. induction ranges as [|r ranges IH]; intros keep Hr Hlen; cbn.
  { symmetry. apply zip_with_same; [done|]. intros. apply orb_false_r. }
  apply Forall_cons in Hr as [Hr Hrs].
  rewrite mark_range_zip, IH by (done || rewrite ?length_zip_with; lia).
  apply zip_with_or.
Qed.

Lemma forallb_zip_filter (P : frameEntry → bool) es :
  forallb id (zip_with (λ e k, k || P e) es (replicate (length es) false)) = true →
  filter (λ e, P e = true) es = es.
Proof.
  induction es as [|e es IH]; [done|]. rewrite filter_cons. cbn. unfold id at 1.
  intros [He Hes]%andb_true_iff. rewrite decide_True by done. by rewrite IH.
Qed.

(** The kept frames are those that overlap one of the ranges. *)
Lemma TrimToRanges_filter t ranges :
  frames_ok 0 0 (entries t) → Forall range_ok ranges → ranges ≠ [] →
  TrimToRanges (Some t) ranges =
  Some (mkFT (compressionType t) (filter (λ e, existsb (overlaps e) ranges = true) (entries t))).
Proof.
  intros Hok Hr Hne. unfold TrimToRanges.
  destruct (Z.eqb_spec (len (entries t)) 0) as [E|E].
  { cbn. destruct t as [ct [|e es]]; [done|]. unfold len in E. simpl in E. lia. }
  destruct (Z.eqb_spec (len ranges) 0) as [E'|]; cbn.
  { destruct ranges; [done|]. unfold len in E'. simpl in E'. lia. }
  rewrite mark_ranges_zip by (done || by rewrite length_replicate).
  destruct (forallb id _) eqn:Hall.
  - rewrite forallb_zip_filter by done. by destruct t.
  - by rewrite kept_frames_filter.
Qed.

Lemma frames_ok_filter (P : frameEntry → Prop) `{∀ e, Decision (P e)} u c es :
  frames_ok u c es → frames_ok u c (filter P es).
Proof.
  revert u c. induction es as [|e es IH]; intros u c; [done|]. cbn [frames_ok].
  intros (HU & HC & Hes). rewrite filter_cons. case_decide; cbn; [auto|].
  specialize (IH _ _ Hes). destruct (filter P es); [done|]. cbn in *. intuition lia.
Qed.

Lemma TrimToRanges_locate_spec t ranges t' off e :
  frames_ok 0 0 (entries t) → Forall range_ok ranges →
  TrimToRanges (Some t) ranges = Some t' →
  existsb (λ r, (r_Offset r <=? off) && (off <? r_Offset r + r_Length r)) ranges = true →
  locate (Some t') off = Ok e ↔ locate (Some t) off = Ok e.
Proof.
  intros Hok Hr Ht Hoff.
  destruct ranges as [|r0 rs]; [done|]. rewrite TrimToRanges_filter in Ht by done.
  injection Ht as <-. rewrite !locate_spec by (done || by apply frames_ok_filter).
  cbn [entries]. rewrite list_elem_of_filter. split; [tauto|]. intros [He Hin].
  split; [split; [|done]|done]. apply existsb_exists in Hoff as (r & Hrin & Hro).
  apply (existsb_exists (overlaps e) (r0 :: rs)). exists r. split; [done|].
  unfold overlaps, inside in *. lia.
Qed.

(** ** Full tables *)

Definition sizes_ok (sizes : list FrameSize) : Prop :=
  Forall (λ s, 0 < SizeOfU s < 2 ^ 31 ∧ 0 < SizeOfC s < 2 ^ 31) sizes.
#[global] Instance sizes_ok_dec sizes : Decision (sizes_ok sizes).
Proof. unfold sizes_ok. apply _. Defined.

Fixpoint sum_U (sizes : list FrameSize) : Z :=
  match sizes with [] => 0 | s :: sizes => SizeOfU s + sum_U sizes end.
Fixpoint sum_C (sizes : list FrameSize) : Z :=
  match sizes with [] => 0 | s :: sizes => SizeOfC s + sum_C sizes end.

Lemma full_loop_ok sizes u c :
  0 <= u → 0 <= c → sizes_ok sizes → u + sum_U sizes < 2 ^ 63 → c + sum_C sizes < 2 ^ 63 →
  frames_ok u c (full_loop sizes u c) ∧
  ∀ off, u <= off < u + sum_U sizes → ∃ e, e ∈ full_loop sizes u c ∧ inside off e.
Proof.
  revert u c. induction sizes as [|s sizes IH]; intros u c Hu Hc Hs HU HC; cbn in *.
  { split; [done|lia]. }
  apply Forall_cons in Hs as [Hs1 Hs]. fold (sizes_ok sizes) in Hs.
  assert (0 <= sum_U sizes ∧ 0 <= sum_C sizes).
  { clear -Hs. induction Hs as [|x l Hx Hl IH]; cbn; lia. }
  rewrite !i64_id by ilia.
  destruct (IH (u + SizeOfU s) (c + SizeOfC s)) as [Hok Hcov]; [lia|lia|done|lia|lia|].
  split; [split; [cbn; lia|split; [cbn; lia|done]]|].
  intros off Hoff. destruct (Z.lt_ge_cases off (u + SizeOfU s)).
  - eexists. split; [apply list_elem_of_here|]. unfold inside; cbn. lia.
  - destruct (Hcov off ltac:(lia)) as (e & He & Hin). exists e. split; [by apply list_elem_of_further|done].
Qed.

Lemma NewFullFrameTable_spec ct sizes off :
  sizes_ok sizes → sum_U sizes < 2 ^ 63 → sum_C sizes < 2 ^ 63 → 0 <= off < sum_U sizes →
  ∃ e, locate (Table (Some (NewFullFrameTable ct sizes))) off = Ok e ∧ inside off e.
Proof.
  intros Hs HU HC Hoff.
  destruct (full_loop_ok sizes 0 0 ltac:(lia) ltac:(lia) Hs ltac:(lia) ltac:(lia)) as [Hok Hcov].
  destruct (Hcov off ltac:(lia)) as (e & He & Hin). exists e. split; [|done].
  by apply (locate_spec (mkFT ct (full_loop sizes 0 0))).
Qed.

(** ** The properties of frame tables *)

Definition table_example : FrameTable :=
  mkFT CompressionZstd [mkFrame 0 0 4096 100; mkFrame 4096 100 4096 50; mkFrame 16384 900 8192 70].

(** A table that is compressed, non-empty, below the frame cap and sorted
    in both address spaces survives the wire: deserialising its serialisation,
    whatever follows it, gives the same table and leaves the rest unread.  A
    table without a codec, like the nil table, comes back as nil. *)
Theorem FrameTable_roundtrip ft r :
  (∀ t, ft = Some t → compressionType t ≠ CompressionNone → table_ok t) →
  DeserializeFrameTable (Serialize ft ++ r) = Ok (if IsCompressed ft then ft else None, r).
Proof.
  intros Hok. destruct (IsCompressed ft) eqn:E; [|by apply DeserializeFrameTable_none].
  destruct ft as [t|]; [|done]. cbn in E. apply negb_true_iff, Z.eqb_neq in E.
  apply DeserializeFrameTable_Serialize. by apply Hok.
Qed.

Lemma FrameTable_roundtrip_witness :
  DeserializeFrameTable (Serialize (Some table_example) ++ [7; 7]) = Ok (Some table_example, [7; 7]).
Proof.
  apply (FrameTable_roundtrip (Some table_example) [7; 7]).
  intros t [= <-] _. apply (bool_decide_unpack _). vm_compute. exact I.
Defined.

(** The binary search of [locate] is exact: it returns the frame that
    covers the uncompressed offset, and an error for every offset no frame
    covers (before the first frame, in a gap, past the end). *)
Theorem locate_exact t off :
  frames_ok 0 0 (entries t) →
  (∀ e, locate (Some t) off = Ok e ↔ e ∈ entries t ∧ inside off e) ∧
  (is_ok (locate (Some t) off) = existsb (λ e, bool_decide (inside off e)) (entries t)).
Proof.
  intros Hok. pose proof (locate_spec t Hok off) as Hl. split; [exact Hl|].
  apply eq_true_iff_eq. rewrite existsb_exists. split.
  - destruct (locate (Some t) off) as [e|]; [|done]. intros _.
    destruct (proj1 (Hl e) eq_refl) as [Hin ?]. exists e.
    split; [by apply list_elem_of_In|by apply bool_decide_eq_true].
  - intros (e & Hin%list_elem_of_In & Hc%bool_decide_eq_true).
    by rewrite (proj2 (Hl e) (conj Hin Hc)).
Qed.

Lemma locate_exact_witness :
  locate (Some table_example) 5000 = Ok (mkFrame 4096 100 4096 50) ∧
  locate (Some table_example) 9000 = Err (InGap 9000).
Proof.
  split; [|vm_compute; reflexivity].
  apply (locate_exact table_example 5000).
  - apply (bool_decide_unpack _). vm_compute. exact I.
  - split; [right; left; reflexivity|]. unfold inside. cbn. lia.
Defined.

(** Trimming a table to the ranges a layer references keeps exactly the
    frames that overlap one of them, and changes no lookup inside a range. *)
Theorem TrimToRanges_keeps_lookups t ranges t' :
  frames_ok 0 0 (entries t) → Forall range_ok ranges → ranges ≠ [] →
  TrimToRanges (Some t) ranges = Some t' →
  entries t' = filter (λ e, existsb (overlaps e) ranges = true) (entries t) ∧
  compressionType t' = compressionType t ∧
  ∀ off e, existsb (λ r, (r_Offset r <=? off) && (off <? r_Offset r + r_Length r)) ranges = true →
    locate (Some t') off = Ok e ↔ locate (Some t) off = Ok e.
Proof.
  intros Hok Hr Hne Ht. rewrite (TrimToRanges_filter t ranges) in Ht by done.
  split_and!; [by injection Ht as <-..|].
  intros off e. apply (TrimToRanges_locate_spec t ranges); [done|done|].
  by rewrite TrimToRanges_filter.
Qed.

Lemma TrimToRanges_keeps_lookups_witness :
  TrimToRanges (Some table_example) [mkRange 4096 100; mkRange 16384 1] =
    Some (mkFT CompressionZstd [mkFrame 4096 100 4096 50; mkFrame 16384 900 8192 70]) ∧
  (locate (Some (mkFT CompressionZstd [mkFrame 4096 100 4096 50; mkFrame 16384 900 8192 70])) 4100
     = Ok (mkFrame 4096 100 4096 50) ↔
   locate (Some table_example) 4100 = Ok (mkFrame 4096 100 4096 50)).
Proof.
  split; [vm_compute; reflexivity|].
  refine (proj2 (proj2 (TrimToRanges_keeps_lookups table_example
    [mkRange 4096 100; mkRange 16384 1] _ _ _ _ _)) 4100 _ _).
  - apply (bool_decide_unpack _). vm_compute. exact I.
  - apply (bool_decide_unpack _). vm_compute. exact I.
  - discriminate.
  - vm_compute. reflexivity.
  - vm_compute. reflexivity.
Defined.

(** A full table built from consecutive frame sizes has no gap: every byte
    of the file, from zero to the sum of the uncompressed sizes, is located in
    a frame that covers it. *)
Theorem NewFullFrameTable_complete ct sizes off :
  sizes_ok sizes → sum_U sizes < 2 ^ 63 → sum_C sizes < 2 ^ 63 → 0 <= off < sum_U sizes →
  ∃ e, locate (Table (Some (NewFullFrameTable ct sizes))) off = Ok e ∧ inside off e.
Proof. apply NewFullFrameTable_spec. Qed.

Lemma NewFullFrameTable_complete_witness :
  ∃ e, locate (Table (Some (NewFullFrameTable CompressionLZ4
         [mkFrameSize 4096 10; mkFrameSize 100 20]))) 4100 = Ok e ∧ inside 4100 e.
Proof.
  apply (NewFullFrameTable_complete CompressionLZ4 [mkFrameSize 4096 10; mkFrameSize 100 20] 4100).
  - apply (bool_decide_unpack _). vm_compute. exact I.
  - vm_compute. reflexivity.
  - vm_compute. reflexivity.
  - split; vm_compute; congruence.
Defined.

(** ** What a reader of the wire sees *)

(** A table that serialises faithfully: compressed ones are sorted and within
    the frame cap. *)
Definition ft_ok (ft : option FrameTable) : Prop :=
  match ft with
  | Some t => compressionType t ≠ CompressionNone →
      0 < compressionType t < 2 ^ 8 ∧ len (entries t) <= maxDeserializedFrames ∧
      frames_ok 0 0 (entries t)
  | None => True
  end.
#[global] Instance ft_ok_dec ft : Decision (ft_ok ft).
Proof. destruct ft; simpl; [unfold CompressionNone|]; apply _. Defined.

(** Tables without a codec or without frames come back as nil. *)
Definition wire_ft (ft : option FrameTable) : option FrameTable :=
  match ft with
  | Some t => if (compressionType t =? CompressionNone) || (len (entries t) =? 0) then None else Some t
  | None => None
  end.

Lemma DeserializeFrameTable_wire ft r :
  ft_ok ft → DeserializeFrameTable (Serialize ft ++ r) = Ok (wire_ft ft, r).
Proof.
  intros Hok. destruct ft as [t|]; [|done]. cbn [wire_ft ft_ok] in *.
  unfold CompressionNone in *.
  destruct (Z.eqb_spec (compressionType t) 0) as [E|E]; cbn [orb].
  { apply DeserializeFrameTable_none. cbn. unfold CompressionNone. by rewrite E. }
  destruct (Hok E) as (Hct & Hlen & Hf).
  destruct (Z.eqb_spec (len (entries t)) 0) as [E'|E'].
  - unfold Serialize, CompressionNone. destruct (Z.eqb_spec (compressionType t) 0); [done|].
    destruct (entries t); [|unfold len in E'; simpl in E'; lia].
    unfold DeserializeFrameTable. rewrite <- !app_assoc.
    rewrite read_u32_put by (unfold_int; lia). cbn -[Z.ltb]. rewrite read_u32_put by done.
    cbn -[Z.ltb]. by destruct (Z.eqb_spec (compressionType t) 0).
  - apply DeserializeFrameTable_Serialize. split; [done|].
    pose proof (len_nonneg (entries t)). split; [lia|done].
Qed.

Lemma Serialize_length ft : (8 <= length (Serialize ft))%nat.
Proof.
  unfold Serialize. destruct (match ft with Some t => _ | None => _ end) as [ct es].
  rewrite !length_app. unfold put_u32. rewrite !length_le_enc. lia.
Qed.

Lemma TrimToRanges_ft_ok ft ranges :
  ft_ok ft → Forall range_ok ranges → ft_ok (TrimToRanges ft ranges).
Proof.
  intros Hok Hr. destruct ft as [t|]; [|done].
  destruct (decide (ranges = [])) as [->|Hne].
  { cbn. destruct (len (entries t) =? 0); done. }
  destruct (decide (compressionType t = CompressionNone)) as [E|E].
  { unfold TrimToRanges. repeat case_match; cbn; done. }
  destruct (Hok E) as (? & ? & Hf). rewrite TrimToRanges_filter by done.
  intros _. cbn [compressionType entries]. split; [done|]. split; [|by apply frames_ok_filter].
  pose proof (length_filter (λ e, existsb (overlaps e) ranges = true) (entries t)).
  unfold len in *. lia.
Qed.
