(* ===== verification/Header.v ===== *)
(** * Header: snapshot headers, byte resolution and diff headers

    Models [header/header.go] and [header/metadata.go]: the header of a build,
    the resolution of a device offset to a build ([GetShiftedMapping]), the
    header of a snapshot built from its parent and the dirty and empty bitmaps
    ([ToDiffHeader]), the integrity check [ValidateHeader], and the builder
    that splits an exported image into dirty and empty blocks ([Process]). *)

From S2P Require Import Prelude Bytes Bitmap Blocks Mapping Compact FrameTable.

(** ** Data *)

Record Metadata := mkMetadata {
  Version : Z;       (* uint64 *)
  BlockSize : Z;     (* uint64 *)
  Size : Z;          (* uint64 *)
  Generation : Z;    (* uint64 *)
  md_BuildId : uuid;
  BaseBuildId : uuid
}.

Record BuildData := mkBuildData {
  bd_Size : Z;                       (* int64 *)
  bd_Checksum : bytes;               (* [32]byte *)
  bd_FrameData : option FrameTable
}.

(** [h_Builds] is [None] for the nil map of a V3 header. *)
Record Header := mkHeader {
  h_Metadata : Metadata;
  h_Builds : option (gmap uuid BuildData);
  h_Mapping : Compact.Mapping;
  IncompletePendingUpload : bool
}.

#[global] Instance Metadata_eq_dec : EqDecision Metadata.
Proof. solve_decision. Defined.
#[global] Instance BuildData_eq_dec : EqDecision BuildData.
Proof. solve_decision. Defined.
#[global] Instance Header_eq_dec : EqDecision Header.
Proof. solve_decision. Defined.

Definition NormalizeFixVersion : Z := 3.
Definition metadataVersion : Z := 3.
Definition MetadataVersionV4 : Z := 4.
Definition MetadataVersionV5 : Z := 5.

Inductive header_err : Set :=
| NilHeader
| ZeroBlockSizeH
| ZeroSize
| NoMappings
| CompactErr (e : compact_err)
| MappingErr (e : mapping_err)
| OffsetOutOfBounds (off : Z)
| OffsetNotPageAligned (off : Z)
| NoSource (off : Z)
| BeyondMapping (off : Z)
| NegativeLength (off : Z)
| NoSelfEntry
| NotFromZero
| Gap (i : Z)
| Overlap (i : Z)
| NotCovered
| TooFar
| EntryBeyondSize (i : Z)
| EmptyEntry (i : Z)
| ShortWrite
| WriteFailed
| Panic.

Definition compact_result {A} (r : result compact_err A) : result header_err A :=
  match r with Ok a => Ok a | Err e => Err (CompactErr e) end.
Definition mapping_result {A} (r : result mapping_err A) : result header_err A :=
  match r with Ok a => Ok a | Err e => Err (MappingErr e) end.

(** ** [metadata.go]: metadata of templates and of the next generation *)

Definition NewTemplateMetadata (buildId : uuid) (blockSize size : Z) : Metadata :=
  mkMetadata metadataVersion blockSize size 0 buildId buildId.

Definition NextGeneration (m : Metadata) (buildID : uuid) : Metadata :=
  mkMetadata (Version m) (BlockSize m) (Size m) (u64 (Generation m + 1)) buildID (BaseBuildId m).

(** ** [header.go]: construction *)

Definition CloneForUpload (t : Header) (version : Z) : Header :=
  let m := h_Metadata t in
  mkHeader (mkMetadata version (BlockSize m) (Size m) (Generation m) (md_BuildId m) (BaseBuildId m))
           (h_Builds t) (h_Mapping t) false.

Definition SetBuild (t : Header) (buildID : uuid) (bd : BuildData) : Header :=
  mkHeader (h_Metadata t) (Some (<[buildID := bd]> (default ∅ (h_Builds t)))) (h_Mapping t)
           (IncompletePendingUpload t).

Definition default_mapping (m : Metadata) : list BuildMap :=
  let length := u64 (u64 (u64 (Size m + PageSize) - 1) / PageSize * PageSize) in
  [mkBuildMap 0 length (md_BuildId m) 0].

Definition NewHeader (metadata : Metadata) (mapping : list BuildMap) : result header_err Header :=
  if BlockSize metadata =? 0 then Err ZeroBlockSizeH
  else
    let mapping := match mapping with [] => default_mapping metadata | _ => mapping end in
    compact ← compact_result (NewMapping PageSize mapping);
    Ok (mkHeader metadata None compact false).

Definition inherit_builds (ids : list uuid) (source : gmap uuid BuildData) : gmap uuid BuildData :=
  foldl (λ acc id, match source !! id with Some bd => <[id := bd]> acc | None => acc end) ∅ ids.

Definition newDiffHeader (metadata : Metadata) (mapping : list BuildMap)
    (sourceBuilds : option (gmap uuid BuildData)) : result header_err Header :=
  h ← NewHeader metadata mapping;
  Ok (mkHeader (h_Metadata h)
        ((λ src, inherit_builds (m_builds (h_Mapping h)) src) <$> sourceBuilds)
        (h_Mapping h) true).

(** ** [header.go]: resolution of an offset *)

Definition IsNormalizeFixApplied (t : Header) : bool := NormalizeFixVersion <=? Version (h_Metadata t).

(** The checks that only warn on a header older than the normalize fix. *)
Definition check_fixed (t : Header) (bad : bool) (e : header_err) : result header_err unit :=
  if bad && IsNormalizeFixApplied t then Err e else Ok ().

Definition getMapping (t : Header) (offset : Z) : result header_err (BuildMap * Z) :=
  _ ← check_fixed t ((offset <? 0) || (i64 (Size (h_Metadata t)) <=? offset))
        (OffsetOutOfBounds offset);
  _ ← check_fixed t (negb (Z.rem offset PageSize =? 0)) (OffsetNotPageAligned offset);
  i ← from_option Panic (SearchOffset (h_Mapping t) offset);
  if i =? 0 then Err (NoSource offset)
  else
    mapping ← from_option Panic (At (h_Mapping t) (i - 1));
    let shift := i64 (offset - i64 (Offset mapping)) in
    _ ← check_fixed t (i64 (Length mapping) <=? shift) (BeyondMapping offset);
    Ok (mapping, shift).

Definition GetShiftedMapping (t : Header) (offset : Z) : result header_err BuildMap :=
  '(mapping, shift) ← getMapping t offset;
  let mappedLength := i64 (i64 (Length mapping) - shift) in
  let off := u64 (BuildStorageOffset mapping + u64 shift) in
  if mappedLength <? 0 then
    if IsNormalizeFixApplied t then Err (NegativeLength offset)
    else Ok (mkBuildMap off 0 (BuildId mapping) 0)
  else Ok (mkBuildMap off (u64 mappedLength) (BuildId mapping) 0).

Definition GetBuildFrameData (t : Header) (buildID : uuid) : option FrameTable :=
  match default ∅ (h_Builds t) !! buildID with
  | None => None
  | Some bd => match bd_FrameData bd with
               | None => Some UncompressedFrameTable
               | Some ft => Some ft
               end
  end.

Definition SelfBuildData (t : Header) : result header_err (Z * FullFrameTable) :=
  match default ∅ (h_Builds t) !! md_BuildId (h_Metadata t) with
  | None => Err NoSelfEntry
  | Some bd => Ok (bd_Size bd, FullFromTable (bd_FrameData bd))
  end.

(** ** [header.go]: [ValidateHeader] *)

Definition offset_le (a b : BuildMap) : Prop := Offset a <= Offset b.
#[global] Instance offset_le_dec : RelDecision offset_le.
Proof. intros a b. apply Z_le_dec. Defined.
#[global] Instance offset_le_total : Total offset_le.
Proof. intros a b. unfold offset_le. lia. Qed.
#[global] Instance offset_le_trans : Transitive offset_le.
Proof. intros a b c. unfold offset_le. lia. Qed.

Fixpoint check_gaps (ms : list BuildMap) (i : Z) : result header_err unit :=
  match ms with
  | m :: (n :: _) as ms =>
      let currentEnd := end64 m in
      if currentEnd <? Offset n then Err (Gap i)
      else if Offset n <? currentEnd then Err (Overlap i)
      else check_gaps ms (i + 1)
  | _ => Ok ()
  end.

Fixpoint check_entries (ms : list BuildMap) (size i : Z) : result header_err unit :=
  match ms with
  | [] => Ok ()
  | m :: ms =>
      if size <? Offset m then Err (EntryBeyondSize i)
      else if Length m =? 0 then Err (EmptyEntry i)
      else check_entries ms size (i + 1)
  end.

Definition ValidateHeader (h : option Header) : result header_err unit :=
  match h with
  | None => Err NilHeader
  | Some h =>
      let md := h_Metadata h in
      if BlockSize md =? 0 then Err ZeroBlockSizeH
      else if Size md =? 0 then Err ZeroSize
      else if Len (h_Mapping h) =? 0 then Err NoMappings
      else
      ms ← from_option Panic (Slice (h_Mapping h));
      let sorted := merge_sort offset_le ms in
      match head sorted, list.last sorted with
      | Some first, Some lastMapping =>
          if negb (Offset first =? 0) then Err NotFromZero
          else
          _ ← check_gaps sorted 0;
          let lastEnd := end64 lastMapping in
          if lastEnd <? Size md then Err NotCovered
          else if u64 (Size md + BlockSize md) <? lastEnd then Err TooFar
          else check_entries ms (Size md) 0
      | _, _ => Err Panic
      end
  end.

(** ** [metadata.go]: the diff of a snapshot *)

Record DiffMetadata (B : Type) := mkDiffMetadata { Dirty : B; Empty : B; dm_BlockSize : Z }.
Arguments mkDiffMetadata {B} _ _ _.
Arguments Dirty {B} _.
Arguments Empty {B} _.
Arguments dm_BlockSize {B} _.

Section diff.
Context `{Bitmap B}.

Definition NewDiffMetadata (blockSize : Z) (dirty empty : option B) : DiffMetadata B :=
  mkDiffMetadata (default bm_new dirty) (default bm_new empty) blockSize.

Definition toDiffMapping (d : DiffMetadata B) (buildID : uuid) : list BuildMap :=
  MergeMappings (CreateMapping buildID (Dirty d) (dm_BlockSize d))
                (CreateMapping uuid_nil (Empty d) (dm_BlockSize d)).

Definition ToDiffHeader (d : DiffMetadata B) (originalHeader : Header) (buildID : uuid)
    : result header_err Header :=
  let diffMapping := toDiffMapping d buildID in
  original ← from_option Panic (Slice (h_Mapping originalHeader));
  let m := NormalizeMappings (MergeMappings original diffMapping) in
  let metadata := NextGeneration (h_Metadata originalHeader) buildID in
  header ← newDiffHeader metadata m (h_Builds originalHeader);
  match Validate (h_Mapping header) (Size (h_Metadata header)) PageSize with
  | Ok _ => Ok header
  | Err e => if IsNormalizeFixApplied header then Err (MappingErr e) else Ok header
  end.

(** *** [DiffMetadataBuilder]: the output is an [io.Writer], of which the
    bytes written and the returned count and error are visible *)

Record DiffMetadataBuilder := mkBuilder { b_dirty : B; b_empty : B; b_blockSize : Z }.

Definition NewDiffMetadataBuilder (blockSize : Z) : DiffMetadataBuilder :=
  mkBuilder bm_new bm_new blockSize.

Context {W : Type} (write : W → bytes → W * (Z * bool)).

Definition Process (b : DiffMetadataBuilder) (block : bytes) (out : W) (offset : Z)
    : DiffMetadataBuilder * W * result header_err unit :=
  let blockIdx := BlockIdx offset (b_blockSize b) in
  if IsZero block then
    (mkBuilder (b_dirty b) (bm_add (u32 blockIdx) (b_empty b)) (b_blockSize b), out, Ok ())
  else
    let b := mkBuilder (bm_add (u32 blockIdx) (b_dirty b)) (b_empty b) (b_blockSize b) in
    let '(out, (n, failed)) := write out block in
    (b, out, if failed : bool then Err WriteFailed
             else if negb (n =? b_blockSize b) then Err ShortWrite else Ok ()).

Definition Build (b : DiffMetadataBuilder) : DiffMetadata B :=
  mkDiffMetadata (b_dirty b) (b_empty b) (b_blockSize b).
End diff.

(** ** Headers as the pipeline keeps them *)

(** The entries tile the device, at page granularity, and no byte is stored
    beyond its own offset (dirty data is packed). *)
Record header_ok (h : Header) (ms : list BuildMap) : Prop := {
  ho_wf : mapping_wf (h_Mapping h);
  ho_slice : Slice (h_Mapping h) = Some ms;
  ho_tiles : tiles 0 (Size (h_Metadata h)) ms;
  ho_aligned : aligned ms;
  ho_positive : positive ms;
  ho_packed : heads (λ off _ sto, 0 <= sto <= off) ms;
  ho_size : 0 < Size (h_Metadata h) < 2 ^ 44;
  ho_bs : 0 < BlockSize (h_Metadata h) < 2 ^ 32;
  ho_version : 3 <= Version (h_Metadata h)
}.

Section resolve.
Context (h : Header) (ms : list BuildMap) (Hok : header_ok h ms).

Lemma normalize_fix_applied : IsNormalizeFixApplied h = true.
Proof using Hok. unfold IsNormalizeFixApplied, NormalizeFixVersion. pose proof (ho_version _ _ Hok). lia. Qed.

(** The entry found covers the offset, from which the source of every byte
    up to the end of the entry follows. *)
Lemma GetShiftedMapping_paged off :
  0 <= off < Size (h_Metadata h) → paged off →
  ∃ b, GetShiftedMapping h off = Ok b ∧ 0 < Length b ∧
    off + Length b <= Size (h_Metadata h) ∧ paged (Length b) ∧
    ∀ k, 0 <= k < Length b → source ms (off + k) = Some (BuildId b, Offset b + k).
Proof using Hok.
  intros Hoff Hp. pose proof (ho_size _ _ Hok) as Hsz.
  destruct (SearchOffset_covers _ ms _ off (ho_wf _ _ Hok) (ho_slice _ _ Hok) (ho_tiles _ _ Hok) Hoff)
    as (r & e & Hr & Hr0 & He & Hc & _ & Hm & Hin).
  pose proof (proj1 (Forall_forall _ _) (ho_aligned _ _ Hok) e Hin) as (Hpo & Hpl & _).
  apply list_elem_of_lookup in Hin as [i Hi].
  destruct (tiles_lookup _ _ _ _ _ (ho_tiles _ _ Hok) Hi) as (_ & Hend & _).
  unfold GetShiftedMapping, getMapping, check_fixed.
  rewrite normalize_fix_applied, (i64_id (Size _)) by ilia.
  assert (Z.rem off PageSize = 0) as ->.
  { rewrite Z.rem_mod_nonneg by (unfold PageSize; lia). by apply Z.mod_divide. }
  destruct (Z.ltb_spec off 0), (Z.leb_spec (Size (h_Metadata h)) off); try lia. cbn.
  rewrite Hr. cbn. destruct (Z.eqb_spec r 0); [lia|]. rewrite He. cbn.
  destruct (coversP e off) as [Hcov|]; [|done]. unfold entry_ok in Hm.
  unwrap.
  destruct (Z.leb_spec (Length e) (off - Offset e)); [lia|]. cbn. unwrap.
  destruct (Z.ltb_spec (Length e - (off - Offset e)) 0); [lia|].
  eexists. split; [done|]. cbn. unwrap. split_and!; [lia|lia|auto with paged|].
  intros k Hk. rewrite (source_entry 0 ms i e).
  - unfold source_in. do 2 f_equal. lia.
  - eapply tiles_sorted, Hok.
  - done.
  - unfold covers. lia.
Qed.

Lemma GetShiftedMapping_ok off :
  0 <= off < Size (h_Metadata h) → paged off →
  ∃ b, GetShiftedMapping h off = Ok b ∧ 0 < Length b ∧
    off + Length b <= Size (h_Metadata h) ∧
    ∀ k, 0 <= k < Length b → source ms (off + k) = Some (BuildId b, Offset b + k).
Proof using Hok.
  intros Ho Hp. destruct (GetShiftedMapping_paged off Ho Hp) as (b & ? & ? & ? & _ & ?). eauto.
Qed.

Lemma GetShiftedMapping_bad off :
  ¬ (0 <= off < Size (h_Metadata h) ∧ paged off) → ∃ e, GetShiftedMapping h off = Err e.
Proof using Hok.
  intros Hbad. pose proof (ho_size _ _ Hok).
  unfold GetShiftedMapping, getMapping, check_fixed.
  rewrite normalize_fix_applied, (i64_id (Size _)), !andb_true_r by ilia.
  destruct (Z.ltb_spec off 0); [by eexists|].
  destruct (Z.leb_spec (Size (h_Metadata h)) off); [by eexists|]. cbn.
  destruct (Z.eqb_spec (Z.rem off PageSize) 0) as [E|]; [|by eexists].
  destruct Hbad. split; [lia|]. apply Z.mod_divide; [done|].
  by rewrite <- Z.rem_mod_nonneg by (unfold PageSize; lia).
Qed.
End resolve.

(** ** Packed entries *)

Definition packed (ms : list BuildMap) : Prop := heads (λ off _ sto, 0 <= sto <= off) ms.

Lemma packed_source ms x s : packed ms → source ms x = Some s → 0 <= s.2 <= x.
Proof.
  intros Hp. induction Hp as [|m ms Hm Hp IH]; [done|]. cbn.
  destruct (coversP m x); [|done]. intros [= <-]. cbn. lia.
Qed.

Lemma source_packed lo ms :
  sorted_from lo ms → positive ms → (∀ x s, source ms x = Some s → 0 <= s.2 <= x) → packed ms.
Proof.
  intros Hs Hp Hsrc. unfold packed, heads. apply Forall_lookup. intros i m Hi.
  pose proof (Forall_lookup_1 _ _ _ _ Hp Hi) as Hl. cbv beta in Hl.
  assert (Hc : covers m (Offset m) = true) by (unfold covers; lia).
  specialize (Hsrc _ _ (source_entry _ _ _ _ _ Hs Hi Hc)). cbn in Hsrc. lia.
Qed.

Lemma packed_room ms hi size :
  packed ms → tiles 0 hi ms → hi < 2 ^ 44 → size < 2 ^ 44 → storage_room size ms.
Proof.
  intros Hp Ht Hhi Hsz. unfold storage_room. apply Forall_lookup. intros i m Hi.
  pose proof (Forall_lookup_1 _ _ _ _ Hp Hi) as Hl. cbv beta in Hl.
  destruct (tiles_lookup _ _ _ _ _ Ht Hi) as (? & ? & Hm). unfold entry_ok in Hm. lia.
Qed.

(** Page-aligned, packed entries below 16 TiB fit the compact columns. *)
Lemma packed_packable ms hi :
  packed ms → tiles 0 hi ms → hi < 2 ^ 44 → aligned ms → positive ms →
  Forall (packable PageSize) ms ∧ Forall entry_u64 ms.
Proof.
  intros Hp Ht Hhi Ha Hpos. rewrite <- Forall_and. apply Forall_lookup. intros i m Hi.
  pose proof (Forall_lookup_1 _ _ _ _ Hp Hi) as Hl.
  pose proof (Forall_lookup_1 _ _ _ _ Hpos Hi) as Hm0.
  pose proof (Forall_lookup_1 _ _ _ _ Ha Hi) as (Ho & Hle & Hs). cbv beta in *.
  destruct (tiles_lookup _ _ _ _ _ Ht Hi) as (? & ? & Hm). unfold entry_ok in Hm.
  assert (Hdiv : ∀ y, 0 <= y < 2 ^ 44 → y / PageSize <= maxBlockIdx).
  { intros y Hy. unfold PageSize, maxBlockIdx.
    pose proof (Z.div_lt_upper_bound y (4 * 2 ^ 10) (2 ^ 32)). lia. }
  split.
  - unfold packable, paged in *. rewrite !Z.mod_divide by done.
    split_and!; try done; apply Hdiv; lia.
  - unfold entry_u64. unfold_int. lia.
Qed.

Lemma header_ok_entries ms hi :
  tiles 0 hi ms → hi < 2 ^ 63 → Forall entry_ok ms.
Proof.
  intros Ht Hhi. apply Forall_lookup. intros i m Hi.
  by destruct (tiles_lookup _ _ _ _ _ Ht Hi) as (_ & _ & ?).
Qed.

(** [NewHeader] on the entries the pipeline produces. *)
Lemma NewHeader_ok md ms :
  0 < BlockSize md < 2 ^ 32 → 0 < Size md < 2 ^ 44 → 3 <= Version md →
  tiles 0 (Size md) ms → packed ms → aligned ms → positive ms →
  Z.of_nat (size (table_of ms)) <= maxBuildsPerHeader →
  ∃ h, NewHeader md ms = Ok h ∧ header_ok h ms ∧ h_Metadata h = md ∧
    Validate (h_Mapping h) (Size md) PageSize = Ok ().
Proof.
  intros Hbs Hsz Hv Ht Hp Ha Hpos Htab.
  destruct (packed_packable ms _ Hp Ht ltac:(lia) Ha Hpos) as [Hpk Hu].
  assert (Hne : ms ≠ []) by (intros ->; cbn in Ht; lia).
  destruct (NewMapping_total PageSize ms ltac:(done) Hpk Htab) as [r Hr].
  destruct (NewMapping_spec PageSize ms r ltac:(done) Hu Hr) as (Hwf & _ & Hs & _).
  exists (mkHeader md None r false). split; [|split; [by split|split; [done|]]].
  - unfold NewHeader. destruct (Z.eqb_spec (BlockSize md) 0); [lia|].
    destruct ms as [|m ms]; [done|]. by rewrite Hr.
  - cbn. rewrite (Validate_Slice r ms) by (done || by left).
    apply ValidateMappings_spec; [done|lia|eapply header_ok_entries; [done|lia]|].
    split; [done|]. eapply Forall_impl; [exact Ha|]. intros m (_ & Hl & _).
    by apply Z.mod_divide.
Qed.

(** ** [ToDiffHeader] *)

(** The bitmaps address whole blocks of the device. *)
Definition blocks_inside `{Bitmap B} (b : B) (bs sz : Z) : Prop :=
  ∀ i, bm_contains b i = true → 0 <= i ∧ (i + 1) * bs <= sz.

(** Where a dirty byte is stored: its block's rank among the dirty ones. *)
Definition packed_at `{Bitmap B} (b : B) (bs x : Z) : Z :=
  countZ (bm_contains b) 0 (x / bs) * bs + x mod bs.

Lemma packed_at_le `{Bitmap B} (b : B) bs x : 0 < bs → 0 <= x → 0 <= packed_at b bs x <= x.
Proof.
  intros Hbs Hx. unfold packed_at.
  assert (0 <= x / bs) by (apply Z.div_pos; lia).
  pose proof (countZ_bounds (bm_contains b) 0 (x / bs) ltac:(lia)).
  pose proof (Z.div_mod x bs ltac:(lia)). pose proof (Z.mod_pos_bound x bs ltac:(lia)). nia.
Qed.

(** What a snapshot writes over its parent at byte [x]: empty blocks first,
    then dirty ones. *)
Definition diff_at `{Bitmap B} (d : DiffMetadata B) (buildID : uuid) (x : Z) : option (uuid * Z) :=
  let bs := dm_BlockSize d in
  if bm_contains (Empty d) (x / bs) then Some (uuid_nil, packed_at (Empty d) bs x)
  else if bm_contains (Dirty d) (x / bs) then Some (buildID, packed_at (Dirty d) bs x)
  else None.

Lemma toDiffMapping_spec `{Bitmap B} (d : DiffMetadata B) buildID :
  0 < dm_BlockSize d <= 2 ^ 30 → paged (dm_BlockSize d) →
  let m := toDiffMapping d buildID in
  sorted_from 0 m ∧ positive m ∧ aligned m ∧
  Forall (λ e, BuildId e = buildID ∨ BuildId e = uuid_nil) m ∧
  ∀ x, 0 <= x → source m x = diff_at d buildID x.
Proof.
  intros Hbs Hpg m. subst m. unfold toDiffMapping, diff_at. set (bs := dm_BlockSize d) in *.
  destruct (CreateMapping_spec buildID (Dirty d) bs Hbs) as (Hs1 & Hp1 & Hsrc1).
  destruct (CreateMapping_spec uuid_nil (Empty d) bs Hbs) as (Hs2 & Hp2 & Hsrc2).
  destruct (MergeMappings_spec _ _ 0 Hs1 Hs2) as [Hs Hsrc].
  split_and!; [done|by apply MergeMappings_positive|..].
  - apply MergeMappings_aligned; by apply CreateMapping_aligned.
  - apply (MergeMappings_builds (λ u, u = buildID ∨ u = uuid_nil));
      apply CreateMapping_builds with (S := λ u, u = buildID ∨ u = uuid_nil); auto.
  - intros x Hx. rewrite Hsrc, Hsrc1, Hsrc2 by done. unfold packed_at.
    by destruct (bm_contains (Empty d) (x / bs)).
Qed.

Section to_diff.
Context `{Bitmap B} (d : DiffMetadata B) (h : Header) (ms : list BuildMap) (buildID : uuid).
Hypothesis Hok : header_ok h ms.
Hypothesis Hbs : 0 < dm_BlockSize d <= 2 ^ 30.
Hypothesis Hpg : paged (dm_BlockSize d).
Hypothesis Hdirty : blocks_inside (Dirty d) (dm_BlockSize d) (Size (h_Metadata h)).
Hypothesis Hempty : blocks_inside (Empty d) (dm_BlockSize d) (Size (h_Metadata h)).

Lemma diff_at_inside x s :
  0 <= x → diff_at d buildID x = Some s → x < Size (h_Metadata h) ∧ 0 <= s.2 <= x.
Proof using Hbs Hdirty Hempty.
  intros Hx. unfold diff_at.
  pose proof (packed_at_le (Empty d) _ x (proj1 Hbs) Hx).
  pose proof (packed_at_le (Dirty d) _ x (proj1 Hbs) Hx).
  pose proof (Z.div_mod x (dm_BlockSize d) ltac:(lia)).
  pose proof (Z.mod_pos_bound x (dm_BlockSize d) ltac:(lia)).
  destruct (bm_contains (Empty d) _) eqn:E.
  { intros [= <-]. cbn. destruct (Hempty _ E). split; [nia|done]. }
  destruct (bm_contains (Dirty d) _) eqn:D; [|done].
  intros [= <-]. cbn. destruct (Hdirty _ D). split; [nia|done].
Qed.

(** The merged mapping, before normalisation. *)
Let merged := MergeMappings ms (toDiffMapping d buildID).

Lemma merged_spec :
  tiles 0 (Size (h_Metadata h)) merged ∧ positive merged ∧ aligned merged ∧ packed merged ∧
  ∀ x, 0 <= x → source merged x = overlay (diff_at d buildID x) (source ms x).
Proof using Hok Hbs Hpg Hdirty Hempty.
  destruct (toDiffMapping_spec d buildID Hbs Hpg) as (Hs & Hp & Ha & _ & Hsrc).
  assert (Hneg : ∀ l x, sorted_from 0 l → x < 0 → source l x = None)
    by (intros; by eapply source_below).
  pose proof (tiles_sorted _ _ _ (ho_tiles _ _ Hok)) as Hms.
  destruct (MergeMappings_spec _ _ 0 Hms Hs) as [Hsm Hm]. fold merged in Hsm, Hm.
  assert (Hpm : positive merged) by (apply MergeMappings_positive; [apply Hok|done]).
  split_and!; [|done|apply MergeMappings_aligned; [apply Hok|done]| |].
  - apply MergeMappings_tiles; [apply Hok|done|apply Hok|done|].
    intros x [s Hx]. destruct (Z.lt_ge_cases x 0) as [|H0]; [by rewrite Hneg in Hx|].
    rewrite Hsrc in Hx by done. by destruct (diff_at_inside x s H0 Hx).
  - eapply source_packed; [done|done|]. intros x s. rewrite Hm.
    destruct (Z.lt_ge_cases x 0) as [|H0]; [by rewrite !Hneg|]. rewrite Hsrc by done.
    destruct (diff_at d buildID x) as [s'|] eqn:E; cbn.
    + intros [= <-]. by destruct (diff_at_inside x s' H0 E).
    + apply packed_source, Hok.
  - intros x Hx. by rewrite Hm, Hsrc.
Qed.

Lemma merged_builds :
  table_of (NormalizeMappings merged) ⊆ table_of ms ∪ {[buildID]}.
Proof using Hok Hbs Hpg Hdirty Hempty.
  destruct (toDiffMapping_spec d buildID Hbs Hpg) as (_ & _ & _ & Hb & _).
  assert (Hall : heads (λ _ u _, u ∈ Layers ms ∨ u = buildID ∨ u = uuid_nil) merged).
  { apply (MergeMappings_builds (λ u, u ∈ Layers ms ∨ u = buildID ∨ u = uuid_nil)).
    - apply Forall_forall. intros m Hm. left. unfold Layers.
      rewrite elem_of_list_to_set, list_elem_of_fmap. eauto.
    - eapply Forall_impl; [exact Hb|]. cbv beta. tauto. }
  apply NormalizeMappings_heads in Hall. intros u. unfold table_of at 1, Layers at 1.
  rewrite elem_of_difference, elem_of_list_to_set, list_elem_of_fmap.
  intros [(m & -> & Hm) Hnn]. rewrite elem_of_singleton in Hnn.
  unfold heads in Hall. rewrite Forall_forall in Hall. specialize (Hall m Hm). cbv beta in Hall.
  unfold table_of. set_solver.
Qed.

Lemma ToDiffHeader_ok :
  buildID ≠ uuid_nil → Z.of_nat (size (table_of ms ∪ {[buildID]})) <= maxBuildsPerHeader →
  ∃ h' ms', ToDiffHeader d h buildID = Ok h' ∧ header_ok h' ms' ∧ normalized ms' ∧
    h_Metadata h' = NextGeneration (h_Metadata h) buildID ∧
    IncompletePendingUpload h' = true ∧
    ∀ x, 0 <= x < Size (h_Metadata h) →
      content ms' x = erase_nil <$> overlay (diff_at d buildID x) (source ms x).
Proof using Hok Hbs Hpg Hdirty Hempty.
  intros Hid Htab. destruct merged_spec as (Ht & Hp & Ha & Hpk & Hsrc).
  pose proof (ho_size _ _ Hok) as Hsz.
  destruct (NormalizeMappings_spec merged 0 _ Ht) as (Ht' & Hcon & _); [lia| |].
  { eapply packed_room; [done|done|lia|lia]. }
  destruct (NewHeader_ok (NextGeneration (h_Metadata h) buildID) (NormalizeMappings merged))
    as (h' & Hh' & Hok' & Hmd & Hval); try (apply Hok || done).
  { by apply NormalizeMappings_heads. } { by apply NormalizeMappings_aligned. }
  { eapply NormalizeMappings_positive; [|done|lia|done]; done. }
  { pose proof (subseteq_size _ _ merged_builds). lia. }
  eexists (mkHeader (h_Metadata h') _ (h_Mapping h') true), (NormalizeMappings merged).
  split_and!.
  - unfold ToDiffHeader. rewrite (ho_slice _ _ Hok). cbn. fold merged.
    unfold newDiffHeader. rewrite Hh'. cbn. rewrite Hmd, Hval. done.
  - destruct Hok'. by split.
  - apply NormalizeMappings_normalized.
  - done.
  - done.
  - intros x Hx. rewrite Hcon. unfold content. by rewrite Hsrc by lia.
Qed.
End to_diff.

(** ** [ValidateHeader] *)

Lemma check_gaps_tiles m ms i :
  Forall entry_ok (m :: ms) →
  check_gaps (m :: ms) i = Ok () ↔ ∃ hi, tiles (Offset m) hi (m :: ms).
Proof.
  revert m i. induction ms as [|n ms IH]; intros m i [Hm Hms]%Forall_cons.
  { cbn. split; [intros _; by eexists|done]. }
  assert (Hm' := Hm). unfold entry_ok in Hm'. specialize (IH n (i + 1) Hms).
  cbn [check_gaps]. unfold end64. unwrap.
  destruct (Z.ltb_spec (Offset m + Length m) (Offset n)).
  { split; [done|]. intros (hi & _ & _ & Ho & _). lia. }
  destruct (Z.ltb_spec (Offset n) (Offset m + Length m)).
  { split; [done|]. intros (hi & _ & _ & Ho & _). lia. }
  assert (E : Offset n = Offset m + Length m) by lia. rewrite E in IH.
  rewrite IH. split; intros [hi Ht]; exists hi.
  - split; [done|]. split; [done|]. exact Ht.
  - by destruct Ht as (_ & _ & Ht).
Qed.

Lemma check_entries_spec ms size i :
  Forall entry_ok ms →
  check_entries ms size i = Ok () ↔ Forall (λ m, Offset m <= size) ms ∧ positive ms.
Proof.
  unfold positive. revert i. induction ms as [|m ms IH]; intros i; cbn.
  { split; [|done]. intros _. split; constructor. }
  intros [Hm Hms]%Forall_cons. unfold entry_ok in Hm. rewrite !Forall_cons.
  destruct (Z.ltb_spec size (Offset m)); [split; [done|lia]|].
  destruct (Z.eqb_spec (Length m) 0); [split; [done|lia]|].
  rewrite IH by done. intuition lia.
Qed.

(** The last entry of a tiling ends where it does. *)
Lemma tiles_last lo hi ms m :
  tiles lo hi ms → list.last ms = Some m → Offset m + Length m = hi ∧ entry_ok m.
Proof.
  intros Ht Hl. rewrite last_lookup in Hl.
  pose proof (tiles_next _ _ _ _ _ Ht Hl) as Hn.
  rewrite (proj2 (lookup_ge_None _ _)) in Hn by (destruct ms; simpl in *; [done|lia]).
  split; [done|]. by eapply tiles_lookup.
Qed.

Lemma tiles_strict lo hi ms a b :
  tiles lo hi ms → positive ms → a ∈ ms → b ∈ ms → Offset a = Offset b → a = b.
Proof.
  intros Ht Hp [i Hi]%list_elem_of_lookup [j Hj]%list_elem_of_lookup E.
  pose proof (Forall_lookup_1 _ _ _ _ Hp Hi) as Ha.
  pose proof (Forall_lookup_1 _ _ _ _ Hp Hj) as Hb. cbv beta in *.
  pose proof (tiles_sorted _ _ _ Ht) as Hs.
  assert (Hij : ∀ i j a b, ms !! i = Some a → ms !! j = Some b → 0 < Length a →
    (i < j)%nat → Offset a < Offset b).
  { clear -Ht Hs. intros i j a b Hi Hj Ha Hij.
    pose proof (tiles_next _ _ _ _ _ Ht Hi) as Hn.
    destruct (ms !! S i) as [n|] eqn:En.
    - pose proof (sorted_mono _ _ _ _ _ _ Hs En Hj ltac:(lia)). lia.
    - apply lookup_ge_None in En. apply lookup_lt_Some in Hj. lia. }
  destruct (lt_eq_lt_dec i j) as [[Hlt|<-]|Hlt]; [|congruence|].
  - pose proof (Hij _ _ _ _ Hi Hj Ha Hlt). lia.
  - pose proof (Hij _ _ _ _ Hj Hi Hb Hlt). lia.
Qed.

Lemma tiles_ssorted lo hi ms : tiles lo hi ms → StronglySorted offset_le ms.
Proof.
  revert lo. induction ms as [|m ms IH]; intros lo; [constructor|].
  intros (<- & Hm & Ht). constructor; [by eapply IH|].
  apply Forall_forall. intros x [i Hi]%list_elem_of_lookup.
  destruct (tiles_lookup _ _ _ _ _ Ht Hi) as (? & _). unfold offset_le, entry_ok in *. lia.
Qed.

(** A permutation of the entries that tiles is the sorted one. *)
Lemma merge_sort_tiles hi ms ms' :
  ms' ≡ₚ ms → tiles 0 hi ms' → positive ms' → merge_sort offset_le ms = ms'.
Proof.
  intros Hperm Ht Hp. pose proof (merge_sort_Permutation offset_le ms) as Hm.
  apply (StronglySorted_unique_strong offset_le).
  - intros x y Hx Hy Hxy Hyx. unfold offset_le in *.
    apply (tiles_strict _ _ _ _ _ Ht Hp); [|done|lia]. by rewrite Hperm, <- Hm.
  - apply (StronglySorted_merge_sort offset_le).
  - by eapply tiles_ssorted.
  - by rewrite Hm, Hperm.
Qed.

(** The check accepts exactly the headers whose entries, in some order, tile
    the device from zero with at most one block of overhang. *)
Lemma ValidateHeader_spec h ms :
  mapping_wf (h_Mapping h) → Slice (h_Mapping h) = Some ms → Forall entry_ok ms →
  0 < BlockSize (h_Metadata h) → 0 < Size (h_Metadata h) →
  Size (h_Metadata h) + BlockSize (h_Metadata h) < 2 ^ 64 →
  ValidateHeader (Some h) = Ok () ↔
  ∃ ms' hi, ms' ≡ₚ ms ∧ tiles 0 hi ms' ∧ positive ms' ∧
    Forall (λ m, Offset m <= Size (h_Metadata h)) ms' ∧
    Size (h_Metadata h) <= hi <= Size (h_Metadata h) + BlockSize (h_Metadata h).
Proof.
  intros Hwf Hsl Hent Hbs Hsz Hov. unfold ValidateHeader.
  set (md := h_Metadata h) in *. pose proof (Slice_len _ _ Hwf Hsl) as Hlen.
  destruct (Z.eqb_spec (BlockSize md) 0), (Z.eqb_spec (Size md) 0); [lia..|].
  destruct (Z.eqb_spec (Len (h_Mapping h)) 0) as [E|E].
  { split; [done|]. intros (ms' & hi & Hp & Ht & _ & _ & Hhi).
    apply Permutation_length in Hp. unfold len in Hlen.
    destruct ms'; [cbn in Ht; lia|simpl in Hp; lia]. }
  rewrite Hsl. cbn [from_option mbind result_bind].
  pose proof (merge_sort_Permutation offset_le ms) as Hms.
  remember (merge_sort offset_le ms) as srt eqn:Hsrt.
  assert (Hse : Forall entry_ok srt) by (by rewrite Hms).
  destruct srt as [|m srt]; [apply Permutation_nil_l in Hms; subst ms; done|]. cbn [head].
  destruct (list.last (m :: srt)) as [lm|] eqn:Hl; [|by apply last_None in Hl].
  assert (Hlm : entry_ok lm).
  { eapply Forall_forall; [exact Hse|]. by apply last_Some_elem_of. }
  unfold entry_ok in Hlm. unfold end64. unwrap. split.
  - destruct (Z.eqb_spec (Offset m) 0) as [Ho|]; [cbn|done].
    rewrite bind_ok. intros ([] & Hg & Hrest).
    apply check_gaps_tiles in Hg as [hi Ht]; [|done]. rewrite Ho in Ht.
    destruct (tiles_last _ _ _ _ Ht Hl) as [Hhi _]. rewrite Hhi in Hrest.
    destruct (Z.ltb_spec hi (Size md)), (Z.ltb_spec (Size md + BlockSize md) hi); try done.
    apply check_entries_spec in Hrest as [Hb Hp]; [|done]. exists (m :: srt), hi.
    unfold positive in *. rewrite <- Hms in Hb, Hp. by split_and!.
  - intros (ms' & hi & Hp & Ht & Hpos & Hb & Hhi).
    rewrite (merge_sort_tiles hi ms ms') in Hsrt by done. subst ms'.
    destruct (id Ht) as (Ho & _). destruct (tiles_last _ _ _ _ Ht Hl) as [Hlast _].
    rewrite Ho, Hlast. cbn [negb Z.eqb]. rewrite bind_ok. exists ().
    split; [apply check_gaps_tiles; [done|]; rewrite Ho; by exists hi|].
    destruct (Z.ltb_spec hi (Size md)), (Z.ltb_spec (Size md + BlockSize md) hi); try lia.
    apply check_entries_spec; [done|]. unfold positive in *. by rewrite <- Hp.
Qed.

(** ** The properties of headers *)

Definition header_example : Header :=
  mkHeader (mkMetadata 4 4096 16384 1 id_b id_a) None compact_columns false.

Lemma header_example_ok : header_ok header_example compact_example.
Proof.
  split; try exact compact_columns_wf; try (apply (bool_decide_unpack _); vm_compute; exact I);
    try (cbn; lia); try (vm_compute; reflexivity);
    unfold heads; repeat constructor; simpl; lia.
Qed.

(** C14. [GetShiftedMapping] resolves every page-aligned offset of the device
    to the build and position its byte is read from, and the length it returns
    is right for every byte up to it; an offset outside the device or off the
    page grid is an error. *)
Theorem GetShiftedMapping_resolves h ms off :
  header_ok h ms →
  if bool_decide (0 <= off < Size (h_Metadata h) ∧ paged off) then
    ∃ b, GetShiftedMapping h off = Ok b ∧ 0 < Length b ∧ off + Length b <= Size (h_Metadata h) ∧
      ∀ k, 0 <= k < Length b → source ms (off + k) = Some (BuildId b, Offset b + k)
  else ∃ e, GetShiftedMapping h off = Err e.
Proof.
  intros Hok. case_bool_decide as Hin.
  - destruct Hin. by apply GetShiftedMapping_ok.
  - by eapply GetShiftedMapping_bad.
Qed.

Lemma GetShiftedMapping_resolves_witness :
  GetShiftedMapping header_example 4096 = Ok (mkBuildMap 4096 4096 id_a 0) ∧
  (∃ e, GetShiftedMapping header_example 16384 = Err e).
Proof.
  split; [vm_compute; reflexivity|].
  exact (GetShiftedMapping_resolves header_example compact_example 16384 header_example_ok).
Defined.

(** C3. A snapshot's header layers the diff over its parent: built from a
    sound parent and bitmaps inside the device, [ToDiffHeader] succeeds, its
    own validation included; the new header is sound and normalised again (so
    snapshots can be taken of snapshots) and carries the next generation; and
    every byte reads as zeros where its block is empty, from the new build at
    its packed position where its block is dirty, and as the parent read it
    everywhere else. *)
Theorem ToDiffHeader_layers `{Bitmap B} (d : DiffMetadata B) h ms buildID :
  header_ok h ms → 0 < dm_BlockSize d <= 2 ^ 30 → paged (dm_BlockSize d) →
  blocks_inside (Dirty d) (dm_BlockSize d) (Size (h_Metadata h)) →
  blocks_inside (Empty d) (dm_BlockSize d) (Size (h_Metadata h)) →
  buildID ≠ uuid_nil → Z.of_nat (size (table_of ms ∪ {[buildID]})) <= maxBuildsPerHeader →
  ∃ h' ms', ToDiffHeader d h buildID = Ok h' ∧ header_ok h' ms' ∧ normalized ms' ∧
    h_Metadata h' = NextGeneration (h_Metadata h) buildID ∧
    ∀ x, 0 <= x < Size (h_Metadata h) →
      content ms' x =
      if bm_contains (Empty d) (x / dm_BlockSize d) then Some (uuid_nil, 0)
      else if bm_contains (Dirty d) (x / dm_BlockSize d)
      then Some (buildID, packed_at (Dirty d) (dm_BlockSize d) x)
      else content ms x.
Proof.
  intros Hok Hbs Hpg Hd He Hid Htab.
  destruct (ToDiffHeader_ok d h ms buildID Hok Hbs Hpg Hd He Hid Htab)
    as (h' & ms' & ? & ? & ? & ? & _ & Hc).
  exists h', ms'. split_and!; auto. intros x Hx. rewrite Hc by done. unfold diff_at.
  destruct (bm_contains (Empty d) _); [cbn; unfold erase_nil; cbn; by rewrite bool_decide_eq_true_2|].
  destruct (bm_contains (Dirty d) _); [|done].
  cbn. unfold erase_nil; cbn. by rewrite bool_decide_eq_false_2.
Qed.

Definition diff_metadata_example : DiffMetadata (gset Z) := mkDiffMetadata {[1]} {[3]} 4096.

Lemma inside_example (i : Z) : bm_contains ({[i]} : gset Z) i = true → 0 <= i < 4 →
  blocks_inside ({[i]} : gset Z) 4096 16384.
Proof.
  intros _ Hi j Hj. cbn in Hj. unfold gs_in in Hj.
  apply andb_true_iff in Hj as [_ Hj%bool_decide_eq_true]. apply elem_of_singleton in Hj. lia.
Qed.

Lemma ToDiffHeader_layers_witness :
  (h ← ToDiffHeader diff_metadata_example header_example (replicate 16 3);
   from_option Panic (Slice (h_Mapping h))) =
    Ok [mkBuildMap 0 4096 id_a 0; mkBuildMap 4096 4096 (replicate 16 3) 0;
        mkBuildMap 8192 8192 uuid_nil 0] ∧
  ∃ h' ms', ToDiffHeader diff_metadata_example header_example (replicate 16 3) = Ok h' ∧
    header_ok h' ms'.
Proof.
  split; [vm_compute; reflexivity|].
  destruct (ToDiffHeader_layers diff_metadata_example header_example compact_example (replicate 16 3))
    as (h' & ms' & H1 & H2 & _).
  - exact header_example_ok.
  - cbn. lia.
  - apply (bool_decide_unpack _). vm_compute. exact I.
  - apply inside_example; [vm_compute; reflexivity|lia].
  - apply inside_example; [vm_compute; reflexivity|lia].
  - discriminate.
  - vm_compute. discriminate.
  - exists h', ms'. split; [exact H1|exact H2].
Defined.

(** C22. [ValidateHeader] accepts exactly the headers whose entries, in some
    order, tile the device from zero without a gap, an overlap or an empty
    entry, begin nowhere beyond its size, and end at or after the size and at
    most one block beyond it. *)
Theorem ValidateHeader_exact h ms :
  mapping_wf (h_Mapping h) → Slice (h_Mapping h) = Some ms → Forall entry_ok ms →
  0 < BlockSize (h_Metadata h) → 0 < Size (h_Metadata h) →
  Size (h_Metadata h) + BlockSize (h_Metadata h) < 2 ^ 64 →
  ValidateHeader (Some h) = Ok () ↔
  ∃ ms' hi, ms' ≡ₚ ms ∧ tiles 0 hi ms' ∧ positive ms' ∧
    Forall (λ m, Offset m <= Size (h_Metadata h)) ms' ∧
    Size (h_Metadata h) <= hi <= Size (h_Metadata h) + BlockSize (h_Metadata h).
Proof. apply ValidateHeader_spec. Qed.

Lemma ValidateHeader_exact_witness :
  ValidateHeader (Some header_example) = Ok () ∧ tiles 0 16384 compact_example.
Proof.
  assert (Ht : tiles 0 16384 compact_example) by (apply (bool_decide_unpack _); vm_compute; exact I).
  split; [|exact Ht].
  apply (ValidateHeader_exact header_example compact_example).
  - exact compact_columns_wf.
  - vm_compute. reflexivity.
  - apply (bool_decide_unpack _). vm_compute. exact I.
  - cbn. lia.
  - cbn. lia.
  - cbn. lia.
  - exists compact_example, 16384. split; [reflexivity|]. split; [exact Ht|].
    split; [apply (ho_positive _ _ header_example_ok)|].
    split; [repeat constructor; cbn; lia|cbn; lia].
Defined.
