(* ===== verification/Export.v ===== *)
(** * Export: splitting a root filesystem image into its diff

    Models [exportToDiff] of [sandbox/rootfs/direct.go]: the image file is
    read block by block, zero blocks are recorded as empty, the others as
    dirty and appended to the output.  The theorem closes the loop with the
    mapping of the header: the image is restored from the output at the
    position [CreateMapping] gives a dirty byte. *)

From S2P Require Import Prelude Bytes Bitmap Blocks Mapping Compact FrameTable Header.

Inductive export_err : Set :=
| ReadEOF (off : Z)
| ProcessFailed (off : Z)
| Diverged.

(** [f.ReadAt(block, i)]: a short read comes with [io.EOF]. *)
Definition ReadBlock (f : bytes) (i bs : Z) : result export_err bytes :=
  let block := slice i (i + bs) f in
  if len block <? bs then Err (ReadEOF i) else Ok block.

Section export.
Context `{Bitmap B} {W : Type} (write : W → bytes → W * (Z * bool)).
Context (f : bytes) (size : Z).

Fixpoint export_loop (fuel : nat) (i : Z) (b : DiffMetadataBuilder (B:=B)) (out : W)
    : DiffMetadataBuilder * W * result export_err unit :=
  match fuel with
  | O => (b, out, Err Diverged)
  | S fuel =>
      if i <? i64 size then
        match ReadBlock f i (b_blockSize b) with
        | Err e => (b, out, Err e)
        | Ok block =>
            match Process write b block out i with
            | (b, out, Ok _) => export_loop fuel (i64 (i + b_blockSize b)) b out
            | (b, out, Err _) => (b, out, Err (ProcessFailed i))
            end
        end
      else (b, out, Ok ())
  end.

(** The diff and the output written so far; the diff only without an error. *)
Definition exportToDiff (fuel : nat) (blockSize : Z) (out : W)
    : result export_err (DiffMetadata B) * W :=
  match export_loop fuel 0 (NewDiffMetadataBuilder blockSize) out with
  | (b, out, Ok _) => (Ok (Build b), out)
  | (_, out, Err e) => (Err e, out)
  end.
End export.

(** A writer that takes every byte: the output file. *)
Definition append_write (w b : bytes) : bytes * (Z * bool) := (w ++ b, (len b, false)).

(** ** The export loop *)

Lemma at_slice {A} (l : list A) i j k :
  0 <= i → 0 <= k → k < j - i → at_ (slice i j l) k = at_ l (i + k).
Proof.
  intros Hi Hk Hj. unfold at_, slice.
  destruct (Z.ltb_spec k 0), (Z.ltb_spec (i + k) 0); try lia.
  rewrite lookup_take_lt, lookup_drop by lia. f_equal. lia.
Qed.

Lemma len_slice {A} (l : list A) i j :
  0 <= i → i <= j → j <= len l → len (slice i j l) = j - i.
Proof.
  unfold len, slice. intros. rewrite length_take, length_drop. lia.
Qed.

Lemma at_app {A} (l k : list A) i :
  0 <= i → at_ (l ++ k) i = if i <? len l then at_ l i else at_ k (i - len l).
Proof.
  intros Hi. unfold at_, len. destruct (Z.ltb_spec i 0); [lia|].
  destruct (Z.ltb_spec i (Z.of_nat (length l))).
  - apply lookup_app_l. lia.
  - destruct (Z.ltb_spec (i - Z.of_nat (length l)) 0); [lia|].
    rewrite lookup_app_r by lia. f_equal. lia.
Qed.

Section proof.
Context `{Bitmap B} (f : bytes) (bs : Z).
Hypothesis Hbs : 0 < bs.

Definition block_at (k : Z) : bytes := slice (k * bs) (k * bs + bs) f.

(** After [n] blocks: the bitmaps record which of them are zero, and every
    byte of a dirty block is in the output at its packed position. *)
Record exported (n : Z) (b : DiffMetadataBuilder (B:=B)) (out : bytes) : Prop := {
  ex_bs : b_blockSize b = bs;
  ex_dirty i : bm_contains (b_dirty b) i = (0 <=? i) && (i <? n) && negb (IsZero (block_at i));
  ex_empty i : bm_contains (b_empty b) i = (0 <=? i) && (i <? n) && IsZero (block_at i);
  ex_len : len out = countZ (bm_contains (b_dirty b)) 0 n * bs;
  ex_out x : 0 <= x < n * bs →
    at_ f x = if bm_contains (b_dirty b) (x / bs) then at_ out (packed_at (b_dirty b) bs x)
              else Some 0
}.

Lemma exported_init : exported 0 (NewDiffMetadataBuilder bs) [].
Proof using Hbs.
  split; cbn; auto; intros; rewrite ?bm_contains_new; try lia.
Qed.

Lemma byte_of_block n x :
  0 <= n → n * bs <= x < n * bs + bs → x / bs = n ∧ at_ f x = at_ (block_at n) (x mod bs) ∧
  0 <= x mod bs < bs.
Proof using Hbs.
  intros Hn Hx. assert (x / bs = n) by (symmetry; apply (Z.div_unique _ _ _ (x - n * bs)); lia).
  pose proof (Z.div_mod x bs ltac:(lia)). pose proof (Z.mod_pos_bound x bs Hbs).
  split_and!; try lia. unfold block_at. rewrite at_slice by nia. f_equal. nia.
Qed.

(** One block more, in the two cases of [Process]. *)
Section step.
Context (n : Z) (b : DiffMetadataBuilder (B:=B)) (out : bytes).
Hypothesis Hn : 0 <= n < 2 ^ 32.
Hypothesis Hlen : n * bs + bs <= len f.
Hypothesis Hex : exported n b out.

Lemma len_block_at : len (block_at n) = bs.
Proof using Hbs Hn Hlen. unfold block_at. rewrite len_slice; nia. Qed.

Lemma exported_empty :
  IsZero (block_at n) = true →
  exported (n + 1) (mkBuilder (b_dirty b) (bm_add n (b_empty b)) bs) out.
Proof using Hbs Hn Hlen Hex.
  intros Hz. pose proof len_block_at. split; cbn; [done|..].
  - intros i. rewrite (ex_dirty _ _ _ Hex). destruct (Z.eqb_spec i n) as [->|].
    + rewrite Hz. cbn. lia.
    + destruct (IsZero (block_at i)); cbn; lia.
  - intros i. rewrite bm_contains_add by ilia. rewrite (ex_empty _ _ _ Hex).
    destruct (Z.eqb_spec n i) as [<-|]; [rewrite Hz; cbn; lia|].
    destruct (IsZero (block_at i)); lia.
  - rewrite (ex_len _ _ _ Hex). rewrite (countZ_split _ 0 n (n + 1)) by lia.
    rewrite (countZ_none _ n (n + 1)); [lia|]. intros x Hx. assert (x = n) as -> by lia.
    rewrite (ex_dirty _ _ _ Hex). lia.
  - intros x Hx. destruct (Z.lt_ge_cases x (n * bs)); [apply (ex_out _ _ _ Hex); lia|].
    destruct (byte_of_block n x) as (-> & -> & Hm); [lia..|].
    rewrite (ex_dirty _ _ _ Hex). destruct (Z.ltb_spec n n); [lia|].
    rewrite andb_false_r. cbn. apply IsZero_spec in Hz.
    destruct (at_is_Some (block_at n) (x mod bs)) as [y Hy]; [lia|].
    rewrite Hy. f_equal. unfold at_ in Hy. destruct (_ <? 0); [done|].
    exact (Forall_lookup_1 _ _ _ _ Hz Hy).
Qed.

(** The new dirty block does not move the ones before it. *)
Lemma add_dirty_count m :
  m <= n → countZ (bm_contains (bm_add n (b_dirty b))) 0 m = countZ (bm_contains (b_dirty b)) 0 m.
Proof using Hn.
  intros Hm. apply countZ_ext. intros x Hx. rewrite bm_contains_add by ilia.
  destruct (Z.eqb_spec n x); [lia|done].
Qed.

Lemma dirty_position x :
  0 <= x < n * bs → bm_contains (b_dirty b) (x / bs) = true →
  0 <= packed_at (b_dirty b) bs x < len out.
Proof using Hbs Hex.
  intros Hx Hc. pose proof (packed_at_le (b_dirty b) bs x Hbs ltac:(lia)).
  split; [lia|]. rewrite (ex_len _ _ _ Hex). unfold packed_at.
  assert (x / bs < n) by (apply Z.div_lt_upper_bound; lia).
  assert (0 <= x / bs) by (apply Z.div_pos; lia).
  pose proof (Z.mod_pos_bound x bs Hbs).
  rewrite (countZ_split _ 0 (x / bs) n), (countZ_step _ (x / bs) n), Hc by lia.
  pose proof (countZ_bounds (bm_contains (b_dirty b)) (x / bs + 1) n ltac:(lia)). nia.
Qed.

Lemma exported_dirty :
  IsZero (block_at n) = false →
  exported (n + 1) (mkBuilder (bm_add n (b_dirty b)) (b_empty b) bs) (out ++ block_at n).
Proof using Hbs Hn Hlen Hex.
  intros Hz. pose proof len_block_at as Hl. split; cbn; [done|..].
  - intros i. rewrite bm_contains_add, (ex_dirty _ _ _ Hex) by ilia.
    destruct (Z.eqb_spec n i) as [<-|]; [rewrite Hz; cbn; lia|].
    destruct (IsZero (block_at i)); lia.
  - intros i. rewrite (ex_empty _ _ _ Hex). destruct (Z.eqb_spec i n) as [->|].
    + rewrite Hz. lia.
    + destruct (IsZero (block_at i)); lia.
  - rewrite len_app, Hl, (ex_len _ _ _ Hex), (countZ_split _ 0 n (n + 1)), add_dirty_count by lia.
    rewrite (countZ_step _ n), (countZ_empty _ (n + 1)), bm_contains_add, Z.eqb_refl by (lia || ilia).
    cbn. lia.
  - intros x Hx. rewrite bm_contains_add by ilia. unfold packed_at.
    destruct (Z.lt_ge_cases x (n * bs)) as [Hlt|Hge].
    + assert (x / bs < n) by (apply Z.div_lt_upper_bound; lia).
      destruct (Z.eqb_spec n (x / bs)); [lia|]. cbn. rewrite add_dirty_count by lia.
      rewrite (ex_out _ _ _ Hex) by lia.
      destruct (bm_contains (b_dirty b) (x / bs)) eqn:Hc; [|done].
      fold (packed_at (b_dirty b) bs x). pose proof (dirty_position x ltac:(lia) Hc).
      rewrite at_app by lia. destruct (Z.ltb_spec (packed_at (b_dirty b) bs x) (len out)); [done|lia].
    + destruct (byte_of_block n x) as (-> & -> & Hm); [lia..|]. rewrite Z.eqb_refl. cbn.
      rewrite add_dirty_count, <- (ex_len _ _ _ Hex) by lia. pose proof (len_nonneg out).
      rewrite at_app by lia. destruct (Z.ltb_spec (len out + x mod bs) (len out)); [lia|].
      f_equal. lia.
Qed.

Lemma Process_exported :
  is_i64 (n * bs) →
  ∃ b' out', Process append_write b (block_at n) out (n * bs) = (b', out', Ok ()) ∧
    exported (n + 1) b' out'.
Proof using Hbs Hn Hlen Hex.
  intros Hi. pose proof (ex_bs _ _ _ Hex) as Hb.
  assert (Hu : u32 (BlockIdx (n * bs) bs) = n).
  { rewrite BlockIdx_div, Z.div_mul by nia. apply u32_id. ilia. }
  unfold Process. rewrite Hb, Hu. destruct (IsZero (block_at n)) eqn:Hz.
  - eexists _, _. split; [done|]. by apply exported_empty.
  - cbn. rewrite len_block_at. destruct (Z.eqb_spec bs bs); [|done]. cbn.
    eexists _, _. split; [done|]. by apply exported_dirty.
Qed.
End step.

(** The loop from block [n] on, with fuel for the blocks left. *)
Lemma export_loop_ok k n b out nblocks :
  len f = nblocks * bs → nblocks <= 2 ^ 32 → nblocks * bs + bs < 2 ^ 63 →
  0 <= n <= nblocks → nblocks - n < Z.of_nat k → exported n b out →
  ∃ b' out', export_loop append_write f (nblocks * bs) k (n * bs) b out = (b', out', Ok ()) ∧
    exported nblocks b' out'.
Proof using Hbs.
  intros Hf Hnb Hov. revert n b out. induction k as [|k IH]; intros n b out Hn Hk Hex; [lia|].
  cbn [export_loop]. rewrite (i64_id (nblocks * bs)) by (unfold_int; nia).
  destruct (Z.ltb_spec (n * bs) (nblocks * bs)).
  - rewrite (ex_bs _ _ _ Hex). unfold ReadBlock. fold (block_at n).
    assert (Hn' : n < nblocks) by (apply (Z.mul_lt_mono_pos_r bs); lia).
    assert (Hlen : n * bs + bs <= len f).
    { rewrite Hf. pose proof (Z.mul_le_mono_nonneg_r (n + 1) nblocks bs). lia. }
    rewrite len_block_at by lia. destruct (Z.ltb_spec bs bs); [lia|].
    destruct (Process_exported n b out ltac:(lia) Hlen Hex) as (b' & out' & -> & Hex');
      [unfold_int; nia|].
    rewrite (ex_bs _ _ _ Hex'). rewrite i64_id by (unfold_int; nia).
    replace (n * bs + bs) with ((n + 1) * bs) by lia. apply IH; [lia|lia|done].
  - assert (n = nblocks) as -> by (destruct (Z.eq_dec n nblocks); [done|nia]). eauto.
Qed.

(** The whole image. *)
Lemma exportToDiff_ok nblocks fuel :
  len f = nblocks * bs → 0 <= nblocks <= 2 ^ 32 → nblocks * bs + bs < 2 ^ 63 →
  nblocks < Z.of_nat fuel →
  ∃ d out, exportToDiff append_write f (nblocks * bs) fuel bs [] = (Ok d, out) ∧
    exported nblocks (mkBuilder (Dirty d) (Empty d) (dm_BlockSize d)) out.
Proof using Hbs.
  intros Hf Hnb Hov Hk.
  destruct (export_loop_ok fuel 0 (NewDiffMetadataBuilder bs) [] nblocks)
    as (b' & out' & Hl & Hex); [done|lia|lia|lia|lia|apply exported_init|].
  exists (Build b'), out'. unfold exportToDiff. change 0 with (0 * bs) at 1.
  rewrite Hl. split; [done|]. by destruct b'.
Qed.
End proof.

(** ** The property of the export *)

(** C16. Exporting an image and building its mapping restores the image: for a
    file of whole blocks the export reads every block and succeeds, no block
    is both dirty and empty, and each byte of the image is zero where its
    block is empty and otherwise the byte of the output file at the packed
    position, which is the storage position [CreateMapping] gives it. *)
Theorem exportToDiff_restores `{Bitmap B} (f : bytes) bs nblocks fuel id :
  0 < bs <= 2 ^ 30 → len f = nblocks * bs → 0 <= nblocks <= 2 ^ 32 →
  nblocks < Z.of_nat fuel →
  ∃ (d : DiffMetadata B) out,
    exportToDiff append_write f (nblocks * bs) fuel bs [] = (Ok d, out) ∧
    ∀ x, 0 <= x < nblocks * bs →
      bm_contains (Empty d) (x / bs) = negb (bm_contains (Dirty d) (x / bs)) ∧
      at_ f x = match source (CreateMapping id (Dirty d) bs) x with
                | Some (_, pos) => at_ out pos
                | None => Some 0
                end.
Proof.
  intros Hbs Hf Hnb Hk.
  destruct (exportToDiff_ok f bs (proj1 Hbs) nblocks fuel Hf Hnb ltac:(nia) Hk) as (d & out & Hd & Hex).
  exists d, out. split; [exact Hd|]. intros x Hx.
  assert (Hb : 0 <= x / bs < nblocks)
    by (split; [apply Z.div_pos|apply Z.div_lt_upper_bound]; lia).
  split.
  - pose proof (ex_empty _ _ _ _ _ Hex (x / bs)) as He.
    pose proof (ex_dirty _ _ _ _ _ Hex (x / bs)) as Hd'. cbn in He, Hd'. rewrite He, Hd'.
    destruct (Z.leb_spec 0 (x / bs)), (Z.ltb_spec (x / bs) nblocks); try lia.
    by destruct (IsZero _).
  - rewrite (ex_out _ _ _ _ _ Hex) by done. cbn.
    destruct (CreateMapping_spec id (Dirty d) bs Hbs) as (_ & _ & ->); [|lia].
    by destruct (bm_contains (Dirty d) (x / bs)).
Qed.

Definition image_example : bytes := [0; 0; 0; 0; 1; 2; 3; 4; 0; 0; 0; 0; 0; 9; 0; 0].

Lemma exportToDiff_restores_witness :
  (exportToDiff append_write image_example 16 5 4 []).2 = [1; 2; 3; 4; 0; 9; 0; 0] ∧
  ∃ (d : DiffMetadata (gset Z)) out, exportToDiff append_write image_example (4 * 4) 5 4 [] = (Ok d, out).
Proof.
  split; [vm_compute; reflexivity|].
  destruct (exportToDiff_restores (B:=gset Z) image_example 4 4 5 id_a) as (d & out & H & _).
  - lia.
  - vm_compute. reflexivity.
  - lia.
  - lia.
  - exists d, out. exact H.
Defined.
