(* ===== verification/Serial.v ===== *)
(** * Serial: the stored form of headers

    Models [header/serialization.go], [serialization_v3.go] and
    [serialization_v4.go]: the metadata, the fixed-width V3 and V4 mappings,
    the builds section with its trimmed frame tables, and the framing of the
    compressed block.  LZ4 is a third-party stream codec: the class [LZ4] is
    its interface, with the documented law that reading back what was written
    yields the input. *)

From S2P Require Import Prelude Bytes Bitmap Blocks Mapping Compact FrameTable Header.

Inductive serial_err : Type :=
| Wire (e : io_err)
| FrameErr (e : frame_err)
| HeaderErr (e : header_err)
| ColumnErr (e : compact_err)
| TooShort (n : Z)
| UnsupportedVersion (v : Z)
| SizeAboveCap (n : Z)
| LZ4Error
| SizeMismatch
| BuildCountTooLarge (n : Z)
| MapCountTooLarge (n : Z)
| SizeBlocksTooLarge (n : Z)
| OffsetTooLarge (i : Z)
| LengthTooLarge (i : Z)
| StorageOutOfRange (i : Z)
| IndexOutOfTable (i : Z)
| ZeroLengthEntry (i : Z)
| OverlappingEntry (i : Z)
| EndBeyondSize (i : Z)
| Incomplete
| NilHeaderS
| SerialPanic.

Definition wire {A} (r : result io_err A) : result serial_err A :=
  match r with Ok a => Ok a | Err e => Err (Wire e) end.
Definition frame_res {A} (r : result frame_err A) : result serial_err A :=
  match r with Ok a => Ok a | Err e => Err (FrameErr e) end.
Definition header_res {A} (r : result header_err A) : result serial_err A :=
  match r with Ok a => Ok a | Err e => Err (HeaderErr e) end.
Definition column_res {A} (r : result compact_err A) : result serial_err A :=
  match r with Ok a => Ok a | Err e => Err (ColumnErr e) end.

(** ** The codec *)

(** [lz4_read] is what a reader over the bytes yields before it stops, and
    whether it stops with [io.EOF] (true) or another error. *)
Class LZ4 := {
  lz4_write : bytes → option bytes;
  lz4_read : bytes → bytes * bool;
  lz4_read_write d c : lz4_write d = Some c → lz4_read c = (d, true)
}.

Definition compressLZ4 `{LZ4} (data : bytes) : result serial_err bytes :=
  from_option LZ4Error (lz4_write data).

(** [io.CopyN(buf, r, expected+1)] with [io.EOF] tolerated. *)
Definition decompressLZ4 `{LZ4} (src : bytes) (expected : Z) : result serial_err bytes :=
  let '(out, eof) := lz4_read src in
  if expected + 1 <=? len out then Ok (take (Z.to_nat (expected + 1)) out)
  else if eof : bool then Ok out else Err LZ4Error.

(** ** Fixed-size structs *)

(** [binary.Read] of a struct of [n] bytes: one [io.ReadFull], then decoding. *)
Definition read_struct {A} (n : nat) (dec : reader A) : reader A := λ r,
  '(b, r) ← read_full n r; '(x, _) ← dec b; Ok (x, r).

Definition put_metadata (m : Metadata) : bytes :=
  put_u64 (Version m) ++ put_u64 (BlockSize m) ++ put_u64 (Size m) ++ put_u64 (Generation m) ++
  md_BuildId m ++ BaseBuildId m.

Definition get_metadata : reader Metadata := λ r,
  '(v, r) ← read_u64 r; '(b, r) ← read_u64 r; '(s, r) ← read_u64 r; '(g, r) ← read_u64 r;
  '(i, r) ← read_full 16 r; '(j, r) ← read_full 16 r;
  Ok (mkMetadata v b s g i j, r).

Definition metadataSize : nat := 64.

Definition deserializeMetadata (data : bytes) : result serial_err Metadata :=
  '(m, _) ← wire (read_struct metadataSize get_metadata data); Ok m.

(** [v3SerializableBuildMap] and [v4SerializableBuildMap] are the same 40 bytes. *)
Definition put_map (m : BuildMap) : bytes :=
  put_u64 (Offset m) ++ put_u64 (Length m) ++ BuildId m ++ put_u64 (BuildStorageOffset m).

Definition get_map : reader BuildMap := λ r,
  '(o, r) ← read_u64 r; '(l, r) ← read_u64 r; '(i, r) ← read_full 16 r; '(s, r) ← read_u64 r;
  Ok (mkBuildMap o l i s, r).

Definition v4MappingSize : nat := 40.
Definition v4BuildInfoSize : nat := 56.
Definition frameTableHeaderSize : nat := 8.

Definition read_map : reader BuildMap := read_struct v4MappingSize get_map.

(** ** V3 *)

Definition serializeV3 (metadata : Metadata) (mappings : Compact.Mapping) : result serial_err bytes :=
  ms ← from_option SerialPanic (Slice mappings);
  Ok (put_metadata metadata ++ concat (put_map <$> ms)).

(** Entries until [io.EOF]; a partial entry is an error.  Each entry takes 40
    bytes, so the length of the input is fuel enough. *)
Fixpoint v3_loop (fuel : nat) (r : bytes) : result serial_err (list BuildMap) :=
  match fuel with
  | O => Err SerialPanic
  | S fuel =>
      match read_map r with
      | Err EOF => Ok []
      | Err e => Err (Wire e)
      | Ok (m, r) => ms ← v3_loop fuel r; Ok (m :: ms)
      end
  end.

Definition deserializeV3 (metadata : Metadata) (blockData : bytes) : result serial_err Header :=
  ms ← v3_loop (S (length blockData)) blockData;
  header_res (NewHeader metadata ms).

(** ** The builds section of V4 and V5 *)

Fixpoint lex_le (a b : bytes) : bool :=
  match a, b with
  | [], _ => true
  | _, [] => false
  | x :: a, y :: b => (x <? y) || ((x =? y) && lex_le a b)
  end.
Definition uuid_le (a b : uuid) : Prop := lex_le a b = true.
#[global] Instance uuid_le_dec : RelDecision uuid_le.
Proof. intros a b. unfold uuid_le. apply _. Defined.

Definition add_range (ranges : gmap uuid (list Range)) (m : BuildMap) : gmap uuid (list Range) :=
  let r := mkRange (i64 (BuildStorageOffset m)) (i64 (Length m)) in
  <[BuildId m := default [] (ranges !! BuildId m) ++ [r]]> ranges.

Definition extractRelevantRanges (ms : list BuildMap) : gmap uuid (list Range) :=
  foldl add_range ∅ ms.

Definition put_build (ranges : gmap uuid (list Range)) (e : uuid * BuildData) : bytes :=
  let '(id, bd) := e in
  id ++ put_u64 (bd_Size bd) ++ bd_Checksum bd ++
  Serialize (TrimToRanges (bd_FrameData bd) (default [] (ranges !! id))).

Definition sorted_builds (builds : gmap uuid BuildData) : list (uuid * BuildData) :=
  omap (λ id, pair id <$> builds !! id) (merge_sort uuid_le (fst <$> map_to_list builds)).

Definition writeV4BuildsSection (builds : option (gmap uuid BuildData)) (mapping : Compact.Mapping)
    : result serial_err bytes :=
  ms ← from_option SerialPanic (Slice mapping);
  let bs := sorted_builds (default ∅ builds) in
  Ok (put_u32 (len bs) ++ concat (put_build (extractRelevantRanges ms) <$> bs)).

Definition get_build_info : reader (uuid * Z * bytes) := λ r,
  '(id, r) ← read_full 16 r; '(s, r) ← read_i64 r; '(c, r) ← read_full 32 r;
  Ok ((id, s, c), r).

Fixpoint read_builds (n : nat) (builds : gmap uuid BuildData) (r : bytes)
    : result serial_err (gmap uuid BuildData * bytes) :=
  match n with
  | O => Ok (builds, r)
  | S n =>
      '(id, s, c, r) ← wire (read_struct v4BuildInfoSize get_build_info r);
      '(ft, r) ← frame_res (DeserializeFrameTable r);
      read_builds n (<[id := mkBuildData s c ft]> builds) r
  end.

Definition readV4BuildsSection (r : bytes)
    : result serial_err (option (gmap uuid BuildData) * bytes) :=
  '(numBuilds, r) ← wire (read_u32 r);
  if numBuilds =? 0 then Ok (None, r)
  else if len r / Z.of_nat (v4BuildInfoSize + frameTableHeaderSize) <? numBuilds
  then Err (BuildCountTooLarge numBuilds)
  else '(builds, r) ← read_builds (Z.to_nat numBuilds) ∅ r; Ok (Some builds, r).

(** ** V4 *)

Definition v4FlagsLen : nat := 1.
Definition v4SizePrefixLen : nat := 4.
Definition v4MaxUncompressedHeaderSize : Z := 256 * 2 ^ 20.
Definition v4FlagIncomplete : Z := 1.

(** [metadata][flags][uint32 size][LZ4 block], shared by V4 and V5. *)
Definition assemble `{LZ4} (metadata : Metadata) (incomplete : bool) (block : bytes)
    : result serial_err (bytes * Z) :=
  compressed ← compressLZ4 block;
  let flags := if incomplete then v4FlagIncomplete else 0 in
  Ok (put_metadata metadata ++ [flags] ++ put_u32 (len block) ++ compressed, len block).

Definition serializeV4 `{LZ4} (metadata : Metadata) (builds : option (gmap uuid BuildData))
    (mappings : Compact.Mapping) (incomplete : bool) : result serial_err (bytes * Z) :=
  section ← writeV4BuildsSection builds mappings;
  ms ← from_option SerialPanic (Slice mappings);
  assemble metadata incomplete
    (section ++ put_u32 (u32 (Len mappings)) ++ concat (put_map <$> ms)).

(** The flags and the decompressed block, checked against cap and prefix. *)
Definition open_block `{LZ4} (blockData : bytes) : result serial_err (Z * bytes) :=
  if len blockData <? Z.of_nat (v4FlagsLen + v4SizePrefixLen) then Err (TooShort (len blockData))
  else
    let flags := nth 0 blockData 0 in
    let size := le_dec (take 4 (drop v4FlagsLen blockData)) in
    if v4MaxUncompressedHeaderSize <? size then Err (SizeAboveCap size)
    else
      decompressed ← decompressLZ4 (drop (v4FlagsLen + v4SizePrefixLen) blockData) size;
      if negb (len decompressed =? size) then Err SizeMismatch
      else Ok (flags, decompressed).

Fixpoint read_maps (n : nat) (r : bytes) : result serial_err (list BuildMap * bytes) :=
  match n with
  | O => Ok ([], r)
  | S n => '(m, r) ← wire (read_map r); '(ms, r) ← read_maps n r; Ok (m :: ms, r)
  end.

Definition deserializeV4 `{LZ4} (metadata : Metadata) (blockData : bytes)
    : result serial_err Header :=
  '(flags, r) ← open_block blockData;
  '(builds, r) ← readV4BuildsSection r;
  '(numMappings, r) ← wire (read_u32 r);
  if len r / Z.of_nat v4MappingSize <? numMappings then Err (MapCountTooLarge numMappings)
  else
    '(ms, _) ← read_maps (Z.to_nat numMappings) r;
    h ← header_res (NewHeader metadata ms);
    Ok (mkHeader (h_Metadata h) builds (h_Mapping h)
          (negb (Z.land flags v4FlagIncomplete =? 0))).

(** ** Round trips of the parts *)

Lemma read_struct_app {A} n (dec : reader A) b x r k :
  length b = n → n ≠ O → dec b = Ok (x, k) → read_struct n dec (b ++ r) = Ok (x, r).
Proof.
  intros Hb Hn Hd. unfold read_struct. rewrite read_full_app by done. cbn. by rewrite Hd.
Qed.

Lemma read_uuid_app u r : length u = 16%nat → read_full 16 (u ++ r) = Ok (u, r).
Proof. intros. by apply read_full_app. Qed.

Definition uuid_len (u : uuid) : Prop := length u = 16%nat.
#[global] Instance uuid_len_dec u : Decision (uuid_len u).
Proof. unfold uuid_len. apply _. Defined.

Definition metadata_ok (m : Metadata) : Prop :=
  is_u64 (Version m) ∧ is_u64 (BlockSize m) ∧ is_u64 (Size m) ∧ is_u64 (Generation m) ∧
  uuid_len (md_BuildId m) ∧ uuid_len (BaseBuildId m).
#[global] Instance metadata_ok_dec m : Decision (metadata_ok m).
Proof. unfold metadata_ok. apply _. Defined.

Lemma length_put_u64 x : length (put_u64 x) = 8%nat.
Proof. apply length_le_enc. Qed.
Lemma length_put_u32 x : length (put_u32 x) = 4%nat.
Proof. apply length_le_enc. Qed.

Lemma length_put_metadata m : metadata_ok m → length (put_metadata m) = metadataSize.
Proof.
  intros (_ & _ & _ & _ & H1 & H2). unfold put_metadata.
  rewrite !length_app, !length_put_u64, H1, H2. done.
Qed.

Lemma get_metadata_put m r : metadata_ok m → get_metadata (put_metadata m ++ r) = Ok (m, r).
Proof.
  intros (? & ? & ? & ? & ? & ?). unfold get_metadata, put_metadata. rewrite <- !app_assoc.
  rewrite read_u64_put by done. cbn. rewrite read_u64_put by done. cbn.
  rewrite read_u64_put by done. cbn. rewrite read_u64_put by done. cbn.
  rewrite read_uuid_app by done. cbn. rewrite read_uuid_app by done. cbn. by destruct m.
Qed.

Lemma deserializeMetadata_put m r :
  metadata_ok m → deserializeMetadata (put_metadata m ++ r) = Ok m.
Proof.
  intros Hm. unfold deserializeMetadata.
  rewrite (read_struct_app _ _ _ m _ []); [done|by apply length_put_metadata|done|].
  rewrite <- (app_nil_r (put_metadata m)). by apply get_metadata_put.
Qed.

(** Entries that fit their fixed-width record. *)
Definition wire_map (m : BuildMap) : Prop := entry_u64 m ∧ uuid_len (BuildId m).
#[global] Instance wire_map_dec m : Decision (wire_map m).
Proof. unfold wire_map. apply _. Defined.

Lemma length_put_map m : wire_map m → length (put_map m) = v4MappingSize.
Proof. intros [_ Hid]. unfold put_map. by rewrite !length_app, !length_put_u64, Hid. Qed.

Lemma read_map_put m r : wire_map m → read_map (put_map m ++ r) = Ok (m, r).
Proof.
  intros Hm. apply (read_struct_app _ _ _ _ _ []); [by apply length_put_map|done|].
  destruct Hm as [(? & ? & ?) ?]. unfold get_map, put_map.
  rewrite read_u64_put by done. cbn. rewrite read_u64_put by done. cbn.
  rewrite read_uuid_app by done. cbn. rewrite <- (app_nil_r (put_u64 _)).
  rewrite read_u64_put by done. cbn. by destruct m.
Qed.

Lemma length_put_maps ms :
  Forall wire_map ms → length (concat (put_map <$> ms)) = (v4MappingSize * length ms)%nat.
Proof.
  induction 1 as [|m ms Hm Hms IH]; [done|]. cbn [fmap list_fmap concat].
  rewrite length_app, IH, length_put_map by done. simpl. lia.
Qed.

Lemma read_maps_put ms r :
  Forall wire_map ms → read_maps (length ms) (concat (put_map <$> ms) ++ r) = Ok (ms, r).
Proof.
  induction 1 as [|m ms Hm Hms IH]; [done|]. cbn [fmap list_fmap concat length read_maps].
  rewrite <- app_assoc, read_map_put by done. cbn. by rewrite IH.
Qed.

Lemma v3_loop_put ms k :
  Forall wire_map ms → (length ms < k)%nat → v3_loop k (concat (put_map <$> ms)) = Ok ms.
Proof.
  intros Hms. revert k. induction Hms as [|m ms Hm Hms IH]; intros [|k] Hk; simpl in Hk; try lia; [done|].
  cbn [fmap list_fmap concat v3_loop]. rewrite read_map_put by done.
  rewrite IH by lia. done.
Qed.

(** ** Round trip of the frame *)

Lemma open_block_assemble `{LZ4} metadata incomplete block data n :
  metadata_ok metadata → len block <= v4MaxUncompressedHeaderSize →
  assemble metadata incomplete block = Ok (data, n) →
  n = len block ∧ ∃ blockData, data = put_metadata metadata ++ blockData ∧
    open_block blockData = Ok (if incomplete then v4FlagIncomplete else 0, block).
Proof.
  intros Hmd Hlen. unfold assemble, compressLZ4.
  unfold v4MaxUncompressedHeaderSize in Hlen. pose proof (len_nonneg block).
  assert (Hdec : le_dec (put_u32 (len block)) = len block).
  { unfold put_u32. rewrite le_dec_enc, u32_id by ilia. apply Z.mod_small. lia. }
  assert (Hp : length (put_u32 (len block)) = 4%nat) by apply length_put_u32.
  revert Hdec Hp. generalize (put_u32 (len block)). intros p Hdec Hp.
  destruct (lz4_write block) as [c|] eqn:Hc; cbn; [|done]. intros [= <- <-].
  split; [done|]. eexists. split; [done|].
  unfold open_block, v4MaxUncompressedHeaderSize, v4FlagsLen, v4SizePrefixLen.
  destruct (Z.ltb_spec (len ((if incomplete then v4FlagIncomplete else 0) :: p ++ c))
    (Z.of_nat (1 + 4))) as [Hs|].
  { rewrite len_cons, len_app in Hs. unfold len in Hs at 1. rewrite Hp in Hs.
    pose proof (len_nonneg c). lia. }
  cbn [app drop nth skipn Nat.add]. rewrite !drop_0, take_app_length' by done. rewrite Hdec.
  destruct (Z.ltb_spec (256 * 2 ^ 20) (len block)); [lia|].
  rewrite drop_app_length' by done.
  unfold decompressLZ4. rewrite (lz4_read_write _ _ Hc).
  destruct (Z.leb_spec (len block + 1) (len block)); [lia|]. cbn.
  by rewrite Z.eqb_refl.
Qed.

(** ** Round trip of the builds section *)

Definition build_ok (id : uuid) (bd : BuildData) : Prop :=
  uuid_len id ∧ is_i64 (bd_Size bd) ∧ length (bd_Checksum bd) = 32%nat ∧ ft_ok (bd_FrameData bd).
#[global] Instance build_ok_dec id bd : Decision (build_ok id bd).
Proof. unfold build_ok. apply _. Defined.

Definition ranges_ok (ranges : gmap uuid (list Range)) : Prop :=
  ∀ id rs, ranges !! id = Some rs → Forall range_ok rs.

(** What the other side gets for a build: its frames trimmed to the ranges
    the mapping reads from it. *)
Definition sent (ranges : gmap uuid (list Range)) (id : uuid) (bd : BuildData) : BuildData :=
  mkBuildData (bd_Size bd) (bd_Checksum bd)
    (wire_ft (TrimToRanges (bd_FrameData bd) (default [] (ranges !! id)))).

Lemma ranges_ok_default ranges id : ranges_ok ranges → Forall range_ok (default [] (ranges !! id)).
Proof. intros Hr. destruct (ranges !! id) eqn:E; cbn; [by eapply Hr|constructor]. Qed.

Lemma read_build_put ranges id bd n builds r :
  ranges_ok ranges → build_ok id bd →
  read_builds (S n) builds (put_build ranges (id, bd) ++ r) =
  read_builds n (<[id := sent ranges id bd]> builds) r.
Proof.
  intros Hr (Hid & Hs & Hc & Hft). cbn [read_builds put_build].
  rewrite (app_assoc id), (app_assoc (id ++ _)), <- app_assoc.
  rewrite (read_struct_app _ _ _ (id, bd_Size bd, bd_Checksum bd) _ []).
  - cbn [wire mbind result_bind].
    rewrite DeserializeFrameTable_wire by (apply TrimToRanges_ft_ok; [done|by apply ranges_ok_default]).
    done.
  - by rewrite !length_app, Hid, length_put_u64, Hc.
  - done.
  - unfold get_build_info. rewrite <- app_assoc, read_uuid_app by done. cbn.
    rewrite read_i64_put by done. cbn.
    rewrite <- (app_nil_r (bd_Checksum bd)), read_full_app by done. cbn. by rewrite app_nil_r.
Qed.

Definition add_sent (ranges : gmap uuid (list Range)) (m : gmap uuid BuildData) (e : uuid * BuildData) :=
  <[e.1 := sent ranges e.1 e.2]> m.

Lemma read_builds_put ranges bs builds r :
  ranges_ok ranges → Forall (λ e, build_ok e.1 e.2) bs →
  read_builds (length bs) builds (concat (put_build ranges <$> bs) ++ r) =
  Ok (foldl (add_sent ranges) builds bs, r).
Proof.
  intros Hr Hbs. revert builds. induction Hbs as [|[id bd] bs He Hbs IH]; intros builds; [done|].
  cbn [fmap list_fmap concat length foldl]. rewrite <- app_assoc.
  rewrite read_build_put by done. apply IH.
Qed.

Lemma foldl_sent_lookup ranges bs m id :
  NoDup (fst <$> bs) →
  foldl (add_sent ranges) m bs !! id =
  match list_to_map (M := gmap uuid BuildData) bs !! id with
  | Some bd => Some (sent ranges id bd)
  | None => m !! id
  end.
Proof.
  revert m. induction bs as [|[k bd] bs IH]; intros m Hnd; [done|].
  cbn in Hnd. apply NoDup_cons in Hnd as [Hk Hnd]. cbn [foldl list_to_map].
  rewrite IH by done. destruct (decide (k = id)) as [->|Hne].
  - rewrite not_elem_of_list_to_map_1 by done. unfold add_sent; cbn. by rewrite !lookup_insert_eq.
  - unfold add_sent; cbn. by rewrite !lookup_insert_ne by done.
Qed.

(** Sorting the build ids loses and repeats none. *)
Lemma sorted_builds_perm builds : sorted_builds builds ≡ₚ map_to_list builds.
Proof.
  unfold sorted_builds. rewrite merge_sort_Permutation.
  apply reflexive_eq. generalize (map_to_list builds), (elem_of_map_to_list builds).
  intros l Hl. assert (Hin : ∀ i x, (i, x) ∈ l → builds !! i = Some x) by (intros; by apply Hl).
  clear Hl. induction l as [|[i x] l IH]; [done|]. cbn.
  rewrite (Hin i x) by apply list_elem_of_here. cbn. f_equal.
  apply IH. intros j y Hj. apply Hin. by apply list_elem_of_further.
Qed.

Lemma length_put_build ranges id bd :
  build_ok id bd → (64 <= length (put_build ranges (id, bd)))%nat.
Proof.
  intros (Hid & _ & Hc & _). cbn. rewrite !length_app, Hid, length_put_u64, Hc.
  pose proof (Serialize_length (TrimToRanges (bd_FrameData bd) (default [] (ranges !! id)))). lia.
Qed.

Lemma length_put_builds ranges bs :
  Forall (λ e, build_ok e.1 e.2) bs → 64 * len bs <= len (concat (put_build ranges <$> bs)).
Proof.
  induction 1 as [|[id bd] bs He Hbs IH]; [done|]. cbn [fmap list_fmap concat].
  rewrite len_app, len_cons. pose proof (length_put_build ranges id bd He).
  unfold len at 2. lia.
Qed.

Lemma readV4BuildsSection_put builds ranges r :
  ranges_ok ranges → map_Forall build_ok builds → Z.of_nat (size builds) < 2 ^ 32 →
  let bs := sorted_builds builds in
  ∃ builds', readV4BuildsSection
      (put_u32 (len bs) ++ concat (put_build ranges <$> bs) ++ r) = Ok (builds', r) ∧
    ∀ id, default ∅ builds' !! id = sent ranges id <$> builds !! id.
Proof.
  intros Hr Hok Hsz bs. assert (Hperm : bs ≡ₚ map_to_list builds) by apply sorted_builds_perm.
  clearbody bs.
  assert (Hlen : len bs = Z.of_nat (size builds)).
  { unfold len. by rewrite Hperm, length_map_to_list. }
  assert (Hbs : Forall (λ e, build_ok e.1 e.2) bs).
  { rewrite Hperm. apply Forall_forall. intros [id bd] Hin.
    apply elem_of_map_to_list in Hin. by apply Hok. }
  assert (Hnd : NoDup (fst <$> bs)) by (rewrite Hperm; apply NoDup_fst_map_to_list).
  assert (Hmap : ∀ id, list_to_map (M := gmap uuid BuildData) bs !! id = builds !! id).
  { intros id. rewrite (list_to_map_proper bs (map_to_list builds)) by done.
    by rewrite list_to_map_to_list. }
  unfold readV4BuildsSection. pose proof (len_nonneg bs).
  rewrite read_u32_put by ilia. cbn [wire mbind result_bind].
  destruct (Z.eqb_spec (len bs) 0) as [E|E].
  - destruct bs as [|e bs]; [|rewrite len_cons in E; pose proof (len_nonneg bs); lia].
    exists None. split; [done|]. intros id. rewrite <- Hmap. done.
  - pose proof (length_put_builds ranges bs Hbs) as Hl.
    destruct (Z.ltb_spec (len (concat (put_build ranges <$> bs) ++ r) /
      Z.of_nat (v4BuildInfoSize + frameTableHeaderSize)) (len bs)) as [Hlt|_].
    { rewrite len_app in Hlt. pose proof (len_nonneg r). change (Z.of_nat _) with 64 in Hlt.
      apply Z.div_lt_upper_bound in Hlt || (pose proof (Z.div_le_lower_bound
        (len (concat (put_build ranges <$> bs)) + len r) 64 (len bs)); lia). }
    unfold len at 1. rewrite Nat2Z.id, read_builds_put by done.
    eexists. split; [done|]. intros id. cbn. rewrite foldl_sent_lookup by done.
    rewrite Hmap, lookup_empty. by destruct (builds !! id).
Qed.
