(* ===== verification/SerialV5.v ===== *)
(** * SerialV5: the columnar mapping of V5 headers

    Models [header/serialization_v5.go].  The writer stores only the entries
    that have a build, as four varint columns of block deltas and table
    indices; the reader decodes the columns and rebuilds the entries of the
    regions without a build from the gaps.  The theorems: what the writer
    wrote is read back with the same content, and a count above the reader's
    caps is rejected although the writer accepts it. *)

From S2P Require Import Prelude Bytes Bitmap Blocks Mapping Compact FrameTable Header Serial.

Definition maxV5MappingEntries : Z := 8 * 2 ^ 20.

(** ** Writing *)

(** The column without the entries of the nil build. *)
Definition live (col buildIdx : list Z) : list Z :=
  fst <$> filter (λ p, p.2 ≠ nilBuildIdx) (zip col buildIdx).

Fixpoint put_offsets (prevOffset : Z) (col : list Z) : bytes :=
  match col with
  | [] => []
  | off :: col => put_uvarint (u64 (off - prevOffset)) ++ put_offsets off col
  end.

Fixpoint put_storage (prevStorage : Z) (col : list Z) : bytes :=
  match col with
  | [] => []
  | s :: col => put_varint (i64 (s - prevStorage)) ++ put_storage s col
  end.

Definition put_column (col : list Z) : bytes := concat (put_uvarint <$> col).

Definition writeV5MappingSection (m : Compact.Mapping) : bytes :=
  let n := len (filter (λ idx, idx ≠ nilBuildIdx) (m_buildIdx m)) in
  put_u32 (len (m_builds m)) ++ concat (m_builds m) ++ put_u32 n ++
  put_offsets 0 (live (m_offsets m) (m_buildIdx m)) ++
  put_column (live (m_lengths m) (m_buildIdx m)) ++
  put_storage 0 (live (m_storage m) (m_buildIdx m)) ++
  put_column (filter (λ idx, idx ≠ nilBuildIdx) (m_buildIdx m)).

Definition serializeV5 `{LZ4} (metadata : Metadata) (builds : option (gmap uuid BuildData))
    (mapping : Compact.Mapping) (incomplete : bool) : result serial_err (bytes * Z) :=
  section ← writeV4BuildsSection builds mapping;
  assemble metadata incomplete (section ++ writeV5MappingSection mapping).

(** ** Reading *)

Fixpoint read_ids (n : nat) (r : bytes) : result serial_err (list uuid * bytes) :=
  match n with
  | O => Ok ([], r)
  | S n => '(id, r) ← wire (read_full 16 r); '(ids, r) ← read_ids n r; Ok (id :: ids, r)
  end.

Fixpoint read_offsets (n : nat) (i prevOffset : Z) (r : bytes) : result serial_err (list Z * bytes) :=
  match n with
  | O => Ok ([], r)
  | S n =>
      '(d, r) ← wire (read_uvarint r);
      if maxBlockIdx <? d then Err (OffsetTooLarge i)
      else
        let prevOffset := u64 (prevOffset + d) in
        if maxBlockIdx <? prevOffset then Err (OffsetTooLarge i)
        else '(col, r) ← read_offsets n (i + 1) prevOffset r; Ok (u32 prevOffset :: col, r)
  end.

Fixpoint read_lengths (n : nat) (i : Z) (r : bytes) : result serial_err (list Z * bytes) :=
  match n with
  | O => Ok ([], r)
  | S n =>
      '(v, r) ← wire (read_uvarint r);
      if maxBlockIdx <? v then Err (LengthTooLarge i)
      else '(col, r) ← read_lengths n (i + 1) r; Ok (u32 v :: col, r)
  end.

Fixpoint read_storage (n : nat) (i prevStorage : Z) (r : bytes) : result serial_err (list Z * bytes) :=
  match n with
  | O => Ok ([], r)
  | S n =>
      '(d, r) ← wire (read_varint r);
      let prevStorage := i64 (prevStorage + d) in
      if (prevStorage <? 0) || (maxBlockIdx <? prevStorage) then Err (StorageOutOfRange i)
      else '(col, r) ← read_storage n (i + 1) prevStorage r; Ok (u32 prevStorage :: col, r)
  end.

Fixpoint read_index (n : nat) (i m : Z) (r : bytes) : result serial_err (list Z * bytes) :=
  match n with
  | O => Ok ([], r)
  | S n =>
      '(v, r) ← wire (read_uvarint r);
      if m <=? v then Err (IndexOutOfTable i)
      else '(col, r) ← read_index n (i + 1) m r; Ok (u16 v :: col, r)
  end.

(** A row is one entry of the four columns: offset, length, storage, index. *)
Notation row := (Z * Z * Z * Z)%type (only parsing).

Fixpoint rebuild (es : list row) (sizeBlocks current i : Z) : result serial_err (list row) :=
  match es with
  | [] =>
      Ok (if current <? sizeBlocks
          then [(current, u32 (u32 sizeBlocks - current), 0, nilBuildIdx)] else [])
  | (off, length, storage, idx) :: es =>
      if length =? 0 then Err (ZeroLengthEntry i)
      else if off <? current then Err (OverlappingEntry i)
      else
        let gap := if current <? off then [(current, u32 (off - current), 0, nilBuildIdx)] else [] in
        let end_ := u64 (off + length) in
        if sizeBlocks <? end_ then Err (EndBeyondSize i)
        else
          rest ← rebuild es sizeBlocks (u32 end_) (i + 1);
          Ok (gap ++ (off, length, storage, idx) :: rest)
  end.

Definition from_rows (blockSize : Z) (builds : list uuid) (rs : list row)
    : result serial_err Compact.Mapping :=
  column_res (newMappingFromColumns blockSize builds ((λ r, r.1.1.1) <$> rs) ((λ r, r.1.1.2) <$> rs)
    ((λ r, r.1.2) <$> rs) (snd <$> rs)).

Definition maxEntriesByMemory : Z := v4MaxUncompressedHeaderSize / (14 + 2 * 14).

Definition readV5MappingSection (r : bytes) (blockSize size : Z)
    : result serial_err (Compact.Mapping * bytes) :=
  let sizeBlocks := size / blockSize + (if size mod blockSize =? 0 then 0 else 1) in
  if maxBlockIdx <? sizeBlocks then Err (SizeBlocksTooLarge sizeBlocks)
  else
  '(m, r) ← wire (read_u32 r);
  if maxBuildsPerHeader <? m then Err (BuildCountTooLarge m)
  else if len r / 16 <? m then Err (BuildCountTooLarge m)
  else
  '(builds, r) ← read_ids (Z.to_nat m) r;
  '(n, r) ← wire (read_u32 r);
  if maxV5MappingEntries <? n then Err (MapCountTooLarge n)
  else if n =? 0 then
    if size =? 0 then mp ← from_rows blockSize builds []; Ok (mp, r)
    else mp ← from_rows blockSize builds [(0, u32 sizeBlocks, 0, nilBuildIdx)]; Ok (mp, r)
  else
  let maxEntriesByBytes := Z.min (len r / 4) maxEntriesByMemory in
  if maxEntriesByBytes <? n then Err (MapCountTooLarge n)
  else
  let k := Z.to_nat n in
  '(offs, r) ← read_offsets k 0 0 r;
  '(lens, r) ← read_lengths k 0 r;
  '(stos, r) ← read_storage k 0 0 r;
  '(bis, r) ← read_index k 0 m r;
  rs ← rebuild (zip (zip (zip offs lens) stos) bis) sizeBlocks 0 0;
  mp ← from_rows blockSize builds rs;
  Ok (mp, r).

Definition deserializeV5 `{LZ4} (metadata : Metadata) (blockData : bytes)
    : result serial_err Header :=
  if BlockSize metadata =? 0 then Err (HeaderErr ZeroBlockSizeH)
  else
    '(flags, r) ← open_block blockData;
    '(builds, r) ← readV4BuildsSection r;
    '(mapping, _) ← readV5MappingSection r PageSize (Size metadata);
    Ok (mkHeader metadata builds mapping (negb (Z.land flags v4FlagIncomplete =? 0))).

(** ** Decoding the columns *)

Lemma read_ids_put ids r :
  Forall uuid_len ids → read_ids (length ids) (concat ids ++ r) = Ok (ids, r).
Proof.
  induction 1 as [|id ids Hid Hids IH]; [done|]. cbn [concat length read_ids].
  rewrite <- app_assoc, read_uuid_app by done. cbn. by rewrite IH.
Qed.

(** Non-decreasing from [prev] on, within [uint32]. *)
Fixpoint ascending (prev : Z) (col : list Z) : Prop :=
  match col with
  | [] => True
  | off :: col => prev <= off <= maxBlockIdx ∧ ascending off col
  end.

Lemma read_offsets_put col prev i r :
  0 <= prev → ascending prev col →
  read_offsets (length col) i prev (put_offsets prev col ++ r) = Ok (col, r).
Proof.
  revert prev i. induction col as [|off col IH]; intros prev i Hp; [done|].
  intros [Ho Hc]. cbn [put_offsets length read_offsets]. unfold maxBlockIdx in *.
  rewrite <- app_assoc, read_uvarint_put by apply u64_range. cbn [wire mbind result_bind].
  unwrap. destruct (Z.ltb_spec (2 ^ 32 - 1) (off - prev)); [lia|].
  replace (prev + (off - prev)) with off by lia. unwrap.
  destruct (Z.ltb_spec (2 ^ 32 - 1) off); [lia|]. rewrite IH by (done || lia). done.
Qed.

Lemma read_lengths_put col i r :
  Forall is_u32 col → read_lengths (length col) i (put_column col ++ r) = Ok (col, r).
Proof.
  intros Hc. revert i. induction Hc as [|l col Hl Hc IH]; intros i; [done|].
  unfold put_column in *. cbn [fmap list_fmap concat length read_lengths]. unfold maxBlockIdx in *.
  rewrite <- app_assoc, read_uvarint_put by ilia. cbn [wire mbind result_bind].
  destruct (Z.ltb_spec (2 ^ 32 - 1) l); [ilia|]. unwrap. rewrite IH. done.
Qed.

Lemma read_storage_put col prev i r :
  is_u32 prev → Forall is_u32 col →
  read_storage (length col) i prev (put_storage prev col ++ r) = Ok (col, r).
Proof.
  intros Hp Hc. revert prev i Hp. induction Hc as [|s col Hs Hc IH]; intros prev i Hp; [done|].
  cbn [put_storage length read_storage]. unfold maxBlockIdx in *.
  rewrite <- app_assoc, read_varint_put by apply i64_range. cbn [wire mbind result_bind].
  unwrap. replace (prev + (s - prev)) with s by lia. unwrap.
  destruct (Z.ltb_spec s 0), (Z.ltb_spec (2 ^ 32 - 1) s); try ilia. cbn [orb].
  rewrite IH by done. done.
Qed.

Lemma read_index_put col i m r :
  Forall (λ v, 0 <= v < m ∧ v < 2 ^ 16) col →
  read_index (length col) i m (put_column col ++ r) = Ok (col, r).
Proof.
  intros Hc. revert i. induction Hc as [|v col Hv Hc IH]; intros i; [done|].
  unfold put_column in *. cbn [fmap list_fmap concat length read_index].
  rewrite <- app_assoc, read_uvarint_put by ilia. cbn [wire mbind result_bind].
  destruct (Z.leb_spec m v); [lia|]. unwrap. rewrite IH. done.
Qed.

(** Every column takes at least one byte per entry. *)
Lemma length_put_column col : (length col <= length (put_column col))%nat.
Proof.
  unfold put_column. induction col as [|v col IH]; [done|]. cbn [fmap list_fmap concat].
  rewrite length_app. pose proof (put_uvarint_nonempty v). simpl. lia.
Qed.
Lemma length_put_offsets prev col : (length col <= length (put_offsets prev col))%nat.
Proof.
  revert prev. induction col as [|v col IH]; intros prev; [done|]. cbn [put_offsets].
  rewrite length_app. pose proof (put_uvarint_nonempty (u64 (v - prev))). specialize (IH v). simpl. lia.
Qed.
Lemma length_put_storage prev col : (length col <= length (put_storage prev col))%nat.
Proof.
  revert prev. induction col as [|v col IH]; intros prev; [done|]. cbn [put_storage].
  rewrite length_app. pose proof (put_varint_nonempty (i64 (v - prev))). specialize (IH v). simpl. lia.
Qed.

(** ** Rows *)

Definition is_live (r : row) : bool := negb (r.2 =? nilBuildIdx).
Definition live_rows (rs : list row) : list row := filter (λ r, is_live r = true) rs.

Lemma is_live_spec r : is_live r = true ↔ r.2 ≠ nilBuildIdx.
Proof. unfold is_live. rewrite negb_true_iff, Z.eqb_neq. done. Qed.

Lemma live_zip (f : row → Z) rs :
  live (f <$> rs) (snd <$> rs) = f <$> live_rows rs.
Proof.
  unfold live, live_rows. induction rs as [|r rs IH]; [done|]. cbn [fmap list_fmap zip_with].
  rewrite !filter_cons. cbn [snd].
  destruct (decide (is_live r = true)) as [E|E]; rewrite is_live_spec in E.
  - rewrite decide_True by done. cbn. f_equal. exact IH.
  - rewrite decide_False by done. exact IH.
Qed.

Lemma live_index rs :
  filter (λ idx, idx ≠ nilBuildIdx) (snd <$> rs) = snd <$> live_rows rs.
Proof.
  unfold live_rows. induction rs as [|r rs IH]; [done|]. cbn [fmap list_fmap].
  rewrite !filter_cons.
  destruct (decide (is_live r = true)) as [E|E]; rewrite is_live_spec in E.
  - rewrite decide_True by done. cbn. by f_equal.
  - rewrite decide_False by done. exact IH.
Qed.

(** The columns of a well-formed mapping are the projections of its rows. *)
Lemma columns_rows m : mapping_wf m →
  m_offsets m = (λ r, r.1.1.1) <$> rows m ∧ m_lengths m = (λ r, r.1.1.2) <$> rows m ∧
  m_storage m = (λ r, r.1.2) <$> rows m ∧ m_buildIdx m = snd <$> rows m.
Proof.
  intros []. unfold rows. destruct m as [bs builds offs lens stos bis]. cbn in *.
  clear -wf_len_l wf_len_s wf_len_b. revert lens stos bis wf_len_l wf_len_s wf_len_b.
  induction offs as [|o offs IH]; intros [|l lens] [|s stos] [|b bis]; simpl; intros; try lia; [done|].
  destruct (IH lens stos bis) as (E1 & E2 & E3 & E4); [lia..|].
  split_and!; f_equal; done.
Qed.

Lemma zip_rows (rs : list row) :
  zip (zip (zip ((λ r, r.1.1.1) <$> rs) ((λ r, r.1.1.2) <$> rs)) ((λ r, r.1.2) <$> rs)) (snd <$> rs) = rs.
Proof. induction rs as [|[[[o l] s] b] rs IH]; [done|]. cbn. by f_equal. Qed.

(** The entry a row stands for, in pages. *)
Definition row_map (builds : list uuid) (r : row) : BuildMap :=
  let '(off, l, sto, bi) := r in
  mkBuildMap (off * PageSize) (l * PageSize) (default uuid_nil (resolve builds bi)) (sto * PageSize).

Definition row_u32 (r : row) : Prop :=
  let '(off, l, sto, bi) := r in is_u32 off ∧ is_u32 l ∧ is_u32 sto.

(** A tiling of [[lo, hi)] in pages by rows of positive length. *)
Fixpoint rtiles (lo hi : Z) (rs : list row) : Prop :=
  match rs with
  | [] => lo = hi
  | (off, l, sto, bi) :: rs => off = lo ∧ 0 < l ∧ rtiles (lo + l) hi rs
  end.

Lemma rtiles_le lo hi rs : rtiles lo hi rs → lo <= hi.
Proof.
  revert lo. induction rs as [|[[[o l] s] b] rs IH]; intros lo; cbn; [lia|].
  intros (_ & Hl & Ht). specialize (IH _ Ht). lia.
Qed.

Lemma live_ascending lo hi prev rs :
  0 <= prev <= lo → hi <= maxBlockIdx → rtiles lo hi rs →
  ascending prev ((λ r, r.1.1.1) <$> live_rows rs).
Proof.
  unfold live_rows. revert lo prev. induction rs as [|[[[o l] s] b] rs IH]; intros lo prev Hp Hhi; [done|].
  intros (-> & Hl & Ht). pose proof (rtiles_le _ _ _ Ht). rewrite filter_cons.
  case_decide; cbn; [split; [lia|]|]; apply (IH (lo + l)); done || lia.
Qed.

(** ** Rebuilding the gaps *)

Definition row_ok (builds : list uuid) (r : row) : Prop :=
  row_u32 r ∧ (r.2 = nilBuildIdx ∨ 0 <= r.2 < len builds ∧ r.2 < nilBuildIdx).

Lemma content_gap_row builds lo l rs x :
  content (row_map builds (lo, l, 0, nilBuildIdx) :: rs) x =
  if (lo * PageSize <=? x) && (x <? lo * PageSize + l * PageSize) then Some (uuid_nil, 0)
  else content rs x.
Proof.
  unfold content. cbn [source row_map]. unfold covers. cbn [Offset Length].
  destruct ((_ <=? x) && _); [|done]. cbn. unfold erase_nil, source_in. cbn.
  by rewrite bool_decide_eq_true_2.
Qed.

Lemma content_row builds r rs x :
  content (row_map builds r :: rs) x =
  if covers (row_map builds r) x then erase_nil <$> Some (source_in (row_map builds r) x)
  else content rs x.
Proof. unfold content. cbn [source]. by destruct (covers _ x). Qed.

Lemma erase_nil_row builds off l s x :
  erase_nil <$> Some (source_in (row_map builds (off, l, s, nilBuildIdx)) x) = Some (uuid_nil, 0).
Proof. cbn. unfold erase_nil. cbn. by rewrite bool_decide_eq_true_2. Qed.

(** Rebuilding from the live rows of a tiling of [[lo, hi)], when everything
    from [current] up to [lo] was nil: the result tiles [[current, hi)] and
    reads as zeros up to [lo] and as the tiling did from there on. *)
Lemma rebuild_live builds rs lo hi current i :
  0 <= current <= lo → hi <= maxBlockIdx → rtiles lo hi rs → Forall (row_ok builds) rs →
  ∃ rs', rebuild (live_rows rs) hi current i = Ok rs' ∧ rtiles current hi rs' ∧
    Forall (row_ok builds) rs' ∧
    ∀ x, content (row_map builds <$> rs') x =
      if (current * PageSize <=? x) && (x <? lo * PageSize) then Some (uuid_nil, 0)
      else content (row_map builds <$> rs) x.
Proof.
  unfold maxBlockIdx, live_rows. revert lo current i.
  induction rs as [|[[[off l] s] b] rs IH]; intros lo current i Hc Hhi Ht Hok; cbn in Ht.
  - subst lo. cbn [filter list_filter rebuild]. unwrap.
    destruct (Z.ltb_spec current hi).
    + eexists. split; [done|]. split; [cbn; split_and!; lia|]. split.
      * constructor; [|constructor]. split; [cbn; unfold_int; lia|by left].
      * intros x. cbn [fmap list_fmap]. rewrite content_gap_row.
        replace (current * PageSize + (hi - current) * PageSize) with (hi * PageSize) by lia. done.
    + assert (current = hi) as -> by lia. eexists. split; [done|]. split; [done|]. split; [done|].
      intros x. destruct (Z.leb_spec (hi * PageSize) x), (Z.ltb_spec x (hi * PageSize)); done || lia.
  - destruct Ht as (-> & Hl & Ht). pose proof (rtiles_le _ _ _ Ht).
    apply Forall_cons in Hok as [[Hu Hb] Hok]. cbn in Hu, Hb. rewrite filter_cons.
    destruct (decide (is_live (lo, l, s, b) = true)) as [Hlv|Hlv]; rewrite is_live_spec in Hlv; cbn in Hlv.
    + cbn [rebuild]. destruct (Z.eqb_spec l 0); [lia|]. destruct (Z.ltb_spec lo current); [lia|].
      unwrap. destruct (Z.ltb_spec hi (lo + l)); [lia|].
      destruct (IH (lo + l) (lo + l) (i + 1)) as (rs' & Hr & Htr & Hokr & Hcr); try (done || lia).
      rewrite Hr. cbn [mbind result_bind].
      assert (Hrow : ∀ x, content (row_map builds <$> (lo, l, s, b) :: rs') x =
        content (row_map builds <$> (lo, l, s, b) :: rs) x).
      { intros x. cbn [fmap list_fmap]. rewrite !content_row, Hcr.
        destruct (Z.leb_spec ((lo + l) * PageSize) x), (Z.ltb_spec x ((lo + l) * PageSize)); done || lia. }
      eexists. split; [done|]. destruct (Z.ltb_spec current lo); cbn [app].
      * unwrap. split; [cbn; replace (current + (lo - current)) with lo by lia; split_and!; done || lia|].
        split; [repeat constructor; auto; try (cbn; unfold_int; lia); by left|].
        intros x. rewrite fmap_cons, content_gap_row.
        replace (current * PageSize + (lo - current) * PageSize) with (lo * PageSize) by lia.
        by rewrite Hrow.
      * assert (current = lo) as -> by lia. split; [done|]. split; [constructor; [by split|done]|].
        intros x. rewrite Hrow.
        destruct (Z.leb_spec (lo * PageSize) x), (Z.ltb_spec x (lo * PageSize)); done || lia.
    + assert (b = nilBuildIdx) as -> by (destruct Hb as [|]; [done|exfalso; apply Hlv; lia]).
      destruct (IH (lo + l) current i) as (rs' & Hr & Htr & Hokr & Hcr); try (done || lia).
      exists rs'. split_and!; auto. intros x. rewrite Hcr. cbn [fmap list_fmap]. rewrite content_row.
      rewrite erase_nil_row. unfold covers. cbn [row_map Offset Length]. unfold PageSize.
      repeat ztest; cbn [andb]; try done; lia.
Qed.

Lemma rebuild_Forall (Q : row → Prop) es hi current i rs :
  (∀ a b, 0 <= a → Q (a, b, 0, nilBuildIdx)) → 0 <= current → Forall Q es →
  rebuild es hi current i = Ok rs → Forall Q rs.
Proof.
  intros HQ Hc Hes. revert current i rs Hc. induction Hes as [|[[[off l] s] b] es He Hes IH];
    intros current i rs Hc; cbn [rebuild].
  - intros [= <-]. destruct (current <? hi); repeat constructor. by apply HQ.
  - destruct (l =? 0); [done|]. destruct (Z.ltb_spec off current); [done|].
    destruct (hi <? _); [done|]. intros (rest & Hr & [= <-])%bind_ok.
    apply Forall_app. split.
    + destruct (current <? off); repeat constructor. by apply HQ.
    + constructor; [done|]. eapply IH; [|exact Hr]. apply u32_range.
Qed.

(** ** Rows and mappings *)

Lemma row_entry_map bs builds r :
  bs = PageSize → row_ok builds r → row_entry bs builds r = Some (row_map builds r).
Proof.
  intros -> [Hu Hb]. destruct r as [[[off l] s] b]. cbn in *. unfold PageSize in *.
  destruct Hu as (? & ? & ?). unwrap.
  assert (is_Some (resolve builds b)) as [id ->]; [|done].
  unfold resolve. destruct (Z.eqb_spec b nilBuildIdx); [done|].
  destruct Hb as [|[Hb _]]; [done|]. by apply at_is_Some.
Qed.

Lemma rows_ok m : mapping_wf m → Forall (row_ok (m_builds m)) (rows m).
Proof.
  intros Hwf. destruct (columns_rows m Hwf) as (E1 & E2 & E3 & E4). destruct Hwf.
  rewrite E1 in wf_off. rewrite E2 in wf_lens. rewrite E3 in wf_sto. rewrite E4 in wf_idx.
  rewrite Forall_fmap in wf_off, wf_lens, wf_sto, wf_idx.
  apply Forall_forall. intros [[[o l] s] b] Hin.
  rewrite Forall_forall in wf_off, wf_lens, wf_sto, wf_idx.
  specialize (wf_off _ Hin). specialize (wf_lens _ Hin). specialize (wf_sto _ Hin).
  specialize (wf_idx _ Hin). cbv beta in *. cbn in *. split; [by split_and!|exact wf_idx].
Qed.

Lemma Slice_row_map m :
  mapping_wf m → m_blockSize m = PageSize → Slice m = Some (row_map (m_builds m) <$> rows m).
Proof.
  intros Hwf Hbs. rewrite Slice_rows by done. apply mapM_Some.
  apply Forall2_fmap_r, Forall_Forall2_diag. eapply Forall_impl; [by apply rows_ok|].
  intros r Hr. by apply row_entry_map.
Qed.

Lemma tiles_rtiles builds rs lo size :
  tiles (lo * PageSize) size (row_map builds <$> rs) → positive (row_map builds <$> rs) →
  rtiles lo (size / PageSize) rs.
Proof.
  unfold positive. revert lo. induction rs as [|[[[off l] s] b] rs IH]; intros lo; cbn.
  { intros <- _. by rewrite Z.div_mul. }
  intros (Ho & _ & Ht) [Hl Hp]%Forall_cons. cbn in Hl.
  split_and!; [unfold PageSize in *; lia|unfold PageSize in *; lia|].
  apply IH; [|done]. by rewrite Z.mul_add_distr_r.
Qed.

Lemma rtiles_tiles builds rs lo hi :
  0 <= lo → hi <= maxBlockIdx → rtiles lo hi rs → Forall (row_ok builds) rs →
  let ms := row_map builds <$> rs in
  tiles (lo * PageSize) (hi * PageSize) ms ∧ positive ms ∧ aligned ms.
Proof.
  unfold positive, aligned, maxBlockIdx. intros Hlo Hhi. revert lo Hlo.
  induction rs as [|[[[off l] s] b] rs IH]; intros lo Hlo; cbn.
  { intros -> _. split_and!; [done|constructor..]. }
  intros (-> & Hl & Ht) [[(_ & ? & ?) _] Hok]%Forall_cons. cbn in *.
  pose proof (rtiles_le _ _ _ Ht).
  destruct (IH (lo + l) ltac:(lia) Ht Hok) as (Ht' & Hp & Ha).
  split_and!; [done|unfold entry_ok, PageSize; cbn; ilia|by rewrite <- Z.mul_add_distr_r| |].
  - constructor; [cbn; unfold PageSize; lia|done].
  - constructor; [|done]. cbn. unfold paged. split_and!; by apply Z.divide_factor_r.
Qed.

Lemma check_idx_ok bis n i :
  Forall (λ b, b = nilBuildIdx ∨ 0 <= b < n ∧ b < nilBuildIdx) bis → check_idx bis n i = Ok ().
Proof.
  intros Hb. revert i. induction Hb as [|b bis Hb Hbs IH]; intros i; [done|]. cbn.
  destruct (Z.eqb_spec b nilBuildIdx); [apply IH|]. destruct (Z.leb_spec n b); [lia|apply IH].
Qed.

(** A mapping from sound rows: well formed, and its rows are those given. *)
Lemma from_rows_ok builds rs :
  NoDup builds → uuid_nil ∉ builds → Forall (row_ok builds) rs →
  ∃ m, from_rows PageSize builds rs = Ok m ∧ mapping_wf m ∧ m_blockSize m = PageSize ∧
    m_builds m = builds ∧ rows m = rs.
Proof.
  intros Hnd Hnil Hok. unfold from_rows, newMappingFromColumns.
  rewrite !len_fmap, !Z.eqb_refl. cbn [negb orb].
  rewrite check_idx_ok.
  - eexists. split; [done|]. split; [|split; [done|split; [done|apply zip_rows]]].
    split; cbn; rewrite ?length_fmap; auto; [done|..];
      apply Forall_fmap; eapply Forall_impl; [exact Hok| |exact Hok| |exact Hok| |exact Hok|];
      intros [[[o l] s] b] [(? & ? & ?) ?]; cbn in *; done.
  - apply Forall_fmap. eapply Forall_impl; [exact Hok|]. by intros r [_ ?].
Qed.

(** ** The mapping section *)

Lemma tiles_end lo a b ms : tiles lo a ms → tiles lo b ms → a = b.
Proof.
  revert lo. induction ms as [|m ms IH]; intros lo; cbn; [congruence|].
  intros (_ & _ & Ha) (_ & _ & Hb). by eapply IH.
Qed.

(** The written bytes in terms of the live rows. *)
Lemma writeV5_rows m :
  mapping_wf m →
  writeV5MappingSection m =
  put_u32 (len (m_builds m)) ++ concat (m_builds m) ++ put_u32 (len (live_rows (rows m))) ++
  put_offsets 0 ((λ r, r.1.1.1) <$> live_rows (rows m)) ++
  put_column ((λ r, r.1.1.2) <$> live_rows (rows m)) ++
  put_storage 0 ((λ r, r.1.2) <$> live_rows (rows m)) ++
  put_column (snd <$> live_rows (rows m)).
Proof.
  intros Hwf. destruct (columns_rows m Hwf) as (E1 & E2 & E3 & E4).
  unfold writeV5MappingSection. rewrite E1, E2, E3, E4, !live_zip, live_index, len_fmap. done.
Qed.

Lemma len_concat_uuids ids : Forall uuid_len ids → len (concat ids) = 16 * len ids.
Proof.
  induction 1 as [|id ids Hid Hids IH]; [done|]. cbn [concat]. rewrite len_app, len_cons, IH.
  unfold len at 1. rewrite Hid. lia.
Qed.

(** The four columns of some rows, and the bytes they take. *)
Definition put_columns (es : list row) : bytes :=
  put_offsets 0 ((λ r, r.1.1.1) <$> es) ++ put_column ((λ r, r.1.1.2) <$> es) ++
  put_storage 0 ((λ r, r.1.2) <$> es) ++ put_column (snd <$> es).

Lemma len_put_columns es : 4 * len es <= len (put_columns es).
Proof.
  unfold put_columns, len. rewrite !length_app.
  pose proof (length_put_offsets 0 ((λ r, r.1.1.1) <$> es)) as H1.
  pose proof (length_put_column ((λ r, r.1.1.2) <$> es)) as H2.
  pose proof (length_put_storage 0 ((λ r, r.1.2) <$> es)) as H3.
  pose proof (length_put_column (snd <$> es)) as H4.
  rewrite length_fmap in H1, H2, H3, H4. lia.
Qed.

(** Header of the section: builds table and count, the columns following. *)
Lemma read_prefix builds es r bs size :
  Forall uuid_len builds → len builds <= maxBuildsPerHeader → is_u32 (len es) →
  let sizeBlocks := size / bs + (if size mod bs =? 0 then 0 else 1) in
  sizeBlocks <= maxBlockIdx →
  readV5MappingSection
    (put_u32 (len builds) ++ concat builds ++ put_u32 (len es) ++ put_columns es ++ r) bs size =
  if maxV5MappingEntries <? len es then Err (MapCountTooLarge (len es))
  else if len es =? 0 then
    if size =? 0 then mp ← from_rows bs builds []; Ok (mp, put_columns es ++ r)
    else mp ← from_rows bs builds [(0, u32 sizeBlocks, 0, nilBuildIdx)]; Ok (mp, put_columns es ++ r)
  else if Z.min (len (put_columns es ++ r) / 4) maxEntriesByMemory <? len es
  then Err (MapCountTooLarge (len es))
  else
    '(offs, r) ← read_offsets (length es) 0 0 (put_columns es ++ r);
    '(lens, r) ← read_lengths (length es) 0 r;
    '(stos, r) ← read_storage (length es) 0 0 r;
    '(bis, r) ← read_index (length es) 0 (len builds) r;
    rs ← rebuild (zip (zip (zip offs lens) stos) bis) sizeBlocks 0 0;
    mp ← from_rows bs builds rs;
    Ok (mp, r).
Proof.
  intros Hids Hb Hes sizeBlocks Hs. unfold readV5MappingSection. fold sizeBlocks.
  pose proof (len_nonneg builds). unfold maxBuildsPerHeader, nilBuildIdx in Hb.
  destruct (Z.ltb_spec maxBlockIdx sizeBlocks); [lia|].
  rewrite read_u32_put by ilia. cbn [wire mbind result_bind].
  unfold maxBuildsPerHeader, nilBuildIdx. destruct (Z.ltb_spec 65535 (len builds)); [lia|].
  match goal with |- context [len ?l / 16 <? _] => destruct (Z.ltb_spec (len l / 16) (len builds)) as [Hl|] end.
  { exfalso. rewrite len_app, len_concat_uuids in Hl by done.
    match type of Hl with (_ + len ?l) / 16 < _ => pose proof (len_nonneg l);
      pose proof (Z.div_le_lower_bound (16 * len builds + len l) 16 (len builds)) end. lia. }
  rewrite len_to_nat, read_ids_put by done. cbn [mbind result_bind].
  rewrite read_u32_put by done. cbn [wire mbind result_bind]. by rewrite len_to_nat.
Qed.

Lemma read_columns es nb r :
  ascending 0 ((λ r, r.1.1.1) <$> es) → Forall row_u32 es →
  Forall (λ r : row, 0 <= r.2 < nb ∧ r.2 < nilBuildIdx) es →
  ∀ A (K : list Z → list Z → list Z → list Z → bytes → result serial_err A),
  ('(offs, r) ← read_offsets (length es) 0 0 (put_columns es ++ r);
   '(lens, r) ← read_lengths (length es) 0 r;
   '(stos, r) ← read_storage (length es) 0 0 r;
   '(bis, r) ← read_index (length es) 0 nb r;
   K offs lens stos bis r) =
  K ((λ r, r.1.1.1) <$> es) ((λ r, r.1.1.2) <$> es) ((λ r, r.1.2) <$> es) (snd <$> es) r.
Proof.
  intros Ha Hu Hi A K. unfold put_columns. rewrite <- !app_assoc.
  assert (Hu' : Forall (λ r : row, is_u32 r.1.1.2 ∧ is_u32 r.1.2) es).
  { eapply Forall_impl; [exact Hu|]. by intros [[[o l] s] b] (_ & ? & ?). }
  assert (Hl : ∀ f : row → Z, length es = length (f <$> es)) by (intros; by rewrite length_fmap).
  rewrite (Hl (λ r, r.1.1.1)), read_offsets_put by done. cbn [mbind result_bind].
  rewrite <- (Hl (λ r, r.1.1.1)), (Hl (λ r, r.1.1.2)), read_lengths_put;
    [|apply Forall_fmap; eapply Forall_impl; [exact Hu'|]; by intros ? []]. cbn [mbind result_bind].
  rewrite <- (Hl (λ r, r.1.1.2)), (Hl (λ r, r.1.2)), read_storage_put;
    [|done|apply Forall_fmap; eapply Forall_impl; [exact Hu'|]; by intros ? []]. cbn [mbind result_bind].
  rewrite <- (Hl (λ r, r.1.2)), (Hl snd), read_index_put; [done|].
  apply Forall_fmap. eapply Forall_impl; [exact Hi|]. intros x [? ?]. unfold nilBuildIdx in *.
  cbn. lia.
Qed.

Section section_roundtrip.
Context (m : Compact.Mapping) (ms : list BuildMap) (size : Z) (r : bytes).
Hypothesis Hwf : mapping_wf m.
Hypothesis Hbs : m_blockSize m = PageSize.
Hypothesis Hms : Slice m = Some ms.
Hypothesis Ht : tiles 0 size ms.
Hypothesis Hpos : positive ms.
Hypothesis Hsize : 0 < size < 2 ^ 44.
Hypothesis Hids : Forall uuid_len (m_builds m).
Hypothesis Hnb : len (m_builds m) <= maxBuildsPerHeader.

Lemma rows_tiling :
  ms = row_map (m_builds m) <$> rows m ∧ rtiles 0 (size / PageSize) (rows m) ∧
  size mod PageSize = 0 ∧ size / PageSize <= maxBlockIdx ∧ size / PageSize * PageSize = size.
Proof using Hwf Hbs Hms Ht Hpos Hsize.
  pose proof (Slice_row_map m Hwf Hbs) as E. rewrite Hms in E. injection E as ->.
  pose proof (tiles_rtiles _ _ 0 size Ht Hpos) as Hr.
  assert (Hmax : size / PageSize <= maxBlockIdx).
  { unfold PageSize, maxBlockIdx. pose proof (Z.div_lt_upper_bound size (4 * 2 ^ 10) (2 ^ 32)). lia. }
  destruct (rtiles_tiles (m_builds m) _ 0 _ ltac:(lia) Hmax Hr (rows_ok m Hwf)) as (Ht' & _).
  pose proof (tiles_end _ _ _ _ Ht Ht') as Hs.
  split_and!; auto. rewrite Hs. apply Z.mod_mul. done.
Qed.

Lemma live_rows_ok :
  Forall row_u32 (live_rows (rows m)) ∧
  Forall (λ r : row, 0 <= r.2 < len (m_builds m) ∧ r.2 < nilBuildIdx) (live_rows (rows m)).
Proof using Hwf.
  rewrite <- Forall_and. unfold live_rows. apply Forall_forall.
  intros x [Hl%is_live_spec Hin]%list_elem_of_filter.
  pose proof (rows_ok m Hwf) as Hok. rewrite Forall_forall in Hok.
  destruct (Hok x Hin) as [Hu [Hb|Hb]]; [done|]. by split.
Qed.

Lemma from_rows_result rs' :
  rtiles 0 (size / PageSize) rs' → Forall (row_ok (m_builds m)) rs' →
  ∃ m', from_rows PageSize (m_builds m) rs' = Ok m' ∧ mapping_wf m' ∧
    m_blockSize m' = PageSize ∧ m_builds m' = m_builds m ∧
    Slice m' = Some (row_map (m_builds m) <$> rs') ∧
    tiles 0 size (row_map (m_builds m) <$> rs') ∧ positive (row_map (m_builds m) <$> rs') ∧
    aligned (row_map (m_builds m) <$> rs').
Proof using Hwf Hbs Hms Ht Hpos Hsize.
  intros Hr' Hok'. destruct rows_tiling as (_ & _ & _ & Hmax & Hsz).
  destruct (from_rows_ok (m_builds m) rs' (wf_builds _ Hwf) (wf_nil _ Hwf) Hok')
    as (m' & Hm' & Hwf' & Hbs' & Hb' & Hrows').
  destruct (rtiles_tiles (m_builds m) rs' 0 _ ltac:(lia) Hmax Hr' Hok') as (Ht' & Hp' & Ha').
  exists m'. rewrite (Slice_row_map m' Hwf' Hbs'), Hrows', Hb'. rewrite Hsz in Ht'. by split_and!.
Qed.

(** What was written is read back, with the gaps rebuilt: the same table, the
    same tiling and the same content of every byte. *)
Lemma mapping_section_roundtrip :
  len (live_rows (rows m)) <= Z.min maxV5MappingEntries maxEntriesByMemory →
  ∃ m' ms', readV5MappingSection (writeV5MappingSection m ++ r) PageSize size = Ok (m', r) ∧
    mapping_wf m' ∧ m_blockSize m' = PageSize ∧ m_builds m' = m_builds m ∧ Slice m' = Some ms' ∧
    tiles 0 size ms' ∧ positive ms' ∧ aligned ms' ∧
    (packed ms → packed ms') ∧ ∀ x, 0 <= x → content ms' x = content ms x.
Proof using Hwf Hbs Hms Ht Hpos Hsize Hids Hnb.
  intros Hn. destruct rows_tiling as (Hrm & Hrt & Hmod & Hmax & Hsz).
  destruct live_rows_ok as [Hlu Hli].
  assert (Hn32 : is_u32 (len (live_rows (rows m)))).
  { pose proof (len_nonneg (live_rows (rows m))). unfold maxV5MappingEntries in Hn. ilia. }
  destruct (rebuild_live (m_builds m) (rows m) 0 (size / PageSize) 0 0)
    as (rs' & Hreb & Hrt' & Hok' & Hcon); [lia|done|done|by apply rows_ok|].
  destruct (from_rows_result rs' Hrt' Hok') as (m' & Hm' & Hwf' & Hb1 & Hb2 & Hs' & Ht' & Hp' & Ha').
  exists m', (row_map (m_builds m) <$> rs').
  split; [|split_and!; try done].
  - rewrite writeV5_rows, <- !app_assoc by done.
    change (put_offsets 0 ?a ++ put_column ?b ++ put_storage 0 ?c ++ put_column ?d ++ r)
      with (put_offsets 0 a ++ (put_column b ++ (put_storage 0 c ++ (put_column d ++ r)))).
    assert (Eapp : put_offsets 0 ((λ r, r.1.1.1) <$> live_rows (rows m)) ++
      put_column ((λ r, r.1.1.2) <$> live_rows (rows m)) ++
      put_storage 0 ((λ r, r.1.2) <$> live_rows (rows m)) ++
      put_column (snd <$> live_rows (rows m)) ++ r = put_columns (live_rows (rows m)) ++ r)
      by (unfold put_columns; by rewrite <- !app_assoc).
    rewrite Eapp, read_prefix by (done || by rewrite Hmod, Z.add_0_r).
    rewrite Hmod, Z.eqb_refl, Z.add_0_r. cbn [negb].
    destruct (Z.ltb_spec maxV5MappingEntries (len (live_rows (rows m)))); [lia|].
    destruct (Z.eqb_spec (len (live_rows (rows m))) 0) as [E0|E0].
    + destruct (Z.eqb_spec size 0); [lia|].
      assert (Enil : live_rows (rows m) = []) by (destruct (live_rows (rows m)); [done|unfold len in E0; simpl in E0; lia]).
      rewrite Enil in *. cbn [rebuild] in Hreb. destruct (Z.ltb_spec 0 (size / PageSize)) as [Hlt|Hle];
        [|revert Hle Hsz; unfold PageSize; lia].
      injection Hreb as Hreb. rewrite Z.sub_0_r, !u32_id in Hreb by (unfold maxBlockIdx in *; rewrite ?u32_id; ilia).
      rewrite u32_id by (unfold maxBlockIdx in *; ilia). rewrite Hreb, Hm'. done.
    + pose proof (len_put_columns (live_rows (rows m))).
      destruct (Z.ltb_spec (Z.min (len (put_columns (live_rows (rows m)) ++ r) / 4) maxEntriesByMemory)
        (len (live_rows (rows m)))) as [Hlt|_].
      { rewrite len_app in Hlt. pose proof (len_nonneg r).
        pose proof (Z.div_le_lower_bound (len (put_columns (live_rows (rows m))) + len r) 4
          (len (live_rows (rows m)))). lia. }
      rewrite read_columns; [|by eapply live_ascending|done|done].
      rewrite zip_rows, Hreb. cbn [mbind result_bind]. rewrite Hm'. done.
  - intros Hpk. unfold packed, heads in *. rewrite Hrm in Hpk. apply Forall_fmap.
    apply Forall_fmap in Hpk. eapply (rebuild_Forall _ _ _ _ _ _ _ _ _ Hreb).
    Unshelve. { cbn. unfold PageSize. lia. } { done. }
    unfold live_rows. apply Forall_forall. intros x [_ Hx]%list_elem_of_filter.
    rewrite Forall_forall in Hpk. by apply Hpk.
  - intros x Hx. rewrite Hcon, Hrm. destruct (Z.ltb_spec x (0 * PageSize)); [lia|].
    by rewrite andb_false_r.
Qed.
End section_roundtrip.

(** A count above the caps of the reader is rejected, whatever follows. *)
Lemma mapping_section_rejected m size r :
  mapping_wf m → Forall uuid_len (m_builds m) → len (m_builds m) <= maxBuildsPerHeader →
  0 < size < 2 ^ 43 → is_u32 (len (live_rows (rows m))) →
  Z.min maxV5MappingEntries maxEntriesByMemory < len (live_rows (rows m)) →
  readV5MappingSection (writeV5MappingSection m ++ r) PageSize size =
    Err (MapCountTooLarge (len (live_rows (rows m)))).
Proof.
  intros Hwf Hids Hnb Hsize Hn32 Hn. rewrite writeV5_rows, <- !app_assoc by done.
  pose proof (read_prefix (m_builds m) (live_rows (rows m)) r PageSize size Hids Hnb Hn32) as E.
  unfold put_columns in E. rewrite <- !app_assoc in E. rewrite E; clear E.
  - destruct (Z.ltb_spec maxV5MappingEntries (len (live_rows (rows m)))); [done|].
    assert (0 < maxEntriesByMemory) by done.
    destruct (Z.eqb_spec (len (live_rows (rows m))) 0); [lia|].
    match goal with |- context [Z.min ?a maxEntriesByMemory <? _] =>
      destruct (Z.ltb_spec (Z.min a maxEntriesByMemory) (len (live_rows (rows m)))) end; [done|lia].
  - pose proof (Z.div_lt_upper_bound size PageSize (2 ^ 31)).
    unfold maxBlockIdx, PageSize in *. destruct (size mod _ =? 0); lia.
Qed.
