(* ===== verification/HeaderIO.v ===== *)
(** * HeaderIO: serialising, storing and loading whole headers

    Models the dispatch of [header/serialization.go]: [SerializeHeader],
    [DeserializeBytes], [StoreHeader], [LoadHeader].  Object storage is the
    interface [Blobs] (open and put, open and get), whose law is that a stored
    blob is read back.  The theorems are the round trips of the three formats,
    the end-to-end one through storage, and the gap between the caps of the
    write path and the read path. *)

From S2P Require Import Prelude Bytes Bitmap Blocks Mapping Compact FrameTable Header Serial SerialV5.

(** The storage provider: an object is written and read under its path. *)
Class Blobs (St : Type) := {
  blob_put : string → bytes → St → option St;
  blob_get : string → St → option bytes;
  blob_get_put p b s s' : blob_put p b s = Some s' → blob_get p s' = Some b
}.

Definition metadataFormatVersion (version : Z) : Z := Z.land version 65535.

Inductive format := V3 | V4 | V5.

Definition format_of (m : Metadata) : option format :=
  let v := metadataFormatVersion (Version m) in
  if (v =? 1) || (v =? 2) || (v =? 3) then Some V3
  else if v =? MetadataVersionV4 then Some V4
  else if v =? MetadataVersionV5 then Some V5
  else None.

Section io.
Context `{LZ4}.

Definition SerializeHeader (h : Header) : result serial_err bytes :=
  match format_of (h_Metadata h) with
  | Some V3 => serializeV3 (h_Metadata h) (h_Mapping h)
  | Some V4 => '(data, _) ← serializeV4 (h_Metadata h) (h_Builds h) (h_Mapping h) (IncompletePendingUpload h);
               Ok data
  | Some V5 => '(data, _) ← serializeV5 (h_Metadata h) (h_Builds h) (h_Mapping h) (IncompletePendingUpload h);
               Ok data
  | None => Err (UnsupportedVersion (Version (h_Metadata h)))
  end.

Definition DeserializeBytes (data : bytes) : result serial_err Header :=
  if len data <? Z.of_nat metadataSize then Err (TooShort (len data))
  else
    metadata ← deserializeMetadata (take metadataSize data);
    let blockData := drop metadataSize data in
    match format_of metadata with
    | Some V5 => deserializeV5 metadata blockData
    | Some V4 => deserializeV4 metadata blockData
    | Some V3 => deserializeV3 metadata blockData
    | None => Err (UnsupportedVersion (Version metadata))
    end.

Definition empty_build : BuildData := mkBuildData 0 (replicate 32 0) None.

Definition backfillMissingV3UncompressedBuilds (h : Header) : Header :=
  let step builds bid :=
    match default ∅ builds !! bid with
    | Some _ => builds
    | None => Some (<[bid := empty_build]> (default ∅ builds))
    end in
  mkHeader (h_Metadata h) (foldl step (h_Builds h) (m_builds (h_Mapping h))) (h_Mapping h)
           (IncompletePendingUpload h).

Definition headerCodec (h : option Header) : Z :=
  match h with
  | None => CompressionNone
  | Some h => match format_of (h_Metadata h) with
              | Some V4 | Some V5 => CompressionLZ4
              | _ => CompressionNone
              end
  end.

Context {St : Type} `{Blobs St}.

Inductive io_fail := Serialization (e : serial_err) | StorageFailed.

Definition ser {A} (r : result serial_err A) : result io_fail A :=
  match r with Ok a => Ok a | Err e => Err (Serialization e) end.

Definition LoadHeader (s : St) (path : string) : result io_fail (Header * Z) :=
  data ← from_option StorageFailed (blob_get path s);
  h ← ser (DeserializeBytes data);
  Ok (if IncompletePendingUpload h then h else backfillMissingV3UncompressedBuilds h, len data).

(** The serialised bytes and the size before compression, after the checks. *)
Definition store_bytes (h : option Header) : result serial_err (bytes * Z) :=
  match h with
  | None => Err NilHeaderS
  | Some h =>
      if IncompletePendingUpload h then Err Incomplete
      else
      let md := h_Metadata h in
      match format_of md with
      | Some V3 => data ← serializeV3 md (h_Mapping h); Ok (data, len data)
      | Some f =>
          '(data, blockUncompressed) ←
            match f with
            | V5 => serializeV5 md (h_Builds h) (h_Mapping h) (IncompletePendingUpload h)
            | _ => serializeV4 md (h_Builds h) (h_Mapping h) (IncompletePendingUpload h)
            end;
          if v4MaxUncompressedHeaderSize <? blockUncompressed then Err (SizeAboveCap blockUncompressed)
          else Ok (data, Z.of_nat (metadataSize + v4FlagsLen + v4SizePrefixLen) + blockUncompressed)
      | None => Err (UnsupportedVersion (Version md))
      end
  end.

Definition StoreHeader (s : St) (path : string) (h : option Header)
    : result io_fail (St * Z * Z) :=
  '(data, uncompressed) ← ser (store_bytes h);
  s ← from_option StorageFailed (blob_put path data s);
  Ok (s, len data, uncompressed).
End io.

(** ** The ranges a mapping reads from its builds *)

Lemma extractRelevantRanges_ok ms : Forall entry_ok ms → ranges_ok (extractRelevantRanges ms).
Proof.
  unfold extractRelevantRanges. intros Hms.
  assert (H0 : ranges_ok ∅) by (intros id rs; by rewrite lookup_empty).
  revert H0. generalize (∅ : gmap uuid (list Range)).
  induction Hms as [|m ms Hm Hms IH]; intros rg Hrg; [done|]. cbn. apply IH.
  intros id rs. unfold add_range. destruct (decide (BuildId m = id)) as [<-|Hne].
  - rewrite lookup_insert_eq. intros [= <-]. apply Forall_app. split; [by apply ranges_ok_default|].
    constructor; [|constructor]. unfold range_ok, entry_ok in *. cbn. unwrap. lia.
  - rewrite lookup_insert_ne by done. apply Hrg.
Qed.

(** Every entry contributes the range it reads to its build's list. *)
Lemma extractRelevantRanges_elem ms m :
  Forall entry_ok ms → m ∈ ms →
  mkRange (BuildStorageOffset m) (Length m) ∈ default [] (extractRelevantRanges ms !! BuildId m).
Proof.
  unfold extractRelevantRanges. intros Hms Hin.
  assert (Hgen : ∀ rg,
    (mkRange (BuildStorageOffset m) (Length m) ∈ default [] (rg !! BuildId m) ∨ m ∈ ms) →
    mkRange (BuildStorageOffset m) (Length m) ∈ default [] (foldl add_range rg ms !! BuildId m));
    [|by apply Hgen; right].
  clear Hin. induction Hms as [|n ms Hn Hms IH]; intros rg [Hr|Hr]; cbn; [done|by apply elem_of_nil in Hr|..].
  - apply IH. left. unfold add_range. destruct (decide (BuildId n = BuildId m)) as [E|Hne].
    + rewrite E, lookup_insert_eq. cbn. set_solver.
    + by rewrite lookup_insert_ne.
  - apply IH. apply elem_of_cons in Hr as [->|Hr]; [left|by right].
    unfold add_range. rewrite lookup_insert_eq. cbn. unfold entry_ok in Hn. unwrap. set_solver.
Qed.

(** ** Headers that fit the wire *)

Record sendable (h : Header) (ms : list BuildMap) : Prop := {
  sd_ok : header_ok h ms;
  sd_md : metadata_ok (h_Metadata h);
  sd_bs : m_blockSize (h_Mapping h) = PageSize;
  sd_ids : Forall uuid_len (m_builds (h_Mapping h));
  sd_nb : len (m_builds (h_Mapping h)) <= maxBuildsPerHeader;
  sd_len : is_u32 (Len (h_Mapping h));
  sd_builds : map_Forall build_ok (default ∅ (h_Builds h));
  sd_size : Z.of_nat (size (default ∅ (h_Builds h))) < 2 ^ 32
}.

(** The builds a reader of the header gets. *)
Definition sent_builds (h : Header) (ms : list BuildMap) (id : uuid) : option BuildData :=
  sent (extractRelevantRanges ms) id <$> default ∅ (h_Builds h) !! id.

Section formats.
Context (h : Header) (ms : list BuildMap) (Hsd : sendable h ms).

Lemma sd_wire : Forall wire_map ms ∧ Z.of_nat (size (table_of ms)) <= maxBuildsPerHeader ∧ ms ≠ [].
Proof using Hsd.
  destruct Hsd as [Hok Hmd Hbs Hids Hnb _ _ _]. pose proof (ho_size _ _ Hok) as Hsz.
  destruct (packed_packable ms _ (ho_packed _ _ Hok) (ho_tiles _ _ Hok) ltac:(lia)
    (ho_aligned _ _ Hok) (ho_positive _ _ Hok)) as [_ Hu].
  assert (Hid : ∀ m, m ∈ ms → BuildId m = uuid_nil ∨ BuildId m ∈ m_builds (h_Mapping h)).
  { pose proof (ho_slice _ _ Hok) as Hs. rewrite (Slice_row_map _ (ho_wf _ _ Hok) Hbs) in Hs.
    injection Hs as <-. intros m (r & -> & Hr)%list_elem_of_fmap. destruct r as [[[o l] s] b]. cbn.
    unfold resolve. destruct (b =? nilBuildIdx); [by left|].
    destruct (at_ _ b) as [id|] eqn:E; [right|by left]. apply at_elem. eauto. }
  split_and!.
  - apply Forall_forall. intros m Hm. rewrite Forall_forall in Hu. split; [by apply Hu|].
    destruct (Hid m Hm) as [->|Hin]; [done|]. rewrite Forall_forall in Hids. by apply Hids.
  - assert (Hsub : table_of ms ⊆ list_to_set (m_builds (h_Mapping h))).
    { intros u. unfold table_of, Layers.
      rewrite elem_of_difference, !elem_of_list_to_set, list_elem_of_fmap, elem_of_singleton.
      intros [(m & -> & Hm) Hn]. by destruct (Hid m Hm). }
    apply subseteq_size in Hsub. rewrite size_list_to_set in Hsub by apply Hok.
    unfold len in Hnb. lia.
  - intros ->. pose proof (ho_tiles _ _ Hok) as Ht. cbn in Ht. lia.
Qed.

Lemma sd_new : ∃ h', NewHeader (h_Metadata h) ms = Ok h' ∧ header_ok h' ms ∧
  h_Metadata h' = h_Metadata h ∧ h_Builds h' = None ∧ IncompletePendingUpload h' = false.
Proof using Hsd.
  destruct sd_wire as (_ & Ht & _). pose proof (sd_ok _ _ Hsd) as Hok.
  destruct (NewHeader_ok (h_Metadata h) ms) as (h' & Hh & Hok' & Hmd & _); try apply Hok; [done|].
  exists h'. split_and!; auto; unfold NewHeader in Hh;
    (destruct (BlockSize _ =? 0); [done|]); apply bind_ok in Hh as (c & _ & [= <-]); done.
Qed.

Lemma V3_roundtrip b :
  serializeV3 (h_Metadata h) (h_Mapping h) = Ok b →
  ∃ h' block, b = put_metadata (h_Metadata h) ++ block ∧
    deserializeV3 (h_Metadata h) block = Ok h' ∧
    header_ok h' ms ∧ h_Metadata h' = h_Metadata h ∧ h_Builds h' = None ∧
    IncompletePendingUpload h' = false.
Proof using Hsd.
  unfold serializeV3. rewrite (ho_slice _ _ (sd_ok _ _ Hsd)). intros [= <-].
  destruct sd_wire as (Hw & _ & _). destruct sd_new as (h' & Hh & Hrest).
  eexists h', _. split; [done|]. split; [|done].
  unfold deserializeV3. rewrite v3_loop_put; [|done|].
  - cbn [mbind result_bind]. by rewrite Hh.
  - rewrite length_put_maps by done. unfold v4MappingSize. lia.
Qed.

Context `{LZ4}.

(** The V4 and V5 frame around a builds section and a mapping section. *)
Lemma builds_section_roundtrip section r :
  writeV4BuildsSection (h_Builds h) (h_Mapping h) = Ok section →
  ∃ builds', readV4BuildsSection (section ++ r) = Ok (builds', r) ∧
    ∀ id, default ∅ builds' !! id = sent_builds h ms id.
Proof using Hsd.
  unfold writeV4BuildsSection. rewrite (ho_slice _ _ (sd_ok _ _ Hsd)). intros <-%ok_inj.
  rewrite <- app_assoc. apply readV4BuildsSection_put; [|apply Hsd|apply Hsd].
  apply extractRelevantRanges_ok. eapply header_ok_entries; [apply Hsd|].
  pose proof (ho_size _ _ (sd_ok _ _ Hsd)). lia.
Qed.

Lemma V4_roundtrip b n :
  serializeV4 (h_Metadata h) (h_Builds h) (h_Mapping h) (IncompletePendingUpload h) = Ok (b, n) →
  n <= v4MaxUncompressedHeaderSize →
  ∃ h' block, b = put_metadata (h_Metadata h) ++ block ∧
    deserializeV4 (h_Metadata h) block = Ok h' ∧
    header_ok h' ms ∧ h_Metadata h' = h_Metadata h ∧
    (∀ id, default ∅ (h_Builds h') !! id = sent_builds h ms id) ∧
    IncompletePendingUpload h' = IncompletePendingUpload h.
Proof using Hsd.
  unfold serializeV4. rewrite (ho_slice _ _ (sd_ok _ _ Hsd)).
  destruct (writeV4BuildsSection _ _) as [section|] eqn:Hsec; [|done].
  cbn [mbind result_bind from_option]. intros Ha Hn.
  assert (Hlen : n = len (section ++ put_u32 (u32 (Len (h_Mapping h))) ++ concat (put_map <$> ms))).
  { unfold assemble, compressLZ4 in Ha. destruct (lz4_write _); [|done]. by injection Ha as _ <-. }
  destruct (open_block_assemble _ _ _ _ _ (sd_md _ _ Hsd) ltac:(rewrite <- Hlen; exact Hn) Ha)
    as (_ & block & -> & Ho).
  destruct (builds_section_roundtrip section (put_u32 (u32 (Len (h_Mapping h))) ++ concat (put_map <$> ms)) Hsec)
    as (builds' & Hb & Hbs).
  destruct sd_wire as (Hw & _ & _). destruct sd_new as (h' & Hh & Hok' & Hmd' & _ & _).
  eexists (mkHeader (h_Metadata h') builds' (h_Mapping h') (IncompletePendingUpload h)), block.
  split; [done|]. split.
  - unfold deserializeV4. rewrite Ho. cbn [mbind result_bind]. rewrite Hb. cbn [mbind result_bind].
    pose proof (sd_len _ _ Hsd) as Hl. unwrap. rewrite read_u32_put by done. cbn [wire mbind result_bind].
    rewrite <- (Slice_len _ _ (ho_wf _ _ (sd_ok _ _ Hsd)) (ho_slice _ _ (sd_ok _ _ Hsd))).
    destruct (Z.ltb_spec (len (concat (put_map <$> ms)) / Z.of_nat v4MappingSize) (len ms)) as [Hlt|_].
    { exfalso. unfold len at 1 in Hlt. rewrite length_put_maps, Nat2Z.inj_mul in Hlt by done.
      rewrite Z.mul_comm, Z.div_mul in Hlt by done. unfold len in Hlt. lia. }
    rewrite len_to_nat. rewrite <- (app_nil_r (concat (put_map <$> ms))), read_maps_put by done.
    cbn [mbind result_bind]. rewrite Hh. cbn [header_res mbind result_bind].
    by destruct (IncompletePendingUpload h).
  - split; [destruct Hok'; by split|]. by split_and!.
Qed.

Lemma V5_roundtrip b n :
  serializeV5 (h_Metadata h) (h_Builds h) (h_Mapping h) (IncompletePendingUpload h) = Ok (b, n) →
  n <= v4MaxUncompressedHeaderSize →
  len (live_rows (rows (h_Mapping h))) <= Z.min maxV5MappingEntries maxEntriesByMemory →
  ∃ h' block ms', b = put_metadata (h_Metadata h) ++ block ∧
    deserializeV5 (h_Metadata h) block = Ok h' ∧
    header_ok h' ms' ∧ h_Metadata h' = h_Metadata h ∧
    (∀ x, 0 <= x → content ms' x = content ms x) ∧
    (∀ id, default ∅ (h_Builds h') !! id = sent_builds h ms id) ∧
    IncompletePendingUpload h' = IncompletePendingUpload h.
Proof using Hsd.
  unfold serializeV5. pose proof (sd_ok _ _ Hsd) as Hok.
  destruct (writeV4BuildsSection _ _) as [section|] eqn:Hsec; [|done].
  cbn [mbind result_bind from_option]. intros Ha Hn Hcap.
  assert (Hlen : n = len (section ++ writeV5MappingSection (h_Mapping h))).
  { unfold assemble, compressLZ4 in Ha. destruct (lz4_write _); [|done]. by injection Ha as _ <-. }
  destruct (open_block_assemble _ _ _ _ _ (sd_md _ _ Hsd) ltac:(rewrite <- Hlen; exact Hn) Ha)
    as (_ & block & -> & Ho).
  destruct (builds_section_roundtrip section (writeV5MappingSection (h_Mapping h)) Hsec)
    as (builds' & Hb & Hbs).
  destruct (mapping_section_roundtrip (h_Mapping h) ms (Size (h_Metadata h)) []) as
    (m' & ms' & Hm' & Hwf' & _ & _ & Hs' & Ht' & Hp' & Ha' & Hpk & Hc); try apply Hsd; try apply Hok; [done|].
  rewrite app_nil_r in Hm'.
  exists (mkHeader (h_Metadata h) builds' m' (IncompletePendingUpload h)), block, ms'.
  split; [done|]. split.
  - unfold deserializeV5. pose proof (ho_bs _ _ Hok).
    destruct (Z.eqb_spec (BlockSize (h_Metadata h)) 0); [lia|].
    rewrite Ho. cbn [mbind result_bind]. rewrite Hb. cbn [mbind result_bind]. rewrite Hm'.
    cbn [mbind result_bind]. by destruct (IncompletePendingUpload h).
  - split; [|by split_and!]. split; cbn; try done; try apply Hok. by apply Hpk, Hok.
Qed.
End formats.

(** ** Backfilling and dispatch *)

Lemma backfill_lookup h id :
  default ∅ (h_Builds (backfillMissingV3UncompressedBuilds h)) !! id =
  match default ∅ (h_Builds h) !! id with
  | Some bd => Some bd
  | None => if bool_decide (id ∈ m_builds (h_Mapping h)) then Some empty_build else None
  end.
Proof.
  unfold backfillMissingV3UncompressedBuilds. cbn [h_Builds].
  generalize (h_Builds h). induction (m_builds (h_Mapping h)) as [|b l IH]; intros bs; cbn.
  { by destruct (default ∅ bs !! id). }
  rewrite IH. destruct (default ∅ bs !! b) as [bd|] eqn:Eb.
  - destruct (default ∅ bs !! id) eqn:Eid; [done|].
    assert (id ≠ b) by congruence.
    destruct (decide (id ∈ l)).
    + rewrite !bool_decide_eq_true_2; set_solver.
    + rewrite !bool_decide_eq_false_2; set_solver.
  - cbn. destruct (decide (id = b)) as [->|Hne].
    + rewrite lookup_insert_eq, Eb, bool_decide_eq_true_2 by set_solver. done.
    + rewrite lookup_insert_ne by done. destruct (default ∅ bs !! id); [done|].
      destruct (decide (id ∈ l)).
      * rewrite !bool_decide_eq_true_2; set_solver.
      * rewrite !bool_decide_eq_false_2; set_solver.
Qed.

Lemma DeserializeBytes_app `{LZ4} md block :
  metadata_ok md →
  DeserializeBytes (put_metadata md ++ block) =
  match format_of md with
  | Some V5 => deserializeV5 md block
  | Some V4 => deserializeV4 md block
  | Some V3 => deserializeV3 md block
  | None => Err (UnsupportedVersion (Version md))
  end.
Proof.
  intros Hmd. unfold DeserializeBytes. pose proof (length_put_metadata md Hmd) as Hl.
  destruct (Z.ltb_spec (len (put_metadata md ++ block)) (Z.of_nat metadataSize)) as [Hlt|_].
  { exfalso. unfold len in Hlt. rewrite length_app, Hl in Hlt. lia. }
  rewrite take_app_length', drop_app_length' by done.
  pose proof (deserializeMetadata_put md [] Hmd) as Hd. rewrite app_nil_r in Hd. by rewrite Hd.
Qed.

(** What the reader of a stored header holds. *)
Record loaded (h : Header) (ms : list BuildMap) (h' : Header) (ms' : list BuildMap) : Prop := {
  ld_ok : header_ok h' ms';
  ld_md : h_Metadata h' = h_Metadata h;
  ld_content x : 0 <= x → content ms' x = content ms x;
  ld_builds id bd : format_of (h_Metadata h) ≠ Some V3 → sent_builds h ms id = Some bd →
    default ∅ (h_Builds h') !! id = Some bd;
  ld_complete : IncompletePendingUpload h' = false
}.

Lemma store_bytes_spec `{LZ4} h ms data n :
  sendable h ms → store_bytes (Some h) = Ok (data, n) →
  (format_of (h_Metadata h) = Some V5 →
   len (live_rows (rows (h_Mapping h))) <= Z.min maxV5MappingEntries maxEntriesByMemory) →
  ∃ h' ms', DeserializeBytes data = Ok h' ∧ loaded h ms h' ms'.
Proof.
  intros Hsd. unfold store_bytes. destruct (IncompletePendingUpload h) eqn:Hinc; [done|].
  destruct (format_of (h_Metadata h)) as [[]|] eqn:Hf; [..|done]; intros Hs Hcap.
  - apply bind_ok in Hs as (b & Hb & [= <- _]).
    destruct (V3_roundtrip h ms Hsd b Hb) as (h' & block & -> & Hd & Hok & Hmd & Hbs & Hi).
    exists h', ms. rewrite DeserializeBytes_app, Hf by apply Hsd. split; [done|]. by split.
  - apply bind_ok in Hs as ([b blk] & Hb & Hs). rewrite <- Hinc in Hb.
    destruct (Z.ltb_spec v4MaxUncompressedHeaderSize blk); [done|]. injection Hs as <- _.
    destruct (V4_roundtrip h ms Hsd b blk Hb) as (h' & block & -> & Hd & Hok & Hmd & Hbs & Hi); [done|].
    exists h', ms. rewrite DeserializeBytes_app, Hf by apply Hsd. split; [done|].
    split; try done; [|congruence]. intros id bd _ Hid. by rewrite Hbs.
  - apply bind_ok in Hs as ([b blk] & Hb & Hs). rewrite <- Hinc in Hb.
    destruct (Z.ltb_spec v4MaxUncompressedHeaderSize blk); [done|]. injection Hs as <- _.
    destruct (V5_roundtrip h ms Hsd b blk Hb) as (h' & block & ms' & -> & Hd & Hok & Hmd & Hc & Hbs & Hi);
      [done|by apply Hcap|].
    exists h', ms'. rewrite DeserializeBytes_app, Hf by apply Hsd. split; [done|].
    split; try done; [|congruence]. intros id bd _ Hid. by rewrite Hbs.
Qed.

Lemma backfill_loaded h ms h' ms' :
  loaded h ms h' ms' → loaded h ms (backfillMissingV3UncompressedBuilds h') ms'.
Proof.
  intros []. split; try done.
  - destruct ld_ok0. by split.
  - intros id bd Hf Hid. rewrite backfill_lookup. by rewrite (ld_builds0 id bd).
Qed.

Lemma StoreHeader_LoadHeader `{LZ4} `{Blobs St} (s s' : St) path h ms stored unc :
  sendable h ms → StoreHeader s path (Some h) = Ok (s', stored, unc) →
  (format_of (h_Metadata h) = Some V5 →
   len (live_rows (rows (h_Mapping h))) <= Z.min maxV5MappingEntries maxEntriesByMemory) →
  ∃ h' ms', LoadHeader s' path = Ok (h', stored) ∧ loaded h ms h' ms' ∧
    ∀ id, id ∈ m_builds (h_Mapping h') → is_Some (default ∅ (h_Builds h') !! id).
Proof.
  intros Hsd Hs Hcap. unfold StoreHeader in Hs. apply bind_ok in Hs as ([data n] & Hd & Hs).
  apply bind_ok in Hs as (s'' & Hp & [= <- <- <-]).
  destruct (blob_put path data s) as [s1|] eqn:Hput; [|done]. injection Hp as ->.
  assert (Hd' : store_bytes (Some h) = Ok (data, n)).
  { destruct (store_bytes (Some h)) as [[d k]|]; [|done]. by injection Hd as -> ->. }
  destruct (store_bytes_spec h ms data n Hsd Hd' Hcap) as (h' & ms' & Hdes & Hl).
  exists (backfillMissingV3UncompressedBuilds h'), ms'. split; [|split; [by apply backfill_loaded|]].
  - unfold LoadHeader. rewrite (blob_get_put _ _ _ _ Hput). cbn [from_option mbind result_bind].
    rewrite Hdes. cbn [ser mbind result_bind]. by rewrite (ld_complete _ _ _ _ Hl).
  - intros id Hid. rewrite backfill_lookup. cbn in Hid.
    destruct (default ∅ (h_Builds h') !! id); [done|]. by rewrite bool_decide_eq_true_2.
Qed.

(** ** The gap between the caps of the two paths *)

Lemma V5_load_rejected `{LZ4} h ms data n :
  sendable h ms → format_of (h_Metadata h) = Some V5 → Size (h_Metadata h) < 2 ^ 43 →
  Z.min maxV5MappingEntries maxEntriesByMemory < len (live_rows (rows (h_Mapping h))) →
  store_bytes (Some h) = Ok (data, n) →
  DeserializeBytes data = Err (MapCountTooLarge (len (live_rows (rows (h_Mapping h))))).
Proof.
  intros Hsd Hf Hsz Hcap. pose proof (sd_ok _ _ Hsd) as Hok. unfold store_bytes.
  destruct (IncompletePendingUpload h) eqn:Hinc; [done|]. rewrite Hf. intros Hs.
  apply bind_ok in Hs as ([b blk] & Hb & Hs).
  destruct (Z.ltb_spec v4MaxUncompressedHeaderSize blk); [done|]. injection Hs as <- _.
  unfold serializeV5 in Hb. destruct (writeV4BuildsSection _ _) as [section|] eqn:Hsec; [|done].
  cbn [mbind result_bind] in Hb.
  assert (Hlen : blk = len (section ++ writeV5MappingSection (h_Mapping h))).
  { unfold assemble, compressLZ4 in Hb. destruct (lz4_write _); [|done]. by injection Hb as _ <-. }
  destruct (open_block_assemble _ _ _ _ _ (sd_md _ _ Hsd) ltac:(rewrite <- Hlen; lia) Hb)
    as (_ & block & -> & Ho).
  destruct (builds_section_roundtrip h ms Hsd section (writeV5MappingSection (h_Mapping h)) Hsec)
    as (builds' & Hb' & _).
  rewrite DeserializeBytes_app, Hf by apply Hsd. unfold deserializeV5. pose proof (ho_bs _ _ Hok).
  destruct (Z.eqb_spec (BlockSize (h_Metadata h)) 0); [lia|].
  rewrite Ho. cbn [mbind result_bind]. rewrite Hb'. cbn [mbind result_bind].
  pose proof (mapping_section_rejected (h_Mapping h) (Size (h_Metadata h)) []) as Hrej.
  rewrite app_nil_r in Hrej. pose proof (ho_size _ _ Hok).
  assert (Hl32 : is_u32 (len (live_rows (rows (h_Mapping h))))).
  { pose proof (length_filter (λ r, is_live r = true) (rows (h_Mapping h))) as Hle.
    pose proof (len_rows _ (ho_wf _ _ Hok)) as Hr. pose proof (sd_len _ _ Hsd).
    unfold live_rows, len in *. ilia. }
  rewrite Hrej; [done|apply Hok|apply Hsd|apply Hsd|lia|done|done].
Qed.

(** *** A header the write path accepts: [N] pages that read one stored page *)

Definition big_rows (N : Z) : list (Z * Z * Z * Z) := (λ i, (i, 1, 0, 0)) <$> seqZ 0 N.

Definition big_mapping (N : Z) : Compact.Mapping :=
  mkMapping PageSize [id_a] ((λ r, r.1.1.1) <$> big_rows N) ((λ r, r.1.1.2) <$> big_rows N)
    ((λ r, r.1.2) <$> big_rows N) (snd <$> big_rows N).

Definition big_header (N : Z) : Header :=
  mkHeader (mkMetadata MetadataVersionV5 PageSize (N * PageSize) 1 id_a id_a) None (big_mapping N) false.

Definition big_entries (N : Z) : list BuildMap := row_map [id_a] <$> big_rows N.

Section big.
Context (N : Z) (HN : 0 < N < 2 ^ 30).

Lemma big_rows_ok : Forall (row_ok [id_a]) (big_rows N).
Proof using HN.
  unfold big_rows. apply Forall_fmap, Forall_forall. intros i Hi%elem_of_seqZ. cbn.
  split; [cbn; unfold_int; lia|right; by repeat split].
Qed.

Lemma big_rtiles : rtiles 0 N (big_rows N).
Proof using HN.
  unfold big_rows. assert (Hgen : ∀ n lo, rtiles lo (lo + Z.of_nat n) ((λ i, (i, 1, 0, 0)) <$> seqZ lo (Z.of_nat n))).
  { induction n as [|n IH]; intros lo; [rewrite seqZ_nil by lia; simpl; lia|].
    rewrite Nat2Z.inj_succ, seqZ_cons by lia.
    cbn [fmap list_fmap rtiles]. split_and!; [done|lia|].
    specialize (IH (lo + 1)). rewrite Z.pred_succ. fold (Z.succ lo).
    replace (lo + Z.succ (Z.of_nat n)) with (lo + 1 + Z.of_nat n) by lia. exact IH. }
  specialize (Hgen (Z.to_nat N) 0). by rewrite Z2Nat.id in Hgen by lia.
Qed.

Lemma big_live : live_rows (big_rows N) = big_rows N.
Proof using HN.
  unfold live_rows, big_rows. induction (seqZ 0 N) as [|i l IH]; [done|].
  cbn [fmap list_fmap]. rewrite filter_cons, decide_True by done. by rewrite IH.
Qed.

Lemma big_len : len (big_rows N) = N.
Proof using HN.
  unfold big_rows. rewrite len_fmap. unfold len. rewrite length_seqZ. lia.
Qed.

Lemma big_sendable : sendable (big_header N) (big_entries N).
Proof using HN.
  destruct (from_rows_ok [id_a] (big_rows N)) as (m & Hm & Hwf & Hbs & Hb & Hrows);
    [apply NoDup_singleton|by apply not_elem_of_cons; split; [discriminate|apply not_elem_of_nil]|apply big_rows_ok|].
  assert (m = big_mapping N) as ->.
  { unfold from_rows, newMappingFromColumns in Hm.
    destruct (_ || _); [done|]. destruct (check_idx _ _ _); [|done]. by injection Hm as <-. }
  destruct (rtiles_tiles [id_a] (big_rows N) 0 N) as (Ht & Hp & Ha);
    [lia|unfold maxBlockIdx; lia|apply big_rtiles|apply big_rows_ok|].
  assert (Hlen : Len (big_mapping N) = N).
  { rewrite <- len_rows, Hrows by done. apply big_len. }
  split.
  - split; [exact Hwf| |exact Ht|exact Ha|exact Hp| | | |cbn; unfold MetadataVersionV5; lia].
    + cbn [h_Mapping big_header]. by rewrite (Slice_row_map _ Hwf Hbs), Hrows.
    + unfold heads, big_entries, big_rows. rewrite !Forall_fmap. apply Forall_forall.
      intros i Hi%elem_of_seqZ. cbn. unfold PageSize. lia.
    + cbn. unfold PageSize. lia.
    + done.
  - unfold metadata_ok, uuid_len. cbn. unfold PageSize, MetadataVersionV5.
    split_and!; try done; unfold_int; lia.
  - done.
  - repeat constructor.
  - done.
  - cbn [h_Mapping big_header]. rewrite Hlen. ilia.
  - done.
  - done.
Qed.

Lemma length_put_uvarint x : (length (put_uvarint x) <= 10)%nat.
Proof using.
  unfold put_uvarint.
  assert (Hk : ∀ k y, (length (put_uvarint_aux k y) <= S k)%nat).
  { induction k as [|k IH]; intros y; cbn; [lia|]. destruct (128 <=? y); cbn; [|lia].
    specialize (IH (y / 128)). lia. }
  apply Hk.
Qed.

Lemma len_put_columns_le es : len (put_columns es) <= 40 * len es.
Proof using.
  assert (Hc : ∀ col, (length (put_column col) <= 10 * length col)%nat).
  { intros col. unfold put_column. induction col as [|v col IH]; [done|]. cbn [fmap list_fmap concat].
    rewrite length_app. pose proof (length_put_uvarint v). simpl length. lia. }
  assert (Ho : ∀ col prev, (length (put_offsets prev col) <= 10 * length col)%nat).
  { induction col as [|v col IH]; intros prev; [done|]. cbn [put_offsets].
    rewrite length_app. pose proof (length_put_uvarint (u64 (v - prev))). specialize (IH v). simpl length. lia. }
  assert (Hs : ∀ col prev, (length (put_storage prev col) <= 10 * length col)%nat).
  { induction col as [|v col IH]; intros prev; [done|]. cbn [put_storage].
    rewrite length_app. unfold put_varint.
    pose proof (length_put_uvarint (let ux := u64 (2 * (i64 (v - prev))) in
      if i64 (v - prev) <? 0 then u64 (Z.lnot ux) else ux)). specialize (IH v). simpl length in *. lia. }
  unfold put_columns, len. rewrite !length_app.
  pose proof (Hc ((λ r, r.1.1.2) <$> es)) as H1. pose proof (Hc (snd <$> es)) as H2.
  pose proof (Ho ((λ r, r.1.1.1) <$> es) 0) as H3. pose proof (Hs ((λ r, r.1.2) <$> es) 0) as H4.
  rewrite length_fmap in H1, H2, H3, H4. lia.
Qed.

(** The write path accepts it while its encoding stays below the byte cap. *)
Lemma big_stored `{LZ4} :
  (∀ d, is_Some (lz4_write d)) → 40 * N + 64 <= v4MaxUncompressedHeaderSize →
  ∃ data n, store_bytes (Some (big_header N)) = Ok (data, n).
Proof using HN.
  intros Hw Hcap. pose proof big_sendable as Hsd. pose proof (sd_ok _ _ Hsd) as Hok.
  unfold store_bytes. cbn [IncompletePendingUpload big_header h_Metadata format_of].
  change (format_of _) with (Some V5). cbv iota beta.
  unfold serializeV5, writeV4BuildsSection.
  assert (Hs : Slice (big_mapping N) = Some (big_entries N)) by apply (ho_slice _ _ Hok).
  cbn [h_Builds h_Mapping big_header]. rewrite Hs. cbn [from_option mbind result_bind].
  assert (Hb : sorted_builds (default ∅ None) = []).
  { apply Permutation_nil_r. rewrite sorted_builds_perm. cbn. by rewrite map_to_list_empty. }
  rewrite Hb. unfold assemble, compressLZ4.
  match goal with |- context [lz4_write ?d] => set (block := d) end.
  destruct (Hw block) as [c ->]. cbn [from_option mbind result_bind].
  assert (Hlen : len block <= 40 * N + 64).
  { unfold block. rewrite writeV5_rows by apply Hok.
    assert (Hrows : rows (big_mapping N) = big_rows N) by apply zip_rows.
    rewrite Hrows, big_live. fold (put_columns (big_rows N)).
    rewrite !len_app. pose proof (len_put_columns_le (big_rows N)) as Hc.
    assert (Hp : ∀ x, len (put_u32 x) = 4) by (intros; unfold len; by rewrite length_put_u32).
    rewrite !Hp. rewrite big_len in Hc. cbn [m_builds big_mapping]. change (len (concat [])) with 0.
    change (len (concat [id_a])) with 16. change (len (concat (put_build _ <$> []))) with 0. lia. }
  destruct (Z.ltb_spec v4MaxUncompressedHeaderSize (len block)); [lia|]. by eexists _, _.
Qed.
End big.

(** ** The properties of stored headers *)

(** Concrete codec and store: a codec that copies, and a map of paths. *)
Definition copy_codec : LZ4 :=
  {| lz4_write := Some; lz4_read := λ c, (c, true);
     lz4_read_write := λ d c H, f_equal (λ x, (x, true)) (eq_sym (f_equal (default c) H)) |}.

Definition map_store : Blobs (gmap string bytes) :=
  {| blob_put := λ p b s, Some (<[p := b]> s);
     blob_get := λ p s, s !! p;
     blob_get_put := λ p b s s' H,
       eq_ind _ (λ s', s' !! p = Some b) (lookup_insert_eq s p b) s' (f_equal (default s) H) |}.

(** C18. A stored header is read back: for every format, when [StoreHeader]
    succeeds, and a V5 header has no more entries than the reader admits (the
    writer does not look: [StoreHeader_strands_V5]), [LoadHeader] returns a complete, sound header with the same
    metadata whose every byte has the same content, with an entry for every
    build the mapping names; in V4 and V5 the builds are those of the writer
    with their frame tables trimmed to the ranges the mapping reads. *)
Theorem StoreHeader_LoadHeader_roundtrip `{LZ4} `{Blobs St} (s s' : St) path h ms stored unc :
  sendable h ms → StoreHeader s path (Some h) = Ok (s', stored, unc) →
  (format_of (h_Metadata h) = Some V5 →
   len (live_rows (rows (h_Mapping h))) <= Z.min maxV5MappingEntries maxEntriesByMemory) →
  ∃ h' ms', LoadHeader s' path = Ok (h', stored) ∧ header_ok h' ms' ∧
    h_Metadata h' = h_Metadata h ∧ IncompletePendingUpload h' = false ∧
    (∀ x, 0 <= x → content ms' x = content ms x) ∧
    (∀ id, id ∈ m_builds (h_Mapping h') → is_Some (default ∅ (h_Builds h') !! id)) ∧
    (∀ id bd, format_of (h_Metadata h) ≠ Some V3 → sent_builds h ms id = Some bd →
       default ∅ (h_Builds h') !! id = Some bd).
Proof.
  intros Hsd Hs Hcap.
  destruct (StoreHeader_LoadHeader s s' path h ms stored unc Hsd Hs Hcap)
    as (h' & ms' & Hl & [] & Hb).
  exists h', ms'. by split_and!.
Qed.

Definition stored_example : Header :=
  mkHeader (mkMetadata 5 4096 16384 1 id_b id_a)
    (Some {[id_a := mkBuildData 8192 (replicate 32 7)
              (Some (mkFT CompressionZstd [mkFrame 0 0 4096 10; mkFrame 4096 10 4096 20;
                                           mkFrame 8192 30 4096 5]))]})
    compact_columns false.

Lemma stored_example_sendable : sendable stored_example compact_example.
Proof.
  split; try (apply (bool_decide_unpack _); vm_compute; exact I).
  destruct header_example_ok. by split.
Qed.

Lemma StoreHeader_LoadHeader_roundtrip_witness :
  ∃ s' stored unc h' ms',
    @StoreHeader copy_codec _ map_store ∅ "build/memfile.header" (Some stored_example) = Ok (s', stored, unc) ∧
    @LoadHeader copy_codec _ map_store s' "build/memfile.header" = Ok (h', stored) ∧
    header_ok h' ms'.
Proof.
  assert (Hs : ∃ r, @StoreHeader copy_codec _ map_store ∅ "build/memfile.header" (Some stored_example) = Ok r).
  { eexists. vm_compute. reflexivity. }
  destruct Hs as [[[s' stored] unc] Hs].
  destruct (@StoreHeader_LoadHeader_roundtrip copy_codec _ map_store ∅ s' "build/memfile.header"
    stored_example compact_example stored unc stored_example_sendable Hs) as (h' & ms' & Hl & Hok & _).
  - intros _. vm_compute. discriminate.
  - exists s', stored, unc, h', ms'. split; [exact Hs|]. split; [exact Hl|exact Hok].
Defined.

(** C19. The write path can strand a snapshot: a V5 header with more mapped
    entries than the reader's memory bound admits (6391320) passes the checks
    of [StoreHeader], which only bound the bytes of the block, and every load
    of the stored object fails. *)
Theorem StoreHeader_strands_V5 `{LZ4} `{Blobs St} (s s' : St) path h ms stored unc :
  sendable h ms → format_of (h_Metadata h) = Some V5 → Size (h_Metadata h) < 2 ^ 43 →
  Z.min maxV5MappingEntries maxEntriesByMemory < len (live_rows (rows (h_Mapping h))) →
  StoreHeader s path (Some h) = Ok (s', stored, unc) →
  LoadHeader s' path =
    Err (Serialization (MapCountTooLarge (len (live_rows (rows (h_Mapping h)))))).
Proof.
  intros Hsd Hf Hsz Hcap Hs. unfold StoreHeader in Hs.
  apply bind_ok in Hs as ([data n] & Hd & Hs). apply bind_ok in Hs as (s'' & Hp & [= <- <- <-]).
  destruct (blob_put path data s) as [s1|] eqn:Hput; [|done]. injection Hp as ->.
  assert (Hd' : store_bytes (Some h) = Ok (data, n)).
  { destruct (store_bytes (Some h)) as [[d k]|]; [|done]. by injection Hd as -> ->. }
  unfold LoadHeader. rewrite (blob_get_put _ _ _ _ Hput). cbn [from_option mbind result_bind].
  by rewrite (V5_load_rejected h ms data n Hsd Hf Hsz Hcap Hd').
Qed.

(** A 26 GB memory image whose 6391321 pages all read one stored page. *)
Definition stranded_pages : Z := 6391321.

Lemma stranded_stored :
  ∃ s' stored unc, @StoreHeader copy_codec _ map_store ∅ "p" (Some (big_header stranded_pages)) = Ok (s', stored, unc).
Proof.
  destruct (@big_stored stranded_pages ltac:(done) copy_codec) as (data & n & Hd); [by eexists|done|].
  unfold StoreHeader. rewrite Hd. by eexists _, _, _.
Qed.

Lemma StoreHeader_strands_V5_witness :
  ∃ s' stored unc e,
    @StoreHeader copy_codec _ map_store ∅ "p" (Some (big_header stranded_pages)) = Ok (s', stored, unc) ∧
    @LoadHeader copy_codec _ map_store s' "p" = Err (Serialization e).
Proof.
  assert (HN : 0 < stranded_pages < 2 ^ 30) by (split; reflexivity).
  assert (Hsz : Size (h_Metadata (big_header stranded_pages)) < 2 ^ 43) by reflexivity.
  assert (Hcap : Z.min maxV5MappingEntries maxEntriesByMemory <
    len (live_rows (rows (h_Mapping (big_header stranded_pages))))).
  { assert (Hr : rows (big_mapping stranded_pages) = big_rows stranded_pages) by apply zip_rows.
    cbn [h_Mapping big_header]. rewrite Hr, (big_live _ HN), (big_len _ HN). reflexivity. }
  destruct stranded_stored as (s' & stored & unc & Hs). exists s', stored, unc. eexists.
  split; [exact Hs|].
  exact (@StoreHeader_strands_V5 copy_codec _ map_store ∅ s' "p" (big_header stranded_pages)
           (big_entries stranded_pages) stored unc (big_sendable _ HN) eq_refl Hsz Hcap Hs).
Defined.
