(* ===== verification/Tracker.v ===== *)
(** * Tracker: the state of the blocks of a writable layer

    Models [sandbox/block/tracker.go] and [range.go].  Two bitmaps record
    which blocks hold data and which are known zero; every operation runs
    under the tracker's lock, so each is one step.  The specification is a map
    from block index to state; the invariant is that the bitmaps are disjoint,
    on which the cardinality tests of [Present] rely. *)

From S2P Require Import Prelude Bytes Bitmap Blocks.

(** ** [range.go] *)

Record Range := mkBlockRange { Start : Z; RSize : Z }.

Definition End (r : Range) : Z := i64 (Start r + RSize r).
Definition NewRange (start size : Z) : Range := mkBlockRange start size.
Definition NewRangeFromBlocks (startIdx numberOfBlocks blockSize : Z) : Range :=
  mkBlockRange (BlockOffset startIdx blockSize) (BlockOffset numberOfBlocks blockSize).
Definition BitsetRanges `{Bitmap B} (b : B) (blockSize : Z) : list Range :=
  (λ '(start, endExcl), NewRangeFromBlocks (i64 start) (i64 (i64 endExcl - i64 start)) blockSize)
    <$> bm_ranges b.
Definition GetSize (rs : list Range) : Z := foldl (λ size r, i64 (size + RSize r)) 0 rs.

(** ** [tracker.go] *)

Inductive State := NotPresent | SDirty | SZero.

#[global] Instance State_eq_dec : EqDecision State.
Proof. solve_decision. Defined.

Record Tracker (B : Type) := mkTracker { t_dirty : B; t_zero : B }.
Arguments mkTracker {B} _ _.
Arguments t_dirty {B} _.
Arguments t_zero {B} _.

Section tracker.
Context `{Bitmap B}.

Definition NewTracker : Tracker B := mkTracker bm_new bm_new.

Definition SetRange (start end_ : Z) (state : State) (t : Tracker B) : Tracker B :=
  if end_ <=? start then t
  else match state with
       | SDirty => mkTracker (bm_add_range start end_ (t_dirty t)) (bm_remove_range start end_ (t_zero t))
       | SZero => mkTracker (bm_remove_range start end_ (t_dirty t)) (bm_add_range start end_ (t_zero t))
       | NotPresent => mkTracker (bm_remove_range start end_ (t_dirty t)) (bm_remove_range start end_ (t_zero t))
       end.

Definition Get (t : Tracker B) (idx : Z) : State :=
  if bm_contains (t_dirty t) idx then SDirty
  else if bm_contains (t_zero t) idx then SZero
  else NotPresent.

Definition HasRange (t : Tracker B) (start end_ : Z) (state : State) : bool :=
  if end_ <=? start then end_ =? start
  else match state with
       | SDirty => bm_card_range start end_ (t_dirty t) =? end_ - start
       | SZero => bm_card_range start end_ (t_zero t) =? end_ - start
       | NotPresent => false
       end.

Definition Present (t : Tracker B) (start end_ : Z) : bool :=
  if end_ <=? start then end_ =? start
  else u64 (bm_card_range start end_ (t_dirty t) + bm_card_range start end_ (t_zero t)) =? end_ - start.

(** Clones are fresh values, so later steps do not change what was exported. *)
Definition Export (t : Tracker B) : B * B := (t_dirty t, t_zero t).

(** ** The invariant and the specification *)

Definition disjoint_states (t : Tracker B) : Prop :=
  ∀ i, bm_contains (t_dirty t) i = true → bm_contains (t_zero t) i = false.

Lemma NewTracker_disjoint : disjoint_states NewTracker.
Proof. intros i. cbn. by rewrite bm_contains_new. Qed.

Lemma SetRange_disjoint s e st t :
  is_u32 s → is_u32 e → disjoint_states t → disjoint_states (SetRange s e st t).
Proof.
  intros Hs He Hd. unfold SetRange. destruct (Z.leb_spec e s); [done|].
  intros i. specialize (Hd i). unfold_int.
  destruct st; cbn; rewrite ?bm_contains_add_range, ?bm_contains_remove_range by lia;
    destruct (in_range i (s, e)); cbn; auto; discriminate.
Qed.

(** A step sets the state of the range and of nothing else. *)
Lemma Get_SetRange s e st t i :
  is_u32 s → is_u32 e →
  Get (SetRange s e st t) i = if in_range i (s, e) then st else Get t i.
Proof.
  intros Hs He. unfold SetRange, in_range. cbn [fst snd]. unfold_int.
  destruct (Z.leb_spec e s).
  { destruct (Z.leb_spec s i), (Z.ltb_spec i e); try lia; done. }
  destruct st; unfold Get; cbn; rewrite ?bm_contains_add_range, ?bm_contains_remove_range by lia;
    unfold in_range; cbn [fst snd]; destruct ((s <=? i) && (i <? e)); cbn; done.
Qed.

Lemma Get_New i : Get NewTracker i = NotPresent.
Proof. unfold Get. cbn. by rewrite !bm_contains_new. Qed.

Lemma Get_dirty t i : Get t i = SDirty ↔ bm_contains (t_dirty t) i = true.
Proof. unfold Get. destruct (bm_contains (t_dirty t) i), (bm_contains (t_zero t) i); done. Qed.

Lemma Get_zero t i : disjoint_states t → Get t i = SZero ↔ bm_contains (t_zero t) i = true.
Proof.
  intros Hd. specialize (Hd i). unfold Get.
  destruct (bm_contains (t_dirty t) i), (bm_contains (t_zero t) i); try done; naive_solver.
Qed.

Lemma HasRange_spec t s e st :
  is_u32 s → is_u32 e → s <= e → disjoint_states t → st ≠ NotPresent →
  HasRange t s e st = true ↔ ∀ i, s <= i < e → Get t i = st.
Proof.
  intros Hs He Hse Hd Hst. unfold HasRange. unfold_int.
  destruct (Z.leb_spec e s); [split; [lia|]; intros _; lia|].
  destruct st; [done|..]; rewrite Z.eqb_eq, bm_card_range_count, countZ_all by lia;
    apply forall_proper; intros i; first [by rewrite Get_dirty | by rewrite Get_zero].
Qed.

(** The two cardinalities add up because no block is counted twice. *)
Lemma countZ_add f g s e :
  (∀ i, f i = true → g i = false) →
  countZ f s e + countZ g s e = countZ (λ i, f i || g i) s e.
Proof.
  intros Hfg. remember (Z.to_nat (e - s)) as n eqn:Hn. revert s Hn.
  induction n as [|n IH]; intros s Hn; [by rewrite !countZ_empty by lia|].
  rewrite !(countZ_step _ s) by lia. specialize (IH (s + 1) ltac:(lia)). specialize (Hfg s).
  destruct (f s), (g s); cbn; first [lia | by specialize (Hfg eq_refl)].
Qed.

Lemma Present_spec t s e :
  is_u32 s → is_u32 e → s <= e → disjoint_states t →
  Present t s e = true ↔ ∀ i, s <= i < e → Get t i ≠ NotPresent.
Proof.
  intros Hs He Hse Hd. unfold Present. unfold_int.
  destruct (Z.leb_spec e s); [split; [lia|]; intros _; lia|].
  rewrite !bm_card_range_count by lia. rewrite countZ_add by apply Hd.
  pose proof (countZ_bounds (λ i, bm_contains (t_dirty t) i || bm_contains (t_zero t) i) s e ltac:(lia)).
  rewrite u64_id by (unfold_int; lia). rewrite Z.eqb_eq, countZ_all by lia.
  apply forall_proper; intros i. unfold Get.
  destruct (bm_contains (t_dirty t) i), (bm_contains (t_zero t) i); cbn; naive_solver.
Qed.
End tracker.

(** ** Histories of the tracker *)

(** What any sequence of [SetRange] calls leaves behind: the state of the last
    call that covers the block. *)
Definition step_range : Type := Z * Z * State.
Definition run_tracker `{Bitmap B} (ops : list step_range) : Tracker B :=
  foldl (λ t '(s, e, st), SetRange s e st t) NewTracker ops.

Fixpoint last_state (ops : list step_range) (st0 : State) (i : Z) : State :=
  match ops with
  | [] => st0
  | (s, e, st) :: ops => last_state ops (if in_range i (s, e) then st else st0) i
  end.

Definition op_ok (o : step_range) : Prop := is_u32 o.1.1 ∧ is_u32 o.1.2.
#[global] Instance op_ok_dec o : Decision (op_ok o).
Proof. unfold op_ok. apply _. Defined.

Lemma run_from_spec `{Bitmap B} (ops : list step_range) t i :
  Forall op_ok ops →
  Get (foldl (λ t '(s, e, st), SetRange s e st t) t ops) i = last_state ops (Get t i) i ∧
  (disjoint_states t → disjoint_states (foldl (λ t '(s, e, st), SetRange s e st t) t ops)).
Proof.
  intros Hops. revert t. induction Hops as [|[[s e] st] ops [Hs He] Hops IH]; intros t; [done|].
  cbn in Hs, He. destruct (IH (SetRange s e st t)) as [IH1 IH2]. split.
  - cbn. by rewrite IH1, Get_SetRange.
  - intros Hd. apply IH2. by apply SetRange_disjoint.
Qed.

(** After any sequence of [SetRange] calls, [Get] returns the state of the
    last call that covers the block, no block is both dirty and zero, and the
    cardinality tests [HasRange] and [Present] decide what they say: every
    block of the range is in the given state, or has been observed at all. *)
Theorem Tracker_history `{Bitmap B} (ops : list step_range) s e :
  Forall op_ok ops → is_u32 s → is_u32 e → s <= e →
  let t := run_tracker (B:=B) ops in
  (∀ i, Get t i = last_state ops NotPresent i) ∧
  (∀ i, ¬ (bm_contains (t_dirty t) i = true ∧ bm_contains (t_zero t) i = true)) ∧
  (∀ st, st ≠ NotPresent →
     HasRange t s e st = true ↔ ∀ i, s <= i < e → last_state ops NotPresent i = st) ∧
  (Present t s e = true ↔ ∀ i, s <= i < e → last_state ops NotPresent i ≠ NotPresent).
Proof.
  intros Hops Hs He Hse t.
  assert (Hg : ∀ i, Get t i = last_state ops NotPresent i).
  { intros i. unfold t, run_tracker. destruct (run_from_spec ops (NewTracker (B:=B)) i Hops) as [E _].
    by rewrite E, Get_New. }
  assert (Hd : disjoint_states t) by (apply (run_from_spec ops _ 0 Hops), NewTracker_disjoint).
  split_and!; auto.
  - intros i [Hi Hz]. specialize (Hd i Hi). congruence.
  - intros st Hst. rewrite HasRange_spec by done. by setoid_rewrite Hg.
  - rewrite Present_spec by done. by setoid_rewrite Hg.
Qed.

Lemma Tracker_history_witness :
  let t := run_tracker (B:=gset Z) [(0, 8, SDirty); (2, 4, SZero); (3, 5, NotPresent)] in
  (Get t 1, Get t 2, Get t 3, Present t 0 3, Present t 0 4) = (SDirty, SZero, NotPresent, true, false) ∧
  Get t 7 = last_state [(0, 8, SDirty); (2, 4, SZero); (3, 5, NotPresent)] NotPresent 7.
Proof.
  split; [vm_compute; reflexivity|].
  apply (Tracker_history (B:=gset Z) [(0, 8, SDirty); (2, 4, SZero); (3, 5, NotPresent)] 0 3).
  - apply (bool_decide_unpack _). vm_compute. exact I.
  - split; vm_compute; congruence.
  - split; vm_compute; congruence.
  - vm_compute. congruence.
Defined.
