(* ===== verification/Regions.v ===== *)
(** * Regions: guest memory in the address space of the hypervisor

    Models [sandbox/uffd/memory/region.go] and [mapping.go]: the regions that
    Firecracker reports, and the two directions between an offset in the
    memory of the guest and a host virtual address.  A [uintptr] has 64 bits. *)

From S2P Require Import Prelude Tracker.

Record Region := mkRegion {
  BaseHostVirtAddr : Z;
  Size : Z;
  Offset : Z;
  RegionPageSize : Z
}.

Definition endOffset (r : Region) : Z := i64 (u64 (Offset r + Size r)).
Definition endHostVirtAddr (r : Region) : Z := u64 (BaseHostVirtAddr r + Size r).
Definition shiftedOffset (r : Region) (addr : Z) : Z := i64 (u64 (u64 (addr - BaseHostVirtAddr r) + Offset r)).
Definition shiftedHostVirtAddr (r : Region) (off : Z) : Z := u64 (u64 (u64 off + BaseHostVirtAddr r) - Offset r).

Inductive memory_err :=
| AddressNotFoundError (hostVirtAddr : Z)
| OffsetNotFoundError (offset : Z)
| MissingFields (i : Z).

(** What the Firecracker API reports: every field may be missing. *)
Record GuestMemoryRegionMapping := mkGuestRegion {
  g_BaseHostVirtAddr : option Z;
  g_Offset : option Z;
  g_PageSize : option Z;
  g_Size : option Z
}.

Fixpoint from_fc (i : Z) (regions : list GuestMemoryRegionMapping) : result memory_err (list Region) :=
  match regions with
  | [] => Ok []
  | g :: regions =>
      match g_BaseHostVirtAddr g, g_Size g, g_Offset g, g_PageSize g with
      | Some b, Some s, Some o, Some p =>
          rs ← from_fc (i + 1) regions; Ok (mkRegion (u64 b) (u64 s) (u64 o) (u64 p) :: rs)
      | _, _, _, _ => Err (MissingFields i)
      end
  end.

Definition NewMappingFromFc (regions : list GuestMemoryRegionMapping) : result memory_err (list Region) := from_fc 0 regions.

(** The loops over [m.Regions] return at the first region that contains the
    address or the offset. *)
Definition has_addr (a : Z) (r : Region) : bool := (BaseHostVirtAddr r <=? a) && (a <? endHostVirtAddr r).
Definition has_offset (off : Z) (r : Region) : bool := (i64 (Offset r) <=? off) && (off <? endOffset r).

Definition GetOffset (m : list Region) (hostVirtAddr : Z) : result memory_err Z :=
  match find (has_addr hostVirtAddr) m with
  | Some r => Ok (shiftedOffset r hostVirtAddr)
  | None => Err (AddressNotFoundError hostVirtAddr)
  end.

Definition getHostVirtRegion (m : list Region) (off : Z) : result memory_err Region :=
  from_option (OffsetNotFoundError off) (find (has_offset off) m).

Definition GetHostVirtAddr (m : list Region) (off : Z) : result memory_err Z :=
  region ← getHostVirtRegion m off; Ok (shiftedHostVirtAddr region off).

Fixpoint ranges_loop (fuel : nat) (m : list Region) (off size n : Z) : result memory_err (list Range) :=
  match fuel with
  | O => Ok []
  | S fuel =>
      if n <? size then
        let currentOff := i64 (off + n) in
        region ← getHostVirtRegion m currentOff;
        let start := shiftedHostVirtAddr region currentOff in
        let remainingSize := Z.min (i64 (u64 (endHostVirtAddr region - start))) (i64 (size - n)) in
        let r := NewRange (i64 start) remainingSize in
        rs ← ranges_loop fuel m off size (i64 (n + RSize r));
        Ok (r :: rs)
      else Ok []
  end.

(** One range for each region touched, and one more turn to stop. *)
Definition GetHostVirtRanges (m : list Region) (off size : Z) : result memory_err (list Range) :=
  ranges_loop (S (length m)) m off size 0.

(** ** Regions as Firecracker lays them out *)

Definition region_ok (r : Region) : Prop :=
  0 <= BaseHostVirtAddr r ∧ 0 <= Size r ∧ 0 <= Offset r ∧
  BaseHostVirtAddr r + Size r < 2 ^ 63 ∧ Offset r + Size r < 2 ^ 63.

(** The byte of the guest at [off] is at the address [a]. *)
Definition maps (r : Region) (off a : Z) : Prop :=
  Offset r <= off < Offset r + Size r ∧ a - BaseHostVirtAddr r = off - Offset r.

(** No two regions share a byte of the guest or of the host. *)
Definition apart (r s : Region) : Prop :=
  (Offset r + Size r <= Offset s ∨ Offset s + Size s <= Offset r) ∧
  (BaseHostVirtAddr r + Size r <= BaseHostVirtAddr s ∨ BaseHostVirtAddr s + Size s <= BaseHostVirtAddr r).

Record regions_ok (m : list Region) : Prop := {
  ro_ok : Forall region_ok m;
  ro_apart : ForallOrdPairs apart m
}.

Lemma apart_sym r s : apart r s → apart s r.
Proof. unfold apart. tauto. Qed.

Lemma pairs_apart m r s : ForallOrdPairs apart m → r ∈ m → s ∈ m → r = s ∨ apart r s.
Proof.
  intros Hm. induction Hm as [|x m Hx Hm IH]; [by intros ?%elem_of_nil|].
  rewrite Forall_forall in Hx. intros [->|Hr]%elem_of_cons [->|Hs]%elem_of_cons; [by left|right; by apply Hx|right; by apply apart_sym, Hx|by apply IH].
Qed.

Lemma has_offset_spec r off : region_ok r → has_offset off r = true ↔ Offset r <= off < Offset r + Size r.
Proof.
  intros (? & ? & ? & ? & ?). unfold has_offset, endOffset. unwrap. rewrite andb_true_iff, Z.leb_le, Z.ltb_lt. done.
Qed.

Lemma has_addr_spec r a : region_ok r → has_addr a r = true ↔ BaseHostVirtAddr r <= a < BaseHostVirtAddr r + Size r.
Proof.
  intros (? & ? & ? & ? & ?). unfold has_addr, endHostVirtAddr. unwrap. rewrite andb_true_iff, Z.leb_le, Z.ltb_lt. done.
Qed.

Lemma find_unique {A} (f : A → bool) l x : x ∈ l → f x = true → (∀ y, y ∈ l → f y = true → x = y) → find f l = Some x.
Proof.
  intros Hx Hf Hu. destruct (find f l) as [y|] eqn:E.
  - apply find_some in E as [Hy Hfy]. f_equal. symmetry. apply Hu; [by apply list_elem_of_In|done].
  - rewrite (find_none f l E x) in Hf; [done|]. by apply list_elem_of_In.
Qed.

Section regions.
Context (m : list Region).
Hypothesis Hm : regions_ok m.

Lemma region_in r : r ∈ m → region_ok r.
Proof using Hm. intros Hr. pose proof (ro_ok _ Hm) as Hall. rewrite Forall_forall in Hall. by apply Hall. Qed.

Lemma find_region f r (P : Region → Prop) :
  (∀ s, s ∈ m → f s = true ↔ P s) → (∀ s t, P s → P t → ¬ apart s t) → find f m = Some r ↔ r ∈ m ∧ P r.
Proof using Hm.
  intros Hf Hu. split.
  - intros [Hin Ht]%find_some. apply list_elem_of_In in Hin. split; [done|]. by apply Hf.
  - intros [Hin HP]. apply find_unique; [done|by apply Hf|]. intros s Hs Hfs.
    destruct (pairs_apart m r s (ro_apart _ Hm) Hin Hs) as [?|Ha]; [done|]. destruct (Hu r s); [done|by apply Hf|done].
Qed.

Lemma find_offset off r : find (has_offset off) m = Some r ↔ r ∈ m ∧ Offset r <= off < Offset r + Size r.
Proof using Hm.
  apply (find_region _ _ (λ r, Offset r <= off < Offset r + Size r)); [intros s Hs; by apply has_offset_spec, region_in|]. intros s t Hs Ht [? _]. lia.
Qed.

Lemma find_addr a r : find (has_addr a) m = Some r ↔ r ∈ m ∧ BaseHostVirtAddr r <= a < BaseHostVirtAddr r + Size r.
Proof using Hm.
  apply (find_region _ _ (λ r, BaseHostVirtAddr r <= a < BaseHostVirtAddr r + Size r)); [intros s Hs; by apply has_addr_spec, region_in|]. intros s t Hs Ht [_ ?]. lia.
Qed.

Lemma shifted_addr r off : region_ok r → Offset r <= off < Offset r + Size r →
  shiftedHostVirtAddr r off = BaseHostVirtAddr r + (off - Offset r).
Proof using. intros (? & ? & ? & ? & ?) ?. unfold shiftedHostVirtAddr. unwrap. lia. Qed.

Lemma shifted_offset r a : region_ok r → BaseHostVirtAddr r <= a < BaseHostVirtAddr r + Size r →
  shiftedOffset r a = Offset r + (a - BaseHostVirtAddr r).
Proof using. intros (? & ? & ? & ? & ?) ?. unfold shiftedOffset. unwrap. lia. Qed.

Lemma GetHostVirtAddr_maps off a : GetHostVirtAddr m off = Ok a ↔ ∃ r, r ∈ m ∧ maps r off a.
Proof using Hm.
  unfold GetHostVirtAddr, getHostVirtRegion. split.
  - destruct (find (has_offset off) m) as [r|] eqn:E; [|done]. cbn. intros [= <-]. apply find_offset in E as [Hr Ho].
    exists r. split; [done|]. split; [done|]. rewrite shifted_addr by (done || by apply region_in). lia.
  - intros (r & Hr & Ho & Ha). rewrite (proj2 (find_offset off r)) by done. cbn. rewrite shifted_addr by (done || by apply region_in).
    f_equal. lia.
Qed.

Lemma GetOffset_maps off a : GetOffset m a = Ok off ↔ ∃ r, r ∈ m ∧ maps r off a.
Proof using Hm.
  unfold GetOffset. split.
  - destruct (find (has_addr a) m) as [r|] eqn:E; [|done]. intros [= <-]. apply find_addr in E as [Hr Ho].
    exists r. split; [done|]. rewrite shifted_offset by (done || by apply region_in). split; lia.
  - intros (r & Hr & Ho & Ha). rewrite (proj2 (find_addr a r)) by (split; [done|lia]).
    rewrite shifted_offset by (lia || by apply region_in). f_equal. lia.
Qed.

Lemma GetHostVirtAddr_err off e : GetHostVirtAddr m off = Err e → e = OffsetNotFoundError off.
Proof using.
  unfold GetHostVirtAddr, getHostVirtRegion. destruct (find _ _); [done|]. by intros [= <-].
Qed.

(** ** Ranges of addresses *)

Definition range_addrs (rs : list Range) : list Z := concat ((λ r, seqZ (Start r) (RSize r)) <$> rs).

(** Regions not yet behind an offset: what the loop uses up. *)
Definition ahead (off : Z) : nat := length (filter (λ r, off < Offset r + Size r) m).

Lemma ahead_drop off r off' : r ∈ m → off < Offset r + Size r → Offset r + Size r <= off' → off <= off' →
  (ahead off' < ahead off)%nat.
Proof using.
  intros Hr Hlt Hle Hoo. unfold ahead. clear Hm. induction m as [|s l IH]; [by apply elem_of_nil in Hr|].
  assert (Hmono : (length (filter (λ r, (off' < Offset r + Size r)%Z) l) <= length (filter (λ r, (off < Offset r + Size r)%Z) l))%nat).
  { clear -Hoo. induction l as [|t l IH]; [done|]. rewrite !filter_cons. repeat case_decide; cbn; lia. }
  rewrite !filter_cons. apply elem_of_cons in Hr as [->|Hr].
  - rewrite decide_False by lia. rewrite decide_True by done. cbn. lia.
  - specialize (IH Hr). repeat case_decide; cbn; lia.
Qed.

Lemma ranges_loop_spec fuel off size n : (ahead (off + n) < fuel)%nat → 0 <= off → 0 <= n → 0 <= size → off + size < 2 ^ 63 →
  match ranges_loop fuel m off size n with
  | Ok rs => Forall (λ r, 0 < RSize r) rs ∧ GetHostVirtAddr m <$> seqZ (off + n) (size - n) = Ok <$> range_addrs rs
  | Err e => ∃ x, off + n <= x < off + size ∧ e = OffsetNotFoundError x ∧ GetHostVirtAddr m x = Err e ∧
               ∀ y, off + n <= y < x → is_ok (GetHostVirtAddr m y) = true
  end.
Proof using Hm.
  revert n. induction fuel as [|fuel IH]; intros n Hf Ho Hn Hs Hos; [lia|]. cbn [ranges_loop].
  destruct (Z.ltb_spec n size) as [Hlt|Hge]; [|split; [constructor|]; by rewrite seqZ_nil by lia].
  rewrite (i64_id (off + n)) by ilia. unfold getHostVirtRegion. destruct (find (has_offset (off + n)) m) as [r|] eqn:Er; cbn.
  2: { exists (off + n). split_and!; [lia|lia|done| |intros y Hy; lia]. unfold GetHostVirtAddr, getHostVirtRegion. by rewrite Er. }
  apply find_offset in Er as [Hr Hin]. pose proof (region_in r Hr) as Hok. pose proof Hok as (H1 & H2 & H3 & H4 & H5).
  rewrite shifted_addr by done. set (start := BaseHostVirtAddr r + (off + n - Offset r)).
  assert (Hst : start = BaseHostVirtAddr r + (off + n - Offset r)) by done.
  unfold endHostVirtAddr. rewrite (u64_id (_ + Size r)) by ilia. rewrite u64_id, !i64_id by (unfold_int; unfold_int; lia).
  set (k := Z.min (BaseHostVirtAddr r + Size r - start) (size - n)).
  assert (Hk : k = Z.min (Offset r + Size r - (off + n)) (size - n)) by (unfold k; lia).
  assert (Hone : GetHostVirtAddr m <$> seqZ (off + n) k = Ok <$> seqZ start k).
  { apply list_eq. intros j. rewrite !list_lookup_fmap. destruct (seqZ (off + n) k !! j) as [x|] eqn:Ex; cbn.
    - apply lookup_seqZ in Ex as [-> Hj]. assert (E2 : seqZ start k !! j = Some (start + Z.of_nat j)) by (by apply lookup_seqZ).
      rewrite E2. cbn. f_equal. apply GetHostVirtAddr_maps. exists r. split; [done|]. split; lia.
    - apply lookup_ge_None in Ex. rewrite length_seqZ in Ex. by rewrite lookup_ge_None_2 by (rewrite length_seqZ; lia). }
  assert (Hrec : (ahead (off + (n + k)) < fuel)%nat ∨ n + k = size).
  { destruct (decide (n + k = size)); [by right|left]. pose proof (ahead_drop (off + n) r (off + (n + k)) Hr). lia. }
  destruct Hrec as [Hrec|Hend].
  - specialize (IH (n + k) Hrec ltac:(lia) ltac:(lia) Hs Hos). destruct (ranges_loop fuel m off size (n + k)) as [rs|e]; cbn.
    + destruct IH as [Hpos Heq]. split; [constructor; [cbn; lia|done]|]. unfold range_addrs. cbn.
      replace (size - n) with (k + (size - (n + k))) by lia. rewrite seqZ_app, !fmap_app by lia. rewrite Hone.
      f_equal. rewrite <- Z.add_assoc. exact Heq.
    + destruct IH as (x & Hx & He & Hg & Hy). exists x. split_and!; [lia|lia|done|done|]. intros y Hy'.
      destruct (decide (y < off + (n + k))) as [Hlo|Hhi]; [|apply Hy; lia].
      assert (Hg' : GetHostVirtAddr m y = Ok (start + (y - (off + n)))) by (apply GetHostVirtAddr_maps; exists r; split; [done|split; lia]).
      by rewrite Hg'.
  - assert (El : ranges_loop fuel m off size (n + k) = Ok []).
    { destruct fuel; [done|]. cbn. destruct (Z.ltb_spec (n + k) size); [lia|done]. }
    rewrite El. cbn. split; [constructor; [cbn; lia|done]|]. unfold range_addrs. cbn. rewrite app_nil_r.
    replace (size - n) with k by lia. done.
Qed.

(** Each range lies in one region, and is cut where regions are. *)
Lemma ranges_loop_inside d fuel off size n rs : 0 < d →
  (∀ g, g ∈ m → Offset g mod d = 0 ∧ Size g mod d = 0) → off mod d = 0 → size mod d = 0 → n mod d = 0 →
  0 <= off → 0 <= n → 0 <= size → off + size < 2 ^ 63 → ranges_loop fuel m off size n = Ok rs →
  Forall (λ r, (∃ g, g ∈ m ∧ BaseHostVirtAddr g <= Start r ∧ Start r + RSize r <= BaseHostVirtAddr g + Size g) ∧ RSize r mod d = 0) rs.
Proof using Hm.
  intros Hd Hg Ho Hsz. revert n rs. induction fuel as [|fuel IH]; intros n rs Hn Ho0 Hn0 Hs0 Hlt; cbn [ranges_loop]; [by intros [= <-]|].
  destruct (Z.ltb_spec n size) as [Hns|]; [|by intros [= <-]].
  rewrite (i64_id (off + n)) by ilia. unfold getHostVirtRegion. destruct (find (has_offset (off + n)) m) as [r|] eqn:Er; cbn; [|done].
  apply find_offset in Er as [Hr Hin]. pose proof (region_in r Hr) as Hok. pose proof Hok as (H1 & H2 & H3 & H4 & H5).
  rewrite shifted_addr by done. set (start := BaseHostVirtAddr r + (off + n - Offset r)).
  assert (Hst : start = BaseHostVirtAddr r + (off + n - Offset r)) by done.
  unfold endHostVirtAddr. rewrite (u64_id (_ + Size r)) by ilia. rewrite u64_id, !i64_id by (unfold_int; unfold_int; lia).
  set (k := Z.min (BaseHostVirtAddr r + Size r - start) (size - n)).
  assert (Hkm : k mod d = 0).
  { destruct (Hg r Hr) as [G1 G2]. unfold k. apply Z.mod_divide in G1, G2, Ho, Hsz, Hn; try lia.
    apply Z.mod_divide; [lia|]. destruct (Z.min_spec (BaseHostVirtAddr r + Size r - start) (size - n)) as [[_ ->]|[_ ->]].
    - rewrite Hst. replace (BaseHostVirtAddr r + Size r - (BaseHostVirtAddr r + (off + n - Offset r))) with (Size r - (off + n - Offset r)) by lia.
      by repeat (apply Z.divide_sub_r || apply Z.divide_add_r).
    - by apply Z.divide_sub_r. }
  destruct (ranges_loop fuel m off size (n + k)) as [rs'|] eqn:El; cbn; [|done]. intros [= <-]. constructor.
  - split; [|done]. exists r. cbn. split_and!; [done|lia|lia].
  - apply (IH (n + k)); try done; [|lia]. by rewrite Z.add_mod, Hn, Hkm by lia.
Qed.

Lemma ahead_all off : (ahead off <= length m)%nat.
Proof using. apply length_filter. Qed.
End regions.

(** Memory of the guest and of the host.  Over regions that do not share a
    byte, [GetOffset] and [GetHostVirtAddr] are inverse of each other; and
    [GetHostVirtRanges] ends, and returns non-empty ranges whose addresses,
    one after another, are those of the bytes asked for in order, or the error
    of the first byte that no region holds. *)
Theorem GetHostVirtRanges_exact m off size :
  regions_ok m → 0 <= off → 0 <= size → off + size < 2 ^ 63 →
  (∀ o a, GetHostVirtAddr m o = Ok a ↔ GetOffset m a = Ok o) ∧
  match GetHostVirtRanges m off size with
  | Ok rs => Forall (λ r, 0 < RSize r) rs ∧ GetHostVirtAddr m <$> seqZ off size = Ok <$> range_addrs rs
  | Err e => ∃ x, off <= x < off + size ∧ e = OffsetNotFoundError x ∧ GetHostVirtAddr m x = Err e ∧
               ∀ y, off <= y < x → is_ok (GetHostVirtAddr m y) = true
  end.
Proof.
  intros Hm Ho Hs Hos. split; [intros o a; by rewrite GetHostVirtAddr_maps, GetOffset_maps|].
  pose proof (ahead_all m (off + 0)).
  pose proof (ranges_loop_spec m Hm (S (length m)) off size 0 ltac:(lia) Ho ltac:(lia) Hs Hos) as Hl.
  rewrite Z.add_0_r, Z.sub_0_r in Hl. exact Hl.
Qed.

(** A hole between two regions on the host, none in the guest. *)
Definition regions_example : list Region := [mkRegion 4096 8 0 4; mkRegion 8192 8 8 4].

Lemma regions_example_ok : regions_ok regions_example.
Proof.
  split; [repeat constructor; cbn; lia|]. repeat constructor; cbn; lia.
Qed.

Lemma GetHostVirtRanges_exact_witness :
  GetHostVirtRanges regions_example 6 4 = Ok [NewRange 4102 2; NewRange 8192 2] ∧
  GetHostVirtAddr regions_example <$> seqZ 6 4 = Ok <$> [4102; 4103; 8192; 8193].
Proof.
  destruct (GetHostVirtRanges_exact regions_example 6 4 regions_example_ok) as [_ Hr]; [lia..|].
  split; [reflexivity|]. exact (proj2 Hr).
Defined.
