(* ===== verification/Uffd.v ===== *)
(** * Uffd: the page faults of a resumed sandbox

    Models [sandbox/uffd/userfaultfd]: the loop that reads the events of the
    kernel ([Serve]), the goroutine of each fault ([faultPage]), [Prefault],
    the deferred faults ([deferred.go]), [ExportPageStates], [Close]; with
    [block/prefetch_tracker.go] and [Uffd.DiffMetadata] of [uffd/uffd.go].

    The answers of the kernel are not computed: every [ioctl] may give any of
    the results its manual page names, with the effect documented there.  The
    guest (faults, writes, memory given back), the kernel and the goroutines
    interleave in any order: one step is one system call, one critical section
    of the handler, or one move of the guest.  [UFFDIO_WAKE] fails only on a
    range that is not made of pages, which those of the handler are, and is
    taken to succeed; the handler's recovery of panics, its timers, traces and
    statistics are left out. *)

From stdpp Require Import relations.
From S2P Require Import Prelude Bytes Bitmap Blocks Header Tracker Regions.

(** ** [fd.go] *)

Definition UFFD_PAGEFAULT_FLAG_WRITE : Z := 1.
Definition UFFD_PAGEFAULT_FLAG_WP : Z := 2.
Definition UFFD_PAGEFAULT_FLAG_MINOR : Z := 4.

Record UffdPagefault := mkFault { pf_flags : Z; pf_address : Z }.

Definition has_flag (pf : UffdPagefault) (flag : Z) : bool := negb (Z.land (pf_flags pf) flag =? 0).

(** What an [ioctl] returns: an error, or the count the kernel wrote. *)
Inductive errno := EEXIST | ESRCH | EAGAIN | EOther.
Inductive ioctl := Errno (e : errno) | Done (n : Z).

Definition errno_of (n : Z) : errno :=
  if n =? 17 then EEXIST else if n =? 3 then ESRCH else if n =? 11 then EAGAIN else EOther.

Definition classifyCopyResult (bytesCopied pagesize : Z) : option errno :=
  if bytesCopied <? 0 then Some (errno_of (- bytesCopied))
  else if negb (bytesCopied =? pagesize) then Some EAGAIN
  else None.

Definition fd_copy (pagesize : Z) (a : ioctl) : option errno :=
  match a with Errno e => Some e | Done n => classifyCopyResult n pagesize end.
Definition fd_zero (pagesize : Z) (a : ioctl) : option errno :=
  match a with Errno e => Some e | Done n => if negb (n =? pagesize) then Some EOther else None end.

(** ** [deferred.go] *)

(** [byAddr] points into the queue: an upgrade is seen there. *)
Record deferredFaults := mkDeferred { d_pf : list UffdPagefault; d_byAddr : gmap Z nat }.

Definition no_deferred : deferredFaults := mkDeferred [] ∅.

Definition push (pf : UffdPagefault) (d : deferredFaults) : deferredFaults :=
  match d_byAddr d !! pf_address pf with
  | Some k =>
      if has_flag pf UFFD_PAGEFAULT_FLAG_WRITE
      then mkDeferred (alter (λ e, mkFault (Z.lor (pf_flags e) UFFD_PAGEFAULT_FLAG_WRITE) (pf_address e)) k (d_pf d)) (d_byAddr d)
      else d
  | None => mkDeferred (d_pf d ++ [pf]) (<[pf_address pf := length (d_pf d)]> (d_byAddr d))
  end.

Definition drain (d : deferredFaults) : list UffdPagefault * deferredFaults := (d_pf d, no_deferred).

(** ** [prefetch_tracker.go] *)

Inductive AccessType := Read | Write | Prefetch.
#[global] Instance AccessType_eq_dec : EqDecision AccessType.
Proof. solve_decision. Defined.

Record PrefetchBlockEntry := mkEntry { e_Index : Z; e_Order : Z; e_AccessType : AccessType }.

Record PrefetchTracker := mkPrefetch {
  pt_blockSize : Z;
  blockEntries : gmap Z PrefetchBlockEntry;
  orderCounter : Z;
  isTracking : bool
}.

Definition NewPrefetchTracker (blockSize : Z) : PrefetchTracker := mkPrefetch blockSize ∅ 1 true.

Definition pAdd (off : Z) (accessType : AccessType) (t : PrefetchTracker) : PrefetchTracker :=
  if isTracking t then
    let idx := u64 (BlockIdx off (pt_blockSize t)) in
    match blockEntries t !! idx with
    | Some _ => t
    | None => mkPrefetch (pt_blockSize t) (<[idx := mkEntry idx (orderCounter t) accessType]> (blockEntries t))
                (u64 (orderCounter t + 1)) true
    end
  else t.

Definition PrefetchData (t : PrefetchTracker) : PrefetchTracker * gmap Z PrefetchBlockEntry :=
  (mkPrefetch (pt_blockSize t) (blockEntries t) (orderCounter t) false, blockEntries t).

(** ** The page of a fault: [faultPage] *)

Inductive faultOutcome := faultInstalled | faultAlreadyPresent | faultDeferred | faultDiscarded.

(** The branch of the [switch] on the source, the page size and the access. *)
Inductive plan := ZeroProtect | ZeroPage | CopyEmpty | CopySource.

Definition fault_plan (pageSize : Z) (nosource : bool) (accessType : AccessType) : plan :=
  if nosource && (pageSize =? PageSize) && bool_decide (accessType = Read) then ZeroProtect
  else if nosource && (pageSize =? PageSize) && bool_decide (accessType = Write) then ZeroPage
  else if nosource && (pageSize =? HugepageSize) then CopyEmpty
  else CopySource.

Definition sliceMaxRetries : nat := 3.

(** The reads of the source with their retries: each answer is the bytes read
    or an error, and whether the context was cancelled by then. *)
Fixpoint fetch_page (attempts : nat) (pageSize : Z) (answers : list (option bytes * bool)) : option bytes :=
  match attempts, answers with
  | S k, (r, cancelled) :: answers =>
      let again := if (k =? 0)%nat || cancelled then None else fetch_page k pageSize answers in
      match r with
      | Some b => if len b =? pageSize then Some b else again
      | None => again
      end
  | _, _ => None
  end.

(** The write-protection an install asks for. *)
Definition copy_wp (accessType : AccessType) : bool := bool_decide (accessType = Read).

(** ** Goroutines *)

Inductive job := JFault (pf : UffdPagefault) | JPrefault (data : bytes).

(** Where a goroutine is.  From [Looked] to its return it holds the read lock
    of [settleRequests]. *)
Inductive phase :=
| Starting
| Looked
| Zeroed                        (** zero page in, not yet protected *)
| Unprotected (e : errno)       (** the protection failed; before the wake *)
| Protected                     (** before the wake *)
| Exists_                       (** already mapped; before the wake *)
| Result (o : faultOutcome)
| Pushed                        (** deferred; before [signalWakeup] *)
| Returned
| Errored.

Record task := mkTask {
  t_job : job;
  t_addr : Z;
  t_off : Z;
  t_access : AccessType;
  t_nosource : bool;
  t_phase : phase
}.

Definition at_phase (t : task) (p : phase) : task :=
  mkTask (t_job t) (t_addr t) (t_off t) (t_access t) (t_nosource t) p.

Definition holding (p : phase) : bool :=
  match p with Starting | Returned | Errored => false | _ => true end.
Definition live (t : task) : bool := match t_phase t with Returned | Errored => false | _ => true end.
Definition is_fault (t : task) : bool := match t_job t with JFault _ => true | JPrefault _ => false end.

Definition maxRequestsInProgress : Z := 4096.

(** [Serve]: waiting in [poll]; reading events, under [readSerial], with what
    was read; before the deferred faults are taken; spawning goroutines. *)
Inductive loop :=
| Polling
| Reading (removes : list (Z * Z)) (pagefaults : list UffdPagefault)
| Draining (pagefaults : list UffdPagefault)
| Dispatching (pagefaults : list UffdPagefault)
| Stopped (failed : bool).

Record Userfaultfd (B : Type) := mkUffd {
  u_tracker : Tracker B;
  u_prefetch : PrefetchTracker;
  u_deferred : deferredFaults;
  u_wakeup : bool;               (** a byte in the wakeup pipe *)
  u_exit : bool;                 (** the exit was signalled *)
  u_closed : bool;
  u_loop : loop;
  u_tasks : list task
}.
Arguments mkUffd {B} _ _ _ _ _ _ _ _.
Arguments u_tracker {B} _.
Arguments u_prefetch {B} _.
Arguments u_deferred {B} _.
Arguments u_wakeup {B} _.
Arguments u_exit {B} _.
Arguments u_closed {B} _.
Arguments u_loop {B} _.
Arguments u_tasks {B} _.

(** The kernel and the guest: the pages of the guest that are mapped, the
    events not yet read, the threads blocked on a page, the ranges being
    discarded after their event was read; and ghosts: the memory the guest
    expects, the pages with a write that faulted and was not carried out yet,
    and whether the process was seen to be gone. *)
Record page := mkPage { p_data : bytes; p_wp : bool }.

Record kernel := mkKernel {
  k_pages : gmap Z page;
  k_faults : list UffdPagefault;
  k_waiting : list Z;
  k_removes : list (Z * Z);
  k_zapping : list (Z * Z);
  k_mem : Z → bytes;
  k_unwritten : gset Z;
  k_gone : bool
}.

Inductive uffd_err := NoRegions | UnsupportedPageSize (pageSize : Z) | PageSizeMismatch.

Definition NewUserfaultfdFromFd `{Bitmap B} (m : list Region) : result uffd_err (Userfaultfd B) :=
  match m with
  | [] => Err NoRegions
  | r0 :: rest =>
      let pageSize := RegionPageSize r0 in
      if negb (pageSize =? PageSize) && negb (pageSize =? HugepageSize) then Err (UnsupportedPageSize pageSize)
      else if existsb (λ r, negb (RegionPageSize r =? pageSize)) rest then Err PageSizeMismatch
      else Ok (mkUffd NewTracker (NewPrefetchTracker (i64 pageSize)) no_deferred false false false Polling [])
  end.

Section uffd.
Context {B : Type} `{Bitmap B}.
Notation Userfaultfd := (Userfaultfd B).

Record sys := mkSys { sh : Userfaultfd; sk : kernel }.

Definition with_tasks (h : Userfaultfd) (ts : list task) : Userfaultfd :=
  mkUffd (u_tracker h) (u_prefetch h) (u_deferred h) (u_wakeup h) (u_exit h) (u_closed h) (u_loop h) ts.
Definition with_loop (h : Userfaultfd) (l : loop) : Userfaultfd :=
  mkUffd (u_tracker h) (u_prefetch h) (u_deferred h) (u_wakeup h) (u_exit h) (u_closed h) l (u_tasks h).
Definition with_tracker (h : Userfaultfd) (t : Tracker B) : Userfaultfd :=
  mkUffd t (u_prefetch h) (u_deferred h) (u_wakeup h) (u_exit h) (u_closed h) (u_loop h) (u_tasks h).
Definition with_prefetch (h : Userfaultfd) (t : PrefetchTracker) : Userfaultfd :=
  mkUffd (u_tracker h) t (u_deferred h) (u_wakeup h) (u_exit h) (u_closed h) (u_loop h) (u_tasks h).
Definition with_deferred (h : Userfaultfd) (d : deferredFaults) : Userfaultfd :=
  mkUffd (u_tracker h) (u_prefetch h) d (u_wakeup h) (u_exit h) (u_closed h) (u_loop h) (u_tasks h).
Definition with_wakeup (h : Userfaultfd) (b : bool) : Userfaultfd :=
  mkUffd (u_tracker h) (u_prefetch h) (u_deferred h) b (u_exit h) (u_closed h) (u_loop h) (u_tasks h).
Definition with_exit (h : Userfaultfd) (b : bool) : Userfaultfd :=
  mkUffd (u_tracker h) (u_prefetch h) (u_deferred h) (u_wakeup h) b (u_closed h) (u_loop h) (u_tasks h).
Definition with_closed (h : Userfaultfd) : Userfaultfd :=
  mkUffd (u_tracker h) (u_prefetch h) (u_deferred h) (u_wakeup h) (u_exit h) true (u_loop h) (u_tasks h).
Definition with_task (h : Userfaultfd) (n : nat) (t : task) : Userfaultfd := with_tasks h (<[n := t]> (u_tasks h)).

Definition with_pages (k : kernel) (g : gmap Z page) : kernel :=
  mkKernel g (k_faults k) (k_waiting k) (k_removes k) (k_zapping k) (k_mem k) (k_unwritten k) (k_gone k).
Definition with_events (k : kernel) (fs : list UffdPagefault) (rs zs : list (Z * Z)) : kernel :=
  mkKernel (k_pages k) fs (k_waiting k) rs zs (k_mem k) (k_unwritten k) (k_gone k).
Definition with_gone (k : kernel) (b : bool) : kernel :=
  mkKernel (k_pages k) (k_faults k) (k_waiting k) (k_removes k) (k_zapping k) (k_mem k) (k_unwritten k) b.

Context (ma : list Region) (ps : Z) (src : Z → bytes).

Definition zeros : bytes := replicate (Z.to_nat ps) 0.

(** The index of a page, as the handler computes it; the page of an address;
    the pages of a range of addresses. *)
Definition page_idx (off : Z) : Z := u32 (BlockIdx off ps).
Definition kpage (addr : Z) : Z := match GetOffset ma addr with Ok off => page_idx off | Err _ => -1 end.
Definition t_idx (t : task) : Z := page_idx (t_off t).
Definition rm_pages (r : Z * Z) : Z * Z :=
  match GetOffset ma r.1 with Ok off => (off / ps, off / ps + (r.2 - r.1) / ps) | Err _ => (0, 0) end.

(** ** The kernel *)

(** An install maps a page that was missing and refuses one that is there;
    a refusal changes nothing.  [None] is an answer the kernel cannot give. *)
Definition populate (i : Z) (p : page) (g : gmap Z page) (r : option errno) : option (gmap Z page) :=
  match r, g !! i with
  | None, None => Some (<[i := p]> g)
  | None, Some _ => None
  | Some EEXIST, None => None
  | Some _, _ => Some g
  end.

(** [UFFDIO_WAKE], or the wake of an install: the threads blocked on the page
    go on, and their events, if not read yet, are gone. *)
Definition wake (i : Z) (k : kernel) : kernel :=
  mkKernel (k_pages k) (filter (λ pf, kpage (pf_address pf) ≠ i) (k_faults k)) (filter (λ j, j ≠ i) (k_waiting k))
    (k_removes k) (k_zapping k) (k_mem k) (k_unwritten k) (k_gone k).

Definition protect (i : Z) (g : gmap Z page) : gmap Z page := alter (λ p, mkPage (p_data p) true) i g.

(** ** A goroutine *)

Definition task_at (s : sys) (n : nat) (p : phase → bool) : option task :=
  t ← u_tasks (sh s) !! n; if p (t_phase t) then Some t else None.

(** Nobody has the read lock. *)
Definition unlocked (h : Userfaultfd) : bool := forallb (λ t, negb (holding (t_phase t))) (u_tasks h).

(** The end of [faultPage]: what an error of the last call makes of it. *)
Definition settle_phase (e : errno) : phase :=
  match e with
  | EEXIST => Exists_
  | ESRCH => Result faultDiscarded
  | EAGAIN => Result faultDeferred
  | EOther => Errored
  end.

(** [onFailure]: a fault that cannot be served signals the exit. *)
Definition settle (s : sys) (n : nat) (t : task) (e : errno) : sys :=
  mkSys (with_exit (with_task (sh s) n (at_phase t (settle_phase e)))
           (u_exit (sh s) || (is_fault t && match e with EOther => true | _ => false end)))
        (with_gone (sk s) (k_gone (sk s) || match e with ESRCH => true | _ => false end)).

(** The state of the page under the read lock. *)
Definition lookup_ (s : sys) (n : nat) : option sys :=
  t ← task_at s n (λ p, match p with Starting => true | _ => false end);
  let next t := Some (mkSys (with_task (sh s) n t) (sk s)) in
  match t_job t with
  | JFault _ =>
      match Get (u_tracker (sh s)) (t_idx t) with
      | SDirty => next (at_phase t Returned)
      | SZero => next (mkTask (t_job t) (t_addr t) (t_off t) (t_access t) true Looked)
      | NotPresent => next (mkTask (t_job t) (t_addr t) (t_off t) (t_access t) false Looked)
      end
  | JPrefault data =>
      if u_closed (sh s) then next (at_phase t Returned)
      else match GetHostVirtAddr ma (t_off t) with
           | Err _ => next (at_phase t Returned)
           | Ok addr =>
               if negb (len data =? ps) then next (at_phase t Returned)
               else match Get (u_tracker (sh s)) (t_idx t) with
                    | NotPresent => next (mkTask (t_job t) addr (t_off t) Read false Looked)
                    | _ => next (at_phase t Returned)
                    end
           end
  end.

(** The bytes to copy: those of the source, or of the call for a prefault. *)
Definition page_source (t : task) (reads : list (option bytes * bool)) : option bytes :=
  match t_job t with
  | JFault _ => fetch_page (S sliceMaxRetries) ps reads
  | JPrefault data => Some data
  end.

(** The source keeps its contract: a full page is the page. *)
Definition reads_ok (off : Z) (reads : list (option bytes * bool)) : bool :=
  forallb (λ r, match r.1 with Some b => negb (len b =? ps) || bool_decide (b = src off) | None => true end) reads.

(** An install that wakes, and one that does not. *)
Definition install (s : sys) (n : nat) (t : task) (p : page) (r : option errno) : option sys :=
  g ← populate (kpage (t_addr t)) p (k_pages (sk s)) r;
  match r with
  | None => Some (mkSys (with_task (sh s) n (at_phase t (Result faultInstalled)))
                        (wake (kpage (t_addr t)) (with_pages (sk s) g)))
  | Some e => Some (settle s n t e)
  end.

Definition install_asleep (s : sys) (n : nat) (t : task) (p : page) (r : option errno) : option sys :=
  g ← populate (kpage (t_addr t)) p (k_pages (sk s)) r;
  match r with
  | None => Some (mkSys (with_task (sh s) n (at_phase t Zeroed)) (with_pages (sk s) g))
  | Some e => Some (settle s n t e)
  end.

Definition faultPage (s : sys) (n : nat) (reads : list (option bytes * bool)) (a : ioctl) : option sys :=
  t ← task_at s n (λ p, match p with Looked => true | _ => false end);
  match fault_plan ps (t_nosource t) (t_access t) with
  | ZeroProtect => install_asleep s n t (mkPage zeros false) (fd_zero ps a)
  | ZeroPage => install s n t (mkPage zeros false) (fd_zero ps a)
  | CopyEmpty => install s n t (mkPage zeros (copy_wp (t_access t))) (fd_copy ps a)
  | CopySource =>
      if reads_ok (t_off t) reads then
        match page_source t reads with
        | Some b => install s n t (mkPage b (copy_wp (t_access t))) (fd_copy ps a)
        | None => Some (settle s n t EOther)
        end
      else None
  end.

Definition write_protect (s : sys) (n : nat) (r : option errno) : option sys :=
  t ← task_at s n (λ p, match p with Zeroed => true | _ => false end);
  Some (match r with
        | None => mkSys (with_task (sh s) n (at_phase t Protected)) (with_pages (sk s) (protect (kpage (t_addr t)) (k_pages (sk s))))
        | Some e => mkSys (with_task (sh s) n (at_phase t (Unprotected e))) (sk s)
        end).

Definition wake_up (s : sys) (n : nat) : option sys :=
  t ← u_tasks (sh s) !! n;
  let k := wake (kpage (t_addr t)) (sk s) in
  match t_phase t with
  | Protected => Some (mkSys (with_task (sh s) n (at_phase t (Result faultInstalled))) k)
  | Exists_ => Some (mkSys (with_task (sh s) n (at_phase t (Result faultAlreadyPresent))) k)
  | Unprotected e => Some (settle (mkSys (sh s) k) n t e)
  | _ => None
  end.

(** What the caller of [faultPage] does with the outcome, up to its return. *)
Definition set_dirty (h : Userfaultfd) (t : task) : Userfaultfd :=
  with_tracker h (SetRange (t_idx t) (u32 (t_idx t + 1)) SDirty (u_tracker h)).

Definition outcome (s : sys) (n : nat) : option sys :=
  t ← u_tasks (sh s) !! n;
  let next h := Some (mkSys (with_task h n (at_phase t Returned)) (sk s)) in
  match t_phase t, t_job t with
  | Result (faultInstalled | faultAlreadyPresent), JFault _ =>
      let h := if negb (t_nosource t) || bool_decide (t_access t = Write) then set_dirty (sh s) t else sh s in
      next (with_prefetch h (pAdd (t_off t) (t_access t) (u_prefetch h)))
  | Result (faultInstalled | faultAlreadyPresent), JPrefault _ =>
      let h := set_dirty (sh s) t in next (with_prefetch h (pAdd (t_off t) Prefetch (u_prefetch h)))
  | Result faultDeferred, JFault pf =>
      Some (mkSys (with_task (with_deferred (sh s) (push pf (u_deferred (sh s)))) n (at_phase t Pushed)) (sk s))
  | Result _, _ => next (sh s)
  | _, _ => None
  end.

Definition signalWakeup (s : sys) (n : nat) : option sys :=
  t ← task_at s n (λ p, match p with Pushed => true | _ => false end);
  Some (mkSys (with_task (with_wakeup (sh s) true) n (at_phase t Returned)) (sk s)).

(** ** [Serve] *)

Definition apply_remove (t : Tracker B) (r : Z * Z) : Tracker B :=
  match GetOffset ma r.1 with
  | Err _ => t
  | Ok startOff =>
      let startIdx := u32 (BlockIdx startOff ps) in
      SetRange startIdx (u32 (startIdx + u32 (u64 (r.2 - r.1) / ps))) SZero t
  end.

Definition on_loop (s : sys) (l : loop) : sys := mkSys (with_loop (sh s) l) (sk s).

Definition faults_done (h : Userfaultfd) : bool := forallb (λ t, negb (is_fault t && live t)) (u_tasks h).

(** [poll]: the exit first, after the goroutines; then the events, and the
    wakeup pipe. *)
Definition poll (s : sys) : option sys :=
  match u_loop (sh s) with
  | Polling =>
      let events := negb (bool_decide (k_faults (sk s) = [] ∧ k_removes (sk s) = [])) in
      if u_exit (sh s) then
        if faults_done (sh s)
        then Some (on_loop s (Stopped (existsb (λ t, is_fault t && match t_phase t with Errored => true | _ => false end) (u_tasks (sh s)))))
        else None
      else if events || u_wakeup (sh s)
      then Some (mkSys (with_loop (with_wakeup (sh s) false) (if events then Reading [] [] else Draining [])) (sk s))
      else None
  | _ => None
  end.

(** [readEvents], one event at a time; a range whose event was read is
    discarded from then on. *)
Definition read_fault (s : sys) (k : nat) : option sys :=
  match u_loop (sh s), k_faults (sk s) !! k with
  | Reading rms pfs, Some pf =>
      Some (mkSys (with_loop (sh s) (Reading rms (pfs ++ [pf])))
              (with_events (sk s) (delete k (k_faults (sk s))) (k_removes (sk s)) (k_zapping (sk s))))
  | _, _ => None
  end.

Definition read_remove (s : sys) (k : nat) : option sys :=
  match u_loop (sh s), k_removes (sk s) !! k with
  | Reading rms pfs, Some r =>
      Some (mkSys (with_loop (sh s) (Reading (rms ++ [r]) pfs))
              (with_events (sk s) (k_faults (sk s)) (delete k (k_removes (sk s))) (k_zapping (sk s) ++ [r])))
  | _, _ => None
  end.

(** The batch of removes, under the write lock. *)
Definition apply_removes (s : sys) : option sys :=
  match u_loop (sh s) with
  | Reading rms pfs =>
      if bool_decide (rms = []) || unlocked (sh s)
      then Some (mkSys (with_loop (with_tracker (sh s) (foldl apply_remove (u_tracker (sh s)) rms)) (Draining pfs)) (sk s))
      else None
  | _ => None
  end.

Definition read_failed (s : sys) : option sys :=
  match u_loop (sh s) with Reading _ _ => Some (on_loop s (Stopped true)) | _ => None end.

Definition take_deferred (s : sys) : option sys :=
  match u_loop (sh s) with
  | Draining pfs =>
      let '(out, d) := drain (u_deferred (sh s)) in
      Some (mkSys (with_loop (with_deferred (sh s) d) (Dispatching (out ++ pfs))) (sk s))
  | _ => None
  end.

Definition in_progress (h : Userfaultfd) : Z := len (filter (λ t, (is_fault t && live t) = true) (u_tasks h)).

Definition dispatch (s : sys) : option sys :=
  match u_loop (sh s) with
  | Dispatching [] => Some (on_loop s Polling)
  | Dispatching (pf :: pfs) =>
      if has_flag pf UFFD_PAGEFAULT_FLAG_MINOR || has_flag pf UFFD_PAGEFAULT_FLAG_WP then Some (on_loop s (Stopped true))
      else match GetOffset ma (pf_address pf) with
           | Err _ => Some (on_loop s (Stopped true))
           | Ok off =>
               if in_progress (sh s) <? maxRequestsInProgress then
                 let access := if has_flag pf UFFD_PAGEFAULT_FLAG_WRITE then Write else Read in
                 let t := mkTask (JFault pf) (pf_address pf) off access false Starting in
                 Some (mkSys (with_loop (with_tasks (sh s) (u_tasks (sh s) ++ [t])) (Dispatching pfs)) (sk s))
               else None
           end
  | _ => None
  end.

(** [Close], after [Serve] and its goroutines. *)
Definition Close (s : sys) : option sys :=
  match u_loop (sh s) with
  | Stopped _ => if faults_done (sh s) && unlocked (sh s) then Some (mkSys (with_closed (sh s)) (sk s)) else None
  | _ => None
  end.

(** The moves of the program. *)
Inductive move :=
| MPoll | MReadFault (k : nat) | MReadRemove (k : nat) | MApply | MReadFailed | MDrain | MDispatch | MClose
| MLookup (n : nat) | MInstall (n : nat) (reads : list (option bytes * bool)) (a : ioctl)
| MProtect (n : nat) (r : option errno) | MWake (n : nat) | MOutcome (n : nat) | MSignal (n : nat).

Definition code (m : move) (s : sys) : option sys :=
  match m with
  | MPoll => poll s
  | MReadFault k => read_fault s k
  | MReadRemove k => read_remove s k
  | MApply => apply_removes s
  | MReadFailed => read_failed s
  | MDrain => take_deferred s
  | MDispatch => dispatch s
  | MClose => Close s
  | MLookup n => lookup_ s n
  | MInstall n reads a => faultPage s n reads a
  | MProtect n r => write_protect s n r
  | MWake n => wake_up s n
  | MOutcome n => outcome s n
  | MSignal n => signalWakeup s n
  end.

(** ** The guest and the prefetcher *)

Definition loop_pfs (l : loop) : list UffdPagefault :=
  match l with Reading _ pfs | Draining pfs | Dispatching pfs => pfs | _ => [] end.
Definition loop_removes (l : loop) : list (Z * Z) := match l with Reading rms _ => rms | _ => [] end.

Definition all_pfs (s : sys) : list UffdPagefault :=
  k_faults (sk s) ++ loop_pfs (u_loop (sh s)) ++ d_pf (u_deferred (sh s)).

(** A fault of page [i] is being served; a goroutine is at work on it; a range
    with page [i] is being discarded. *)
Definition faulting (s : sys) (i : Z) : bool :=
  existsb (λ t, is_fault t && live t && (t_idx t =? i)) (u_tasks (sh s)) ||
  existsb (λ pf, kpage (pf_address pf) =? i) (all_pfs s).

Definition at_work (s : sys) (i : Z) : bool := existsb (λ t, live t && (t_idx t =? i)) (u_tasks (sh s)).

Definition count_page (i : Z) (rs : list (Z * Z)) : nat := length (filter (λ r, in_range i (rm_pages r) = true) rs).
Definition has_page (i : Z) (rs : list (Z * Z)) : bool := negb (count_page i rs =? 0)%nat.

Definition removing (s : sys) (i : Z) : bool :=
  has_page i (k_removes (sk s)) || has_page i (k_zapping (sk s)) || has_page i (loop_removes (u_loop (sh s))).

Definition is_zeroed (p : phase) : bool := match p with Zeroed => true | _ => false end.
Definition zeroing (s : sys) (i : Z) : bool :=
  existsb (λ t, is_zeroed (t_phase t) && (t_idx t =? i)) (u_tasks (sh s)).

Inductive event :=
| EFault (addr : Z) (write : bool)
| EWrite (i : Z) (data : bytes)
| ERemove (r : Z * Z)
| EZap (k : nat)
| EPrefault (off : Z) (data : bytes)
| EStop.

Definition upd {A} (f : Z → A) (i : Z) (x : A) : Z → A := λ j, if j =? i then x else f j.

(** A range of whole pages of one region. *)
Definition remove_ok (r : Z * Z) : bool :=
  existsb (λ g, (BaseHostVirtAddr g <=? r.1) && (r.1 <? r.2) && (r.2 <=? BaseHostVirtAddr g + Size g)) ma &&
  ((r.2 - r.1) mod ps =? 0) && match GetOffset ma r.1 with Ok off => off mod ps =? 0 | Err _ => false end.

Definition pages_of (r : Z * Z) : list Z := seqZ (rm_pages r).1 ((rm_pages r).2 - (rm_pages r).1).

(** The moves of the guest and of the prefetcher; and the exit, signalled
    from outside.  In a [clean] execution, a condition on these moves and not a
    check of the code, the guest does not give back memory that it faults in,
    that it is giving back already or, by the time the kernel discards it, that
    is being prefaulted; a page being given back is neither touched nor
    prefaulted; and a zero page is written only when it is protected. *)
Definition environment (clean : bool) (e : event) (s : sys) : option sys :=
  let k := sk s in
  match e with
  | EFault addr write =>
      match GetOffset ma addr with
      | Ok off =>
          let i := page_idx off in
          if (off mod ps =? 0) && bool_decide (k_pages k !! i = None) && negb (clean && removing s i) then
            let pf := mkFault (if write then UFFD_PAGEFAULT_FLAG_WRITE else 0) addr in
            Some (mkSys (sh s) (mkKernel (k_pages k) (k_faults k ++ [pf]) (i :: k_waiting k) (k_removes k) (k_zapping k)
                                  (k_mem k) (if write then {[i]} ∪ k_unwritten k else k_unwritten k) (k_gone k)))
          else None
      | Err _ => None
      end
  | EWrite i data =>
      if bool_decide (is_Some (k_pages k !! i)) && (len data =? ps) && negb (clean && zeroing s i) then
        Some (mkSys (sh s) (mkKernel (<[i := mkPage data false]> (k_pages k)) (k_faults k) (k_waiting k) (k_removes k) (k_zapping k)
                              (upd (k_mem k) i data) (k_unwritten k ∖ {[i]}) (k_gone k)))
      else None
  | ERemove r =>
      if remove_ok r && negb (clean && existsb (λ i, faulting s i || removing s i) (pages_of r))
      then Some (mkSys (sh s) (with_events k (k_faults k) (k_removes k ++ [r]) (k_zapping k)))
      else None
  | EZap n =>
      match k_zapping k !! n with
      | Some r =>
          if clean && existsb (at_work s) (pages_of r) then None
          else Some (mkSys (sh s) (mkKernel (filter (λ '(i, _), in_range i (rm_pages r) = false) (k_pages k)) (k_faults k) (k_waiting k)
                                (k_removes k) (delete n (k_zapping k))
                                (λ i, if in_range i (rm_pages r) then zeros else k_mem k i) (k_unwritten k) (k_gone k)))
      | None => None
      end
  | EPrefault off data =>
      if (off mod ps =? 0) && (negb (len data =? ps) || bool_decide (data = src off)) && negb (clean && removing s (page_idx off))
      then Some (mkSys (with_tasks (sh s) (u_tasks (sh s) ++ [mkTask (JPrefault data) 0 off Read false Starting])) k)
      else None
  | EStop => Some (mkSys (with_exit (sh s) true) k)
  end.

Definition code_step (s s' : sys) : Prop := ∃ m, code m s = Some s'.
Definition step (clean : bool) (s s' : sys) : Prop := code_step s s' ∨ ∃ e, environment clean e s = Some s'.

(** ** Geometry *)

Definition page_region (r : Region) : Prop :=
  Offset r mod ps = 0 ∧ Size r mod ps = 0 ∧ Offset r + Size r < 2 ^ 32 * ps.

Record memory_ok : Prop := {
  mo_ps : ps = PageSize ∨ ps = HugepageSize;
  mo_regions : regions_ok ma;
  mo_pages : Forall page_region ma;
  mo_src off : len (src off) = ps
}.

Hypothesis Hok : memory_ok.

Lemma ps_bounds : 4096 <= ps <= 2 ^ 21.
Proof using Hok. destruct (mo_ps Hok) as [-> | ->]; unfold PageSize, HugepageSize; lia. Qed.

Lemma offset_region a off : GetOffset ma a = Ok off →
  ∃ r, r ∈ ma ∧ Offset r <= off < Offset r + Size r ∧ a - BaseHostVirtAddr r = off - Offset r ∧ region_ok r ∧ page_region r.
Proof using Hok.
  intros (r & Hr & Ho & Ha)%(GetOffset_maps _ (mo_regions Hok)). exists r. split_and!; try done; try lia.
  - by apply (region_in _ (mo_regions Hok)).
  - pose proof (mo_pages Hok) as Hp. rewrite Forall_forall in Hp. by apply Hp.
Qed.

Lemma page_idx_div off : 0 <= off < 2 ^ 32 * ps → page_idx off = off / ps ∧ 0 <= off / ps < 2 ^ 32.
Proof using Hok.
  intros Ho. pose proof ps_bounds. assert (Hd : 0 <= off / ps < 2 ^ 32).
  { split; [apply Z.div_pos; lia|]. apply Z.div_lt_upper_bound; lia. }
  split; [|done]. unfold page_idx. rewrite BlockIdx_div by lia. by apply u32_id.
Qed.

(** The last page leaves room: the end of a range of pages does not wrap. *)
Lemma fault_page a off : GetOffset ma a = Ok off →
  kpage a = page_idx off ∧ page_idx off = off / ps ∧ 0 <= off / ps ∧ off / ps + 1 < 2 ^ 32.
Proof using Hok.
  intros Ha. pose proof ps_bounds. destruct (offset_region a off Ha) as (r & _ & Ho & _ & (? & ? & ? & ? & ?) & Hm & Hs & Hlt).
  destruct (page_idx_div off ltac:(lia)) as [Hi Hb]. unfold kpage. rewrite Ha. split_and!; [done|done|lia|].
  pose proof (Z.mod_divide (Offset r) ps ltac:(lia)) as [[x Hx] _]; [done|].
  pose proof (Z.mod_divide (Size r) ps ltac:(lia)) as [[y Hy] _]; [done|].
  assert (off / ps < x + y) by (apply Z.div_lt_upper_bound; nia). nia.
Qed.

Lemma aligned_page off : off mod ps = 0 → off / ps * ps = off.
Proof using Hok. pose proof ps_bounds. intros Hm. pose proof (Z.div_mod off ps ltac:(lia)). lia. Qed.

Lemma remove_region r : remove_ok r = true → ∃ off g, GetOffset ma r.1 = Ok off ∧ g ∈ ma ∧ r.1 < r.2 ∧
  off mod ps = 0 ∧ (r.2 - r.1) mod ps = 0 ∧ 0 <= off ∧ Offset g <= off ∧ off + (r.2 - r.1) <= Offset g + Size g ∧
  r.1 - BaseHostVirtAddr g = off - Offset g ∧ region_ok g ∧ page_region g.
Proof using Hok.
  unfold remove_ok. intros [[He Hm]%andb_true_iff Ho]%andb_true_iff. apply existsb_exists in He as (g & Hg & Hb).
  apply list_elem_of_In in Hg. zbool. destruct (GetOffset ma r.1) as [off|e] eqn:Ea; [|done]. zbool.
  pose proof (region_in _ (mo_regions Hok) g Hg) as (G1 & G2 & G3 & G4 & G5).
  assert (Hx : GetOffset ma r.1 = Ok (Offset g + (r.1 - BaseHostVirtAddr g))).
  { apply (GetOffset_maps _ (mo_regions Hok)). exists g. split; [done|]. split; lia. }
  rewrite Ea in Hx. injection Hx as Hx. pose proof (mo_pages Hok) as Hp. rewrite Forall_forall in Hp. specialize (Hp g Hg).
  exists off, g. split_and!; try done; lia.
Qed.

Lemma rm_bounds r : remove_ok r = true → 0 <= (rm_pages r).1 ∧ (rm_pages r).1 < (rm_pages r).2 < 2 ^ 32.
Proof using Hok.
  intros Hr. pose proof ps_bounds. destruct (remove_region r Hr) as (off & g & Ha & _ & Hlt & Hm & Hl & K0 & K1 & K2 & _ & _ & Hg1 & Hg2 & Hg3).
  unfold rm_pages. rewrite Ha. cbn. pose proof (aligned_page _ Hm). pose proof (aligned_page _ Hl).
  assert (0 <= off / ps) by (apply Z.div_pos; lia). assert (0 < (r.2 - r.1) / ps) by nia. nia.
Qed.

Lemma Get_apply_remove t r i : remove_ok r = true →
  Get (apply_remove t r) i = if in_range i (rm_pages r) then SZero else Get t i.
Proof using Hok.
  intros Hr. pose proof (rm_bounds r Hr) as Hb. pose proof ps_bounds.
  destruct (remove_region r Hr) as (off & g & Ha & _ & Hlt & Hm & Hl & K0 & K1 & K2 & _ & (? & ? & ? & ? & ?) & Hg).
  unfold apply_remove. destruct (fault_page _ _ Ha) as (_ & Hi & _). unfold page_idx in Hi.
  unfold rm_pages in *. rewrite Ha in *. cbn in Hb. rewrite Hi. rewrite (u64_id (r.2 - r.1)) by (unfold_int; lia).
  assert (0 <= (r.2 - r.1) / ps) by (apply Z.div_pos; lia).
  rewrite (u32_id ((r.2 - r.1) / ps)) by (unfold_int; lia). rewrite u32_id by (unfold_int; lia).
  apply Get_SetRange; unfold_int; lia.
Qed.

(** [rm_pages] is the pages of the addresses. *)
Lemma rm_pages_addrs r i : remove_ok r = true → in_range i (rm_pages r) = true ↔ ∃ a, r.1 <= a < r.2 ∧ kpage a = i.
Proof using Hok.
  intros Hr. pose proof ps_bounds.
  destruct (remove_region r Hr) as (off & g & Ha & Hg & Hlt & Hm & Hl & K0 & K1 & K2 & K3 & (? & ? & ? & ? & ?) & Hp).
  assert (Hoff : ∀ a, r.1 <= a < r.2 → GetOffset ma a = Ok (off + (a - r.1))).
  { intros a Ha'. apply (GetOffset_maps _ (mo_regions Hok)). exists g. split; [done|]. split; lia. }
  pose proof (aligned_page _ Hm) as E1. pose proof (aligned_page _ Hl) as E2.
  unfold rm_pages. rewrite Ha. unfold in_range. cbn. rewrite andb_true_iff, Z.leb_le, Z.ltb_lt. split.
  - intros Hi. exists (r.1 + (i * ps - off)). assert (off <= i * ps < off + (r.2 - r.1)) by nia. split; [lia|].
    destruct (fault_page _ _ (Hoff (r.1 + (i * ps - off)) ltac:(lia))) as (-> & -> & _).
    replace (off + (r.1 + (i * ps - off) - r.1)) with (i * ps) by lia. apply Z.div_mul. lia.
  - intros (a & Ha' & <-). destruct (fault_page _ _ (Hoff a Ha')) as (-> & -> & _). split.
    + apply Z.div_le_mono; lia.
    + apply Z.div_lt_upper_bound; [lia|]. nia.
Qed.

(** ** The invariant of a page *)

(** What the state of a page says of its content: a page still protected has
    the content it was given, a page not mapped will be given it. *)
Definition data_ok (i : Z) (st : State) (pg : option page) (m : bytes) (uw : Prop) : Prop :=
  match st, pg with
  | NotPresent, None => m = src (i * ps)
  | NotPresent, Some p => p_wp p = true → m = src (i * ps)
  | SZero, None => m = zeros
  | SZero, Some p => p_wp p = true → m = zeros
  | SDirty, None => False
  | SDirty, Some p => p_wp p = true → m = src (i * ps) ∨ uw
  end.

Definition source_ok (st : State) (nosource : bool) : Prop := if nosource then st ≠ NotPresent else st ≠ SZero.

Definition task_ok (st : State) (pg : option page) (m : bytes) (uw : Prop) (t : task) : Prop :=
  (holding (t_phase t) = true → source_ok st (t_nosource t)) ∧
  match t_phase t with
  | Zeroed => t_nosource t = true ∧ is_Some pg ∧ m = zeros ∧ (st = SDirty → uw)
  | Unprotected _ | Protected | Exists_ | Result (faultInstalled | faultAlreadyPresent) => is_Some pg
  | _ => True
  end.

Definition failed (s : sys) : Prop :=
  u_exit (sh s) = true ∨ (∃ b, u_loop (sh s) = Stopped b) ∨ k_gone (sk s) = true.

(** Who will wake the threads blocked on a page. *)
Definition serving (st : State) (p : phase) : Prop :=
  match p with
  | Starting => st ≠ SDirty
  | Looked | Zeroed | Unprotected _ | Protected | Exists_ | Result faultDeferred => True
  | _ => False
  end.
Definition asleep (p : phase) : Prop := match p with Zeroed | Unprotected _ | Protected => True | _ => False end.

Notation tracker_at s i := (Get (u_tracker (sh s)) i).
Notation page_at s i := (k_pages (sk s) !! i).

Definition served (s : sys) (i : Z) : Prop :=
  (∃ pf, pf ∈ all_pfs s ∧ kpage (pf_address pf) = i) ∨
  ∃ t, t ∈ u_tasks (sh s) ∧ t_idx t = i ∧ is_fault t = true ∧ serving (tracker_at s i) (t_phase t).

Definition writer (s : sys) (i : Z) : Prop :=
  (∃ pf, pf ∈ all_pfs s ∧ kpage (pf_address pf) = i ∧ has_flag pf UFFD_PAGEFAULT_FLAG_WRITE = true) ∨
  ∃ t, t ∈ u_tasks (sh s) ∧ t_idx t = i ∧ live t = true ∧ t_access t = Write.

Definition unwritten (s : sys) (i : Z) : Prop := i ∈ k_unwritten (sk s).

(** The ranges with the page: announced; being discarded; not applied yet. *)
Notation announced s i := (count_page i (k_removes (sk s))).
Notation zapping s i := (count_page i (k_zapping (sk s))).
Notation unapplied s i := (count_page i (loop_removes (u_loop (sh s)))).

Record page_inv (s : sys) (i : Z) : Prop := {
  pi_busy : removing s i = true → faulting s i = false;
  pi_once : (announced s i + zapping s i <= 1)%nat ∧ (announced s i + unapplied s i <= 1)%nat;
  pi_zapped : zapping s i = O → unapplied s i ≠ O → page_at s i = None ∧ k_mem (sk s) i = zeros ∧
    ∀ t, t ∈ u_tasks (sh s) → t_idx t = i → live t = false;
  pi_applied : unapplied s i = O → zapping s i ≠ O → tracker_at s i = SZero ∧
    ∀ t, t ∈ u_tasks (sh s) → t_idx t = i → holding (t_phase t) = false;
  pi_mem p : page_at s i = Some p → p_data p = k_mem (sk s) i;
  pi_data : zapping s i = unapplied s i → data_ok i (tracker_at s i) (page_at s i) (k_mem (sk s) i) (unwritten s i);
  pi_task t : t ∈ u_tasks (sh s) → t_idx t = i →
    task_ok (tracker_at s i) (page_at s i) (k_mem (sk s) i) (unwritten s i) t;
  pi_source t t' : t ∈ u_tasks (sh s) → t' ∈ u_tasks (sh s) → t_idx t = i → t_idx t' = i →
    holding (t_phase t) = true → holding (t_phase t') = true → t_nosource t = t_nosource t';
  pi_writer : writer s i → unwritten s i ∨ ∃ p, page_at s i = Some p ∧ p_wp p = false ∧ zeroing s i = false;
  pi_wait : i ∈ k_waiting (sk s) → failed s ∨ served s i;
  pi_asleep : i ∈ k_waiting (sk s) → is_Some (page_at s i) →
    failed s ∨ ∃ t, t ∈ u_tasks (sh s) ∧ t_idx t = i ∧ is_fault t = true ∧ asleep (t_phase t)
}.

Lemma faulting_spec s i : faulting s i = true ↔
  (∃ t, t ∈ u_tasks (sh s) ∧ is_fault t = true ∧ live t = true ∧ t_idx t = i) ∨
  ∃ pf, pf ∈ all_pfs s ∧ kpage (pf_address pf) = i.
Proof using.
  unfold faulting. rewrite orb_true_iff, !existsb_exists. setoid_rewrite <- list_elem_of_In. setoid_rewrite andb_true_iff.
  setoid_rewrite andb_true_iff. setoid_rewrite Z.eqb_eq. split; (intros [(t & ? & ?)|?]; [left; exists t; tauto|by right]).
Qed.

Lemma removing_spec s i : removing s i = false ↔ announced s i = O ∧ zapping s i = O ∧ unapplied s i = O.
Proof using. unfold removing, has_page. rewrite !orb_false_iff, !negb_false_iff, !Nat.eqb_eq. tauto. Qed.

Lemma zeroing_spec s i : zeroing s i = true ↔ ∃ t, t ∈ u_tasks (sh s) ∧ t_phase t = Zeroed ∧ t_idx t = i.
Proof using.
  unfold zeroing. rewrite existsb_exists. setoid_rewrite <- list_elem_of_In. setoid_rewrite andb_true_iff.
  setoid_rewrite Z.eqb_eq. apply exist_proper. intros t. destruct (t_phase t); cbn; naive_solver.
Qed.

(** A step that does not concern page [i]. *)
Record same_page (s s' : sys) (i : Z) : Prop := {
  sp_get : tracker_at s' i = tracker_at s i;
  sp_page : page_at s' i = page_at s i;
  sp_mem : k_mem (sk s') i = k_mem (sk s) i;
  sp_unwritten : unwritten s' i ↔ unwritten s i;
  sp_waiting : i ∈ k_waiting (sk s') → i ∈ k_waiting (sk s);
  sp_removes : announced s' i = announced s i;
  sp_zapping : zapping s' i = zapping s i;
  sp_loop : unapplied s' i = unapplied s i;
  sp_tasks t : t_idx t = i → t ∈ u_tasks (sh s') ↔ t ∈ u_tasks (sh s);
  sp_pfs pf : kpage (pf_address pf) = i → pf ∈ all_pfs s' ↔ pf ∈ all_pfs s;
  sp_failed : failed s → failed s'
}.

Lemma removing_same s s' i : same_page s s' i → removing s' i = removing s i.
Proof using. intros Hs. unfold removing, has_page. by rewrite (sp_removes _ _ _ Hs), (sp_zapping _ _ _ Hs), (sp_loop _ _ _ Hs). Qed.

Lemma faulting_same s s' i : same_page s s' i → faulting s' i = faulting s i.
Proof using.
  intros Hs. apply eq_true_iff_eq. rewrite !faulting_spec.
  split; (intros [(t & Ht & ? & ? & ?)|(pf & Hpf & ?)];
    [left; exists t; split; [by apply (sp_tasks _ _ _ Hs)|done]|right; exists pf; split; [by apply (sp_pfs _ _ _ Hs)|done]]).
Qed.

Lemma zeroing_same s s' i : same_page s s' i → zeroing s' i = zeroing s i.
Proof using.
  intros Hs. apply eq_true_iff_eq. rewrite !zeroing_spec. apply exist_proper; intros x.
  split; intros (Hx & ? & ?); (split; [by apply (sp_tasks _ _ _ Hs)|done]).
Qed.

Lemma page_inv_same s s' i : same_page s s' i → page_inv s i → page_inv s' i.
Proof using.
  intros Hs [I1 I0 I2 I3 I4 I5 I6 I7 I8 I9 I10]. pose proof (removing_same _ _ _ Hs) as Er. pose proof (faulting_same _ _ _ Hs) as Eb.
  pose proof (zeroing_same _ _ _ Hs) as Ez. destruct Hs as [Hg Hp Hm Hu Hw Hr Hz Hl Ht Hf Hx].
  split.
  - by rewrite Er, Eb.
  - by rewrite Hr, Hz, Hl.
  - rewrite Hz, Hl, Hp, Hm. intros Hz0 Hl0. destruct (I2 Hz0 Hl0) as (? & ? & Hall). split_and!; try done.
    intros t Ht1 Hi. by apply Hall; [apply Ht|].
  - rewrite Hz, Hl, Hg. intros Hl0 Hz0. destruct (I3 Hl0 Hz0) as (? & Hall). split_and!; try done.
    intros t Ht1 Hi. by apply Hall; [apply Ht|].
  - rewrite Hp, Hm. exact I4.
  - rewrite Hz, Hl, Hg, Hp, Hm. intros Hf'. specialize (I5 Hf'). unfold data_ok in *.
    destruct (tracker_at s i), (page_at s i); try done. rewrite Hu. exact I5.
  - intros t Ht1 Hti. apply Ht in Ht1; [|done]. specialize (I6 t Ht1 Hti). rewrite Hg, Hp, Hm. destruct I6 as [Hs1 Hs2].
    split; [done|]. destruct (t_phase t); try done. rewrite Hu. exact Hs2.
  - intros t t' Ht1 Ht2 Hi1 Hi2. apply Ht in Ht1, Ht2; [|done..]. by apply I7.
  - intros Hwr. rewrite Hp, Hu, Ez. apply I8. destruct Hwr as [(pf & Hpf & Hk & ?)|(t & Ht1 & Hi & ?)].
    + left. exists pf. split; [by apply Hf|done].
    + right. exists t. split; [by apply Ht|done].
  - intros Hi. destruct (I9 (Hw Hi)) as [?|[(pf & Hpf & Hk)|(t & Ht1 & Hti & Hft & Hse)]]; [left; by apply Hx|right; left|right; right].
    + exists pf. split; [by apply Hf|done].
    + exists t. rewrite Hg. split; [by apply Ht|done].
  - rewrite Hp. intros Hi Hs. destruct (I10 (Hw Hi) Hs) as [?|(t & Ht1 & Hti & ?)]; [left; by apply Hx|right].
    exists t. split; [by apply Ht|done].
Qed.

(** ** The invariant of the handler *)

(** The faults of the guest are reads and writes of missing pages. *)
Definition guest_flags (pf : UffdPagefault) : Prop := pf_flags pf = 0 ∨ pf_flags pf = UFFD_PAGEFAULT_FLAG_WRITE.
Definition pf_wf (pf : UffdPagefault) : Prop :=
  (∃ off, GetOffset ma (pf_address pf) = Ok off ∧ off mod ps = 0) ∧ guest_flags pf.

Definition task_wf (t : task) : Prop :=
  t_off t mod ps = 0 ∧
  match t_job t with
  | JFault pf => (pf_address pf = t_addr t ∧ guest_flags pf) ∧ GetOffset ma (t_addr t) = Ok (t_off t) ∧
      t_access t = if has_flag pf UFFD_PAGEFAULT_FLAG_WRITE then Write else Read
  | JPrefault data => t_access t = Read ∧ t_nosource t = false ∧ (len data = ps → data = src (t_off t)) ∧
      (holding (t_phase t) = true → GetOffset ma (t_addr t) = Ok (t_off t) ∧ len data = ps)
  end.

Definition awake_loop (l : loop) : Prop := match l with Reading _ _ | Draining _ | Stopped _ => True | _ => False end.

Record handler_inv (s : sys) : Prop := {
  hi_pfs pf : pf ∈ all_pfs s → pf_wf pf;
  hi_tasks t : t ∈ u_tasks (sh s) → task_wf t;
  hi_removes r : r ∈ k_removes (sk s) ++ k_zapping (sk s) ++ loop_removes (u_loop (sh s)) → remove_ok r = true;
  hi_deferred a k : d_byAddr (u_deferred (sh s)) !! a = Some k →
    ∃ pf, d_pf (u_deferred (sh s)) !! k = Some pf ∧ pf_address pf = a;
  hi_wakeup : d_pf (u_deferred (sh s)) ≠ [] →
    u_wakeup (sh s) = true ∨ awake_loop (u_loop (sh s)) ∨ ∃ t, t ∈ u_tasks (sh s) ∧ t_phase t = Pushed;
  hi_disjoint : disjoint_states (u_tracker (sh s));
  hi_closed : u_closed (sh s) = true → (∃ b, u_loop (sh s) = Stopped b) ∧
    ∀ t, t ∈ u_tasks (sh s) → holding (t_phase t) = false ∧ (is_fault t = true → live t = false)
}.

Definition inv (s : sys) : Prop := handler_inv s ∧ ∀ i, page_inv s i.

Lemma task_page t : task_wf t → holding (t_phase t) = true →
  kpage (t_addr t) = t_idx t ∧ t_idx t * ps = t_off t ∧ 0 <= t_idx t ∧ t_idx t + 1 < 2 ^ 32.
Proof using Hok.
  intros [Hm Hj] Hh. assert (Ha : GetOffset ma (t_addr t) = Ok (t_off t)) by (destruct (t_job t); [apply Hj|by apply Hj]).
  destruct (fault_page _ _ Ha) as (-> & E & ? & ?). unfold t_idx. rewrite E. split_and!; [done|by apply aligned_page|done|done].
Qed.

Lemma pf_page pf off : pf_wf pf → GetOffset ma (pf_address pf) = Ok off → kpage (pf_address pf) = page_idx off ∧ off mod ps = 0.
Proof using. intros [(off' & Ha & Hm) _] Ho. unfold kpage. rewrite Ho. rewrite Ha in Ho. injection Ho as <-. done. Qed.

Lemma elem_insert (ts : list task) n t t' x : ts !! n = Some t → x ∈ <[n := t']> ts → x = t' ∨ x ∈ ts.
Proof using.
  intros Hn [j Hj]%list_elem_of_lookup. apply list_lookup_insert_Some in Hj as [(_ & -> & _)|[_ Hj]]; [by left|right].
  by eapply list_elem_of_lookup_2.
Qed.
Lemma elem_inserted (ts : list task) n t t' : ts !! n = Some t → t' ∈ <[n := t']> ts.
Proof using. intros Hn. eapply list_elem_of_lookup_2, list_lookup_insert_eq. by eapply lookup_lt_Some. Qed.
Lemma elem_kept (ts : list task) n t t' x : ts !! n = Some t → x ∈ ts → x = t ∨ x ∈ <[n := t']> ts.
Proof using.
  intros Hn [j Hj]%list_elem_of_lookup. destruct (decide (j = n)) as [->|Hne]; [left; congruence|right].
  eapply list_elem_of_lookup_2. by rewrite list_lookup_insert_ne.
Qed.

Lemma tasks_other (ts : list task) n t t' i x :
  ts !! n = Some t → t_idx t ≠ i → t_idx t' ≠ i → t_idx x = i → x ∈ <[n := t']> ts ↔ x ∈ ts.
Proof using.
  intros Hn Ht Ht' Hx. split; intros Hin.
  - destruct (elem_insert _ _ _ _ _ Hn Hin) as [->|?]; [done|done].
  - destruct (elem_kept _ _ _ t' _ Hn Hin) as [->|?]; [done|done].
Qed.

(** Under the read lock, a range with the page is either not discarded or not
    applied yet. *)
Lemma holding_live t : holding (t_phase t) = true → live t = true.
Proof using. unfold live. by destruct (t_phase t). Qed.

Lemma holding_steady s t i : page_inv s i → t ∈ u_tasks (sh s) → t_idx t = i → holding (t_phase t) = true →
  zapping s i = unapplied s i.
Proof using.
  intros Hi Ht Hti Hh. pose proof (pi_once _ _ Hi) as Ho. pose proof (pi_zapped _ _ Hi) as Hz. pose proof (pi_applied _ _ Hi) as Ha.
  destruct (decide (zapping s i = O)) as [Ez|Ez], (decide (unapplied s i = O)) as [El|El]; try lia.
  - destruct (Hz Ez El) as (_ & _ & Hall). specialize (Hall t Ht Hti). by rewrite (holding_live t Hh) in Hall.
  - destruct (Ha El Ez) as (_ & Hall). specialize (Hall t Ht Hti). congruence.
Qed.

(** A goroutine moves on without an effect on the tracker or the memory. *)
Record quiet (s s' : sys) (n : nat) (t t' : task) : Prop := {
  q_task : u_tasks (sh s) !! n = Some t;
  q_live : live t = true;
  q_tasks : u_tasks (sh s') = <[n := t']> (u_tasks (sh s));
  q_idx : t_idx t' = t_idx t;
  q_fault : is_fault t' = is_fault t;
  q_access : t_access t' = t_access t;
  q_get i : tracker_at s' i = tracker_at s i;
  q_page : k_pages (sk s') = k_pages (sk s);
  q_mem : k_mem (sk s') = k_mem (sk s);
  q_unwritten : k_unwritten (sk s') = k_unwritten (sk s);
  q_removes : k_removes (sk s') = k_removes (sk s);
  q_zapping : k_zapping (sk s') = k_zapping (sk s);
  q_loop : u_loop (sh s') = u_loop (sh s);
  q_waiting i : i ∈ k_waiting (sk s') → i ∈ k_waiting (sk s);
  q_failed : failed s → failed s';
  q_others pf : kpage (pf_address pf) ≠ t_idx t → pf ∈ all_pfs s' ↔ pf ∈ all_pfs s
}.

Lemma quiet_other s s' n t t' i : quiet s s' n t t' → i ≠ t_idx t → page_inv s i → page_inv s' i.
Proof using.
  intros Hq Hne. apply page_inv_same. destruct Hq as [Hn Hl Hts Hi Hf Ha Hg Hp Hm Hu Hr Hz Hlp Hw Hx Ho].
  split; [apply Hg|by rewrite Hp|by rewrite Hm|unfold unwritten; by rewrite Hu|apply Hw|by rewrite Hr|by rewrite Hz|by rewrite Hlp| | |done].
  - intros x Hxi. rewrite Hts. apply (tasks_other _ _ t _ i); [done|congruence|congruence|done].
  - intros pf Hk. apply Ho. congruence.
Qed.

Lemma quiet_page s s' n t t' : quiet s s' n t t' → page_inv s (t_idx t) →
  let i := t_idx t in
  task_ok (tracker_at s i) (page_at s i) (k_mem (sk s) i) (unwritten s i) t' →
  (holding (t_phase t') = true → holding (t_phase t) = true ∧ t_nosource t' = t_nosource t ∨ zapping s i = unapplied s i ∧
     ∀ x, x ∈ u_tasks (sh s) → t_idx x = i → holding (t_phase x) = true → t_nosource x = t_nosource t') →
  (t_phase t' = Zeroed → t_phase t = Zeroed) →
  (is_fault t = false → ∀ pf, pf ∈ all_pfs s' → pf ∈ all_pfs s) →
  (∀ pf, pf ∈ all_pfs s' → kpage (pf_address pf) = i → has_flag pf UFFD_PAGEFAULT_FLAG_WRITE = true → writer s i) →
  (i ∈ k_waiting (sk s') → is_fault t = true → serving (tracker_at s i) (t_phase t) → failed s' ∨ served s' i) →
  (i ∈ k_waiting (sk s') → ∀ pf, pf ∈ all_pfs s → kpage (pf_address pf) = i → served s' i) →
  (i ∈ k_waiting (sk s') → asleep (t_phase t) → failed s' ∨ asleep (t_phase t')) →
  page_inv s' i.
Proof using.
  intros Hq Hpi i Htok Hsrc Hz Hpn Hwr Hsv Hpf Has. pose proof (q_task _ _ _ _ _ Hq) as Hn.
  pose proof (list_elem_of_lookup_2 _ _ _ Hn) as Hin.
  pose proof (λ x, holding_steady s x i Hpi) as Hsteady.
  destruct Hpi as [I1 I0 I2 I3 I4 I5 I6 I7 I8 I9 I10]. fold i in I1, I0, I2, I3, I4, I5, I6, I7, I8, I9, I10.
  destruct Hq as [_ Hl Hts Hi Hft Hac Hg Hp Hm Hu Hr Hzp Hlp Hw Hx Ho].
  assert (Hst' : removing s' i = removing s i) by (unfold removing; by rewrite Hr, Hzp, Hlp).
  assert (Hu' : unwritten s' i = unwritten s i) by (unfold unwritten; by rewrite Hu).
  assert (Hst : holding (t_phase t') = true → zapping s i = unapplied s i).
  { intros Hh. destruct (Hsrc Hh) as [[Hh' _]|[? _]]; [by apply (Hsteady t)|done]. }
  split; rewrite ?Hg, ?Hp, ?Hm, ?Hu', ?Hr, ?Hzp, ?Hlp.
  - rewrite Hst'. intros Hrm. specialize (I1 Hrm). apply not_true_is_false. intros E.
    assert (faulting s i = true); [|congruence]. apply faulting_spec in E. apply faulting_spec.
    destruct E as [(x & Hx1 & Hxf & Hxl & Hxi)|(pf & Hpf1 & Hk)]; [left|].
    + rewrite Hts in Hx1. apply (elem_insert _ _ _ _ _ Hn) in Hx1 as [->|Hx1]; [exists t; split_and!; try done; congruence|by exists x].
    + destruct (is_fault t) eqn:Ef; [left; by exists t|right]. exists pf. split; [by apply Hpn|done].
  - exact I0.
  - intros Hz0 Hl0. destruct (I2 Hz0 Hl0) as (_ & _ & Hall). rewrite (Hall t Hin eq_refl) in Hl. done.
  - intros Hl0 Hz0. destruct (I3 Hl0 Hz0) as (? & Hall). split; [done|]. intros x. rewrite Hts.
    intros [->|Hx']%(elem_insert _ _ _ _ _ Hn) Hxi; [|by apply Hall]. destruct (holding (t_phase t')); [|done]. specialize (Hst eq_refl). congruence.
  - exact I4.
  - exact I5.
  - intros x. rewrite Hts. intros [->|Hx']%(elem_insert _ _ _ _ _ Hn) Hxi; [done|by apply I6].
  - intros x y. rewrite Hts. intros [->|Hx1]%(elem_insert _ _ _ _ _ Hn) [->|Hx2]%(elem_insert _ _ _ _ _ Hn) Hi1 Hi2 Hh1 Hh2; [done| | |by apply I7].
    + destruct (Hsrc Hh1) as [[Hh ->]|[_ Hall]]; [by apply I7|symmetry; by apply Hall].
    + destruct (Hsrc Hh2) as [[Hh ->]|[_ Hall]]; [by apply I7|by apply Hall].
  - intros Hwr'. assert (Hws : writer s i).
    { destruct Hwr' as [(pf & Hpf1 & Hk & Hfl)|(x & Hx1 & Hxi & Hxl & Hxa)]; [by eapply Hwr|right].
      rewrite Hts in Hx1. apply (elem_insert _ _ _ _ _ Hn) in Hx1 as [->|Hx1]; [exists t; rewrite Hac in Hxa; done|by exists x]. }
    destruct (I8 Hws) as [?|(p & Hp1 & Hp2 & Hp3)]; [by left|right]. exists p. split_and!; [done|done|].
    destruct (zeroing s' i) eqn:E; [|done]. apply zeroing_spec in E as (x & Hx1 & Hxp & Hxi). rewrite <- Hp3. symmetry.
    apply zeroing_spec. rewrite Hts in Hx1. apply (elem_insert _ _ _ _ _ Hn) in Hx1 as [->|Hx1]; [exists t; split_and!; auto|by exists x].
  - intros Hi'. destruct (I9 (Hw _ Hi')) as [?|[(pf & Hpf1 & Hk)|(x & Hx1 & Hxi & Hxf & Hxs)]]; [left; by apply Hx|right; by eapply Hpf|].
    destruct (elem_kept _ _ _ t' _ Hn Hx1) as [->|Hx2]; [by apply Hsv|right; right].
    exists x. rewrite Hts, Hg. done.
  - intros Hi' Hs. destruct (I10 (Hw _ Hi') Hs) as [?|(x & Hx1 & Hxi & Hxf & Hxs)]; [left; by apply Hx|].
    destruct (elem_kept _ _ _ t' _ Hn Hx1) as [->|Hx2].
    + destruct (Has Hi' Hxs) as [?|?]; [by left|right]. exists t'. rewrite Hts, Hft. split_and!; try done. by eapply elem_inserted.
    + right. exists x. rewrite Hts. done.
Qed.

Lemma handler_task s s' n t t' :
  handler_inv s → u_tasks (sh s) !! n = Some t → u_tasks (sh s') = <[n := t']> (u_tasks (sh s)) → task_wf t' →
  (∀ pf, pf ∈ all_pfs s' → pf ∈ all_pfs s ∨ pf_wf pf) →
  k_removes (sk s') = k_removes (sk s) → k_zapping (sk s') = k_zapping (sk s) → u_loop (sh s') = u_loop (sh s) →
  u_closed (sh s') = u_closed (sh s) → u_tracker (sh s') = u_tracker (sh s) →
  (u_deferred (sh s') = u_deferred (sh s) ∧ u_wakeup (sh s') = u_wakeup (sh s) ∧ t_phase t ≠ Pushed ∨
   (∀ a k, d_byAddr (u_deferred (sh s')) !! a = Some k → ∃ pf, d_pf (u_deferred (sh s')) !! k = Some pf ∧ pf_address pf = a) ∧
   (u_wakeup (sh s') = true ∨ t_phase t' = Pushed)) →
  (u_closed (sh s) = true → holding (t_phase t') = false ∧ (is_fault t' = true → live t' = false)) →
  handler_inv s'.
Proof using.
  intros [I1 I2 I3 I4 I5 I6 I7] Hn Hts Hwf Hpf Hr Hz Hl Hc Htr Hd Hcl. split.
  - intros pf Hin. destruct (Hpf pf Hin) as [?|?]; auto.
  - intros x. rewrite Hts. intros [->|Hx]%(elem_insert _ _ _ _ _ Hn); auto.
  - by rewrite Hr, Hz, Hl.
  - destruct Hd as [(-> & _)|[Hd _]]; done.
  - rewrite Hl, Hts. destruct Hd as [(-> & -> & Hp)|(_ & [?|Hp])]; [|by left|].
    + intros Hne. destruct (I5 Hne) as [?|[?|(x & Hx & Hxp)]]; [by left|by right; left|]. right; right. exists x. split; [|done].
      destruct (elem_kept _ _ _ t' _ Hn Hx) as [->|?]; done.
    + intros _. right; right. exists t'. split; [by eapply elem_inserted|done].
  - by rewrite Htr.
  - rewrite Hc, Hl, Hts. intros Hcd. destruct (I7 Hcd) as [? Hall]. split; [done|].
    intros x [->|Hx]%(elem_insert _ _ _ _ _ Hn); [by apply Hcl|by apply Hall].
Qed.

Lemma task_at_spec s n p t : task_at s n p = Some t → u_tasks (sh s) !! n = Some t ∧ p (t_phase t) = true.
Proof using.
  unfold task_at. destruct (u_tasks (sh s) !! n) as [x|]; [|done]. cbn. destruct (p (t_phase x)) eqn:E; [|done]. by intros [= <-].
Qed.

(** A goroutine that was at work is open: the handler is not closed on it. *)
Lemma not_closed s t : handler_inv s → t ∈ u_tasks (sh s) → holding (t_phase t) = true → u_closed (sh s) = false.
Proof using.
  intros Hi Ht Hh. destruct (u_closed (sh s)) eqn:E; [|done]. destruct (hi_closed _ Hi E) as [_ Hall].
  destruct (Hall t Ht). congruence.
Qed.

(** The wake-up of a page is always harmless. *)
Lemma all_pfs_wake s i pf : pf ∈ all_pfs (mkSys (sh s) (wake i (sk s))) → pf ∈ all_pfs s.
Proof using.
  unfold all_pfs. cbn. rewrite !elem_of_app, list_elem_of_filter. tauto.
Qed.

Lemma wake_inv s i : inv s → inv (mkSys (sh s) (wake i (sk s))).
Proof using.
  intros [Hh Hp]. split.
  - destruct Hh as [I1 I2 I3 I4 I5 I6 I7]. split; try done. intros pf Hpf. by eapply I1, all_pfs_wake.
  - intros j. specialize (Hp j). destruct (decide (j = i)) as [->|Hne].
    + destruct Hp as [I1 I0 I2 I3 I4 I5 I6 I7 I8 I9 I10]. split; cbn [sh sk wake k_pages k_removes k_zapping k_mem k_waiting]; try done.
      * intros Hr. specialize (I1 Hr). apply not_true_is_false. intros E.
        assert (faulting s i = true); [|congruence]. apply faulting_spec in E. apply faulting_spec.
        destruct E as [?|(pf & Hpf & Hk)]; [by left|right]. exists pf. split; [by eapply all_pfs_wake|done].
      * intros Hw. apply I8. destruct Hw as [(pf & Hpf & Hk)|?]; [left|by right]. exists pf. split; [by eapply all_pfs_wake|done].
      * intros [Hne _]%list_elem_of_filter. done.
      * intros [Hne _]%list_elem_of_filter. done.
    + revert Hp. apply page_inv_same. split; try done.
      * cbn. by intros [_ ?]%list_elem_of_filter.
      * intros pf Hk. unfold all_pfs. cbn. rewrite !elem_of_app, list_elem_of_filter. split; [tauto|].
        intros [?|?]; [left; split; [congruence|done]|by right].
Qed.

(** ** The goroutines keep the invariant *)

(** A quiet step from its two halves. *)
Lemma quiet_inv s s' n t t' : inv s → quiet s s' n t t' → handler_inv s' → page_inv s' (t_idx t) → inv s'.
Proof using.
  intros [_ Hp] Hq Hh Hi. split; [done|]. intros i. destruct (decide (i = t_idx t)) as [->|Hne]; [done|].
  by apply (quiet_other s s' n t t' i Hq Hne).
Qed.

Lemma wake_none s i : i ∉ k_waiting (wake i (sk s)).
Proof using. cbn. by intros [? _]%list_elem_of_filter. Qed.

(** A goroutine moves on, and at most an exit or the end of the process is
    noticed. *)
Lemma move_inv s h' b n t t' :
  inv s → u_tasks (sh s) !! n = Some t → live t = true → t_phase t ≠ Pushed →
  u_tasks h' = <[n := t']> (u_tasks (sh s)) → u_tracker h' = u_tracker (sh s) → u_loop h' = u_loop (sh s) →
  u_deferred h' = u_deferred (sh s) → u_wakeup h' = u_wakeup (sh s) → u_closed h' = u_closed (sh s) →
  let s' := mkSys h' (with_gone (sk s) b) in
  (failed s → failed s') →
  t_idx t' = t_idx t → is_fault t' = is_fault t → t_access t' = t_access t → task_wf t' →
  (u_closed (sh s) = true → holding (t_phase t') = false ∧ (is_fault t' = true → live t' = false)) →
  let i := t_idx t in
  task_ok (tracker_at s i) (page_at s i) (k_mem (sk s) i) (unwritten s i) t' →
  (holding (t_phase t') = true → holding (t_phase t) = true ∧ t_nosource t' = t_nosource t ∨ zapping s i = unapplied s i ∧
     ∀ x, x ∈ u_tasks (sh s) → t_idx x = i → holding (t_phase x) = true → t_nosource x = t_nosource t') →
  (t_phase t' = Zeroed → t_phase t = Zeroed) →
  (i ∈ k_waiting (sk s) → is_fault t = true → serving (tracker_at s i) (t_phase t) →
     failed s' ∨ serving (tracker_at s i) (t_phase t')) →
  (i ∈ k_waiting (sk s) → asleep (t_phase t) → failed s' ∨ asleep (t_phase t')) →
  inv s'.
Proof using.
  intros Hinv Hn Hl Hnp Hts Htr Hlp Hd Hw Hc s' Hf Hi Hft Ha Hwf Hcl i Htok Hsrc Hz Hsv Has.
  assert (Hpfs : all_pfs s' = all_pfs s) by (unfold all_pfs, s'; cbn; by rewrite Hlp, Hd).
  assert (Hq : quiet s s' n t t').
  { split; try done; [intros j; cbn; by rewrite Htr|]. intros pf _. by rewrite Hpfs. }
  apply (quiet_inv s s' n t t' Hinv Hq).
  - apply (handler_task s s' n t t'); try done; [apply Hinv|by intros pf Hpf; left; rewrite <- Hpfs|by left].
  - apply (quiet_page s s' n t t' Hq); try done; [apply Hinv|by rewrite Hpfs| | |].
    + intros pf Hpf Hk Hfl. left. exists pf. by rewrite <- Hpfs.
    + intros Hi' Hf' Hse. destruct (Hsv Hi' Hf' Hse) as [?|?]; [by left|right; right]. exists t'. unfold s'; cbn.
      rewrite Hts, Htr, Hi, Hft. split_and!; try done. by eapply elem_inserted.
    + intros _ pf Hpf Hk. left. exists pf. by rewrite Hpfs.
Qed.

Lemma in_tasks s n t : u_tasks (sh s) !! n = Some t → t ∈ u_tasks (sh s).
Proof using. apply list_elem_of_lookup_2. Qed.

Lemma settle_inv s n t e :
  inv s → u_tasks (sh s) !! n = Some t → (t_phase t = Looked ∨ t_phase t = Unprotected e) →
  (e = EEXIST → is_Some (page_at s (t_idx t))) → (t_phase t = Unprotected e → t_idx t ∉ k_waiting (sk s)) → inv (settle s n t e).
Proof using.
  intros Hinv Hn Hph Hex Hun. pose proof (in_tasks _ _ _ Hn) as Hin. destruct Hinv as [Hh Hp].
  assert (Hhold : holding (t_phase t) = true) by (by destruct Hph as [-> | ->]).
  pose proof (pi_task _ _ (Hp (t_idx t)) t Hin eq_refl) as Htok.
  assert (Hso : source_ok (tracker_at s (t_idx t)) (t_nosource t)) by (by apply Htok).
  apply (move_inv s _ _ n t (at_phase t (settle_phase e))); try done.
  - by apply holding_live.
  - by destruct Hph as [-> | ->].
  - unfold failed, settle; cbn. intros [->|[?|Hg]]; [by left|by right; left|right; right; by rewrite Hg].
  - pose proof (hi_tasks _ Hh t Hin) as Hwf. unfold task_wf, at_phase in *; cbn. destruct Hwf as [? Hj]. split; [done|].
    destruct (t_job t); [done|]. destruct Hj as (? & ? & ? & Hj). split_and!; try done. intros _. by apply Hj.
  - intros Hc. exfalso. by rewrite (not_closed s t Hh Hin Hhold) in Hc.
  - split; [done|]. cbn. destruct e; cbn; try done. by apply Hex.
  - intros _. by left.
  - by destruct e.
  - intros Hw Hft _. unfold failed, settle; cbn. rewrite Hft. destruct e; cbn; [by right|left; right; right|by right|left; left]; apply orb_true_r.
  - intros Hw Hs. destruct Hph as [E|E]; [by rewrite E in Hs|]. by destruct (Hun E).
Qed.

Lemma lookup_inv s n s' : inv s → lookup_ s n = Some s' → inv s'.
Proof using Hok.
  intros Hinv. unfold lookup_. destruct (task_at s n _) as [t|] eqn:Et; [|done]. cbn.
  apply task_at_spec in Et as [Hn Hph]. assert (Hst : t_phase t = Starting) by (by destruct (t_phase t)). clear Hph.
  pose proof (in_tasks _ _ _ Hn) as Hin. pose proof Hinv as [Hh Hp]. pose proof (hi_tasks _ Hh t Hin) as Hwf.
  assert (Hdone : ∀ t', t' = at_phase t Returned → (is_fault t = true → tracker_at s (t_idx t) = SDirty) →
    inv (mkSys (with_task (sh s) n t') (sk s))).
  { intros t' -> Hf. assert (E : sk s = with_gone (sk s) (k_gone (sk s))) by (by destruct (sk s)). rewrite E.
    apply (move_inv s _ _ n t (at_phase t Returned)); try done.
    - unfold live. by rewrite Hst.
    - by rewrite Hst.
    - unfold task_wf, at_phase in *; cbn. destruct Hwf as [? Hj]. split; [done|]. destruct (t_job t); [done|]. by destruct Hj as (? & ? & ? & _).
    - intros _ Hft. rewrite Hst, (Hf Hft). cbn. done.
    - by rewrite Hst. }
  assert (Hlook : ∀ t' ns, t_phase t' = Looked → t_nosource t' = ns → t_idx t' = t_idx t → is_fault t' = is_fault t →
    t_access t' = t_access t → task_wf t' → u_closed (sh s) = false → (is_fault t = true ∨ ns = false) →
    (if ns then tracker_at s (t_idx t) = SZero else tracker_at s (t_idx t) = NotPresent) → inv (mkSys (with_task (sh s) n t') (sk s))).
  { intros t' ns Hph Hns Hi Hft Ha Hw Hc Hfn Hs.
    assert (Hsteady : zapping s (t_idx t) = unapplied s (t_idx t)).
    { specialize (Hp (t_idx t)). pose proof (pi_once _ _ Hp). destruct (decide (zapping s (t_idx t) = O)) as [Ez|Ez], (decide (unapplied s (t_idx t) = O)) as [El|El]; try lia.
      - destruct (pi_zapped _ _ Hp Ez El) as (_ & _ & Hall). specialize (Hall t Hin eq_refl). unfold live in Hall. by rewrite Hst in Hall.
      - destruct (pi_applied _ _ Hp El Ez) as [Hz _]. destruct Hfn as [Hf| ->]; [|congruence].
        assert (Hrm : removing s (t_idx t) = true) by (apply not_false_iff_true; rewrite removing_spec; tauto).
        pose proof (pi_busy _ _ Hp Hrm) as Hb. assert (faulting s (t_idx t) = true); [|congruence].
        apply faulting_spec. left. exists t. split_and!; try done. unfold live. by rewrite Hst. }
    assert (E : sk s = with_gone (sk s) (k_gone (sk s))) by (by destruct (sk s)). rewrite E.
    apply (move_inv s _ _ n t t'); try done; rewrite ?Hst; try done.
    - unfold live. by rewrite Hst.
    - by rewrite Hc.
    - split; rewrite Hph; [|done]. intros _. rewrite Hns. destruct ns; cbn; by rewrite Hs.
    - intros _. right. split; [by apply Hsteady|]. intros x Hx Hxi Hxh. destruct (pi_task _ _ (Hp (t_idx t)) x Hx Hxi) as [Hso _]. specialize (Hso Hxh). rewrite Hns.
      destruct ns, (t_nosource x); cbn in Hso; try done; by rewrite Hs in Hso.
    - by rewrite Hph.
    - intros _ _ _. right. by rewrite Hph. }
  destruct Hwf as [Hal Hj]. destruct (t_job t) as [pf|data] eqn:Ej.
  - assert (Hc : u_closed (sh s) = false).
    { destruct (u_closed (sh s)) eqn:Ec; [|done]. destruct (hi_closed _ Hh Ec) as [_ Hall]. destruct (Hall t Hin) as [_ Hl].
      unfold is_fault, live in Hl. rewrite Ej, Hst in Hl. by specialize (Hl eq_refl). }
    destruct (tracker_at s (t_idx t)) eqn:Eg; intros [= <-].
    + apply (Hlook _ false); try done; unfold is_fault; rewrite Ej; auto.
    + by apply Hdone.
    + apply (Hlook _ true); try done; unfold is_fault; rewrite Ej; auto.
  - assert (Hnf : is_fault t = true → tracker_at s (t_idx t) = SDirty) by (unfold is_fault; by rewrite Ej).
    destruct (u_closed (sh s)) eqn:Ec; [intros [= <-]; by apply Hdone|].
    destruct (GetHostVirtAddr ma (t_off t)) as [addr|] eqn:Ea; [|intros [= <-]; by apply Hdone].
    destruct (Z.eqb_spec (len data) ps) as [Hlen|]; cbn [negb]; [|intros [= <-]; by apply Hdone].
    destruct (tracker_at s (t_idx t)) eqn:Eg; intros [= <-]; [|by apply Hdone..].
    destruct Hj as (Ha & Hns & Hd & _). apply (Hlook _ false); try done; [by unfold is_fault; cbn; rewrite Ej| |by right].
    split; [done|]. cbn. split_and!; try done. intros _. split; [|done].
    apply (GetHostVirtAddr_maps _ (mo_regions Hok)) in Ea. by apply (GetOffset_maps _ (mo_regions Hok)).
Qed.

Lemma faulting_insert s h' k' n t t' : u_tasks (sh s) !! n = Some t → live t = true → live t' = true → t_idx t' = t_idx t →
  is_fault t' = is_fault t → u_tasks h' = <[n := t']> (u_tasks (sh s)) → (∀ pf, pf ∈ all_pfs (mkSys h' k') ↔ pf ∈ all_pfs s) →
  faulting (mkSys h' k') (t_idx t) = faulting s (t_idx t).
Proof using.
  intros Hn Hl Hl' Hi Hf Hts Hpf. apply eq_true_iff_eq. rewrite !faulting_spec. cbn [sh]. rewrite Hts. setoid_rewrite Hpf.
  split; (intros [(x & Hx & Hxf & Hxl & Hxi)|?]; [left|by right]).
  - apply (elem_insert _ _ _ _ _ Hn) in Hx as [->|Hx]; [exists t; split_and!; try done; [by apply in_tasks in Hn|congruence]|by exists x].
  - destruct (elem_kept _ _ _ t' _ Hn Hx) as [->|Hx']; [|by exists x]. exists t'. split_and!; try done; [by eapply elem_inserted|congruence].
Qed.

(** What a page not mapped holds, by the state under which it was looked up. *)
Lemma missing_page s t : inv s → t ∈ u_tasks (sh s) → holding (t_phase t) = true → page_at s (t_idx t) = None →
  k_mem (sk s) (t_idx t) = (if t_nosource t then zeros else src (t_idx t * ps)) ∧ tracker_at s (t_idx t) ≠ SDirty.
Proof using.
  intros [Hh Hp] Ht Hhold Hpg. specialize (Hp (t_idx t)). pose proof (holding_steady s t _ Hp Ht eq_refl Hhold) as Hst.
  pose proof (pi_data _ _ Hp Hst) as Hd. rewrite Hpg in Hd. destruct (pi_task _ _ Hp t Ht eq_refl) as [Hso _]. specialize (Hso Hhold).
  destruct (tracker_at s (t_idx t)), (t_nosource t); cbn in Hd, Hso; done.
Qed.

Lemma task_wf_phase t p : task_wf t → holding (t_phase t) = true → task_wf (at_phase t p).
Proof using.
  intros [? Hj] Hh. split; [done|]. cbn. destruct (t_job t); [done|]. destruct Hj as (? & ? & ? & Hj). split_and!; try done.
  intros _. by apply Hj.
Qed.

Definition populated (s : sys) (n : nat) (t : task) (p : page) (ph : phase) : sys :=
  mkSys (with_task (sh s) n (at_phase t ph)) (with_pages (sk s) (<[t_idx t := p]> (k_pages (sk s)))).

Lemma populated_page s n t p ph :
  inv s → u_tasks (sh s) !! n = Some t → t_phase t = Looked → page_at s (t_idx t) = None →
  p_data p = (if t_nosource t then zeros else src (t_idx t * ps)) →
  (ph = Zeroed ∧ t_nosource t = true ∧ is_fault t = true ∨ ph = Result faultInstalled ∧ t_idx t ∉ k_waiting (sk s)) →
  page_inv (populated s n t p ph) (t_idx t).
Proof using.
  intros Hinv Hn Hph Hpg Hpd Hcase. pose proof (in_tasks _ _ _ Hn) as Hin.
  assert (Hhold : holding (t_phase t) = true) by (by rewrite Hph).
  destruct (missing_page s t Hinv Hin Hhold Hpg) as [Hm Hnd]. destruct Hinv as [Hh Hp]. specialize (Hp (t_idx t)).
  pose proof (holding_steady s t _ Hp Hin eq_refl Hhold) as Hst.
  destruct Hp as [I1 I0 I2 I3 I4 I5 I6 I7 I8 I9 I10]. set (i := t_idx t) in *. set (t' := at_phase t ph).
  assert (Hph' : ph = Zeroed ∨ ph = Result faultInstalled) by (destruct Hcase as [[? _]|[? _]]; auto).
  assert (Hpg' : <[i := p]> (k_pages (sk s)) !! i = Some p) by apply lookup_insert_eq.
  assert (Hserve : i ∈ k_waiting (sk s) → t_nosource t = true ∧ is_fault t = true ∧ ph = Zeroed) by (intros Hw; by destruct Hcase as [(-> & ? & ?)|[_ ?]]).
  split; cbn [populated sh sk with_task with_tasks with_pages u_tracker u_loop u_tasks k_pages k_mem k_removes k_zapping k_waiting]; fold i t'.
  - intros Hr. change (removing s i = true) in Hr. transitivity (faulting s i); [|by apply I1].
    apply (faulting_insert s _ _ n t t'); try done; [by apply holding_live|]. unfold live. cbn. by destruct Hph' as [-> | ->].
  - exact I0.
  - intros Hz0 Hl0. congruence.
  - intros Hl0 Hz0. congruence.
  - intros q. rewrite Hpg'. intros [= <-]. by rewrite Hpd, Hm.
  - intros _. rewrite Hpg'. specialize (I5 Hst). rewrite Hpg in I5. by destruct (tracker_at s i); cbn in *.
  - intros x [->|Hx]%(elem_insert _ _ _ _ _ Hn) Hxi; rewrite Hpg'.
    + split; [intros _; by apply (I6 t Hin)|]. cbn. destruct Hcase as [(-> & Hns & _)|[-> _]]; [|done]. rewrite Hns in Hm. by split_and!.
    + destruct (I6 x Hx Hxi) as [Hso Hx2]. split; [done|]. destruct (t_phase x) as [| | |e| | |[]| | |]; try done.
      destruct Hx2 as (? & _ & ? & ?). done.
  - intros x y [->|Hx]%(elem_insert _ _ _ _ _ Hn) [->|Hy]%(elem_insert _ _ _ _ _ Hn) Hxi Hyi Hxh Hyh; [done|by apply (I7 t y)|by apply (I7 x t)|by apply I7].
  - intros Hw. assert (Hws : writer s i).
    { destruct Hw as [?|(x & Hx & Hxi & Hxl & Hxa)]; [by left|right]. apply (elem_insert _ _ _ _ _ Hn) in Hx as [->|Hx]; [|by exists x].
      exists t. split_and!; try done. by apply holding_live. }
    destruct (I8 Hws) as [?|(q & Hq & _)]; [by left|]. congruence.
  - intros Hw. destruct (Hserve Hw) as (_ & Hf & Hz). right; right. exists t'. cbn. split_and!; try done; [by eapply elem_inserted|by rewrite Hz].
  - intros Hw _. destruct (Hserve Hw) as (_ & Hf & Hz). right. exists t'. cbn. split_and!; try done; [by eapply elem_inserted|by rewrite Hz].
Qed.

Lemma populated_inv s n t p ph :
  inv s → u_tasks (sh s) !! n = Some t → t_phase t = Looked → page_at s (t_idx t) = None →
  p_data p = (if t_nosource t then zeros else src (t_idx t * ps)) →
  (ph = Zeroed ∧ t_nosource t = true ∧ is_fault t = true ∨ ph = Result faultInstalled ∧ t_idx t ∉ k_waiting (sk s)) →
  inv (populated s n t p ph).
Proof using.
  intros Hinv Hn Hph Hpg Hpd Hcase. pose proof (in_tasks _ _ _ Hn) as Hin. pose proof Hinv as [Hh Hp].
  assert (Hhold : holding (t_phase t) = true) by (by rewrite Hph). split.
  - apply (handler_task s _ n t (at_phase t ph)); try done; [by apply task_wf_phase, Hhold; apply Hh| | |].
    + by left.
    + left. by rewrite Hph.
    + intros Hc. by rewrite (not_closed s t Hh Hin Hhold) in Hc.
  - intros j. destruct (decide (j = t_idx t)) as [->|Hne]; [by apply populated_page|].
    specialize (Hp j). revert Hp. apply page_inv_same. split; try done.
    + cbn. by rewrite lookup_insert_ne.
    + intros x Hx. cbn. by apply (tasks_other _ _ t _ j).
Qed.

Lemma populate_err i p g e g' : populate i p g (Some e) = Some g' → e = EEXIST → is_Some (g !! i).
Proof using. intros Hp ->. unfold populate in Hp. by destruct (g !! i). Qed.

Lemma populate_ok i p g g' : populate i p g None = Some g' → g !! i = None ∧ g' = <[i := p]> g.
Proof using. unfold populate. destruct (g !! i); [done|]. by intros [= <-]. Qed.

Lemma install_inv s n t p r s' : inv s → u_tasks (sh s) !! n = Some t → t_phase t = Looked →
  p_data p = (if t_nosource t then zeros else src (t_idx t * ps)) → install s n t p r = Some s' → inv s'.
Proof using Hok.
  intros Hinv Hn Hph Hpd. pose proof (in_tasks _ _ _ Hn) as Hin. pose proof Hinv as [Hh _].
  destruct (task_page t (hi_tasks _ Hh t Hin)) as (Hk & _); [by rewrite Hph|]. unfold install. rewrite Hk.
  destruct (populate _ _ _ r) as [g|] eqn:Hpop; [|done]. cbn. destruct r as [e|]; intros [= <-].
  - apply settle_inv; try done; [by left| |by rewrite Hph]. by apply (populate_err _ _ _ _ _ Hpop).
  - apply populate_ok in Hpop as [Hpg ->].
    apply (populated_inv (mkSys (sh s) (wake (t_idx t) (sk s))) n t p (Result faultInstalled)); try done; [by apply wake_inv|].
    right. split; [done|apply wake_none].
Qed.

Lemma install_asleep_inv s n t p r s' : inv s → u_tasks (sh s) !! n = Some t → t_phase t = Looked →
  t_nosource t = true → p_data p = zeros → install_asleep s n t p r = Some s' → inv s'.
Proof using Hok.
  intros Hinv Hn Hph Hns Hpd. pose proof (in_tasks _ _ _ Hn) as Hin. pose proof Hinv as [Hh _]. pose proof (hi_tasks _ Hh t Hin) as Hwf.
  destruct (task_page t Hwf) as (Hk & _); [by rewrite Hph|]. unfold install_asleep. rewrite Hk.
  destruct (populate _ _ _ r) as [g|] eqn:Hpop; [|done]. cbn. destruct r as [e|]; intros [= <-].
  - apply settle_inv; try done; [by left| |by rewrite Hph]. by apply (populate_err _ _ _ _ _ Hpop).
  - apply populate_ok in Hpop as [Hpg ->].
    apply (populated_inv s n t p Zeroed); try done; [by rewrite Hns|]. left. split_and!; try done.
    destruct Hwf as [_ Hj]. unfold is_fault. destruct (t_job t); [done|]. destruct Hj as (_ & Hns' & _). congruence.
Qed.

Lemma fetch_page_ok k off reads b : reads_ok off reads = true → fetch_page k ps reads = Some b → b = src off.
Proof using.
  revert reads. induction k as [|k IH]; intros [|[r c] reads] Hr Hf; try done. cbn in Hr, Hf. apply andb_true_iff in Hr as [Hr1 Hr].
  assert (Hagain : (if (k =? 0)%nat || c then None else fetch_page k ps reads) = Some b → b = src off)
    by (destruct ((k =? 0)%nat || c); [done|by apply IH]).
  destruct r as [x|]; [|by apply Hagain]. destruct (len x =? ps); [|by apply Hagain]. injection Hf as <-. cbn in Hr1. by apply bool_decide_eq_true in Hr1.
Qed.

Lemma copy_source_plan t : fault_plan ps (t_nosource t) (t_access t) = CopySource → task_wf t → t_nosource t = false.
Proof using Hok.
  unfold fault_plan. intros Hpl [_ Hj]. destruct (t_nosource t) eqn:En; [|done]. cbn in Hpl.
  destruct (mo_ps Hok) as [E|E]; rewrite E in Hpl; cbn in Hpl; [|done].
  destruct (t_job t) as [pf|]; [|destruct Hj as (? & ? & _); congruence]. destruct Hj as (_ & _ & Ha). rewrite Ha in Hpl.
  by destruct (has_flag pf _).
Qed.

Lemma faultPage_inv s n reads a s' : inv s → faultPage s n reads a = Some s' → inv s'.
Proof using Hok.
  intros Hinv. unfold faultPage. destruct (task_at s n _) as [t|] eqn:Et; [|done]. cbn.
  apply task_at_spec in Et as [Hn Hph]. assert (Hlk : t_phase t = Looked) by (by destruct (t_phase t)). clear Hph.
  pose proof (in_tasks _ _ _ Hn) as Hin. pose proof (hi_tasks _ (proj1 Hinv) t Hin) as Hwf.
  destruct (task_page t Hwf) as (_ & Hoff & _); [by rewrite Hlk|].
  destruct (fault_plan ps (t_nosource t) (t_access t)) eqn:Epl.
  1-3: assert (Hns : t_nosource t = true) by (unfold fault_plan in Epl; by destruct (t_nosource t)).
  - by apply install_asleep_inv.
  - apply install_inv; try done. by rewrite Hns.
  - apply install_inv; try done. by rewrite Hns.
  - pose proof (copy_source_plan t Epl Hwf) as Hns. destruct (reads_ok (t_off t) reads) eqn:Er; [|done].
    destruct (page_source t reads) as [b|] eqn:Eb.
    + apply install_inv; try done. rewrite Hns, Hoff. cbn. unfold page_source in Eb. destruct Hwf as [_ Hj].
      destruct (t_job t) as [pf|data]; [by eapply fetch_page_ok|]. injection Eb as ->. destruct Hj as (_ & _ & Hd & Hl). apply Hd, Hl. by rewrite Hlk.
    + intros [= <-]. apply settle_inv; try done; [by left|by rewrite Hlk].
Qed.

Lemma protected_page s n t :
  inv s → u_tasks (sh s) !! n = Some t → t_phase t = Zeroed →
  page_inv (mkSys (with_task (sh s) n (at_phase t Protected)) (with_pages (sk s) (protect (t_idx t) (k_pages (sk s))))) (t_idx t).
Proof using.
  intros Hinv Hn Hph. pose proof (in_tasks _ _ _ Hn) as Hin. assert (Hhold : holding (t_phase t) = true) by (by rewrite Hph).
  destruct Hinv as [Hh Hp]. specialize (Hp (t_idx t)). pose proof (holding_steady s t _ Hp Hin eq_refl Hhold) as Hst.
  destruct Hp as [I1 I0 I2 I3 I4 I5 I6 I7 I8 I9 I10]. set (i := t_idx t) in *. set (t' := at_phase t Protected).
  destruct (I6 t Hin eq_refl) as [Hso Hz]. rewrite Hph in Hz. destruct Hz as (Hns & [p Hpg] & Hm & Hd). specialize (Hso Hhold). rewrite Hns in Hso.
  assert (Hpg' : protect i (k_pages (sk s)) !! i = Some (mkPage (p_data p) true)) by (unfold protect; by rewrite lookup_alter_eq, Hpg).
  split; cbn [sh sk with_task with_tasks with_pages u_tracker u_loop u_tasks k_pages k_mem k_removes k_zapping k_waiting]; fold i t'.
  - intros Hr. change (removing s i = true) in Hr. transitivity (faulting s i); [|by apply I1].
    apply (faulting_insert s _ _ n t t'); try done. by apply holding_live.
  - exact I0.
  - intros Hz0 Hl0. congruence.
  - intros Hl0 Hz0. congruence.
  - intros q. rewrite Hpg'. intros [= <-]. cbn. by apply I4.
  - intros _. rewrite Hpg'. change (data_ok i (tracker_at s i) (Some (mkPage (p_data p) true)) (k_mem (sk s) i) (unwritten s i)).
    clear -Hso Hm Hd. destruct (tracker_at s i); cbn in *; [done|by intros _; right; apply Hd|done].
  - intros x [->|Hx]%(elem_insert _ _ _ _ _ Hn) Hxi; rewrite Hpg'.
    + split; [intros _; cbn; by rewrite Hns|cbn; by eexists].
    + destruct (I6 x Hx Hxi) as [Hso' Hx2]. split; [done|]. destruct (t_phase x) as [| | |e| | |[]| | |]; try done.
      destruct Hx2 as (? & _ & ? & ?). done.
  - intros x y [->|Hx]%(elem_insert _ _ _ _ _ Hn) [->|Hy]%(elem_insert _ _ _ _ _ Hn) Hxi Hyi Hxh Hyh; [done|by apply (I7 t y)|by apply (I7 x t)|by apply I7].
  - intros Hw. left. assert (Hws : writer s i).
    { destruct Hw as [?|(x & Hx & Hxi & Hxl & Hxa)]; [by left|right]. apply (elem_insert _ _ _ _ _ Hn) in Hx as [->|Hx]; [|by exists x].
      exists t. split_and!; try done. by apply holding_live. }
    destruct (I8 Hws) as [?|(q & Hq & _ & Hzf)]; [done|]. assert (zeroing s i = true) by (apply zeroing_spec; by exists t). congruence.
  - intros Hw. destruct (I9 Hw) as [?|[?|(x & Hx & Hxi & Hxf & Hxs)]]; [by left|right; by left|right; right].
    destruct (elem_kept _ _ _ t' _ Hn Hx) as [->|?]; [|by exists x]. exists t'. split_and!; try done. by eapply elem_inserted.
  - intros Hw _. destruct (I10 Hw ltac:(by eexists)) as [?|(x & Hx & Hxi & Hxf & Hxs)]; [by left|right].
    destruct (elem_kept _ _ _ t' _ Hn Hx) as [->|?]; [|by exists x]. exists t'. split_and!; try done. by eapply elem_inserted.
Qed.

Lemma write_protect_inv s n r s' : inv s → write_protect s n r = Some s' → inv s'.
Proof using Hok.
  intros Hinv. unfold write_protect. destruct (task_at s n _) as [t|] eqn:Et; [|done]. cbn.
  apply task_at_spec in Et as [Hn Hph]. assert (Hz : t_phase t = Zeroed) by (by destruct (t_phase t)). clear Hph.
  pose proof (in_tasks _ _ _ Hn) as Hin. pose proof Hinv as [Hh Hp]. pose proof (hi_tasks _ Hh t Hin) as Hwf.
  assert (Hhold : holding (t_phase t) = true) by (by rewrite Hz). destruct (task_page t Hwf Hhold) as (Hk & _). rewrite Hk.
  destruct r as [e|]; intros [= <-].
  - assert (E : sk s = with_gone (sk s) (k_gone (sk s))) by (by destruct (sk s)). rewrite E.
    apply (move_inv s _ _ n t (at_phase t (Unprotected e))); try done; rewrite ?Hz; try done.
    + by apply holding_live.
    + by apply task_wf_phase.
    + intros Hc. by rewrite (not_closed s t Hh Hin Hhold) in Hc.
    + destruct (pi_task _ _ (Hp (t_idx t)) t Hin eq_refl) as [Hso Hzz]. rewrite Hz in Hzz. split; [intros _; by apply Hso|]. by apply Hzz.
    + intros _. by left.
    + by right.
    + by right.
  - split.
    + apply (handler_task s _ n t (at_phase t Protected)); try done; [by apply task_wf_phase|by left| |].
      * left. by rewrite Hz.
      * intros Hc. by rewrite (not_closed s t Hh Hin Hhold) in Hc.
    + intros j. destruct (decide (j = t_idx t)) as [->|Hne]; [by apply protected_page|].
      specialize (Hp j). revert Hp. apply page_inv_same. split; try done.
      * cbn. unfold protect. by rewrite lookup_alter_ne.
      * intros x Hx. cbn. by apply (tasks_other _ _ t _ j).
Qed.

Lemma wake_up_inv s n s' : inv s → wake_up s n = Some s' → inv s'.
Proof using Hok.
  intros Hinv. unfold wake_up. destruct (u_tasks (sh s) !! n) as [t|] eqn:Hn; [|done]. cbn.
  pose proof (in_tasks _ _ _ Hn) as Hin. pose proof Hinv as [Hh Hp]. pose proof (hi_tasks _ Hh t Hin) as Hwf.
  destruct (holding (t_phase t)) eqn:Hhold; [|by destruct (t_phase t)]. destruct (task_page t Hwf Hhold) as (Hk & _). rewrite Hk.
  pose proof (wake_inv s (t_idx t) Hinv) as Hwi. set (s1 := mkSys (sh s) (wake (t_idx t) (sk s))) in *.
  pose proof (wake_none s (t_idx t)) as Hnw.
  destruct (pi_task _ _ (Hp (t_idx t)) t Hin eq_refl) as [Hso Hpg]. specialize (Hso Hhold).
  assert (Hres : ∀ o, o = faultInstalled ∨ o = faultAlreadyPresent → t_phase t = Protected ∨ t_phase t = Exists_ →
    inv (mkSys (with_task (sh s1) n (at_phase t (Result o))) (sk s1))).
  { intros o Ho Hph. assert (E : sk s1 = with_gone (sk s1) (k_gone (sk s1))) by done. rewrite E.
    apply (move_inv s1 _ _ n t (at_phase t (Result o))); try done.
    - by apply holding_live.
    - by destruct Hph as [-> | ->].
    - by apply task_wf_phase.
    - intros Hc. change (u_closed (sh s) = true) in Hc. by rewrite (not_closed s t Hh Hin Hhold) in Hc.
    - split; [by intros _|]. destruct Hph as [E1|E1]; rewrite E1 in Hpg; by destruct Ho as [-> | ->].
    - intros _. by left. }
  destruct (t_phase t) eqn:Hph; try done; intros [= <-].
  - apply (settle_inv s1 n t e); try done; [by right].
  - apply Hres; auto.
  - apply Hres; auto.
Qed.

(** Marking the page of an install. *)
Lemma Get_set_dirty h t i : task_wf t → holding (t_phase t) = true →
  Get (u_tracker (set_dirty h t)) i = if i =? t_idx t then SDirty else Get (u_tracker h) i.
Proof using Hok.
  intros Hwf Hh. destruct (task_page t Hwf Hh) as (_ & _ & H0 & H1). unfold set_dirty. cbn.
  rewrite (u32_id (t_idx t + 1)) by ilia. rewrite Get_SetRange by ilia. unfold in_range. cbn.
  destruct (Z.leb_spec (t_idx t) i), (Z.ltb_spec i (t_idx t + 1)), (Z.eqb_spec i (t_idx t)); cbn; try lia; done.
Qed.

Lemma dirty_page s t :
  inv s → t ∈ u_tasks (sh s) → (t_phase t = Result faultInstalled ∨ t_phase t = Result faultAlreadyPresent) →
  (t_nosource t = false ∨ t_access t = Write) → page_inv (mkSys (set_dirty (sh s) t) (sk s)) (t_idx t).
Proof using Hok.
  intros Hinv Hin Hph Hsa. assert (Hhold : holding (t_phase t) = true) by (by destruct Hph as [-> | ->]).
  destruct Hinv as [Hh Hp]. specialize (Hp (t_idx t)). pose proof (holding_steady s t _ Hp Hin eq_refl Hhold) as Hst.
  pose proof (hi_tasks _ Hh t Hin) as Hwf. pose proof (Get_set_dirty (sh s) t (t_idx t) Hwf Hhold) as Hget. rewrite Z.eqb_refl in Hget.
  destruct Hp as [I1 I0 I2 I3 I4 I5 I6 I7 I8 I9 I10]. set (i := t_idx t) in *. destruct (I6 t Hin eq_refl) as [Hso Hpg]. specialize (Hso Hhold).
  assert (Hmapped : is_Some (page_at s i)) by (by destruct Hph as [E|E]; rewrite E in Hpg). destruct Hmapped as [p Hp].
  assert (Hws : t_access t = Write → writer s i).
  { intros Ha. right. exists t. split_and!; try done. by apply holding_live. }
  assert (Hu : t_nosource t = true → unwritten s i ∨ p_wp p = false ∧ zeroing s i = false).
  { intros Hns. destruct Hsa as [?|Ha]; [congruence|]. destruct (I8 (Hws Ha)) as [?|(q & Hq & ? & ?)]; [by left|right]. rewrite Hp in Hq. by injection Hq as <-. }
  split; cbn [sh sk]; try done.
  - intros Hl0 Hz0. change (unapplied s i = O) in Hl0. congruence.
  - intros _. cbn [sh sk]. rewrite Hget, Hp. cbn. intros Hwp. specialize (I5 Hst). rewrite Hp in I5.
    destruct (tracker_at s i) eqn:Eg; cbn in I5; [left; auto|by apply I5|]. right.
    destruct (t_nosource t) eqn:Ens; [|done]. destruct (Hu eq_refl) as [?|[? _]]; [done|congruence].
  - intros x Hx Hxi. rewrite Hget. destruct (I6 x Hx Hxi) as [Hsx Hx2]. split; [intros _; unfold source_ok; by destruct (t_nosource x)|].
    destruct (t_phase x) as [| | |e| | |[]| | |] eqn:Ex; try done. destruct Hx2 as (Hns & Hs & Hz & _). split_and!; try done. intros _.
    assert (Hn : t_nosource t = true) by (rewrite <- Hns; apply (I7 t x); try done; by rewrite Ex).
    destruct (Hu Hn) as [?|[_ Hzf]]; [done|]. assert (zeroing s i = true) by (apply zeroing_spec; by exists x). congruence.
  - intros Hw. destruct (I10 Hw ltac:(by eexists)) as [?|(x & Hx & Hxi & Hxf & Hxs)]; [by left|right; right].
    exists x. split_and!; try done. by destruct (t_phase x).
Qed.

Lemma dirty_inv s t :
  inv s → t ∈ u_tasks (sh s) → (t_phase t = Result faultInstalled ∨ t_phase t = Result faultAlreadyPresent) →
  (t_nosource t = false ∨ t_access t = Write) → inv (mkSys (set_dirty (sh s) t) (sk s)).
Proof using Hok.
  intros Hinv Hin Hph Hsa. assert (Hhold : holding (t_phase t) = true) by (by destruct Hph as [-> | ->]).
  pose proof Hinv as [Hh Hp]. pose proof (hi_tasks _ Hh t Hin) as Hwf. split.
  - destruct Hh as [J1 J2 J3 J4 J5 J6 J7]. destruct (task_page t Hwf Hhold) as (_ & _ & H0 & H1). split; try done. cbn.
    rewrite (u32_id (t_idx t + 1)) by ilia. apply SetRange_disjoint; [ilia..|done].
  - intros j. destruct (decide (j = t_idx t)) as [->|Hne]; [by apply dirty_page|]. specialize (Hp j). revert Hp.
    apply page_inv_same. split; try done. cbn [sh]. rewrite Get_set_dirty by done. by destruct (Z.eqb_spec j (t_idx t)).
Qed.

(** ** Deferring *)

Lemma push_spec pf d : (∀ a k, d_byAddr d !! a = Some k → ∃ q, d_pf d !! k = Some q ∧ pf_address q = a) →
  (∀ q, q ∈ d_pf (push pf d) → q = pf ∨ ∃ q0, q0 ∈ d_pf d ∧ pf_address q = pf_address q0 ∧
     (q = q0 ∨ pf_address q = pf_address pf ∧ has_flag pf UFFD_PAGEFAULT_FLAG_WRITE = true) ∧ (guest_flags q0 → guest_flags q)) ∧
  (∀ q, q ∈ d_pf d → pf_address q = pf_address pf ∨ q ∈ d_pf (push pf d)) ∧
  (∃ q, q ∈ d_pf (push pf d) ∧ pf_address q = pf_address pf) ∧
  (∀ a k, d_byAddr (push pf d) !! a = Some k → ∃ q, d_pf (push pf d) !! k = Some q ∧ pf_address q = a).
Proof using.
  intros Hd. unfold push. destruct (d_byAddr d !! pf_address pf) as [k|] eqn:Ek.
  - destruct (Hd _ _ Ek) as (q0 & Hq0 & Ha0). destruct (has_flag pf UFFD_PAGEFAULT_FLAG_WRITE) eqn:Ew; cbn [d_pf d_byAddr].
    + set (up := λ e, mkFault (Z.lor (pf_flags e) UFFD_PAGEFAULT_FLAG_WRITE) (pf_address e)).
      assert (Hk : alter up k (d_pf d) !! k = Some (up q0)) by (by rewrite list_lookup_alter_eq, Hq0). split_and!.
      * intros q [j Hj]%list_elem_of_lookup. right. destruct (decide (j = k)) as [->|Hne].
        -- rewrite Hk in Hj. injection Hj as <-. exists q0. split_and!; [by eapply list_elem_of_lookup_2|done|right; done|]. cbn. unfold guest_flags. cbn. intros [-> | ->]; by right.
        -- rewrite list_lookup_alter_ne in Hj by done. exists q. split_and!; [by eapply list_elem_of_lookup_2|done|by left|done].
      * intros q [j Hj]%list_elem_of_lookup. destruct (decide (j = k)) as [->|Hne]; [left; congruence|right].
        eapply list_elem_of_lookup_2. by rewrite list_lookup_alter_ne.
      * exists (up q0). split; [by eapply list_elem_of_lookup_2|done].
      * intros a j Hj. destruct (Hd _ _ Hj) as (q & Hq & Ha). destruct (decide (j = k)) as [->|Hne].
        -- exists (up q0). split; [done|]. cbn. congruence.
        -- exists q. by rewrite list_lookup_alter_ne.
    + split_and!; [intros q Hq; right; exists q; split_and!; try done; by left|by right| |done].
      exists q0. split; [by eapply list_elem_of_lookup_2|done].
  - cbn [d_pf d_byAddr]. split_and!.
    + intros q [Hq| ->%list_elem_of_singleton]%elem_of_app; [right|by left]. exists q. split_and!; try done. by left.
    + intros q Hq. right. apply elem_of_app. by left.
    + exists pf. split; [apply elem_of_app; right; by apply list_elem_of_singleton|done].
    + intros a k [[<- <-]|[Hne Hk]]%lookup_insert_Some.
      * exists pf. by rewrite list_lookup_middle.
      * destruct (Hd _ _ Hk) as (q & Hq & Ha). exists q. split; [|done]. by apply lookup_app_l_Some.
Qed.

(** The return of a goroutine that owes nobody a wake-up. *)
Lemma return_inv s h' n t :
  inv s → u_tasks (sh s) !! n = Some t → holding (t_phase t) = true → t_phase t ≠ Pushed → ¬ asleep (t_phase t) →
  (is_fault t = true → ¬ serving (tracker_at s (t_idx t)) (t_phase t)) →
  u_tasks h' = <[n := at_phase t Returned]> (u_tasks (sh s)) → u_tracker h' = u_tracker (sh s) → u_loop h' = u_loop (sh s) →
  u_deferred h' = u_deferred (sh s) → u_wakeup h' = u_wakeup (sh s) → u_closed h' = u_closed (sh s) → u_exit h' = u_exit (sh s) →
  inv (mkSys h' (sk s)).
Proof using.
  intros Hinv Hn Hhold Hnp Has Hsv Hts Htr Hl Hd Hw Hc He. pose proof (in_tasks _ _ _ Hn) as Hin. pose proof Hinv as [Hh _].
  assert (E : sk s = with_gone (sk s) (k_gone (sk s))) by (by destruct (sk s)). rewrite E.
  apply (move_inv s h' _ n t (at_phase t Returned)); try done.
  - by apply holding_live.
  - unfold failed; cbn. by rewrite He, Hl.
  - by apply task_wf_phase, Hhold; apply Hh.
  - intros _ Hf Hs. by destruct (Hsv Hf).
Qed.

Lemma defer_inv s n t pf :
  inv s → u_tasks (sh s) !! n = Some t → t_phase t = Result faultDeferred → t_job t = JFault pf →
  inv (mkSys (with_task (with_deferred (sh s) (push pf (u_deferred (sh s)))) n (at_phase t Pushed)) (sk s)).
Proof using.
  intros Hinv Hn Hph Hj. pose proof (in_tasks _ _ _ Hn) as Hin. pose proof Hinv as [Hh Hp].
  assert (Hhold : holding (t_phase t) = true) by (by rewrite Hph). pose proof (hi_tasks _ Hh t Hin) as Hwf.
  assert (Hwft : task_wf (at_phase t Pushed)) by (by apply task_wf_phase).
  destruct Hwf as [Hm Hjt]. rewrite Hj in Hjt. destruct Hjt as ((Haddr & Hflags) & Hoff & Hacc).
  assert (Hk : kpage (pf_address pf) = t_idx t) by (unfold kpage; by rewrite Haddr, Hoff).
  destruct (push_spec pf _ (hi_deferred _ Hh)) as (P1 & P2 & P3 & P4).
  set (s' := mkSys (with_task (with_deferred (sh s) (push pf (u_deferred (sh s)))) n (at_phase t Pushed)) (sk s)).
  assert (Hall : ∀ q, q ∈ all_pfs s' ↔ (q ∈ k_faults (sk s) ∨ q ∈ loop_pfs (u_loop (sh s)) ∨ q ∈ d_pf (push pf (u_deferred (sh s)))))
    by (intros q; unfold all_pfs, s'; cbn; by rewrite !elem_of_app).
  assert (Hall0 : ∀ q, q ∈ all_pfs s ↔ (q ∈ k_faults (sk s) ∨ q ∈ loop_pfs (u_loop (sh s)) ∨ q ∈ d_pf (u_deferred (sh s))))
    by (intros q; unfold all_pfs; by rewrite !elem_of_app).
  assert (Hq : quiet s s' n t (at_phase t Pushed)).
  { split; try done; [by apply holding_live|]. intros q Hkq. rewrite Hall, Hall0. split; (intros [?|[?|Hq]]; [by left|by right; left|right; right]).
    - destruct (P1 q Hq) as [->|(q0 & Hq0 & Ha & [->|[Ha' _]] & _)]; [congruence|done|congruence].
    - destruct (P2 q Hq) as [Ha|?]; [congruence|done]. }
  apply (quiet_inv s s' n t (at_phase t Pushed) Hinv Hq).
  - apply (handler_task s s' n t (at_phase t Pushed)); try done.
    + intros q Hq'. apply Hall in Hq' as [?|[?|Hq']]; [left; apply Hall0; auto..|].
      destruct (P1 q Hq') as [->|(q0 & Hq0 & Ha & _ & Hfq)]; right; [split; [exists (t_off t); by rewrite Haddr|done]|].
      destruct (hi_pfs _ Hh q0) as [(off & ? & ?) Hf0]; [apply Hall0; auto|]. split; [exists off; by rewrite Ha|auto].
    + right. split; [done|by right].
    + intros Hc. by rewrite (not_closed s t Hh Hin Hhold) in Hc.
  - apply (quiet_page s s' n t _ Hq); try done.
    + split; [|done]. intros _. destruct (pi_task _ _ (Hp (t_idx t)) t Hin eq_refl) as [Hso _]. by apply Hso.
    + intros _. left. by rewrite Hhold.
    + unfold is_fault. by rewrite Hj.
    + intros q Hq' Hkq Hfl. apply Hall in Hq' as [?|[?|Hq']]; [left; exists q; rewrite Hall0; auto..|].
      assert (Hself : has_flag pf UFFD_PAGEFAULT_FLAG_WRITE = true → writer s (t_idx t)).
      { intros Hf. right. exists t. split_and!; try done; [by apply holding_live|]. by rewrite Hacc, Hf. }
      destruct (P1 q Hq') as [->|(q0 & Hq0 & Ha & [->|[_ Hf]] & _)]; [by apply Hself|left; exists q0; rewrite Hall0; auto|by apply Hself].
    + intros _ _ _. right; left. destruct P3 as (q & Hq1 & Hq2). exists q. split; [apply Hall; auto|congruence].
    + intros _ q Hq' Hkq. left. apply Hall0 in Hq' as [?|[?|Hq']]; [exists q; rewrite Hall; auto..|].
      destruct (P2 q Hq') as [Ha|?]; [|exists q; rewrite Hall; auto]. destruct P3 as (q1 & Hq1 & Hq2). exists q1. split; [apply Hall; auto|congruence].
    + by rewrite Hph.
Qed.

Lemma outcome_inv s n s' : inv s → outcome s n = Some s' → inv s'.
Proof using Hok.
  intros Hinv. unfold outcome. destruct (u_tasks (sh s) !! n) as [t|] eqn:Hn; [|done]. cbn.
  pose proof (in_tasks _ _ _ Hn) as Hin.
  assert (Hset : ∀ b acc, (b = true → t_nosource t = false ∨ t_access t = Write) →
    t_phase t = Result faultInstalled ∨ t_phase t = Result faultAlreadyPresent →
    let h := if b then set_dirty (sh s) t else sh s in
    inv (mkSys (with_task (with_prefetch h (pAdd (t_off t) acc (u_prefetch h))) n (at_phase t Returned)) (sk s))).
  { intros b acc Hb Hph h. assert (H1 : inv (mkSys h (sk s))).
    { destruct b; [apply dirty_inv; auto|unfold h; by destruct s]. }
    apply (return_inv (mkSys h (sk s)) _ n t H1); unfold h; cbn; destruct b; try done;
      try (by destruct Hph as [-> | ->]); destruct Hph as [-> | ->]; cbn; tauto. }
  destruct (t_phase t) as [| | |e| | |o| | |] eqn:Hph; try done. destruct (t_job t) as [pf|data] eqn:Ej.
  - assert (Hb : negb (t_nosource t) || bool_decide (t_access t = Write) = true → t_nosource t = false ∨ t_access t = Write).
    { intros [?%negb_true_iff|?%bool_decide_eq_true]%orb_true_iff; auto. }
    destruct o; intros [= <-]; [apply Hset; auto|apply Hset; auto|by apply defer_inv|].
    apply (return_inv s _ n t); try done; rewrite ?Hph; cbn; try done; tauto.
  - destruct (hi_tasks _ (proj1 Hinv) t Hin) as [_ Hw]. rewrite Ej in Hw. destruct Hw as (_ & Hns & _).
    destruct o; intros [= <-]; [apply (Hset true); auto|apply (Hset true); auto| |].
    + apply (return_inv s _ n t); try done; rewrite ?Hph; cbn; try done; [tauto|]. unfold is_fault. by rewrite Ej.
    + apply (return_inv s _ n t); try done; rewrite ?Hph; cbn; try done; tauto.
Qed.

Lemma signal_inv s n s' : inv s → signalWakeup s n = Some s' → inv s'.
Proof using.
  intros Hinv. unfold signalWakeup. destruct (task_at s n _) as [t|] eqn:Et; [|done]. cbn. intros [= <-].
  apply task_at_spec in Et as [Hn Hph]. assert (Hp : t_phase t = Pushed) by (by destruct (t_phase t)). clear Hph.
  pose proof (in_tasks _ _ _ Hn) as Hin. pose proof Hinv as [Hh Hpi].
  assert (Hhold : holding (t_phase t) = true) by (by rewrite Hp).
  set (s' := mkSys (with_task (with_wakeup (sh s) true) n (at_phase t Returned)) (sk s)).
  assert (Hq : quiet s s' n t (at_phase t Returned)) by (split; try done; by apply holding_live).
  apply (quiet_inv s s' n t (at_phase t Returned) Hinv Hq).
  - apply (handler_task s s' n t (at_phase t Returned)); try done; [by apply task_wf_phase, Hhold; apply Hh|by left|].
    right. split; [apply Hh|by left].
  - apply (quiet_page s s' n t _ Hq); try done; rewrite ?Hp; try done.
    + intros q Hq' Hk Hf. left. by exists q.
    + intros _ q Hq' Hk. left. by exists q.
Qed.

(** ** The loop keeps the invariant *)

Lemma count_app i a b : count_page i (a ++ b) = (count_page i a + count_page i b)%nat.
Proof using. unfold count_page. by rewrite filter_app, length_app. Qed.

Definition one_if (b : bool) : nat := if b then 1%nat else O.

Lemma count_one i r : count_page i [r] = one_if (in_range i (rm_pages r)).
Proof using. unfold count_page, one_if. rewrite filter_cons, filter_nil. by destruct (in_range i (rm_pages r)). Qed.

Lemma count_delete i l k r : l !! k = Some r →
  count_page i l = (count_page i (delete k l) + one_if (in_range i (rm_pages r)))%nat.
Proof using.
  intros Hk. rewrite <- (take_drop_middle l k r Hk) at 1. rewrite delete_take_drop.
  change (r :: drop (S k) l) with ([r] ++ drop (S k) l). rewrite !count_app, count_one. lia.
Qed.

Lemma count_zero i rs : count_page i rs = O ↔ ∀ r, r ∈ rs → in_range i (rm_pages r) = false.
Proof using.
  induction rs as [|r rs IH]; [split; [intros _ r Hr; by apply elem_of_nil in Hr|done]|].
  change (r :: rs) with ([r] ++ rs). rewrite count_app, count_one. setoid_rewrite elem_of_app. setoid_rewrite list_elem_of_singleton.
  unfold one_if. destruct (in_range i (rm_pages r)) eqn:E.
  - split; [lia|]. intros Hall. specialize (Hall r (or_introl eq_refl)). congruence.
  - cbn. rewrite IH. split; [intros Hall x [->|Hx]; auto|auto].
Qed.

(** [Serve] has not returned. *)
Definition running (s : sys) : Prop := ∀ b, u_loop (sh s) ≠ Stopped b.

(** A step of the loop that pages do not see. *)
Lemma loop_inv s s' : inv s → running s → (∀ i, same_page s s' i) →
  u_tasks (sh s') = u_tasks (sh s) → u_closed (sh s') = u_closed (sh s) → u_tracker (sh s') = u_tracker (sh s) →
  (∀ r, r ∈ k_removes (sk s') ++ k_zapping (sk s') ++ loop_removes (u_loop (sh s')) →
        r ∈ k_removes (sk s) ++ k_zapping (sk s) ++ loop_removes (u_loop (sh s))) →
  (u_deferred (sh s') = u_deferred (sh s) ∨ u_deferred (sh s') = no_deferred) →
  (d_pf (u_deferred (sh s')) ≠ [] → awake_loop (u_loop (sh s')) ∨
     u_wakeup (sh s') = u_wakeup (sh s) ∧ ¬ awake_loop (u_loop (sh s)) ∧ u_deferred (sh s') = u_deferred (sh s)) → inv s'.
Proof using.
  intros [Hh Hp] Hns Hsame Hts Hc Htr Hr Hd Hw. split; [|intros i; by apply (page_inv_same s)].
  destruct Hh as [I1 I2 I3 I4 I5 I6 I7]. split.
  - intros pf Hpf. apply I1. by apply (sp_pfs _ _ _ (Hsame (kpage (pf_address pf))) pf eq_refl).
  - by rewrite Hts.
  - intros r Hin. by apply I3, Hr.
  - destruct Hd as [-> | ->]; [done|]. intros a k Hk. cbn in Hk. by rewrite lookup_empty in Hk.
  - intros Hne. destruct (Hw Hne) as [?|(-> & Hna & Hdd)]; [by right; left|]. rewrite Hts. rewrite Hdd in Hne.
    destruct (I5 Hne) as [?|[?|?]]; [by left|done|by right; right].
  - by rewrite Htr.
  - rewrite Hc. intros Hcd. destruct (I7 Hcd) as [[b Hb] _]. by destruct (Hns b).
Qed.

Lemma poll_inv s s' : inv s → poll s = Some s' → running s' → inv s'.
Proof using.
  intros Hinv. unfold poll. destruct (u_loop (sh s)) eqn:Hl; try done. destruct (u_exit (sh s)) eqn:He.
  - destruct (faults_done _); [|done]. intros [= <-] Hr. by edestruct Hr.
  - destruct (_ || _) eqn:Ee; [|done]. intros [= <-] _.
    destruct (negb (bool_decide (k_faults (sk s) = [] ∧ k_removes (sk s) = []))); apply (loop_inv s); try done; unfold running; rewrite ?Hl; try done; try (by left);
      try (intros _; by left); intros i; split; cbn; rewrite ?Hl; try done; try (unfold all_pfs; cbn; by rewrite Hl);
      unfold failed; cbn; rewrite Hl; (intros [?|[[b ?]|?]]; [by left|done|by right; right]).
Qed.

Lemma read_fault_inv s k s' : inv s → read_fault s k = Some s' → inv s'.
Proof using.
  intros Hinv. unfold read_fault. destruct (u_loop (sh s)) as [|rms pfs| | |] eqn:Hl; try done.
  destruct (k_faults (sk s) !! k) as [pf|] eqn:Hk; [|done]. intros [= <-].
  apply (loop_inv s); try done; unfold running; rewrite ?Hl; try done; [|by left|intros _; by left].
  intros i. split; cbn; rewrite ?Hl; try done.
  - intros q _. unfold all_pfs. cbn. rewrite Hl. cbn. rewrite <- (take_drop_middle _ _ _ Hk) at 2. rewrite delete_take_drop.
    rewrite !elem_of_app, !elem_of_cons, elem_of_nil. tauto.
  - unfold failed; cbn. rewrite Hl. intros [?|[[b ?]|?]]; [by left|done|by right; right].
Qed.

Lemma take_deferred_inv s s' : inv s → take_deferred s = Some s' → inv s'.
Proof using.
  intros Hinv. unfold take_deferred. destruct (u_loop (sh s)) as [| |pfs| |] eqn:Hl; try done. cbn. intros [= <-].
  apply (loop_inv s); try done; unfold running; rewrite ?Hl; try done; [|by right].
  intros i. split; cbn; rewrite ?Hl; try done.
  - intros q _. unfold all_pfs. cbn. rewrite Hl. cbn. rewrite !elem_of_app, elem_of_nil. tauto.
  - unfold failed; cbn. rewrite Hl. intros [?|[[b ?]|?]]; [by left|done|by right; right].
Qed.

(** A new goroutine that holds nothing. *)
Lemma new_task_inv s s' t : inv s → running s → t_phase t = Starting → task_wf t →
  u_tasks (sh s') = u_tasks (sh s) ++ [t] → u_closed (sh s') = u_closed (sh s) → u_tracker (sh s') = u_tracker (sh s) →
  sk s' = sk s → u_deferred (sh s') = u_deferred (sh s) → u_wakeup (sh s') = u_wakeup (sh s) → u_exit (sh s') = u_exit (sh s) →
  running s' → loop_removes (u_loop (sh s')) = loop_removes (u_loop (sh s)) → (awake_loop (u_loop (sh s)) → awake_loop (u_loop (sh s'))) →
  (∀ pf, pf ∈ all_pfs s' → pf ∈ all_pfs s) →
  (∀ pf, pf ∈ all_pfs s → pf ∈ all_pfs s' ∨ is_fault t = true ∧ t_idx t = kpage (pf_address pf)) →
  (is_fault t = true → faulting s (t_idx t) = true) → (is_fault t = false → removing s (t_idx t) = false) →
  (t_access t = Write → writer s (t_idx t)) → inv s'.
Proof using.
  intros [Hh Hp] Hrun Hst Hwf Hts Hc Htr Hk Hd Hw He Hrun' Hlp Haw Hpf1 Hpf2 Hfl Hpre Hwr.
  assert (Hlv : live t = true) by (unfold live; by rewrite Hst).
  assert (Hrm : removing s (t_idx t) = false).
  { destruct (is_fault t) eqn:Ef; [|by apply Hpre]. destruct (removing s (t_idx t)) eqn:E; [|done].
    rewrite (pi_busy _ _ (Hp _) E) in Hfl. by specialize (Hfl eq_refl). }
  assert (Hin : ∀ x, x ∈ u_tasks (sh s') ↔ x ∈ u_tasks (sh s) ∨ x = t) by (intros x; by rewrite Hts, elem_of_app, list_elem_of_singleton).
  assert (Hfail : failed s → failed s').
  { unfold failed. rewrite He, Hk. intros [?|[[b Hb]|?]]; [by left|by destruct (Hrun b)|by right; right]. }
  split.
  - destruct Hh as [I1 I2 I3 I4 I5 I6 I7]. split.
    + intros pf Hpf. by apply I1, Hpf1.
    + intros x [Hx| ->]%Hin; auto.
    + by rewrite Hk, Hlp.
    + by rewrite Hd.
    + rewrite Hd, Hw. intros Hne. destruct (I5 Hne) as [?|[?|(x & Hx & ?)]]; [by left|by right; left; apply Haw|right; right].
      exists x. split; [apply Hin; by left|done].
    + by rewrite Htr.
    + rewrite Hc. intros Hcd. destruct (I7 Hcd) as [[b Hb] _]. by destruct (Hrun b).
  - intros i. specialize (Hp i). destruct (decide (i = t_idx t)) as [->|Hne].
    2: { revert Hp. apply page_inv_same. split; rewrite ?Hk, ?Htr, ?Hlp; try done.
      - unfold unwritten. by rewrite Hk.
      - intros x Hx. rewrite Hin. split; [by intros [?| ->]|by left].
      - intros pf Hpf. split; [by apply Hpf1|]. intros Hq. destruct (Hpf2 pf Hq) as [?|[_ E]]; [done|congruence]. }
    apply removing_spec in Hrm as (R1 & R2 & R3). set (i := t_idx t) in *.
    destruct Hp as [I1 I0 I2 I3 I4 I5 I6 I7 I8 I9 I10].
    split; rewrite ?Hk, ?Hlp, ?Htr; try done.
    + intros Hr. assert (Hf : removing s' i = false) by (apply removing_spec; by rewrite Hk, Hlp). congruence.
    + unfold unwritten. rewrite Hk. exact I5.
    + intros x [Hx| ->]%Hin Hxi; unfold unwritten; rewrite Hk; [by apply I6|]. split; rewrite Hst; done.
    + intros x y [Hx| ->]%Hin [Hy| ->]%Hin Hxi Hyi Hxh Hyh; [by apply I7|by rewrite Hst in Hyh|by rewrite Hst in Hxh|done].
    + intros Hw'. assert (Hws : writer s i).
      { destruct Hw' as [(pf & Hpf & Hkp & Hf)|(x & [Hx| ->]%Hin & Hxi & Hxl & Hxa)]; [left; exists pf; split; [by apply Hpf1|done]|right; by exists x|by apply Hwr]. }
      unfold unwritten. rewrite Hk. destruct (I8 Hws) as [?|(p & ? & ? & Hz)]; [by left|right]. exists p. split_and!; try done.
      apply not_true_is_false. intros (x & [Hx| ->]%Hin & Hxp & Hxi)%zeroing_spec; [|by rewrite Hst in Hxp].
      assert (zeroing s i = true) by (apply zeroing_spec; by exists x). congruence.
    + intros Hwt. destruct (I9 Hwt) as [?|[(pf & Hpf & Hkp)|(x & Hx & Hxi & Hxf & Hxs)]]; [left; by apply Hfail| |].
      * destruct (Hpf2 pf Hpf) as [?|[Hft _]]; [right; left; by exists pf|].
        destruct (decide (tracker_at s i = SDirty)) as [Ed|Ed].
        -- assert (Hdo : data_ok i (tracker_at s i) (page_at s i) (k_mem (sk s) i) (unwritten s i)) by (apply I5; congruence).
           rewrite Ed in Hdo. destruct (page_at s i) as [p|] eqn:Ep; [|done].
           destruct (I10 Hwt) as [?|(x & Hx & Hxi & Hxf & Hxs)]; [by eexists|left; by apply Hfail|right; right].
           exists x. split_and!; [apply Hin; by left|done|done|]. by destruct (t_phase x).
        -- right; right. exists t. split_and!; [apply Hin; by right|done|done|]. rewrite Hst, Htr. done.
      * right; right. exists x. rewrite Htr. split_and!; try done. apply Hin. by left.
    + intros Hwt Hs. destruct (I10 Hwt Hs) as [?|(x & Hx & ?)]; [left; by apply Hfail|right]. exists x. split; [apply Hin; by left|done].
Qed.

Lemma dispatch_inv s s' : inv s → dispatch s = Some s' → running s' → inv s'.
Proof using Hok.
  intros Hinv. unfold dispatch. destruct (u_loop (sh s)) as [| | |[|pf pfs]|] eqn:Hl; try done.
  - intros [= <-] _. apply (loop_inv s); try done; unfold running; rewrite ?Hl; try done; [|by left|intros _; right; cbn; tauto].
    intros i. split; cbn; rewrite ?Hl; try done; [unfold all_pfs; cbn; by rewrite Hl|].
    unfold failed; cbn. rewrite Hl. intros [?|[[b ?]|?]]; [by left|done|by right; right].
  - destruct (_ || _); [intros [= <-] Hr; by edestruct Hr|]. destruct (GetOffset ma (pf_address pf)) as [off|] eqn:Eo;
      [|intros [= <-] Hr; by edestruct Hr]. destruct (_ <? _); [|done]. intros [= <-] Hr.
    assert (Hpf : pf ∈ all_pfs s) by (unfold all_pfs; rewrite Hl; cbn; rewrite !elem_of_app, elem_of_cons; auto).
    destruct (pf_page pf off (hi_pfs _ (proj1 Hinv) pf Hpf) Eo) as [Hk Hm].
    apply (new_task_inv s _ (mkTask (JFault pf) (pf_address pf) off (if has_flag pf UFFD_PAGEFAULT_FLAG_WRITE then Write else Read) false Starting));
      try done; unfold running; rewrite ?Hl; try done.
    + pose proof (hi_pfs _ (proj1 Hinv) pf Hpf) as [_ Hfl]. by split.
    + intros q. unfold all_pfs. cbn. rewrite Hl. cbn. rewrite !elem_of_app, elem_of_cons, elem_of_app. tauto.
    + intros q. unfold all_pfs. cbn. rewrite Hl. cbn. rewrite !elem_of_app, elem_of_cons, elem_of_app.
      intros [?|[->|[?|?]]]; [left; auto|right; by rewrite Hk|left; auto|left; auto].
    + intros _. apply faulting_spec. right. by exists pf.
    + cbn. intros Ha. left. exists pf. split_and!; try done. by destruct (has_flag pf _).
Qed.

Lemma read_remove_inv s k s' : inv s → read_remove s k = Some s' → inv s'.
Proof using.
  intros [Hh Hp]. unfold read_remove. destruct (u_loop (sh s)) as [|rms pfs| | |] eqn:Hl; try done.
  destruct (k_removes (sk s) !! k) as [r|] eqn:Hk; [|done]. intros [= <-].
  set (s' := mkSys _ _). assert (Hpfs : ∀ pf, pf ∈ all_pfs s' ↔ pf ∈ all_pfs s) by (intros pf; unfold all_pfs, s'; cbn; by rewrite Hl).
  assert (Hfail : failed s → failed s') by (unfold failed, s'; cbn; rewrite Hl; intros [?|[[b ?]|?]]; [by left|done|by right; right]).
  split.
  - destruct Hh as [I1 I2 I3 I4 I5 I6 I7]. split; try done.
    + intros pf Hpf. by apply I1, Hpfs.
    + intros x Hx. apply I3. rewrite Hl. unfold s' in Hx. cbn in Hx |- *. rewrite <- (take_drop_middle _ _ _ Hk).
      rewrite delete_take_drop in Hx. revert Hx. rewrite !elem_of_app, !elem_of_cons, elem_of_nil. tauto.
    + intros _. right; by left.
    + intros Hc. destruct (I7 Hc) as [[b Hb] _]. by rewrite Hl in Hb.
  - intros i. specialize (Hp i). pose proof (count_delete i _ _ _ Hk) as Ha.
    assert (Hz : zapping s' i = (zapping s i + one_if (in_range i (rm_pages r)))%nat) by (change (zapping s' i) with (count_page i (k_zapping (sk s) ++ [r])); by rewrite count_app, count_one).
    assert (Hu : unapplied s' i = (unapplied s i + one_if (in_range i (rm_pages r)))%nat) by (change (unapplied s' i) with (count_page i (rms ++ [r])); by rewrite Hl, count_app, count_one).
    destruct (in_range i (rm_pages r)); cbn [one_if] in *.
    + destruct Hp as [I1 I0 I2 I3 I4 I5 I6 I7 I8 I9 I10]. change (announced s' i) with (count_page i (delete k (k_removes (sk s)))) in *.
      assert (Hrm : removing s i = true) by (apply not_false_iff_true; rewrite removing_spec; lia).
      split; rewrite ?Hz, ?Hu; try done.
      * intros _. rewrite <- (I1 Hrm). apply eq_true_iff_eq. rewrite !faulting_spec. by setoid_rewrite Hpfs.
      * change (announced s' i) with (count_page i (delete k (k_removes (sk s)))). lia.
      * lia.
      * lia.
      * intros Heq. apply I5. lia.
      * intros Hw. apply I8. destruct Hw as [(pf & Hpf & ?)|?]; [left; exists pf; split; [by apply Hpfs|done]|by right].
      * intros Hw. destruct (I9 Hw) as [?|[(pf & Hpf & ?)|?]]; [left; by apply Hfail|right; left; exists pf; split; [by apply Hpfs|done]|by right; right].
      * intros Hw Hs. destruct (I10 Hw Hs) as [?|?]; [left; by apply Hfail|by right].
    + revert Hp. apply page_inv_same. split; try done; [|lia|lia].
      change (count_page i (delete k (k_removes (sk s))) = announced s i). lia.
Qed.

Lemma Get_apply_removes rms t i : (∀ r, r ∈ rms → remove_ok r = true) →
  Get (foldl apply_remove t rms) i = if (count_page i rms =? 0)%nat then Get t i else SZero.
Proof using Hok.
  revert t. induction rms as [|r rms IH]; intros t Hr; [done|]. cbn [foldl]. rewrite IH by (intros x Hx; apply Hr, elem_of_cons; by right).
  change (r :: rms) with ([r] ++ rms). rewrite count_app, count_one, Get_apply_remove by (apply Hr, elem_of_cons; by left).
  by destruct (count_page i rms), (in_range i (rm_pages r)).
Qed.

Lemma apply_removes_disjoint rms t : disjoint_states t → disjoint_states (foldl apply_remove t rms).
Proof using.
  revert t. induction rms as [|r rms IH]; intros t Ht; [done|]. apply IH. unfold apply_remove. destruct (GetOffset ma r.1); [|done].
  apply SetRange_disjoint; auto with ints.
Qed.

Lemma unlocked_spec h t : unlocked h = true → t ∈ u_tasks h → holding (t_phase t) = false.
Proof using.
  unfold unlocked. intros Hu Ht. rewrite forallb_forall in Hu. apply list_elem_of_In in Ht. by apply negb_true_iff, Hu.
Qed.

(** The batch waits for the goroutines that looked at the old state. *)
Lemma apply_removes_inv s s' : inv s → apply_removes s = Some s' → inv s'.
Proof using Hok.
  intros [Hh Hp]. unfold apply_removes. destruct (u_loop (sh s)) as [|rms pfs| | |] eqn:Hl; try done.
  destruct (bool_decide (rms = []) || unlocked (sh s)) eqn:Hlock; [|done]. intros [= <-]. set (s' := mkSys _ _).
  assert (Hpfs : ∀ pf, pf ∈ all_pfs s' ↔ pf ∈ all_pfs s) by (intros pf; unfold all_pfs, s'; cbn; by rewrite Hl).
  assert (Hfail : failed s → failed s') by (unfold failed, s'; cbn; rewrite Hl; intros [?|[[b ?]|?]]; [by left|done|by right; right]).
  assert (Hrok : ∀ r, r ∈ rms → remove_ok r = true).
  { intros r Hr. apply (hi_removes _ Hh). rewrite Hl, !elem_of_app. auto. }
  assert (Hget : ∀ i, tracker_at s' i = if (unapplied s i =? 0)%nat then tracker_at s i else SZero).
  { intros i. unfold s'. cbn. rewrite Hl. by apply Get_apply_removes. }
  split.
  - destruct Hh as [I1 I2 I3 I4 I5 I6 I7]. split; try done.
    + intros pf Hpf. by apply I1, Hpfs.
    + intros x Hx. apply I3. unfold s' in Hx. cbn in Hx. revert Hx. rewrite !elem_of_app, elem_of_nil. tauto.
    + intros _. right; by left.
    + by apply apply_removes_disjoint.
    + intros Hc. destruct (I7 Hc) as [[b Hb] _]. by rewrite Hl in Hb.
  - intros i. specialize (Hp i). specialize (Hget i). assert (Hu' : unapplied s' i = O) by done.
    destruct (Nat.eqb_spec (unapplied s i) 0) as [Hu|Hu].
    + revert Hp. apply page_inv_same. split; done.
    + assert (Hun : unlocked (sh s) = true).
      { apply orb_true_iff in Hlock as [E|?]; [|done]. apply bool_decide_eq_true in E. by rewrite Hl, E in Hu. }
      assert (Hfree : ∀ t, t ∈ u_tasks (sh s) → holding (t_phase t) = false) by (intros t; by apply unlocked_spec).
      destruct Hp as [I1 I0 I2 I3 I4 I5 I6 I7 I8 I9 I10].
      assert (Hrm : removing s i = true) by (apply not_false_iff_true; rewrite removing_spec; lia). specialize (I1 Hrm).
      assert (Hnopf : ∀ pf, pf ∈ all_pfs s → kpage (pf_address pf) ≠ i).
      { intros pf Hpf Hk. assert (faulting s i = true); [|congruence]. apply faulting_spec. right. by exists pf. }
      split; rewrite ?Hget, ?Hu'; try done.
      * intros _. rewrite <- I1. apply eq_true_iff_eq. rewrite !faulting_spec. by setoid_rewrite Hpfs.
      * change (announced s' i) with (announced s i). change (zapping s' i) with (zapping s i). lia.
      * intros _ Hz. split; [done|]. intros t Ht _. by apply Hfree.
      * intros Hz. destruct (I2 Hz Hu) as (Hpg & Hme & _).
        by change (data_ok i SZero (page_at s i) (k_mem (sk s) i) (unwritten s i)); rewrite Hpg, Hme.
      * intros t Ht Hti. specialize (Hfree t Ht). split; [by rewrite Hfree|]. by destruct (t_phase t).
      * intros Hw. apply I8. destruct Hw as [(pf & Hpf & Hk & _)|?]; [|by right]. by destruct (Hnopf pf); [apply Hpfs|].
      * intros Hw. left. apply Hfail. destruct (I9 Hw) as [?|[(pf & Hpf & Hk)|(t & Ht & Hti & Hf & Hs)]]; [done|by destruct (Hnopf pf)|].
        assert (faulting s i = true); [|congruence]. apply faulting_spec. left. exists t. split_and!; try done.
        unfold live. by destruct (t_phase t) as [| | | | | |[]| | |].
      * intros Hw Hs. destruct (I10 Hw Hs) as [?|?]; [left; by apply Hfail|by right].
Qed.

(** ** The guest keeps the invariant *)

Lemma failed_env s k' : k_gone k' = k_gone (sk s) → failed s → failed (mkSys (sh s) k').
Proof using. intros Hk. unfold failed. cbn. by rewrite Hk. Qed.

(** The guest moves: the program's state stays, and so do the faults read. *)
Lemma env_handler s k' : handler_inv s →
  (∀ pf, pf ∈ k_faults k' → pf ∈ k_faults (sk s) ∨ pf_wf pf) →
  (∀ r, r ∈ k_removes k' ++ k_zapping k' → r ∈ k_removes (sk s) ++ k_zapping (sk s) ∨ remove_ok r = true) →
  handler_inv (mkSys (sh s) k').
Proof using.
  intros [I1 I2 I3 I4 I5 I6 I7] Hf Hr. split; try done.
  - intros pf. unfold all_pfs. cbn. rewrite elem_of_app. intros [[?|?]%Hf|?]; [|done|]; apply I1; unfold all_pfs; rewrite elem_of_app; auto.
  - intros r. cbn. rewrite app_assoc, elem_of_app. intros [[Hx|?]%Hr|?]; [|done|]; apply I3; rewrite app_assoc, elem_of_app; auto.
Qed.

Lemma fault_inv s addr write s' : inv s → environment true (EFault addr write) s = Some s' → inv s'.
Proof using Hok.
  intros [Hh Hp]. cbn [environment]. destruct (GetOffset ma addr) as [off|e] eqn:Eo; [|done]. cbn zeta.
  destruct (_ && _) eqn:Ec; [|done]. intros [= <-].
  apply andb_true_iff in Ec as [[Hal Hno]%andb_true_iff Hrm]. apply Z.eqb_eq in Hal. apply bool_decide_eq_true in Hno.
  apply negb_true_iff in Hrm. cbn in Hrm. set (pf := mkFault _ addr). set (i := page_idx off) in *.
  assert (Hk : kpage (pf_address pf) = i) by (unfold kpage; cbn; by rewrite Eo). set (s' := mkSys _ _).
  assert (Hpfs : ∀ q, q ∈ all_pfs s' ↔ q ∈ all_pfs s ∨ q = pf).
  { intros q. unfold all_pfs, s'. cbn. rewrite !elem_of_app, list_elem_of_singleton. tauto. }
  split.
  - apply env_handler; [done| |by left]. intros q. cbn. rewrite elem_of_app, list_elem_of_singleton.
    intros [?| ->]; [by left|right]. split; [by exists off|]. unfold guest_flags. cbn. destruct write; auto.
  - intros j. specialize (Hp j). destruct (decide (j = i)) as [->|Hne].
    + destruct Hp as [I1 I0 I2 I3 I4 I5 I6 I7 I8 I9 I10]. apply removing_spec in Hrm as (R1 & R2 & R3). split; try done.
      * intros Hr. change (removing s' i) with (removing s i) in Hr.
        assert (Hf : removing s i = false) by (by apply removing_spec). congruence.
      * intros Hz. specialize (I5 Hz). change (data_ok i (tracker_at s i) (page_at s i) (k_mem (sk s) i) (unwritten s' i)).
        rewrite Hno in *. by destruct (tracker_at s i).
      * intros t Ht Hti. specialize (I6 t Ht Hti).
        change (task_ok (tracker_at s i) (page_at s i) (k_mem (sk s) i) (unwritten s' i) t).
        rewrite Hno in *. destruct I6 as [J1 J2]. split; [done|]. destruct (t_phase t); try done. by destruct J2 as (_ & [? ?] & _).
      * assert (Hle : unwritten s i → unwritten s' i) by (unfold unwritten, s'; cbn; destruct write; set_solver).
        assert (Hold : writer s i → unwritten s' i).
        { intros Hw. destruct (I8 Hw) as [?|(p & Hpg & _)]; [by apply Hle|]. congruence. }
        intros [(q & [Hq| ->]%Hpfs & Hqk & Hqf)|?]; left; [apply Hold; left; by exists q| |apply Hold; by right].
        unfold unwritten, s'. cbn in *. destruct write; [set_solver|done].
      * intros _. right. left. exists pf. split; [apply Hpfs; by right|done].
      * intros _ Hs. change (page_at s' i) with (page_at s i) in Hs. rewrite Hno in Hs. by destruct Hs.
    + revert Hp. apply page_inv_same. split; try done.
      * unfold unwritten, s'. cbn. destruct write; set_solver.
      * unfold s'. cbn. rewrite elem_of_cons. by intros [->|?].
      * intros q Hq. rewrite Hpfs. split; [intros [?| ->]; [done|congruence]|by left].
Qed.

Lemma write_inv s i data s' : inv s → environment true (EWrite i data) s = Some s' → inv s'.
Proof using Hok.
  intros [Hh Hp]. cbn [environment]. destruct (_ && _) eqn:Ec; [|done]. intros [= <-].
  apply andb_true_iff in Ec as [[Hpg _]%andb_true_iff Hz]. apply bool_decide_eq_true in Hpg. apply negb_true_iff in Hz. cbn in Hz.
  set (s' := mkSys _ _).
  split; [by apply env_handler; [done|by left|by left]|]. intros j. specialize (Hp j). destruct (decide (j = i)) as [->|Hne].
  - assert (Ep : page_at s' i = Some (mkPage data false)) by (unfold s'; cbn; by rewrite lookup_insert_eq).
    assert (Em : k_mem (sk s') i = data) by (unfold s'; cbn; unfold upd; by rewrite Z.eqb_refl).
    destruct Hp as [I1 I0 I2 I3 I4 I5 I6 I7 I8 I9 I10]. split; rewrite ?Ep, ?Em; try done.
    + intros H1 H2. destruct (I2 H1 H2) as (Hn & _). rewrite Hn in Hpg. by destruct Hpg.
    + by intros p [= <-].
    + intros _. change (tracker_at s' i) with (tracker_at s i). by destruct (tracker_at s i).
    + intros t Ht Hti. destruct (I6 t Ht Hti) as [J1 J2]. split; [done|]. destruct (t_phase t) eqn:Et; try done.
      * assert (zeroing s i = true) by (apply zeroing_spec; by exists t). congruence.
      * by destruct o.
    + intros _. right. by exists (mkPage data false).
    + intros Hw _. by apply I10.
  - revert Hp. apply page_inv_same. split; try done.
    + unfold s'. cbn. by rewrite lookup_insert_ne.
    + unfold s'. cbn. unfold upd. by destruct (Z.eqb_spec j i).
    + unfold unwritten, s'. cbn. set_solver.
Qed.

Lemma elem_deleted {A} (l : list A) k x : x ∈ delete k l → x ∈ l.
Proof using. revert k. induction l as [|y l IH]; intros [|k]; cbn; rewrite ?elem_of_cons; auto. intros [?|?%IH]; auto. Qed.

Lemma pages_of_spec r i : i ∈ pages_of r ↔ in_range i (rm_pages r) = true.
Proof using. unfold pages_of, in_range. rewrite elem_of_seqZ, andb_true_iff, Z.leb_le, Z.ltb_lt. lia. Qed.

Lemma not_any {A} (f : A → bool) l x : existsb f l = false → x ∈ l → f x = false.
Proof using. intros He Hx. destruct (f x) eqn:E; [|done]. rewrite <- He. symmetry. apply existsb_exists. exists x. by rewrite <- list_elem_of_In. Qed.

Lemma remove_inv s r s' : inv s → environment true (ERemove r) s = Some s' → inv s'.
Proof using Hok.
  intros [Hh Hp]. cbn [environment]. destruct (_ && _) eqn:Ec; [|done]. intros [= <-].
  apply andb_true_iff in Ec as [Hr He]. apply negb_true_iff in He. cbn in He. set (s' := mkSys _ _).
  assert (Hct : ∀ j, announced s' j = (announced s j + one_if (in_range j (rm_pages r)))%nat).
  { intros j. change (announced s' j) with (count_page j (k_removes (sk s) ++ [r])). by rewrite count_app, count_one. }
  split.
  - apply env_handler; [done|by left|]. intros x. cbn. rewrite !elem_of_app, list_elem_of_singleton. intros [[?| ->]|?]; auto.
  - intros j. specialize (Hp j). specialize (Hct j). destruct (in_range j (rm_pages r)) eqn:Ej; cbn [one_if] in Hct.
    + apply pages_of_spec in Ej. pose proof (not_any _ _ _ He Ej) as [Hf Hrm]%orb_false_iff.
      destruct Hp as [I1 I0 I2 I3 I4 I5 I6 I7 I8 I9 I10]. apply removing_spec in Hrm as (R1 & R2 & R3).
      split; rewrite ?Hct; try done. change (zapping s' j) with (zapping s j). change (unapplied s' j) with (unapplied s j). lia.
    + revert Hp. apply page_inv_same. split; try done. lia.
Qed.

Lemma zap_inv s n s' : inv s → environment true (EZap n) s = Some s' → inv s'.
Proof using Hok.
  intros [Hh Hp]. cbn [environment]. destruct (k_zapping (sk s) !! n) as [r|] eqn:Hn; [|done].
  cbn [andb]. destruct (existsb (at_work s) (pages_of r)) eqn:He; [done|]. intros [= <-]. set (s' := mkSys _ _).
  assert (Hct : ∀ j, zapping s j = (zapping s' j + one_if (in_range j (rm_pages r)))%nat) by (intros j; by apply count_delete).
  split.
  - apply env_handler; [done|by left|]. intros x. cbn. rewrite !elem_of_app. intros [?|?%elem_deleted]; auto.
  - intros j. specialize (Hp j). specialize (Hct j).
    assert (Epg : page_at s' j = if in_range j (rm_pages r) then None else page_at s j).
    { unfold s'. cbn. destruct (in_range j (rm_pages r)) eqn:E.
      - apply map_lookup_filter_None. right. intros p _ Hx. congruence.
      - destruct (k_pages (sk s) !! j) as [p|] eqn:Ep; [by apply map_lookup_filter_Some|]. apply map_lookup_filter_None. by left. }
    assert (Em : k_mem (sk s') j = if in_range j (rm_pages r) then zeros else k_mem (sk s) j) by done.
    destruct (in_range j (rm_pages r)) eqn:Ej; cbn [one_if] in Hct.
    + apply pages_of_spec in Ej. pose proof (not_any _ _ _ He Ej) as Hw.
      assert (Hdead : ∀ t, t ∈ u_tasks (sh s) → t_idx t = j → live t = false).
      { intros t Ht Hti. unfold at_work in Hw. apply list_elem_of_In in Ht. destruct (live t) eqn:El; [|done].
        rewrite <- Hw. symmetry. apply existsb_exists. exists t. split; [done|]. rewrite El. cbn. lia. }
      assert (Hidle : ∀ t, t ∈ u_tasks (sh s) → t_idx t = j → holding (t_phase t) = false).
      { intros t Ht Hti. specialize (Hdead t Ht Hti). unfold live in Hdead. by destruct (t_phase t). }
      destruct Hp as [I1 I0 I2 I3 I4 I5 I6 I7 I8 I9 I10].
      assert (Hrm : removing s j = true) by (apply not_false_iff_true; rewrite removing_spec; lia). specialize (I1 Hrm).
      assert (Hnopf : ∀ pf, pf ∈ all_pfs s → kpage (pf_address pf) ≠ j).
      { intros pf Hpf Hk. assert (faulting s j = true); [|congruence]. apply faulting_spec. right. by exists pf. }
      change (announced s' j) with (announced s j) in *. change (unapplied s' j) with (unapplied s j) in *.
      split; rewrite ?Epg, ?Em; try done.
      * change (announced s' j) with (announced s j). change (unapplied s' j) with (unapplied s j). lia.
      * lia.
      * change (unapplied s' j) with (unapplied s j). intros Hz. destruct (decide (unapplied s j = O)) as [E0|E0]; [|lia].
        destruct (I3 E0 ltac:(lia)) as [Ht _]. change (tracker_at s' j) with (tracker_at s j). by rewrite Ht.
      * intros t Ht Hti. specialize (Hdead t Ht Hti). split; [by rewrite Hidle|]. unfold live in Hdead. by destruct (t_phase t).
      * intros [(pf & Hpf & Hk & _)|(t & Ht & Hti & Hl & _)]; [by destruct (Hnopf pf)|by rewrite Hdead in Hl].
    + revert Hp. apply page_inv_same. split; try done. lia.
Qed.

Lemma prefault_inv s off data s' : inv s → running s → environment true (EPrefault off data) s = Some s' → inv s'.
Proof using Hok.
  intros Hinv Hrun. cbn [environment]. destruct (_ && _) eqn:Ec; [|done]. intros [= <-].
  apply andb_true_iff in Ec as [[Hm Hd]%andb_true_iff Hr]. apply Z.eqb_eq in Hm. apply negb_true_iff in Hr. cbn in Hr.
  apply (new_task_inv s _ (mkTask (JPrefault data) 0 off Read false Starting)); try done.
  - split; [done|]. cbn. split_and!; try done. intros Hl. rewrite Hl, Z.eqb_refl in Hd. by apply bool_decide_eq_true in Hd.
  - by left.
Qed.

(** ** Every move keeps the invariant, until [Serve] returns *)

Lemma code_inv m s s' : inv s → running s' → code m s = Some s' → inv s'.
Proof using Hok.
  intros Hi Hr. destruct m; cbn [code].
  - intros E. by eapply poll_inv.
  - by apply read_fault_inv.
  - by apply read_remove_inv.
  - by apply apply_removes_inv.
  - unfold read_failed. destruct (u_loop (sh s)); try done. intros [= <-]. by edestruct Hr.
  - by apply take_deferred_inv.
  - intros E. by eapply dispatch_inv.
  - unfold Close. destruct (u_loop (sh s)) eqn:El; try done. destruct (_ && _); [|done]. intros [= <-]. by edestruct Hr.
  - by apply lookup_inv.
  - by apply faultPage_inv.
  - by apply write_protect_inv.
  - by apply wake_up_inv.
  - by apply outcome_inv.
  - by apply signal_inv.
Qed.

Lemma stop_inv s s' : inv s → environment true EStop s = Some s' → inv s'.
Proof using.
  intros [Hh Hp] E. injection E as <-. split; [by destruct Hh|]. intros i. specialize (Hp i). revert Hp. apply page_inv_same. split; try done. by left.
Qed.

Lemma environment_inv e s s' : inv s → running s' → environment true e s = Some s' → inv s'.
Proof using Hok.
  intros Hi Hr. destruct e.
  - by apply fault_inv.
  - by apply write_inv.
  - by apply remove_inv.
  - by apply zap_inv.
  - intros E. assert (running s); [|by eapply prefault_inv]. cbn in E. destruct (_ && _); [|done]. injection E as <-. exact Hr.
  - by apply stop_inv.
Qed.

(** ** Reachable states *)

Lemma stopped_stays m s s' b : code m s = Some s' → u_loop (sh s) = Stopped b → u_loop (sh s') = Stopped b.
Proof using.
  intros E Hb. destruct m; cbn [code] in E; unfold poll, read_fault, read_remove, apply_removes, read_failed, take_deferred, dispatch,
    Close, lookup_, faultPage, install, install_asleep, write_protect, wake_up, outcome, signalWakeup, settle in E; rewrite ?Hb in E; try done;
  repeat match type of E with
  | context [match ?x with _ => _ end] => destruct x; try done
  | (?x ≫= _) = _ => destruct x; cbn in E; try done
  end; injection E as <-; exact Hb.
Qed.

Lemma step_running clean s s' : step clean s s' → running s' → running s.
Proof using.
  intros [[m E]|[e E]] Hr b Hb; [by apply (Hr b), (stopped_stays m s)|]. apply (Hr b). rewrite <- Hb.
  destruct e; cbn in E; repeat match type of E with context [match ?x with _ => _ end] => destruct x; try done end; by injection E as <-.
Qed.

(** The handler of a sandbox that is resumed: nothing is mapped, and the memory
    is that of the snapshot. *)
Definition resumed (s : sys) : Prop :=
  ∃ h, NewUserfaultfdFromFd ma = Ok h ∧ s = mkSys h (mkKernel ∅ [] [] [] [] (λ i, src (i * ps)) ∅ false).

Lemma resumed_inv s : resumed s → inv s.
Proof using.
  intros (h & Hn & ->). assert (Hh : ∃ p, h = mkUffd NewTracker p no_deferred false false false Polling []).
  { unfold NewUserfaultfdFromFd in Hn. destruct ma as [|r rs]; [done|]. destruct (_ && _); [done|]. destruct (existsb _ rs); [done|].
    injection Hn as <-. by eexists. }
  destruct Hh as [p ->]. split.
  - split; cbn; try done; try (intros ? Hx; unfold all_pfs in Hx; cbn in Hx; by apply elem_of_nil in Hx).
    apply NewTracker_disjoint.
  - intros i. assert (Hnone : (∅ : gmap Z page) !! i = None) by apply lookup_empty. split; cbn; rewrite ?Hnone, ?Get_New; try done.
    + lia.
    + intros t Hx. by apply elem_of_nil in Hx.
    + intros t t' Hx. by apply elem_of_nil in Hx.
    + intros [(q & Hx & _)|(q & Hx & _)]; by apply elem_of_nil in Hx.
    + intros Hx. by apply elem_of_nil in Hx.
Qed.

(** By a clean execution, in which the guest and the prefetcher keep to the
    discipline of [environment].  Nothing in the code makes them:
    [Early_write_is_lost] and [Prefault_overtakes_remove] are executions that
    do not, and lose what was written or given back. *)
Definition clean_reachable (s : sys) : Prop := ∃ s0, resumed s0 ∧ rtc (step true) s0 s.

Lemma clean_reachable_inv s : clean_reachable s → running s → inv s.
Proof using Hok.
  intros (s0 & H0 & Hs) Hr. revert s Hs Hr. refine (rtc_ind_r _ s0 _ _); [intros _; by apply resumed_inv|].
  intros s s' _ Hst IH Hr. specialize (IH (step_running _ _ _ Hst Hr)). destruct Hst as [[m E]|[e E]]; [by eapply code_inv|by eapply environment_inv].
Qed.

(** ** Where pages can be *)

(** The page is one of a region's. *)
Definition page_in (i : Z) : Prop := ∃ g, g ∈ ma ∧ Offset g <= i * ps ∧ (i + 1) * ps <= Offset g + Size g.

Record inside (s : sys) : Prop := {
  in_tracker i : tracker_at s i ≠ NotPresent → page_in i;
  in_pages i : is_Some (page_at s i) → page_in i
}.

Lemma addr_page_in a off : GetOffset ma a = Ok off → page_in (page_idx off).
Proof using Hok.
  intros Ha. pose proof ps_bounds. destruct (offset_region a off Ha) as (g & Hg & Ho & _ & (? & ? & ? & ? & ?) & Hm & Hs & Hlt).
  destruct (page_idx_div off ltac:(lia)) as [-> _]. exists g. split; [done|].
  pose proof (Z.mod_divide (Offset g) ps ltac:(lia)) as [[x Hx] _]; [done|].
  pose proof (Z.mod_divide (Size g) ps ltac:(lia)) as [[y Hy] _]; [done|].
  assert (x <= off / ps) by (apply Z.div_le_lower_bound; nia). assert (off / ps < x + y) by (apply Z.div_lt_upper_bound; nia). nia.
Qed.

Lemma kpage_in a : 0 <= kpage a → page_in (kpage a).
Proof using Hok. unfold kpage. destruct (GetOffset ma a) as [off|] eqn:E; [intros _; by eapply addr_page_in|intros ?; lia]. Qed.

Lemma task_in t : task_wf t → holding (t_phase t) = true → page_in (t_idx t).
Proof using Hok. intros Hw Hh. destruct (task_page t Hw Hh) as (<- & _ & Hp & _). apply kpage_in. lia. Qed.

Lemma inside_task s n p t : inv s → task_at s n p = Some t → (∀ q, p q = true → holding q = true) → page_in (kpage (t_addr t)).
Proof using Hok.
  intros Hinv [Hn Hp]%task_at_spec Hq. pose proof (hi_tasks _ (proj1 Hinv) t (in_tasks _ _ _ Hn)) as Hw.
  destruct (task_page t Hw (Hq _ Hp)) as (E & _). rewrite E. by apply task_in; [|apply Hq].
Qed.

Lemma inside_with s s' i : inside s → page_in i → (∀ j, tracker_at s' j = tracker_at s j) →
  (∀ j, is_Some (page_at s' j) → is_Some (page_at s j) ∨ j = i) → inside s'.
Proof using.
  intros [I1 I2] Hi Ht Hp. split; intros j; [rewrite Ht; apply I1|]. intros [?| ->]%Hp; auto.
Qed.

Lemma install_inside (z : bool) s n t p r s' : inside s → page_in (kpage (t_addr t)) →
  (if z then install_asleep else install) s n t p r = Some s' → inside s'.
Proof using.
  intros Hin Hp E. apply (inside_with s _ (kpage (t_addr t))); try done.
  - intros j. destruct z; unfold install, install_asleep in E; (destruct (populate _ _ _ _); cbn in E; [|done]);
      destruct r as [e|]; injection E as <-; try done; by destruct e.
  - assert (Hg : ∀ g j, populate (kpage (t_addr t)) p (k_pages (sk s)) r = Some g → is_Some (g !! j) → is_Some (page_at s j) ∨ j = kpage (t_addr t)).
    { intros g j. unfold populate. destruct r as [e|], (k_pages (sk s) !! kpage (t_addr t)) eqn:Ep; try destruct e; intros [= <-]; try (intros ?; by left).
      destruct (decide (j = kpage (t_addr t))) as [->|?]; [by right|]. rewrite lookup_insert_ne by done. by left. }
    intros j. destruct z; unfold install, install_asleep in E; destruct (populate _ _ _ _) as [g|] eqn:Eg; try done; cbn in E;
      destruct r as [e|]; injection E as <-; cbn; try (intros ?; by left); by apply Hg.
Qed.

Lemma faultPage_inside s n reads a s' : inv s → inside s → faultPage s n reads a = Some s' → inside s'.
Proof using Hok.
  intros Hinv Hin. unfold faultPage. destruct (task_at s n _) as [t|] eqn:Et; [|done]. cbn.
  assert (Hp : page_in (kpage (t_addr t))) by (eapply inside_task; [done|exact Et|]; by intros []).
  destruct (fault_plan _ _ _); [apply (install_inside true)|apply (install_inside false)|apply (install_inside false)|]; try done.
  destruct (reads_ok _ _); [|done]. destruct (page_source t reads); [by apply (install_inside false)|intros [= <-]; by destruct Hin].
Qed.

Lemma outcome_inside s n s' : inv s → inside s → outcome s n = Some s' → inside s'.
Proof using Hok.
  intros Hinv Hin. unfold outcome. destruct (u_tasks (sh s) !! n) as [t|] eqn:Hn; [|done]. cbn.
  pose proof (hi_tasks _ (proj1 Hinv) t (in_tasks _ _ _ Hn)) as Hw.
  assert (Hset : holding (t_phase t) = true → ∀ h k, u_tracker h = u_tracker (set_dirty (sh s) t) → k_pages k = k_pages (sk s) → inside (mkSys h k)).
  { intros Hh h k Hu Hk. destruct Hin as [I1 I2]. split; intros i; cbn; rewrite ?Hu, ?Hk; [|by apply I2].
    rewrite Get_set_dirty by done. destruct (Z.eqb_spec i (t_idx t)) as [->|]; [intros _; by apply task_in|apply I1]. }
  destruct (t_phase t) as [| | |e| | |o| | |] eqn:Hph; try done.
  destruct o, (t_job t); intros [= <-]; try (by apply Hset); try (by destruct Hin).
  all: destruct (_ || _); [by apply Hset|by destruct Hin].
Qed.

Lemma code_inside m s s' : inv s → inside s → code m s = Some s' → inside s'.
Proof using Hok.
  intros Hinv Hin E.
  assert (Hsame : u_tracker (sh s') = u_tracker (sh s) ∧ k_pages (sk s') = k_pages (sk s) → inside s').
  { intros [Ht Hp]. destruct Hin as [I1 I2]. split; intros i; rewrite ?Ht, ?Hp; auto. }
  destruct m; cbn [code] in E; [..|by eapply faultPage_inside| | |by eapply outcome_inside|];
    unfold poll, read_fault, read_remove, read_failed, take_deferred, dispatch, Close, lookup_, wake_up, signalWakeup, settle in E.
  4: { unfold apply_removes in E. destruct (u_loop (sh s)) as [|rms pfs| | |] eqn:Hl; try done. destruct (_ || _); [|done]. injection E as <-.
    destruct Hin as [I1 I2]. split; intros i; cbn; [|apply I2]. assert (Hr : ∀ r, r ∈ rms → remove_ok r = true).
    { intros r Hr. apply (hi_removes _ (proj1 Hinv)). rewrite Hl, !elem_of_app. auto. }
    rewrite Get_apply_removes by done. destruct (Nat.eqb_spec (count_page i rms) 0) as [_|Hc]; [apply I1|intros _].
    assert (Hex : ∃ r, r ∈ rms ∧ in_range i (rm_pages r) = true).
    { destruct (decide (Exists (λ r, in_range i (rm_pages r) = true) rms)) as [Hex%Exists_exists|Hno]; [by destruct Hex as (r & ? & ?); exists r|].
      destruct Hc. apply count_zero. intros r Hrin. apply not_true_is_false. intros Hx. apply Hno, Exists_exists. by exists r. }
    destruct Hex as (r & Hrin & Hx). destruct (rm_bounds r (Hr r Hrin)). apply rm_pages_addrs in Hx as Ha; [|by apply Hr].
    destruct Ha as (a & _ & <-). apply kpage_in. apply andb_true_iff in Hx as [Hx _]. lia. }
  9: { unfold write_protect in E. destruct (task_at s n _) as [t|]; [|done]. cbn in E. destruct r; injection E as <-; [by destruct Hin|].
    destruct Hin as [I1 I2]. split; intros i; cbn; [apply I1|]. intros Hi. apply I2. unfold protect in Hi.
    destruct (decide (i = kpage (t_addr t))) as [->|?]; [rewrite lookup_alter_eq, fmap_is_Some in Hi|rewrite lookup_alter_ne in Hi]; done. }
  all: repeat match type of E with
  | context [match ?x with _ => _ end] => destruct x; try done
  | (?x ≫= _) = _ => destruct x; cbn in E; try done
  end; injection E as <-; by apply Hsame.
Qed.

Lemma environment_inside e s s' : inside s → environment true e s = Some s' → inside s'.
Proof using.
  intros Hin E. destruct e as [addr w|i data|r|k|off data|]; cbn in E;
    repeat match type of E with context [if ?x then _ else _] => destruct x eqn:?; try done | context [match ?x with _ => _ end] => destruct x eqn:?; try done end;
    injection E as <-; try (by destruct Hin); destruct Hin as [I1 I2]; split; intros j; cbn; try apply I1; intros Hj.
  - destruct (decide (j = i)) as [->|?]; [|rewrite lookup_insert_ne in Hj by done; by apply I2].
    apply I2. match goal with Hb : context [bool_decide (is_Some _)] |- _ => apply andb_true_iff in Hb as [[Hb _]%andb_true_iff _] end. by case_bool_decide.
  - apply I2. destruct Hj as [q Hj]. apply map_lookup_filter_Some in Hj as [Hj _]. by eexists.
Qed.

Lemma clean_reachable_inside s : clean_reachable s → running s → inside s.
Proof using Hok.
  intros Hre. pose proof Hre as (s0 & H0 & Hs). revert s Hs Hre. refine (rtc_ind_r _ s0 _ _).
  - intros _ _. destruct H0 as (h & Hn & ->). assert (Ht : u_tracker h = NewTracker).
    { unfold NewUserfaultfdFromFd in Hn. destruct ma as [|r rs]; [done|]. destruct (_ && _); [done|]. destruct (existsb _ rs); [done|]. by injection Hn as <-. }
    split; intros i; cbn; [by rewrite Ht, Get_New|]. rewrite lookup_empty. by intros [? ?].
  - intros s s' Hsteps Hst IH _ Hr. assert (Hrs : clean_reachable s) by (by exists s0). pose proof (step_running _ _ _ Hst Hr) as Hr'.
    specialize (IH Hrs Hr'). destruct Hst as [[m E]|[e E]]; [by eapply code_inside; [apply clean_reachable_inv| |]|by eapply environment_inside].
Qed.

(** ** A snapshot *)

(** [ExportPageStates], under both locks. *)
Definition ExportPageStates (s : sys) : option (B * B) :=
  match u_loop (sh s) with
  | Reading _ _ => None
  | _ => if unlocked (sh s) then Some (Export (u_tracker (sh s))) else None
  end.

(** [Uffd.DiffMetadata], with what the process reports as written.  The code
    asks for the one and then for the other; here both are of one state, the
    sandbox being paused. *)
Definition UffdDiffMetadata (s : sys) (dirty : DiffMetadata B) : option (DiffMetadata B) :=
  '(_, empty) ← ExportPageStates s;
  Some (mkDiffMetadata (Dirty dirty) (bm_and_not empty (Dirty dirty)) (dm_BlockSize dirty)).

(** A paused sandbox: no write is under way and no memory is being given back.
    The process reports the pages mapped without protection. *)
Record paused (s : sys) (dirty : B) : Prop := {
  pa_writes : k_unwritten (sk s) = ∅;
  pa_removes : k_removes (sk s) = [];
  pa_zapping : k_zapping (sk s) = [];
  pa_dirty i : bm_contains dirty i = match page_at s i with Some p => negb (p_wp p) | None => false end
}.

Lemma count_nil i rs : rs = [] → count_page i rs = O.
Proof using. by intros ->. Qed.

Lemma exported_settled s e : ExportPageStates s = Some e → e = Export (u_tracker (sh s)) ∧ loop_removes (u_loop (sh s)) = [].
Proof using. unfold ExportPageStates. destruct (u_loop (sh s)), (unlocked (sh s)); by intros [= <-]. Qed.

Lemma snapshot_page s dirty d i :
  inv s → paused s (Dirty dirty) → UffdDiffMetadata s dirty = Some d →
  if bm_contains (Dirty d) i then ∃ p, page_at s i = Some p ∧ p_data p = k_mem (sk s) i
  else k_mem (sk s) i = if bm_contains (Empty d) i then zeros else src (i * ps).
Proof using Hok.
  intros [Hh Hp] [Pw Pr Pz Pd] Hd. specialize (Hp i).
  unfold UffdDiffMetadata in Hd. destruct (ExportPageStates s) as [e|] eqn:He; [|done]. apply exported_settled in He as [-> Hl].
  injection Hd as <-. cbn [Dirty Empty]. rewrite bm_contains_and_not, Pd.
  assert (Hdata : data_ok i (tracker_at s i) (page_at s i) (k_mem (sk s) i) (unwritten s i)).
  { apply (pi_data _ _ Hp). by rewrite (count_nil i _ Pz), (count_nil i _ Hl). }
  pose proof (Get_zero _ i (hi_disjoint _ Hh)) as Hz.
  assert (Hnu : ¬ unwritten s i) by (unfold unwritten; rewrite Pw; set_solver).
  destruct (page_at s i) as [p|] eqn:Ep; [destruct (p_wp p) eqn:Ew|]; cbn [negb] in *; rewrite ?andb_true_r.
  2: { exists p. split; [done|]. by apply (pi_mem _ _ Hp). }
  all: destruct (tracker_at s i) eqn:Et; cbn [data_ok] in Hdata; try done.
  all: try (assert (Ez : bm_contains (t_zero (u_tracker (sh s))) i = true) by (by apply Hz); rewrite Ez; auto).
  all: assert (Ez : bm_contains (t_zero (u_tracker (sh s))) i = false) by (apply not_true_is_false; intros Hzt; by apply Hz in Hzt); rewrite Ez.
  all: intuition.
Qed.

(** C9. A sandbox resumed from a snapshot and paused again keeps its memory, in
    every clean execution: the guest gives back no page that it faults in, that
    it is giving back already or that is being prefaulted when the kernel
    discards it; no page being given back is touched or prefaulted; and a zero
    page is written only once it is protected.  Within that, whatever the
    interleaving of its faults, writes and returned memory with the goroutines
    that serve them and the prefetcher, the pages that [DiffMetadata] calls
    dirty are mapped with the content the guest last saw, those it calls empty
    read as zeros, and every other page still has the content of the snapshot.
    Outside it this fails: [Early_write_is_lost] writes the zero page early,
    and [Prefault_overtakes_remove] prefaults a page as it is given back. *)
Theorem Snapshot_keeps_memory s dirty d i :
  clean_reachable s → running s → paused s (Dirty dirty) → UffdDiffMetadata s dirty = Some d →
  if bm_contains (Dirty d) i then ∃ p, page_at s i = Some p ∧ p_data p = k_mem (sk s) i
  else k_mem (sk s) i = if bm_contains (Empty d) i then zeros else src (i * ps).
Proof using Hok. intros Hre Hru. by apply snapshot_page, clean_reachable_inv. Qed.

(** ** Every fault is answered *)

(** The answers of a kernel and of a source that do not fail. *)
Definition answered (m : move) : bool :=
  match m with
  | MReadFailed | MClose => false
  | MInstall _ reads a =>
      forallb (λ r, match r.1 with Some b => len b =? ps | None => false end) reads &&
      match a with Done n => n =? ps | Errno EEXIST => true | Errno _ => false end
  | MProtect _ (Some _) => false
  | _ => true
  end.

Definition good_step (s s' : sys) : Prop := ∃ m, answered m = true ∧ code m s = Some s'.

(** A failure that was not handled yet. *)
Definition fatal (p : phase) : Prop := p = Unprotected EOther ∨ p = Unprotected ESRCH.
Definition failing (s : sys) : Prop := failed s ∨ ∃ t, t ∈ u_tasks (sh s) ∧ fatal (t_phase t).

(** What a goroutine has left to do, a fault it defers included. *)
Definition rank (p : phase) : nat :=
  match p with
  | Starting => 8 | Looked => 7 | Zeroed => 6 | Protected | Exists_ => 5 | Unprotected _ => 13
  | Result faultDeferred => 12 | Result _ => 4 | Pushed => 2 | Returned | Errored => 0
  end.
Fixpoint ranks (ts : list task) : nat :=
  match ts with [] => 0 | t :: ts => rank (t_phase t) + ranks ts end.

Definition no_events (s : sys) : bool := bool_decide (k_faults (sk s) = [] ∧ k_removes (sk s) = []).

(** How far the loop is from reading an event or spawning a goroutine. *)
Definition loop_rank (s : sys) : nat :=
  match u_loop (sh s) with
  | Polling => 1 | Reading _ _ => if no_events s then 4 else 0 | Draining _ => 3 | Dispatching _ => 2 | Stopped _ => 0
  end.
Definition obligations (s : sys) : nat :=
  10 * length (k_faults (sk s)) + length (k_removes (sk s)) + 9 * length (loop_pfs (u_loop (sh s))) +
  9 * length (d_pf (u_deferred (sh s))) + (if u_wakeup (sh s) then 1 else 0) + ranks (u_tasks (sh s)).
Definition work (s : sys) : nat := 5 * obligations s + loop_rank s.

(** A thread is let go only on a page that is mapped. *)
Definition lets_go (s s' : sys) : Prop :=
  (∀ i, is_Some (page_at s i) → is_Some (page_at s' i)) ∧
  ∀ i, i ∈ k_waiting (sk s) → i ∈ k_waiting (sk s') ∨ is_Some (page_at s' i).

Lemma loop_rank_le s : (loop_rank s <= 4)%nat.
Proof using. unfold loop_rank. destruct (u_loop (sh s)); try lia. destruct (no_events s); lia. Qed.

Lemma work_less s s' : (obligations s' < obligations s)%nat → (work s' < work s)%nat.
Proof using. pose proof (loop_rank_le s'). unfold work. lia. Qed.

Lemma ranks_insert ts n t t' : ts !! n = Some t → (ranks (<[n := t']> ts) + rank (t_phase t) = ranks ts + rank (t_phase t'))%nat.
Proof using.
  revert n. induction ts as [|x ts IH]; intros [|n] Hn; try done; [injection Hn as ->; cbn; lia|]. specialize (IH n Hn).
  change (<[S n := t']> (x :: ts)) with (x :: <[n := t']> ts). cbn [ranks]. lia.
Qed.

Lemma filter_shorter {A} (P : A → Prop) `{!∀ x, Decision (P x)} (l : list A) : (length (filter P l) <= length l)%nat.
Proof using. apply length_filter. Qed.

Lemma push_length pf d : (length (d_pf (push pf d)) <= S (length (d_pf d)))%nat.
Proof using.
  unfold push. destruct (d_byAddr d !! pf_address pf); [destruct (has_flag _ _)|]; cbn [d_pf]; rewrite ?length_alter, ?length_app; cbn [length]; lia.
Qed.

(** A move of a goroutine: its new phase, and events that can only go away. *)
Lemma task_move s h' k' n t t' :
  ¬ failing s → u_tasks (sh s) !! n = Some t → u_tasks h' = <[n := t']> (u_tasks (sh s)) → ¬ fatal (t_phase t') →
  u_loop h' = u_loop (sh s) → u_exit h' = u_exit (sh s) → k_gone k' = k_gone (sk s) →
  (length (k_faults k') <= length (k_faults (sk s)))%nat → k_removes k' = k_removes (sk s) →
  (9 * length (d_pf (u_deferred h')) + (if u_wakeup h' then 1 else 0) + rank (t_phase t') <
   9 * length (d_pf (u_deferred (sh s))) + (if u_wakeup (sh s) then 1 else 0) + rank (t_phase t))%nat →
  ¬ failing (mkSys h' k') ∧ (work (mkSys h' k') < work s)%nat.
Proof using.
  intros Hnf Hn Hts Hft Hl He Hg Hk Hr Hlt. split.
  - intros [Hf|(x & Hx & Hxf)]; apply Hnf.
    + left. unfold failed in *. cbn in *. by rewrite He, Hl, Hg in Hf.
    + cbn in Hx. rewrite Hts in Hx. apply (elem_insert _ _ _ _ _ Hn) in Hx as [->|Hx]; [done|]. right. by exists x.
  - pose proof (ranks_insert _ _ _ t' Hn). apply work_less. unfold obligations. cbn. rewrite Hts, Hl, Hr. lia.
Qed.

Definition progress (s : sys) : Prop := ∃ s', good_step s s' ∧ ¬ failing s' ∧ (work s' < work s)%nat ∧ lets_go s s'.

Lemma lets_go_same s s' : k_pages (sk s') = k_pages (sk s) → k_waiting (sk s') = k_waiting (sk s) → lets_go s s'.
Proof using. intros Hp Hw. split; intros i; rewrite ?Hp, ?Hw; auto. Qed.

Lemma lets_go_wake s i g : (∀ j, is_Some (page_at s j) → is_Some (g !! j)) → is_Some (g !! i) →
  ∀ h' k', k_pages k' = g → k_waiting k' = filter (λ j, j ≠ i) (k_waiting (sk s)) → lets_go s (mkSys h' k').
Proof using.
  intros Hg Hi h' k' Hp Hw. split; intros j; cbn; rewrite Hp, ?Hw; [apply Hg|]. intros Hj.
  destruct (decide (j = i)) as [->|Hne]; [by right|left]. apply list_elem_of_filter. by split.
Qed.

Lemma lookup_progress s n t : ¬ failing s → u_tasks (sh s) !! n = Some t → t_phase t = Starting → progress s.
Proof using.
  intros Hnf Hn Hst.
  assert (Hgo : ∀ t', ¬ fatal (t_phase t') → (rank (t_phase t') < 8)%nat → code (MLookup n) s = Some (mkSys (with_task (sh s) n t') (sk s)) → progress s).
  { intros t' Hf Hr E. destruct (task_move s (with_task (sh s) n t') (sk s) n t t') as [H1 H2]; try done; [rewrite Hst; cbn; lia|].
    eexists. split_and!; [by exists (MLookup n)|done|done|by apply lets_go_same]. }
  assert (Ht : task_at s n (λ p, match p with Starting => true | _ => false end) = Some t) by (unfold task_at; rewrite Hn; cbn; by rewrite Hst).
  assert (Hnf' : ∀ p, p = Looked ∨ p = Returned → ¬ fatal p) by (intros p [-> | ->] [?|?]; done).
  cbn [code] in Hgo. unfold lookup_ in Hgo. rewrite Ht in Hgo. cbn in Hgo. destruct (t_job t).
  - destruct (tracker_at s (t_idx t)); (eapply Hgo; [|..|done]; cbn; [apply Hnf'; auto|lia]).
  - destruct (u_closed (sh s)); [|destruct (GetHostVirtAddr ma (t_off t)); [destruct (negb _); [|destruct (tracker_at s (t_idx t))]|]];
      (eapply Hgo; [|..|done]; cbn; [apply Hnf'; auto|lia]).
Qed.

(** The answer of a kernel that has, or has not, the page. *)
Definition answer (present : bool) : ioctl := if present then Errno EEXIST else Done ps.

Lemma fd_zero_answer b : fd_zero ps (answer b) = if b then Some EEXIST else None.
Proof using. destruct b; [done|]. cbn. by rewrite Z.eqb_refl. Qed.
Lemma fd_copy_answer b : fd_copy ps (answer b) = if b then Some EEXIST else None.
Proof using Hok.
  destruct b; [done|]. pose proof ps_bounds. cbn. unfold classifyCopyResult. rewrite Z.eqb_refl. cbn. by destruct (Z.ltb_spec ps 0); [lia|].
Qed.

Lemma install_progress s n t p (z : bool) m :
  inv s → ¬ failing s → u_tasks (sh s) !! n = Some t → t_phase t = Looked →
  let b := bool_decide (is_Some (page_at s (t_idx t))) in
  answered m = true →
  code m s = (if z then install_asleep else install) s n t p (if b then Some EEXIST else None) → progress s.
Proof using Hok.
  intros Hinv Hnf Hn Hph b Ha E. pose proof (in_tasks _ _ _ Hn) as Hin. pose proof (hi_tasks _ (proj1 Hinv) t Hin) as Hwf.
  destruct (task_page t Hwf) as (Hk & _); [by rewrite Hph|].
  assert (Hgo : ∀ h' k', code m s = Some (mkSys h' k') → ¬ failing (mkSys h' k') ∧ (work (mkSys h' k') < work s)%nat →
    lets_go s (mkSys h' k') → progress s).
  { intros h' k' E' [H1 H2] Hl. eexists. split_and!; [by exists m|done|done|done]. }
  unfold b in E. case_bool_decide as Hb.
  - assert (E' : code m s = Some (settle s n t EEXIST)).
    { rewrite E. destruct Hb as [q Hq]. destruct z; unfold install, install_asleep, populate; rewrite Hk, Hq; done. }
    apply (Hgo _ _ E'); [|by apply lets_go_same]. apply (task_move s _ _ n t (at_phase t Exists_)); try done; cbn.
    + intros [?|?]; done.
    + by rewrite andb_false_r, orb_false_r.
    + by rewrite orb_false_r.
    + rewrite Hph; cbn. lia.
  - assert (Hnone : page_at s (t_idx t) = None) by (destruct (page_at s (t_idx t)) eqn:Ep; [by destruct Hb|done]).
    assert (Hgrow : ∀ j, is_Some (page_at s j) → is_Some (<[t_idx t := p]> (k_pages (sk s)) !! j)).
    { intros j Hj. destruct (decide (j = t_idx t)) as [->|?]; [by rewrite lookup_insert_eq|by rewrite lookup_insert_ne]. }
    destruct z; unfold install, install_asleep, populate in E; rewrite Hk, Hnone in E; cbn in E.
    + apply (Hgo _ _ E); [|split; intros j; cbn; auto].
      apply (task_move s _ _ n t (at_phase t Zeroed)); try done; cbn; [intros [?|?]; done|rewrite Hph; cbn; lia].
    + apply (Hgo _ _ E).
      * apply (task_move s _ _ n t (at_phase t (Result faultInstalled))); try done; cbn; [intros [?|?]; done|apply length_filter|rewrite Hph; cbn; lia].
      * eapply (lets_go_wake s (t_idx t)); [exact Hgrow|by rewrite lookup_insert_eq|done|done].
Qed.

Lemma faultPage_progress s n t : inv s → ¬ failing s → u_tasks (sh s) !! n = Some t → t_phase t = Looked → progress s.
Proof using Hok.
  intros Hinv Hnf Hn Hph. set (b := bool_decide (is_Some (page_at s (t_idx t)))).
  set (reads := [(Some (src (t_off t)), false)] : list (option bytes * bool)).
  assert (Hlen : len (src (t_off t)) = ps) by apply (mo_src Hok).
  assert (Hrd : reads_ok (t_off t) reads = true) by (unfold reads_ok, reads; cbn; rewrite bool_decide_eq_true_2 by done; by rewrite orb_true_r).
  assert (Ha : answered (MInstall n reads (answer b)) = true).
  { unfold reads, answer. cbn. rewrite Hlen, Z.eqb_refl. destruct b; cbn; by rewrite ?Z.eqb_refl. }
  assert (Ht : task_at s n (λ p, match p with Looked => true | _ => false end) = Some t) by (unfold task_at; rewrite Hn; cbn; by rewrite Hph).
  assert (Hsrc : ∃ data, page_source t reads = Some data).
  { unfold page_source. destruct (t_job t) as [pf|data]; [|by exists data]. exists (src (t_off t)). unfold reads. cbn. by rewrite Hlen, Z.eqb_refl. }
  destruct Hsrc as [data Hdata]. clearbody reads.
  assert (Hcode : ∃ p z, code (MInstall n reads (answer b)) s = (if z : bool then install_asleep else install) s n t p (if b then Some EEXIST else None)).
  { cbn [code]. unfold faultPage. rewrite Ht. cbn. rewrite Hrd, Hdata, fd_zero_answer, fd_copy_answer.
    destruct (fault_plan _ _ _); [by exists (mkPage zeros false), true|by eexists _, false..]. }
  destruct Hcode as (p & z & Hcode). by apply (install_progress s n t p z (MInstall n reads (answer b))).
Qed.

Lemma wake_progress s n t : inv s → ¬ failing s → u_tasks (sh s) !! n = Some t →
  (∃ e, t_phase t = Unprotected e) ∨ t_phase t = Protected ∨ t_phase t = Exists_ → progress s.
Proof using Hok.
  intros Hinv Hnf Hn Hph. pose proof (in_tasks _ _ _ Hn) as Hin. pose proof (hi_tasks _ (proj1 Hinv) t Hin) as Hwf.
  destruct (task_page t Hwf) as (Hk & _); [by destruct Hph as [[e ->]|[-> | ->]]|].
  assert (Hpg : is_Some (page_at s (t_idx t))).
  { destruct (pi_task _ _ (proj2 Hinv _) t Hin eq_refl) as [_ Hp]. by destruct Hph as [[e E]|[E|E]]; rewrite E in Hp. }
  assert (Hgo : ∀ h' k' t', code (MWake n) s = Some (mkSys h' k') → u_tasks h' = <[n := t']> (u_tasks (sh s)) → ¬ fatal (t_phase t') →
    h' = with_tasks (sh s) (u_tasks h') → k' = wake (t_idx t) (sk s) → (rank (t_phase t') < rank (t_phase t))%nat → progress s).
  { intros h' k' t' E Hts Hf Hh -> Hr.
    destruct (task_move s h' (wake (t_idx t) (sk s)) n t t') as [H1 H2]; try done; try (by rewrite Hh); [apply length_filter|rewrite Hh; cbn; lia|].
    eexists. split_and!; [by exists (MWake n)|done|done|]. by eapply lets_go_wake. }
  cbn [code] in Hgo. unfold wake_up in Hgo. rewrite Hn in Hgo. cbn in Hgo. rewrite Hk in Hgo.
  assert (Hnf' : ∀ o, ¬ fatal (Result o)) by (intros o [?|?]; done).
  destruct Hph as [[e Hph]|[Hph|Hph]]; rewrite Hph in Hgo.
  - assert (He : e = EEXIST ∨ e = EAGAIN).
    { destruct e; auto; destruct Hnf; right; exists t; (split; [done|]); rewrite Hph; [by right|by left]. }
    assert (E : settle (mkSys (sh s) (wake (t_idx t) (sk s))) n t e =
      mkSys (with_task (sh s) n (at_phase t (settle_phase e))) (wake (t_idx t) (sk s))).
    { unfold settle. destruct (sh s), He as [-> | ->]; cbn; rewrite ?andb_false_r, ?orb_false_r; reflexivity. }
    rewrite E in Hgo. apply (Hgo _ _ (at_phase t (settle_phase e)) eq_refl); try done.
    + destruct He as [-> | ->]; intros [?|?]; done.
    + destruct He as [-> | ->]; cbn; lia.
  - apply (Hgo _ _ (at_phase t (Result faultInstalled)) eq_refl); try done; [apply Hnf'|cbn; lia].
  - apply (Hgo _ _ (at_phase t (Result faultAlreadyPresent)) eq_refl); try done; [apply Hnf'|cbn; lia].
Qed.

Lemma protect_progress s n t : ¬ failing s → u_tasks (sh s) !! n = Some t → t_phase t = Zeroed → progress s.
Proof using.
  intros Hnf Hn Hph. eexists. split; [exists (MProtect n None); split; [done|]; cbn [code]; unfold write_protect, task_at; rewrite Hn; cbn; rewrite Hph; done|].
  destruct (task_move s (with_task (sh s) n (at_phase t Protected)) (with_pages (sk s) (protect (kpage (t_addr t)) (k_pages (sk s)))) n t (at_phase t Protected)) as [H1 H2];
    try done; [intros [?|?]; done|rewrite Hph; cbn; lia|].
  split_and!; [done|done|]. split; intros i; cbn; auto. intros [p Hp]. unfold protect.
  destruct (decide (i = kpage (t_addr t))) as [->|Hne]; [rewrite lookup_alter_eq, Hp; by eexists|rewrite lookup_alter_ne by done; by exists p].
Qed.

Lemma outcome_progress s n t o : ¬ failing s → u_tasks (sh s) !! n = Some t → t_phase t = Result o → progress s.
Proof using.
  intros Hnf Hn Hph.
  assert (Hgo : ∀ h' t', code (MOutcome n) s = Some (mkSys h' (sk s)) → u_tasks h' = <[n := t']> (u_tasks (sh s)) → ¬ fatal (t_phase t') →
    u_loop h' = u_loop (sh s) → u_exit h' = u_exit (sh s) → u_wakeup h' = u_wakeup (sh s) →
    (9 * length (d_pf (u_deferred h')) + rank (t_phase t') < 9 * length (d_pf (u_deferred (sh s))) + rank (Result o))%nat → progress s).
  { intros h' t' E Hts Hf Hl He Hw Hr. destruct (task_move s h' (sk s) n t t') as [H1 H2]; try done; [rewrite Hph, Hw; lia|].
    eexists. split_and!; [by exists (MOutcome n)|done|done|by apply lets_go_same]. }
  cbn [code] in Hgo. unfold outcome in Hgo. rewrite Hn in Hgo. cbn in Hgo. rewrite Hph in Hgo.
  assert (Hret : ∀ p, p = Returned ∨ p = Pushed → ¬ fatal p) by (intros p [-> | ->] [?|?]; done).
  pose proof (push_length (match t_job t with JFault pf => pf | JPrefault _ => mkFault 0 0 end) (u_deferred (sh s))) as Hpl.
  destruct o, (t_job t); try destruct (_ || _); (eapply Hgo; [reflexivity|reflexivity|cbn; apply Hret; auto|done|done|done|cbn in *; lia]).
Qed.

Lemma signal_progress s n t : ¬ failing s → u_tasks (sh s) !! n = Some t → t_phase t = Pushed → progress s.
Proof using.
  intros Hnf Hn Hph. eexists. split; [exists (MSignal n); split; [done|]; cbn [code]; unfold signalWakeup, task_at; rewrite Hn; cbn; rewrite Hph; done|].
  destruct (task_move s (with_task (with_wakeup (sh s) true) n (at_phase t Returned)) (sk s) n t (at_phase t Returned)) as [H1 H2];
    try done; [intros [?|?]; done|rewrite Hph; cbn; destruct (u_wakeup (sh s)); lia|].
  split_and!; [done|done|by apply lets_go_same].
Qed.

Lemma task_progress s n t : inv s → ¬ failing s → u_tasks (sh s) !! n = Some t → live t = true → progress s.
Proof using Hok.
  intros Hinv Hnf Hn Hl. unfold live in Hl. destruct (t_phase t) as [| | |e| | |o| | |] eqn:Hph; try done.
  - by eapply lookup_progress.
  - by eapply faultPage_progress.
  - by eapply protect_progress.
  - eapply wake_progress; eauto.
  - eapply wake_progress; eauto.
  - eapply wake_progress; eauto.
  - by eapply outcome_progress.
  - by eapply signal_progress.
Qed.

Lemma idle_unlocked s : (∀ t, t ∈ u_tasks (sh s) → live t = false) → unlocked (sh s) = true ∧ in_progress (sh s) = 0.
Proof using.
  intros Hd. split.
  - unfold unlocked. apply forallb_forall. intros t Ht%list_elem_of_In. specialize (Hd t Ht). unfold live in Hd. by destruct (t_phase t).
  - unfold in_progress, len. apply Z.eq_mul_0_l with 1; [|done]. rewrite Z.mul_1_r.
    destruct (filter _ _) as [|t ts] eqn:E; [done|]. assert (Ht : t ∈ t :: ts) by (by left). rewrite <- E in Ht.
    apply list_elem_of_filter in Ht as [Ht Hin]. rewrite (Hd t Hin), andb_false_r in Ht. done.
Qed.

Lemma loop_move s h' k' m : ¬ failing s → answered m = true → code m s = Some (mkSys h' k') →
  u_exit h' = u_exit (sh s) → k_gone k' = k_gone (sk s) → (∀ b, u_loop h' ≠ Stopped b) →
  (∀ t, t ∈ u_tasks h' → t ∈ u_tasks (sh s) ∨ t_phase t = Starting) →
  k_pages k' = k_pages (sk s) → k_waiting k' = k_waiting (sk s) → (work (mkSys h' k') < work s)%nat → progress s.
Proof using.
  intros Hnf Ha E He Hg Hl Ht Hp Hw Hlt. eexists. split_and!; [by exists m| |done|by apply lets_go_same].
  intros [[Hf|[[b Hf]|Hf]]|(t & Hin & Hf)]; cbn in *; [..|destruct (Ht t Hin) as [?|Hst]; [|rewrite Hst in Hf; by destruct Hf]].
  - apply Hnf. left. left. congruence.
  - by apply (Hl b).
  - apply Hnf. left. right. right. congruence.
  - apply Hnf. right. by exists t.
Qed.

Lemma poll_progress s : inv s → ¬ failing s → u_loop (sh s) = Polling → (∀ t, t ∈ u_tasks (sh s) → live t = false) →
  no_events s = false ∨ d_pf (u_deferred (sh s)) ≠ [] → progress s.
Proof using.
  intros Hinv Hnf Hl Hidle Hsome.
  assert (He : u_exit (sh s) = false) by (destruct (u_exit (sh s)) eqn:E; [destruct Hnf; left; by left|done]).
  assert (Hcode : code MPoll s = poll s) by done. unfold poll in Hcode. rewrite Hl, He in Hcode.
  change (bool_decide (k_faults (sk s) = [] ∧ k_removes (sk s) = [])) with (no_events s) in Hcode.
  destruct (no_events s) eqn:Ev; cbn [negb orb] in Hcode.
  - assert (Hw : u_wakeup (sh s) = true).
    { destruct Hsome as [?|Hd]; [done|]. destruct (hi_wakeup _ (proj1 Hinv) Hd) as [?|[Ha|(t & Ht & Hp)]]; [done|by rewrite Hl in Ha|].
      specialize (Hidle t Ht). unfold live in Hidle. by rewrite Hp in Hidle. }
    rewrite Hw in Hcode. eapply (loop_move s _ _ MPoll); try done; [by left|].
    unfold work, obligations, loop_rank. cbn. rewrite Hl, Hw. cbn. lia.
  - eapply (loop_move s _ _ MPoll); try done; [by left|]. unfold work, obligations, loop_rank.
    change (no_events (mkSys _ _)) with (no_events s). rewrite Ev, Hl. cbn. destruct (u_wakeup (sh s)); lia.
Qed.

Lemma reading_progress s rms pfs : ¬ failing s → u_loop (sh s) = Reading rms pfs → (∀ t, t ∈ u_tasks (sh s) → live t = false) → progress s.
Proof using.
  intros Hnf Hl Hidle. destruct (idle_unlocked s Hidle) as [Hu _].
  destruct (k_faults (sk s)) as [|pf fs] eqn:Ef; [destruct (k_removes (sk s)) as [|r rs] eqn:Er|].
  - eapply (loop_move s _ _ MApply); [done|done|cbn [code]; unfold apply_removes; rewrite Hl, Hu, orb_true_r; done|done|done|done|by left|done|done|].
    unfold work, obligations, loop_rank, no_events. cbn. rewrite Hl, Ef, Er. cbn. lia.
  - eapply (loop_move s _ _ (MReadRemove 0)); [done|done|cbn [code]; unfold read_remove; rewrite Hl, Er; done|done|done|done|by left|done|done|].
    apply work_less. unfold obligations. cbn. rewrite Hl, Ef, Er. cbn. lia.
  - eapply (loop_move s _ _ (MReadFault 0)); [done|done|cbn [code]; unfold read_fault; rewrite Hl, Ef; done|done|done|done|by left|done|done|].
    apply work_less. unfold obligations. cbn. rewrite Hl, Ef. cbn. rewrite length_app. cbn. lia.
Qed.

Lemma dispatch_progress s pfs : inv s → ¬ failing s → u_loop (sh s) = Dispatching pfs → (∀ t, t ∈ u_tasks (sh s) → live t = false) → progress s.
Proof using.
  intros Hinv Hnf Hl Hidle. destruct (idle_unlocked s Hidle) as [_ Hip]. destruct pfs as [|pf pfs].
  - eapply (loop_move s _ _ MDispatch); [done|done|cbn [code]; unfold dispatch; rewrite Hl; done|done|done|done|by left|done|done|].
    unfold work, obligations, loop_rank. cbn. rewrite Hl. cbn. lia.
  - assert (Hpf : pf ∈ all_pfs s) by (unfold all_pfs; rewrite Hl; cbn [loop_pfs]; rewrite !elem_of_app, elem_of_cons; auto).
    destruct (hi_pfs _ (proj1 Hinv) pf Hpf) as [(off & Ho & _) Hfl].
    assert (Hx : has_flag pf UFFD_PAGEFAULT_FLAG_MINOR || has_flag pf UFFD_PAGEFAULT_FLAG_WP = false)
      by (unfold has_flag; by destruct Hfl as [-> | ->]).
    eapply (loop_move s _ _ MDispatch); [done|done|cbn [code]; unfold dispatch; rewrite Hl, Hx, Ho, Hip; done|done|done|done| |done|done|].
    + cbn. intros t [?| ->%list_elem_of_singleton]%elem_of_app; auto.
    + unfold work, obligations, loop_rank. cbn. rewrite Hl. cbn.
      assert (Hr : ∀ ts t, ranks (ts ++ [t]) = (ranks ts + rank (t_phase t))%nat) by (induction ts as [|x ts IH]; intros t; cbn; [lia|rewrite IH; lia]).
      rewrite Hr. cbn. lia.
Qed.

Lemma waiting_progress s : inv s → ¬ failing s → k_waiting (sk s) ≠ [] → progress s.
Proof using Hok.
  intros Hinv Hnf Hw. destruct (decide (Exists (λ t, live t = true) (u_tasks (sh s)))) as [Hlive|Hidle].
  { apply Exists_exists in Hlive as (t & Ht & Hl). apply list_elem_of_lookup in Ht as [n Hn]. by eapply task_progress. }
  assert (Hdead : ∀ t, t ∈ u_tasks (sh s) → live t = false).
  { intros t Ht. apply not_true_is_false. intros Hl. apply Hidle, Exists_exists. by exists t. }
  destruct (k_waiting (sk s)) as [|i is_] eqn:Ei; [done|]. assert (Hi : i ∈ k_waiting (sk s)) by (rewrite Ei; by left).
  destruct (pi_wait _ _ (proj2 Hinv i) Hi) as [Hf|[(pf & Hpf & _)|(t & Ht & Hti & Hf & Hs)]].
  { by destruct Hnf; left. }
  2: { specialize (Hdead t Ht). unfold live in Hdead. by destruct (t_phase t). }
  unfold all_pfs in Hpf. destruct (u_loop (sh s)) as [|rms pfs|pfs|pfs|b] eqn:Hl.
  - apply poll_progress; try done. cbn in Hpf. unfold no_events. destruct (k_faults (sk s)) as [|q qs]; [right|left; by apply bool_decide_eq_false; intros [? _]].
    cbn in Hpf. intros E. rewrite E in Hpf. by apply elem_of_nil in Hpf.
  - by eapply reading_progress.
  - eapply (loop_move s _ _ MDrain); [done|done|cbn [code]; unfold take_deferred; rewrite Hl; done|done|done|done|by left|done|done|].
    unfold work, obligations, loop_rank. cbn. rewrite Hl. cbn. rewrite length_app. lia.
  - by eapply dispatch_progress.
  - destruct Hnf. left. right; left. by exists b.
Qed.

(** C31. No fault is left unanswered: from every state of a clean execution (see
    [environment]) in which no error is on record, the handler alone, on answers of the kernel and of the
    source that are not errors, gets to a state where no thread waits, and
    every thread that waited was let go on a page that is mapped.  This holds
    whatever was deferred ([EAGAIN]) before, and whatever was being given back;
    no page is unmapped on the way. *)
Theorem Faults_answered s : clean_reachable s → ¬ failing s →
  ∃ s', rtc good_step s s' ∧ k_waiting (sk s') = [] ∧
    ∀ i, i ∈ k_waiting (sk s) ∨ is_Some (page_at s i) → is_Some (page_at s' i).
Proof using Hok.
  intros Hre Hnf. assert (Hinv : inv s).
  { apply (clean_reachable_inv s Hre). intros b Hb. apply Hnf. left. right; left. by exists b. }
  clear Hre. remember (work s) as k eqn:Ek. revert s Ek Hnf Hinv. induction (lt_wf k) as [k _ IH]. intros s -> Hnf Hinv.
  destruct (decide (k_waiting (sk s) = [])) as [Ew|Hw].
  { exists s. split_and!; [done|done|]. intros i [Hi|?]; [|done]. rewrite Ew in Hi. by apply elem_of_nil in Hi. }
  destruct (waiting_progress s Hinv Hnf Hw) as (s1 & (m & Ha & Hm) & Hnf1 & Hlt & Hpg & Hgo).
  assert (Hinv1 : inv s1).
  { apply (code_inv m s s1 Hinv); [|done]. intros b Hb. apply Hnf1. left. right; left. by exists b. }
  destruct (IH _ Hlt s1 eq_refl Hnf1 Hinv1) as (s2 & Hs & Hn & Hall).
  exists s2. split; [|split; [done|]].
  - eapply rtc_l; [|done]. by exists m.
  - intros i Hi. apply Hall. destruct Hi as [Hi|Hp]; [by apply Hgo|right; by apply Hpg].
Qed.

(** ** After [Close] *)

(** Nobody is at work under the lock, and no fault is left. *)
Definition closed_ok (s : sys) : Prop := u_closed (sh s) = true →
  (∃ b, u_loop (sh s) = Stopped b) ∧ ∀ t, t ∈ u_tasks (sh s) → holding (t_phase t) = false ∧ (is_fault t = true → live t = false).

(** What is left to a closed handler: to be closed again, or a prefault that
    returns at once. *)
Lemma closed_moves m s s' : closed_ok s → u_closed (sh s) = true → code m s = Some s' →
  sk s' = sk s ∧ (sh s' = sh s ∨ ∃ n t, u_tasks (sh s) !! n = Some t ∧ is_fault t = false ∧ sh s' = with_task (sh s) n (at_phase t Returned)).
Proof using.
  intros Hc Hcl E. destruct (Hc Hcl) as [[b Hb] Ht]. clear Hc.
  assert (Hin : ∀ n t, u_tasks (sh s) !! n = Some t → holding (t_phase t) = false ∧ (is_fault t = true → live t = false)) by (intros n t Hn; by eapply Ht, in_tasks).
  destruct m as [|k|k| | | | | |n|n reads a|n r|n|n|n]; cbn [code] in E;
    unfold poll, read_fault, read_remove, apply_removes, read_failed, take_deferred, dispatch, faultPage, write_protect, signalWakeup, wake_up, outcome in E;
    rewrite ?Hb in E; try done.
  - unfold Close in E. rewrite Hb in E. destruct (_ && _); [|done]. injection E as <-. split; [done|left]. unfold with_closed. destruct (sh s). cbn in *. by subst.
  - unfold lookup_, task_at in E. destruct (u_tasks (sh s) !! n) as [t|] eqn:Hn; [|done]. cbn in E. destruct (Hin n t Hn) as [_ Hl].
    destruct (t_phase t) eqn:Hp; try done. cbn in E. unfold is_fault, live in Hl. rewrite Hp in Hl.
    destruct (t_job t) eqn:Ej; [by discriminate Hl|]. rewrite Hcl in E. injection E as <-. split; [done|right]. exists n, t. unfold is_fault. by rewrite Ej.
  - unfold task_at in E. destruct (u_tasks (sh s) !! n) as [t|] eqn:Hn; [|done]. cbn in E. destruct (Hin n t Hn) as [Hh _]. by destruct (t_phase t).
  - unfold task_at in E. destruct (u_tasks (sh s) !! n) as [t|] eqn:Hn; [|done]. cbn in E. destruct (Hin n t Hn) as [Hh _]. by destruct (t_phase t).
  - destruct (u_tasks (sh s) !! n) as [t|] eqn:Hn; [|done]. cbn in E. destruct (Hin n t Hn) as [Hh _]. by destruct (t_phase t).
  - destruct (u_tasks (sh s) !! n) as [t|] eqn:Hn; [|done]. cbn in E. destruct (Hin n t Hn) as [Hh _]. by destruct (t_phase t).
  - unfold task_at in E. destruct (u_tasks (sh s) !! n) as [t|] eqn:Hn; [|done]. cbn in E. destruct (Hin n t Hn) as [Hh _]. by destruct (t_phase t).
Qed.

Lemma code_closed m s s' : code m s = Some s' → u_closed (sh s') = true → u_closed (sh s) = true ∨ m = MClose.
Proof using.
  intros E Hc. destruct m; auto; left; rewrite <- Hc; clear Hc; cbn [code] in E;
  unfold poll, read_fault, read_remove, apply_removes, read_failed, take_deferred, dispatch, lookup_, faultPage, install, install_asleep,
    write_protect, wake_up, outcome, signalWakeup, settle in E;
  repeat match type of E with
  | context [match ?x with _ => _ end] => destruct x eqn:?; try done
  | (?x ≫= _) = _ => destruct x; cbn in E; try done
  end; injection E as <-; (reflexivity || (cbn; congruence)).
Qed.

Lemma closed_ok_code m s s' : closed_ok s → code m s = Some s' → closed_ok s'.
Proof using.
  intros Hok' E Hc'. destruct (code_closed _ _ _ E Hc') as [Hc| ->].
  - destruct (closed_moves _ _ _ Hok' Hc E) as [_ [-> |(n & t & Hn & Hf & ->)]]; [by apply Hok'|].
    destruct (Hok' Hc) as [Hb Ht]. split; [done|]. intros x [->|Hx]%(elem_insert _ _ _ _ _ Hn); [done|by apply Ht].
  - cbn [code] in E. unfold Close in E. destruct (u_loop (sh s)) as [| | | |b] eqn:Hl; try done. destruct (_ && _) eqn:Eb; [|done].
    apply andb_true_iff in Eb as [Hf Hu]. injection E as <-. cbn. split; [by exists b|]. intros t Ht. split; [by apply (unlocked_spec (sh s))|].
    unfold faults_done in Hf. rewrite forallb_forall in Hf. apply list_elem_of_In in Ht. specialize (Hf t Ht). cbn in Ht.
    apply negb_true_iff in Hf. intros Hft. by rewrite Hft in Hf.
Qed.

Lemma closed_ok_env clean e s s' : closed_ok s → environment clean e s = Some s' → closed_ok s'.
Proof using.
  intros Hok' E. destruct e; cbn in E;
    repeat match type of E with context [match ?x with _ => _ end] => destruct x; try done end; injection E as <-; try exact Hok'.
  intros Hc. destruct (Hok' Hc) as [Hb Ht]. split; [done|]. cbn. intros x [?| ->%list_elem_of_singleton]%elem_of_app; [by apply Ht|done].
Qed.

Lemma closed_ok_runs clean s0 s : resumed s0 → rtc (step clean) s0 s → closed_ok s.
Proof using.
  intros H0. revert s. refine (rtc_ind_r _ s0 _ _).
  - destruct H0 as (h & Hn & ->). intros Hc. cbn in Hc. unfold NewUserfaultfdFromFd in Hn. destruct ma as [|r rs]; [done|].
    destruct (_ && _); [done|]. destruct (existsb _ rs); [done|]. by injection Hn as <-.
  - intros x y _ [[m E]|[e E]] IH; [by eapply closed_ok_code|by eapply closed_ok_env].
Qed.

(** C32. [Close] frees the descriptor only when nobody can use it.  In every
    execution, disciplined or not, once the handler is closed no goroutine is
    past its check of [closed] under the lock, [Serve] has returned and the
    goroutines of its faults too; and the program has no move left that calls
    the kernel or changes the pages' states, even when more prefaults come. *)
Theorem Close_is_final clean s0 s s1 m s2 :
  resumed s0 → rtc (step clean) s0 s → u_closed (sh s) = true → rtc (step clean) s s1 → code m s1 = Some s2 →
  (∃ b, u_loop (sh s) = Stopped b) ∧ (∀ t, t ∈ u_tasks (sh s) → holding (t_phase t) = false ∧ (is_fault t = true → live t = false)) ∧
  u_closed (sh s1) = true ∧ sk s2 = sk s1 ∧ u_tracker (sh s2) = u_tracker (sh s) ∧ u_prefetch (sh s2) = u_prefetch (sh s).
Proof using.
  intros H0 Hs Hc Hs1 E. destruct (closed_ok_runs _ _ _ H0 Hs Hc) as [Hb Ht].
  set (kept := λ x, closed_ok x ∧ u_closed (sh x) = true ∧ u_tracker (sh x) = u_tracker (sh s) ∧ u_prefetch (sh x) = u_prefetch (sh s)).
  assert (Hcode : ∀ n x y, kept x → code n x = Some y → kept y ∧ sk y = sk x).
  { intros n x y (I0 & I1 & I2 & I3) Ex. destruct (closed_moves n x y I0 I1 Ex) as [Hk Hsh]. split; [|done].
    split; [by apply (closed_ok_code n x)|]. by destruct Hsh as [-> |(k & t & _ & _ & ->)]. }
  assert (Hkept : kept s1).
  { revert s1 Hs1 E. intros s1 Hs1 _. revert s1 Hs1. refine (rtc_ind_r _ s _ _); [split; [by eapply closed_ok_runs|done]|].
    intros x y _ [[n Ex]|[e Ex]] Hx; [by eapply Hcode|]. destruct Hx as (I0 & I1 & I2 & I3). split; [by eapply closed_ok_env|].
    destruct e; cbn in Ex; repeat match type of Ex with context [match ?z with _ => _ end] => destruct z; try done end; by injection Ex as <-. }
  destruct (Hcode m s1 s2 Hkept E) as [(_ & _ & I2 & I3) Hk]. destruct Hkept as (_ & I1 & _). done.
Qed.

(** ** Executions, move by move *)

Inductive act := Code (m : move) | Env (e : event).

Definition act_step (clean : bool) (a : act) (s : sys) : option sys :=
  match a with Code m => code m s | Env e => environment clean e s end.

Fixpoint exec (clean : bool) (acts : list act) (s : sys) : option sys :=
  match acts with
  | [] => Some s
  | a :: acts => s' ← act_step clean a s; exec clean acts s'
  end.

Lemma exec_rtc clean acts s s' : exec clean acts s = Some s' → rtc (step clean) s s'.
Proof using.
  revert s. induction acts as [|a acts IH]; intros s; cbn [exec]; [by intros [= ->]|].
  destruct (act_step clean a s) as [s1|] eqn:E; [|done]. cbn. intros Hs. eapply rtc_l; [|by apply IH].
  destruct a as [m|e]; [left; by exists m|right; by exists e].
Qed.

Definition start : option sys :=
  match NewUserfaultfdFromFd ma with
  | Ok h => Some (mkSys h (mkKernel ∅ [] [] [] [] (λ i, src (i * ps)) ∅ false))
  | Err _ => None
  end.

Lemma start_resumed s : start = Some s → resumed s.
Proof using. unfold start, resumed. destruct (NewUserfaultfdFromFd ma) as [h|]; [|done]. intros [= <-]. by exists h. Qed.

Definition run (clean : bool) (acts : list act) : option sys := s ← start; exec clean acts s.

Lemma run_clean acts s : run true acts = Some s → clean_reachable s.
Proof using.
  unfold run. destruct start as [s0|] eqn:E; [|done]. cbn. intros Hs. exists s0. split; [by apply start_resumed|by eapply exec_rtc].
Qed.
End uffd.

(** ** A sandbox of two pages *)

Section two_pages.
Definition two_pages : list Region := [mkRegion 65536 8192 0 4096].
Definition two_src (off : Z) : bytes := replicate (Z.to_nat 4096) (7 + off / 4096).
Lemma two_memory : memory_ok two_pages 4096 two_src.
Proof.
  split; [by left| | |].
  - split; [repeat constructor; cbn; lia|]. repeat constructor; cbn; lia.
  - repeat constructor; cbn; try done; lia.
  - intros off. unfold two_src. unfold len. by rewrite length_replicate, Z2Nat.id.
Qed.

Notation two_run := (run (B:=gset Z) two_pages 4096 two_src).

(** Both pages fault; the second is deferred once, then written; the first is
    given back. *)
Definition read_page (off : Z) : list (option bytes * bool) := [(Some (two_src off), false)].
Definition two_acts : list act :=
  [Env (EFault 65536 false); Env (EFault 69632 true); Code MPoll; Code (MReadFault 0); Code (MReadFault 0); Code MApply; Code MDrain;
   Code MDispatch; Code MDispatch; Code MDispatch; Code (MLookup 0); Code (MLookup 1); Code (MInstall 0 (read_page 0) (Done 4096));
   Code (MInstall 1 (read_page 4096) (Errno EAGAIN)); Code (MOutcome 0); Code (MOutcome 1)].
Definition two_more : list act :=
  [Code (MSignal 1); Code MPoll; Code MDrain; Code MDispatch; Code MDispatch; Code (MLookup 2);
   Code (MInstall 2 (read_page 4096) (Done 4096)); Code (MOutcome 2); Env (EWrite 1 (replicate (Z.to_nat 4096) 9));
   Env (ERemove (65536, 69632)); Code MPoll; Code (MReadRemove 0); Env (EZap 0); Code MApply; Code MDrain; Code MDispatch].
Definition two_end := two_run true (two_acts ++ two_more).

Lemma two_end_runs : ∃ s, two_end = Some s ∧ k_pages (sk s) = {[1 := mkPage (replicate (Z.to_nat 4096) 9) false]} ∧
  u_loop (sh s) = Polling ∧ (k_unwritten (sk s), k_removes (sk s), k_zapping (sk s)) = (∅, [], []).
Proof.
  assert (E : option_map (λ s, (k_pages (sk s), u_loop (sh s), (k_unwritten (sk s), k_removes (sk s), k_zapping (sk s)))) two_end =
    Some ({[1 := mkPage (replicate (Z.to_nat 4096) 9) false]}, Polling, (∅, [], []))) by (vm_compute; reflexivity).
  destruct two_end as [s|]; [|done]. injection E as E1 E2 E3 E4 E5. exists s. split_and!; try done. by rewrite E3, E4, E5.
Qed.

Definition two_dirty : DiffMetadata (gset Z) := mkDiffMetadata {[1]} ∅ 4096.

Lemma two_dirty_only i : i ≠ 1 → bm_contains (Dirty two_dirty) i = false.
Proof.
  intros Hne. apply not_true_is_false. intros [_ Hc]%andb_true_iff. apply bool_decide_eq_true in Hc.
  change (i ∈ ({[1]} : gset Z)) in Hc. by apply elem_of_singleton in Hc.
Qed.

Lemma two_end_paused : ∃ s, two_end = Some s ∧ k_pages (sk s) = {[1 := mkPage (replicate (Z.to_nat 4096) 9) false]} ∧
  clean_reachable two_pages 4096 two_src s ∧ running s ∧ paused s (Dirty two_dirty).
Proof.
  destruct two_end_runs as (s & Hs & Hpg & Hl & Hz). injection Hz as Z1 Z2 Z3.
  exists s. split; [exact Hs|]. split; [exact Hpg|]. split; [by eapply run_clean|]. split; [intros b; by rewrite Hl|].
  split; [done..|]. intros i. rewrite Hpg. destruct (decide (i = 1)) as [->|Hne]; [reflexivity|].
  rewrite lookup_singleton_ne by congruence. by apply two_dirty_only.
Qed.

Lemma Snapshot_keeps_memory_witness : ∃ s d,
  two_end = Some s ∧ UffdDiffMetadata s two_dirty = Some d ∧
  (∃ p, k_pages (sk s) !! 1 = Some p ∧ p_data p = k_mem (sk s) 1) ∧ k_mem (sk s) 0 = zeros 4096.
Proof.
  destruct two_end_paused as (s & Hs & _ & Hre & Hru & Hpa).
  assert (Hd : option_map (λ d, (bm_contains (Dirty d) 1, bm_contains (Dirty d) 0, bm_contains (Empty d) 0)) (s ← two_end; UffdDiffMetadata s two_dirty) = Some (true, false, true))
    by (vm_compute; reflexivity).
  rewrite Hs in Hd. cbn [mbind option_bind] in Hd. destruct (UffdDiffMetadata s two_dirty) as [d|] eqn:Ed; [|done].
  assert (bm_contains (Dirty d) 1 = true ∧ bm_contains (Dirty d) 0 = false ∧ bm_contains (Empty d) 0 = true) as (D1 & D2 & D3)
    by (injection Hd as D1 D2 D3; auto).
  exists s, d. split_and!; [done|done| |].
  - pose proof (Snapshot_keeps_memory two_pages 4096 two_src two_memory s two_dirty d 1 Hre Hru Hpa Ed) as Hk. rewrite D1 in Hk. exact Hk.
  - pose proof (Snapshot_keeps_memory two_pages 4096 two_src two_memory s two_dirty d 0 Hre Hru Hpa Ed) as Hk. rewrite D2, D3 in Hk. exact Hk.
Defined.

(** After the first half, a thread waits for a fault that was deferred. *)
Lemma Faults_answered_witness : ∃ s s', two_run true two_acts = Some s ∧ k_waiting (sk s) = [1] ∧
  rtc (good_step two_pages 4096 two_src) s s' ∧ k_waiting (sk s') = [] ∧ is_Some (k_pages (sk s') !! 1).
Proof.
  assert (E : option_map (λ s, (k_waiting (sk s), u_exit (sh s), u_loop (sh s), k_gone (sk s), t_phase <$> u_tasks (sh s))) (two_run true two_acts) =
    Some ([1], false, Polling, false, [Returned; Pushed])) by (vm_compute; reflexivity).
  destruct (two_run true two_acts) as [s|] eqn:Hs; [|done]. injection E as E1 E2 E3 E4 E5.
  assert (Hnf : ¬ failing s).
  { intros [[Hf|[[b Hf]|Hf]]|(t & Ht & Hf)]; [congruence..|].
    assert (Hp : t_phase t ∈ t_phase <$> u_tasks (sh s)) by (by apply list_elem_of_fmap_2).
    rewrite E5 in Hp. destruct Hf as [Hf|Hf]; rewrite Hf in Hp; apply list_elem_of_In in Hp; cbn in Hp; intuition discriminate. }
  destruct (Faults_answered two_pages 4096 two_src two_memory s (run_clean _ _ _ _ _ Hs) Hnf) as (s' & Hr & Hw & Hall).
  exists s, s'. split_and!; [done|done|done|done|]. apply Hall. left. rewrite E1. by left.
Defined.

(** The sandbox stops while a prefault is about to start, and another comes
    after the handler was closed. *)
Definition stop_acts : list act :=
  [Env (EPrefault 0 (two_src 0)); Env EStop; Code MPoll; Code MClose].
Definition late_acts : list act := [Env (EPrefault 4096 (two_src 4096)); Code (MLookup 1)].

Lemma Close_is_final_witness : ∃ s s1 s2,
  two_run true stop_acts = Some s ∧ exec two_pages 4096 two_src true late_acts s = Some s1 ∧
  code two_pages 4096 two_src (MLookup 0) s1 = Some s2 ∧ u_closed (sh s1) = true ∧ sk s2 = sk s1 ∧ u_tracker (sh s2) = u_tracker (sh s).
Proof.
  assert (E : option_map (λ s, u_closed (sh s)) (two_run true stop_acts) = Some true) by (vm_compute; reflexivity).
  assert (E1 : option_map (λ _, tt) (s ← two_run true stop_acts; s1 ← exec two_pages 4096 two_src true late_acts s;
    code two_pages 4096 two_src (MLookup 0) s1) = Some tt) by (vm_compute; reflexivity).
  destruct (two_run true stop_acts) as [s|] eqn:Hs; [|done]. injection E as E. cbn [mbind option_bind] in E1.
  destruct (exec two_pages 4096 two_src true late_acts s) as [s1|] eqn:Hs1; [|discriminate E1]. cbn [mbind option_bind] in E1.
  destruct (code two_pages 4096 two_src (MLookup 0) s1) as [s2|] eqn:Hs2; [clear E1|discriminate E1]. unfold run in Hs. destruct (start two_pages 4096 two_src) as [s0|] eqn:H0; [|discriminate Hs].
  cbn [mbind option_bind] in Hs. apply start_resumed in H0. pose proof (exec_rtc _ _ _ _ _ _ _ Hs) as R1.
  pose proof (exec_rtc _ _ _ _ _ _ _ Hs1) as R2.
  destruct (Close_is_final two_pages 4096 two_src true s0 s s1 (MLookup 0) s2 H0 R1 E R2 Hs2) as (_ & _ & Hc & Hk & Ht & _).
  exists s, s1, s2. split_and!; [reflexivity|exact Hs1|exact Hs2|exact Hc|exact Hk|exact Ht].
Defined.

(** ** Outside the discipline *)

(** A write of another thread, between the zero page of a read fault and its
    protection: the protection then hides it, and the snapshot takes the page
    for empty. *)
Definition give_back : list act :=
  [Env (ERemove (65536, 69632)); Code MPoll; Code (MReadRemove 0); Env (EZap 0); Code MApply; Code MDrain; Code MDispatch].
Definition early_write : list act := give_back ++
  [Env (EFault 65536 false); Code MPoll; Code (MReadFault 0); Code MApply; Code MDrain; Code MDispatch; Code MDispatch;
   Code (MLookup 0); Code (MInstall 0 [] (Done 4096)); Env (EWrite 0 (replicate (Z.to_nat 4096) 9));
   Code (MProtect 0 None); Code (MWake 0); Code (MOutcome 0)].

Definition no_dirty : DiffMetadata (gset Z) := mkDiffMetadata ∅ ∅ 4096.

(** Of a run: the first page, what the guest last saw there, the work left, and
    whether the snapshot takes it for empty. *)
Definition outcome_of (s : sys (B:=gset Z)) :=
  (k_pages (sk s) !! 0, k_mem (sk s) 0, (k_waiting (sk s), k_removes (sk s), k_zapping (sk s), bool_decide (k_unwritten (sk s) = ∅)),
   option_map (λ d, bm_contains (Empty d) 0) (UffdDiffMetadata s no_dirty)).

Lemma Early_write_is_lost : option_map outcome_of (two_run false early_write) =
  Some (Some (mkPage (replicate (Z.to_nat 4096) 9) true), replicate (Z.to_nat 4096) 9, ([], [], [], true), Some true).
Proof. vm_compute. reflexivity. Qed.

(** A prefault that looked at the page before the guest gave it back installs
    the page of the snapshot after the kernel discarded it; the tracker then
    says zeros of a page that reads otherwise. *)
Definition late_prefault : list act :=
  [Env (EPrefault 0 (two_src 0)); Code (MLookup 0); Env (ERemove (65536, 69632)); Code MPoll; Code (MReadRemove 0); Env (EZap 0);
   Code (MInstall 0 [] (Done 4096)); Code (MOutcome 0); Code MApply; Code MDrain; Code MDispatch].

Lemma Prefault_overtakes_remove : option_map outcome_of (two_run false late_prefault) =
  Some (Some (mkPage (replicate (Z.to_nat 4096) 7) true), zeros 4096, ([], [], [], true), Some true).
Proof. vm_compute. reflexivity. Qed.
End two_pages.
