(* ===== verification/Cache.v ===== *)
(** * Cache: the memory-mapped write layer

    Models [sandbox/block/cache.go]: a file mapped in memory with a block
    tracker.  Writes are coalesced into runs of equal state, zero runs being
    punched instead of copied.  The theorem on [WriteAt] is that the coalesced
    loop equals the block-by-block one: the bytes are those written and each
    block's state says whether it is zero.  A method runs under the lock, so
    it is one step; the mapping is the byte list [c_mmap] and a Go slice of it
    is the list of the bytes it shows at the time of the call. *)

From S2P Require Import Prelude Bytes Bitmap Blocks Tracker Export.

Inductive cache_err :=
| CacheClosedError
| BytesNotAvailableError
| MisalignedWrite
| SlicePanic.

#[global] Instance cache_err_eq_dec : EqDecision cache_err.
Proof. solve_decision. Defined.

(** [c_mmap] is [None] for the nil mapping of an empty cache. *)
Record Cache (B : Type) := mkCache {
  c_size : Z;
  c_blockSize : Z;
  c_mmap : option bytes;
  c_tracker : Tracker B;
  c_dirtyFile : bool;
  c_closed : bool
}.
Arguments mkCache {B} _ _ _ _ _ _.
Arguments c_size {B} _.
Arguments c_blockSize {B} _.
Arguments c_mmap {B} _.
Arguments c_tracker {B} _.
Arguments c_dirtyFile {B} _.
Arguments c_closed {B} _.

(** [copy(m[off:], b)] inside the bounds. *)
Definition splice (m : bytes) (off : Z) (b : bytes) : bytes :=
  slice 0 off m ++ b ++ slice (off + len b) (len m) m.

Section cache.
Context `{Bitmap B}.

(** [contents] is what the backing file holds once it is truncated to [size]. *)
Definition NewCache (size blockSize : Z) (contents : bytes) (dirtyFile : bool) : Cache B :=
  mkCache size blockSize (if size =? 0 then None else Some contents) NewTracker dirtyFile false.

Definition with_data (c : Cache B) (m : bytes) (t : Tracker B) : Cache B :=
  mkCache (c_size c) (c_blockSize c) (Some m) t (c_dirtyFile c) (c_closed c).

Definition isCached (c : Cache B) (off length : Z) : bool :=
  let start := u32 (BlockIdx off (c_blockSize c)) in
  let end_ := u32 (BlockCeilIdx (Z.min (i64 (off + length)) (c_size c)) (c_blockSize c)) in
  Present (c_tracker c) start end_.

Definition setIsCached (c : Cache B) (off length : Z) : Cache B :=
  let start := u32 (BlockIdx off (c_blockSize c)) in
  let end_ := u32 (BlockCeilIdx (i64 (off + length)) (c_blockSize c)) in
  mkCache (c_size c) (c_blockSize c) (c_mmap c) (SetRange start end_ SDirty (c_tracker c))
          (c_dirtyFile c) (c_closed c).

(** [m[off:end]], panicking when the bounds are not in order. *)
Definition mmap_slice (m : bytes) (off end_ : Z) : result cache_err bytes :=
  if (off <? 0) || (end_ <? off) || (len m <? end_) then Err SlicePanic else Ok (slice off end_ m).

Definition cSlice (c : Cache B) (off length : Z) : result cache_err bytes :=
  if c_closed c then Err CacheClosedError
  else match c_mmap c with
       | None => Ok []
       | Some m =>
           if c_dirtyFile c || isCached c off length
           then mmap_slice m off (Z.min (i64 (off + length)) (c_size c))
           else Err BytesNotAvailableError
       end.

Definition sliceDirect (c : Cache B) (off length : Z) : result cache_err bytes :=
  if c_closed c then Err CacheClosedError
  else match c_mmap c with
       | None => Ok []
       | Some m =>
           if (off <? 0) || (c_size c <=? off) then Err BytesNotAvailableError
           else mmap_slice m off (Z.min (i64 (off + length)) (c_size c))
       end.

(** The bytes copied into a buffer of [n] bytes. *)
Definition cReadAt (c : Cache B) (n off : Z) : result cache_err bytes :=
  match c_mmap c with
  | None => Ok []
  | Some _ =>
      if c_closed c then Err CacheClosedError
      else b ← cSlice c off n; Ok (take (Z.to_nat n) b)
  end.

Definition punchHole (m : bytes) (off length : Z) : bytes :=
  splice m off (replicate (Z.to_nat length) 0).

Definition flush (b : bytes) (off runStart runEnd : Z) (runZero : bool) (c : Cache B) : Cache B :=
  match c_mmap c with
  | None => c
  | Some m =>
      let startIdx := u32 (BlockIdx runStart (c_blockSize c)) in
      let endIdx := u32 (BlockCeilIdx runEnd (c_blockSize c)) in
      if runZero then
        with_data c (punchHole m runStart (runEnd - runStart))
          (SetRange startIdx endIdx SZero (c_tracker c))
      else
        with_data c (splice m runStart (slice (runStart - off) (runEnd - off) b))
          (SetRange startIdx endIdx SDirty (c_tracker c))
  end.

(** The loop of [WriteAtWithoutLock] from [i] on; a block per unit of fuel. *)
Fixpoint write_loop (fuel : nat) (b : bytes) (off end_ i runStart : Z) (runZero : bool) (c : Cache B)
    : Cache B :=
  match fuel with
  | O => c
  | S fuel =>
      if i <? end_ then
        let z := IsZero (slice (i - off) (i - off + c_blockSize c) b) in
        if eqb z runZero then write_loop fuel b off end_ (i + c_blockSize c) runStart runZero c
        else write_loop fuel b off end_ (i + c_blockSize c) i z (flush b off runStart i runZero c)
      else flush b off runStart end_ runZero c
  end.

Definition WriteAtWithoutLock (c : Cache B) (b : bytes) (off : Z) : result cache_err (Cache B * Z) :=
  if c_closed c then Err CacheClosedError
  else match c_mmap c with
       | None => Ok (c, 0)
       | Some m =>
           if negb (Z.rem (len b) (c_blockSize c) =? 0) || negb (Z.rem off (c_blockSize c) =? 0)
           then Err MisalignedWrite
           else
             let end_ := Z.min (i64 (off + len b)) (c_size c) in
             if end_ <=? off then Ok (c, 0)
             else if off <? 0 then Err SlicePanic
             else
               Ok (write_loop (S (length b)) b off end_ (off + c_blockSize c) off
                     (IsZero (slice 0 (c_blockSize c) b)) c, end_ - off)
       end.

Definition cWriteAt (c : Cache B) (b : bytes) (off : Z) : result cache_err (Cache B * Z) :=
  match c_mmap c with
  | None => Ok (c, 0)
  | Some _ => if c_closed c then Err CacheClosedError else WriteAtWithoutLock c b off
  end.

Definition WriteZeroesAt (c : Cache B) (off length : Z) : result cache_err (Cache B * Z) :=
  match c_mmap c with
  | None => Ok (c, 0)
  | Some m =>
      if c_closed c then Err CacheClosedError
      else
        let end_ := Z.min (i64 (off + length)) (c_size c) in
        if end_ <=? off then Ok (c, 0)
        else if off <? 0 then Err SlicePanic
        else
          let startIdx := u32 (BlockIdx off (c_blockSize c)) in
          let endIdx := u32 (BlockCeilIdx end_ (c_blockSize c)) in
          Ok (with_data c (punchHole m off (end_ - off))
                (SetRange startIdx endIdx SZero (c_tracker c)), end_ - off)
  end.

Definition cClose (c : Cache B) : result cache_err (Cache B) :=
  match c_mmap c with
  | None => Ok c
  | Some _ =>
      if c_closed c then Err CacheClosedError
      else Ok (mkCache (c_size c) (c_blockSize c) (c_mmap c) (c_tracker c) (c_dirtyFile c) true)
  end.

Definition cSize (c : Cache B) : result cache_err Z :=
  if c_closed c then Err CacheClosedError else Ok (c_size c).

(** ** Well-formed open caches *)

Record cache_ok (c : Cache B) (m : bytes) : Prop := {
  co_mmap : c_mmap c = Some m;
  co_len : len m = c_size c;
  co_bs : 0 < c_blockSize c < 2 ^ 31;
  co_size : 0 < c_size c;
  co_idx : c_size c <= c_blockSize c * (2 ^ 32 - 1);
  co_open : c_closed c = false;
  co_disjoint : disjoint_states (c_tracker c);
  co_inside i : Get (c_tracker c) i ≠ NotPresent → 0 <= i ∧ i * c_blockSize c < c_size c;
  co_zero x : 0 <= x < c_size c → Get (c_tracker c) (x / c_blockSize c) = SZero → at_ m x = Some 0
}.
End cache.

(** ** Bytes and block indices *)

(** The number of the block that covers [x]. *)
Lemma block_of x bs : 0 < bs → x / bs * bs <= x < x / bs * bs + bs.
Proof. intros. pose proof (Z.div_mod x bs ltac:(lia)). pose proof (Z.mod_pos_bound x bs ltac:(lia)). nia. Qed.

Lemma block_start_le bs y x : 0 < bs → y mod bs = 0 → y <= x / bs * bs ↔ y <= x.
Proof.
  intros Hbs Hy. pose proof (block_of x bs Hbs). pose proof (Z.div_mod y bs ltac:(lia)).
  split; intros; [lia|]. assert (y / bs <= x / bs) by (apply Z.div_le_mono; lia). nia.
Qed.

Lemma len_splice m off b :
  0 <= off → off + len b <= len m → len (splice m off b) = len m.
Proof.
  intros. unfold splice. pose proof (len_nonneg b).
  rewrite !len_app, !len_slice by lia. lia.
Qed.

Lemma at_splice m off b x :
  0 <= off → off + len b <= len m →
  at_ (splice m off b) x = if (off <=? x) && (x <? off + len b) then at_ b (x - off) else at_ m x.
Proof.
  intros Ho Hb. pose proof (len_nonneg b). unfold splice.
  destruct (Z.ltb_spec x 0) as [Hx|Hx].
  { unfold at_. destruct (Z.ltb_spec x 0); [|lia]. destruct (Z.leb_spec off x); [lia|done]. }
  rewrite at_app by lia. rewrite len_slice by lia.
  destruct (Z.ltb_spec x (off - 0)), (Z.leb_spec off x); try lia; cbn [andb].
  - rewrite at_slice by lia. f_equal. 
  - rewrite at_app by lia. replace (x - (off - 0)) with (x - off) by lia.
    destruct (Z.ltb_spec (x - off) (len b)), (Z.ltb_spec x (off + len b)); try lia; [done|].
    destruct (Z.lt_ge_cases x (len m)).
    + rewrite at_slice by lia. f_equal. lia.
    + assert (Hno : ∀ (l : bytes) i, len l <= i → at_ l i = None).
      { intros l i Hi. destruct (at_ l i) eqn:E; [apply at_Some in E; lia|done]. }
      rewrite !Hno; [done|lia|rewrite len_slice; lia].
Qed.

Lemma at_replicate n (v : Z) x : at_ (replicate n v) x = if (0 <=? x) && (x <? Z.of_nat n) then Some v else None.
Proof.
  unfold at_. destruct (Z.ltb_spec x 0), (Z.leb_spec 0 x); try lia; cbn [andb]; [done|].
  destruct (Z.ltb_spec x (Z.of_nat n)); [apply lookup_replicate_2; lia|].
  apply lookup_replicate_None. lia.
Qed.

Lemma len_replicate n (v : Z) : len (replicate n v) = Z.of_nat n.
Proof. unfold len. by rewrite length_replicate. Qed.

Lemma block_index_val bs size p :
  0 < bs < 2 ^ 31 → size <= bs * (2 ^ 32 - 1) → 0 <= p <= size →
  u32 (BlockIdx p bs) = p / bs ∧ is_u32 (p / bs).
Proof.
  intros Hbs Hsz Hp. rewrite BlockIdx_div by lia.
  assert (is_u32 (p / bs)) as Hu; [|by rewrite u32_id].
  split; [apply Z.div_pos; lia|apply Z.div_lt_upper_bound; nia].
Qed.

Lemma block_ceil_val bs size p :
  0 < bs < 2 ^ 31 → size <= bs * (2 ^ 32 - 1) → 0 <= p <= size →
  u32 (BlockCeilIdx p bs) = (p + bs - 1) / bs ∧ is_u32 ((p + bs - 1) / bs) ∧
  ∀ i, i < (p + bs - 1) / bs ↔ i * bs < p.
Proof.
  intros Hbs Hsz Hp. rewrite BlockCeilIdx_div by nia.
  pose proof (Z.div_mod (p + bs - 1) bs ltac:(lia)).
  pose proof (Z.mod_pos_bound (p + bs - 1) bs ltac:(lia)).
  assert (is_u32 ((p + bs - 1) / bs)) as Hu.
  { split; [apply Z.div_pos; lia|apply Z.div_lt_upper_bound; nia]. }
  split; [by rewrite u32_id|]. split; [done|]. intros i. split; intros; nia.
Qed.

(** Setting the state of the blocks of [rs, re) and the bytes under them keeps
    a cache well-formed, if no block is cut. *)
Lemma mark_ok `{Bitmap B} (c : Cache B) m m' rs re st :
  cache_ok c m → rs mod c_blockSize c = 0 → 0 <= rs < re → re <= c_size c →
  re mod c_blockSize c = 0 ∨ re = c_size c → st ≠ NotPresent →
  len m' = len m → (∀ x, ¬ rs <= x < re → at_ m' x = at_ m x) →
  (st = SZero → ∀ x, rs <= x < re → at_ m' x = Some 0) →
  cache_ok (with_data c m' (SetRange (rs / c_blockSize c) ((re + c_blockSize c - 1) / c_blockSize c) st
    (c_tracker c))) m'.
Proof.
  intros Hc Hm Hrs Hre Hcut Hst Hl Hout Hz. pose proof (co_bs _ _ Hc) as Hbs.
  destruct (block_index_val (c_blockSize c) (c_size c) rs) as [_ Hu1]; [done|apply Hc|lia|].
  destruct (block_ceil_val (c_blockSize c) (c_size c) re) as (_ & Hu2 & Hlt); [done|apply Hc|lia|].
  assert (Hrange : ∀ i, in_range i (rs / c_blockSize c, (re + c_blockSize c - 1) / c_blockSize c) =
    (rs <=? i * c_blockSize c) && (i * c_blockSize c <? re)).
  { intros i. unfold in_range. cbn [fst snd]. specialize (Hlt i). pose proof (Z.div_mod rs (c_blockSize c) ltac:(lia)).
    destruct (Z.leb_spec (rs / c_blockSize c) i), (Z.leb_spec rs (i * c_blockSize c)),
      (Z.ltb_spec i ((re + c_blockSize c - 1) / c_blockSize c)), (Z.ltb_spec (i * c_blockSize c) re);
      cbn; done || nia || naive_solver lia. }
  split; cbn [with_data c_mmap c_size c_blockSize c_tracker c_closed]; try apply Hc; [done| | | |].
  - rewrite Hl. apply Hc.
  - by apply SetRange_disjoint; [..|apply Hc].
  - intros i. rewrite Get_SetRange, Hrange by done.
    destruct (Z.leb_spec rs (i * c_blockSize c)), (Z.ltb_spec (i * c_blockSize c) re); cbn [andb];
      try apply Hc. intros _. nia.
  - intros x Hx. rewrite Get_SetRange, Hrange by done. pose proof (block_of x (c_blockSize c) ltac:(lia)).
    pose proof (block_start_le (c_blockSize c) rs x ltac:(lia) Hm).
    assert (x / c_blockSize c * c_blockSize c < re ↔ x < re) as Hre'.
    { destruct Hcut as [Hcut| ->]; [|lia].
      pose proof (block_start_le (c_blockSize c) re x ltac:(lia) Hcut). lia. }
    destruct (Z.leb_spec rs (x / c_blockSize c * c_blockSize c)), (Z.ltb_spec (x / c_blockSize c * c_blockSize c) re);
      cbn [andb]; first [intros ->; apply Hz; [done|lia] | rewrite Hout by lia; by apply Hc].
Qed.

(** ** [WriteAt] *)

Section write.
Context `{Bitmap B} (c0 : Cache B) (m0 : bytes) (b : bytes) (off : Z).
Hypothesis Hok : cache_ok c0 m0.
Let bs := c_blockSize c0.
Hypothesis Hoff : 0 <= off.
Hypothesis Hal : off mod bs = 0.

(** The block of the written bytes that lands on block [idx]. *)
Definition wblock (idx : Z) : bytes := slice (idx * bs - off) (idx * bs - off + bs) b.
Definition wstate (idx : Z) : State := if IsZero (wblock idx) then SZero else SDirty.

(** Everything up to [p] written, nothing else changed. *)
Record written (p : Z) (c : Cache B) (m : bytes) : Prop := {
  wr_ok : cache_ok c m;
  wr_bs : c_blockSize c = bs;
  wr_size : c_size c = c_size c0;
  wr_file : c_dirtyFile c = c_dirtyFile c0;
  wr_data x : at_ m x = if (off <=? x) && (x <? p) then at_ b (x - off) else at_ m0 x;
  wr_state i : Get (c_tracker c) i =
    if (off <=? i * bs) && (i * bs <? p) then wstate i else Get (c_tracker c0) i
}.

Lemma written_start : written off c0 m0.
Proof using Hok.
  split; try done.
  - intros x. destruct (Z.leb_spec off x), (Z.ltb_spec x off); try lia; done.
  - intros i. destruct (Z.leb_spec off (i * bs)), (Z.ltb_spec (i * bs) off); try lia; done.
Qed.

Lemma block_div p i : p mod bs = 0 → 0 <= p → (p / bs <= i ↔ p <= i * bs).
Proof using Hok.
  intros Hm Hp. destruct (co_bs _ _ Hok) as [Hbs _]. fold bs in Hbs.
  pose proof (Z.div_mod p bs ltac:(lia)). split; intros; nia.
Qed.

(** The zero bytes of zero blocks. *)
Lemma wblock_zero idx x :
  0 <= idx * bs - off → idx * bs - off + bs <= len b →
  IsZero (wblock idx) = true → idx * bs <= x < idx * bs + bs → at_ b (x - off) = Some 0.
Proof using Hok.
  intros H0 Hl Hz Hx. destruct (co_bs _ _ Hok) as [Hbs _]. fold bs in Hbs.
  apply IsZero_spec in Hz.
  destruct (at_is_Some b (x - off)) as [y Hy]; [lia|]. rewrite Hy. f_equal.
  assert (Hw : at_ (wblock idx) (x - idx * bs) = Some y).
  { unfold wblock. rewrite at_slice by lia. rewrite <- Hy. f_equal. lia. }
  unfold at_ in Hw. destruct (_ <? 0); [done|]. exact (Forall_lookup_1 _ _ _ _ Hz Hw).
Qed.

(** The range of blocks a run touches, as the tracker sees it. *)
Lemma run_range rs re i :
  rs mod bs = 0 → 0 <= rs → rs <= re → re <= c_size c0 →
  in_range i (rs / bs, (re + bs - 1) / bs) = (rs <=? i * bs) && (i * bs <? re).
Proof using Hok.
  intros Hm Hrs Hre Hsz. pose proof (co_bs _ _ Hok) as Hbs. fold bs in Hbs.
  destruct (block_ceil_val bs (c_size c0) re) as (_ & _ & Hc); [done|apply Hok|lia|].
  specialize (Hc i). pose proof (block_div rs i Hm Hrs). unfold in_range. cbn [fst snd].
  destruct (Z.leb_spec (rs / bs) i), (Z.leb_spec rs (i * bs)), (Z.ltb_spec i ((re + bs - 1) / bs)),
    (Z.ltb_spec (i * bs) re); cbn; done || naive_solver lia.
Qed.

Lemma flush_written rs re z c m :
  written rs c m → off <= rs → rs mod bs = 0 → rs < re → re <= c_size c0 → re - off <= len b →
  re mod bs = 0 ∨ re = c_size c0 →
  (∀ i, rs <= i * bs < re → IsZero (wblock i) = z) →
  (z = true → ∀ x, rs <= x < re → at_ b (x - off) = Some 0) →
  ∃ m', written re (flush b off rs re z c) m'.
Proof using Hok Hoff.
  intros Hw Hrs Hm Hre Hsz Hlen Hcut Hst Hzero. destruct (id Hw) as [Hc Hb Hs Hf Hd Hg].
  pose proof (co_bs _ _ Hok) as Hbs. fold bs in Hbs.
  pose proof (co_len _ _ Hc) as Hml. rewrite Hs in Hml.
  unfold flush. rewrite (co_mmap _ _ Hc), Hb.
  destruct (block_index_val bs (c_size c0) rs) as [-> Hu1]; [done|apply Hok|lia|].
  destruct (block_ceil_val bs (c_size c0) re) as (-> & Hu2 & _); [done|apply Hok|lia|].
  assert (Hnew : ∀ i st, st = (if z then SZero else SDirty) →
    Get (SetRange (rs / bs) ((re + bs - 1) / bs) st (c_tracker c)) i =
    if (off <=? i * bs) && (i * bs <? re) then wstate i else Get (c_tracker c0) i).
  { intros i st ->. rewrite Get_SetRange by done. rewrite run_range, Hg by (done || lia).
    pose proof (Hst i) as Hi. unfold wstate.
    destruct (Z.leb_spec rs (i * bs)), (Z.ltb_spec (i * bs) re), (Z.leb_spec off (i * bs)),
      (Z.ltb_spec (i * bs) rs); cbn; try lia; try done. by rewrite Hi by lia. }
  assert (Hbytes : ∀ w, len w = re - rs → (∀ x, rs <= x < re → at_ w (x - rs) = at_ b (x - off)) →
    ∀ x, at_ (splice m rs w) x = if (off <=? x) && (x <? re) then at_ b (x - off) else at_ m0 x).
  { intros w Hlw Hw' x. rewrite at_splice, Hlw, Hd by lia. specialize (Hw' x).
    destruct (Z.leb_spec rs x), (Z.ltb_spec x (rs + (re - rs))), (Z.leb_spec off x),
      (Z.ltb_spec x rs), (Z.ltb_spec x re); cbn [andb]; try lia; try done; apply Hw'; lia. }
  assert (Hdone : ∀ w st, len w = re - rs → (∀ x, rs <= x < re → at_ w (x - rs) = at_ b (x - off)) →
    st = (if z then SZero else SDirty) →
    written re (with_data c (splice m rs w) (SetRange (rs / bs) ((re + bs - 1) / bs) st (c_tracker c)))
      (splice m rs w)).
  { intros w st Hlw Hw' Est. split; try done; [|by apply Hbytes|intros i; by apply Hnew].
    rewrite <- Hb. apply (mark_ok c m); rewrite ?Hb, ?Hs; try done; try lia.
    - subst st. by destruct z.
    - apply len_splice; lia.
    - intros x Hx. rewrite at_splice by lia. destruct (Z.leb_spec rs x), (Z.ltb_spec x (rs + len w)); done || lia.
    - intros -> x Hx. rewrite Hbytes by done. destruct (Z.leb_spec off x), (Z.ltb_spec x re); try lia.
      apply Hzero; [by destruct z|done]. }
  destruct z; eexists; apply Hdone; try done.
  - rewrite len_replicate. lia.
  - intros x Hx. rewrite at_replicate, Hzero by done || lia.
    destruct (Z.leb_spec 0 (x - rs)), (Z.ltb_spec (x - rs) (Z.of_nat (Z.to_nat (re - rs)))); done || lia.
  - rewrite len_slice; lia.
  - intros x Hx. rewrite at_slice by lia. f_equal. lia.
Qed.

Hypothesis Hlen : len b mod bs = 0.
Let stop := Z.min (off + len b) (c_size c0).

(** Whole blocks: a block that starts inside the write ends inside it. *)
Lemma block_inside i : i mod bs = 0 → off <= i → i < stop → i - off + bs <= len b.
Proof using Hok Hal Hlen.
  intros Hm Hi Hs. destruct (co_bs _ _ Hok) as [Hbs _]. fold bs in Hbs.
  pose proof (Z.div_mod i bs ltac:(lia)). pose proof (Z.div_mod off bs ltac:(lia)).
  pose proof (Z.div_mod (len b) bs ltac:(lia)).
  assert (i < off + len b) by (unfold stop in Hs; lia).
  assert (i / bs - off / bs + 1 <= len b / bs) by nia. nia.
Qed.

Lemma wblock_slice i : i mod bs = 0 → slice (i - off) (i - off + bs) b = wblock (i / bs).
Proof using Hok.
  intros Hm. destruct (co_bs _ _ Hok) as [Hbs _]. fold bs in Hbs.
  pose proof (Z.div_mod i bs ltac:(lia)). unfold wblock.
  replace (i / bs * bs) with i by nia. done.
Qed.

(** A run of zero blocks holds zero bytes only. *)
Lemma run_zero rs re z x :
  rs mod bs = 0 → off <= rs → re <= stop →
  (∀ i, rs <= i * bs < re → IsZero (wblock i) = z) → z = true →
  rs <= x < re → at_ b (x - off) = Some 0.
Proof using Hok Hal Hlen.
  intros Hm Hrs Hre Hst -> Hx. pose proof (co_bs _ _ Hok) as Hbs. fold bs in Hbs.
  pose proof (Z.div_mod rs bs ltac:(lia)). pose proof (Z.div_mod x bs ltac:(lia)).
  pose proof (Z.mod_pos_bound x bs ltac:(lia)).
  assert (rs / bs <= x / bs) by (apply Z.div_le_mono; lia).
  assert (Hin : rs <= x / bs * bs < re) by nia.
  apply (wblock_zero (x / bs)); [lia| |by apply Hst|lia].
  apply (block_inside (x / bs * bs)); [by rewrite Z.mod_mul by lia|lia|lia].
Qed.

(** The loop leaves everything up to [stop] written; [fuel] blocks are enough
    as every iteration passes one block. *)
Lemma write_loop_written fuel i rs z c m :
  written rs c m → off <= rs → rs mod bs = 0 → i mod bs = 0 → rs < i → rs < stop →
  (∀ k, rs <= k * bs < i → IsZero (wblock k) = z) →
  stop - i <= (Z.of_nat fuel - 1) * bs → (0 < fuel)%nat →
  ∃ m', written stop (write_loop fuel b off stop i rs z c) m'.
Proof using Hok Hal Hlen Hoff.
  pose proof (co_bs _ _ Hok) as Hbs. fold bs in Hbs.
  revert i rs z c m. induction fuel as [|fuel IH]; intros i rs z c m Hw Hrs Hmr Hmi Hri Hrst Hst Hf Hf0; [lia|].
  assert (Hnext : (i + bs) mod bs = 0).
  { rewrite <- Z.add_mod_idemp_r, Z.mod_same, Z.add_0_r by lia. done. }
  assert (Hk : ∀ k, i <= k * bs < i + bs → k = i / bs).
  { intros k Hk. pose proof (Z.div_mod i bs ltac:(lia)). nia. }
  cbn [write_loop]. rewrite (wr_bs _ _ _ Hw), wblock_slice by done.
  destruct (Z.ltb_spec i stop) as [Hi|Hi].
  - assert (Hfuel : (0 < fuel)%nat) by (destruct fuel; lia).
    destruct (eqb _ z) eqn:Ez.
    + apply eqb_prop in Ez. apply (IH _ _ _ _ m); try done; try lia.
      intros k Hk'. destruct (Z.lt_ge_cases (k * bs) i); [apply Hst; lia|]. by rewrite (Hk k) by lia.
    + destruct (flush_written rs i z c m) as [m' Hw']; try done; try (unfold stop in Hi; lia).
      { intros Hz x Hx. apply (run_zero rs i z); try done. lia. }
      apply (IH _ _ _ _ m'); try done; try lia.
      intros k Hk'. by rewrite (Hk k) by lia.
  - apply (flush_written rs stop z c m); try done; try (unfold stop; lia).
    { unfold stop. destruct (Z.min_spec (off + len b) (c_size c0)) as [[_ ->]|[_ ->]]; [left|by right].
      by rewrite Z.add_mod, Hal, Hlen by lia. }
    { intros k Hk'. apply Hst. lia. }
    intros Hz x Hx. apply (run_zero rs stop z); try done. intros k Hk'. apply Hst. lia.
Qed.
End write.

Section write_at.
Context `{Bitmap B}.

Lemma WriteAt_spec (c : Cache B) m b off :
  cache_ok c m → 0 <= off < c_size c → off mod c_blockSize c = 0 →
  0 < len b → len b mod c_blockSize c = 0 → is_i64 (off + len b) →
  let stop := Z.min (off + len b) (c_size c) in
  ∃ c' m', cWriteAt c b off = Ok (c', stop - off) ∧ written c m b off stop c' m'.
Proof.
  intros Hok Hoff Hal Hb Hlen Hi stop. pose proof (co_bs _ _ Hok) as Hbs.
  unfold cWriteAt, WriteAtWithoutLock. rewrite (co_mmap _ _ Hok), (co_open _ _ Hok).
  rewrite !Z.rem_mod_nonneg by lia. rewrite Hal, Hlen. cbn [negb orb Z.eqb]. unwrap.
  fold stop. destruct (Z.leb_spec stop off); [unfold stop in *; lia|].
  destruct (Z.ltb_spec off 0); [lia|].
  destruct (write_loop_written c m b off Hok (proj1 Hoff) Hal Hlen
    (S (length b)) (off + c_blockSize c) off (IsZero (slice 0 (c_blockSize c) b)) c m) as [m' Hw].
  - by apply written_start.
  - lia.
  - done.
  - rewrite <- Z.add_mod_idemp_r, Z.mod_same, Z.add_0_r by lia. done.
  - lia.
  - fold stop. lia.
  - intros k Hk. replace k with (off / c_blockSize c).
    + rewrite <- (wblock_slice c m b off Hok off Hal). by rewrite Z.sub_diag.
    + pose proof (Z.div_mod off (c_blockSize c) ltac:(lia)). nia.
  - fold stop. unfold stop. rewrite <- len_to_nat. nia.
  - lia.
  - exists (write_loop (S (length b)) b off stop (off + c_blockSize c) off
      (IsZero (slice 0 (c_blockSize c) b)) c), m'. done.
Qed.
End write_at.

(** ** Reading *)

Lemma at_ext (l k : bytes) : (∀ x, at_ l x = at_ k x) → l = k.
Proof. intros E. apply list_eq. intros i. specialize (E (Z.of_nat i)). by rewrite !at_of_nat in E. Qed.

Section read_at.
Context `{Bitmap B}.

(** Every block of [off, end) is observed. *)
Definition present_on (c : Cache B) (off end_ : Z) : Prop :=
  ∀ i, off / c_blockSize c <= i → i * c_blockSize c < end_ → Get (c_tracker c) i ≠ NotPresent.

Lemma isCached_spec c m off n :
  cache_ok c m → 0 <= off <= c_size c → 0 <= n → is_i64 (off + n) →
  isCached c off n = true ↔ present_on c off (Z.min (off + n) (c_size c)).
Proof.
  intros Hok Hoff Hn Hi. pose proof (co_bs _ _ Hok) as Hbs. unfold isCached. unwrap.
  set (stop := Z.min (off + n) (c_size c)).
  destruct (block_index_val (c_blockSize c) (c_size c) off) as [-> Hu1]; [done|apply Hok|lia|].
  destruct (block_ceil_val (c_blockSize c) (c_size c) stop) as (-> & Hu2 & Hc); [done|apply Hok|lia|].
  pose proof (block_of off (c_blockSize c) ltac:(lia)).
  assert (off / c_blockSize c <= (stop + c_blockSize c - 1) / c_blockSize c).
  { apply Z.div_le_mono; lia. }
  rewrite Present_spec by (done || apply Hok). unfold present_on.
  split; intros Hp i; [intros ? Hs; apply Hp; split; [lia|by apply Hc]|intros [? Hs]; apply Hp; [lia|by apply Hc]].
Qed.

Lemma cSlice_spec c m off n :
  cache_ok c m → 0 <= off <= c_size c → 0 <= n → is_i64 (off + n) →
  let stop := Z.min (off + n) (c_size c) in
  (c_dirtyFile c = true ∨ present_on c off stop → cSlice c off n = Ok (slice off stop m)) ∧
  (c_dirtyFile c = false → ¬ present_on c off stop → cSlice c off n = Err BytesNotAvailableError).
Proof.
  intros Hok Hoff Hn Hi stop. pose proof (isCached_spec c m off n Hok Hoff Hn Hi) as Hcached.
  unfold cSlice. rewrite (co_open _ _ Hok), (co_mmap _ _ Hok). fold stop in Hcached. split.
  - intros Hp. assert (c_dirtyFile c || isCached c off n = true) as ->.
    { destruct Hp as [->|Hp]; [done|]. rewrite (proj2 Hcached Hp). by rewrite orb_true_r. }
    unfold mmap_slice. unwrap. fold stop. rewrite (co_len _ _ Hok).
    destruct (Z.ltb_spec off 0), (Z.ltb_spec stop off), (Z.ltb_spec (c_size c) stop); done || lia.
  - intros -> Hp. destruct (isCached c off n); [by destruct Hp; apply Hcached|done].
Qed.

Lemma cReadAt_spec c m off n :
  cache_ok c m → 0 <= off <= c_size c → 0 <= n → is_i64 (off + n) →
  let stop := Z.min (off + n) (c_size c) in
  (c_dirtyFile c = true ∨ present_on c off stop → cReadAt c n off = Ok (slice off stop m)) ∧
  (c_dirtyFile c = false → ¬ present_on c off stop → cReadAt c n off = Err BytesNotAvailableError).
Proof.
  intros Hok Hoff Hn Hi stop. destruct (cSlice_spec c m off n Hok Hoff Hn Hi) as [H1 H2]. fold stop in H1, H2.
  unfold cReadAt. rewrite (co_mmap _ _ Hok), (co_open _ _ Hok).
  split; [intros Hp; rewrite H1 by done|intros Hd Hp; rewrite H2 by done; done].
  cbn. f_equal. apply take_ge. pose proof (co_len _ _ Hok).
  assert (off <= stop <= c_size c ∧ stop <= off + n) as (? & ?) by (unfold stop; lia).
  pose proof (len_slice m off stop ltac:(lia) ltac:(lia) ltac:(lia)) as Hl. unfold len in Hl. lia.
Qed.

(** Zeroing: the bytes and the states of the touched blocks. *)
Lemma WriteZeroesAt_spec c m off n :
  cache_ok c m → 0 <= off < c_size c → off mod c_blockSize c = 0 → 0 < n → n mod c_blockSize c = 0 →
  is_i64 (off + n) →
  let stop := Z.min (off + n) (c_size c) in
  ∃ c' m', WriteZeroesAt c off n = Ok (c', stop - off) ∧
    cache_ok c' m' ∧ c_size c' = c_size c ∧ c_blockSize c' = c_blockSize c ∧
    c_dirtyFile c' = c_dirtyFile c ∧ m' = splice m off (replicate (Z.to_nat (stop - off)) 0) ∧
    ∀ i, Get (c_tracker c') i =
      if (off <=? i * c_blockSize c) && (i * c_blockSize c <? stop) then SZero else Get (c_tracker c) i.
Proof.
  intros Hok Hoff Hal Hn Hnm Hi stop. pose proof (co_bs _ _ Hok) as Hbs. pose proof (co_len _ _ Hok).
  unfold WriteZeroesAt. rewrite (co_mmap _ _ Hok), (co_open _ _ Hok). unwrap. fold stop.
  destruct (Z.leb_spec stop off); [lia|]. destruct (Z.ltb_spec off 0); [lia|].
  destruct (block_index_val (c_blockSize c) (c_size c) off) as [-> Hu1]; [done|apply Hok|lia|].
  destruct (block_ceil_val (c_blockSize c) (c_size c) stop) as (-> & Hu2 & _); [done|apply Hok|lia|].
  do 2 eexists. split; [done|]. split_and!; try done.
  - assert (Hl : off + len (replicate (Z.to_nat (stop - off)) 0) = stop) by (rewrite len_replicate; lia).
    unfold punchHole. apply (mark_ok c m); try done; try lia.
    + unfold stop. destruct (Z.min_spec (off + n) (c_size c)) as [[_ ->]|[_ ->]]; [left|by right].
      by rewrite Z.add_mod, Hal, Hnm by lia.
    + apply len_splice; lia.
    + intros x Hx. rewrite at_splice, Hl by lia.
      destruct (Z.leb_spec off x), (Z.ltb_spec x stop); done || lia.
    + intros _ x Hx. rewrite at_splice, Hl by lia.
      destruct (Z.leb_spec off x), (Z.ltb_spec x stop); try lia. cbn [andb]. rewrite at_replicate.
      destruct (Z.leb_spec 0 (x - off)), (Z.ltb_spec (x - off) (Z.of_nat (Z.to_nat (stop - off)))); done || lia.
  - intros i. cbn [with_data c_tracker]. rewrite Get_SetRange by done. rewrite (run_range c m Hok) by (done || lia). done.
Qed.
End read_at.

(** ** Properties *)

(** A block-aligned [WriteAt] on an open cache succeeds and equals the
    block-by-block writer, whatever runs it coalesces: the bytes are the ones
    given, cut at the end of the device; a written block is [SZero] exactly
    when its bytes are all zero and [SDirty] otherwise; every other byte and
    every other block's state is unchanged, and the cache stays well-formed. *)
Theorem WriteAt_blocks `{Bitmap B} (c : Cache B) m b off :
  cache_ok c m → 0 <= off < c_size c → off mod c_blockSize c = 0 →
  0 < len b → len b mod c_blockSize c = 0 → is_i64 (off + len b) →
  let bs := c_blockSize c in
  let stop := Z.min (off + len b) (c_size c) in
  ∃ c' m', cWriteAt c b off = Ok (c', stop - off) ∧ cache_ok c' m' ∧
    m' = splice m off (slice 0 (stop - off) b) ∧
    ∀ i, Get (c_tracker c') i =
      if (off <=? i * bs) && (i * bs <? stop)
      then if IsZero (slice (i * bs - off) (i * bs - off + bs) b) then SZero else SDirty
      else Get (c_tracker c) i.
Proof.
  intros Hok Hoff Hal Hb Hlen Hi bs stop.
  destruct (WriteAt_spec c m b off Hok Hoff Hal Hb Hlen Hi) as (c' & m' & E & Hw). fold stop in E, Hw.
  exists c', m'. destruct Hw as [Hok' _ _ _ Hd Hg]. split_and!; [done|done| |done].
  apply at_ext. intros x. rewrite Hd. pose proof (co_len _ _ Hok).
  rewrite at_splice by (rewrite ?len_slice; lia). rewrite len_slice by lia.
  destruct (Z.leb_spec off x), (Z.ltb_spec x stop), (Z.ltb_spec x (off + (stop - off - 0)));
    cbn [andb]; try lia; try done.
  rewrite at_slice by lia. f_equal; lia.
Qed.

Definition example_cache : Cache (gset Z) := NewCache 6 2 (replicate 6 7) false.

Lemma NewCache_ok size bs m :
  0 < bs < 2 ^ 31 → 0 < size <= bs * (2 ^ 32 - 1) → len m = size →
  cache_ok (NewCache (B:=gset Z) size bs m false) m.
Proof.
  intros Hbs Hs Hm. split; cbn; try done; try lia.
  - destruct (Z.eqb_spec size 0); [lia|done].
  - apply NewTracker_disjoint.
  - intros i. by rewrite Get_New.
  - intros x _. by rewrite Get_New.
Qed.

Lemma example_cache_ok : cache_ok example_cache (replicate 6 7).
Proof. apply NewCache_ok; [lia|lia|done]. Qed.

Lemma WriteAt_blocks_witness :
  ∃ c' m', cWriteAt example_cache [0; 0; 5; 0] 2 = Ok (c', 4) ∧ m' = [7; 7; 0; 0; 5; 0] ∧
    cache_ok c' m' ∧ (Get (c_tracker c') 0, Get (c_tracker c') 1, Get (c_tracker c') 2) =
      (NotPresent, SZero, SDirty).
Proof.
  destruct (WriteAt_blocks example_cache (replicate 6 7) [0; 0; 5; 0] 2) as (c' & m' & E & Hok & Hm & Hg).
  - exact example_cache_ok.
  - cbn. lia.
  - reflexivity.
  - reflexivity.
  - reflexivity.
  - split; vm_compute; congruence.
  - exists c', m'. split_and!; [exact E|by rewrite Hm|exact Hok|]. rewrite !Hg. reflexivity.
Defined.

(** Outside the contract [WriteAt] changes nothing: a misaligned buffer or
    offset and a closed cache are errors, a write that starts at or after the
    end of the device or holds no byte writes none. *)
Theorem WriteAt_rejects `{Bitmap B} (c : Cache B) m b off :
  c_mmap c = Some m → 0 < c_blockSize c → 0 <= off → is_i64 (off + len b) →
  (c_closed c = true → cWriteAt c b off = Err CacheClosedError) ∧
  (c_closed c = false →
     (len b mod c_blockSize c ≠ 0 ∨ off mod c_blockSize c ≠ 0 → cWriteAt c b off = Err MisalignedWrite) ∧
     (len b mod c_blockSize c = 0 → off mod c_blockSize c = 0 →
        c_size c <= off ∨ b = [] → cWriteAt c b off = Ok (c, 0))).
Proof.
  intros Hm Hbs Hoff Hi. pose proof (len_nonneg b). unfold cWriteAt, WriteAtWithoutLock. rewrite Hm.
  split; [intros ->; done|]. intros ->. rewrite !Z.rem_mod_nonneg by lia. split.
  - intros [Hne|Hne]; apply Z.eqb_neq in Hne; rewrite Hne; [done|by rewrite orb_true_r].
  - intros -> -> Hc. cbn [negb orb Z.eqb]. unwrap.
    destruct (Z.leb_spec (Z.min (off + len b) (c_size c)) off); [done|].
    destruct Hc as [Hc| ->]; [lia|]. rewrite len_nil in *. lia.
Qed.

Lemma WriteAt_rejects_witness :
  cWriteAt example_cache [0; 0; 5] 2 = Err MisalignedWrite ∧ cWriteAt example_cache [1; 1] 8 = Ok (example_cache, 0).
Proof.
  split.
  - refine (proj1 (proj2 (WriteAt_rejects example_cache (replicate 6 7) [0; 0; 5] 2 _ _ _ _) _) _);
      try reflexivity; try (split; vm_compute; congruence); [vm_compute; congruence|left; vm_compute; congruence].
  - refine (proj2 (proj2 (WriteAt_rejects example_cache (replicate 6 7) [1; 1] 8 _ _ _ _) _) _ _ _);
      try reflexivity; try (split; vm_compute; congruence); [vm_compute; congruence|left; vm_compute; congruence].
Defined.
