(* ===== verification/Overlay.v ===== *)
(** * Overlay: the writable device of a sandbox

    Models [sandbox/block/overlay.go] (the copy-on-write device that serves a
    block from the cache when it has been written and from the read-only
    device otherwise) and [empty.go].  The specification of the overlay is an
    array of bytes; the theorem is that every sequence of aligned reads,
    writes and zeroings gives the answers of the array.  A buffer passed to
    [ReadAt] is the list of its bytes, of capacity its length. *)

From S2P Require Import Prelude Bytes Bitmap Blocks Tracker Export Cache.

(** The [ReadonlyDevice] interface as the overlay uses it: [rd_ReadAt n off]
    is what one [ReadAt] of [n] bytes copies into the front of the buffer. *)
Record ReadonlyDevice (E : Type) := mkDevice {
  rd_ReadAt : Z → Z → result E bytes;
  rd_BlockSize : Z
}.
Arguments mkDevice {E} _ _.
Arguments rd_ReadAt {E} _ _ _.
Arguments rd_BlockSize {E} _.

(** ** [overlay.go] *)

Record Overlay (E B : Type) := mkOverlay {
  o_device : ReadonlyDevice E;
  o_cache : Cache B;
  o_cacheEjected : bool;
  o_blockSize : Z
}.
Arguments mkOverlay {E B} _ _ _ _.
Arguments o_device {E B} _.
Arguments o_cache {E B} _.
Arguments o_cacheEjected {E B} _.
Arguments o_blockSize {E B} _.

Inductive overlay_err (E : Type) :=
| CacheRead (e : cache_err)
| DeviceRead (e : E)
| CacheAlreadyEjected
| OverlaySliceNotImplemented
| OverlayPanic.
Arguments CacheRead {E} _.
Arguments DeviceRead {E} _.
Arguments CacheAlreadyEjected {E}.
Arguments OverlaySliceNotImplemented {E}.
Arguments OverlayPanic {E}.

Section overlay.
Context {E : Type} `{Bitmap B}.

Definition NewOverlay (device : ReadonlyDevice E) (cache : Cache B) : Overlay E B :=
  mkOverlay device cache false (rd_BlockSize device).

(** The loop of [ReadAt]: the buffer after it, and the count or the error. *)
Fixpoint read_blocks (o : Overlay E B) (off : Z) (blocks : list Z) (p : bytes)
    : bytes * result (overlay_err E) Z :=
  match blocks with
  | [] => (p, Ok (len p))
  | blockOff :: blocks =>
      if len p <? i64 (blockOff + o_blockSize o) then (p, Err OverlayPanic)
      else
        match cReadAt (o_cache o) (o_blockSize o) (i64 (off + blockOff)) with
        | Ok d => read_blocks o off blocks (splice p blockOff d)
        | Err BytesNotAvailableError =>
            match rd_ReadAt (o_device o) (o_blockSize o) (i64 (off + blockOff)) with
            | Ok d => read_blocks o off blocks (splice p blockOff d)
            | Err e => (p, Err (DeviceRead e))
            end
        | Err SlicePanic => (p, Err OverlayPanic)
        | Err e => (p, Err (CacheRead e))
        end
  end.

Definition oReadAt (o : Overlay E B) (p : bytes) (off : Z) : bytes * result (overlay_err E) Z :=
  read_blocks o off (BlocksOffsets (len p) (o_blockSize o)) p.

Definition with_cache (o : Overlay E B) (c : Cache B) : Overlay E B :=
  mkOverlay (o_device o) c (o_cacheEjected o) (o_blockSize o).

Definition oWriteAt (o : Overlay E B) (p : bytes) (off : Z) : result cache_err (Overlay E B * Z) :=
  '(c, n) ← cWriteAt (o_cache o) p off; Ok (with_cache o c, n).

Definition oWriteZeroesAt (o : Overlay E B) (off length : Z) : result cache_err (Overlay E B * Z) :=
  '(c, n) ← WriteZeroesAt (o_cache o) off length; Ok (with_cache o c, n).

Definition EjectCache (o : Overlay E B) : result (overlay_err E) (Overlay E B * Cache B) :=
  if o_cacheEjected o then Err CacheAlreadyEjected
  else Ok (mkOverlay (o_device o) (o_cache o) true (o_blockSize o), o_cache o).

Definition oSlice (o : Overlay E B) (off length : Z) : result (overlay_err E) bytes :=
  Err OverlaySliceNotImplemented.

Definition oSize (o : Overlay E B) : result cache_err Z := cSize (o_cache o).

Definition oClose (o : Overlay E B) : result cache_err (Overlay E B) :=
  if o_cacheEjected o then Ok o
  else c ← cClose (o_cache o); Ok (with_cache o c).
End overlay.

(** ** [empty.go]: [size] zero bytes *)

Definition emptySlice (size off length : Z) : option bytes :=
  let end_ := i64 (off + length) in
  let length := if size <? end_ then i64 (size - off) else length in
  if length <? 0 then None else Some (replicate (Z.to_nat length) 0).

(** [None] is the panic of [make] on a negative length. *)
Definition emptyReadAt (size n off : Z) : result unit bytes :=
  match emptySlice size off n with
  | Some b => Ok (take (Z.to_nat n) b)
  | None => Err ()
  end.

Definition NewEmpty (size blockSize : Z) : ReadonlyDevice unit :=
  mkDevice (emptyReadAt size) blockSize.

(** ** The byte array an overlay stands for *)

Lemma at_slice_in (l : bytes) i j k :
  0 <= i → i <= j → j <= len l →
  at_ (slice i j l) k = if (0 <=? k) && (k <? j - i) then at_ l (i + k) else None.
Proof.
  intros Hi Hj Hl. destruct (Z.leb_spec 0 k), (Z.ltb_spec k (j - i)); cbn [andb].
  - by apply at_slice.
  - destruct (at_ (slice i j l) k) eqn:E; [|done]. apply at_Some in E. rewrite len_slice in E by lia. lia.
  - destruct (at_ (slice i j l) k) eqn:E; [|done]. apply at_Some in E. lia.
  - destruct (at_ (slice i j l) k) eqn:E; [|done]. apply at_Some in E. lia.
Qed.

Section refine.
Context {E : Type} `{Bitmap B}.

Record overlay_ok (o : Overlay E B) (m D : bytes) : Prop := {
  oo_cache : cache_ok (o_cache o) m;
  oo_bs : c_blockSize (o_cache o) = o_blockSize o;
  oo_file : c_dirtyFile (o_cache o) = false;
  oo_whole : len m mod o_blockSize o = 0;
  oo_room : is_i64 (len m + 2 ^ 32);
  oo_len : len D = len m;
  oo_dev off : 0 <= off → off mod o_blockSize o = 0 → off + o_blockSize o <= len D →
    rd_ReadAt (o_device o) (o_blockSize o) off = Ok (slice off (off + o_blockSize o) D)
}.

(** [V] is the content of the device over the image [D] of the read-only one:
    the cache where a block is present, [D] elsewhere. *)
Record represents (o : Overlay E B) (D V : bytes) : Prop := mkRepresents {
  rp_m : bytes;
  rp_ok : overlay_ok o rp_m D;
  rp_len : len V = len rp_m;
  rp_at x : 0 <= x < len V →
    at_ V x = if decide (Get (c_tracker (o_cache o)) (x / o_blockSize o) = NotPresent)
              then at_ D x else at_ rp_m x
}.

Lemma in_block bs y x : 0 < bs → y mod bs = 0 → y <= x < y + bs → x / bs = y / bs.
Proof.
  intros Hbs Hy Hx. pose proof (Z.div_mod y bs ltac:(lia)).
  symmetry. apply (Z.div_unique _ _ _ (x - y)); lia.
Qed.

(** One block of the device. *)
Lemma read_block o m D V y :
  overlay_ok o m D → len V = len m →
  (∀ x, 0 <= x < len V → at_ V x =
     if decide (Get (c_tracker (o_cache o)) (x / o_blockSize o) = NotPresent) then at_ D x else at_ m x) →
  0 <= y → y mod o_blockSize o = 0 → y + o_blockSize o <= len V →
  let d := slice y (y + o_blockSize o) V in
  cReadAt (o_cache o) (o_blockSize o) y = Ok d ∨
  (cReadAt (o_cache o) (o_blockSize o) y = Err BytesNotAvailableError ∧
   rd_ReadAt (o_device o) (o_blockSize o) y = Ok d).
Proof.
  intros Hok HV Hat Hy Hm Hyl d. pose proof (oo_cache _ _ _ Hok) as Hc. pose proof (oo_bs _ _ _ Hok) as Hb.
  pose proof (co_bs _ _ Hc) as Hbs. rewrite Hb in Hbs. pose proof (co_len _ _ Hc) as Hlm.
  pose proof (oo_room _ _ _ Hok) as Hr. pose proof (oo_len _ _ _ Hok) as HD.
  destruct (cReadAt_spec (o_cache o) m y (o_blockSize o) Hc) as [H1 H2]; [lia|lia|unfold_int; lia|].
  rewrite Z.min_l in H1, H2 by lia. unfold present_on in H1, H2. rewrite Hb in H1, H2.
  pose proof (Z.div_mod y (o_blockSize o) ltac:(lia)) as Hdm.
  assert (Hsame : ∀ W, len W = len V →
    (∀ x, y <= x < y + o_blockSize o → at_ V x = at_ W x) → slice y (y + o_blockSize o) W = d).
  { intros W HW Hx. apply at_ext. intros x. unfold d. rewrite !at_slice_in by lia.
    destruct (Z.leb_spec 0 x), (Z.ltb_spec x (y + o_blockSize o - y)); cbn [andb]; try done.
    symmetry. apply Hx. lia. }
  destruct (decide (Get (c_tracker (o_cache o)) (y / o_blockSize o) = NotPresent)) as [Hg|Hg].
  - right. split.
    + apply H2; [apply Hok|]. intros Hp. apply (Hp (y / o_blockSize o)); [lia|nia|done].
    + rewrite (oo_dev _ _ _ Hok) by lia. f_equal. apply Hsame; [lia|].
      intros x Hx. rewrite Hat by lia. rewrite (in_block _ y x) by lia. by rewrite decide_True.
  - left. rewrite H1.
    + f_equal. apply Hsame; [lia|]. intros x Hx. rewrite Hat by lia. rewrite (in_block _ y x) by lia.
      by rewrite decide_False.
    + right. intros i Hi Hi'. assert (i = y / o_blockSize o) as -> by nia. done.
Qed.

Lemma read_blocks_ok o D V off k n : ∀ j p,
  represents o D V → 0 <= off → off mod o_blockSize o = 0 → off + k * o_blockSize o <= len V →
  0 <= j → j + Z.of_nat n = k → len p = k * o_blockSize o →
  (∀ x, 0 <= x < j * o_blockSize o → at_ p x = at_ V (off + x)) →
  read_blocks o off ((λ i, BlockOffset i (o_blockSize o)) <$> seqZ j (Z.of_nat n)) p =
    (slice off (off + k * o_blockSize o) V, Ok (k * o_blockSize o)).
Proof.
  induction n as [|n IH]; intros j p HV Hoff Hm Hk Hj Hjk Hp Hat.
  - change (seqZ j (Z.of_nat 0)) with (@nil Z). cbn [fmap list_fmap read_blocks].
    rewrite Hp. f_equal. apply at_ext. intros x.
    destruct HV as [m Hok Hl _]. pose proof (co_bs _ _ (oo_cache _ _ _ Hok)) as Hbs.
    rewrite (oo_bs _ _ _ Hok) in Hbs.
    rewrite at_slice_in by nia. assert (j = k) as -> by lia.
    destruct (Z.leb_spec 0 x), (Z.ltb_spec x (off + k * o_blockSize o - off)); cbn [andb]; [apply Hat; lia|..];
      (destruct (at_ p x) eqn:Ex; [apply at_Some in Ex; lia|done]).
  - destruct (id HV) as [m Hok Hl HatV]. pose proof (co_bs _ _ (oo_cache _ _ _ Hok)) as Hbs.
    rewrite (oo_bs _ _ _ Hok) in Hbs. pose proof (oo_room _ _ _ Hok) as Hr.
    rewrite seqZ_cons by lia. cbn [fmap list_fmap read_blocks].
    assert (Hjb : j * o_blockSize o + o_blockSize o <= k * o_blockSize o) by nia.
    rewrite BlockOffset_mul by (unfold_int; nia). rewrite !i64_id by (unfold_int; nia).
    destruct (Z.ltb_spec (len p) (j * o_blockSize o + o_blockSize o)); [lia|].
    assert (Hy : (off + j * o_blockSize o) mod o_blockSize o = 0) by (by rewrite Z.mod_add by lia).
    pose proof (read_block o m D V (off + j * o_blockSize o) Hok Hl HatV ltac:(nia) Hy ltac:(lia)) as Hrd.
    set (d := slice (off + j * o_blockSize o) (off + j * o_blockSize o + o_blockSize o) V) in Hrd.
    assert (Hd : len d = o_blockSize o) by (unfold d; rewrite len_slice by nia; lia).
    replace (Z.pred (Z.of_nat (S n))) with (Z.of_nat n) by lia. rewrite <- Z.add_1_r.
    assert (Hrest : read_blocks o off ((λ i, BlockOffset i (o_blockSize o)) <$> seqZ (j + 1) (Z.of_nat n))
      (splice p (j * o_blockSize o) d) = (slice off (off + k * o_blockSize o) V, Ok (k * o_blockSize o))).
    { apply IH; try done; try lia; [rewrite len_splice; nia|].
      intros x Hx. rewrite at_splice by nia. rewrite Hd.
      destruct (Z.leb_spec (j * o_blockSize o) x); cbn [andb]; [|apply Hat; lia].
      destruct (Z.ltb_spec x (j * o_blockSize o + o_blockSize o)); [|lia].
      unfold d. rewrite at_slice by nia. f_equal. lia. }
    destruct Hrd as [->|[-> ->]]; exact Hrest.
Qed.

Lemma BlocksOffsets_whole k bs :
  0 < bs < 2 ^ 31 → 0 <= k → is_i64 (k * bs + 2 ^ 32) →
  BlocksOffsets (k * bs) bs = (λ i, BlockOffset i bs) <$> seqZ 0 k.
Proof.
  intros Hbs Hk Hi. unfold BlocksOffsets. rewrite TotalBlocks_ceil, BlockCeilIdx_div by (unfold_int; nia).
  do 2 f_equal. symmetry. apply (Z.div_unique _ _ _ (bs - 1)); lia.
Qed.

Lemma represents_size o D V :
  represents o D V → 0 < len V ∧ len V = c_size (o_cache o) ∧ 0 < o_blockSize o < 2 ^ 31 ∧
    len V mod o_blockSize o = 0 ∧ is_i64 (len V + 2 ^ 32).
Proof.
  intros [m Hok Hl _]. pose proof (co_bs _ _ (oo_cache _ _ _ Hok)) as Hbs.
  rewrite (oo_bs _ _ _ Hok) in Hbs. rewrite Hl.
  pose proof (co_len _ _ (oo_cache _ _ _ Hok)). pose proof (co_size _ _ (oo_cache _ _ _ Hok)).
  split_and!; try lia; apply Hok.
Qed.

Lemma represents_read o D V p off :
  represents o D V → 0 <= off → off mod o_blockSize o = 0 → len p mod o_blockSize o = 0 →
  off + len p <= len V → oReadAt o p off = (slice off (off + len p) V, Ok (len p)).
Proof.
  intros HV Hoff Hm Hp Hl. destruct (represents_size o D V HV) as (Hpos & _ & Hbs & _ & Hi).
  pose proof (Z.div_mod (len p) (o_blockSize o) ltac:(lia)) as Hk.
  set (k := len p / o_blockSize o) in *. pose proof (len_nonneg p).
  assert (Hk0 : 0 <= k) by (apply Z.div_pos; lia).
  unfold oReadAt. replace (len p) with (k * o_blockSize o) by lia.
  rewrite BlocksOffsets_whole by (unfold_int; lia).
  rewrite <- (Z2Nat.id k) at 1 by lia.
  apply (read_blocks_ok o D V off k (Z.to_nat k) 0 p); try done; lia.
Qed.

(** A change of the cache that writes [b] at [off] and marks its blocks. *)
Lemma represents_splice o D V c' m' b off :
  represents o D V → 0 <= off → off mod o_blockSize o = 0 →
  off + len b <= len V → len b mod o_blockSize o = 0 →
  cache_ok c' m' → c_size c' = c_size (o_cache o) → c_blockSize c' = c_blockSize (o_cache o) →
  c_dirtyFile c' = c_dirtyFile (o_cache o) →
  (∀ m, cache_ok (o_cache o) m → m' = splice m off b) →
  (∀ i, if (off <=? i * o_blockSize o) && (i * o_blockSize o <? off + len b)
        then Get (c_tracker c') i ≠ NotPresent
        else Get (c_tracker c') i = Get (c_tracker (o_cache o)) i) →
  represents (with_cache o c') D (splice V off b).
Proof.
  intros HV Hoff Hal Hb Hlb Hc' Hs Hbs' Hf Hm Hg. pose proof (len_nonneg b).
  destruct (represents_size o D V HV) as (Hpos & Hsz & Hbs & Hwh & Hi).
  destruct HV as [m Hok Hl Hat]. specialize (Hm m (oo_cache _ _ _ Hok)).
  assert (Hlm : len m' = len m) by (rewrite Hm; apply len_splice; lia).
  refine (mkRepresents (with_cache o c') D _ m' _ _ _).
  - destruct Hok. split; cbn [with_cache o_cache o_blockSize o_device]; rewrite ?Hlm; try done; congruence.
  - rewrite len_splice by lia. lia.
  - intros x Hx. rewrite len_splice in Hx by lia. cbn [with_cache o_cache o_blockSize].
    rewrite Hm, !at_splice by lia. specialize (Hg (x / o_blockSize o)). rewrite Hat by lia.
    pose proof (block_start_le (o_blockSize o) off x ltac:(lia) Hal).
    pose proof (block_start_le (o_blockSize o) (off + len b) x ltac:(lia)
      ltac:(rewrite Z.add_mod, Hal, Hlb by lia; done)).
    assert (Hin : (off <=? x / o_blockSize o * o_blockSize o) &&
      (x / o_blockSize o * o_blockSize o <? off + len b) = (off <=? x) && (x <? off + len b)).
    { destruct (Z.leb_spec off x), (Z.ltb_spec x (off + len b)),
        (Z.leb_spec off (x / o_blockSize o * o_blockSize o)),
        (Z.ltb_spec (x / o_blockSize o * o_blockSize o) (off + len b)); cbn; done || lia. }
    rewrite Hin in Hg. destruct ((off <=? x) && (x <? off + len b)).
    + by rewrite decide_False.
    + by rewrite Hg.
Qed.

Lemma represents_write o D V p off :
  represents o D V → 0 <= off < len V → off mod o_blockSize o = 0 → 0 < len p →
  len p mod o_blockSize o = 0 → is_i64 (off + len p) →
  let n := Z.min (len p) (len V - off) in
  ∃ o', oWriteAt o p off = Ok (o', n) ∧ represents o' D (splice V off (slice 0 n p)) ∧
    o_blockSize o' = o_blockSize o.
Proof.
  intros HV Hoff Hal Hp Hlp Hi n. destruct (represents_size o D V HV) as (Hpos & Hsz & Hbs & Hwh & _).
  destruct (id HV) as [m Hok Hl _]. pose proof (oo_bs _ _ _ Hok) as Hb.
  destruct (WriteAt_spec (o_cache o) m p off) as (c' & m' & E1 & Hw); rewrite ?Hb;
    [apply Hok|lia|done|done|done|done|]. destruct Hw as [Hc' Hb' Hs' Hf' Hd' Hg'].
  assert (Hstop : Z.min (off + len p) (c_size (o_cache o)) = off + n) by lia.
  rewrite Hstop in *. exists (with_cache o c'). unfold oWriteAt. rewrite E1. cbn.
  assert (Hn : 0 <= n <= len p) by lia. assert (Hln : len (slice 0 n p) = n) by (rewrite len_slice; lia).
  split_and!; [do 2 f_equal; lia| |done].
  apply (represents_splice o D V c' m'); try done; rewrite ?Hln; try lia.
  - pose proof (Z.div_mod off (o_blockSize o) ltac:(lia)). pose proof (Z.div_mod (len V) (o_blockSize o) ltac:(lia)).
    destruct (Z.le_gt_cases (len p) (len V - off)).
    + by replace n with (len p) by lia.
    + replace n with ((len V / o_blockSize o - off / o_blockSize o) * o_blockSize o) by lia.
      by apply Z.mod_mul; lia.
  - intros m2 Hm2. pose proof (co_len _ _ Hm2). apply at_ext. intros x. rewrite at_splice, Hd', Hln by lia.
    assert (m2 = m) as -> by (pose proof (co_mmap _ _ Hm2); pose proof (co_mmap _ _ (oo_cache _ _ _ Hok)); congruence).
    destruct (Z.leb_spec off x), (Z.ltb_spec x (off + n)); cbn [andb]; try done.
    rewrite at_slice by lia. done.
  - intros i. rewrite Hg', Hb. destruct (_ && _); [|done]. unfold wstate. by destruct (IsZero _).
Qed.

Lemma represents_zero o D V off n :
  represents o D V → 0 <= off → off mod o_blockSize o = 0 → 0 < n → n mod o_blockSize o = 0 →
  off + n <= len V →
  ∃ o', oWriteZeroesAt o off n = Ok (o', n) ∧ represents o' D (splice V off (replicate (Z.to_nat n) 0)) ∧
    o_blockSize o' = o_blockSize o.
Proof.
  intros HV Hoff Hal Hn Hnm Hl. destruct (represents_size o D V HV) as (Hpos & Hsz & Hbs & Hwh & Hi).
  destruct (id HV) as [m Hok Hlm _]. pose proof (oo_bs _ _ _ Hok) as Hb.
  destruct (WriteZeroesAt_spec (o_cache o) m off n) as (c' & m' & E1 & Hc' & Hs' & Hb' & Hf' & Hm' & Hg');
    rewrite ?Hb; [apply Hok|lia|done|done|done|unfold_int; lia|].
  rewrite Hb in Hg'. rewrite Z.min_l in * by lia. replace (off + n - off) with n in * by lia.
  exists (with_cache o c'). unfold oWriteZeroesAt. rewrite E1. cbn. split_and!; [done| |done].
  apply (represents_splice o D V c' m'); try done; rewrite ?len_replicate, ?Z2Nat.id by lia; try done.
  - intros m2 Hm2.
    assert (m2 = m) as -> by (pose proof (co_mmap _ _ Hm2); pose proof (co_mmap _ _ (oo_cache _ _ _ Hok)); congruence).
    done.
  - intros i. rewrite Hg'. by destruct (_ && _).
Qed.
End refine.

(** ** The overlay as an array *)

Inductive dev_op :=
| OpRead (off : Z) (p : bytes)
| OpWrite (off : Z) (p : bytes)
| OpZero (off n : Z).

Inductive dev_out := OutRead (p : bytes) | OutCount (n : Z) | OutErr.

#[global] Instance dev_out_eq_dec : EqDecision dev_out.
Proof. solve_decision. Defined.

(** Requests of the NBD server: whole blocks, inside the device but for a
    write, which may run over its end. *)
Definition op_aligned (size bs : Z) (op : dev_op) : Prop :=
  match op with
  | OpRead off p => 0 <= off ∧ off mod bs = 0 ∧ len p mod bs = 0 ∧ off + len p <= size
  | OpWrite off p => 0 <= off < size ∧ off mod bs = 0 ∧ 0 < len p ∧ len p mod bs = 0 ∧ is_i64 (off + len p)
  | OpZero off n => 0 <= off ∧ off mod bs = 0 ∧ 0 < n ∧ n mod bs = 0 ∧ off + n <= size
  end.
#[global] Instance op_aligned_dec size bs op : Decision (op_aligned size bs op).
Proof. destruct op; unfold op_aligned; apply _. Defined.

Definition array_step (V : bytes) (op : dev_op) : bytes * dev_out :=
  match op with
  | OpRead off p => (V, OutRead (slice off (off + len p) V))
  | OpWrite off p => let n := Z.min (len p) (len V - off) in (splice V off (slice 0 n p), OutCount n)
  | OpZero off n => (splice V off (replicate (Z.to_nat n) 0), OutCount n)
  end.

Definition overlay_step {E} `{Bitmap B} (o : Overlay E B) (op : dev_op) : Overlay E B * dev_out :=
  match op with
  | OpRead off p => (o, match oReadAt o p off with (b, Ok _) => OutRead b | _ => OutErr end)
  | OpWrite off p => match oWriteAt o p off with Ok (o', n) => (o', OutCount n) | Err _ => (o, OutErr) end
  | OpZero off n => match oWriteZeroesAt o off n with Ok (o', n) => (o', OutCount n) | Err _ => (o, OutErr) end
  end.

Fixpoint run_ops {St : Type} (step : St → dev_op → St * dev_out) (s : St) (ops : list dev_op)
    : St * list dev_out :=
  match ops with
  | [] => (s, [])
  | op :: ops => let '(s1, out) := step s op in let '(s2, outs) := run_ops step s1 ops in (s2, out :: outs)
  end.

Lemma overlay_step_sim {E} `{Bitmap B} (o : Overlay E B) D V op :
  represents o D V → op_aligned (len V) (o_blockSize o) op →
  (overlay_step o op).2 = (array_step V op).2 ∧
  represents (overlay_step o op).1 D (array_step V op).1 ∧
  o_blockSize (overlay_step o op).1 = o_blockSize o ∧ len (array_step V op).1 = len V.
Proof.
  intros HV Hop. destruct op as [off p|off p|off n]; cbn in Hop; cbn [overlay_step array_step].
  - destruct Hop as (? & ? & ? & ?). by rewrite (represents_read o D V p off).
  - destruct Hop as (? & ? & ? & ? & ?).
    destruct (represents_write o D V p off) as (o' & -> & Hr & Hb); try done.
    split_and!; [done|done|done|]. cbn [fst]. rewrite len_splice; rewrite ?len_slice; lia.
  - destruct Hop as (? & ? & ? & ? & ?).
    destruct (represents_zero o D V off n) as (o' & -> & Hr & Hb); try done.
    split_and!; [done|done|done|]. cbn [fst]. rewrite len_splice; rewrite ?len_replicate; lia.
Qed.

(** C20. The overlay is the byte array it represents: any sequence of aligned
    reads, writes and zeroings succeeds and gives the answers the array gives,
    whether a block comes from the cache or from the read-only device, and at
    the end the overlay represents the final array. *)
Theorem Overlay_implements_array {E} `{Bitmap B} (o : Overlay E B) D V ops :
  represents o D V → Forall (op_aligned (len V) (o_blockSize o)) ops →
  (run_ops overlay_step o ops).2 = (run_ops array_step V ops).2 ∧
  represents (run_ops overlay_step o ops).1 D (run_ops array_step V ops).1.
Proof.
  revert o V. induction ops as [|op ops IH]; intros o V HV Hops; [done|].
  apply Forall_cons in Hops as [Hop Hops].
  destruct (overlay_step_sim o D V op HV Hop) as (Eo & HV' & Eb & El).
  cbn [run_ops]. destruct (overlay_step o op) as [o1 out], (array_step V op) as [V1 out'].
  cbn in Eo, HV', Eb, El. subst out'. rewrite <- Eb, <- El in Hops.
  destruct (IH o1 V1 HV' Hops) as [E2 H2].
  destruct (run_ops overlay_step o1 ops), (run_ops array_step V1 ops). cbn in *. by subst.
Qed.

(** A device of eight sevens below an empty cache. *)
Definition seven_device : ReadonlyDevice unit :=
  mkDevice (λ n off, Ok (slice off (off + n) (replicate 8 7))) 2.
Definition overlay_example : Overlay unit (gset Z) :=
  NewOverlay seven_device (NewCache 8 2 (replicate 8 0) false).

Lemma overlay_example_represents : represents overlay_example (replicate 8 7) (replicate 8 7).
Proof.
  refine (mkRepresents overlay_example (replicate 8 7) (replicate 8 7) (replicate 8 0) _ eq_refl _).
  - split; try reflexivity; [|split; vm_compute; congruence].
    apply NewCache_ok; [lia|lia|done].
  - intros x Hx. cbn [overlay_example NewOverlay o_cache NewCache c_tracker o_blockSize].
    rewrite Get_New. by rewrite decide_True.
Qed.

Definition ops_example : list dev_op :=
  [OpRead 0 (replicate 4 9); OpWrite 2 [1; 2; 0; 0]; OpZero 6 2; OpRead 0 (replicate 8 9)].

Lemma Overlay_implements_array_witness :
  (run_ops overlay_step overlay_example ops_example).2 =
    [OutRead [7; 7; 7; 7]; OutCount 4; OutCount 2; OutRead [7; 7; 1; 2; 0; 0; 0; 0]].
Proof.
  destruct (Overlay_implements_array overlay_example (replicate 8 7) (replicate 8 7) ops_example) as [E _].
  - exact overlay_example_represents.
  - apply (bool_decide_unpack _). vm_compute. exact I.
  - rewrite E. reflexivity.
Defined.

(** The empty device reads as zeros, and a read that starts inside it is
    cut at its end. *)
Theorem Empty_reads_zeros size n off :
  0 <= off <= size → 0 <= n → is_i64 (off + n) → is_i64 size →
  emptyReadAt size n off = Ok (replicate (Z.to_nat (Z.min n (size - off))) 0).
Proof.
  intros Hoff Hn Hi Hs. unfold emptyReadAt, emptySlice. rewrite !i64_id by (unfold_int; lia).
  destruct (Z.ltb_spec size (off + n)).
  - destruct (Z.ltb_spec (size - off) 0); [lia|]. do 2 f_equal. rewrite take_replicate. f_equal. lia.
  - destruct (Z.ltb_spec n 0); [lia|]. do 2 f_equal. rewrite take_replicate. f_equal. lia.
Qed.

Lemma Empty_reads_zeros_witness : emptyReadAt 6 4 4 = Ok [0; 0].
Proof.
  rewrite (Empty_reads_zeros 6 4 4); [reflexivity|lia|lia|split; vm_compute; congruence..].
Defined.
