(* ===== verification/Snapshot.v ===== *)
(** * Snapshot: exporting a cache, and the restored image

    Models [Cache.ExportToDiff] of [sandbox/block/cache.go]: the dirty ranges
    of a cache are packed into an output file, by [copy_file_range] while the
    kernel supports it and by a plain copy afterwards.  The kernel's answers
    are an oracle.  The last theorem joins the export to the header of the
    snapshot: the image read through the new header and the exported file is
    the device the sandbox wrote. *)

From S2P Require Import Prelude Bytes Bitmap Blocks Mapping Compact FrameTable Header Export Tracker Cache Overlay.

(** ** Packing: the specification of every export *)

(** The bytes of the runs [rs] of [bs]-byte blocks of [m], one after another. *)
Fixpoint pack (bs : Z) (rs : list (Z * Z)) (m : bytes) : bytes :=
  match rs with
  | [] => []
  | (s, e) :: rs => slice (s * bs) (e * bs) m ++ pack bs rs m
  end.

(** Runs within the first [n] blocks. *)
Definition runs_below (n : Z) (rs : list (Z * Z)) : Prop := Forall (λ r, r.2 <= n) rs.

Section pack.
Context (bs : Z) (m : bytes) (nblocks : Z).
Hypothesis Hbs : 0 < bs.
Hypothesis Hm : nblocks * bs <= len m.

Lemma len_run s e : 0 <= s → s < e → e <= nblocks → len (slice (s * bs) (e * bs) m) = (e - s) * bs.
Proof using Hbs Hm. intros. rewrite len_slice by nia. lia. Qed.

Lemma pack_at lo rs x :
  0 <= lo → ranges_wf lo rs → runs_below nblocks rs → 0 <= x →
  in_runs rs (x / bs) = true →
  at_ (pack bs rs m) (countZ (in_runs rs) lo (x / bs) * bs + x mod bs) = at_ m x.
Proof using Hbs Hm.
  revert lo. induction rs as [|[s e] rs IH]; intros lo Hlo Hwf Hb Hx Hin; [done|].
  destruct Hwf as (H1 & H2 & H3 & Hwf). apply Forall_cons in Hb as [He Hb]. cbn in He.
  assert (Hwf' : ranges_wf e rs) by (eapply ranges_wf_weaken; [|done]; lia).
  pose proof (Z.div_mod x bs ltac:(lia)). pose proof (Z.mod_pos_bound x bs Hbs).
  rewrite countZ_runs by done. cbn [pack].
  pose proof (len_run s e ltac:(lia) H2 He) as Hl.
  change (in_runs ((s, e) :: rs) (x / bs)) with (in_range (x / bs) (s, e) || in_runs rs (x / bs)) in Hin.
  unfold in_range in Hin. cbn [fst snd] in Hin.
  destruct (Z.leb_spec (x / bs) s), (Z.ltb_spec (x / bs) e), (Z.leb_spec s (x / bs)); try lia;
    cbn [andb orb] in Hin.
  - rewrite at_app by lia. rewrite Hl. destruct (Z.ltb_spec (0 * bs + x mod bs) ((e - s) * bs)); [|nia].
    rewrite at_slice by nia. f_equal. nia.
  - unfold in_runs in Hin. rewrite (ranges_wf_below e) in Hin by (done || lia). done.
  - rewrite at_app by nia. rewrite Hl.
    destruct (Z.ltb_spec ((x / bs - s) * bs + x mod bs) ((e - s) * bs)); [|nia].
    rewrite at_slice by nia. f_equal. nia.
  - pose proof (countZ_bounds (in_runs rs) e (x / bs) ltac:(lia)).
    rewrite at_app by nia. rewrite Hl.
    destruct (Z.ltb_spec (((e - s) + countZ (in_runs rs) e (x / bs)) * bs + x mod bs) ((e - s) * bs)); [nia|].
    replace (((e - s) + countZ (in_runs rs) e (x / bs)) * bs + x mod bs - (e - s) * bs)
      with (countZ (in_runs rs) e (x / bs) * bs + x mod bs) by lia.
    apply IH; [lia|done|done|done|exact Hin].
Qed.
End pack.

(** The runs of a bitmap whose blocks lie inside the device. *)
Lemma bm_ranges_below `{Bitmap B} (b : B) n :
  (∀ i, bm_contains b i = true → i < n) → runs_below n (bm_ranges b).
Proof.
  intros Hb. unfold runs_below. apply Forall_forall. intros [s e] Hin.
  assert (Hwf : ∀ lo rs, ranges_wf lo rs → (s, e) ∈ rs → s < e).
  { intros lo rs. revert lo. induction rs as [|[s' e'] rs IH]; intros lo; [set_solver|].
    intros (? & ? & ? & Hr) [[= -> ->]|Hi]%elem_of_cons; [done|by eapply IH]. }
  specialize (Hwf 0 _ (bm_ranges_wf b) Hin). cbn.
  specialize (Hb (e - 1)). rewrite <- bm_ranges_contains in Hb.
  assert (existsb (in_range (e - 1)) (bm_ranges b) = true); [|specialize (Hb H0); lia].
  apply existsb_exists. exists (s, e). split; [by apply list_elem_of_In|]. unfold in_range. cbn. lia.
Qed.

Lemma pack_bitmap `{Bitmap B} (b : B) bs m nblocks x :
  0 < bs → nblocks * bs <= len m → (∀ i, bm_contains b i = true → i < nblocks) → 0 <= x →
  bm_contains b (x / bs) = true →
  at_ (pack bs (bm_ranges b) m) (packed_at b bs x) = at_ m x.
Proof.
  intros Hbs Hm Hb Hx Hc. unfold packed_at.
  rewrite (countZ_ext _ (in_runs (bm_ranges b))) by (intros; symmetry; apply bm_ranges_contains).
  apply (pack_at bs m nblocks); [done|done|done|apply bm_ranges_wf|by apply bm_ranges_below|done|].
  unfold in_runs. by rewrite bm_ranges_contains.
Qed.

(** ** [ExportToDiff] *)

(** One answer of [copy_file_range(src, readOffset, dst, writeOffset, remaining)]. *)
Inductive Cfr :=
| CfrUnsupported
| CfrFailed
| CfrCopied (n : Z).

(** The calls of an export: opening the cache file, [copy_file_range], and the
    [Seek] and [io.Copy] of the fallback, at a read and a write offset. *)
Record copier := mkCopier { opens : bool; cfr : Z → Z → Z → Cfr; copies : Z → Z → Z → bool }.

Inductive copy_err := ExportClosed | OpenFailed | CopyFailed | CopyReturnedZero | CopyFuel.

(** Writing [b] at [off] of a file, which grows as needed. *)
Definition pwrite (out : bytes) (off : Z) (b : bytes) : bytes :=
  let out' := out ++ replicate (Z.to_nat (off - len out)) 0 in
  slice 0 off out' ++ b ++ drop (Z.to_nat (off + len b)) out'.

Section export.
Context (K : copier).

(** The loop over one range, from [remaining] bytes at [readOffset]. *)
Fixpoint copy_range (fuel : nat) (m : bytes) (remaining readOffset writeOffset : Z) (fallback : bool)
    (out : bytes) : result copy_err (Z * bool * bytes) :=
  match fuel with
  | O => Err CopyFuel
  | S fuel =>
      if remaining <=? 0 then Ok (writeOffset, fallback, out)
      else
        '(remaining, readOffset, writeOffset, fallback, out) ←
          (if fallback then Ok (remaining, readOffset, writeOffset, true, out)
           else match cfr K readOffset writeOffset remaining with
                | CfrUnsupported => Ok (remaining, readOffset, writeOffset, true, out)
                | CfrFailed => Err CopyFailed
                | CfrCopied n =>
                    if n =? 0 then Err CopyReturnedZero
                    else Ok (remaining - n, readOffset + n, writeOffset + n, false,
                             pwrite out writeOffset (slice readOffset (readOffset + n) m))
                end);
        if fallback && (0 <? remaining) then
          if negb (copies K readOffset writeOffset remaining) then Err CopyFailed else
          copy_range fuel m 0 readOffset (i64 (writeOffset + remaining)) fallback
            (pwrite out writeOffset (slice readOffset (i64 (readOffset + remaining)) m))
        else copy_range fuel m remaining readOffset writeOffset fallback out
  end.

Fixpoint copy_ranges (m : bytes) (rs : list Range) (writeOffset : Z) (fallback : bool) (out : bytes)
    : result copy_err bytes :=
  match rs with
  | [] => Ok out
  | r :: rs =>
      '(writeOffset, fallback, out) ←
        copy_range (S (Z.to_nat (RSize r) + 1)) m (RSize r) (Start r) writeOffset fallback out;
      copy_ranges m rs writeOffset fallback out
  end.

Definition ExportToDiff `{Bitmap B} (c : Cache B) (out : bytes) : result copy_err (DiffMetadata B * bytes) :=
  if c_closed c then Err ExportClosed
  else match c_mmap c with
       | None => Ok (NewDiffMetadata (c_blockSize c) None None, out)
       | Some m =>
           if negb (opens K) then Err OpenFailed else
           let '(dirty, empty) := Export (c_tracker c) in
           let d := NewDiffMetadata (c_blockSize c) (Some dirty) (Some empty) in
           out ← copy_ranges m (BitsetRanges (Dirty d) (dm_BlockSize d)) 0 false out;
           Ok (d, out)
       end.

(** The kernel never reports more than it was asked for. *)
Hypothesis cfr_bounded : ∀ ro wo n k, cfr K ro wo n = CfrCopied k → 0 <= k <= n.

(** Some call failed: the opening of the file, a copy of the kernel, or a copy
    of the fallback. *)
Definition cfr_failure : Prop :=
  opens K = false ∨ ∃ ro wo n, 0 < n ∧ (cfr K ro wo n = CfrFailed ∨ cfr K ro wo n = CfrCopied 0 ∨ copies K ro wo n = false).

Lemma pwrite_append out b : pwrite out (len out) b = out ++ b.
Proof using Type.
  unfold pwrite. rewrite Z.sub_diag. cbn [Z.to_nat replicate]. rewrite app_nil_r.
  unfold slice. pose proof (len_nonneg b). rewrite Z.sub_0_r, len_to_nat. change (Z.to_nat 0) with O.
  rewrite drop_0, firstn_all, (drop_ge out (Z.to_nat (len out + len b))); [by rewrite app_nil_r|].
  unfold len in *. lia.
Qed.

Lemma slice_glue (m : bytes) i j k : 0 <= i → i <= j → j <= k → slice i j m ++ slice j k m = slice i k m.
Proof using Type.
  intros. unfold slice. replace (Z.to_nat (k - i)) with (Z.to_nat (j - i) + Z.to_nat (k - j))%nat by lia.
  rewrite <- (take_take_drop (drop (Z.to_nat i) m)), drop_drop. do 3 f_equal. lia.
Qed.

Lemma copy_range_spec fuel m rem ro (fb : bool) out :
  0 <= rem → 0 <= ro → ro + rem <= len m → is_i64 (len m) → len out + rem < 2 ^ 63 →
  rem + (if fb then 1 else 2) <= Z.of_nat fuel →
  match copy_range fuel m rem ro (len out) fb out with
  | Ok (wo', _, out') => out' = out ++ slice ro (ro + rem) m ∧ wo' = len out'
  | Err _ => cfr_failure
  end.
Proof using cfr_bounded.
  revert rem ro fb out. induction fuel as [|fuel IH]; intros rem ro fb out Hr Hro Hm Hi Hlo Hf.
  { destruct fb; lia. }
  cbn [copy_range]. destruct (Z.leb_spec rem 0).
  { assert (rem = 0) as -> by lia. unfold slice. rewrite Z.add_0_r, Z.sub_diag. cbn. by rewrite app_nil_r. }
  assert (Hfb : ∀ out0, out0 = out →
    match (if true && (0 <? rem) then
             if negb (copies K ro (len out) rem) then Err CopyFailed else
             copy_range fuel m 0 ro (i64 (len out + rem)) true (pwrite out (len out) (slice ro (i64 (ro + rem)) m))
           else copy_range fuel m rem ro (len out) true out) with
    | Ok (wo', _, out') => out' = out0 ++ slice ro (ro + rem) m ∧ wo' = len out'
    | Err _ => cfr_failure
    end).
  { intros out0 ->. destruct (Z.ltb_spec 0 rem); [cbn [andb]|lia].
    destruct (copies K ro (len out) rem) eqn:Ec; cbn [negb]; [|right; exists ro, (len out), rem; auto]. pose proof (len_nonneg out).
    rewrite pwrite_append, !i64_id by (unfold_int; lia).
    assert (Hl : len (slice ro (ro + rem) m) = rem) by (rewrite len_slice; lia).
    replace (len out + rem) with (len (out ++ slice ro (ro + rem) m)) by (rewrite len_app; lia).
    destruct fuel as [|fuel]; [destruct fb; lia|]. done. }
  destruct fb; [exact (Hfb out eq_refl)|].
  destruct (cfr K ro (len out) rem) as [| |n] eqn:E; cbn [mbind result_bind].
  - exact (Hfb out eq_refl).
  - right. exists ro, (len out), rem. auto.
  - pose proof (cfr_bounded _ _ _ _ E). destruct (Z.eqb_spec n 0) as [->|Hn].
    { right. exists ro, (len out), rem. auto. }
    cbn [mbind result_bind andb]. rewrite pwrite_append.
    assert (Hl : len (slice ro (ro + n) m) = n) by (rewrite len_slice; lia).
    replace (len out + n) with (len (out ++ slice ro (ro + n) m)) by (rewrite len_app; lia).
    specialize (IH (rem - n) (ro + n) false (out ++ slice ro (ro + n) m)).
    rewrite len_app, Hl in IH. specialize (IH ltac:(lia) ltac:(lia) ltac:(lia) Hi ltac:(lia) ltac:(lia)).
    rewrite len_app, Hl. destruct (copy_range _ _ _ _ _ _ _) as [[[wo' fb'] out']|]; [|done].
    destruct IH as [-> ->]. split; [|done]. rewrite <- app_assoc. f_equal.
    replace (ro + n + (rem - n)) with (ro + rem) by lia. apply slice_glue; lia.
Qed.

Lemma copy_ranges_spec m bs nblocks lo rs fb out :
  0 < bs <= 2 ^ 30 → nblocks * bs <= len m → is_i64 (len m) → 0 <= lo → ranges_wf lo rs → runs_below nblocks rs →
  len out + len (pack bs rs m) < 2 ^ 63 →
  match copy_ranges m ((λ '(s, e), NewRangeFromBlocks (i64 s) (i64 (i64 e - i64 s)) bs) <$> rs) (len out) fb out with
  | Ok out' => out' = out ++ pack bs rs m
  | Err _ => cfr_failure
  end.
Proof using cfr_bounded.
  intros Hbs Hm Hi. revert lo fb out. induction rs as [|[s e] rs IH]; intros lo fb out Hlo Hwf Hb Hl.
  { cbn. by rewrite app_nil_r. }
  destruct Hwf as (H1 & H2 & H3 & Hwf). apply Forall_cons in Hb as [He Hb]. cbn in He.
  cbn [fmap list_fmap copy_ranges pack]. cbn [pack] in Hl. rewrite len_app in Hl.
  rewrite (len_run bs m nblocks) in Hl by (done || lia). pose proof (len_nonneg (pack bs rs m)).
  assert (s * bs + (e - s) * bs = e * bs) by lia. assert (e * bs <= nblocks * bs) by nia.
  unfold NewRangeFromBlocks. rewrite (i64_id e), (i64_id s), (i64_id (e - s)) by (unfold_int; lia).
  rewrite !BlockOffset_mul by (unfold_int; nia). cbn [RSize Start].
  pose proof (copy_range_spec (S (Z.to_nat ((e - s) * bs) + 1)) m ((e - s) * bs) (s * bs) fb out) as Hc.
  specialize (Hc ltac:(nia) ltac:(nia) ltac:(lia) Hi ltac:(lia)).
  destruct (copy_range _ _ _ _ _ _ _) as [[[wo' fb'] out']|]; cbn [mbind result_bind].
  - destruct Hc as [-> ->]; [destruct fb; nia|].
    assert (Hout : len (out ++ slice (s * bs) (s * bs + (e - s) * bs) m) = len out + (e - s) * bs).
    { rewrite len_app, len_slice by nia. lia. }
    specialize (IH (e + 1) fb' (out ++ slice (s * bs) (s * bs + (e - s) * bs) m)).
    specialize (IH ltac:(lia) Hwf Hb ltac:(lia)). destruct (copy_ranges _ _ _ _ _); [|done].
    rewrite IH, <- app_assoc. do 3 f_equal. lia.
  - apply Hc. destruct fb; nia.
Qed.
End export.

(** ** What an export holds *)

Section exported_cache.
Context `{Bitmap B} (K : copier).
Hypothesis cfr_bounded : ∀ ro wo n k, cfr K ro wo n = CfrCopied k → 0 <= k <= n.

Lemma dirty_inside (c : Cache B) m nblocks i :
  cache_ok c m → len m = nblocks * c_blockSize c →
  Get (c_tracker c) i ≠ NotPresent → 0 <= i < nblocks.
Proof using Type.
  intros Hok Hm Hg. destruct (co_inside _ _ Hok i Hg) as [? Hi]. pose proof (co_bs _ _ Hok).
  rewrite <- (co_len _ _ Hok), Hm in Hi. nia.
Qed.

Lemma len_pack bs m nblocks lo rs :
  0 < bs → nblocks * bs <= len m → 0 <= lo → lo <= nblocks → ranges_wf lo rs → runs_below nblocks rs →
  len (pack bs rs m) <= (nblocks - lo) * bs.
Proof using Type.
  intros Hbs Hm. revert lo. induction rs as [|[s e] rs IH]; intros lo Hlo Hn Hwf Hb; [cbn [pack]; rewrite len_nil; nia|].
  destruct Hwf as (? & ? & ? & Hwf). apply Forall_cons in Hb as [He Hb]. cbn in He. cbn [pack].
  specialize (IH e ltac:(lia) He ltac:(eapply ranges_wf_weaken; [|done]; lia) Hb).
  rewrite len_app, (len_run bs m nblocks) by (done || lia). nia.
Qed.

Lemma ExportToDiff_spec (c : Cache B) m nblocks :
  cache_ok c m → c_blockSize c <= 2 ^ 30 → len m = nblocks * c_blockSize c → is_i64 (len m) →
  match ExportToDiff K c [] with
  | Ok (d, out) =>
      d = mkDiffMetadata (t_dirty (c_tracker c)) (t_zero (c_tracker c)) (c_blockSize c) ∧
      ∀ x, 0 <= x → bm_contains (Dirty d) (x / c_blockSize c) = true →
        at_ out (packed_at (Dirty d) (c_blockSize c) x) = at_ m x
  | Err _ => cfr_failure K
  end.
Proof using cfr_bounded.
  intros Hok Hbs Hm Hi. pose proof (co_bs _ _ Hok) as Hbs'.
  unfold ExportToDiff. rewrite (co_open _ _ Hok), (co_mmap _ _ Hok).
  destruct (opens K) eqn:Eo; cbn [negb]; [|by left].
  cbn [Tracker.Export NewDiffMetadata Dirty dm_BlockSize].
  assert (Hin : ∀ i, bm_contains (t_dirty (c_tracker c)) i = true → i < nblocks).
  { intros i Hc. apply Get_dirty in Hc. apply (dirty_inside c m nblocks i Hok Hm). by rewrite Hc. }
  pose proof (bm_ranges_below _ nblocks Hin) as Hb.
  assert (Hnb : 0 <= nblocks) by (pose proof (len_nonneg m); nia).
  pose proof (len_pack (c_blockSize c) m nblocks 0 _ ltac:(lia) ltac:(lia) ltac:(lia) Hnb (bm_ranges_wf _) Hb) as Hl.
  pose proof (len_nonneg (pack (c_blockSize c) (bm_ranges (t_dirty (c_tracker c))) m)).
  unfold BitsetRanges.
  pose proof (copy_ranges_spec K cfr_bounded m (c_blockSize c) nblocks 0 (bm_ranges (t_dirty (c_tracker c)))
    false []) as Hc.
  specialize (Hc ltac:(lia) ltac:(lia) Hi ltac:(lia) (bm_ranges_wf _) Hb).
  rewrite len_nil in Hc. specialize (Hc ltac:(unfold_int; lia)). cbn [default] in Hc |- *.
  unfold id in *. destruct (copy_ranges _ _ _ _ _ _) as [out|e]; cbn [mbind result_bind]; [|done].
  subst out. split; [done|]. intros x Hx Hd. cbn [app Dirty] in *.
  by apply (pack_bitmap _ _ _ nblocks); [lia|lia|..].
Qed.
End exported_cache.

(** ** The restored image *)

(** Bytes of the stored builds, and an image read through a mapping. *)
Definition Store : Type := uuid → Z → option Z.

Definition image_at (fetch : Store) (ms : list BuildMap) (x : Z) : option Z :=
  match content ms x with
  | Some (id, pos) => if decide (id = uuid_nil) then Some 0 else fetch id pos
  | None => None
  end.

(** The store with the file of a new build in it. *)
Definition store_add (fetch : Store) (id : uuid) (out : bytes) : Store :=
  λ id' pos, if decide (id' = id) then at_ out pos else fetch id' pos.

Lemma source_layer ms x s : source ms x = Some s → s.1 ∈ Layers ms.
Proof.
  induction ms as [|m ms IH]; [done|]. cbn [source]. unfold Layers in *. cbn [fmap list_fmap list_to_set].
  destruct (covers m x); [intros [= <-]; cbn; set_solver|]. intros Hs. specialize (IH Hs). set_solver.
Qed.

Lemma image_at_fresh fetch id out ms x :
  id ∉ Layers ms → image_at (store_add fetch id out) ms x = image_at fetch ms x.
Proof.
  intros Hid. unfold image_at, content. destruct (source ms x) as [[id' pos]|] eqn:E; [|done].
  apply source_layer in E. cbn in E |- *. unfold erase_nil. cbn.
  destruct (bool_decide (id' = uuid_nil)) eqn:Eb; [done|]. apply bool_decide_eq_false in Eb.
  rewrite !decide_False by done. unfold store_add. rewrite decide_False; [done|]. by intros ->.
Qed.

(** C2. A snapshot restores the device: for an overlay that stands for the
    array [V] over the image of a sound header, the export of its cache and
    the new header give back [V].  Unless a call of the system fails, the
    export succeeds; the header is built and is sound again; and every byte
    of the image read through the new header, with the exported file stored
    as the new build, is the byte of the device. *)
Theorem snapshot_restores {E} `{Bitmap B} (K : copier) (o : Overlay E B) D V h ms fetch id :
  (∀ ro wo n k, cfr K ro wo n = CfrCopied k → 0 <= k <= n) →
  represents o D V →
  header_ok h ms → Size (h_Metadata h) = len V →
  (∀ x, 0 <= x < len V → at_ D x = image_at fetch ms x) →
  o_blockSize o <= 2 ^ 30 → paged (o_blockSize o) →
  id ≠ uuid_nil → id ∉ Layers ms → Z.of_nat (size (table_of ms ∪ {[id]})) <= maxBuildsPerHeader →
  match ExportToDiff K (o_cache o) [] with
  | Err _ => cfr_failure K
  | Ok (d, out) =>
      ∃ h' ms', ToDiffHeader d h id = Ok h' ∧ header_ok h' ms' ∧
        ∀ x, 0 <= x < len V → image_at (store_add fetch id out) ms' x = at_ V x
  end.
Proof.
  intros Hcfr HV Hh Hsz HD Hbs Hpg Hid Hfresh Htab.
  destruct (represents_size o D V HV) as (Hpos & _ & Hbs' & Hwh & Hi).
  destruct HV as [m Hok HVm Hat]. pose proof (oo_cache _ _ _ Hok) as Hc. pose proof (oo_bs _ _ _ Hok) as Hb.
  pose proof (Z.div_mod (len V) (o_blockSize o) ltac:(lia)) as Hdm. rewrite Hwh, Z.add_0_r, HVm in Hdm.
  assert (Hm : len m = len m / o_blockSize o * c_blockSize (o_cache o)) by (rewrite Hb; lia).
  pose proof (ExportToDiff_spec K Hcfr (o_cache o) m (len m / o_blockSize o) Hc) as Hex.
  rewrite Hb in Hex. specialize (Hex Hbs ltac:(by rewrite Hb in Hm) ltac:(unfold_int; lia)).
  destruct (ExportToDiff K (o_cache o) []) as [[d out]|e]; [|done].
  destruct Hex as [Hd Hout].
  assert (Hdb : dm_BlockSize d = o_blockSize o) by (by rewrite Hd).
  assert (Hins : ∀ st i, st ≠ NotPresent → Get (c_tracker (o_cache o)) i = st →
    0 <= i ∧ (i + 1) * o_blockSize o <= len V).
  { intros st i Hst Hg. destruct (dirty_inside (o_cache o) m _ i Hc Hm) as [? ?]; [by rewrite Hg|]. nia. }
  destruct (ToDiffHeader_ok d h ms id Hh) as (h' & ms' & Hth & Hh' & _ & _ & _ & Hcon);
    rewrite ?Hdb, ?Hsz; try done; [lia| | |].
  { intros i Hi'. rewrite Hd in Hi'. apply (Hins SDirty); [done|]. by apply Get_dirty. }
  { intros i Hi'. rewrite Hd in Hi'. apply (Hins SZero); [done|]. apply Get_zero; [apply Hc|done]. }
  exists h', ms'. split_and!; [done|done|]. intros x Hx. unfold image_at at 1.
  rewrite Hcon by lia. unfold diff_at. rewrite Hdb. specialize (Hat x Hx).
  pose proof (Get_dirty (c_tracker (o_cache o)) (x / o_blockSize o)) as Hgd.
  pose proof (Get_zero (c_tracker (o_cache o)) (x / o_blockSize o) (co_disjoint _ _ Hc)) as Hgz.
  assert (HdD : Dirty d = t_dirty (c_tracker (o_cache o))) by (by rewrite Hd).
  assert (HdE : Empty d = t_zero (c_tracker (o_cache o))) by (by rewrite Hd).
  rewrite HdE. destruct (bm_contains (t_zero _) _) eqn:Ez.
  { cbn. unfold erase_nil. cbn [fst]. rewrite bool_decide_eq_true_2, decide_True by done.
    rewrite (proj2 Hgz eq_refl), decide_False in Hat by done.
    rewrite Hat. symmetry. apply (co_zero _ _ Hc); rewrite ?Hb; [|by apply Hgz].
    rewrite <- (co_len _ _ Hc). lia. }
  rewrite HdD in Hout |- *. destruct (bm_contains (t_dirty _) _) eqn:Ed.
  { cbn. unfold erase_nil. cbn [fst]. rewrite bool_decide_eq_false_2 by done.
    rewrite decide_False by done. unfold store_add. rewrite decide_True by done.
    rewrite Hout by (lia || done). rewrite Hat, (proj2 Hgd eq_refl), decide_False by done. done. }
  assert (Hnp : Get (c_tracker (o_cache o)) (x / o_blockSize o) = NotPresent).
  { destruct (Get _ _); [done|discriminate (proj1 Hgd eq_refl)|discriminate (proj1 Hgz eq_refl)]. }
  rewrite Hnp, decide_True in Hat by done. rewrite Hat, HD, <- (image_at_fresh fetch id out) by done.
  done.
Qed.

(** The image of the example header: sevens, zeros, eights. *)
Definition fill (n v : Z) : bytes := replicate (Z.to_nat n) v.
Definition snap_fetch : Store := λ id _, if decide (id = id_a) then Some 7 else Some 8.
Definition snap_image : bytes := fill 8192 7 ++ fill 4096 0 ++ fill 4096 8.
Definition snap_device : ReadonlyDevice unit := mkDevice (λ n off, Ok (slice off (off + n) snap_image)) 4096.
Definition snap_overlay : Overlay unit (gset Z) := NewOverlay snap_device (NewCache 16384 4096 (fill 16384 0) false).
Definition snap_copy (ro wo n : Z) : Cfr := if 0 <? n then CfrCopied (Z.min n 1000) else CfrUnsupported.
Definition snap_calls : copier := mkCopier true snap_copy (λ _ _ _, true).

Lemma len_fill n v : 0 <= n → len (fill n v) = n.
Proof. intros. unfold fill. rewrite len_replicate. lia. Qed.

Lemma at_fill n v x : 0 <= n → at_ (fill n v) x = if (0 <=? x) && (x <? n) then Some v else None.
Proof. intros. unfold fill. rewrite at_replicate, Z2Nat.id by lia. done. Qed.

Lemma len_snap_image : len snap_image = 16384.
Proof. unfold snap_image. rewrite !len_app, !len_fill by lia. lia. Qed.

Lemma snap_represents : represents snap_overlay snap_image snap_image.
Proof.
  assert (L0 : len (fill 16384 0) = 16384) by (rewrite len_fill; lia).
  refine (mkRepresents snap_overlay snap_image snap_image (fill 16384 0) _ _ _).
  - split; rewrite ?L0; [apply NewCache_ok; [lia|lia|exact L0]|reflexivity|reflexivity|reflexivity| |
      apply len_snap_image|intros; reflexivity].
    unfold_int; lia.
  - rewrite L0. apply len_snap_image.
  - intros x _. unfold snap_overlay. cbn [NewOverlay o_cache NewCache c_tracker].
    by rewrite Get_New, decide_True.
Qed.

Lemma snap_image_at x : 0 <= x < 16384 → at_ snap_image x = image_at snap_fetch compact_example x.
Proof.
  intros Hx. unfold snap_image, image_at, content, compact_example. cbn [source]. unfold covers. cbn [Offset Length].
  rewrite at_app, len_fill, at_fill by lia.
  destruct (Z.leb_spec 0 x), (Z.ltb_spec x (0 + 8192)), (Z.ltb_spec x 8192); try lia; cbn [andb]; [reflexivity|].
  rewrite at_app, len_fill, !at_fill by lia.
  destruct (Z.leb_spec 8192 x), (Z.ltb_spec x (8192 + 4096)),
    (Z.ltb_spec (x - 8192) 4096), (Z.leb_spec 0 (x - 8192)); try lia; cbn [andb]; [reflexivity|].
  destruct (Z.leb_spec 12288 x), (Z.ltb_spec x (12288 + 4096)),
    (Z.leb_spec 0 (x - 8192 - 4096)), (Z.ltb_spec (x - 8192 - 4096) 4096); try lia; reflexivity.
Qed.

Lemma snap_copy_bounded ro wo n k : cfr snap_calls ro wo n = CfrCopied k → 0 <= k <= n.
Proof. cbn. unfold snap_copy. destruct (Z.ltb_spec 0 n); [|discriminate]. intros [= <-]. lia. Qed.

Lemma snap_copy_works : ¬ cfr_failure snap_calls.
Proof.
  intros [|(ro & wo & n & Hn & [Hf|[Hf|Hf]])]; [done|..|done]; cbn in Hf; unfold snap_copy in Hf; destruct (Z.ltb_spec 0 n); try discriminate; try lia.
  injection Hf. lia.
Qed.

(** A block of nines over the second block, zeros over the first. *)
Definition snap_array : bytes := splice (splice snap_image 4096 (fill 4096 9)) 0 (fill 4096 0).

Lemma len_snap_array : len snap_array = 16384.
Proof.
  pose proof len_snap_image. pose proof (len_fill 4096 9 ltac:(lia)). pose proof (len_fill 4096 0 ltac:(lia)).
  unfold snap_array. rewrite !len_splice by (rewrite ?len_splice by lia; lia). lia.
Qed.

Lemma snap_array_at x : 0 <= x < 8192 →
  at_ snap_array x = if x <? 4096 then at_ (fill 4096 0) x else at_ (fill 4096 9) (x - 4096).
Proof.
  intros Hx. pose proof len_snap_image. pose proof (len_fill 4096 9 ltac:(lia)).
  pose proof (len_fill 4096 0 ltac:(lia)).
  unfold snap_array. rewrite at_splice by (rewrite ?len_splice by lia; lia). rewrite at_splice by lia.
  destruct (Z.leb_spec 0 x), (Z.ltb_spec x (0 + len (fill 4096 0))), (Z.ltb_spec x 4096),
    (Z.leb_spec 4096 x), (Z.ltb_spec x (4096 + len (fill 4096 9))); try lia; cbn [andb]; [|done].
  f_equal. lia.
Qed.

Lemma snap_written : ∃ o1 o2 : Overlay unit (gset Z),
  oWriteAt snap_overlay (fill 4096 9) 4096 = Ok (o1, 4096) ∧ oWriteZeroesAt o1 0 4096 = Ok (o2, 4096) ∧
  represents o2 snap_image snap_array ∧ o_blockSize o2 = 4096.
Proof.
  assert (L9 : len (fill 4096 9) = 4096) by (rewrite len_fill; lia).
  destruct (represents_write snap_overlay snap_image snap_image (fill 4096 9) 4096 snap_represents)
    as (o1 & E1 & R1 & B1); rewrite ?L9, ?len_snap_image in *; try lia; try reflexivity; [unfold_int; lia|].
  assert (S9 : slice 0 (4096 `min` (16384 - 4096)) (fill 4096 9) = fill 4096 9).
  { unfold slice. rewrite drop_0. apply take_ge. unfold fill. rewrite length_replicate. lia. }
  rewrite S9 in R1.
  assert (LV1 : len (splice snap_image 4096 (fill 4096 9)) = 16384)
    by (rewrite len_splice; rewrite ?len_fill, ?len_snap_image; lia).
  destruct (represents_zero o1 snap_image _ 0 4096 R1) as (o2 & E2 & R2 & B2);
    rewrite ?B1, ?LV1; try lia; try reflexivity.
  exists o1, o2. split_and!; [exact E1|exact E2|exact R2|by rewrite B2, B1].
Qed.

Lemma snapshot_restores_witness :
  ∃ (o2 : Overlay unit (gset Z)) d out h' ms',
    at_ snap_array 0 = Some 0 ∧ at_ snap_array 4096 = Some 9 ∧
    ExportToDiff snap_calls (o_cache o2) [] = Ok (d, out) ∧
    ToDiffHeader d header_example (replicate 16 3) = Ok h' ∧
    ∀ x, 0 <= x < 16384 → image_at (store_add snap_fetch (replicate 16 3) out) ms' x = at_ snap_array x.
Proof.
  destruct snap_written as (o1 & o2 & _ & _ & R2 & Hb).
  pose proof (snapshot_restores snap_calls o2 snap_image snap_array header_example compact_example snap_fetch
    (replicate 16 3) snap_copy_bounded R2 header_example_ok (eq_sym len_snap_array)) as Hs.
  rewrite len_snap_array, Hb in Hs.
  specialize (Hs snap_image_at ltac:(lia) ltac:(by exists 1) ltac:(discriminate)
    ltac:(apply (bool_decide_unpack _); vm_compute; exact I) ltac:(vm_compute; discriminate)).
  destruct (ExportToDiff snap_calls (o_cache o2) []) as [[d out]|e] eqn:Ex; [|by destruct snap_copy_works].
  destruct Hs as (h' & ms' & Hh & _ & Hat).
  exists o2, d, out, h', ms'. split_and!; [| |exact Ex|exact Hh|exact Hat]; cbn [Z.ltb].
  - rewrite snap_array_at, at_fill by lia. reflexivity.
  - rewrite snap_array_at, at_fill by lia. reflexivity.
Defined.
