(* ===== verification/Drain.v ===== *)
(** * Drain: batched vectored I/O

    Models [sandbox/block/iov.go] ([drainIovs]), [splitOversizedRanges] of
    [cache.go] and [pwritevAll] of [memfd.go]: items are grouped in batches
    the kernel accepts, ranges over the byte cap are split first, and a
    vectored write is repeated until every byte is out.  The kernel's answers
    are a list consumed one per call; an exhausted list stands for a call that
    has not returned. *)

From S2P Require Import Prelude Bytes Bitmap Blocks Tracker Export Cache Overlay Snapshot.

(** ** [iov.go] *)

Definition INT_MAX : Z := 2 ^ 31 - 1.
Definition PAGE_MASK (PAGE_SIZE : Z) : Z := Z.lnot (PAGE_SIZE - 1).
Definition MAX_RW_COUNT (PAGE_SIZE : Z) : Z := Z.land INT_MAX (PAGE_MASK PAGE_SIZE).

Example MAX_RW_COUNT_4k : MAX_RW_COUNT 4096 = 2147479552.
Proof. reflexivity. Qed.

(** The limits of the host: [os.Getpagesize()] and [sysconf(_SC_IOV_MAX)]. *)
Class Host := { PAGE_SIZE : Z; IOV_MAX : Z }.

Definition getAlignedMaxRwCount `{Host} (blockSize : Z) : Z :=
  i64 (Z.quot (MAX_RW_COUNT PAGE_SIZE) blockSize * blockSize).

Inductive drain_err (E : Type) :=
| ItemTooBig
| OpError (e : E)
| DrainFuel.
Arguments ItemTooBig {E}.
Arguments OpError {E} _.
Arguments DrainFuel {E}.

Section drain.
Context `{Host} {T : Type} (sizeOf : T → Z).

(** The inner loop: the batch from the front of [items], what is left, and
    the bytes of the batch; [n] items and [batchBytes] bytes are in it. *)
Fixpoint take_batch (maxBytes : Z) (items : list T) (n batchBytes : Z) : list T * list T * Z :=
  match items with
  | [] => ([], [], batchBytes)
  | x :: rest =>
      if (IOV_MAX <=? n) || (maxBytes <? i64 (batchBytes + sizeOf x)) then ([], items, batchBytes)
      else let '(batch, rest', bytes) := take_batch maxBytes rest (n + 1) (i64 (batchBytes + sizeOf x)) in
           (x :: batch, rest', bytes)
  end.

Section loop.
Context {S E : Type} (op : Z → list T → Z → S → result E S).

Fixpoint drain_loop (fuel : nat) (maxBytes : Z) (items : list T) (destOff : Z) (s : S)
    : result (drain_err E) S :=
  match fuel with
  | O => Err DrainFuel
  | Datatypes.S fuel =>
      match items with
      | [] => Ok s
      | _ =>
          let '(batch, rest, batchBytes) := take_batch maxBytes items 0 0 in
          match batch with
          | [] => Err ItemTooBig
          | _ => match op destOff batch batchBytes s with
                 | Err e => Err (OpError e)
                 | Ok s => drain_loop fuel maxBytes rest (i64 (destOff + batchBytes)) s
                 end
          end
      end
  end.

(** Every round takes an item, so one unit of fuel per item is enough. *)
Definition drainIovs (items : list T) (blockSize : Z) (s : S) : result (drain_err E) S :=
  drain_loop (Datatypes.S (length items)) (getAlignedMaxRwCount blockSize) items 0 s.
End loop.

Fixpoint total (items : list T) : Z :=
  match items with
  | [] => 0
  | x :: items => sizeOf x + total items
  end.

Lemma total_app l k : total (l ++ k) = total l + total k.
Proof using Type. induction l as [|x l IH]; cbn; [done|]. rewrite IH. lia. Qed.

(** An item fits a batch of its own. *)
Definition fits (maxBytes : Z) (x : T) : Prop := 0 <= sizeOf x <= maxBytes.

Lemma total_nonneg maxBytes l : Forall (fits maxBytes) l → 0 <= total l.
Proof using Type. induction 1 as [|x l [Hx _] _ IH]; cbn; lia. Qed.

Lemma take_batch_spec maxBytes items n bytes batch rest b :
  Forall (fits maxBytes) items → 0 <= bytes <= maxBytes → maxBytes < 2 ^ 31 →
  take_batch maxBytes items n bytes = (batch, rest, b) →
  items = batch ++ rest ∧ b = bytes + total batch ∧ b <= maxBytes ∧
  (0 <= n <= IOV_MAX → n + len batch <= IOV_MAX) ∧
  (n < IOV_MAX → bytes = 0 → items ≠ [] → batch ≠ []).
Proof using Type.
  intros Hf. revert n bytes batch rest b. induction Hf as [|x l [Hx Hx'] Hl IH]; intros n bytes batch rest b Hb Hm.
  { intros [= <- <- <-]. rewrite (@len_nil T). cbn [total app]. split_and!; try done; lia. }
  cbn [take_batch]. rewrite i64_id by (unfold_int; lia).
  destruct ((IOV_MAX <=? n) || (maxBytes <? bytes + sizeOf x)) eqn:Et.
  { intros [= <- <- <-]. rewrite (@len_nil T). cbn [total app]. split_and!; try done; try lia. }
  apply orb_false_iff in Et as [Et1%Z.leb_gt Et2%Z.ltb_ge].
  destruct (take_batch maxBytes l (n + 1) (bytes + sizeOf x)) as [[batch' rest'] b'] eqn:E.
  intros [= <- <- <-]. destruct (IH (n + 1) (bytes + sizeOf x) batch' rest' b' ltac:(lia) Hm E) as (-> & -> & H1 & H2 & _).
  cbn [total app]. rewrite len_cons. split_and!; try done; lia.
Qed.

(** The rule of the loop: [I done s] holds after the items [done]. *)
Lemma drainIovs_rule {S E : Type} (op : Z → list T → Z → S → result E S)
    (I : list T → S → Prop) (P : E → Prop) blockSize items s :
  1 <= IOV_MAX → 0 <= getAlignedMaxRwCount blockSize < 2 ^ 31 →
  Forall (fits (getAlignedMaxRwCount blockSize)) items → total items < 2 ^ 63 →
  I [] s →
  (∀ done batch s, I done s → batch ≠ [] → len batch <= IOV_MAX →
     total batch <= getAlignedMaxRwCount blockSize → done ++ batch `prefix_of` items →
     match op (total done) batch (total batch) s with
     | Ok s' => I (done ++ batch) s'
     | Err e => P e
     end) →
  match drainIovs op items blockSize s with
  | Ok s' => I items s'
  | Err (OpError e) => P e
  | Err _ => False
  end.
Proof using Type.
  intros Hiov Hmax Hf Htot HI Hop. unfold drainIovs. set (maxBytes := getAlignedMaxRwCount blockSize) in *.
  assert (Hloop : ∀ fuel todo done s, (length todo < fuel)%nat → items = done ++ todo → I done s →
    match drain_loop op fuel maxBytes todo (total done) s with
    | Ok s' => I items s'
    | Err (OpError e) => P e
    | Err _ => False
    end).
  { induction fuel as [|fuel IH]; intros todo dn s0 Hk Hitems HI0; [lia|].
    cbn [drain_loop]. destruct todo as [|x todo]; [by rewrite Hitems, app_nil_r|].
    destruct (take_batch maxBytes (x :: todo) 0 0) as [[batch rest] b] eqn:Etb.
    assert (Hf' : Forall (fits maxBytes) (x :: todo)) by (rewrite Hitems, Forall_app in Hf; apply Hf).
    destruct (take_batch_spec maxBytes (x :: todo) 0 0 batch rest b Hf' ltac:(lia) ltac:(lia) Etb) as (Ei & Eb & Hb & Hn & Hne).
    specialize (Hne ltac:(lia) eq_refl ltac:(done)). specialize (Hn ltac:(lia)).
    destruct batch as [|y batch]; [done|]. set (bt := y :: batch) in *.
    rewrite Z.add_0_l in Eb. subst b.
    specialize (Hop dn bt s0 HI0 Hne ltac:(lia) ltac:(lia)).
    destruct (op (total dn) bt (total bt) s0) as [s1|e].
    - assert (Hd : 0 <= total dn ∧ 0 <= total bt ∧ total dn + total bt < 2 ^ 63).
      { rewrite Hitems, Ei in Hf, Htot. rewrite !total_app in Htot. apply Forall_app in Hf as [Hf1 Hf2].
        apply Forall_app in Hf2 as [Hf2 Hf3]. apply total_nonneg in Hf1, Hf2, Hf3. lia. }
      rewrite i64_id by (unfold_int; lia). rewrite <- total_app. apply IH.
      + apply (f_equal length) in Ei. rewrite length_app in Ei. cbn in Ei, Hk. lia.
      + by rewrite Hitems, Ei, app_assoc.
      + apply Hop. exists rest. by rewrite Hitems, Ei, app_assoc.
    - apply Hop. exists rest. by rewrite Hitems, Ei, app_assoc. }
  apply (Hloop _ items [] s); [lia|done|done].
Qed.
End drain.

(** ** [splitOversizedRanges] *)

(** The pieces of one range from [offset] on; each takes [maxSize] bytes. *)
Fixpoint split_range (fuel : nat) (r : Range) (maxSize offset : Z) : list Range :=
  match fuel with
  | O => []
  | S fuel =>
      if offset <? RSize r then
        mkBlockRange (i64 (Start r + offset)) (Z.min (i64 (RSize r - offset)) maxSize)
          :: split_range fuel r maxSize (i64 (offset + maxSize))
      else []
  end.

Definition splitOversizedRanges (ranges : list Range) (maxSize : Z) : list Range :=
  concat ((λ r, if RSize r <=? maxSize then [r] else split_range (Z.to_nat (RSize r)) r maxSize 0) <$> ranges).

Section flat.
(** What reading [n] bytes at [off] gives, of any memory that is read in parts
    as it is read at once. *)
Context (read : Z → Z → bytes).
Hypothesis read_split : ∀ off a b, 0 <= off → 0 <= a → 0 <= b → read off (a + b) = read off a ++ read (off + a) b.

Definition flat (rs : list Range) : bytes := concat ((λ r, read (Start r) (RSize r)) <$> rs).

Lemma flat_app l k : flat (l ++ k) = flat l ++ flat k.
Proof using Type. unfold flat. by rewrite fmap_app, concat_app. Qed.

Definition range_ok (r : Range) : Prop := 0 <= Start r ∧ 0 <= RSize r ∧ Start r + RSize r < 2 ^ 62.

(** [p] lies inside one of the ranges. *)
Definition inside (rs : list Range) (p : Range) : Prop :=
  ∃ r, r ∈ rs ∧ Start r <= Start p ∧ Start p + RSize p <= Start r + RSize r.

Lemma read_nil off : 0 <= off → read off 0 = [].
Proof using read_split.
  intros Ho. pose proof (read_split off 0 0 Ho ltac:(lia) ltac:(lia)) as E.
  rewrite !Z.add_0_r in E. apply (f_equal length) in E. rewrite length_app in E.
  destruct (read off 0); [done|cbn in E; lia].
Qed.

Lemma split_range_spec fuel r maxSize offset :
  range_ok r → 0 < maxSize < 2 ^ 31 → 0 <= offset → RSize r - offset <= Z.of_nat fuel * maxSize →
  let ps := split_range fuel r maxSize offset in
  flat ps = read (Start r + Z.min offset (RSize r)) (RSize r - Z.min offset (RSize r)) ∧
  Forall (λ p, 0 < RSize p <= maxSize ∧ range_ok p ∧
    Start r + offset <= Start p ∧ Start p + RSize p <= Start r + RSize r) ps ∧
  total RSize ps = RSize r - Z.min offset (RSize r).
Proof using read_split.
  intros (H1 & H2 & H3) Hm. revert offset. induction fuel as [|fuel IH]; intros offset Ho Hf; cbn [split_range].
  { rewrite Z.min_r, Z.sub_diag by lia. unfold flat. cbn. rewrite read_nil by lia. auto. }
  destruct (Z.ltb_spec offset (RSize r)).
  - rewrite !i64_id by (unfold_int; lia).
    destruct (IH (offset + maxSize)) as (Hfl & Hall & Htot); [lia|lia|].
    cbv zeta in *. rewrite (Z.min_l offset) by lia. split_and!.
    + unfold flat in *. cbn [fmap list_fmap concat Start RSize]. rewrite Hfl.
      replace (RSize r - offset) with (Z.min (RSize r - offset) maxSize +
        (RSize r - Z.min (offset + maxSize) (RSize r))) at 2 by lia.
      rewrite read_split by lia. do 2 f_equal. lia.
    + constructor.
      * unfold range_ok. cbn. lia.
      * eapply Forall_impl; [exact Hall|]. cbv beta. unfold range_ok. intros p. lia.
    + cbn [total RSize]. rewrite Htot. lia.
  - rewrite Z.min_r, Z.sub_diag by lia. unfold flat. cbn. rewrite read_nil by lia. auto.
Qed.

(** Splitting keeps the bytes, in order, and bounds every piece. *)
Lemma split_spec rs maxSize :
  Forall range_ok rs → 0 < maxSize < 2 ^ 31 →
  let ps := splitOversizedRanges rs maxSize in
  flat ps = flat rs ∧ Forall (fits RSize maxSize) ps ∧ Forall range_ok ps ∧ Forall (inside rs) ps ∧
  total RSize ps = total RSize rs ∧
  (Forall (λ r, 0 < RSize r) rs → Forall (λ r, 0 < RSize r) ps).
Proof using read_split.
  intros Hrs Hm. unfold splitOversizedRanges. induction Hrs as [|r rs Hr Hrs IH]; [done|].
  cbn [fmap list_fmap concat] in *. cbv zeta in *. destruct IH as (H1 & H2 & H3 & H4 & H5 & H6).
  assert (Hin : Forall (inside (r :: rs)) (concat ((λ r, if RSize r <=? maxSize then [r]
      else split_range (Z.to_nat (RSize r)) r maxSize 0) <$> rs))).
  { eapply Forall_impl; [exact H4|]. intros p (q & Hq & ?). exists q. split; [by right|done]. }
  destruct (Z.leb_spec (RSize r) maxSize).
  - split_and!.
    + rewrite flat_app, H1. unfold flat. cbn [fmap list_fmap concat]. by rewrite app_nil_r.
    + constructor; [|exact H2]. destruct Hr as (? & ? & ?). unfold fits. lia.
    + by constructor.
    + constructor; [|exact Hin]. exists r. split; [left|lia].
    + rewrite total_app, H5. cbn [total]. lia.
    + intros [? ?]%Forall_cons. constructor; auto.
  - assert (Hr' := Hr). destruct Hr' as (? & ? & ?).
    destruct (split_range_spec (Z.to_nat (RSize r)) r maxSize 0 Hr Hm) as (E & Hall & Htot); [lia|nia|].
    cbv zeta in *. rewrite Z.min_l, Z.add_0_r, Z.sub_0_r in * by lia. split_and!.
    + rewrite flat_app, H1, E. done.
    + apply Forall_app. split; [|exact H2]. eapply Forall_impl; [exact Hall|]. cbv beta. unfold fits. lia.
    + apply Forall_app. split; [|exact H3]. eapply Forall_impl; [exact Hall|]. cbv beta. tauto.
    + apply Forall_app. split; [|exact Hin]. eapply Forall_impl; [exact Hall|]. cbv beta.
      intros p (_ & _ & ? & ?). exists r. split; [left|lia].
    + rewrite total_app, H5, Htot. done.
    + intros [? ?]%Forall_cons. apply Forall_app. split; [|auto].
      eapply Forall_impl; [exact Hall|]. cbv beta. tauto.
Qed.
End flat.

(** ** [pwritevAll] *)

Inductive PwRes := PwIntr | PwErr | PwWrote (n : Z).

#[global] Instance PwRes_eq_dec : EqDecision PwRes.
Proof. solve_decision. Defined.

Inductive pw_err := PwFailed | PwNoProgress | PwPending.

Fixpoint drop_empty (iovs : list bytes) : list bytes :=
  match iovs with
  | [] :: iovs => drop_empty iovs
  | _ => iovs
  end.

Fixpoint advance (n : Z) (iovs : list bytes) : list bytes :=
  match iovs with
  | [] => []
  | v :: rest =>
      if 0 <? n then
        if len v <=? n then advance (n - len v) rest else drop (Z.to_nat n) v :: rest
      else iovs
  end.

(** The answers left, the file, and how the call ended.  The kernel writes at
    most what it is given, from the front of the vector. *)
Fixpoint pwritevAll (answers : list PwRes) (file : bytes) (off : Z) (iovs : list bytes)
    : list PwRes * bytes * result pw_err unit :=
  match drop_empty iovs with
  | [] => (answers, file, Ok ())
  | iovs =>
      match answers with
      | [] => ([], file, Err PwPending)
      | PwIntr :: answers => pwritevAll answers file off iovs
      | PwErr :: answers => (answers, file, Err PwFailed)
      | PwWrote n :: answers =>
          let n := Z.min n (len (concat iovs)) in
          if n =? 0 then (answers, file, Err PwNoProgress)
          else pwritevAll answers (pwrite file off (slice 0 n (concat iovs))) (i64 (off + n)) (advance n iovs)
      end
  end.

Lemma concat_drop_empty iovs : concat (drop_empty iovs) = concat iovs.
Proof. induction iovs as [|[|b v] iovs IH]; cbn; done. Qed.

Lemma slice_app_l (v l : bytes) n : 0 <= n → n <= len v → slice n (len (v ++ l)) (v ++ l) = slice n (len v) v ++ l.
Proof.
  intros Hn Hv. unfold slice, len in *. rewrite length_app, drop_app_le by lia.
  rewrite !take_ge; [done|rewrite length_drop; lia|rewrite length_app, length_drop; lia].
Qed.

Lemma slice_to_end {A} (l : list A) n : 0 <= n → slice n (len l) l = drop (Z.to_nat n) l.
Proof. intros. unfold slice, len. apply take_ge. rewrite length_drop. lia. Qed.

Lemma concat_advance iovs n : 0 <= n → n <= len (concat iovs) →
  concat (advance n iovs) = drop (Z.to_nat n) (concat iovs).
Proof.
  revert n. induction iovs as [|v iovs IH]; intros n Hn Hl; cbn [advance concat].
  { by rewrite drop_nil. }
  cbn [concat] in Hl. rewrite len_app in Hl.
  destruct (Z.ltb_spec 0 n); [|assert (n = 0) as -> by lia; done].
  destruct (Z.leb_spec (len v) n).
  - rewrite IH by lia. rewrite drop_app_ge by (unfold len in *; lia). f_equal. unfold len in *. lia.
  - cbn [concat]. rewrite drop_app_le by (unfold len in *; lia). done.
Qed.

Lemma at_drop (l : bytes) n x : 0 <= n → 0 <= x → at_ (drop (Z.to_nat n) l) x = at_ l (n + x).
Proof.
  intros. unfold at_. destruct (Z.ltb_spec x 0), (Z.ltb_spec (n + x) 0); try lia.
  rewrite lookup_drop. f_equal. lia.
Qed.

Lemma at_neg (l : bytes) x : x < 0 → at_ l x = None.
Proof. intros. unfold at_. destruct (Z.ltb_spec x 0); [done|lia]. Qed.

Lemma at_ge (l : bytes) x : len l <= x → at_ l x = None.
Proof. intros. destruct (at_ l x) eqn:E; [apply at_Some in E; lia|done]. Qed.

Lemma at_pwrite f off b x : 0 <= off → 0 <= x →
  at_ (pwrite f off b) x =
    if (off <=? x) && (x <? off + len b) then at_ b (x - off)
    else if (len f <=? x) && (x <? off) then Some 0 else at_ f x.
Proof.
  intros Ho Hx. unfold pwrite. set (f' := f ++ replicate (Z.to_nat (off - len f)) 0).
  assert (Hl' : len f' = Z.max off (len f)) by (unfold f'; rewrite len_app, len_replicate; lia).
  assert (Hf' : at_ f' x = if (len f <=? x) && (x <? off) then Some 0 else at_ f x).
  { unfold f'. rewrite at_app, at_replicate by lia. pose proof (at_ge f x).
    destruct (Z.ltb_spec x (len f)), (Z.leb_spec (len f) x), (Z.ltb_spec x off), (Z.leb_spec 0 (x - len f)),
      (Z.ltb_spec (x - len f) (Z.of_nat (Z.to_nat (off - len f)))); cbn; try lia; try done; by rewrite H. }
  rewrite <- Hf'. pose proof (len_nonneg b). rewrite at_app, len_slice, Z.sub_0_r by lia.
  destruct (Z.ltb_spec x off), (Z.leb_spec off x); try lia; cbn [andb].
  { rewrite at_slice by lia. f_equal. }
  rewrite at_app by lia. destruct (Z.ltb_spec (x - off) (len b)), (Z.ltb_spec x (off + len b)); try lia; [done|].
  rewrite at_drop by lia. f_equal. lia.
Qed.

Lemma len_pwrite f off b : 0 <= off → len (pwrite f off b) = Z.max (Z.max off (len f)) (off + len b).
Proof.
  intros Ho. unfold pwrite. set (f' := f ++ replicate (Z.to_nat (off - len f)) 0).
  assert (Hl' : len f' = Z.max off (len f)) by (unfold f'; rewrite len_app, len_replicate; lia).
  pose proof (len_nonneg b). rewrite !len_app, len_slice by lia.
  assert (Hd : len (drop (Z.to_nat (off + len b)) f') = Z.max 0 (len f' - (off + len b))).
  { unfold len in *. rewrite length_drop. lia. }
  rewrite Hd. lia.
Qed.

(** Consecutive writes are one write. *)
Lemma pwrite_pwrite f off a b : 0 <= off → pwrite (pwrite f off a) (off + len a) b = pwrite f off (a ++ b).
Proof.
  intros Ho. pose proof (len_nonneg a). pose proof (len_nonneg b). apply at_ext. intros x.
  destruct (Z.lt_ge_cases x 0); [by rewrite !at_neg|].
  rewrite !at_pwrite, len_pwrite, len_app by lia.
  destruct (Z.leb_spec (off + len a) x), (Z.ltb_spec x (off + len a + len b)), (Z.leb_spec off x),
    (Z.ltb_spec x (off + (len a + len b))), (Z.ltb_spec x (off + len a)); cbn [andb]; try lia.
  - rewrite at_app by lia. destruct (Z.ltb_spec (x - off) (len a)); [lia|]. f_equal. lia.
  - destruct (Z.leb_spec (Z.max (Z.max off (len f)) (off + len a)) x); cbn [andb]; [|done].
    destruct (Z.ltb_spec x (off + len a)), (Z.leb_spec (len f) x), (Z.ltb_spec x off); done || lia.
  - destruct (Z.leb_spec (Z.max (Z.max off (len f)) (off + len a)) x); cbn [andb]; [lia|].
    rewrite at_app by lia. destruct (Z.ltb_spec (x - off) (len a)); [done|lia].
  - destruct (Z.leb_spec (Z.max (Z.max off (len f)) (off + len a)) x); cbn [andb]; [lia|done].
Qed.

Lemma pwrite_nil f : pwrite f (len f) [] = f.
Proof. rewrite pwrite_append. apply app_nil_r. Qed.

(** Counts are not negative. *)
Definition answer_ok (a : PwRes) : Prop := match a with PwWrote n => 0 <= n | _ => True end.

(** Answers other than [EINTR]. *)
Definition settled (answers : list PwRes) : Z := len (filter (λ a, a ≠ PwIntr) answers).

Lemma pwrite_empty f off : 0 <= off <= len f → pwrite f off [] = f.
Proof.
  intros Ho. apply at_ext. intros x. destruct (Z.lt_ge_cases x 0); [by rewrite !at_neg|].
  rewrite at_pwrite, len_nil by lia.
  destruct (Z.leb_spec off x), (Z.ltb_spec x (off + 0)), (Z.leb_spec (len f) x), (Z.ltb_spec x off);
    cbn [andb]; done || lia.
Qed.

Lemma pwritevAll_spec answers file off iovs :
  0 <= off <= len file → off + len (concat iovs) < 2 ^ 63 → Forall answer_ok answers →
  match pwritevAll answers file off iovs with
  | (_, file', Ok _) => file' = pwrite file off (concat iovs)
  | (_, file', Err e) =>
      (∃ k, 0 <= k < len (concat iovs) ∧ file' = pwrite file off (slice 0 k (concat iovs))) ∧
      match e with
      | PwFailed => PwErr ∈ answers
      | PwNoProgress => PwWrote 0 ∈ answers
      | PwPending => settled answers < len (concat iovs)
      end
  end.
Proof.
  intros Ho Hb Ha. revert file off iovs Ho Hb. induction Ha as [|a answers Hok Ha IH]; intros file off iovs Ho Hb;
    cbn [pwritevAll]; rewrite <- (concat_drop_empty iovs) in Hb |- *.
  - destruct (drop_empty iovs) as [|v vs] eqn:Ev; [by rewrite pwrite_empty|].
    assert (Hpos : 0 < len (concat (v :: vs))).
    { rewrite <- Ev. clear -Ev. induction iovs as [|[|y w] iovs IH]; [done|by apply IH|]. injection Ev as <- <-.
      cbn. rewrite len_cons. pose proof (len_nonneg (w ++ concat iovs)). lia. }
    split; [exists 0; split; [lia|]|change (settled []) with 0; lia].
    unfold slice. rewrite Z.sub_diag. cbn [Z.to_nat take]. by rewrite pwrite_empty.
  - destruct (drop_empty iovs) as [|v vs] eqn:Ev; [by rewrite pwrite_empty|].
    assert (Hpos : 0 < len (concat (v :: vs))).
    { rewrite <- Ev. clear -Ev. induction iovs as [|[|y w] iovs IH]; [done|by apply IH|]. injection Ev as <- <-.
      cbn. rewrite len_cons. pose proof (len_nonneg (w ++ concat iovs)). lia. }
    assert (H0 : slice 0 0 (concat (v :: vs)) = []) by done.
    assert (Hset : settled (a :: answers) = (match a with PwIntr => 0 | _ => 1 end) + settled answers).
    { unfold settled. destruct a; [rewrite filter_cons_False by auto|rewrite filter_cons_True, len_cons by done..]; lia. }
    set (iv := v :: vs) in *. clearbody iv. destruct a as [| |n].
    + specialize (IH file off iv Ho Hb). destruct (pwritevAll answers file off iv) as [[? f'] [[]|e]]; [done|].
      destruct IH as [IH1 IH2]. split; [done|]. destruct e; [by right|by right|lia].
    + split; [exists 0; rewrite H0, pwrite_empty by lia; split; [lia|done]|left].
    + cbn in Hok. set (k := Z.min n (len (concat iv))).
      destruct (Z.eqb_spec k 0) as [Hk|Hk].
      { assert (n = 0) as -> by lia. split; [exists 0; rewrite H0, pwrite_empty by lia; split; [lia|done]|left]. }
      assert (Hk' : 0 < k <= len (concat iv)) by lia. rewrite i64_id by (unfold_int; lia).
      assert (Hlk : len (slice 0 k (concat iv)) = k) by (rewrite len_slice; lia).
      assert (Hadv : concat (advance k iv) = slice k (len (concat iv)) (concat iv)).
      { rewrite concat_advance by lia. by rewrite slice_to_end by lia. }
      assert (Hla : len (concat (advance k iv)) = len (concat iv) - k) by (rewrite Hadv, len_slice; lia).
      specialize (IH (pwrite file off (slice 0 k (concat iv))) (off + k) (advance k iv)).
      rewrite Hla, len_pwrite, Hlk in IH by lia. specialize (IH ltac:(lia) ltac:(lia)).
      assert (Hjoin : ∀ j, k <= j <= len (concat iv) →
        pwrite (pwrite file off (slice 0 k (concat iv))) (off + k) (slice k j (concat iv)) =
        pwrite file off (slice 0 j (concat iv))).
      { intros j Hj. rewrite <- Hlk at 2. rewrite pwrite_pwrite, slice_glue by lia. done. }
      destruct (pwritevAll answers _ _ _) as [[? f'] [[]|e]].
      * rewrite IH, Hadv, Hjoin by lia. f_equal. unfold slice. rewrite drop_0.
        rewrite take_ge; [done|]. unfold len. lia.
      * destruct IH as [(j & Hj & ->) IH2]. split.
        -- exists (k + j). split; [lia|]. rewrite <- (Hjoin (k + j)) by lia. f_equal. rewrite Hadv.
           unfold slice. rewrite drop_0, Z.sub_0_r. rewrite (take_ge _ (Z.to_nat (len _ - k))).
           ++ f_equal. lia.
           ++ unfold len. rewrite length_drop. lia.
        -- destruct e; [by right|by right|lia].
Qed.

(** What a call that returns takes from the answers. *)
Lemma pwritevAll_answers answers file off iovs a' f' :
  Forall answer_ok answers → pwritevAll answers file off iovs = (a', f', Ok ()) →
  a' `suffix_of` answers ∧ settled answers <= settled a' + len (concat iovs).
Proof.
  intros Ha. revert file off iovs. induction Ha as [|a answers Hok Ha IH]; intros file off iovs; cbn [pwritevAll];
    rewrite <- (concat_drop_empty iovs); pose proof (len_nonneg (concat (drop_empty iovs)));
    destruct (drop_empty iovs) as [|v vs]; try done; try (intros [= <- <-]; split; [done|lia]).
  assert (Hset : settled (a :: answers) = (match a with PwIntr => 0 | _ => 1 end) + settled answers).
  { unfold settled. destruct a; [rewrite filter_cons_False by auto|rewrite filter_cons_True, len_cons by done..]; lia. }
  destruct a as [| |n]; [|done|].
  - intros [? ?]%IH. split; [by apply suffix_cons_r|lia].
  - set (k := Z.min n (len (concat (v :: vs)))) in *. destruct (Z.eqb_spec k 0); [done|]. cbn in Hok.
    intros [Hs Hc]%IH. split; [by apply suffix_cons_r|].
    rewrite concat_advance in Hc by lia. unfold len in Hc at 1. rewrite length_drop in Hc. unfold len in *. lia.
Qed.

(** ** Properties *)

(** C21. [pwritevAll] writes every byte of the vector, in order and at its
    place, however the kernel interrupts the calls and whatever short counts
    it returns.  It fails only on an error, on a call that writes nothing, or
    while calls are outstanding; one settled call per byte is enough for it to
    return; and what it has written by then is a front part of the vector. *)
Theorem pwritevAll_complete answers file off iovs :
  0 <= off <= len file → off + len (concat iovs) < 2 ^ 63 → Forall answer_ok answers →
  match pwritevAll answers file off iovs with
  | (_, file', Ok _) => file' = pwrite file off (concat iovs)
  | (_, file', Err e) =>
      (∃ k, 0 <= k < len (concat iovs) ∧ file' = pwrite file off (slice 0 k (concat iovs))) ∧
      match e with
      | PwFailed => PwErr ∈ answers
      | PwNoProgress => PwWrote 0 ∈ answers
      | PwPending => settled answers < len (concat iovs)
      end
  end.
Proof. apply pwritevAll_spec. Qed.

Lemma pwritevAll_complete_witness :
  pwritevAll [PwWrote 1; PwIntr; PwWrote 3; PwWrote 9] [0; 0] 1 [[1; 2]; []; [3; 4; 5]] =
    ([], pwrite [0; 0] 1 (concat [[1; 2]; []; [3; 4; 5]]), Ok ()) ∧
  pwrite [0; 0] 1 (concat [[1; 2]; []; [3; 4; 5]]) = [0; 1; 2; 3; 4; 5].
Proof.
  split; [|reflexivity].
  pose proof (pwritevAll_complete [PwWrote 1; PwIntr; PwWrote 3; PwWrote 9] [0; 0] 1 [[1; 2]; []; [3; 4; 5]]
    ltac:(unfold len; cbn; lia) ltac:(unfold len; cbn; lia) ltac:(repeat constructor; cbn; lia)) as Hp.
  destruct (pwritevAll _ _ _ _) as [[a f] r] eqn:E. vm_compute in E. injection E as <- <- <-.
  rewrite <- Hp. reflexivity.
Defined.

(** A batch writer that logs its calls. *)
Definition log_batch {T} (off : Z) (batch : list T) (n : Z) (l : list (Z * list T * Z))
    : result unit (list (Z * list T * Z)) := Ok (l ++ [(off, batch, n)]).

(** Calls in order: no empty batch, within both limits, at the running sum. *)
Fixpoint calls_ok `{Host} {T} (sizeOf : T → Z) (maxBytes off : Z) (l : list (Z * list T * Z)) : Prop :=
  match l with
  | [] => True
  | (o, batch, n) :: l =>
      o = off ∧ batch ≠ [] ∧ len batch <= IOV_MAX ∧ n = total sizeOf batch ∧ n <= maxBytes ∧
      calls_ok sizeOf maxBytes (off + n) l
  end.

Lemma calls_ok_snoc `{Host} {T} (sizeOf : T → Z) maxBytes off l batch :
  calls_ok sizeOf maxBytes off l → batch ≠ [] → len batch <= IOV_MAX → total sizeOf batch <= maxBytes →
  calls_ok sizeOf maxBytes off (l ++ [(off + total sizeOf (concat ((λ c, c.1.2) <$> l)), batch, total sizeOf batch)]).
Proof.
  revert off. induction l as [|[[o b] n] l IH]; intros off; cbn [calls_ok app fmap list_fmap concat fst snd].
  { cbn [total]. intros. split_and!; auto; lia. }
  intros (-> & H1 & H2 & -> & H3 & H4) H5 H6 H7. split_and!; try done.
  rewrite total_app, Z.add_assoc. by apply IH.
Qed.

(** [drainIovs] hands every item to the operation exactly once and in
    order, in non-empty batches that respect both the limit on the number of
    vectors and the limit on bytes, each at the sum of the bytes before it;
    it always ends, and with no error of its own if no single item is over
    the limit. *)
Theorem drainIovs_delivers `{Host} {T} (sizeOf : T → Z) blockSize items :
  1 <= IOV_MAX → 0 <= getAlignedMaxRwCount blockSize < 2 ^ 31 →
  Forall (fits sizeOf (getAlignedMaxRwCount blockSize)) items → total sizeOf items < 2 ^ 63 →
  ∃ l, drainIovs sizeOf log_batch items blockSize [] = Ok l ∧
    concat ((λ c, c.1.2) <$> l) = items ∧ calls_ok sizeOf (getAlignedMaxRwCount blockSize) 0 l.
Proof.
  intros Hiov Hmax Hf Htot.
  pose proof (drainIovs_rule sizeOf log_batch
    (λ dn l, concat ((λ c, c.1.2) <$> l) = dn ∧ calls_ok sizeOf (getAlignedMaxRwCount blockSize) 0 l)
    (λ _, False) blockSize items [] Hiov Hmax Hf Htot) as Hr.
  destruct (drainIovs sizeOf log_batch items blockSize []) as [l|e].
  - exists l. split; [done|]. apply Hr; [done|].
    intros dn batch s [Hc Hl] Hne Hlen Hb _. cbn. split; [by rewrite fmap_app, concat_app, Hc; cbn; rewrite app_nil_r|].
    rewrite <- Hc. apply (calls_ok_snoc sizeOf _ 0); done.
  - exfalso. destruct e; apply Hr; try done;
      intros dn batch s [Hc Hl] Hne Hlen Hb _; cbn;
      (split; [by rewrite fmap_app, concat_app, Hc; cbn; rewrite app_nil_r|]);
      rewrite <- Hc; apply (calls_ok_snoc sizeOf _ 0); done.
Qed.

Definition small_host : Host := {| PAGE_SIZE := 4096; IOV_MAX := 2 |}.

Lemma drainIovs_delivers_witness :
  drainIovs (H:=small_host) id log_batch [5; 7; 2 ^ 31 - 4096; 1] 4096 [] =
    Ok [(0, [5; 7], 12); (12, [2 ^ 31 - 4096], 2 ^ 31 - 4096); (2 ^ 31 - 4084, [1], 1)] ∧
  ∃ l, drainIovs (H:=small_host) id log_batch [5; 7; 2 ^ 31 - 4096; 1] 4096 [] = Ok l ∧
    concat ((λ c, c.1.2) <$> l) = [5; 7; 2 ^ 31 - 4096; 1].
Proof.
  split; [vm_compute; reflexivity|].
  destruct (@drainIovs_delivers small_host Z id 4096 [5; 7; 2 ^ 31 - 4096; 1]) as (l & H1 & H2 & _).
  - cbn. lia.
  - vm_compute. split; congruence.
  - repeat constructor; vm_compute; congruence.
  - vm_compute. reflexivity.
  - exists l. split; [exact H1|exact H2].
Defined.

(** [splitOversizedRanges] reads the same bytes in the same order, whatever
    the memory; its pieces are at most the cap, lie inside the given ranges
    and add up to the same size. *)
Theorem splitOversizedRanges_exact (read : Z → Z → bytes) rs maxSize :
  (∀ off a b, 0 <= off → 0 <= a → 0 <= b → read off (a + b) = read off a ++ read (off + a) b) →
  Forall range_ok rs → 0 < maxSize < 2 ^ 31 →
  let ps := splitOversizedRanges rs maxSize in
  flat read ps = flat read rs ∧ Forall (λ p, RSize p <= maxSize) ps ∧ Forall (inside rs) ps ∧
  total RSize ps = total RSize rs.
Proof.
  intros Hread Hrs Hm. destruct (split_spec read Hread rs maxSize Hrs Hm) as (H1 & H2 & _ & H4 & H5 & _).
  split_and!; try done. eapply Forall_impl; [exact H2|]. intros p [_ Hp]. exact Hp.
Qed.

Lemma splitOversizedRanges_exact_witness :
  splitOversizedRanges [mkBlockRange 10 5; mkBlockRange 40 1] 2 =
    [mkBlockRange 10 2; mkBlockRange 12 2; mkBlockRange 14 1; mkBlockRange 40 1] ∧
  flat (λ off n, slice off (off + n) (seqZ 0 64)) (splitOversizedRanges [mkBlockRange 10 5; mkBlockRange 40 1] 2) =
    [10; 11; 12; 13; 14; 40].
Proof.
  split; [vm_compute; reflexivity|].
  destruct (splitOversizedRanges_exact (λ off n, slice off (off + n) (seqZ 0 64))
    [mkBlockRange 10 5; mkBlockRange 40 1] 2) as [E _].
  - intros off a b Ho Ha Hb. rewrite Z.add_assoc, slice_glue by lia. done.
  - repeat constructor; cbn; lia.
  - lia.
  - rewrite E. vm_compute. reflexivity.
Defined.
