(* ===== verification/Fill.v ===== *)
(** * Fill: caches packed from memory

    Models the three ways a snapshot's memory gets into a cache: page by page
    through [drainDirtyPages] and [dedupDrain], with [process_vm_readv] in
    [copyProcessMemory] (all in [sandbox/block/cache.go]), and from a shared
    memory file in [copyFromMemfd] ([memfd.go]).  All three store the dirty
    ranges one after another; the theorems say that a cache they return holds
    exactly the packed bytes and has every block present. *)

From S2P Require Import Prelude Bytes Bitmap Blocks Header Export Tracker Cache Overlay Snapshot Drain.

(** ** Full caches *)

(** A file of [size] bytes, cut or filled with zeros. *)
Definition truncate (file : bytes) (size : Z) : bytes :=
  slice 0 size (file ++ replicate (Z.to_nat (size - len file)) 0).

(** A cache that holds [data], every block of it present. *)
Record full `{Bitmap B} (c : Cache B) (data : bytes) : Prop := {
  fl_size : c_size c = len data;
  fl_nil : data = [] → c_mmap c = None;
  fl_ok : data ≠ [] → cache_ok c data;
  fl_present i : 0 <= i → i * c_blockSize c < len data → Get (c_tracker c) i = SDirty
}.

Lemma setIsCached_ok `{Bitmap B} (c : Cache B) m off n :
  cache_ok c m → off mod c_blockSize c = 0 → 0 <= off → 0 < n → off + n <= c_size c →
  (off + n) mod c_blockSize c = 0 ∨ off + n = c_size c → is_i64 (c_size c) →
  cache_ok (setIsCached c off n) m ∧
  ∀ i, Get (c_tracker (setIsCached c off n)) i =
    if (off <=? i * c_blockSize c) && (i * c_blockSize c <? off + n) then SDirty else Get (c_tracker c) i.
Proof.
  intros Hok Hm Ho Hn Hle Hcut Hi. pose proof (co_bs _ _ Hok) as Hbs. unfold setIsCached.
  rewrite i64_id by (unfold_int; lia). cbn [c_tracker].
  destruct (block_index_val (c_blockSize c) (c_size c) off) as [-> Hu1]; [done|apply Hok|lia|].
  destruct (block_ceil_val (c_blockSize c) (c_size c) (off + n)) as (-> & Hu2 & _); [done|apply Hok|lia|].
  split.
  - rewrite (co_mmap _ _ Hok). apply (mark_ok c m m off (off + n) SDirty); try done; lia.
  - intros i. rewrite Get_SetRange by done. by rewrite (run_range c m Hok) by lia.
Qed.

Lemma cache_ok_fresh `{Bitmap B} bs data :
  0 < bs < 2 ^ 31 → 0 < len data <= bs * (2 ^ 32 - 1) →
  cache_ok (NewCache (B:=B) (len data) bs data false) data.
Proof.
  intros Hbs Hl. split; cbn; try done; try lia.
  - destruct (Z.eqb_spec (len data) 0); [lia|done].
  - apply NewTracker_disjoint.
  - intros i. by rewrite Get_New.
  - intros x _. by rewrite Get_New.
Qed.

(** The fresh cache of [data], marked present: what [dedupDrain] returns. *)
Lemma full_marked `{Bitmap B} bs data :
  0 < bs < 2 ^ 31 → len data <= bs * (2 ^ 32 - 1) → is_i64 (len data) →
  full (setIsCached (NewCache (B:=B) (len data) bs data false) 0 (len data)) data.
Proof.
  intros Hbs Hl Hi. pose proof (len_nonneg data).
  destruct (decide (data = [])) as [->|Hne].
  { split; try done. intros i Hi0. rewrite len_nil. cbn [setIsCached NewCache c_blockSize]. nia. }
  assert (0 < len data) by (destruct data; [done|rewrite len_cons in *; pose proof (len_nonneg data); lia]).
  destruct (setIsCached_ok (NewCache (B:=B) (len data) bs data false) data 0 (len data)) as [Hok Hg];
    cbn [NewCache c_blockSize c_size]; try done; try lia; [by apply cache_ok_fresh|].
  split; try done. intros i Hi0 Hi1. rewrite Hg. cbn [setIsCached NewCache c_blockSize] in *.
  destruct (Z.leb_spec 0 (i * bs)), (Z.ltb_spec (i * bs) (0 + len data)); done || nia.
Qed.

Lemma truncate_all data : truncate data (len data) = data.
Proof.
  unfold truncate. rewrite Z.sub_diag. cbn [Z.to_nat replicate]. rewrite app_nil_r.
  unfold slice. rewrite drop_0. apply take_ge. unfold len. lia.
Qed.

Lemma truncate_pwrite f data : truncate (pwrite f 0 data) (len data) = data.
Proof.
  pose proof (len_nonneg data). pose proof (len_nonneg f).
  unfold truncate. rewrite (len_pwrite f 0 data) by lia.
  assert (Z.to_nat (len data - Z.max (Z.max 0 (len f)) (0 + len data)) = O) as -> by lia.
  cbn [replicate]. rewrite app_nil_r. apply at_ext. intros x.
  rewrite at_slice_in by (rewrite ?len_pwrite; lia).
  destruct (Z.leb_spec 0 x), (Z.ltb_spec x (len data - 0)); cbn [andb].
  - rewrite at_pwrite by lia. destruct (Z.leb_spec 0 (0 + x)), (Z.ltb_spec (0 + x) (0 + len data)); try lia.
    cbn [andb]. f_equal. lia.
  - symmetry. apply at_ge. lia.
  - symmetry. by apply at_neg.
  - symmetry. by apply at_neg.
Qed.

(** ** [drainDirtyPages] and [dedupDrain] *)

Inductive fill_err (E : Type) :=
| SrcError (e : E)
| WriteError (e : pw_err)
| SliceBounds
| Cancelled.
Arguments SrcError {E} _.
Arguments WriteError {E} _.
Arguments SliceBounds {E}.
Arguments Cancelled {E}.

(** The chunks of [[off, end_)], cut at block boundaries. *)
Fixpoint carve (fuel : nat) (blockSize end_ off : Z) : list Range :=
  match fuel with
  | O => []
  | S fuel =>
      if off <? end_ then
        let blockOff := i64 (Z.quot off blockSize * blockSize) in
        let chunkEnd := Z.min end_ (i64 (blockOff + blockSize)) in
        mkBlockRange off (i64 (chunkEnd - off)) :: carve fuel blockSize end_ chunkEnd
      else []
  end.

Fixpoint map_ok {E A C} (f : A → result E C) (l : list A) : result E (list C) :=
  match l with
  | [] => Ok []
  | x :: l => y ← f x; ys ← map_ok f l; Ok (y :: ys)
  end.

Section fill.
Context `{Host} `{Bitmap B} {E : Type}.
Context (src : Z → result E bytes) (cancelled : Z → bool).

(** The bytes of one chunk, from the block that holds it. *)
Definition chunk_bytes (blockSize : Z) (r : Range) : result (fill_err E) bytes :=
  let blockOff := i64 (Z.quot (Start r) blockSize * blockSize) in
  match src blockOff with
  | Err e => Err (SrcError e)
  | Ok buf =>
      let lo := i64 (Start r - blockOff) in
      let hi := i64 (lo + RSize r) in
      if (lo <? 0) || (hi <? lo) || (len buf <? hi) then Err SliceBounds else Ok (slice lo hi buf)
  end.

Definition write_batch (blockSize destOff : Z) (batch : list Range) (n : Z) (s : list PwRes * bytes)
    : result (fill_err E) (list PwRes * bytes) :=
  if cancelled destOff then Err Cancelled
  else
    iovs ← map_ok (chunk_bytes blockSize) batch;
    match pwritevAll s.1 s.2 destOff iovs with
    | (answers, file, Ok _) => Ok (answers, file)
    | (_, _, Err e) => Err (WriteError e)
    end.

Definition drain_chunks (pageDirty : B) (blockSize : Z) : list Range :=
  concat ((λ r, carve (Z.to_nat (RSize r)) blockSize (End r) (Start r)) <$> BitsetRanges pageDirty PageSize).

Definition drainDirtyPages (pageDirty : B) (blockSize : Z) (answers : list PwRes) (file : bytes)
    : result (drain_err (fill_err E)) (Z * bytes) :=
  let ranges := splitOversizedRanges (drain_chunks pageDirty blockSize) (getAlignedMaxRwCount PageSize) in
  match drainIovs RSize (write_batch blockSize) ranges PageSize (answers, file) with
  | Ok (_, file) => Ok (GetSize ranges, file)
  | Err e => Err e
  end.

(** [falloc] says whether [fallocate] works; the file starts empty. *)
Definition dedupDrain (pageDirty : B) (blockSize : Z) (directIO falloc : bool) (answers : list PwRes)
    : result (drain_err (fill_err E)) (Cache B) :=
  let want := i64 (bm_card_range 0 (2 ^ 32) pageDirty * PageSize) in
  let file := if directIO && (0 <? want) && falloc then replicate (Z.to_nat want) 0 else [] in
  match drainDirtyPages pageDirty blockSize answers file with
  | Err e => Err e
  | Ok (fileOff, file) =>
      let file := if directIO then truncate file fileOff else file in
      Ok (setIsCached (NewCache fileOff PageSize (truncate file fileOff) false) 0 fileOff)
  end.
End fill.

(** ** Chunks *)

Definition rd (image : bytes) (off n : Z) : bytes := slice off (off + n) image.

Lemma rd_split image off a b : 0 <= off → 0 <= a → 0 <= b →
  rd image off (a + b) = rd image off a ++ rd image (off + a) b.
Proof. intros. unfold rd. rewrite Z.add_assoc, slice_glue by lia. done. Qed.

Lemma len_rd image off n : 0 <= off → 0 <= n → off + n <= len image → len (rd image off n) = n.
Proof. intros. unfold rd. rewrite len_slice; lia. Qed.

Lemma slice_slice (l : bytes) c d i j : 0 <= c → 0 <= i → i <= j → c + j <= d → d <= len l →
  slice i j (slice c d l) = slice (c + i) (c + j) l.
Proof.
  intros. apply at_ext. intros x. assert (Hl : len (slice c d l) = d - c) by (rewrite len_slice; lia).
  rewrite !at_slice_in by lia.
  destruct (Z.leb_spec 0 x), (Z.ltb_spec x (j - i)), (Z.ltb_spec x (c + j - (c + i))); cbn [andb]; try lia; try done.
  rewrite Z.add_assoc. destruct (Z.leb_spec 0 (i + x)), (Z.ltb_spec (i + x) (d - c)); cbn [andb]; try lia.
  done.
Qed.

(** [p] does not cross a block. *)
Definition one_block (bs : Z) (p : Range) : Prop := ∃ k, k * bs <= Start p ∧ Start p + RSize p <= k * bs + bs.

Lemma carve_spec image fuel bs end_ off :
  0 < bs < 2 ^ 31 → 0 <= off → end_ < 2 ^ 62 → end_ - off <= Z.of_nat fuel → off <= end_ →
  let ps := carve fuel bs end_ off in
  flat (rd image) ps = rd image off (end_ - off) ∧
  Forall (λ p, range_ok p ∧ 0 < RSize p ∧ off <= Start p ∧ Start p + RSize p <= end_ ∧ one_block bs p) ps.
Proof.
  intros Hbs. revert off. induction fuel as [|fuel IH]; intros off Ho He Hf Hoe; cbn [carve].
  { assert (off = end_) as -> by lia. rewrite Z.sub_diag. split; [|done]. unfold flat, rd, slice.
    rewrite Z.add_0_r, Z.sub_diag. done. }
  destruct (Z.ltb_spec off end_).
  - pose proof (block_of off bs ltac:(lia)). rewrite Z.quot_div_nonneg by lia.
    rewrite (i64_id (off / bs * bs)), (i64_id (_ + bs)) by (unfold_int; lia).
    set (e := Z.min end_ (off / bs * bs + bs)). rewrite i64_id by (unfold_int; lia).
    destruct (IH e) as [Hfl Hall]; [lia|lia|lia|lia|]. split.
    + unfold flat in *. cbn [fmap list_fmap concat Start RSize]. rewrite Hfl.
      replace (end_ - off) with ((e - off) + (end_ - e)) by lia. rewrite rd_split by lia. do 3 f_equal. lia.
    + constructor; [|eapply Forall_impl; [exact Hall|]; cbv beta; intros p (?&?&?&?&?); split_and!; try done; lia].
      unfold range_ok, one_block. cbn [Start RSize]. split_and!; try lia. exists (off / bs). lia.
  - assert (off = end_) as -> by lia. rewrite Z.sub_diag. split; [|done]. unfold flat, rd, slice.
    rewrite Z.add_0_r, Z.sub_diag. done.
Qed.

Section packing.
Context `{Hh : Host} `{Bitmap B} {E : Type}.
Context (src : Z → result E bytes) (cancelled : Z → bool) (image : bytes) (pageDirty : B) (bs : Z).
Hypothesis Hbs : 0 < bs < 2 ^ 31.
Hypothesis Himg : len image < 2 ^ 43.
Hypothesis Hin : ∀ i, bm_contains pageDirty i = true → (i + 1) * PageSize <= len image.
(** The source serves every block that holds a dirty page. *)
Hypothesis Hsrc : ∀ y, 0 <= y → bm_contains pageDirty (y / PageSize) = true →
  y / bs * bs + bs <= len image ∧ src (y / bs * bs) = Ok (slice (y / bs * bs) (y / bs * bs + bs) image).

Let data := pack PageSize (bm_ranges pageDirty) image.

(** A chunk of dirty pages within one block. *)
Record chunk_ok (p : Range) : Prop := {
  ck_range : range_ok p;
  ck_pos : 0 < RSize p;
  ck_block : one_block bs p;
  ck_dirty y : Start p <= y < Start p + RSize p → bm_contains pageDirty (y / PageSize) = true
}.

Lemma dirty_byte y : 0 <= y → bm_contains pageDirty (y / PageSize) = true → y < len image.
Proof using Hin.
  intros Hy Hc. pose proof (block_of y PageSize eq_refl). apply Hin in Hc. lia.
Qed.

Lemma chunk_bounds p : chunk_ok p → 0 <= Start p ∧ Start p + RSize p <= len image.
Proof using Hin.
  intros [(H1 & H2 & _) H3 _ Hd]. split; [lia|].
  pose proof (dirty_byte (Start p + RSize p - 1) ltac:(lia) (Hd (Start p + RSize p - 1) ltac:(lia))). lia.
Qed.

Lemma chunk_bytes_ok p : chunk_ok p → chunk_bytes src bs p = Ok (rd image (Start p) (RSize p)).
Proof using Hbs Hin Hsrc Himg.
  intros Hp. destruct (chunk_bounds p Hp) as [H0 Hl]. destruct Hp as [(H1 & H2 & H3) H4 [k Hk] Hd].
  pose proof (block_of (Start p) bs ltac:(lia)).
  assert (k = Start p / bs) as -> by nia.
  destruct (Hsrc (Start p) ltac:(lia) (Hd (Start p) ltac:(lia))) as [Hb Hs].
  assert (0 <= Start p / bs) by (apply Z.div_pos; lia). assert (0 <= Start p / bs * bs) by nia.
  unfold chunk_bytes. rewrite Z.quot_div_nonneg by lia. rewrite (i64_id (Start p / bs * bs)) by (unfold_int; lia).
  rewrite Hs. rewrite !i64_id by (unfold_int; lia). rewrite len_slice by lia.
  set (q := Start p / bs * bs) in *.
  destruct (Z.ltb_spec (Start p - q) 0), (Z.ltb_spec (Start p - q + RSize p) (Start p - q)),
    (Z.ltb_spec (q + bs - q) (Start p - q + RSize p)); try lia; cbn [orb].
  f_equal. rewrite slice_slice by lia. unfold rd. f_equal; lia.
Qed.

Lemma map_chunks ps : Forall chunk_ok ps →
  ∃ iovs, map_ok (chunk_bytes src bs) ps = Ok iovs ∧ concat iovs = flat (rd image) ps.
Proof using Hbs Hin Hsrc Himg.
  induction 1 as [|p ps Hp Hps (iovs & IH1 & IH2)]; cbn [map_ok]; [by exists []|].
  rewrite chunk_bytes_ok, IH1 by done. cbn. eexists. split; [done|]. cbn. by rewrite IH2.
Qed.

Lemma len_flat ps : Forall chunk_ok ps → len (flat (rd image) ps) = total RSize ps.
Proof using Hin.
  induction 1 as [|p ps Hp Hps IH]; [done|]. unfold flat in *. cbn [fmap list_fmap concat total].
  destruct (chunk_bounds p Hp). rewrite len_app, IH, len_rd; [done|lia|destruct Hp as [_ ? _ _]; lia|lia].
Qed.

Lemma chunk_ok_inside ps p : Forall chunk_ok ps → inside ps p → range_ok p → 0 < RSize p → chunk_ok p.
Proof using Type.
  intros Hps (r & Hr & H1 & H2) Hp H0. rewrite Forall_forall in Hps. specialize (Hps r Hr).
  destruct Hps as [_ _ [k Hk] Hd]. split; [done|done|exists k; lia|]. intros y Hy. apply Hd. lia.
Qed.

(** The chunks are the dirty pages, in order. *)
Lemma chunks_of_runs lo rs :
  0 <= lo → ranges_wf lo rs → runs_below (len image / PageSize) rs →
  (∀ i, in_runs rs i = true → bm_contains pageDirty i = true) →
  let ps := concat ((λ r, carve (Z.to_nat (RSize r)) bs (End r) (Start r)) <$>
    ((λ '(s, e), NewRangeFromBlocks (i64 s) (i64 (i64 e - i64 s)) PageSize) <$> rs)) in
  flat (rd image) ps = pack PageSize rs image ∧ Forall chunk_ok ps.
Proof using Hbs Himg.
  revert lo. induction rs as [|[s e] rs IH]; intros lo Hlo Hwf Hb Hc; [done|].
  destruct Hwf as (H1 & H2 & H3 & Hwf). apply Forall_cons in Hb as [He Hb]. cbn in He.
  destruct (IH (e + 1) ltac:(lia) Hwf Hb) as [IH1 IH2].
  { intros i Hi. apply Hc. unfold in_runs in *. cbn. by rewrite Hi, orb_true_r. }
  cbv zeta in *. cbn [fmap list_fmap concat pack].
  match type of IH1 with flat _ ?t = _ => set (tl := t) in *; clearbody tl end.
  pose proof (block_of (len image) PageSize eq_refl) as Hlen. unfold PageSize in *.
  unfold NewRangeFromBlocks. rewrite (i64_id e), (i64_id s), (i64_id (e - s)) by (unfold_int; lia).
  rewrite !BlockOffset_mul by (unfold_int; lia). unfold End. cbn [RSize Start].
  rewrite i64_id by (unfold_int; lia).
  destruct (carve_spec image (Z.to_nat ((e - s) * (4 * 2 ^ 10))) bs (s * (4 * 2 ^ 10) + (e - s) * (4 * 2 ^ 10))
    (s * (4 * 2 ^ 10)) Hbs) as [Hf Hall]; [lia..|].
  rewrite flat_app, Hf, IH1. split.
  - f_equal. unfold rd. f_equal; lia.
  - apply Forall_app. split; [|done]. eapply Forall_impl; [exact Hall|]. cbv beta.
    intros p (Hr & Hp & Hs & Hend & Hob). split; [done|done|done|]. intros y Hy. apply Hc.
    unfold PageSize. cbn. apply orb_true_iff. left. unfold in_range. cbn [fst snd].
    pose proof (block_of y (4 * 2 ^ 10) eq_refl). lia.
Qed.

Lemma drain_chunks_ok :
  flat (rd image) (drain_chunks pageDirty bs) = data ∧ Forall chunk_ok (drain_chunks pageDirty bs).
Proof using Hbs Himg Hin.
  unfold drain_chunks, BitsetRanges, data. apply (chunks_of_runs 0); [lia|apply bm_ranges_wf| |].
  - apply bm_ranges_below. intros i Hi. apply Hin in Hi. apply Z.lt_le_pred.
    assert (i + 1 <= len image / PageSize) by (apply Z.div_le_lower_bound; unfold PageSize in *; lia). lia.
  - intros i. unfold in_runs. by rewrite bm_ranges_contains.
Qed.
Lemma len_data : len data <= len image.
Proof using Hin.
  assert (Hnb : 0 <= len image / PageSize) by (apply Z.div_pos; [apply len_nonneg|done]).
  pose proof (block_of (len image) PageSize eq_refl).
  assert (Hb : runs_below (len image / PageSize) (bm_ranges pageDirty)).
  { apply bm_ranges_below. intros i Hi. apply Hin in Hi.
    assert (i + 1 <= len image / PageSize) by (apply Z.div_le_lower_bound; unfold PageSize in *; lia). lia. }
  pose proof (len_pack PageSize image (len image / PageSize) 0 _
    eq_refl ltac:(lia) ltac:(lia) Hnb (bm_ranges_wf _) Hb). unfold data. lia.
Qed.

Lemma GetSize_total ps : Forall range_ok ps → total RSize ps < 2 ^ 62 → GetSize ps = total RSize ps.
Proof using Type.
  intros Hps Ht. unfold GetSize.
  assert (Hg : ∀ a, 0 <= a → a + total RSize ps < 2 ^ 63 → foldl (λ size r, i64 (size + RSize r)) a ps = a + total RSize ps).
  { clear Ht. induction Hps as [|p ps Hp Hps IH]; intros a Ha Hb; cbn [foldl total] in *; [lia|].
    assert (0 <= total RSize ps).
    { clear -Hps. induction Hps as [|q qs (?&?&?) _ IH]; cbn [total]; lia. }
    destruct Hp as (? & ? & ?). rewrite i64_id by (unfold_int; lia). rewrite IH by lia. lia. }
  rewrite Hg by lia. lia.
Qed.

(** How a drain can fail. *)
Definition drain_failure (answers : list PwRes) (e : drain_err (fill_err E)) : Prop :=
  match e with
  | OpError Cancelled => ∃ off, cancelled off = true
  | OpError (WriteError PwFailed) => PwErr ∈ answers
  | OpError (WriteError PwNoProgress) => PwWrote 0 ∈ answers
  | OpError (WriteError PwPending) => settled answers < len data
  | _ => False
  end.

(** The file and the answers after the chunks [dn]. *)
Definition drained (answers : list PwRes) (file0 : bytes) (dn : list Range) (s : list PwRes * bytes) : Prop :=
  s.2 = pwrite file0 0 (flat (rd image) dn) ∧ s.1 `suffix_of` answers ∧
  settled answers <= settled s.1 + len (flat (rd image) dn).

Lemma write_batch_step answers file0 ps dn batch n s :
  Forall answer_ok answers → Forall chunk_ok ps → flat (rd image) ps = data → len data < 2 ^ 44 →
  dn ++ batch `prefix_of` ps → drained answers file0 dn s →
  match write_batch src cancelled bs (total RSize dn) batch n s with
  | Ok s' => drained answers file0 (dn ++ batch) s'
  | Err e => drain_failure answers (OpError e)
  end.
Proof using Hbs Himg Hin Hsrc.
  intros Ha Hps Hfl Hdata [rest Hpre] (Hf & Hsuf & Hset). destruct s as [a f]. cbn [fst snd] in *.
  rewrite Hpre in Hps, Hfl. apply Forall_app in Hps as [Hps _]. assert (Hps' := Hps).
  apply Forall_app in Hps' as [Hdn Hb]. rewrite !flat_app in Hfl.
  pose proof (len_flat dn Hdn) as Hld. rewrite <- Hld.
  assert (Hle : len (flat (rd image) dn) + len (flat (rd image) batch) <= len data).
  { rewrite <- Hfl, !len_app. pose proof (len_nonneg (flat (rd image) rest)). lia. }
  pose proof (len_nonneg (flat (rd image) dn)). pose proof (len_nonneg (flat (rd image) batch)).
  unfold write_batch. destruct (cancelled _) eqn:Ec; [cbn; eauto|].
  destruct (map_chunks batch Hb) as (iovs & -> & Hi). cbn [mbind result_bind fst snd].
  assert (Ha' : Forall answer_ok a) by (destruct Hsuf as [pre ->]; apply Forall_app in Ha; apply Ha).
  pose proof (pwritevAll_spec a f (len (flat (rd image) dn)) iovs) as Hpw. rewrite Hi in Hpw.
  specialize (Hpw ltac:(rewrite Hf, len_pwrite by lia; lia) ltac:(lia) Ha').
  pose proof (pwritevAll_answers a f (len (flat (rd image) dn)) iovs) as Hans. rewrite Hi in Hans.
  destruct (pwritevAll a f _ iovs) as [[a' f'] [[]|e]].
  - destruct (Hans a' f' Ha' eq_refl) as [Hs' Hset']. unfold drained. cbn [fst snd]. rewrite flat_app, len_app.
    split_and!; [|by etrans|lia]. rewrite Hpw, Hf. rewrite <- (Z.add_0_l (len (flat (rd image) dn))).
    by rewrite pwrite_pwrite by lia.
  - destruct Hpw as [_ He]. cbn. destruct Hsuf as [pre Hsuf].
    destruct e; [rewrite Hsuf; apply elem_of_app; by right..|lia].
Qed.

Hypothesis Hiov : 1 <= IOV_MAX.
Hypothesis Hmax : 0 < getAlignedMaxRwCount PageSize < 2 ^ 31.

Lemma drainDirtyPages_spec answers file0 :
  Forall answer_ok answers →
  match drainDirtyPages src cancelled pageDirty bs answers file0 with
  | Ok (off, file) => off = len data ∧ file = pwrite file0 0 data
  | Err e => drain_failure answers e
  end.
Proof using Hbs Himg Hin Hsrc Hiov Hmax.
  intros Ha. destruct drain_chunks_ok as [Hfl Hck]. unfold drainDirtyPages.
  set (chunks := drain_chunks pageDirty bs) in *. set (maxB := getAlignedMaxRwCount PageSize) in *.
  assert (Hr : Forall range_ok chunks) by (eapply Forall_impl; [exact Hck|]; by intros p []).
  destruct (split_spec (rd image) (rd_split image) chunks maxB Hr Hmax) as (Hs1 & Hs2 & Hs3 & Hs4 & Hs5 & Hs6).
  set (ps := splitOversizedRanges chunks maxB) in *.
  assert (Hps : Forall chunk_ok ps).
  { assert (Hpos : Forall (λ r, 0 < RSize r) ps) by (apply Hs6; eapply Forall_impl; [exact Hck|]; by intros p []).
    rewrite Forall_forall in *. intros p Hp. apply (chunk_ok_inside chunks); auto. by rewrite Forall_forall. }
  rewrite Hfl in Hs1. assert (Hlen : total RSize ps = len data) by (rewrite <- (len_flat ps Hps), Hs1; done).
  pose proof len_data as Hdata.
  pose proof (drainIovs_rule RSize (write_batch src cancelled bs) (drained answers file0)
    (λ e, drain_failure answers (OpError e)) PageSize ps (answers, file0) Hiov ltac:(lia) Hs2 ltac:(lia)) as Hrule.
  match type of Hrule with ?P → ?Q → _ => assert (HP : P); [|assert (HQ : Q)] end.
  - unfold drained. cbn [fst snd]. change (flat (rd image) []) with (@nil Z). pose proof (len_nonneg file0).
    rewrite pwrite_empty by lia. change (len (@nil Z)) with 0. split_and!; [done|done|lia].
  - intros dn batch s HI _ _ _ Hpre. apply (write_batch_step answers file0 ps); done || lia.
  - specialize (Hrule HP HQ). destruct (drainIovs _ _ _ _ _) as [[a' f']|e].
    + destruct Hrule as (E1 & _). cbn [snd] in E1. rewrite E1, Hs1. split; [|done].
      by rewrite GetSize_total by (done || lia).
    + destruct e; done.
Qed.

Lemma dedupDrain_spec directIO falloc answers :
  Forall answer_ok answers →
  match dedupDrain src cancelled pageDirty bs directIO falloc answers with
  | Ok c => full c data
  | Err e => drain_failure answers e
  end.
Proof using Hbs Himg Hin Hsrc Hiov Hmax.
  intros Ha. unfold dedupDrain.
  set (file0 := if _ && _ && _ then _ else _). clearbody file0.
  pose proof (drainDirtyPages_spec answers file0 Ha) as Hd.
  destruct (drainDirtyPages _ _ _ _ _ _) as [[off file]|e]; [|done]. destruct Hd as [-> ->].
  pose proof len_data. pose proof (len_nonneg data).
  assert (Ht : truncate (if directIO then truncate (pwrite file0 0 data) (len data) else pwrite file0 0 data)
    (len data) = data).
  { destruct directIO; [rewrite truncate_pwrite; apply truncate_all|apply truncate_pwrite]. }
  rewrite Ht. apply full_marked; unfold PageSize; unfold_int; lia.
Qed.
End packing.

(** ** [copyFromMemfd] *)

Inductive memfd_err := MemfdBounds | MemfdCancelled | MemfdPanic.

(** [Memfd.Slice]: a view of the mapping [mem]. *)
Definition memfd_Slice (mem : bytes) (offset size : Z) : result memfd_err bytes :=
  if (offset <? 0) || (len mem <? i64 (offset + size)) then Err MemfdBounds
  else Ok (slice offset (i64 (offset + size)) mem).

Section memfd.
Context `{Bitmap B} (cancelled : Z → bool).

Fixpoint copy_memfd_loop (rs : list Range) (mem : bytes) (cacheOff : Z) (c : Cache B) : result memfd_err (Cache B) :=
  match rs with
  | [] => Ok c
  | r :: rs =>
      if cancelled cacheOff then Err MemfdCancelled
      else
        data ← memfd_Slice mem (Start r) (RSize r);
        match c_mmap c with
        | None => Err MemfdPanic
        | Some m =>
            let c := with_data c (splice m cacheOff data) (c_tracker c) in
            copy_memfd_loop rs mem (i64 (cacheOff + RSize r)) (setIsCached c cacheOff (RSize r))
        end
  end.

Definition copyFromMemfd (c : Cache B) (mem : bytes) (dirty : B) (blockSize : Z) : result memfd_err (Cache B) :=
  copy_memfd_loop (BitsetRanges dirty blockSize) mem 0 c.

(** [contents] is the fresh file. *)
Definition NewCacheFromMemfd (blockSize : Z) (contents mem : bytes) (dirty : B) : result memfd_err (Cache B) :=
  let size := i64 (i64 (bm_card_range 0 (2 ^ 32) dirty) * blockSize) in
  copyFromMemfd (NewCache size blockSize (truncate contents size) false) mem dirty blockSize.

(** After the runs of [done], their bytes are at the front and present. *)
Record copied (c : Cache B) (size bs : Z) (data : bytes) : Prop := {
  cp_size : c_size c = size;
  cp_bs : c_blockSize c = bs;
  cp_none : size = 0 → c_mmap c = None;
  cp_ok : size ≠ 0 → ∃ m, cache_ok c m ∧ slice 0 (len data) m = data;
  cp_present i : 0 <= i → i * bs < len data → Get (c_tracker c) i = SDirty
}.

Lemma copied_step c size bs dn data :
  copied c size bs dn → len dn mod bs = 0 → 0 < len data → len data mod bs = 0 →
  len dn + len data <= size → is_i64 size →
  ∃ m, c_mmap c = Some m ∧
    copied (setIsCached (with_data c (splice m (len dn) data) (c_tracker c)) (len dn) (len data)) size bs (dn ++ data).
Proof using Type.
  intros [<- <- Hnone Hok Hp] Hdn Hpos Hdm Hle Hi. pose proof (len_nonneg dn).
  destruct (Hok ltac:(lia)) as (m & Hc & Hm). exists m. split; [apply Hc|].
  assert (Hbs := co_bs _ _ Hc). pose proof (co_len _ _ Hc) as Hl.
  set (m' := splice m (len dn) data). assert (Hl' : len m' = len m) by (apply len_splice; lia).
  unfold setIsCached. cbn [with_data c_blockSize c_size c_mmap c_tracker c_dirtyFile c_closed].
  rewrite i64_id by (unfold_int; lia).
  destruct (block_index_val (c_blockSize c) (c_size c) (len dn)) as [-> Hu1]; [done|apply Hc|lia|].
  destruct (block_ceil_val (c_blockSize c) (c_size c) (len dn + len data)) as (-> & Hu2 & Hlt); [done|apply Hc|lia|].
  assert (Hcut : (len dn + len data) mod c_blockSize c = 0) by (by rewrite Z.add_mod, Hdn, Hdm by lia).
  assert (Hok' : cache_ok (with_data c m' (SetRange (len dn / c_blockSize c)
    ((len dn + len data + c_blockSize c - 1) / c_blockSize c) SDirty (c_tracker c))) m').
  { apply (mark_ok c m m' (len dn) (len dn + len data) SDirty); try done; try lia.
    intros x Hx. unfold m'. rewrite at_splice by lia.
    destruct (Z.leb_spec (len dn) x), (Z.ltb_spec x (len dn + len data)); done || lia. }
  split; try done.
  - cbn. lia.
  - intros _. exists m'. split; [exact Hok'|]. rewrite len_app. apply at_ext. intros x.
    rewrite at_slice_in by lia. unfold m'.
    destruct (Z.leb_spec 0 x); cbn [andb]; [|by rewrite at_neg by lia].
    rewrite at_app by lia. rewrite at_splice, Z.add_0_l by lia.
    destruct (Z.ltb_spec x (len dn + len data - 0)), (Z.leb_spec (len dn) x), (Z.ltb_spec x (len dn + len data)),
      (Z.ltb_spec x (len dn)); cbn [andb]; try lia; try done.
    + rewrite <- Hm at 1. rewrite at_slice by lia. f_equal.
    + symmetry. apply at_ge. lia.
  - intros i Hi0 Hi1. cbn [c_tracker]. rewrite len_app in Hi1. rewrite Get_SetRange by done.
    unfold in_range. cbn [fst snd]. specialize (Hlt i). pose proof (Z.div_mod (len dn) (c_blockSize c) ltac:(lia)).
    destruct (Z.leb_spec (len dn / c_blockSize c) i),
      (Z.ltb_spec i ((len dn + len data + c_blockSize c - 1) / c_blockSize c)); cbn [andb]; try done;
      try (apply Hp; [done|nia]).
Qed.

Lemma copied_full c size bs data : copied c size bs data → size = len data → full c data.
Proof using Type.
  intros [Hs Hb Hnone Hok Hp] E. split; [congruence|intros ->; by apply Hnone| |rewrite Hb; exact Hp].
  intros Hne. destruct Hok as (m & Hc & Hm). { destruct data; [done|]. rewrite len_cons in E. pose proof (len_nonneg data). lia. }
  replace data with m; [done|]. rewrite <- Hm. rewrite <- E, <- Hs, <- (co_len _ _ Hc).
  unfold slice. rewrite drop_0. symmetry. apply take_ge. unfold len. lia.
Qed.

Lemma copied_start size bs contents : 0 < bs < 2 ^ 31 → 0 <= size <= bs * (2 ^ 32 - 1) → len contents = size →
  copied (NewCache size bs contents false) size bs [].
Proof using Type.
  intros Hbs Hs Hc. split; try done.
  - intros ->. done.
  - intros Hne. exists contents. split; [|done]. rewrite <- Hc. apply cache_ok_fresh; lia.
  - intros i Hi. rewrite len_nil. nia.
Qed.

Lemma copy_memfd_loop_spec mem bs size nblocks lo rs c dn :
  0 < bs <= 2 ^ 30 → nblocks * bs <= len mem → is_i64 (len mem) → is_i64 size →
  0 <= lo → ranges_wf lo rs → runs_below nblocks rs →
  copied c size bs dn → len dn mod bs = 0 → len dn + len (pack bs rs mem) <= size →
  match copy_memfd_loop ((λ '(s, e), NewRangeFromBlocks (i64 s) (i64 (i64 e - i64 s)) bs) <$> rs) mem (len dn) c with
  | Ok c' => copied c' size bs (dn ++ pack bs rs mem)
  | Err e => e = MemfdCancelled ∧ ∃ off, cancelled off = true
  end.
Proof using Type.
  intros Hbs Hm Hi Hsi. revert lo c dn. induction rs as [|[s e] rs IH]; intros lo c dn Hlo Hwf Hb Hc Hdn Hsz.
  { cbn. by rewrite app_nil_r. }
  destruct Hwf as (H1 & H2 & H3 & Hwf). apply Forall_cons in Hb as [He Hb]. cbn in He.
  cbn [fmap list_fmap copy_memfd_loop pack]. cbn [pack] in Hsz. rewrite len_app in Hsz.
  pose proof (len_run bs mem nblocks (proj1 Hbs) Hm s e ltac:(lia) H2 He) as Hl. rewrite Hl in Hsz.
  pose proof (len_nonneg (pack bs rs mem)). pose proof (len_nonneg dn).
  destruct (cancelled (len dn)) eqn:Ec; [eauto|].
  assert (s * bs + (e - s) * bs = e * bs) by lia. assert (e * bs <= nblocks * bs) by nia.
  match goal with |- context [copy_memfd_loop ?t mem] => set (tl := t) in *; clearbody tl end.
  unfold NewRangeFromBlocks. rewrite (i64_id e), (i64_id s), (i64_id (e - s)) by (unfold_int; lia).
  rewrite !BlockOffset_mul by (unfold_int; nia). cbn [RSize Start].
  unfold memfd_Slice. replace (s * bs + (e - s) * bs) with (e * bs) by lia. rewrite (i64_id (e * bs)) by (unfold_int; nia).
  destruct (Z.ltb_spec (s * bs) 0), (Z.ltb_spec (len mem) (e * bs)); try nia; cbn [orb mbind result_bind].
  destruct (copied_step c size bs dn (slice (s * bs) (e * bs) mem) Hc Hdn) as (m & -> & Hc');
    rewrite ?Hl; [nia|by rewrite Z.mod_mul by lia|lia|done|].
  rewrite Hl in Hc'. assert (0 < (e - s) * bs) by nia. rewrite (i64_id (len dn + _)) by (unfold_int; lia).
  specialize (IH (e + 1) _ _ ltac:(lia) Hwf Hb Hc'). rewrite len_app, Hl in IH.
  rewrite app_assoc. apply IH; [|lia]. rewrite Z.add_mod, Hdn, Z.mod_mul by lia. done.
Qed.
End memfd.

(** ** [copyProcessMemory] *)

(** What one [process_vm_readv] answers: to be retried ([EAGAIN], [EINTR],
    [ENOMEM]), the context done, an error, or the bytes read from the front of
    the vector, at most what was asked for. *)
Inductive VmRes := VmRetry | VmDone | VmError | VmRead (n : Z).

Inductive vm_err := VmAddress | VmCancelled | VmFailed | VmShort | VmPending.

Section process.
Context `{Host} `{Bitmap B} (mem : Z → Z).

(** The memory of the process at [off], [n] bytes. *)
Definition vm_read (off n : Z) : bytes := mem <$> seqZ off n.

Fixpoint vm_loop (answers : list VmRes) (c : Cache B) (off : Z) (data : bytes)
    : list VmRes * Cache B * result vm_err unit :=
  match answers with
  | [] => ([], c, Err VmPending)
  | VmRetry :: answers => vm_loop answers c off data
  | VmDone :: answers => (answers, c, Err VmCancelled)
  | VmError :: answers => (answers, c, Err VmFailed)
  | VmRead n :: answers =>
      let n := Z.min n (len data) in
      match c_mmap c with
      | None => (answers, c, Err VmAddress)
      | Some m =>
          let c := with_data c (splice m off (slice 0 n data)) (c_tracker c) in
          if n =? len data then (answers, setIsCached c off (len data), Ok ())
          else (answers, c, Err VmShort)
      end
  end.

Definition vm_batch (off : Z) (batch : list Range) (batchBytes : Z) (s : list VmRes * Cache B)
    : result vm_err (list VmRes * Cache B) :=
  match c_mmap s.2 with
  | Some _ => if c_size s.2 <=? off then Err VmAddress
              else match vm_loop s.1 s.2 off (flat vm_read batch) with
                   | (answers, c, Ok _) => Ok (answers, c)
                   | (_, _, Err e) => Err e
                   end
  | None => Err VmAddress
  end.

Definition copyProcessMemory (c : Cache B) (answers : list VmRes) (rs : list Range)
    : result (drain_err vm_err) (list VmRes * Cache B) :=
  drainIovs RSize vm_batch (splitOversizedRanges rs (getAlignedMaxRwCount (c_blockSize c))) (c_blockSize c) (answers, c).

Definition NewCacheFromProcessMemory (blockSize : Z) (contents : bytes) (answers : list VmRes) (rs : list Range)
    : result (drain_err vm_err) (Cache B) :=
  let size := GetSize rs in
  let c := NewCache size blockSize (truncate contents size) false in
  if size =? 0 then Ok c
  else match copyProcessMemory c answers rs with
       | Ok (_, c) => Ok c
       | Err e => Err e
       end.
End process.

Lemma vm_read_split mem off a b : 0 <= off → 0 <= a → 0 <= b →
  vm_read mem off (a + b) = vm_read mem off a ++ vm_read mem (off + a) b.
Proof. intros. unfold vm_read. by rewrite seqZ_app, fmap_app by lia. Qed.

Lemma len_vm_read mem off n : 0 <= n → len (vm_read mem off n) = n.
Proof. intros. unfold vm_read. rewrite len_fmap. unfold len. rewrite length_seqZ. lia. Qed.

Lemma len_flat_vm mem rs : Forall (λ r, 0 < RSize r) rs → len (flat (vm_read mem) rs) = total RSize rs.
Proof.
  induction 1 as [|r rs Hr Hrs IH]; [done|]. unfold flat in *. cbn [fmap list_fmap concat total].
  rewrite len_app, IH, len_vm_read; lia.
Qed.

Lemma split_range_aligned fuel r maxSize d offset :
  0 < d → RSize r mod d = 0 → maxSize mod d = 0 → offset mod d = 0 → range_ok r → 0 <= offset → 0 <= maxSize < 2 ^ 31 →
  Forall (λ p, RSize p mod d = 0) (split_range fuel r maxSize offset).
Proof.
  intros Hd Hr Hm. revert offset. induction fuel as [|fuel IH]; intros offset Ho Hok Hoff Hmax; cbn [split_range]; [done|].
  destruct (Z.ltb_spec offset (RSize r)); [|done]. destruct (id Hok) as (? & ? & ?). constructor.
  - cbn [RSize]. rewrite i64_id by (unfold_int; lia).
    destruct (Z.min_spec (RSize r - offset) maxSize) as [[_ ->]|[_ ->]]; [|done].
    by rewrite Zminus_mod, Hr, Ho by lia.
  - rewrite i64_id by (unfold_int; lia). apply IH; [|done|lia|lia]. by rewrite Z.add_mod, Ho, Hm by lia.
Qed.

Lemma split_aligned rs maxSize d :
  0 < d → maxSize mod d = 0 → 0 <= maxSize < 2 ^ 31 → Forall range_ok rs → Forall (λ r, RSize r mod d = 0) rs →
  Forall (λ p, RSize p mod d = 0) (splitOversizedRanges rs maxSize).
Proof.
  intros Hd Hm Hmax. unfold splitOversizedRanges. induction rs as [|r rs IH]; intros Hok Hal; [constructor|].
  apply Forall_cons in Hok as [Hr Hok]. apply Forall_cons in Hal as [Ha Hal].
  cbn [fmap list_fmap concat]. apply Forall_app. split; [|by apply IH].
  destruct (RSize r <=? maxSize); [by repeat constructor|]. apply split_range_aligned; try done; lia.
Qed.

Lemma total_aligned d rs : 0 < d → Forall (λ r, RSize r mod d = 0) rs → total RSize rs mod d = 0.
Proof.
  intros Hd. induction 1 as [|r rs Hr Hrs IH]; cbn [total]; [done|]. by rewrite Z.add_mod, Hr, IH by lia.
Qed.

Definition is_read (a : VmRes) : bool := match a with VmRead _ => true | _ => false end.
Definition vm_reads (answers : list VmRes) : Z := len (filter (λ a, is_read a = true) answers).

Lemma vm_reads_cons a answers : vm_reads (a :: answers) = (if is_read a then 1 else 0) + vm_reads answers.
Proof.
  unfold vm_reads. destruct (is_read a) eqn:E.
  - rewrite filter_cons_True, len_cons by done. lia.
  - rewrite filter_cons_False by congruence. lia.
Qed.

(** How a copy can fail: the size and the number of calls it needs. *)
Definition vm_failure (answers : list VmRes) (size calls : Z) (e : drain_err vm_err) : Prop :=
  match e with
  | OpError VmCancelled => VmDone ∈ answers
  | OpError VmFailed => VmError ∈ answers
  | OpError VmShort => ∃ n, VmRead n ∈ answers ∧ n < size
  | OpError VmPending => vm_reads answers < calls
  | _ => False
  end.

Section process_proof.
Context `{Hh : Host} `{Bitmap B} (mem : Z → Z) (bs size : Z).
Hypothesis Hbs : 0 < bs < 2 ^ 31.
Hypothesis Hsize : is_i64 size.

Lemma vm_loop_spec answers (c : Cache B) dn data :
  copied c size bs dn → len dn mod bs = 0 → 0 < len data → len data mod bs = 0 →
  len dn + len data <= size →
  match vm_loop answers c (len dn) data with
  | (a', c', Ok _) => copied c' size bs (dn ++ data) ∧ a' `suffix_of` answers ∧ vm_reads answers <= vm_reads a' + 1
  | (_, _, Err e) => vm_failure answers (len data) 1 (OpError e)
  end.
Proof using Hbs Hsize.
  intros Hc Hdn Hpos Hdm Hle. induction answers as [|a answers IH]; cbn [vm_loop].
  { cbn. change (vm_reads []) with 0. lia. }
  rewrite vm_reads_cons. destruct a as [| | |n].
  - cbn [is_read]. destruct (vm_loop answers c (len dn) data) as [[a' c'] [[]|e]].
    + destruct IH as (? & ? & ?). split_and!; [done|by apply suffix_cons_r|lia].
    + destruct e; cbn in *; try (by right); try done.
      destruct IH as (n & Hn & ?). exists n. split; [by right|done].
  - cbn. left.
  - cbn. left.
  - destruct (copied_step c size bs dn data Hc Hdn Hpos Hdm Hle Hsize) as (m & -> & Hc').
    destruct (Z.eqb_spec (Z.min n (len data)) (len data)) as [Hn|Hn].
    + rewrite Hn. replace (slice 0 (len data) data) with data
        by (unfold slice; rewrite drop_0, take_ge; [done|unfold len; lia]).
      split_and!; [done|by apply suffix_cons_r|cbn; lia].
    + cbn. exists n. split; [left|lia].
Qed.

Lemma copyProcessMemory_spec (c : Cache B) answers rs :
  copied c size bs [] → c_blockSize c = bs → 1 <= IOV_MAX → 0 < getAlignedMaxRwCount bs < 2 ^ 31 →
  getAlignedMaxRwCount bs mod bs = 0 →
  Forall range_ok rs → Forall (λ r, 0 < RSize r) rs → Forall (λ r, RSize r mod bs = 0) rs →
  total RSize rs = size →
  match copyProcessMemory mem c answers rs with
  | Ok (_, c') => copied c' size bs (flat (vm_read mem) rs)
  | Err e => vm_failure answers size (len (splitOversizedRanges rs (getAlignedMaxRwCount bs))) e
  end.
Proof using Hbs Hsize.
  intros Hc Hcb Hiov Hmax Hmm Hr Hpos Hal Htot. unfold copyProcessMemory. rewrite Hcb.
  set (maxB := getAlignedMaxRwCount bs) in *.
  destruct (split_spec (vm_read mem) (vm_read_split mem) rs maxB Hr Hmax) as (Hs1 & Hs2 & Hs3 & Hs4 & Hs5 & Hs6).
  specialize (Hs6 Hpos). pose proof (split_aligned rs maxB bs ltac:(lia) Hmm ltac:(lia) Hr Hal) as Hs7.
  set (ps := splitOversizedRanges rs maxB) in *.
  pose proof (drainIovs_rule RSize (vm_batch mem)
    (λ dn s, copied s.2 size bs (flat (vm_read mem) dn) ∧ s.1 `suffix_of` answers ∧
             vm_reads answers <= vm_reads s.1 + len dn)
    (λ e, vm_failure answers size (len ps) (OpError e)) bs ps (answers, c) Hiov ltac:(lia) Hs2
    ltac:(unfold_int; lia)) as Hrule.
  match type of Hrule with ?P → ?Q → _ => assert (HP : P); [|assert (HQ : Q)] end.
  - cbn. split_and!; [done|done|]. change (len (@nil Range)) with 0. lia.
  - intros dn batch [a c1] (Hc1 & Hsuf & Hrd) Hne _ _ [rest Hpre]. cbn [fst snd] in *.
    rewrite Hpre, !Forall_app in Hs6, Hs7. destruct Hs6 as [[Hp1 Hp2] Hp3], Hs7 as [[Ha1 Ha2] _].
    pose proof (len_flat_vm mem dn Hp1) as Hl1. pose proof (len_flat_vm mem batch Hp2) as Hl2.
    assert (Hle : total RSize dn + total RSize batch <= size).
    { rewrite <- Htot, <- Hs5, Hpre, !total_app. assert (0 <= total RSize rest); [|lia].
      clear -Hp3. induction Hp3; cbn [total]; lia. }
    assert (Hbp : 0 < total RSize batch).
    { destruct batch as [|r batch]; [done|]. apply Forall_cons in Hp2 as [? Hp2]. cbn [total].
      assert (0 <= total RSize batch); [|lia]. clear -Hp2. induction Hp2; cbn [total]; lia. }
    assert (0 <= total RSize dn) by (rewrite <- Hl1; apply len_nonneg).
    unfold vm_batch. cbn [fst snd]. destruct (cp_ok _ _ _ _ Hc1) as (m & Hcm & _).
    { lia. }
    rewrite (co_mmap _ _ Hcm), (cp_size _ _ _ _ Hc1).
    destruct (Z.leb_spec size (total RSize dn)); [lia|].
    pose proof (vm_loop_spec a c1 (flat (vm_read mem) dn) (flat (vm_read mem) batch) Hc1) as Hv.
    rewrite Hl1, Hl2 in Hv.
    specialize (Hv (total_aligned bs _ ltac:(lia) Ha1) Hbp (total_aligned bs _ ltac:(lia) Ha2) Hle).
    assert (Hlb : 1 <= len batch) by (destruct batch; [done|rewrite len_cons; pose proof (len_nonneg batch); lia]).
    destruct (vm_loop _ _ _ _) as [[a' c'] [[]|e]].
    + destruct Hv as (Hc2 & Hs' & Hr'). cbn [fst snd]. rewrite flat_app, len_app.
      split_and!; [done|by etrans|lia].
    + destruct Hsuf as [pre Hsuf]. destruct e; cbn in Hv |- *; rewrite ?Hsuf; try done; try (apply elem_of_app; by right).
      * destruct Hv as (n & Hn & ?). exists n. split; [apply elem_of_app; by right|]. lia.
      * pose proof (f_equal len Hpre) as Hpl. rewrite !len_app in Hpl. rewrite Hsuf in Hrd.
        pose proof (len_nonneg rest). lia.
  - specialize (Hrule HP HQ). destruct (drainIovs _ _ _ _ _) as [[a' c']|e].
    + destruct Hrule as (Hc' & _). cbn [snd] in Hc'. by rewrite Hs1 in Hc'.
    + destruct e; done.
Qed.
End process_proof.

Lemma len_truncate f n : 0 <= n → len (truncate f n) = n.
Proof. intros. unfold truncate. rewrite len_slice; rewrite ?len_app, ?len_replicate; pose proof (len_nonneg f); lia. Qed.

Lemma len_pack_count bs m nblocks lo hi rs :
  0 < bs → nblocks * bs <= len m → 0 <= lo → lo <= hi → ranges_wf lo rs → runs_below nblocks rs → runs_below hi rs →
  len (pack bs rs m) = countZ (in_runs rs) lo hi * bs.
Proof.
  intros Hbs Hm. revert lo. induction rs as [|[s e] rs IH]; intros lo Hlo Hhi Hwf Hb Hb2.
  { cbn [pack]. rewrite len_nil, countZ_none; [lia|done]. }
  destruct Hwf as (? & ? & ? & Hwf). apply Forall_cons in Hb as [He Hb]. apply Forall_cons in Hb2 as [He2 Hb2].
  cbn in He, He2. cbn [pack]. assert (Hwf' : ranges_wf e rs) by (eapply ranges_wf_weaken; [|done]; lia).
  rewrite len_app, (len_run bs m nblocks) by (done || lia). rewrite countZ_runs by done.
  rewrite (IH e) by (done || lia). destruct (Z.leb_spec hi s), (Z.ltb_spec hi e); try lia.
Qed.

Lemma pack_card `{Bitmap B} (b : B) bs m nblocks :
  0 < bs → nblocks * bs <= len m → (∀ i, bm_contains b i = true → i < nblocks) →
  len (pack bs (bm_ranges b) m) = bm_card_range 0 (2 ^ 32) b * bs.
Proof.
  intros Hbs Hm Hb. rewrite bm_card_range_count by lia.
  rewrite (countZ_ext _ (in_runs (bm_ranges b))) by (intros; symmetry; apply bm_ranges_contains).
  apply (len_pack_count bs m nblocks 0 (2 ^ 32)); [done|done|lia|lia|apply bm_ranges_wf|by apply bm_ranges_below|].
  apply bm_ranges_below. intros i Hi. apply bm_contains_u32 in Hi. ilia.
Qed.

(** ** Properties *)

(** [dedupDrain] returns a cache that holds the dirty pages of the memory
    packed in order, every page of it present, with or without direct I/O: the
    carving at source blocks, the splitting, the batching and the short writes
    leave no trace.  Otherwise it was cancelled or a write failed, made no
    progress, or has not returned. *)
Theorem dedupDrain_packs `{Host} `{Bitmap B} {E} (src : Z → result E bytes) cancelled image (pageDirty : B)
    bs directIO falloc answers :
  0 < bs < 2 ^ 31 → len image < 2 ^ 43 →
  (∀ i, bm_contains pageDirty i = true → (i + 1) * PageSize <= len image) →
  (∀ y, 0 <= y → bm_contains pageDirty (y / PageSize) = true →
     y / bs * bs + bs <= len image ∧ src (y / bs * bs) = Ok (slice (y / bs * bs) (y / bs * bs + bs) image)) →
  1 <= IOV_MAX → 0 < getAlignedMaxRwCount PageSize < 2 ^ 31 → Forall answer_ok answers →
  let data := pack PageSize (bm_ranges pageDirty) image in
  match dedupDrain src cancelled pageDirty bs directIO falloc answers with
  | Ok c => full c data
  | Err e => drain_failure cancelled image pageDirty answers e
  end.
Proof. intros. by apply dedupDrain_spec. Qed.

Definition page_image : bytes := fill 4096 1 ++ fill 4096 2 ++ fill 4096 3 ++ fill 4096 4.

Lemma len_page_image : len page_image = 16384.
Proof. unfold page_image. rewrite !len_app, !len_fill by lia. lia. Qed.

(** Blocks of two pages; the last page of the first and the first of the
    second are dirty, and the kernel writes at most 5000 bytes at a time. *)
Definition page_answers : list PwRes := [PwWrote 5000; PwIntr; PwWrote 5000].
Definition page_src (off : Z) : result unit bytes := Ok (slice off (off + 8192) page_image).
Definition page_drain (directIO : bool) : result (drain_err (fill_err unit)) (Cache (gset Z)) :=
  dedupDrain (H:=small_host) page_src (λ _, false) {[1; 2]} 8192 directIO true page_answers.

Lemma page_dirty i : bm_contains ({[1; 2]} : gset Z) i = true → i = 1 ∨ i = 2.
Proof.
  cbn. unfold gs_in. intros [_ Hi%bool_decide_eq_true]%andb_true_iff.
  apply elem_of_union in Hi as [Hi|Hi]; apply elem_of_singleton in Hi; auto.
Qed.

Lemma page_served y : 0 <= y → bm_contains ({[1; 2]} : gset Z) (y / PageSize) = true →
  y / 8192 * 8192 + 8192 <= len page_image ∧
  page_src (y / 8192 * 8192) = Ok (slice (y / 8192 * 8192) (y / 8192 * 8192 + 8192) page_image).
Proof.
  intros Hy Hc. split; [|reflexivity]. rewrite len_page_image. pose proof (block_of y PageSize eq_refl) as Hb.
  assert (y < 12288) by (apply page_dirty in Hc as [Hc|Hc]; rewrite Hc in Hb; unfold PageSize in Hb; lia).
  assert (y / 8192 < 2) by (apply Z.div_lt_upper_bound; lia). lia.
Qed.

Lemma dedupDrain_packs_witness :
  ∃ c, page_drain true = Ok c ∧ full c (pack PageSize [(1, 3)] page_image).
Proof.
  assert (Hok : is_ok (page_drain true) = true) by (vm_compute; reflexivity).
  assert (Hr : bm_ranges ({[1; 2]} : gset Z) = [(1, 3)]) by (vm_compute; reflexivity).
  pose proof (dedupDrain_packs (H:=small_host) page_src (λ _, false) page_image ({[1; 2]} : gset Z) 8192 true true
    page_answers) as Hd.
  cbv zeta in Hd. rewrite Hr in Hd. fold (page_drain true) in Hd.
  destruct (page_drain true) as [c|e]; [|discriminate Hok]. exists c. split; [reflexivity|]. apply Hd.
  - lia.
  - rewrite len_page_image. lia.
  - intros i [-> | ->]%page_dirty; rewrite len_page_image; unfold PageSize; lia.
  - exact page_served.
  - cbn. lia.
  - vm_compute. split; congruence.
  - unfold page_answers. rewrite !Forall_cons. cbn. split_and!; [lia|exact I|lia|constructor].
Defined.

(** A cache filled from a process holds the bytes of the given ranges, one
    after another, every block present and of the size asked for: the splitting
    of large ranges, the batching and the retries leave no trace.  Otherwise the
    context was done, a call failed or was short, or fewer reads answered than
    there are pieces. *)
Theorem NewCacheFromProcessMemory_reads `{Host} `{Bitmap B} mem bs contents answers rs :
  0 < bs < 2 ^ 31 → 1 <= IOV_MAX → 0 < getAlignedMaxRwCount bs < 2 ^ 31 → getAlignedMaxRwCount bs mod bs = 0 →
  Forall range_ok rs → Forall (λ r, 0 < RSize r) rs → Forall (λ r, RSize r mod bs = 0) rs →
  total RSize rs <= bs * (2 ^ 32 - 1) → total RSize rs < 2 ^ 62 →
  match NewCacheFromProcessMemory (B:=B) mem bs contents answers rs with
  | Ok c => full c (flat (vm_read mem) rs) ∧ c_blockSize c = bs
  | Err e => vm_failure answers (total RSize rs) (len (splitOversizedRanges rs (getAlignedMaxRwCount bs))) e
  end.
Proof.
  intros Hbs Hiov Hmax Hmm Hr Hpos Hal Hsz Hsz2. unfold NewCacheFromProcessMemory.
  rewrite GetSize_total by done. pose proof (len_flat_vm mem rs Hpos) as Hl.
  pose proof (len_nonneg (flat (vm_read mem) rs)). set (size := total RSize rs) in *.
  assert (Hst : copied (NewCache (B:=B) size bs (truncate contents size) false) size bs [])
    by (apply copied_start; [done|lia|apply len_truncate; lia]).
  destruct (Z.eqb_spec size 0) as [E|E].
  { assert (Hn : flat (vm_read mem) rs = []) by (destruct (flat _ _); [done|rewrite len_cons in Hl; pose proof (len_nonneg l); lia]).
    rewrite Hn. split; [by apply (copied_full _ size bs)|done]. }
  pose proof (copyProcessMemory_spec mem bs size Hbs ltac:(unfold_int; lia) _ answers rs Hst eq_refl
    Hiov Hmax Hmm Hr Hpos Hal eq_refl) as Hc.
  destruct (copyProcessMemory _ _ _ _) as [[a c]|e]; [|done]. split; [apply (copied_full c size bs); [done|lia]|apply Hc].
Qed.

Definition proc_ranges : list Range := [mkBlockRange 8192 8192; mkBlockRange 40960 4096].
Definition proc_answers : list VmRes := [VmRetry; VmRead 20000].

Lemma NewCacheFromProcessMemory_reads_witness :
  ∃ c : Cache (gset Z),
    NewCacheFromProcessMemory (H:=small_host) (λ a, a / 4096) 4096 [] proc_answers proc_ranges = Ok c ∧
    full c (flat (vm_read (λ a, a / 4096)) proc_ranges).
Proof.
  assert (Hok : is_ok (NewCacheFromProcessMemory (H:=small_host) (B:=gset Z) (λ a, a / 4096) 4096 []
    proc_answers proc_ranges) = true) by (vm_compute; reflexivity).
  pose proof (NewCacheFromProcessMemory_reads (H:=small_host) (B:=gset Z) (λ a, a / 4096) 4096 [] proc_answers
    proc_ranges) as Hp.
  destruct (NewCacheFromProcessMemory _ _ _ _ _) as [c|e]; [|discriminate Hok].
  exists c. split; [reflexivity|]. apply Hp.
  - lia.
  - cbn. lia.
  - vm_compute. split; congruence.
  - vm_compute. reflexivity.
  - repeat constructor; cbn; lia.
  - repeat constructor; cbn; lia.
  - repeat constructor.
  - cbn. lia.
  - cbn. lia.
Defined.

(** A cache filled from a memory file holds the dirty blocks of the file
    packed in order, every block present; the copy fails only by cancellation. *)
Theorem NewCacheFromMemfd_copies `{Bitmap B} cancelled bs contents mem (dirty : B) nblocks :
  0 < bs <= 2 ^ 30 → nblocks * bs <= len mem → is_i64 (len mem) → 0 <= nblocks < 2 ^ 32 →
  (∀ i, bm_contains dirty i = true → i < nblocks) →
  match NewCacheFromMemfd cancelled bs contents mem dirty with
  | Ok c => full c (pack bs (bm_ranges dirty) mem)
  | Err e => e = MemfdCancelled ∧ ∃ off, cancelled off = true
  end.
Proof.
  intros Hbs Hm Hi Hn Hin. unfold NewCacheFromMemfd.
  pose proof (pack_card dirty bs mem nblocks (proj1 Hbs) Hm Hin) as Hcard.
  pose proof (bm_ranges_below dirty nblocks Hin) as Hb.
  pose proof (len_pack bs mem nblocks 0 _ (proj1 Hbs) Hm ltac:(lia) (proj1 Hn) (bm_ranges_wf dirty) Hb) as Hl.
  pose proof (len_nonneg (pack bs (bm_ranges dirty) mem)).
  assert (Hc0 : 0 <= bm_card_range 0 (2 ^ 32) dirty <= nblocks) by nia.
  rewrite (i64_id (bm_card_range _ _ _)) by (unfold_int; lia). rewrite <- Hcard. rewrite i64_id by (unfold_int; lia).
  set (size := len (pack bs (bm_ranges dirty) mem)) in *.
  assert (Hst : copied (NewCache (B:=B) size bs (truncate contents size) false) size bs [])
    by (apply copied_start; [lia|nia|apply len_truncate; lia]).
  pose proof (copy_memfd_loop_spec cancelled mem bs size nblocks 0 (bm_ranges dirty) _ [] Hbs Hm Hi
    ltac:(unfold_int; lia) ltac:(lia) (bm_ranges_wf dirty) Hb Hst eq_refl) as Hc.
  rewrite len_nil in Hc. specialize (Hc ltac:(fold size; lia)).
  unfold copyFromMemfd, BitsetRanges. destruct (copy_memfd_loop _ _ _ _ _); [|done].
  by apply (copied_full _ size bs).
Qed.

Lemma NewCacheFromMemfd_copies_witness :
  ∃ c, NewCacheFromMemfd (B:=gset Z) (λ _, false) 2 [] [9; 9; 1; 2; 3; 4; 8; 8] {[1; 2]} = Ok c ∧
    c_mmap c = Some [1; 2; 3; 4] ∧ full c (pack 2 [(1, 3)] [9; 9; 1; 2; 3; 4; 8; 8]).
Proof.
  pose proof (NewCacheFromMemfd_copies (λ _, false) 2 [] [9; 9; 1; 2; 3; 4; 8; 8] ({[1; 2]} : gset Z) 4) as Hc.
  replace (bm_ranges ({[1; 2]} : gset Z)) with [(1, 3)] in Hc by (vm_compute; reflexivity).
  destruct (NewCacheFromMemfd _ _ _ _ _) as [c|e] eqn:E.
  - exists c. split; [reflexivity|]. split; [|apply Hc].
    + apply ok_inj in E. rewrite <- E. vm_compute. reflexivity.
    + lia.
    + vm_compute. congruence.
    + split; vm_compute; congruence.
    + lia.
    + intros i [-> | ->]%page_dirty; lia.
  - vm_compute in E. discriminate E.
Defined.
