(* ===== verification/Dedup.v ===== *)
(** * Dedup: page deduplication of a memory snapshot

    Models [sandbox/block/dedup.go] and [Cache.Dedup]: every page of a dirty
    block is classified against the parent image (zero, equal, different), two
    passes may store equal pages after all to save fetches on a restore, and
    the stored pages are packed.  The price of the first pass is a floating
    point formula of Go's [math.Pow]; it is the parameter [worth] here, and
    every theorem holds for any choice it makes.  The last theorem says that
    whatever is deduplicated or promoted, the restored memory is the process's. *)

From S2P Require Import Prelude Bytes Bitmap Blocks Mapping Compact FrameTable Header Export.
From S2P Require Import Tracker Cache Overlay Snapshot Drain Fill.

Definition DefaultCompressFrameSize : Z := 2 * 1024 * 1024.

(** ** Data *)

Record DedupBudget := mkBudget {
  MaxFetchWindowsPerBlock : Z;
  MaxPromotedParentPagesPerBlock : Z;
  MaxPagesPerPromotedFrame : Z;
  BlockFaultPct : Z;
  FetchRunWindowPages : Z
}.

Inductive dedupPageKind := dedupPageEmpty | dedupPageParent | dedupPageCurrent.

#[global] Instance dedupPageKind_eq_dec : EqDecision dedupPageKind.
Proof. solve_decision. Defined.

(** The build and the window of it. *)
Notation dedupFetchKey := (uuid * Z)%type.

Record dedupPageInfo := mkPage { pg_kind : dedupPageKind; pg_key : dedupFetchKey }.

#[global] Instance dedupPageInfo_eq_dec : EqDecision dedupPageInfo.
Proof. solve_decision. Defined.

Record dedupPlan (B : Type) := mkPlan {
  pageDirty : B;
  pageEmpty : B;
  exportedSize : Z;
  promotedBlocks : Z;
  promotedPages : Z;
  parentFrames : Z;
  promotedFrames : Z;
  promotedFramePages : Z
}.
Arguments mkPlan {B} _ _ _ _ _ _ _ _.
Arguments pageDirty {B} _.
Arguments pageEmpty {B} _.
Arguments exportedSize {B} _.
Arguments promotedBlocks {B} _.
Arguments promotedPages {B} _.
Arguments parentFrames {B} _.
Arguments promotedFrames {B} _.
Arguments promotedFramePages {B} _.

Inductive dedup_err (E F : Type) :=
| DedupSrc (e : E)
| DedupBase (e : F)
| DedupCancelled
| DedupPanic.
Arguments DedupSrc {E F} _.
Arguments DedupBase {E F} _.
Arguments DedupCancelled {E F}.
Arguments DedupPanic {E F}.

(** ** Fetch keys *)

Definition fetchKeyAndEnd (ft : option FrameTable) (buildID : uuid) (off windowBytes : Z) : dedupFetchKey * Z :=
  let bucket := ((buildID, Z.quot off windowBytes), i64 (i64 (Z.quot off windowBytes + 1) * windowBytes)) in
  if IsCompressed ft then
    match LocateUncompressed ft off with
    | Ok u =>
        if off <? i64 (r_Offset u + r_Length u)
        then ((buildID, Z.quot (r_Offset u) PageSize), i64 (r_Offset u + r_Length u))
        else bucket
    | Err _ => bucket
    end
  else bucket.

(** [mapped] is [None] without a mapping. *)
Definition parentFetchKey (baseHeader : option Header) (mapped : option BuildMap) (pageOff windowBytes : Z)
    : dedupFetchKey :=
  match mapped with
  | None => (uuid_nil, Z.quot pageOff windowBytes)
  | Some m =>
      let ft := match baseHeader with Some h => GetBuildFrameData h (BuildId m) | None => None end in
      (fetchKeyAndEnd ft (BuildId m) (i64 (Offset m)) windowBytes).1
  end.

Definition mapping_of (baseHeader : option Header) (pageOff : Z) : option BuildMap :=
  match baseHeader with
  | Some h => match GetShiftedMapping h pageOff with Ok m => Some m | Err _ => None end
  | None => None
  end.

(** ** [fetchWindower] *)

Record fetchWindower := mkWindower { windowPages : Z; currentStart : Z }.

Definition currentWindows (w : fetchWindower) (n : Z) : Z :=
  if n =? 0 then 0
  else i64 (i64 (Z.quot (i64 (i64 (currentStart w + n) - 1)) (windowPages w) - Z.quot (currentStart w) (windowPages w)) + 1).

(** The parent pages of one key, by index. *)
Definition key_indices (pages : list dedupPageInfo) (k : dedupFetchKey) : list Z :=
  (filter (λ p, pg_kind p.2 = dedupPageParent ∧ pg_key p.2 = k) (imap (λ i p, (Z.of_nat i, p)) pages)).*1.

Definition parent_keys (pages : list dedupPageInfo) : gset dedupFetchKey :=
  list_to_set (pg_key <$> filter (λ p, pg_kind p = dedupPageParent) pages).

(** Smaller groups first, ties by the first index. *)
Definition group_le (a b : list Z) : Prop :=
  len a < len b ∨ (len a = len b ∧ default 0 (a !! O) <= default 0 (b !! O)).
#[global] Instance group_le_dec a b : Decision (group_le a b).
Proof. unfold group_le. apply _. Defined.

Definition parentKeyGroups (pages : list dedupPageInfo) : list (list Z) :=
  merge_sort group_le (key_indices pages <$> elements (parent_keys pages)).

(** The prefix scan: [g] groups of [n] pages taken so far, the best count and
    the choice that reached it. *)
Fixpoint scan_groups (w : fetchWindower) (ngroups nCur maxWindows maxPromoted : Z) (groups : list (list Z))
    (g n best chosen promoted : Z) : Z * Z :=
  match groups with
  | [] => (chosen, promoted)
  | grp :: groups =>
      let n := i64 (n + len grp) in
      if maxPromoted <? n then (chosen, promoted)
      else
        let c := i64 (ngroups - (g + 1) + currentWindows w (i64 (nCur + n))) in
        let '(best, chosen, promoted) := if c <? best then (c, g + 1, n) else (best, chosen, promoted) in
        if best <=? maxWindows then (chosen, promoted)
        else scan_groups w ngroups nCur maxWindows maxPromoted groups (g + 1) n best chosen promoted
  end.

Definition set_current (pages : list dedupPageInfo) (i : Z) : list dedupPageInfo :=
  alter (λ p, mkPage dedupPageCurrent (pg_key p)) (Z.to_nat i) pages.

Definition count_current (pages : list dedupPageInfo) : Z :=
  len (filter (λ p, pg_kind p = dedupPageCurrent) pages).

(** The pages after the promotion and how many were promoted. *)
Definition compact (w : fetchWindower) (pages : list dedupPageInfo) (maxWindows maxPromoted : Z)
    : list dedupPageInfo * Z :=
  if (maxWindows <=? 0) || (maxPromoted <=? 0) then (pages, 0)
  else
    let nCur := count_current pages in
    let groups := parentKeyGroups pages in
    let best := i64 (len groups + currentWindows w nCur) in
    if best <=? maxWindows then (pages, 0)
    else
      let '(chosen, promoted) := scan_groups w (len groups) nCur maxWindows maxPromoted groups 0 0 best 0 0 in
      (foldl set_current pages (concat (take (Z.to_nat chosen) groups)), promoted).

(** ** [dedupCompare] *)

(** Offsets [0, step, 2*step, ...] below [size]. *)
Definition steps (size step : Z) : list Z :=
  (λ k, i64 (k * step)) <$> seqZ 0 ((size + step - 1) / step).

(** The offsets of the blocks of a range set. *)
Definition block_offsets (rs : list Range) (blockSize : Z) : list Z :=
  concat ((λ r, (λ o, i64 (Start r + o)) <$> steps (RSize r) blockSize) <$> rs).

Section compare.
Context `{Bitmap B} {E F : Type}.
Context (src : Z → result E bytes) (base_Slice : Z → Z → result F bytes).
Context (baseHeader : option Header) (IsCached : option (Z → Z → bool)) (cancelled : Z → bool).

(** The scan's state: the plan's bitmaps and the pages of each parent key. *)
Record scan := mkScan { sc_dirty : B; sc_empty : B; sc_parent : gmap dedupFetchKey B }.

Definition add_dirty (p : Z) (s : scan) : scan := mkScan (bm_add p (sc_dirty s)) (sc_empty s) (sc_parent s).
Definition add_empty (p : Z) (s : scan) : scan := mkScan (sc_dirty s) (bm_add p (sc_empty s)) (sc_parent s).
Definition add_parent (k : dedupFetchKey) (p : Z) (s : scan) : scan :=
  mkScan (sc_dirty s) (sc_empty s) (<[k := bm_add p (default bm_new (sc_parent s !! k))]> (sc_parent s)).

(** The body of the page loop, on the page [srcPage] at [pageOff]. *)
Definition compare_page (bestEffort : bool) (windowBytes : Z) (srcPage : bytes) (pageOff : Z) (s : scan)
    : result (dedup_err E F) scan :=
  let pageIdx := u32 (Z.quot pageOff PageSize) in
  if IsZero srcPage then Ok (add_empty pageIdx s)
  else
    let mapped := mapping_of baseHeader pageOff in
    if match mapped with
       | Some m => bool_decide (BuildId m = uuid_nil) && (PageSize <=? i64 (Length m))
       | None => false
       end then Ok (add_dirty pageIdx s)
    else if bestEffort && match IsCached with Some f => negb (f pageOff PageSize) | None => false end
    then Ok (add_dirty pageIdx s)
    else
      match base_Slice pageOff PageSize with
      | Err e => Err (DedupBase e)
      | Ok basePage =>
          if negb (bool_decide (srcPage = basePage)) then Ok (add_dirty pageIdx s)
          else Ok (add_parent (parentFetchKey baseHeader mapped pageOff windowBytes) pageIdx s)
      end.

Fixpoint compare_pages (bestEffort : bool) (windowBytes : Z) (srcBuf : bytes) (absOff : Z) (todo : list Z) (s : scan)
    : result (dedup_err E F) scan :=
  match todo with
  | [] => Ok s
  | i :: todo =>
      if len srcBuf <? i + PageSize then Err DedupPanic
      else
        s ← compare_page bestEffort windowBytes (slice i (i + PageSize) srcBuf) (i64 (absOff + i)) s;
        compare_pages bestEffort windowBytes srcBuf absOff todo s
  end.

Fixpoint compare_blocks (bestEffort : bool) (windowBytes blockSize : Z) (offs : list Z) (s : scan)
    : result (dedup_err E F) scan :=
  match offs with
  | [] => Ok s
  | absOff :: offs =>
      if cancelled absOff then Err DedupCancelled
      else
        match src absOff with
        | Err e => Err (DedupSrc e)
        | Ok srcBuf =>
            s ← compare_pages bestEffort windowBytes srcBuf absOff (steps blockSize PageSize) s;
            compare_blocks bestEffort windowBytes blockSize offs s
        end
  end.

(** ** [promoteCheapFrames] *)

(** [worth n maxPages ext distinct pct]: whether the price of [n] pages is
    within [maxPages] times the expected fetches saved. *)
Context (worth : Z → Z → Z → Z → Z → bool).

Definition bm_elems (b : B) : list Z := concat ((λ '(s, e), seqZ s (e - s)) <$> bm_ranges b).
Definition GetCardinality (b : B) : Z := bm_card_range 0 (2 ^ 32) b.

Definition distinctBlocks (pages : B) (pagesPerBlock : Z) : Z :=
  (foldl (λ '(n, last) p, let b := Z.quot p pagesPerBlock in if b =? last then (n, last) else (n + 1, b))
     (0, -1) (bm_elems pages)).1.

Definition promoteCheapFrames (p : dedupPlan B) (parentByKey : gmap dedupFetchKey B)
    (extBlocks : gmap dedupFetchKey Z) (pagesPerBlock : Z) (budget : DedupBudget) : dedupPlan B :=
  let maxPages := Z.min (MaxPagesPerPromotedFrame budget) (FetchRunWindowPages budget - 1) in
  foldl (λ p '(k, bm),
    let n := GetCardinality bm in
    if (0 <? n) && worth n maxPages (default 0 (extBlocks !! k)) (distinctBlocks bm pagesPerBlock) (BlockFaultPct budget)
    then mkPlan (bm_or (pageDirty p) bm) (pageEmpty p) (exportedSize p) (promotedBlocks p) (promotedPages p)
           (parentFrames p) (promotedFrames p + 1) (promotedFramePages p + n)
    else p) p (map_to_list parentByKey).

(** ** [countExternalBlocks] *)

(** The windows of one block: counts and the last block of each key. *)
Fixpoint count_windows (fuel : nat) (candidates : gmap dedupFetchKey B) (ft : option FrameTable) (buildID : uuid)
    (windowBytes block off hi : Z) (counts lastBlock : gmap dedupFetchKey Z)
    : gmap dedupFetchKey Z * gmap dedupFetchKey Z :=
  match fuel with
  | O => (counts, lastBlock)
  | S fuel =>
      if off <? hi then
        let '(key, next) := fetchKeyAndEnd ft buildID off windowBytes in
        if bool_decide (is_Some (candidates !! key)) && negb (default 0 (lastBlock !! key) =? block + 1)
        then count_windows fuel candidates ft buildID windowBytes block next hi
               (<[key := default 0 (counts !! key) + 1]> counts) (<[key := block + 1]> lastBlock)
        else count_windows fuel candidates ft buildID windowBytes block next hi counts lastBlock
      else (counts, lastBlock)
  end.

(** The blocks of one mapping from [block] on. *)
Fixpoint count_blocks (fuel : nat) (candidates : gmap dedupFetchKey B) (ft : option FrameTable) (m : BuildMap)
    (dirty : B) (blockSize windowBytes end_ block : Z) (counts lastBlock : gmap dedupFetchKey Z)
    : gmap dedupFetchKey Z * gmap dedupFetchKey Z :=
  match fuel with
  | O => (counts, lastBlock)
  | S fuel =>
      if i64 (block * blockSize) <? end_ then
        if bm_contains dirty (u32 block)
        then count_blocks fuel candidates ft m dirty blockSize windowBytes end_ (block + 1) counts lastBlock
        else
          let lo := i64 (Z.max (block * blockSize) (i64 (Offset m)) - i64 (Offset m) + i64 (BuildStorageOffset m)) in
          let hi := i64 (Z.min ((block + 1) * blockSize) end_ - i64 (Offset m) + i64 (BuildStorageOffset m)) in
          let '(counts, lastBlock) :=
            count_windows (Z.to_nat (hi - lo)) candidates ft (BuildId m) windowBytes block lo hi counts lastBlock in
          count_blocks fuel candidates ft m dirty blockSize windowBytes end_ (block + 1) counts lastBlock
      else (counts, lastBlock)
  end.

Definition countExternalBlocks (candidates : gmap dedupFetchKey B) (dirty : B) (blockSize windowBytes : Z)
    : gmap dedupFetchKey Z :=
  match baseHeader with
  | None => ∅
  | Some h =>
      if decide (candidates = ∅) then ∅
      else
        (foldl (λ '(counts, lastBlock) '(_, m),
           if bool_decide (BuildId m = uuid_nil) then (counts, lastBlock)
           else
             let end_ := i64 (u64 (Offset m + Length m)) in
             count_blocks (Z.to_nat end_) candidates (GetBuildFrameData h (BuildId m)) m dirty blockSize windowBytes
               end_ (Z.quot (i64 (Offset m)) blockSize) counts lastBlock)
         (∅, ∅) (default [] (All (h_Mapping h)))).1
  end.

(** ** [compactBlockWindows] *)

Definition classify (plan : dedupPlan B) (windowBytes absOff firstPage p : Z) : dedupPageInfo :=
  let pageIdx := u32 (firstPage + p) in
  if bm_contains (pageDirty plan) pageIdx then mkPage dedupPageCurrent (uuid_nil, 0)
  else if bm_contains (pageEmpty plan) pageIdx then mkPage dedupPageEmpty (uuid_nil, 0)
  else
    let pageOff := i64 (absOff + p * PageSize) in
    mkPage dedupPageParent (parentFetchKey baseHeader (mapping_of baseHeader pageOff) pageOff windowBytes).

Definition with_dirty (plan : dedupPlan B) (d : B) : dedupPlan B :=
  mkPlan d (pageEmpty plan) (exportedSize plan) (promotedBlocks plan) (promotedPages plan)
    (parentFrames plan) (promotedFrames plan) (promotedFramePages plan).

(** Store the current pages; the running count of stored pages goes up. *)
Definition store_current (plan : dedupPlan B) (firstPage : Z) (pages : list dedupPageInfo) (stored : Z)
    : dedupPlan B * Z :=
  foldl (λ '(plan, stored) '(p, info),
    if bool_decide (pg_kind info = dedupPageCurrent)
    then (with_dirty plan (bm_add (u32 (firstPage + p)) (pageDirty plan)), stored + 1)
    else (plan, stored)) (plan, stored) (imap (λ p info, (Z.of_nat p, info)) pages).

Definition compact_block (blockSize windowBytes : Z) (budget : DedupBudget) (absOff : Z)
    (st : dedupPlan B * Z) : dedupPlan B * Z :=
  let '(plan, stored) := st in
  let firstPage := u32 (Z.quot absOff PageSize) in
  let pages := classify plan windowBytes absOff firstPage <$> seqZ 0 (Z.quot blockSize PageSize) in
  let w := mkWindower (FetchRunWindowPages budget) stored in
  let '(pages, n) := compact w pages (MaxFetchWindowsPerBlock budget) (MaxPromotedParentPagesPerBlock budget) in
  let plan := if 0 <? n
              then mkPlan (pageDirty plan) (pageEmpty plan) (exportedSize plan) (promotedBlocks plan + 1)
                     (promotedPages plan + n) (parentFrames plan) (promotedFrames plan) (promotedFramePages plan)
              else plan in
  store_current plan firstPage pages stored.

Fixpoint compact_blocks (blockSize windowBytes : Z) (budget : DedupBudget) (offs : list Z) (st : dedupPlan B * Z)
    : result (dedup_err E F) (dedupPlan B * Z) :=
  match offs with
  | [] => Ok st
  | absOff :: offs =>
      if cancelled absOff then Err DedupCancelled
      else compact_blocks blockSize windowBytes budget offs (compact_block blockSize windowBytes budget absOff st)
  end.

Definition compactBlockWindows (plan : dedupPlan B) (dirty : B) (blockSize windowBytes : Z) (budget : DedupBudget)
    : result (dedup_err E F) (dedupPlan B) :=
  if (MaxFetchWindowsPerBlock budget <=? 0) || (MaxPromotedParentPagesPerBlock budget <=? 0) then Ok plan
  else '(plan, _) ← compact_blocks blockSize windowBytes budget
                      (block_offsets (BitsetRanges dirty blockSize) blockSize) (plan, 0); Ok plan.

Definition dedupCompare (dirty : B) (blockSize : Z) (bestEffort : bool) (budget : DedupBudget)
    : result (dedup_err E F) (dedupPlan B) :=
  let budget := if FetchRunWindowPages budget <=? 0
                then mkBudget (MaxFetchWindowsPerBlock budget) (MaxPromotedParentPagesPerBlock budget)
                       (MaxPagesPerPromotedFrame budget) (BlockFaultPct budget)
                       (Z.quot DefaultCompressFrameSize PageSize)
                else budget in
  let windowBytes := i64 (FetchRunWindowPages budget * PageSize) in
  let rs := BitsetRanges dirty blockSize in
  s ← compare_blocks bestEffort windowBytes blockSize (block_offsets rs blockSize) (mkScan bm_new bm_new ∅);
  let plan := mkPlan (sc_dirty s) (sc_empty s) (GetSize rs) 0 0 (Z.of_nat (size (sc_parent s))) 0 0 in
  let plan :=
    if 0 <? MaxPagesPerPromotedFrame budget
    then promoteCheapFrames plan (sc_parent s) (countExternalBlocks (sc_parent s) dirty blockSize windowBytes)
           (Z.quot blockSize PageSize) budget
    else plan in
  compactBlockWindows plan dirty blockSize windowBytes budget.
End compare.

(** ** [Cache.Dedup] *)

Inductive cdedup_err (F : Type) :=
| ComparePhase (e : dedup_err cache_err F)
| DrainPhase (e : drain_err (fill_err cache_err)).
Arguments ComparePhase {F} _.
Arguments DrainPhase {F} _.

(** The packed position of every dirty block of a packed cache. *)
Definition packed_offsets `{Bitmap B} (dirty : B) (blockSize : Z) : gmap Z Z :=
  (foldl (λ '(m, cum) off, (<[off := cum]> m, i64 (cum + blockSize))) (∅, 0)
     (block_offsets (BitsetRanges dirty blockSize) blockSize)).1.

(** [BytesNotAvailableError] stands for the error of an offset not packed. *)
Definition packed_src `{Bitmap B} (c : Cache B) (packed : gmap Z Z) (blockSize absOff : Z) : result cache_err bytes :=
  match packed !! absOff with
  | Some idx => cSlice c idx blockSize
  | None => Err BytesNotAvailableError
  end.

Definition Dedup `{Host} `{Bitmap B} {F : Type} (base_Slice : Z → Z → result F bytes) (baseHeader : option Header)
    (IsCached : option (Z → Z → bool)) (cancelled : Z → bool) (worth : Z → Z → Z → Z → Z → bool)
    (c : Cache B) (dirty : B) (blockSize : Z) (bestEffort directIO falloc : bool) (budget : DedupBudget)
    (answers : list PwRes) : result (cdedup_err F) (Cache B * DiffMetadata B) :=
  let src := packed_src c (packed_offsets dirty blockSize) blockSize in
  match dedupCompare src base_Slice baseHeader IsCached cancelled worth dirty blockSize bestEffort budget with
  | Err e => Err (ComparePhase e)
  | Ok plan =>
      match dedupDrain src cancelled (pageDirty plan) blockSize directIO falloc answers with
      | Err e => Err (DrainPhase e)
      | Ok cache => Ok (cache, mkDiffMetadata (pageDirty plan) (pageEmpty plan) PageSize)
      end
  end.

(** ** The classification is right *)

(** The promotion of [compact] only turns parent pages into current ones. *)
Definition promoted_from (pages : list dedupPageInfo) (i : nat) (q : dedupPageInfo) : Prop :=
  ∃ p, pages !! i = Some p ∧ (q = p ∨ (pg_kind p = dedupPageParent ∧ pg_kind q = dedupPageCurrent)).

Lemma key_indices_parent pages k i :
  i ∈ key_indices pages k → ∃ p, pages !! Z.to_nat i = Some p ∧ pg_kind p = dedupPageParent ∧ pg_key p = k ∧ 0 <= i.
Proof.
  unfold key_indices. rewrite list_elem_of_fmap. intros ([j p] & -> & Hf).
  apply list_elem_of_filter in Hf as [[Hk Hk'] Hp]. apply list_elem_of_lookup in Hp as [n Hn].
  rewrite list_lookup_imap in Hn. destruct (pages !! n) as [p'|] eqn:E; [|done].
  cbn in Hn. injection Hn as <- <-. exists p'. cbn. rewrite Nat2Z.id. auto with lia.
Qed.

Lemma groups_parent pages i :
  i ∈ concat (parentKeyGroups pages) → ∃ p, pages !! Z.to_nat i = Some p ∧ pg_kind p = dedupPageParent.
Proof.
  rewrite list_elem_of_In, in_concat. intros (g & Hg & Hi). apply list_elem_of_In in Hg, Hi.
  unfold parentKeyGroups in Hg. rewrite merge_sort_Permutation in Hg.
  apply list_elem_of_fmap in Hg as (k & -> & _). apply key_indices_parent in Hi as (p & ? & ? & _). eauto.
Qed.

Lemma set_current_from pages is_ cur :
  (∀ i, i ∈ is_ → ∃ p, pages !! Z.to_nat i = Some p ∧ pg_kind p = dedupPageParent) →
  (∀ i q, cur !! i = Some q → promoted_from pages i q) →
  ∀ i q, foldl set_current cur is_ !! i = Some q → promoted_from pages i q.
Proof.
  revert cur. induction is_ as [|j js IH]; intros cur Hp Hcur i q; cbn [foldl]; [apply Hcur|].
  apply IH; [intros; apply Hp; by right|]. clear i q. intros i q Hq. unfold set_current in Hq.
  destruct (Hp j) as (p & Hlp & Hk); [left|].
  destruct (decide (i = Z.to_nat j)) as [->|Hne].
  - rewrite list_lookup_alter_eq in Hq. destruct (cur !! Z.to_nat j) as [c|] eqn:Ec; [|done]. cbn in Hq.
    injection Hq as <-. exists p. split; [done|right; done].
  - rewrite list_lookup_alter_ne in Hq by done. by apply Hcur.
Qed.

Lemma compact_from w pages a b i q :
  (compact w pages a b).1 !! i = Some q → promoted_from pages i q.
Proof.
  unfold compact. destruct (_ || _); [intros H; exists q; auto|].
  destruct (_ <=? a); [intros H; exists q; auto|].
  destruct (scan_groups _ _ _ _ _ _ _ _ _ _ _) as [chosen promoted]. cbn [fst].
  apply set_current_from; [|intros j p Hj; exists p; auto].
  intros j Hj. apply groups_parent. rewrite <- (take_drop (Z.to_nat chosen) (parentKeyGroups pages)).
  rewrite concat_app. apply elem_of_app. by left.
Qed.

Lemma bm_add_true `{Bitmap B} p q (b : B) : is_u32 p → bm_contains (bm_add p b) q = true ↔ q = p ∨ bm_contains b q = true.
Proof.
  intros Hp. rewrite bm_contains_add by done. rewrite orb_true_iff, Z.eqb_eq. intuition congruence.
Qed.

Lemma store_current_spec `{Bitmap B} (plan : dedupPlan B) first l stored :
  let r := (foldl (λ '(plan, stored) '(p, info),
    if bool_decide (pg_kind info = dedupPageCurrent)
    then (with_dirty plan (bm_add (u32 (first + p)) (pageDirty plan)), stored + 1)
    else (plan, stored)) (plan, stored) l).1 in
  pageEmpty r = pageEmpty plan ∧
  ∀ q, bm_contains (pageDirty r) q = true ↔
    bm_contains (pageDirty plan) q = true ∨
    ∃ p info, (p, info) ∈ l ∧ pg_kind info = dedupPageCurrent ∧ q = u32 (first + p).
Proof.
  revert plan stored. induction l as [|[p info] l IH]; intros plan stored; cbn [foldl].
  { split; [done|]. set_solver. }
  destruct (bool_decide _) eqn:Ek.
  - apply bool_decide_eq_true in Ek. destruct (IH (with_dirty plan (bm_add (u32 (first + p)) (pageDirty plan))) (stored + 1)) as [I1 I2].
    split; [exact I1|]. intros q. rewrite I2. cbn [with_dirty pageDirty]. rewrite bm_add_true by apply u32_range. split.
    + intros [[-> | Hq]|(p' & i' & ? & ? & ?)]; [right; exists p, info; set_solver|by left|right; exists p', i'; set_solver].
    + intros [Hq|(p' & i' & Hin' & Hc & ->)]; [by left; right|]. apply elem_of_cons in Hin' as [[= -> ->]|Hin'];
        [by left; left|right; eauto].
  - apply bool_decide_eq_false in Ek. destruct (IH plan stored) as [I1 I2]. split; [exact I1|].
    intros q. rewrite I2. split; intros [Hq|(p' & i' & Hin' & Hc & ->)]; try (by left).
    + right. exists p', i'. set_solver.
    + apply elem_of_cons in Hin' as [[= -> ->]|Hin']; [done|right; eauto].
Qed.

Section correct.
Context `{Bitmap B} {E F : Type}.
Context (base_Slice : Z → Z → result F bytes).
Context (baseHeader : option Header) (IsCached : option (Z → Z → bool)).
Context (M D : bytes) (bs : Z) (dirty : B).
Hypothesis Hbs : 0 < bs < 2 ^ 31.
Hypothesis Hpages : bs mod PageSize = 0.
Hypothesis HM : len M < 2 ^ 43.
Hypothesis Hin : ∀ i, bm_contains dirty i = true → (i + 1) * bs <= len M.
Hypothesis Hbase : ∀ p b, 0 <= p → base_Slice (p * PageSize) PageSize = Ok b →
  b = slice (p * PageSize) (p * PageSize + PageSize) D.

Definition page (m : bytes) (p : Z) : bytes := slice (p * PageSize) (p * PageSize + PageSize) m.
Definition zero (p : Z) : Prop := IsZero (page M p) = true.
Definition same (p : Z) : Prop := page M p = page D p.

(** The scan after the pages [P]. *)
Record scan_ok (P : Z → Prop) (s : scan) : Prop := {
  so_empty q : bm_contains (sc_empty s) q = true ↔ P q ∧ zero q;
  so_dirty q : bm_contains (sc_dirty s) q = true → P q ∧ ¬ zero q;
  so_parent k b q : sc_parent s !! k = Some b → bm_contains b q = true → P q ∧ ¬ zero q ∧ same q;
  so_rest q : P q → ¬ zero q → bm_contains (sc_dirty s) q = false → same q
}.

Lemma scan_ok_iff P Q s : (∀ q, P q ↔ Q q) → scan_ok P s → scan_ok Q s.
Proof using Type.
  intros HPQ [H1 H2 H3 H4]. split.
  - intros q. by rewrite <- HPQ.
  - intros q. rewrite <- HPQ. apply H2.
  - intros k b q. rewrite <- HPQ. apply H3.
  - intros q. rewrite <- HPQ. apply H4.
Qed.

Lemma compare_page_ok P best wb p s :
  0 <= p < 2 ^ 31 → scan_ok P s →
  match compare_page (E:=E) base_Slice baseHeader IsCached best wb (page M p) (p * PageSize) s with
  | Ok s' => scan_ok (λ q, P q ∨ q = p) s'
  | Err e => ∃ f, e = DedupBase f ∧ base_Slice (p * PageSize) PageSize = Err f
  end.
Proof using Hbase Hbs.
  intros Hp [H1 H2 H3 H4]. unfold compare_page.
  assert (Hidx : u32 (Z.quot (p * PageSize) PageSize) = p) by (rewrite Z.quot_mul by done; apply u32_id; ilia).
  assert (Hu : is_u32 p) by ilia. rewrite Hidx.
  destruct (IsZero (page M p)) eqn:Ez.
  { split; cbn [add_empty sc_empty sc_dirty sc_parent].
    - intros q. rewrite bm_add_true, H1 by done. unfold zero. naive_solver.
    - intros q Hq. destruct (H2 q Hq). auto.
    - intros k b q Hk Hq. destruct (H3 k b q Hk Hq) as (? & ? & ?). auto.
    - intros q [Hq | ->] Hz Hd; [by apply H4|]. done. }
  assert (Hd : scan_ok (λ q, P q ∨ q = p) (add_dirty p s)).
  { split; cbn [add_dirty sc_empty sc_dirty sc_parent].
    - intros q. rewrite H1. unfold zero. split; [naive_solver|]. intros [[Hq | ->] Hz]; [done|congruence].
    - intros q. rewrite bm_add_true by done. intros [-> | Hq]; [unfold zero; split; [by right|congruence]|].
      destruct (H2 q Hq). auto.
    - intros k b q Hk Hq. destruct (H3 k b q Hk Hq) as (? & ? & ?). auto.
    - intros q Hq Hz Hd. rewrite <- not_true_iff_false, bm_add_true in Hd by done.
      apply H4; [|done|]; [destruct Hq as [| ->]; [done|naive_solver]|]. apply not_true_iff_false. naive_solver. }
  destruct (match mapping_of _ _ with Some _ => _ | None => _ end); [exact Hd|].
  destruct (best && _); [exact Hd|].
  destruct (base_Slice (p * PageSize) PageSize) as [b|f] eqn:Eb; [|eauto].
  destruct (negb _) eqn:En; [exact Hd|]. apply negb_false_iff, bool_decide_eq_true in En.
  assert (Hs : same p) by (unfold same, page at 2; rewrite En; apply Hbase; [lia|done]).
  split; cbn [add_parent sc_empty sc_dirty sc_parent].
  - intros q. rewrite H1. unfold zero. split; [naive_solver|]. intros [[Hq | ->] Hz]; [done|congruence].
  - intros q Hq. destruct (H2 q Hq). auto.
  - intros k b' q Hk. destruct (decide (k = parentFetchKey baseHeader (mapping_of baseHeader (p * PageSize)) (p * PageSize) wb)) as [->|Hne].
    + rewrite lookup_insert_eq in Hk. injection Hk as <-. rewrite bm_add_true by done.
      intros [-> | Hq]; [unfold zero; split_and!; [by right|congruence|done]|].
      destruct (sc_parent s !! _) as [b0|] eqn:E0; cbn in Hq; [|by rewrite bm_contains_new in Hq].
      destruct (H3 _ _ _ E0 Hq) as (? & ? & ?). auto.
    + rewrite lookup_insert_ne in Hk by done. intros Hq. destruct (H3 _ _ _ Hk Hq) as (? & ? & ?). auto.
  - intros q [Hq | ->] Hz Hdq; [by apply H4|done].
Qed.

Lemma compare_pages_ok P best wb i todo s :
  bm_contains dirty i = true → Forall (λ o, 0 <= o ∧ o mod PageSize = 0 ∧ o + PageSize <= bs) todo → scan_ok P s →
  match compare_pages (E:=E) base_Slice baseHeader IsCached best wb (slice (i * bs) (i * bs + bs) M) (i * bs) todo s with
  | Ok s' => scan_ok (λ q, P q ∨ ∃ o, o ∈ todo ∧ q * PageSize = i * bs + o) s'
  | Err e => ∃ f p, e = DedupBase f ∧ base_Slice (p * PageSize) PageSize = Err f
  end.
Proof using Hbase Hbs Hpages HM Hin.
  intros Hi. revert P s. induction todo as [|o todo IH]; intros P s Ht Hs; cbn [compare_pages].
  { eapply scan_ok_iff; [|exact Hs]. set_solver. }
  apply Forall_cons in Ht as [(Ho & Hom & Hob) Ht]. specialize (Hin i Hi).
  pose proof (bm_contains_u32 _ _ Hi) as Hiu. unfold is_u32 in Hiu. assert (HP : PageSize = 4096) by done.
  assert (0 <= i * bs ∧ i * bs + bs <= len M) as [??] by nia.
  rewrite len_slice by lia. destruct (Z.ltb_spec (i * bs + bs - i * bs) (o + PageSize)); [lia|].
  rewrite i64_id by (unfold_int; lia).
  assert (Hmod : (i * bs + o) mod PageSize = 0) by (rewrite Z.add_mod, Z.mul_mod, Hpages, Hom, Z.mul_0_r by done; done).
  pose proof (Z.div_mod (i * bs + o) PageSize ltac:(done)) as Hdm. rewrite Hmod, Z.add_0_r in Hdm.
  set (p := (i * bs + o) / PageSize) in *.
  assert (Hp : 0 <= p < 2 ^ 31) by lia.
  assert (Hpg : slice o (o + PageSize) (slice (i * bs) (i * bs + bs) M) = page M p).
  { rewrite slice_slice by lia. unfold page. f_equal; lia. }
  rewrite Hpg. replace (i * bs + o) with (p * PageSize) by lia.
  pose proof (compare_page_ok P best wb p s Hp Hs) as Hc.
  destruct (compare_page _ _ _ _ _ _ _ _) as [s'|e]; cbn [mbind result_bind].
  - specialize (IH _ s' Ht Hc). destruct (compare_pages _ _ _ _ _ _ _ _ _) as [s''|e]; [|done].
    eapply scan_ok_iff; [|exact IH]. intros q. cbv beta. split.
    + intros [[Hq | ->]|(o' & Ho' & Hq)]; [by left|right; exists o; split; [left|lia]|right; exists o'; split; [by right|done]].
    + intros [Hq|(o' & Ho' & Hq)]; [by left; left|]. apply elem_of_cons in Ho' as [->|Ho'].
      * left; right. lia.
      * right. eauto.
  - destruct Hc as (f & -> & Hf). eauto.
Qed.

Context (src : Z → result E bytes) (cancelled : Z → bool).
Hypothesis Hsrc : ∀ i, bm_contains dirty i = true → src (i * bs) = Ok (slice (i * bs) (i * bs + bs) M).

(** Pages of the dirty blocks. *)
Definition scanned (q : Z) : Prop := bm_contains dirty (q * PageSize / bs) = true.

Lemma page_in_block i q :
  (∃ o, o ∈ steps bs PageSize ∧ q * PageSize = i * bs + o) ↔ q * PageSize / bs = i.
Proof using Hbs Hpages.
  assert (HP : PageSize = 4096) by done. pose proof (Z.div_mod bs PageSize ltac:(done)) as Hd.
  rewrite Hpages, Z.add_0_r in Hd.
  assert (Hn : (bs + PageSize - 1) / PageSize = bs / PageSize).
  { symmetry. apply (Z.div_unique _ _ _ (PageSize - 1)); lia. }
  assert (0 < bs / PageSize < 2 ^ 31) by lia.
  unfold steps. rewrite Hn. split.
  - intros (o & Ho & Hq). apply list_elem_of_fmap in Ho as (k & -> & Hk). apply elem_of_seqZ in Hk.
    rewrite i64_id in Hq by (unfold_int; lia). symmetry. apply (Z.div_unique _ _ _ (k * PageSize)); lia.
  - intros <-. pose proof (block_of (q * PageSize) bs ltac:(lia)).
    exists (q * PageSize - q * PageSize / bs * bs). split; [|lia].
    apply list_elem_of_fmap. exists (q - q * PageSize / bs * (bs / PageSize)).
    rewrite elem_of_seqZ. set (i := q * PageSize / bs) in *. rewrite i64_id; [|unfold_int]; nia.
Qed.

Lemma steps_ok : Forall (λ o, 0 <= o ∧ o mod PageSize = 0 ∧ o + PageSize <= bs) (steps bs PageSize).
Proof using Hbs Hpages.
  assert (HP : PageSize = 4096) by done. pose proof (Z.div_mod bs PageSize ltac:(done)) as Hd.
  rewrite Hpages, Z.add_0_r in Hd.
  assert (Hn : (bs + PageSize - 1) / PageSize = bs / PageSize).
  { symmetry. apply (Z.div_unique _ _ _ (PageSize - 1)); lia. }
  unfold steps. rewrite Hn. apply Forall_fmap, Forall_forall. intros k Hk%elem_of_seqZ. cbn.
  rewrite i64_id by (unfold_int; lia). split_and!; [lia|by rewrite Z.mod_mul|lia].
Qed.

Lemma compare_blocks_ok P best wb l s :
  Forall (λ i, bm_contains dirty i = true) l → scan_ok P s →
  match compare_blocks (E:=E) src base_Slice baseHeader IsCached cancelled best wb bs ((λ i, i * bs) <$> l) s with
  | Ok s' => scan_ok (λ q, P q ∨ q * PageSize / bs ∈ l) s'
  | Err e => (∃ f p, e = DedupBase f ∧ base_Slice (p * PageSize) PageSize = Err f) ∨
             (e = DedupCancelled ∧ ∃ off, cancelled off = true)
  end.
Proof using Hbase Hbs Hpages HM Hin Hsrc.
  intros Hl. revert P s. induction Hl as [|i l Hi Hl IH]; intros P s Hs; cbn [fmap list_fmap compare_blocks].
  { eapply scan_ok_iff; [|exact Hs]. set_solver. }
  destruct (cancelled (i * bs)) eqn:Ec; [right; eauto|]. rewrite Hsrc by done.
  pose proof (compare_pages_ok P best wb i (steps bs PageSize) s Hi steps_ok Hs) as Hp.
  destruct (compare_pages _ _ _ _ _ _ _ _ _) as [s'|e]; cbn [mbind result_bind].
  - specialize (IH _ s' Hp). destruct (compare_blocks _ _ _ _ _ _ _ _ _ _) as [s''|e]; [|done].
    eapply scan_ok_iff; [|exact IH]. intros q. cbv beta. rewrite page_in_block, elem_of_cons. tauto.
  - left. exact Hp.
Qed.

(** The plan classifies every scanned page right. *)
Record plan_ok (plan : dedupPlan B) : Prop := {
  po_empty q : bm_contains (pageEmpty plan) q = true ↔ scanned q ∧ zero q;
  po_dirty q : bm_contains (pageDirty plan) q = true → scanned q ∧ ¬ zero q;
  po_rest q : scanned q → ¬ zero q → bm_contains (pageDirty plan) q = false → same q
}.

(** Storing more pages that differ from zero keeps a plan right. *)
Lemma plan_ok_more plan plan' :
  plan_ok plan → pageEmpty plan' = pageEmpty plan →
  (∀ q, bm_contains (pageDirty plan') q = true → bm_contains (pageDirty plan) q = true ∨ (scanned q ∧ ¬ zero q)) →
  (∀ q, bm_contains (pageDirty plan) q = true → bm_contains (pageDirty plan') q = true) → plan_ok plan'.
Proof using Type.
  intros [H1 H2 H3] He Hd Hm. split.
  - intros q. by rewrite He.
  - intros q Hq. destruct (Hd q Hq); auto.
  - intros q Hs Hz Hq. apply H3; [done|done|]. destruct (bm_contains (pageDirty plan) q) eqn:E1; [|done].
    rewrite Hm in Hq by done. done.
Qed.

Lemma promoteCheapFrames_ok worth plan parents ext ppb budget :
  plan_ok plan →
  (∀ k b q, parents !! k = Some b → bm_contains b q = true → scanned q ∧ ¬ zero q) →
  plan_ok (promoteCheapFrames worth plan parents ext ppb budget).
Proof using Type.
  intros Hp Hpar. unfold promoteCheapFrames.
  assert (Hl : ∀ k b, (k, b) ∈ map_to_list parents → ∀ q, bm_contains b q = true → scanned q ∧ ¬ zero q).
  { intros k b Hk%elem_of_map_to_list q Hq. by eapply Hpar. }
  revert Hl. generalize (map_to_list parents) as l. intros l. revert plan Hp.
  induction l as [|[k b] l IH]; intros plan Hp Hl; cbn [foldl]; [done|].
  apply IH; [|intros k' b' Hk'; apply (Hl k'); by right]. destruct (_ && _); [|done].
  apply (plan_ok_more plan); cbn [pageEmpty pageDirty]; [done|done| |].
  - intros q. rewrite bm_contains_or, orb_true_iff. intros [Hq|Hq]; [by left|right]. apply (Hl k b); [left|done].
  - intros q Hq. by rewrite bm_contains_or, Hq.
Qed.

Lemma compact_block_ok wb budget i plan stored :
  bm_contains dirty i = true → plan_ok plan →
  plan_ok (compact_block baseHeader bs wb budget (i * bs) (plan, stored)).1.
Proof using Hbs Hpages HM Hin.
  intros Hi Hp. assert (HP : PageSize = 4096) by done. pose proof (Z.div_mod bs PageSize ltac:(done)) as Hd.
  rewrite Hpages, Z.add_0_r in Hd. pose proof (Hin i Hi). pose proof (bm_contains_u32 _ _ Hi) as Hiu. unfold is_u32 in Hiu.
  set (n := bs / PageSize) in *. assert (0 < n < 2 ^ 31) by lia.
  assert (Hq : Z.quot (i * bs) PageSize = i * n).
  { rewrite Hd. replace (i * (PageSize * n)) with (i * n * PageSize) by lia. by rewrite Z.quot_mul. }
  assert (Hin' : 0 <= i * n ∧ (i + 1) * n < 2 ^ 31) by nia.
  unfold compact_block. rewrite Hq, (u32_id (i * n)) by ilia.
  rewrite Z.quot_div_nonneg by lia. fold n.
  destruct (compact _ _ _ _) as [pages' k] eqn:Ec.
  set (plan1 := if 0 <? k then _ else plan).
  assert (Hp1 : plan_ok plan1 ∧ pageDirty plan1 = pageDirty plan ∧ pageEmpty plan1 = pageEmpty plan).
  { unfold plan1. destruct (0 <? k); [|done]. split; [|done]. by apply (plan_ok_more plan); auto. }
  destruct Hp1 as (Hp1 & Hd1 & He1). unfold store_current.
  destruct (store_current_spec plan1 (i * n) (imap (λ p info, (Z.of_nat p, info)) pages') stored) as [S1 S2].
  cbv zeta in S1, S2. apply (plan_ok_more plan1); [done|exact S1| |intros q Hq'; apply S2; by left].
  intros q Hq'. apply S2 in Hq' as [Hq'|(p & info & Hpi & Hc & ->)]; [by left|].
  apply list_elem_of_lookup in Hpi as [j Hj]. rewrite list_lookup_imap in Hj.
  destruct (pages' !! j) as [info'|] eqn:Ej; [|done]. cbn in Hj. injection Hj as <- <-.
  pose proof (compact_from (mkWindower (FetchRunWindowPages budget) stored)
    (classify baseHeader plan wb (i * bs) (i * n) <$> seqZ 0 n)
    (MaxFetchWindowsPerBlock budget) (MaxPromotedParentPagesPerBlock budget) j info') as Hf.
  rewrite Ec in Hf. destruct (Hf Ej) as (p0 & Hp0 & Hpro). rewrite list_lookup_fmap in Hp0.
  destruct (seqZ 0 n !! j) as [jz|] eqn:Ejz; [|done]. apply lookup_seqZ in Ejz as [-> Hjn]. cbn in Hp0. injection Hp0 as <-.
  rewrite Z.add_0_l in *. rewrite u32_id by ilia. unfold classify in Hpro. rewrite u32_id in Hpro by ilia.
  destruct (bm_contains (pageDirty plan) (i * n + Z.of_nat j)) eqn:Edp; [left; by rewrite Hd1|].
  destruct (bm_contains (pageEmpty plan) (i * n + Z.of_nat j)) eqn:Eep.
  { destruct Hpro as [-> |[? _]]; done. }
  right. assert (Hsc : scanned (i * n + Z.of_nat j)).
  { unfold scanned. replace ((i * n + Z.of_nat j) * PageSize / bs) with i; [done|].
    apply (Z.div_unique _ _ _ (Z.of_nat j * PageSize)); nia. }
  split; [done|]. intros Hz. assert (Ht : bm_contains (pageEmpty plan) (i * n + Z.of_nat j) = true) by (by apply Hp).
  congruence.
Qed.

Lemma compact_blocks_ok wb budget l st :
  Forall (λ i, bm_contains dirty i = true) l → plan_ok st.1 →
  match compact_blocks (E:=E) (F:=F) baseHeader cancelled bs wb budget ((λ i, i * bs) <$> l) st with
  | Ok st' => plan_ok st'.1
  | Err e => e = DedupCancelled ∧ ∃ off, cancelled off = true
  end.
Proof using Hbs Hpages HM Hin.
  intros Hl. revert st. induction Hl as [|i l Hi Hl IH]; intros [plan stored] Hp; cbn [fmap list_fmap compact_blocks]; [done|].
  destruct (cancelled (i * bs)) eqn:Ec; [eauto|]. apply IH. by apply compact_block_ok.
Qed.

(** The blocks of the dirty set, in order. *)
Definition dirty_blocks : list Z := concat ((λ '(s, e), seqZ s (e - s)) <$> bm_ranges dirty).

Lemma elem_of_runs rs i : i ∈ concat ((λ '(s, e), seqZ s (e - s)) <$> rs) ↔ in_runs rs i = true.
Proof using Type.
  induction rs as [|[s e] rs IH]; cbn [fmap list_fmap concat]; [split; [by intros ?%elem_of_nil|done]|].
  change (in_runs ((s, e) :: rs) i) with (in_range i (s, e) || in_runs rs i).
  rewrite elem_of_app, IH, orb_true_iff, elem_of_seqZ. unfold in_range. cbn [fst snd].
  rewrite andb_true_iff, Z.leb_le, Z.ltb_lt. split; (intros [?|?]; [left; lia|by right]).
Qed.

Lemma elem_of_dirty_blocks i : i ∈ dirty_blocks ↔ bm_contains dirty i = true.
Proof using Type. unfold dirty_blocks. rewrite elem_of_runs. unfold in_runs. by rewrite bm_ranges_contains. Qed.

Lemma dirty_blocks_all : Forall (λ i, bm_contains dirty i = true) dirty_blocks.
Proof using Type. apply Forall_forall. intros i. apply elem_of_dirty_blocks. Qed.

Lemma block_offsets_runs lo rs :
  0 <= lo → ranges_wf lo rs → (∀ i, in_runs rs i = true → i * bs < 2 ^ 43) →
  block_offsets ((λ '(s, e), NewRangeFromBlocks (i64 s) (i64 (i64 e - i64 s)) bs) <$> rs) bs =
    (λ i, i * bs) <$> concat ((λ '(s, e), seqZ s (e - s)) <$> rs).
Proof using Hbs.
  revert lo. induction rs as [|[s e] rs IH]; intros lo Hlo Hwf Hb; [done|].
  destruct Hwf as (H1 & H2 & H3 & Hwf). unfold block_offsets in *. cbn [fmap list_fmap concat].
  assert (Hb' : ∀ i, s <= i < e → i * bs < 2 ^ 43).
  { intros i Hi. apply Hb. unfold in_runs. cbn. apply orb_true_iff. left. unfold in_range. cbn. lia. }
  rewrite (IH (e + 1)); [|lia|done|intros i Hi; apply Hb; unfold in_runs in *; cbn; by rewrite Hi, orb_true_r].
  rewrite fmap_app. f_equal. pose proof (Hb' (e - 1) ltac:(lia)).
  unfold NewRangeFromBlocks. rewrite (i64_id e), (i64_id s), (i64_id (e - s)) by (unfold_int; lia).
  rewrite !BlockOffset_mul by (unfold_int; nia). cbn [RSize Start]. unfold steps.
  assert (Hn : ((e - s) * bs + bs - 1) / bs = e - s).
  { symmetry. apply (Z.div_unique _ _ _ (bs - 1)); lia. }
  rewrite Hn. replace (seqZ s (e - s)) with (Z.add s <$> seqZ 0 (e - s)) by (rewrite fmap_add_seqZ; f_equal; lia).
  rewrite <- !list_fmap_compose.
  apply list_fmap_ext. intros j k Hk. apply lookup_seqZ in Hk as [-> Hj]. cbn.
  pose proof (Hb' (s + Z.of_nat j) ltac:(lia)). rewrite Z.add_0_l. assert (0 <= Z.of_nat j * bs) by lia. assert (0 <= s * bs) by nia.
  rewrite (i64_id (Z.of_nat j * bs)), i64_id by (unfold_int; lia). lia.
Qed.

Lemma block_offsets_dirty : block_offsets (BitsetRanges dirty bs) bs = (λ i, i * bs) <$> dirty_blocks.
Proof using Hbs HM Hin.
  apply (block_offsets_runs 0); [lia|apply bm_ranges_wf|]. intros i Hi. unfold in_runs in Hi.
  rewrite bm_ranges_contains in Hi. apply Hin in Hi. lia.
Qed.

Lemma dedupCompare_ok worth best budget :
  match dedupCompare src base_Slice baseHeader IsCached cancelled worth dirty bs best budget with
  | Ok plan => plan_ok plan
  | Err e => (∃ f p, e = DedupBase f ∧ base_Slice (p * PageSize) PageSize = Err f) ∨
             (e = DedupCancelled ∧ ∃ off, cancelled off = true)
  end.
Proof using Hbase Hbs Hpages HM Hin Hsrc.
  unfold dedupCompare. set (bg := if FetchRunWindowPages budget <=? 0 then _ else _). clearbody bg. set (wb := i64 _). clearbody wb.
  rewrite block_offsets_dirty.
  assert (H0 : scan_ok (λ _, False) (mkScan bm_new bm_new ∅)).
  { split; cbn [sc_empty sc_dirty sc_parent]; [intros q; rewrite bm_contains_new; split; [done|tauto]|
      intros q; by rewrite bm_contains_new|intros k b q; by rewrite lookup_empty|done]. }
  pose proof (compare_blocks_ok _ best wb dirty_blocks _ dirty_blocks_all H0) as Hc.
  destruct (compare_blocks _ _ _ _ _ _ _ _ _ _) as [s|e]; cbn [mbind result_bind]; [|done].
  assert (Hs : scan_ok scanned s).
  { eapply scan_ok_iff; [|exact Hc]. intros q. cbv beta. rewrite elem_of_dirty_blocks. unfold scanned. tauto. }
  clear Hc. destruct Hs as [S1 S2 S3 S4].
  match goal with |- context [compactBlockWindows _ _ ?p] => set (plan := p) end.
  assert (Hplan : plan_ok plan).
  { unfold plan. match goal with |- plan_ok (if _ then promoteCheapFrames _ ?p _ _ _ _ else _) => assert (Hp : plan_ok p) end.
    - split; cbn [pageEmpty pageDirty]; auto.
    - destruct (0 <? _); [|done]. apply promoteCheapFrames_ok; [done|].
      intros k b q Hk Hq. by destruct (S3 k b q Hk Hq) as (? & ? & _). }
  clearbody plan. unfold compactBlockWindows. destruct (_ || _); [done|]. rewrite block_offsets_dirty.
  pose proof (compact_blocks_ok wb bg dirty_blocks (plan, 0) dirty_blocks_all Hplan) as Hcb.
  destruct (compact_blocks _ _ _ _ _ _ _) as [[plan' st]|e]; cbn [mbind result_bind]; [done|by right].
Qed.
End correct.

(** ** The packed source *)

Section packed.
Context `{Bitmap B} (c : Cache B) (M : bytes) (bs : Z) (dirty : B).
Hypothesis Hbs : 0 < bs < 2 ^ 31.
Hypothesis HM : len M < 2 ^ 43.
Hypothesis Hin : ∀ i, bm_contains dirty i = true → (i + 1) * bs <= len M.
Hypothesis Hfull : full c (pack bs (bm_ranges dirty) M).
Hypothesis Hcbs : c_blockSize c = bs.

Let place : gmap Z Z * Z → Z → gmap Z Z * Z := λ '(m, cum) off, (<[off := cum]> m, i64 (cum + bs)).

Lemma place_cum l m cum : 0 <= cum → cum + len l * bs < 2 ^ 63 →
  (foldl place (m, cum) ((λ i, i * bs) <$> l)).2 = cum + len l * bs.
Proof using Hbs.
  revert m cum. induction l as [|i l IH]; intros m cum Hc Hr; cbn [fmap list_fmap foldl];
    [cbn [snd]; rewrite (@len_nil Z); lia|].
  rewrite len_cons in *. pose proof (len_nonneg l). unfold place at 2. rewrite i64_id by (unfold_int; nia).
  rewrite IH by nia. lia.
Qed.

Lemma place_other l m cum i : i ∉ l → (foldl place (m, cum) ((λ i, i * bs) <$> l)).1 !! (i * bs) = m !! (i * bs).
Proof using Hbs.
  revert m cum. induction l as [|j l IH]; intros m cum Hi; cbn [fmap list_fmap foldl]; [done|].
  apply not_elem_of_cons in Hi as [Hj Hi]. unfold place at 2. rewrite IH by done. apply lookup_insert_ne. nia.
Qed.

(** A dirty block splits the list of blocks at its rank. *)
Lemma blocks_split lo rs i :
  ranges_wf lo rs → in_runs rs i = true → let l := concat ((λ '(s, e), seqZ s (e - s)) <$> rs) in
  ∃ l1 l2, l = l1 ++ i :: l2 ∧ len l1 = countZ (in_runs rs) lo i ∧ i ∉ l2.
Proof using Type.
  revert lo. induction rs as [|[s e] rs IH]; intros lo Hwf Hi; [done|].
  destruct Hwf as (H1 & H2 & H3 & Hwf). assert (Hwf' : ranges_wf e rs) by (eapply ranges_wf_weaken; [|done]; lia).
  rewrite countZ_runs by done. cbv zeta. cbn [fmap list_fmap concat].
  change (in_runs ((s, e) :: rs) i) with (in_range i (s, e) || in_runs rs i) in Hi.
  unfold in_range in Hi. cbn [fst snd] in Hi.
  assert (Hrest : ∀ y, y ∈ concat ((λ '(s, e), seqZ s (e - s)) <$> rs) → e <= y).
  { intros y Hy. rewrite elem_of_runs in Hy. destruct (Z.le_gt_cases e y); [done|].
    unfold in_runs in Hy. rewrite (ranges_wf_below e) in Hy by done. done. }
  destruct (Z.leb_spec s i), (Z.ltb_spec i e), (Z.leb_spec i s); cbn [andb orb] in Hi; try lia.
  - assert (i = s) as -> by lia. exists [], (seqZ (s + 1) (e - s - 1) ++ concat ((λ '(s, e), seqZ s (e - s)) <$> rs)).
    split_and!; [|done|].
    + rewrite seqZ_cons by lia. by replace (Z.succ s) with (s + 1) by lia; replace (Z.pred (e - s)) with (e - s - 1) by lia.
    + rewrite elem_of_app, elem_of_seqZ. intros [?|Hy]; [lia|apply Hrest in Hy; lia].
  - exists (seqZ s (i - s)), (seqZ (i + 1) (e - i - 1) ++ concat ((λ '(s, e), seqZ s (e - s)) <$> rs)).
    split_and!.
    + replace (e - s) with ((i - s) + (e - i)) by lia. rewrite seqZ_app by lia. rewrite <- app_assoc. f_equal.
      replace (s + (i - s)) with i by lia. rewrite seqZ_cons by lia.
      by replace (Z.succ i) with (i + 1) by lia; replace (Z.pred (e - i)) with (e - i - 1) by lia.
    + unfold len. rewrite length_seqZ. lia.
    + rewrite elem_of_app, elem_of_seqZ. intros [?|Hy]; [lia|apply Hrest in Hy; lia].
  - destruct (IH e Hwf' Hi) as (l1 & l2 & -> & Hl & Hn). exists (seqZ s (e - s) ++ l1), l2.
    split_and!; [by rewrite app_assoc| |done]. rewrite len_app, Hl. unfold len. rewrite length_seqZ. lia.
  - unfold in_runs in Hi. rewrite (ranges_wf_below e) in Hi by (done || lia). done.
Qed.

Lemma packed_offsets_at i :
  bm_contains dirty i = true → packed_offsets dirty bs !! (i * bs) = Some (countZ (bm_contains dirty) 0 i * bs).
Proof using Hbs HM Hin.
  intros Hi. unfold packed_offsets. rewrite (block_offsets_dirty M bs dirty Hbs HM Hin).
  assert (Hi' : in_runs (bm_ranges dirty) i = true) by (unfold in_runs; by rewrite bm_ranges_contains).
  destruct (blocks_split 0 _ i (bm_ranges_wf dirty) Hi') as (l1 & l2 & Hl & Hc & Hn).
  unfold dirty_blocks. rewrite Hl, fmap_app, foldl_app. fold place.
  pose proof (bm_contains_u32 _ _ Hi) as Hiu. unfold is_u32 in Hiu. pose proof (Hin i Hi).
  pose proof (countZ_bounds (in_runs (bm_ranges dirty)) 0 i ltac:(lia)).
  pose proof (place_cum l1 ∅ 0 ltac:(lia) ltac:(nia)) as Hp.
  destruct (foldl place (∅, 0) _) as [m1 cum]. cbn [snd] in Hp. cbn [fmap list_fmap foldl].
  unfold place at 2. rewrite place_other by done. rewrite lookup_insert_eq, Hp, Hc.
  rewrite (countZ_ext (bm_contains dirty) (in_runs (bm_ranges dirty))) by (intros; symmetry; apply bm_ranges_contains).
  done.
Qed.

Lemma packed_src_ok i :
  bm_contains dirty i = true →
  packed_src c (packed_offsets dirty bs) bs (i * bs) = Ok (slice (i * bs) (i * bs + bs) M).
Proof using Hbs HM Hin Hfull Hcbs.
  intros Hi. unfold packed_src. rewrite packed_offsets_at by done.
  pose proof (bm_contains_u32 _ _ Hi) as Hiu. unfold is_u32 in Hiu. pose proof (Hin i Hi) as Hi2.
  set (data := pack bs (bm_ranges dirty) M) in *. set (r := countZ (bm_contains dirty) 0 i).
  pose proof (countZ_bounds (bm_contains dirty) 0 i ltac:(lia)).
  assert (Hbl : ∀ j, bm_contains dirty j = true → j < len M / bs).
  { intros j Hj. apply Hin in Hj. assert (j + 1 <= len M / bs) by (apply Z.div_le_lower_bound; lia). lia. }
  assert (Hmb : len M / bs * bs <= len M) by (pose proof (block_of (len M) bs ltac:(lia)); lia).
  assert (Hbyte : ∀ x, 0 <= x < bs → at_ data (r * bs + x) = at_ M (i * bs + x)).
  { intros x Hx. pose proof (pack_bitmap dirty bs M (len M / bs) (i * bs + x) ltac:(lia) Hmb Hbl ltac:(nia)) as Hpk.
    assert (E1 : (i * bs + x) / bs = i) by (symmetry; apply (Z.div_unique _ _ _ x); lia).
    assert (E2 : (i * bs + x) mod bs = x) by (symmetry; apply (Z.mod_unique _ _ i); lia).
    unfold packed_at in Hpk. rewrite E1, E2 in Hpk. by apply Hpk. }
  assert (Hlast : r * bs + bs <= len data).
  { destruct (at_is_Some M (i * bs + (bs - 1))) as [y Hy]; [nia|].
    rewrite <- Hbyte in Hy by lia. apply at_Some in Hy. lia. }
  assert (Hne : data ≠ []) by (intros ->; rewrite len_nil in Hlast; nia).
  pose proof (fl_ok _ _ Hfull Hne) as Hc. pose proof (fl_size _ _ Hfull) as Hs.
  assert (Hdl : len data <= len M).
  { pose proof (len_pack bs M (len M / bs) 0 (bm_ranges dirty) ltac:(lia) Hmb ltac:(lia)
      ltac:(apply Z.div_pos; [apply len_nonneg|lia]) (bm_ranges_wf dirty) (bm_ranges_below dirty _ Hbl)).
    fold data in H1. lia. }
  assert (0 <= r * bs) by nia.
  destruct (cSlice_spec c data (r * bs) bs Hc) as [Hsl _]; [lia|lia|unfold_int; lia|].
  rewrite Hsl; rewrite Hs, Z.min_l by lia.
  - f_equal. apply at_ext. intros x. rewrite !at_slice_in by nia.
    destruct (Z.leb_spec 0 x), (Z.ltb_spec x (r * bs + bs - r * bs)), (Z.ltb_spec x (i * bs + bs - i * bs));
      cbn [andb]; try lia; [|done..]. apply Hbyte. lia.
  - right. intros j Hj1 Hj2. rewrite Hcbs in Hj1, Hj2. rewrite Z.div_mul in Hj1 by lia.
    rewrite (fl_present _ _ Hfull); [done|nia|]. rewrite Hcbs. nia.
Qed.
End packed.

(** ** The restored memory *)

Section restore.
Context `{Bitmap B} (M D : bytes) (bs : Z) (dirty : B) (plan : dedupPlan B).
Hypothesis Hbs : 0 < bs < 2 ^ 31.
Hypothesis Hpages : bs mod PageSize = 0.
Hypothesis Hin : ∀ i, bm_contains dirty i = true → (i + 1) * bs <= len M.
Hypothesis HD : len D = len M.
Hypothesis Hplan : plan_ok M D bs dirty plan.

Lemma page_block x : 0 <= x → x / PageSize * PageSize / bs = x / bs.
Proof using Hbs Hpages.
  intros Hx. pose proof (Z.div_mod bs PageSize ltac:(done)) as Hd. rewrite Hpages, Z.add_0_r in Hd.
  pose proof (block_of x PageSize eq_refl). pose proof (block_of x bs ltac:(lia)).
  symmetry. apply (Z.div_unique _ _ _ (x / PageSize * PageSize - x / bs * bs)); [left|lia].
  assert (x / bs * (bs / PageSize) <= x / PageSize); [|nia].
  apply Z.div_le_lower_bound; [done|]. nia.
Qed.

Lemma scanned_inside q : scanned bs dirty q → 0 <= q ∧ (q + 1) * PageSize <= len M.
Proof using Hbs Hpages Hin.
  unfold scanned. intros Hs. pose proof (Hin _ Hs). pose proof (bm_contains_u32 _ _ Hs) as Hu. unfold is_u32 in Hu.
  pose proof (Z.div_mod bs PageSize ltac:(done)) as Hd. rewrite Hpages, Z.add_0_r in Hd.
  assert (HP : PageSize = 4096) by done. pose proof (block_of (q * PageSize) bs ltac:(lia)).
  set (i := q * PageSize / bs) in *. set (n := bs / PageSize) in *. split; [nia|]. nia.
Qed.

(** Equal pages agree on every byte. *)
Lemma page_byte m x : 0 <= x → (x / PageSize + 1) * PageSize <= len m →
  at_ (page m (x / PageSize)) (x mod PageSize) = at_ m x.
Proof using Type.
  intros Hx Hl. pose proof (Z.div_mod x PageSize ltac:(done)). pose proof (Z.mod_pos_bound x PageSize ltac:(done)).
  assert (HP : PageSize = 4096) by done. assert (0 <= x / PageSize) by (apply Z.div_pos; lia).
  unfold page. rewrite at_slice by lia. f_equal. lia.
Qed.

Lemma plan_diff id x :
  0 <= x < len M →
  let d := mkDiffMetadata (pageDirty plan) (pageEmpty plan) PageSize in
  let data := pack PageSize (bm_ranges (pageDirty plan)) M in
  match diff_at d id x with
  | Some (id', pos) => bm_contains dirty (x / bs) = true ∧
      ((id' = uuid_nil ∧ at_ M x = Some 0) ∨ (id' = id ∧ at_ data pos = at_ M x))
  | None => bm_contains dirty (x / bs) = true → at_ M x = at_ D x
  end.
Proof using Hbs Hpages Hin HD Hplan.
  intros Hx d data. unfold diff_at. cbn [d dm_BlockSize Empty Dirty].
  pose proof (po_empty _ _ _ _ _ Hplan (x / PageSize)) as He.
  pose proof (po_dirty _ _ _ _ _ Hplan (x / PageSize)) as Hd.
  pose proof (po_rest _ _ _ _ _ Hplan (x / PageSize)) as Hr.
  unfold scanned in He, Hd, Hr. rewrite page_block in He, Hd, Hr by lia.
  pose proof (Z.mod_pos_bound x PageSize ltac:(done)).
  assert (Hend : bm_contains dirty (x / bs) = true → (x / PageSize + 1) * PageSize <= len M).
  { intros Hc. apply scanned_inside. unfold scanned. by rewrite page_block by lia. }
  destruct (bm_contains (pageEmpty plan) _).
  { destruct (proj1 He eq_refl) as [Hs Hz]. split; [done|left]. split; [done|].
    rewrite <- page_byte by auto with lia. unfold zero in Hz. apply IsZero_spec in Hz.
    destruct (at_is_Some (page M (x / PageSize)) (x mod PageSize)) as [y Hy].
    { unfold page. rewrite len_slice; pose proof (Hend Hs); pose proof (block_of x PageSize eq_refl); unfold PageSize in *; lia. }
    rewrite Hy. f_equal. unfold at_ in Hy. destruct (_ <? 0); [done|]. exact (Forall_lookup_1 _ _ _ _ Hz Hy). }
  destruct (bm_contains (pageDirty plan) _) eqn:Ed.
  { destruct (Hd eq_refl) as [Hs _]. split; [done|right]. split; [done|].
    apply (pack_bitmap _ _ _ (len M / PageSize)); [done| | |lia|done].
    - pose proof (block_of (len M) PageSize eq_refl). lia.
    - intros q Hq. destruct (po_dirty _ _ _ _ _ Hplan q Hq) as [Hsq _]. apply scanned_inside in Hsq.
      assert (q + 1 <= len M / PageSize) by (apply Z.div_le_lower_bound; unfold PageSize in *; lia). lia. }
  intros Hc. assert (Hs : same M D (x / PageSize)).
  { apply Hr; [done| |done]. intros Hz. discriminate (proj2 He (conj Hc Hz)). }
  rewrite <- (page_byte M x), <- (page_byte D x) by (try lia; rewrite ?HD; auto). by rewrite Hs.
Qed.
End restore.

Lemma Dedup_spec `{Host} `{Bitmap B} {F} (base_Slice : Z → Z → result F bytes) baseHeader IsCached cancelled worth
    (c : Cache B) M D dirty bs best directIO falloc budget answers :
  0 < bs < 2 ^ 31 → bs mod PageSize = 0 → len M < 2 ^ 43 →
  (∀ i, bm_contains dirty i = true → (i + 1) * bs <= len M) →
  full c (pack bs (bm_ranges dirty) M) → c_blockSize c = bs →
  (∀ p b, 0 <= p → base_Slice (p * PageSize) PageSize = Ok b → b = page D p) →
  1 <= IOV_MAX → 0 < getAlignedMaxRwCount PageSize < 2 ^ 31 → Forall answer_ok answers →
  match Dedup base_Slice baseHeader IsCached cancelled worth c dirty bs best directIO falloc budget answers with
  | Ok (c', d) => ∃ plan, plan_ok M D bs dirty plan ∧
      d = mkDiffMetadata (pageDirty plan) (pageEmpty plan) PageSize ∧
      full c' (pack PageSize (bm_ranges (pageDirty plan)) M)
  | Err (ComparePhase e) =>
      (∃ f p, e = DedupBase f ∧ base_Slice (p * PageSize) PageSize = Err f) ∨
      (e = DedupCancelled ∧ ∃ off, cancelled off = true)
  | Err (DrainPhase e) => ∃ plan, plan_ok M D bs dirty plan ∧ drain_failure cancelled M (pageDirty plan) answers e
  end.
Proof.
  intros Hbs Hpg HM Hin Hf Hcb Hb Hiov Hmax Ha. unfold Dedup.
  pose proof (packed_src_ok c M bs dirty Hbs HM Hin Hf Hcb) as Hsrc.
  set (src := packed_src c _ bs) in *.
  pose proof (dedupCompare_ok base_Slice baseHeader IsCached M D bs dirty Hbs Hpg HM Hin Hb src cancelled Hsrc
    worth best budget) as Hc.
  destruct (dedupCompare _ _ _ _ _ _ _ _ _ _) as [plan|e]; [|done].
  assert (Hs : ∀ q, bm_contains (pageDirty plan) q = true → scanned bs dirty q)
    by (intros q Hq; apply (po_dirty _ _ _ _ _ Hc q Hq)).
  pose proof (dedupDrain_spec src cancelled M (pageDirty plan) bs Hbs HM) as Hd.
  specialize (Hd ltac:(intros q Hq; by apply (scanned_inside M bs dirty Hbs Hpg Hin), Hs)).
  assert (Hserve : ∀ y, 0 <= y → bm_contains (pageDirty plan) (y / PageSize) = true →
    y / bs * bs + bs <= len M ∧ src (y / bs * bs) = Ok (slice (y / bs * bs) (y / bs * bs + bs) M)).
  { intros y Hy Hq%Hs. unfold scanned in Hq. rewrite page_block in Hq by done.
    split; [|by apply Hsrc]. apply Hin in Hq. lia. }
  specialize (Hd Hserve Hiov Hmax directIO falloc answers Ha).
  destruct (dedupDrain _ _ _ _ _ _ _) as [c'|e]; [|by exists plan]. exists plan. split_and!; done.
Qed.

(** C17. A deduplicated snapshot restores the memory: for a cache packed from
    the dirty blocks of the memory [M] over the image [D] of a sound header,
    whatever pages are deduplicated and whatever the two budget passes
    promote, the pages stored and the new header give back [M] on every byte
    of a dirty block and [D] elsewhere.  Otherwise a read of the base failed,
    the context was cancelled, or a write failed. *)
Theorem Dedup_restores `{Host} `{Bitmap B} {F} (base_Slice : Z → Z → result F bytes) baseHeader IsCached cancelled
    worth (c : Cache B) M D dirty bs best directIO falloc budget answers h ms fetch id :
  0 < bs < 2 ^ 31 → bs mod PageSize = 0 → len M < 2 ^ 43 → len D = len M →
  (∀ i, bm_contains dirty i = true → (i + 1) * bs <= len M) →
  full c (pack bs (bm_ranges dirty) M) → c_blockSize c = bs →
  (∀ p b, 0 <= p → base_Slice (p * PageSize) PageSize = Ok b → b = page D p) →
  1 <= IOV_MAX → 0 < getAlignedMaxRwCount PageSize < 2 ^ 31 → Forall answer_ok answers →
  header_ok h ms → Size (h_Metadata h) = len M → (∀ x, 0 <= x < len M → at_ D x = image_at fetch ms x) →
  id ≠ uuid_nil → id ∉ Layers ms → Z.of_nat (size (table_of ms ∪ {[id]})) <= maxBuildsPerHeader →
  match Dedup base_Slice baseHeader IsCached cancelled worth c dirty bs best directIO falloc budget answers with
  | Ok (c', d) =>
      ∃ out h' ms', full c' out ∧ ToDiffHeader d h id = Ok h' ∧ header_ok h' ms' ∧
        ∀ x, 0 <= x < len M → image_at (store_add fetch id out) ms' x =
          if bm_contains dirty (x / bs) then at_ M x else at_ D x
  | Err (ComparePhase e) =>
      (∃ f p, e = DedupBase f ∧ base_Slice (p * PageSize) PageSize = Err f) ∨
      (e = DedupCancelled ∧ ∃ off, cancelled off = true)
  | Err (DrainPhase e) => ∃ pages : B, drain_failure cancelled M pages answers e
  end.
Proof.
  intros Hbs Hpg HM HDM Hin Hf Hcb Hb Hiov Hmax Ha Hh Hsz HD Hid Hfresh Htab.
  pose proof (Dedup_spec base_Slice baseHeader IsCached cancelled worth c M D dirty bs best directIO falloc budget
    answers Hbs Hpg HM Hin Hf Hcb Hb Hiov Hmax Ha) as Hs.
  destruct (Dedup _ _ _ _ _ _ _ _ _ _ _ _ _) as [[c' d]|[e|e]]; [|done|].
  2: { destruct Hs as (plan & _ & He). by exists (pageDirty plan). }
  destruct Hs as (plan & Hplan & -> & Hfull). set (out := pack PageSize _ M) in *.
  assert (Hins : ∀ b : B, (∀ q, bm_contains b q = true → scanned bs dirty q) → blocks_inside b PageSize (len M)).
  { intros b Hsc q Hq. by apply (scanned_inside M bs dirty Hbs Hpg Hin), Hsc. }
  destruct (ToDiffHeader_ok (mkDiffMetadata (pageDirty plan) (pageEmpty plan) PageSize) h ms id Hh)
    as (h' & ms' & Hth & Hh' & _ & _ & _ & Hcon); cbn [dm_BlockSize Dirty Empty]; rewrite ?Hsz; try done.
  { by exists 1. }
  { apply Hins. intros q Hq. apply (po_dirty _ _ _ _ _ Hplan q Hq). }
  { apply Hins. intros q Hq. apply (proj1 (po_empty _ _ _ _ _ Hplan q) Hq). }
  exists out, h', ms'. split_and!; [done|done|done|]. intros x Hx.
  pose proof (plan_diff M D bs dirty plan Hbs Hpg Hin HDM Hplan id x Hx) as Hdiff. cbv zeta in Hdiff.
  unfold image_at at 1. rewrite Hcon by lia.
  destruct (diff_at _ id x) as [[id' pos]|]; cbn [overlay fmap option_fmap option_map].
  - destruct Hdiff as [-> [[-> Hz]|[-> Hp]]]; unfold erase_nil; cbn [fst].
    + by rewrite bool_decide_eq_true_2, decide_True, Hz by done.
    + rewrite bool_decide_eq_false_2, decide_False by done. unfold store_add. by rewrite decide_True by done.
  - fold (content ms x). change (image_at (store_add fetch id out) ms x = if bm_contains dirty (x / bs) then at_ M x else at_ D x).
    rewrite image_at_fresh, <- HD by done. destruct (bm_contains dirty (x / bs)); [symmetry; by apply Hdiff|done].
Qed.

(** One block of two pages: the first equals the parent, the second does not. *)
Definition dedup_memory : bytes := fill 4096 7 ++ fill 4096 9 ++ fill 8192 0.
Definition dedup_dirty : gset Z := {[0]}.
Definition dedup_cache : Cache (gset Z) :=
  let data := pack 8192 [(0, 1)] dedup_memory in setIsCached (NewCache (len data) 8192 data false) 0 (len data).
Definition dedup_run : result (cdedup_err unit) (Cache (gset Z) * DiffMetadata (gset Z)) :=
  Dedup (H:=small_host) (λ off n, Ok (slice off (off + n) snap_image)) (Some header_example) None (λ _, false)
    (λ _ _ _ _ _, false) dedup_cache dedup_dirty 8192 false false false (mkBudget 4 4 8 50 0) [PwWrote 9999].

Lemma len_dedup_memory : len dedup_memory = 16384.
Proof. unfold dedup_memory. rewrite !len_app, !len_fill by lia. lia. Qed.

Lemma dedup_cache_full : full dedup_cache (pack 8192 [(0, 1)] dedup_memory).
Proof.
  assert (Hl : len (pack 8192 [(0, 1)] dedup_memory) = 8192).
  { cbn [pack]. rewrite app_nil_r, len_slice; rewrite ?len_dedup_memory; lia. }
  unfold dedup_cache. cbv zeta. apply full_marked; rewrite ?Hl; [lia|lia|unfold_int; lia].
Qed.

Lemma dedup_dirty_in i : bm_contains dedup_dirty i = true → i = 0.
Proof.
  unfold dedup_dirty. cbn. unfold gs_in. intros [_ Hi%bool_decide_eq_true]%andb_true_iff.
  by apply elem_of_singleton in Hi.
Qed.

Lemma Dedup_restores_witness :
  ∃ c' d out h' ms', dedup_run = Ok (c', d) ∧ gs_elems (Dirty d) = [1] ∧
    full c' out ∧ ToDiffHeader d header_example (replicate 16 3) = Ok h' ∧
    ∀ x, 0 <= x < 16384 → image_at (store_add snap_fetch (replicate 16 3) out) ms' x =
      if bm_contains dedup_dirty (x / 8192) then at_ dedup_memory x else at_ snap_image x.
Proof.
  assert (Hok : match dedup_run with Ok (_, d) => gs_elems (Dirty d) = [1] | Err _ => False end)
    by (vm_compute; reflexivity).
  pose proof (Dedup_restores (H:=small_host) (λ off n, @Ok unit bytes (slice off (off + n) snap_image)) (Some header_example)
    None (λ _, false) (λ _ _ _ _ _, false) dedup_cache dedup_memory snap_image dedup_dirty 8192 false false false
    (mkBudget 4 4 8 50 0) [PwWrote 9999] header_example compact_example snap_fetch (replicate 16 3)) as Hd.
  fold dedup_run in Hd. rewrite len_dedup_memory in Hd.
  replace (bm_ranges dedup_dirty) with [(0, 1)] in Hd by (vm_compute; reflexivity).
  specialize (Hd ltac:(lia) eq_refl ltac:(lia) len_snap_image).
  specialize (Hd ltac:(intros i ->%dedup_dirty_in; lia) dedup_cache_full eq_refl).
  specialize (Hd ltac:(intros p b _ E; symmetry; exact (ok_inj _ _ E)) ltac:(cbn; lia)
    ltac:(vm_compute; split; congruence) ltac:(repeat constructor; cbn; lia) header_example_ok eq_refl).
  specialize (Hd snap_image_at ltac:(discriminate)
    ltac:(apply (bool_decide_unpack _); vm_compute; exact I) ltac:(vm_compute; discriminate)).
  destruct dedup_run as [[c' d]|e]; [|done].
  destruct Hd as (out & h' & ms' & H1 & H2 & _ & H3). exists c', d, out, h', ms'.
  split_and!; [reflexivity|exact Hok|exact H1|exact H2|exact H3].
Defined.
