(* ===== verification/Memory.v ===== *)
(** * Memory: the memory of a paused sandbox becomes a build

    Models the capture of the memory: [processMemorySnapshot] and
    [pauseProcessMemory] of [sandbox/sandbox.go], [ExportMemory] and
    [exportMemoryFromFc] of [sandbox/fc/memory.go], and the caches of
    [block/memfd.go] that are filled in the background.  A value set once by
    a goroutine ([SetOnce]) is the value it ends with; the contexts, spans
    and metrics are left out.

    The last theorem composes the components: from the faults of the resumed
    sandbox to the header of the new build, no byte of its memory is lost. *)

From S2P Require Import Prelude Bytes Bitmap Blocks Mapping Compact Header Export Tracker Regions Uffd Cache Overlay Snapshot Drain Fill Dedup.

(** ** The definitions *)

Section memory.
Context `{Hh : Host} `{Bitmap B} {F : Type}.

(** The device the diff is compared with. *)
Record parent := mkParent {
  pr_Slice : Z → Z → result F bytes;
  pr_Header : option Header;
  pr_IsCached : option (Z → Z → bool)
}.

Record dedup_config := mkDedupConfig { bestEffort : bool; directIO : bool; dedupBudget : DedupBudget }.

(** What the hypervisor and the kernel answer: the regions and whether the
    process is alive, its memory, the file made for the cache and the calls
    on it, when the context is done, whether the memory file and a cache that
    was deduplicated close, and what a promotion is worth. *)
Record answers := mkAnswers {
  an_mappings : option (list GuestMemoryRegionMapping);
  an_pid : bool;
  an_process : Z → Z;
  an_contents : bytes;
  an_reads : list VmRes;
  an_writes : list PwRes;
  an_fallocate : bool;
  an_cancelled : Z → bool;
  an_closed : bool;
  an_cacheClosed : bool;
  an_worth : Z → Z → Z → Z → Z → bool
}.

Inductive export_err :=
| MappingsFailed
| MappingsBad (e : memory_err)
| RangesFailed (e : memory_err)
| NoPid
| ProcessCopy (e : drain_err vm_err)
| MemfdCopy (e : memfd_err)
| MemfdClose
| CacheClose
| NotMultiple
| DedupFc (e : cdedup_err F)
| DedupMemfd (e : dedup_err memfd_err F)
| DedupWrite (e : drain_err (fill_err memfd_err))
| HeaderFailed (e : header_err).

(** [memoryMapping] of the client. *)
Definition memoryMapping (k : answers) : result export_err (list Region) :=
  match an_mappings k with
  | None => Err MappingsFailed
  | Some regions => match NewMappingFromFc regions with Ok m => Ok m | Err e => Err (MappingsBad e) end
  end.

Fixpoint host_ranges (m : list Region) (rs : list Range) : result memory_err (list Range) :=
  match rs with
  | [] => Ok []
  | r :: rs =>
      hostVirtRanges ← GetHostVirtRanges m (Start r) (RSize r);
      remoteRanges ← host_ranges m rs;
      Ok (hostVirtRanges ++ remoteRanges)
  end.

Definition exportMemoryFromFc (k : answers) (include : B) (blockSize : Z) : result export_err (Cache B) :=
  m ← memoryMapping k;
  match host_ranges m (BitsetRanges include blockSize) with
  | Err e => Err (RangesFailed e)
  | Ok remoteRanges =>
      if an_pid k
      then match NewCacheFromProcessMemory (an_process k) blockSize (an_contents k) (an_reads k) remoteRanges with
           | Ok cache => Ok cache
           | Err e => Err (ProcessCopy e)
           end
      else Err NoPid
  end.

(** What was found out of the diff, and its bytes: both may come later. *)
Definition capture : Type := result export_err (DiffMetadata B) * result export_err (Cache B).

(** [inputEmpty] merged into the pages found to be zero. *)
Definition merge_empty (blockSize pageSize : Z) (inputEmpty pageEmpty : B) : B :=
  let ratio := u64 (Z.quot blockSize pageSize) in
  foldl (λ b '(start, endExcl), bm_add_range (u64 (u64 start * ratio)) (u64 (u64 endExcl * ratio)) b) pageEmpty (bm_ranges inputEmpty).

Definition memfd_result (r : result memfd_err (Cache B)) : result export_err (Cache B) :=
  match r with Ok c => Ok c | Err e => Err (MemfdCopy e) end.

(** [NewCacheFromMemfd], the close of the file included. *)
Definition cacheFromMemfd (k : answers) (blockSize : Z) (mem : bytes) (dirty : B) : result export_err (Cache B) :=
  cache ← memfd_result (NewCacheFromMemfd (an_cancelled k) blockSize (an_contents k) mem dirty);
  if an_closed k then Ok cache else Err MemfdClose.

(** [NewCacheFromMemfdAsync]: the cache, and what [Wait] returns of it. *)
Definition NewCacheFromMemfdAsync (k : answers) (blockSize : Z) (mem : bytes) (dirty : B)
    : result export_err (result export_err (Cache B)) :=
  if bm_card_range 0 (2 ^ 32) dirty =? 0
  then let size := i64 (i64 (bm_card_range 0 (2 ^ 32) dirty) * blockSize) in
       if an_closed k then Ok (Ok (NewCache size blockSize (truncate (an_contents k) size) false)) else Err MemfdClose
  else Ok (cacheFromMemfd k blockSize mem dirty).

Definition runDedup (k : answers) (base : parent) (blockSize : Z) (mem : bytes) (dirty : B) (cfg : dedup_config)
    (inputEmpty : B) : capture :=
  let src absOff := memfd_Slice mem absOff blockSize in
  match dedupCompare src (pr_Slice base) (pr_Header base) (pr_IsCached base) (an_cancelled k) (an_worth k) dirty
          blockSize (bestEffort cfg) (dedupBudget cfg) with
  | Err e => (Err (DedupMemfd e), Err (DedupMemfd e))
  | Ok plan =>
      let pageEmpty := merge_empty blockSize PageSize inputEmpty (pageEmpty plan) in
      (Ok (mkDiffMetadata (pageDirty plan) pageEmpty PageSize),
       match dedupDrain src (an_cancelled k) (pageDirty plan) blockSize (directIO cfg) (an_fallocate k) (an_writes k) with
       | Ok cache => Ok cache
       | Err e => Err (DedupWrite e)
       end)
  end.

Definition NewCacheFromMemfdDeduped (k : answers) (base : parent) (blockSize : Z) (mem : bytes) (dirty : B)
    (cfg : dedup_config) (inputEmpty : B) : result export_err capture :=
  if negb (Z.rem blockSize PageSize =? 0) then Err NotMultiple
  else Ok (runDedup k base blockSize mem dirty cfg inputEmpty).

Definition ExportMemory (k : answers) (include : B) (blockSize : Z) (memfd : option bytes) (bgCopy : bool)
    (originalMemfile : option parent) (cfg : dedup_config) (inputEmpty : B) : result export_err capture :=
  let inputMeta := Ok (mkDiffMetadata include inputEmpty blockSize) in
  match memfd, originalMemfile with
  | Some mem, Some base => NewCacheFromMemfdDeduped k base blockSize mem include cfg inputEmpty
  | Some mem, None =>
      if bgCopy then src ← NewCacheFromMemfdAsync k blockSize mem include; Ok (inputMeta, src)
      else cache ← cacheFromMemfd k blockSize mem include; Ok (inputMeta, Ok cache)
  | None, _ =>
      cache ← exportMemoryFromFc k include blockSize;
      match originalMemfile with
      | None => Ok (inputMeta, Ok cache)
      | Some base =>
          match Dedup (pr_Slice base) (pr_Header base) (pr_IsCached base) (an_cancelled k) (an_worth k) cache include
                  blockSize (bestEffort cfg) (directIO cfg) (an_fallocate k) (dedupBudget cfg) (an_writes k) with
          | Err e => Err (DedupFc e)
          | Ok (dedupCache, meta) =>
              if negb (an_cacheClosed k) then Err CacheClose
              else if negb (Z.rem blockSize (dm_BlockSize meta) =? 0) then Err NotMultiple
              else Ok (Ok (mkDiffMetadata (Dirty meta) (merge_empty blockSize (dm_BlockSize meta) inputEmpty (Empty meta)) (dm_BlockSize meta)),
                       Ok dedupCache)
          end
      end
  end.

(** The diff, and the header built of it. *)
Definition pauseProcessMemory (k : answers) (buildID : uuid) (originalHeader : Header) (d : DiffMetadata B)
    (memfd : option bytes) (bgCopy : bool) (originalMemfile : option parent) (cfg : dedup_config)
    : result export_err (result export_err Header * result export_err (Cache B)) :=
  '(meta, cache) ← ExportMemory k (Dirty d) (dm_BlockSize d) memfd bgCopy originalMemfile cfg (Empty d);
  Ok (meta ← meta; match ToDiffHeader meta originalHeader buildID with Ok h => Ok h | Err e => Err (HeaderFailed e) end, cache).

(** [dirty] is what the hypervisor reports.  [None]: the locks of the handler
    are not free yet. *)
Definition processMemorySnapshot (k : answers) (s : sys (B:=B)) (dirty : DiffMetadata B) (buildID : uuid)
    (memfileHeader : Header) (memfd : option bytes) (bgCopy : bool) (originalMemfile : option parent) (cfg : dedup_config)
    : option (result export_err (result export_err Header * result export_err (Cache B))) :=
  d ← UffdDiffMetadata s dirty;
  Some (pauseProcessMemory k buildID memfileHeader d memfd bgCopy originalMemfile cfg).
End memory.

(** ** The ranges of the hypervisor *)

Section host.
Context (m : list Region) (ps size : Z) (M : bytes) (mem : Z → Z).
Hypothesis Hm : regions_ok m.
Hypothesis Hps : 0 < ps.
Hypothesis Hcut : ∀ g, g ∈ m → Offset g mod ps = 0 ∧ Regions.Size g mod ps = 0.
Hypothesis Hlow : ∀ g, g ∈ m → BaseHostVirtAddr g + Regions.Size g < 2 ^ 62.
Hypothesis HM : len M < 2 ^ 62.
(** The process has the memory at the addresses of its regions. *)
Hypothesis Hmem : ∀ off a, GetHostVirtAddr m off = Ok a → at_ M off = Some (mem a).

Lemma read_addrs rs : flat (vm_read mem) rs = mem <$> range_addrs rs.
Proof using.
  unfold flat, range_addrs, vm_read. induction rs as [|r rs IH]; [done|]. cbn [fmap list_fmap concat]. by rewrite fmap_app, IH.
Qed.

(** The bytes of one span, wherever its regions are. *)
Lemma GetHostVirtRanges_read off n : 0 <= off → 0 <= n → off + n <= len M → off mod ps = 0 → n mod ps = 0 →
  (∀ x, off <= x < off + n → ∃ g, g ∈ m ∧ Offset g <= x < Offset g + Regions.Size g) →
  ∃ rs, GetHostVirtRanges m off n = Ok rs ∧ flat (vm_read mem) rs = slice off (off + n) M ∧
    Forall (λ r, range_ok r ∧ 0 < RSize r ∧ RSize r mod ps = 0) rs ∧ total RSize rs = n.
Proof using Hm Hps Hcut Hlow HM Hmem.
  intros Ho Hn Hle Hom Hnm Hcov. unfold GetHostVirtRanges. pose proof (ahead_all m (off + 0)).
  pose proof (ranges_loop_spec m Hm (S (length m)) off n 0 ltac:(lia) Ho ltac:(lia) Hn ltac:(lia)) as Hl.
  pose proof (ranges_loop_inside m Hm ps (S (length m)) off n 0) as Hi.
  destruct (ranges_loop (S (length m)) m off n 0) as [rs|e].
  2: { destruct Hl as (x & Hx & _ & He & _). destruct (Hcov x ltac:(lia)) as (g & Hg & Hgx).
    assert (Hok : GetHostVirtAddr m x = Ok (BaseHostVirtAddr g + (x - Offset g))).
    { apply GetHostVirtAddr_maps; [done|]. exists g. split; [done|]. split; [done|lia]. }
    congruence. }
  specialize (Hi rs Hps Hcut Hom Hnm eq_refl Ho ltac:(lia) Hn ltac:(lia) eq_refl).
  destruct Hl as [Hpos Hall]. rewrite Z.add_0_r, Z.sub_0_r in Hall.
  assert (Hr : Forall (λ r, range_ok r ∧ 0 < RSize r ∧ RSize r mod ps = 0) rs).
  { rewrite Forall_forall in *. intros r Hr. specialize (Hpos r Hr). destruct (Hi r Hr) as [(g & Hg & G1 & G2) Hmd]. specialize (Hlow g Hg).
    pose proof (region_in m Hm g Hg) as (? & _). split_and!; [|done|done]. split_and!; lia. }
  assert (Hfl : flat (vm_read mem) rs = slice off (off + n) M).
  { rewrite read_addrs. apply list_eq. intros i. rewrite list_lookup_fmap.
    assert (Hi' : (GetHostVirtAddr m <$> seqZ off n) !! i = (Ok <$> range_addrs rs) !! i) by (by rewrite Hall).
    rewrite !list_lookup_fmap in Hi'. destruct (seqZ off n !! i) as [x|] eqn:Ex.
    - apply lookup_seqZ in Ex as [-> Hin]. destruct (range_addrs rs !! i) as [a|]; cbn in Hi' |- *; [|done]. injection Hi' as Hi'.
      rewrite <- (Hmem _ _ Hi').
      assert (Hs : at_ (slice off (off + n) M) (Z.of_nat i) = at_ M (off + Z.of_nat i)) by (apply at_slice; lia).
      unfold at_ in Hs at 1. rewrite Nat2Z.id in Hs. destruct (Z.ltb_spec (Z.of_nat i) 0); [lia|]. by rewrite Hs.
    - destruct (range_addrs rs !! i); cbn in Hi' |- *; [done|]. symmetry. apply lookup_ge_None. apply lookup_ge_None in Ex.
      rewrite length_seqZ in Ex. pose proof (len_slice M off (off + n)). unfold len in *. lia. }
  exists rs. split_and!; [done|done|done|].
  rewrite <- (len_flat_vm mem rs) by (eapply Forall_impl; [exact Hr|]; by intros r (_ & ? & _)). rewrite Hfl, len_slice by lia. lia.
Qed.

(** The runs of a bitmap, each within the regions. *)
Lemma host_ranges_read nblocks lo rs : nblocks * ps <= len M → 0 <= lo → ranges_wf lo rs → runs_below nblocks rs → nblocks < 2 ^ 32 → ps <= 2 ^ 30 →
  (∀ i, existsb (in_range i) rs = true → ∃ g, g ∈ m ∧ Offset g <= i * ps ∧ (i + 1) * ps <= Offset g + Regions.Size g) →
  ∃ hs, host_ranges m ((λ '(s, e), NewRangeFromBlocks (i64 s) (i64 (i64 e - i64 s)) ps) <$> rs) = Ok hs ∧
    flat (vm_read mem) hs = pack ps rs M ∧ Forall (λ r, range_ok r ∧ 0 < RSize r ∧ RSize r mod ps = 0) hs.
Proof using Hm Hps Hcut Hlow HM Hmem.
  intros Hnb. revert lo. induction rs as [|[s e] rs IH]; intros lo Hlo Hwf Hb Hn32 Hp30 Hcov; [exists []; by repeat constructor|].
  destruct Hwf as (W1 & W2 & W3 & Hwf). apply Forall_cons in Hb as [He Hb]. cbn in He.
  destruct (IH e ltac:(lia)) as (hs & Hhs & Hfl & Hall); [by eapply ranges_wf_weaken; [|done]; lia|done|done|done| |].
  { intros i Hi. apply Hcov. cbn [existsb]. by rewrite Hi, orb_true_r. }
  assert (Hnr : NewRangeFromBlocks (i64 s) (i64 (i64 e - i64 s)) ps = mkBlockRange (s * ps) ((e - s) * ps)).
  { unfold NewRangeFromBlocks. rewrite (i64_id s), (i64_id e), (i64_id (e - s)) by (unfold_int; lia). by rewrite !BlockOffset_mul by (unfold_int; nia). }
  cbn [fmap list_fmap host_ranges]. rewrite Hnr. cbn [Start RSize].
  destruct (GetHostVirtRanges_read (s * ps) ((e - s) * ps)) as (r1 & Hr1 & Hf1 & Ha1 & _); [nia|nia|nia|by apply Z.mod_mul; lia|by apply Z.mod_mul; lia| |].
  { intros x Hx. destruct (Hcov (x / ps)) as (g & Hg & G1 & G2).
    - cbn [existsb]. apply orb_true_iff. left. unfold in_range. cbn.
      assert (s <= x / ps) by (apply Z.div_le_lower_bound; lia). assert (x / ps < e) by (apply Z.div_lt_upper_bound; lia). lia.
    - exists g. split; [done|]. pose proof (Z.div_mod x ps ltac:(lia)). pose proof (Z.mod_pos_bound x ps Hps). nia. }
  rewrite Hr1. cbn [mbind result_bind]. rewrite Hhs. cbn [mbind result_bind]. exists (r1 ++ hs). split_and!; [done| |by apply Forall_app].
  rewrite flat_app, Hf1, Hfl. cbn [pack]. do 2 f_equal. lia.
Qed.
End host.

(** ** Every way of capturing the memory *)

Section capture.
Context `{Hh : Host} `{Bitmap B} {F : Type} (k : answers) (ma : list Region) (ps : Z) (D M : bytes) (d : DiffMetadata B).
Notation dirty := (Dirty d).

(** The only reasons of a failure. *)
Definition excused (original : option (parent (F:=F))) (e : export_err (F:=F)) : Prop :=
  match e with
  | MappingsFailed => an_mappings k = None
  | NoPid => an_pid k = false
  | ProcessCopy e => ∃ size calls, vm_failure (an_reads k) size calls e
  | MemfdCopy e => e = MemfdCancelled ∧ ∃ off, an_cancelled k off = true
  | MemfdClose => an_closed k = false
  | CacheClose => an_cacheClosed k = false
  | DedupMemfd (DedupBase f) | DedupFc (ComparePhase (DedupBase f)) =>
      ∃ base p, original = Some base ∧ pr_Slice base (p * PageSize) PageSize = Err f
  | DedupMemfd DedupCancelled | DedupFc (ComparePhase DedupCancelled) => ∃ off, an_cancelled k off = true
  | DedupWrite e => ∃ pages : B, drain_failure (an_cancelled k) M pages (an_writes k) e
  | DedupFc (DrainPhase e) => ∃ pages : B, drain_failure (an_cancelled k) M pages (an_writes k) e
  | _ => False
  end.

Hypothesis Hps : ps = PageSize ∨ ps = HugepageSize.
Hypothesis Hma : regions_ok ma.
Hypothesis Hcut : ∀ g, g ∈ ma → Offset g mod ps = 0 ∧ Regions.Size g mod ps = 0.
Hypothesis Hlow : ∀ g, g ∈ ma → BaseHostVirtAddr g + Regions.Size g < 2 ^ 62.
Hypothesis HM : len M < 2 ^ 43.
Hypothesis HDM : len D = len M.
Hypothesis Hiov : 1 <= IOV_MAX.
Hypothesis Hmax : ∀ bs, bs = PageSize ∨ bs = HugepageSize → 0 < getAlignedMaxRwCount bs < 2 ^ 31 ∧ getAlignedMaxRwCount bs mod bs = 0.
Hypothesis Hanswers : Forall answer_ok (an_writes k).
(** The hypervisor reports the regions of the handler. *)
Hypothesis Hreport : ∀ regions, an_mappings k = Some regions → NewMappingFromFc regions = Ok ma.
Hypothesis Hprocess : ∀ off a, GetHostVirtAddr ma off = Ok a → at_ M off = Some (an_process k a).
(** The dirty pages are pages of the regions, and those of the memory; a page is
    not both dirty and empty. *)
Hypothesis Hdirty : ∀ i, bm_contains dirty i = true →
  ∃ g, g ∈ ma ∧ Offset g <= i * ps ∧ (i + 1) * ps <= Offset g + Regions.Size g.
Hypothesis Hin : ∀ i, bm_contains dirty i = true → (i + 1) * ps <= len M.
Hypothesis Hempty : ∀ i, bm_contains (Empty d) i = true → (i + 1) * ps <= len M ∧ bm_contains dirty i = false.

Lemma ps_val : 0 < ps <= 2 ^ 21 ∧ ps mod PageSize = 0.
Proof using Hps. destruct Hps as [E|E]; rewrite E; unfold PageSize, HugepageSize; split; try lia; done. Qed.

Lemma blocks_below : len M / ps * ps <= len M ∧ 0 <= len M / ps < 2 ^ 32 ∧ ∀ i, bm_contains dirty i = true → i < len M / ps.
Proof using Hps HM Hin.
  pose proof ps_val as [Hb _]. pose proof (len_nonneg M). assert (4096 <= ps) by (destruct Hps as [E|E]; rewrite E; unfold PageSize, HugepageSize; lia).
  split_and!; [rewrite Z.mul_comm; apply Z.mul_div_le; lia|apply Z.div_pos; lia|apply Z.div_lt_upper_bound; lia|].
  intros i Hi. apply Hin in Hi. assert (i + 1 <= len M / ps) by (apply Z.div_le_lower_bound; lia). lia.
Qed.

Definition packed : bytes := pack ps (bm_ranges dirty) M.

Lemma exportMemoryFromFc_full :
  match exportMemoryFromFc (F:=F) k dirty ps with
  | Ok c => full c packed ∧ c_blockSize c = ps
  | Err e => ∀ original, excused original e
  end.
Proof using Hps Hma Hcut Hlow HM Hiov Hmax Hreport Hprocess Hdirty Hin.
  pose proof ps_val as [Hb _]. destruct blocks_below as (Hn1 & Hn2 & Hn3). unfold exportMemoryFromFc, memoryMapping.
  destruct (an_mappings k) as [regions|] eqn:Em in |- *; [|intros original; exact Em]. rewrite (Hreport _ Em). cbn [mbind result_bind].
  destruct (host_ranges_read ma ps M (an_process k) Hma ltac:(lia) Hcut Hlow ltac:(lia) Hprocess (len M / ps) 0 (bm_ranges dirty))
    as (hs & Hhs & Hfl & Hall); [done|lia|apply bm_ranges_wf|by apply bm_ranges_below|lia|lia| |].
  { intros i Hi. rewrite bm_ranges_contains in Hi. by apply Hdirty. }
  unfold BitsetRanges. rewrite Hhs. destruct (an_pid k) eqn:Ep; [|intros original; exact Ep].
  assert (Hr : Forall range_ok hs) by (eapply Forall_impl; [exact Hall|]; by intros r (? & _)).
  assert (Hpos : Forall (λ r, 0 < RSize r) hs) by (eapply Forall_impl; [exact Hall|]; by intros r (_ & ? & _)).
  assert (Hal : Forall (λ r, RSize r mod ps = 0) hs) by (eapply Forall_impl; [exact Hall|]; by intros r (_ & _ & ?)).
  pose proof (len_flat_vm (an_process k) hs Hpos) as Ht. rewrite Hfl in Ht.
  pose proof (len_pack ps M (len M / ps) 0 (bm_ranges dirty) ltac:(lia) Hn1 ltac:(lia) ltac:(lia) (bm_ranges_wf dirty) (bm_ranges_below dirty _ Hn3)).
  pose proof (NewCacheFromProcessMemory_reads (B:=B) (an_process k) ps (an_contents k) (an_reads k) hs ltac:(lia) Hiov
    (proj1 (Hmax ps Hps)) (proj2 (Hmax ps Hps)) Hr Hpos Hal ltac:(nia) ltac:(nia)) as Hc.
  destruct (NewCacheFromProcessMemory _ _ _ _ _) as [c|e]; [by rewrite Hfl in Hc|]. intros original. by eexists _, _.
Qed.

Lemma cacheFromMemfd_full :
  match cacheFromMemfd (F:=F) k ps M dirty with Ok c => full c packed | Err e => ∀ original, excused original e end.
Proof using Hps HM Hin.
  pose proof ps_val as [Hb _]. destruct blocks_below as (Hn1 & Hn2 & Hn3). unfold cacheFromMemfd, memfd_result.
  pose proof (NewCacheFromMemfd_copies (an_cancelled k) ps (an_contents k) M dirty (len M / ps) ltac:(lia) Hn1 ltac:(unfold_int; lia) Hn2 Hn3) as Hc.
  destruct (NewCacheFromMemfd _ _ _ _ _) as [c|e]; cbn [mbind result_bind]; [|done].
  destruct (an_closed k) eqn:Ec; [exact Hc|intros original; exact Ec].
Qed.

Lemma async_full :
  match NewCacheFromMemfdAsync (F:=F) k ps M dirty with
  | Ok (Ok c) => full c packed
  | Ok (Err e) | Err e => ∀ original, excused original e
  end.
Proof using Hps HM Hin.
  pose proof ps_val as [Hb _]. destruct blocks_below as (Hn1 & Hn2 & Hn3). unfold NewCacheFromMemfdAsync.
  destruct (Z.eqb_spec (bm_card_range 0 (2 ^ 32) dirty) 0) as [E|_]; [|apply cacheFromMemfd_full].
  destruct (an_closed k) eqn:Ec; [|intros original; exact Ec]. pose proof (pack_card dirty ps M (len M / ps) ltac:(lia) Hn1 Hn3) as Hl. fold packed in Hl.
  rewrite E in Hl. rewrite E. change (i64 (i64 0 * ps)) with (i64 0). rewrite (i64_id 0) by (unfold_int; lia).
  assert (Hnil : packed = []) by (destruct packed; [done|rewrite len_cons in Hl; pose proof (len_nonneg l); lia]).
  rewrite Hnil. apply (copied_full _ 0 ps); [|done]. apply copied_start; [lia|lia|by apply len_truncate].
Qed.

(** *** What a capture says of every byte *)

Definition value (x : Z) : option Z :=
  if bm_contains dirty (x / ps) then at_ M x else if bm_contains (Empty d) (x / ps) then Some 0 else at_ D x.

Record captured (meta : DiffMetadata B) (out : bytes) : Prop := {
  ca_bs : 0 < dm_BlockSize meta <= 2 ^ 30;
  ca_paged : paged (dm_BlockSize meta);
  ca_dirty : blocks_inside (Dirty meta) (dm_BlockSize meta) (len M);
  ca_empty : blocks_inside (Empty meta) (dm_BlockSize meta) (len M);
  ca_value x : 0 <= x < len M →
    value x = if bm_contains (Empty meta) (x / dm_BlockSize meta) then Some 0
              else if bm_contains (Dirty meta) (x / dm_BlockSize meta) then at_ out (packed_at (Dirty meta) (dm_BlockSize meta) x)
              else at_ D x
}.

Lemma inside_of (b : B) bs : (∀ i, bm_contains b i = true → (i + 1) * bs <= len M) → blocks_inside b bs (len M).
Proof using. intros Hb i Hi. pose proof (bm_contains_u32 _ _ Hi) as Hu. unfold is_u32 in Hu. split; [lia|by apply Hb]. Qed.

Lemma plain_captured : captured (mkDiffMetadata dirty (Empty d) ps) packed.
Proof using Hps HM Hin Hempty.
  pose proof ps_val as [Hb Hm]. destruct blocks_below as (Hn1 & Hn2 & Hn3). split; cbn.
  - lia.
  - by apply Z.mod_divide.
  - by apply inside_of.
  - apply inside_of. intros i Hi. by apply Hempty.
  - intros x Hx. unfold value. destruct (bm_contains (Empty d) (x / ps)) eqn:Ee; [by rewrite (proj2 (Hempty _ Ee))|].
    destruct (bm_contains dirty (x / ps)) eqn:Ed; [|done]. symmetry. by apply (pack_bitmap _ _ _ (len M / ps)); try lia.
Qed.

(** The merge of the empty blocks into the pages. *)
Lemma merge_empty_spec (e pe : B) q : (∀ i, bm_contains e i = true → (i + 1) * ps <= len M) →
  bm_contains (merge_empty ps PageSize e pe) q = bm_contains e (q * PageSize / ps) || bm_contains pe q.
Proof using Hps HM.
  intros He. pose proof ps_val as [Hb Hm]. pose proof (Z.div_mod ps PageSize ltac:(done)) as Hd. rewrite Hm, Z.add_0_r in Hd.
  assert (HP : PageSize = 4096) by done. set (ratio := ps / PageSize) in *. assert (Hr : 0 < ratio <= 512) by nia.
  unfold merge_empty. rewrite Z.quot_div_nonneg by lia. fold ratio. rewrite (u64_id ratio) by (unfold_int; lia).
  rewrite <- (bm_ranges_contains e). replace (q * PageSize / ps) with (q / ratio).
  2: { rewrite Hd, (Z.mul_comm PageSize), Z.div_mul_cancel_r by lia. done. }
  assert (Hbl : runs_below (2 ^ 43 / ps) (bm_ranges e)).
  { apply bm_ranges_below. intros i Hi. apply He in Hi. assert (i + 1 <= 2 ^ 43 / ps) by (apply Z.div_le_lower_bound; lia). lia. }
  assert (Hlim : 2 ^ 43 / ps * ratio <= 2 ^ 32).
  { assert (2 ^ 43 / ps * ps <= 2 ^ 43) by (rewrite Z.mul_comm; apply Z.mul_div_le; lia). nia. }
  pose proof (bm_ranges_wf e) as Hwf. revert Hwf Hbl. assert (Hz : 0 <= 0) by lia. revert Hz. generalize 0 at 2 3 as lo. revert pe.
  induction (bm_ranges e) as [|[s t] rs IH]; intros pe lo Hlo Hwf Hbl; [done|]. destruct Hwf as (W1 & W2 & W3 & Hwf).
  apply Forall_cons in Hbl as [Ht Hbl]. cbn [fst snd] in Ht. cbn [foldl existsb].
  rewrite (IH _ t ltac:(lia) ltac:(eapply ranges_wf_weaken; [|done]; lia) Hbl).
  rewrite (u64_id s), (u64_id t) by (unfold_int; nia). rewrite !u64_id by (unfold_int; nia).
  rewrite bm_contains_add_range by nia.
  assert (Hq : in_range q (s * ratio, t * ratio) = in_range (q / ratio) (s, t)).
  { unfold in_range. cbn. pose proof (Z.div_mod q ratio ltac:(lia)). pose proof (Z.mod_pos_bound q ratio ltac:(lia)).
    destruct (Z.leb_spec (s * ratio) q), (Z.leb_spec s (q / ratio)), (Z.ltb_spec q (t * ratio)), (Z.ltb_spec (q / ratio) t); try done; nia. }
  rewrite Hq. destruct (in_range (q / ratio) (s, t)), (existsb (in_range (q / ratio)) rs); done.
Qed.

Lemma dedup_captured plan : plan_ok M D ps dirty plan →
  captured (mkDiffMetadata (pageDirty plan) (merge_empty ps PageSize (Empty d) (pageEmpty plan)) PageSize)
    (pack PageSize (bm_ranges (pageDirty plan)) M).
Proof using Hps HM HDM Hin Hempty Hmax.
  intros Hplan. pose proof ps_val as [Hb Hm]. assert (HP : PageSize = 4096) by done.
  assert (He : ∀ i, bm_contains (Empty d) i = true → (i + 1) * ps <= len M) by (intros i Hi; by apply Hempty).
  assert (Hsc : ∀ q, scanned ps dirty q → (q + 1) * PageSize <= len M) by (intros q Hq; by apply (scanned_inside M ps dirty ltac:(lia) Hm Hin)).
  split; cbn.
  - lia.
  - by exists 1.
  - apply inside_of. intros q Hq. apply Hsc. by apply (po_dirty _ _ _ _ _ Hplan).
  - apply inside_of. intros q Hq. rewrite merge_empty_spec in Hq by done. apply orb_true_iff in Hq as [Hq|Hq].
    + apply He in Hq. assert (Hu := Hq). pose proof (Z.div_mod (q * PageSize) ps ltac:(lia)). pose proof (Z.mod_pos_bound (q * PageSize) ps ltac:(lia)).
      pose proof (Z.div_mod ps PageSize ltac:(done)) as Hd. rewrite Hm, Z.add_0_r in Hd. rewrite HP in *. set (j := q * 4096 / ps) in *.
      set (r := ps / 4096) in *. assert (q < (j + 1) * r) by nia. nia.
    + apply Hsc. by apply (po_empty _ _ _ _ _ Hplan).
  - intros x Hx. rewrite merge_empty_spec by done. rewrite page_block by (done || lia).
    pose proof (plan_diff M D ps dirty plan ltac:(lia) Hm Hin HDM Hplan (replicate 16 1) x Hx) as Hp. cbv zeta in Hp. unfold diff_at in Hp. cbn in Hp.
    unfold value. destruct (bm_contains (Empty d) (x / ps)) eqn:Ee; [by rewrite (proj2 (Hempty _ Ee))|]. cbn [orb].
    destruct (bm_contains (pageEmpty plan) (x / PageSize)); [|destruct (bm_contains (pageDirty plan) (x / PageSize))].
    + destruct Hp as [-> [[_ ?]|[Hbad _]]]; [done|]. discriminate Hbad.
    + destruct Hp as [-> [[Hbad _]|[_ ?]]]; [discriminate Hbad|done].
    + destruct (bm_contains dirty (x / ps)); [by apply Hp|done].
Qed.

(** *** Every way *)

Context (original : option (parent (F:=F))) (cfg : dedup_config).
Hypothesis Hbase : ∀ base, original = Some base → ∀ p b, 0 <= p → pr_Slice base (p * PageSize) PageSize = Ok b → b = page D p.

Definition capture_ok (r : capture (B:=B) (F:=F)) : Prop :=
  match r with
  | (Err e, _) => excused original e
  | (Ok meta, c) => ∃ out, captured meta out ∧ match c with Ok c => full c out | Err e => excused original e end
  end.

Lemma runDedup_ok base : original = Some base → capture_ok (runDedup k base ps M dirty cfg (Empty d)).
Proof using Hps HM HDM Hin Hempty Hmax Hiov Hanswers Hbase.
  intros Ho. pose proof ps_val as [Hb Hm]. unfold runDedup. set (src := λ absOff, memfd_Slice M absOff ps).
  assert (Hslice : ∀ off, 0 <= off → off + ps <= len M → src off = Ok (slice off (off + ps) M)).
  { intros off H0 H1. unfold src, memfd_Slice. rewrite i64_id by (unfold_int; lia).
    destruct (Z.ltb_spec off 0); [lia|]. by destruct (Z.ltb_spec (len M) (off + ps)); [lia|]. }
  assert (Hsrc : ∀ i, bm_contains dirty i = true → src (i * ps) = Ok (slice (i * ps) (i * ps + ps) M)).
  { intros i Hi. pose proof (bm_contains_u32 _ _ Hi) as Hu. unfold is_u32 in Hu. apply Hin in Hi. apply Hslice; nia. }
  pose proof (dedupCompare_ok (pr_Slice base) (pr_Header base) (pr_IsCached base) M D ps dirty ltac:(lia) Hm ltac:(lia) Hin (Hbase base Ho)
    src (an_cancelled k) Hsrc (an_worth k) (bestEffort cfg) (dedupBudget cfg)) as Hc.
  destruct (dedupCompare _ _ _ _ _ _ _ _ _ _) as [plan|e].
  2: { cbn. destruct Hc as [(f & p & -> & Hf)|[-> Hcan]]; [by exists base, p|done]. }
  assert (Hsc : ∀ q, bm_contains (pageDirty plan) q = true → scanned ps dirty q) by (intros q Hq; by apply (po_dirty _ _ _ _ _ Hc)).
  pose proof (dedupDrain_spec src (an_cancelled k) M (pageDirty plan) ps ltac:(lia) HM) as Hd.
  specialize (Hd ltac:(intros q Hq; by apply (scanned_inside M ps dirty ltac:(lia) Hm Hin), Hsc)).
  assert (Hserve : ∀ y, 0 <= y → bm_contains (pageDirty plan) (y / PageSize) = true →
    y / ps * ps + ps <= len M ∧ src (y / ps * ps) = Ok (slice (y / ps * ps) (y / ps * ps + ps) M)).
  { intros y Hy Hq%Hsc. unfold scanned in Hq. rewrite page_block in Hq by (done || lia).
    split; [|by apply Hsrc]. apply Hin in Hq. lia. }
  destruct (Hmax PageSize (or_introl eq_refl)) as [Hmx _].
  specialize (Hd Hserve Hiov Hmx (directIO cfg) (an_fallocate k) (an_writes k) Hanswers).
  eexists. split; [by apply dedup_captured|]. destruct (dedupDrain _ _ _ _ _ _ _) as [c|e]; [exact Hd|by exists (pageDirty plan)].
Qed.

Definition outcome_ok (r : result (export_err (F:=F)) capture) : Prop :=
  match r with Ok c => capture_ok c | Err e => excused original e end.

Lemma ExportMemory_ok memfd bgCopy : memfd = None ∨ memfd = Some M →
  outcome_ok (ExportMemory k dirty ps memfd bgCopy original cfg (Empty d)).
Proof using Hps Hma Hcut Hlow HM HDM Hiov Hmax Hanswers Hreport Hprocess Hdirty Hin Hempty Hbase.
  intros Hmf. pose proof ps_val as [Hb Hm]. assert (Hrem : Z.rem ps PageSize =? 0 = true) by (rewrite Z.rem_mod_nonneg by (unfold PageSize; lia); by rewrite Hm).
  assert (Hplain : ∀ c, match c with Ok c => full c packed | Err e => excused original e end → capture_ok (Ok (mkDiffMetadata dirty (Empty d) ps), c))
    by (intros c Hc; exists packed; split; [apply plain_captured|done]).
  unfold ExportMemory. destruct Hmf as [-> | ->].
  - pose proof exportMemoryFromFc_full as Hx. destruct (exportMemoryFromFc k dirty ps) as [c|e]; cbn [mbind result_bind]; [|by apply Hx].
    destruct Hx as [Hf Hcb]. destruct original as [base|] eqn:Ho in |- *; [|exact (Hplain (Ok c) Hf)].
    destruct (Hmax PageSize (or_introl eq_refl)) as [Hmx _].
    pose proof (Dedup_spec (pr_Slice base) (pr_Header base) (pr_IsCached base) (an_cancelled k) (an_worth k) c M D dirty ps (bestEffort cfg)
      (directIO cfg) (an_fallocate k) (dedupBudget cfg) (an_writes k) ltac:(lia) Hm HM Hin Hf Hcb (Hbase base Ho) Hiov Hmx Hanswers) as Hs.
    destruct (Dedup _ _ _ _ _ _ _ _ _ _ _ _ _) as [[c' d']|[e|e]].
    + destruct Hs as (plan & Hplan & -> & Hfull). cbn [dm_BlockSize Dirty Empty]. destruct (an_cacheClosed k) eqn:Ek in |- *; [|exact Ek].
      rewrite Hrem. cbn. eexists. split; [by apply dedup_captured|exact Hfull].
    + cbn. destruct Hs as [(f & p & -> & Hfp)|[-> Hcan]]; [by exists base, p|done].
    + destruct Hs as (plan & _ & Hdf). by exists (pageDirty plan).
  - destruct original as [base|] eqn:Ho in |- *.
    + unfold NewCacheFromMemfdDeduped. rewrite Hrem. by apply runDedup_ok.
    + destruct bgCopy.
      * pose proof async_full as Hx. destruct (NewCacheFromMemfdAsync k ps M dirty) as [[c|e]|e]; cbn; [exact (Hplain (Ok c) Hx)|exact (Hplain (Err e) (Hx original))|apply Hx].
      * pose proof cacheFromMemfd_full as Hx. destruct (cacheFromMemfd k ps M dirty) as [c|e]; cbn; [exact (Hplain (Ok c) Hx)|apply Hx].
Qed.
End capture.

(** The header built on a capture reads every byte of it. *)
Lemma captured_header `{Bitmap B} ps D M (d meta : DiffMetadata B) out h ms fetch id :
  captured ps D M d meta out → header_ok h ms → Header.Size (h_Metadata h) = len M →
  (∀ x, 0 <= x < len M → at_ D x = image_at fetch ms x) →
  id ≠ uuid_nil → id ∉ Layers ms → Z.of_nat (size (table_of ms ∪ {[id]})) <= maxBuildsPerHeader →
  ∃ h' ms', ToDiffHeader meta h id = Ok h' ∧ header_ok h' ms' ∧
    ∀ x, 0 <= x < len M → image_at (store_add fetch id out) ms' x = value ps D M d x.
Proof.
  intros [C1 C2 C3 C4 C5] Hh Hsz HD Hid Hfresh Htab.
  destruct (ToDiffHeader_ok meta h ms id Hh) as (h' & ms' & Hth & Hh' & _ & _ & _ & Hcon); rewrite ?Hsz; try done.
  exists h', ms'. split_and!; [done|done|]. intros x Hx. rewrite C5 by done. unfold image_at at 1. rewrite Hcon by lia. unfold diff_at.
  destruct (bm_contains (Empty meta) _); [|destruct (bm_contains (Dirty meta) _)]; cbn [overlay fmap option_fmap option_map].
  - unfold erase_nil; cbn [fst]. by rewrite bool_decide_eq_true_2, decide_True by done.
  - unfold erase_nil; cbn [fst]. rewrite bool_decide_eq_false_2, decide_False by done. unfold store_add. by rewrite decide_True by done.
  - fold (content ms x). change (image_at (store_add fetch id out) ms x = at_ D x). by rewrite image_at_fresh, <- HD by done.
Qed.

(** ** From the faults of the guest to the new build *)

(** The byte the guest last saw, or was given, at an offset of its memory. *)
Definition guest_byte {B} ps (s : sys (B:=B)) (x : Z) : option Z := at_ (k_mem (sk s) (x / ps)) (x mod ps).

Section snapshot.
Context `{Hh : Host} `{Bitmap B} {F : Type}.

(** The sandbox: resumed from the image [D] of a sound header [h], run by a
    clean execution of [Uffd], and paused with the memory [M] in its process. *)
Record paused_sandbox (ma : list Region) (ps : Z) (src : Z → bytes) (s : sys (B:=B)) (dirty : DiffMetadata B)
    (h : Header) (ms : list BuildMap) (fetch : Store) (D M : bytes) : Prop := {
  pd_memory : memory_ok ma ps src;
  pd_reachable : clean_reachable ma ps src s;
  pd_running : running s;
  pd_paused : paused s (Dirty dirty);
  pd_blocks : dm_BlockSize dirty = ps;
  pd_header : header_ok h ms;
  pd_size : Header.Size (h_Metadata h) = len D;
  pd_image x : 0 <= x < len D → at_ D x = image_at fetch ms x;
  pd_source i : 0 <= i → (i + 1) * ps <= len D → src (i * ps) = slice (i * ps) (i * ps + ps) D;
  pd_regions g : g ∈ ma → Offset g + Regions.Size g <= len D ∧ BaseHostVirtAddr g + Regions.Size g < 2 ^ 62;
  pd_len : len M = len D ∧ len D < 2 ^ 43 ∧ len D mod ps = 0;
  pd_pages i p y : k_pages (sk s) !! i = Some p → 0 <= y < ps → at_ M (i * ps + y) = at_ (p_data p) y
}.

(** The host: what its calls answer is true of the sandbox. *)
Record honest_host (k : answers) (ma : list Region) (M D : bytes) (original : option (parent (F:=F))) : Prop := {
  hh_iov : 1 <= IOV_MAX;
  hh_max bs : bs = PageSize ∨ bs = HugepageSize → 0 < getAlignedMaxRwCount bs < 2 ^ 31 ∧ getAlignedMaxRwCount bs mod bs = 0;
  hh_writes : Forall answer_ok (an_writes k);
  hh_regions regions : an_mappings k = Some regions → NewMappingFromFc regions = Ok ma;
  hh_process off a : GetHostVirtAddr ma off = Ok a → at_ M off = Some (an_process k a);
  hh_base base p b : original = Some base → 0 <= p → pr_Slice base (p * PageSize) PageSize = Ok b → b = page D p
}.

Lemma snapshot_value ma ps src s dirty h ms fetch D M d x :
  paused_sandbox ma ps src s dirty h ms fetch D M → UffdDiffMetadata s dirty = Some d → 0 <= x < len D →
  value ps D M d x = guest_byte ps s x.
Proof using.
  intros P Hd Hx. destruct P as [P1 P2 P3 P4 P5 P6 P7 P8 P9 P10 (Pl1 & Pl2 & Pl3) P12]. pose proof (ps_bounds ma ps src P1) as Hb.
  pose proof (clean_reachable_inv ma ps src P1 s P2 P3) as Hinv. pose proof (snapshot_page ma ps src P1 s dirty d (x / ps) Hinv P4 Hd) as Hp.
  pose proof (Z.div_mod x ps ltac:(lia)) as Hdm. pose proof (Z.mod_pos_bound x ps ltac:(lia)) as Hmb. unfold value, guest_byte.
  destruct (bm_contains (Dirty d) (x / ps)).
  - destruct Hp as (p & Hpg & <-). rewrite <- (P12 _ _ _ Hpg Hmb). f_equal. lia.
  - rewrite Hp. destruct (bm_contains (Empty d) (x / ps)).
    + unfold zeros, at_. destruct (Z.ltb_spec (x mod ps) 0); [lia|]. rewrite lookup_replicate_2; [done|lia].
    + assert (0 <= x / ps) by (apply Z.div_pos; lia). pose proof (Z.div_mod (len D) ps ltac:(lia)) as HD. rewrite Pl3, Z.add_0_r in HD.
      assert (x / ps < len D / ps) by (apply Z.div_lt_upper_bound; lia). rewrite P9 by nia. rewrite at_slice by lia. f_equal. lia.
Qed.
Lemma snapshot_diff s dirty d : UffdDiffMetadata s dirty = Some d →
  Dirty d = Dirty dirty ∧ dm_BlockSize d = dm_BlockSize dirty ∧ Empty d = bm_and_not (t_zero (u_tracker (sh s))) (Dirty dirty).
Proof using.
  unfold UffdDiffMetadata. destruct (ExportPageStates s) as [e|] eqn:E; [|done]. apply exported_settled in E as [-> _]. by intros [= <-].
Qed.

(** A page of the diff is a page of a region. *)
Lemma snapshot_inside ma ps src s dirty h ms fetch D M d i :
  paused_sandbox ma ps src s dirty h ms fetch D M → UffdDiffMetadata s dirty = Some d →
  bm_contains (Dirty d) i = true ∨ bm_contains (Empty d) i = true → page_in ma ps i.
Proof using.
  intros P Hd Hi. destruct P as [P1 P2 P3 P4 _ _ _ _ _ _ _ _]. pose proof (clean_reachable_inside ma ps src P1 s P2 P3) as Hin.
  apply snapshot_diff in Hd as (Ed & _ & Ee). rewrite Ed, Ee, bm_contains_and_not, (pa_dirty _ _ P4) in Hi. destruct Hi as [Hi|Hi].
  - apply (in_pages _ _ _ Hin). by destruct (k_pages (sk s) !! i).
  - apply andb_true_iff in Hi as [Hi _]. apply (in_tracker _ _ _ Hin). intros Hnp.
    pose proof (Get_zero _ i (hi_disjoint _ _ _ _ (proj1 (clean_reachable_inv ma ps src P1 s P2 P3)))) as Hz. apply Hz in Hi. congruence.
Qed.

(** C1. A snapshot keeps the memory of a sandbox whose execution is clean: the
    guest gives back no page that it faults in, that it is giving back already
    or that is being prefaulted when the kernel discards it; no page being
    given back is touched or prefaulted; and a zero page is written only once
    it is protected ([Uffd.Early_write_is_lost] and
    [Uffd.Prefault_overtakes_remove] lose a page otherwise).  Within that, in
    whatever order its faults, writes and returned memory interleave with the
    handler, whichever way the memory is captured (from the process or the
    memory file, at once or in the background, deduplicated against a parent or
    not) and however the kernel cuts the copies: the pause fails only for an
    error of the host, of the parent or a cancellation, and otherwise the new
    header is sound and reads, over the captured cache and the builds of the old
    header, every byte as the guest last saw it. *)
Theorem Memory_snapshot_restores ma ps src s dirty h ms fetch D M (k : answers) id memfd bgCopy (original : option (parent (F:=F))) cfg r :
  paused_sandbox ma ps src s dirty h ms fetch D M → honest_host k ma M D original →
  memfd = None ∨ memfd = Some M →
  id ≠ uuid_nil → id ∉ Layers ms → Z.of_nat (size (table_of ms ∪ {[id]})) <= maxBuildsPerHeader →
  processMemorySnapshot k s dirty id h memfd bgCopy original cfg = Some r →
  match r with
  | Ok (Ok h', Ok c) => ∃ out ms', full c out ∧ header_ok h' ms' ∧
      ∀ x, 0 <= x < len D → image_at (store_add fetch id out) ms' x = guest_byte ps s x
  | Ok (Err e, _) | Ok (_, Err e) | Err e => excused k M original e
  end.
Proof using.
  intros P K Hmf Hid Hfresh Htab Hr. unfold processMemorySnapshot in Hr. destruct (UffdDiffMetadata s dirty) as [d|] eqn:Ed; [|done].
  pose proof (snapshot_value ma ps src s dirty h ms fetch D M d) as Hval. pose proof (snapshot_inside ma ps src s dirty h ms fetch D M d) as Hins.
  pose proof (snapshot_diff s dirty d Ed) as (E1 & E2 & E3).
  cbn [mbind option_bind] in Hr. injection Hr as <-. unfold pauseProcessMemory. pose proof P as [P1 _ _ _ P5 P6 P7 P8 _ P10 (Pl1 & Pl2 & Pl3) _].
  destruct K as [K1 K2 K3 K4 K5 K6]. rewrite E2, P5. pose proof (mo_pages _ _ _ P1) as Hpg. rewrite Forall_forall in Hpg.
  assert (Hpage : ∀ i, bm_contains (Dirty d) i = true ∨ bm_contains (Empty d) i = true → (i + 1) * ps <= len M).
  { intros i Hi. destruct (Hins i P Ed Hi) as (g & Hg & _ & Hle). destruct (P10 g Hg). lia. }
  pose proof (ExportMemory_ok (F:=F) k ma ps D M d (mo_ps _ _ _ P1) (mo_regions _ _ _ P1)) as Hx.
  specialize (Hx ltac:(intros g Hg; by destruct (Hpg g Hg) as (? & ? & _)) ltac:(intros g Hg; by apply P10) ltac:(lia) ltac:(lia) K1 K2 K3 K4 K5).
  specialize (Hx ltac:(intros i Hi; apply Hins; auto) ltac:(intros i Hi; apply Hpage; auto)).
  specialize (Hx ltac:(intros i Hi; split; [apply Hpage; auto|]; rewrite E3, bm_contains_and_not in Hi; apply andb_true_iff in Hi as [_ Hi]; rewrite E1; by apply negb_true_iff)).
  specialize (Hx original cfg ltac:(intros base Hb p b; by apply K6) memfd bgCopy Hmf). unfold outcome_ok in Hx.
  destruct (ExportMemory k (Dirty d) ps memfd bgCopy original cfg (Empty d)) as [[[meta|e] c]|e]; cbn [mbind result_bind]; try exact Hx.
  destruct Hx as (out & Hcap & Hx).
  destruct (captured_header ps D M d meta out h ms fetch id Hcap P6) as (h' & ms' & -> & Hok & Hall); try done; [lia|intros x Hlt; apply P8; lia|].
  destruct c as [c|e]; [|exact Hx].
  exists out, ms'. split_and!; [done|done|]. intros x Hlt. rewrite Hall by lia. by apply Hval.
Qed.
End snapshot.

(** *** Two pages, the memory read from the process and deduplicated *)

Definition two_image : bytes := two_src 0 ++ two_src 4096.
Definition two_memory_of : bytes := fill 4096 0 ++ fill 4096 9.
Definition two_metadata : Metadata := mkMetadata 4 4096 8192 1 id_a id_a.
Definition two_builds : list BuildMap := [mkBuildMap 0 8192 id_a 0].
Definition two_fetch : Store := λ _ pos, at_ two_image pos.
Definition two_parent : parent (F:=unit) := mkParent (λ off n, Ok (slice off (off + n) two_image)) None None.
Definition two_answers : answers :=
  mkAnswers (Some [mkGuestRegion (Some 65536) (Some 0) (Some 4096) (Some 8192)]) true (λ a, default 0 (at_ two_memory_of (a - 65536))) [] [VmRetry; VmRead 4096] [PwIntr; PwWrote 4096]
    true (λ _, false) true true (λ _ _ _ _ _, false).
Definition two_cfg : dedup_config := mkDedupConfig false true (mkBudget 0 0 0 0 0).
Definition two_snapshot (s : sys (B:=gset Z)) (h : Header) :=
  processMemorySnapshot (Hh:=small_host) two_answers s two_dirty (replicate 16 3) h None false (Some two_parent) two_cfg.

Lemma two_snapshot_done : option_map (λ r, match r with Ok (Ok _, Ok c) => c_size c =? 4096 | _ => false end)
  (s ← two_end; match NewHeader two_metadata two_builds with Ok h => two_snapshot s h | Err _ => None end) = Some true.
Proof. vm_compute; reflexivity. Qed.

Lemma len_two : len two_image = 8192 ∧ len two_memory_of = 8192.
Proof. unfold two_image, two_memory_of, two_src. rewrite !len_app, !len_fill by lia. unfold len. by rewrite !length_replicate. Qed.

Lemma two_image_at x : 0 <= x < 8192 → at_ two_image x = image_at two_fetch two_builds x.
Proof.
  intros Hx. unfold image_at, content, two_builds. cbn [source]. unfold covers. cbn [Mapping.Offset Length].
  destruct (Z.leb_spec 0 x); [|lia]. destruct (Z.ltb_spec x (0 + 8192)); [|lia].
  change (at_ two_image x = at_ two_image (0 + (x - 0))). f_equal. lia.
Qed.

Lemma two_header : ∃ h, NewHeader two_metadata two_builds = Ok h ∧ header_ok h two_builds ∧ Header.Size (h_Metadata h) = 8192.
Proof.
  destruct (NewHeader_ok two_metadata two_builds) as (h & Hn & Hok & Hm & _).
  1-2: cbn; lia. 1: cbn; lia.
  - cbn. repeat split; cbn; lia.
  - repeat constructor; cbn; lia.
  - repeat constructor; cbn; try lia; by apply (bool_decide_unpack _).
  - repeat constructor; cbn; lia.
  - vm_compute. discriminate.
  - exists h. by rewrite Hm.
Qed.

Lemma two_source i : 0 <= i → (i + 1) * 4096 <= 8192 → two_src (i * 4096) = slice (i * 4096) (i * 4096 + 4096) two_image.
Proof. intros Hi Hl. assert (i = 0 ∨ i = 1) as [-> | ->] by lia; vm_compute; reflexivity. Qed.

Lemma two_paused h : header_ok h two_builds → Header.Size (h_Metadata h) = 8192 →
  ∃ s, two_end = Some s ∧ paused_sandbox two_pages 4096 two_src s two_dirty h two_builds two_fetch two_image two_memory_of.
Proof.
  intros Hok Hsz. destruct two_end_paused as (s & Hs & Hpg & Hre & Hru & Hpa). destruct len_two as [L1 L2].
  exists s. split; [exact Hs|]. split; rewrite ?L1, ?L2.
  - exact two_memory.
  - exact Hre.
  - exact Hru.
  - exact Hpa.
  - reflexivity.
  - exact Hok.
  - exact Hsz.
  - exact two_image_at.
  - exact two_source.
  - intros g [->|[]%elem_of_nil]%elem_of_cons. cbn. lia.
  - split; [reflexivity|]. split; [lia|reflexivity].
  - intros i p y. rewrite Hpg. intros [<- <-]%lookup_singleton_Some Hy. unfold two_memory_of. rewrite at_app, len_fill, !at_fill by lia.
    destruct (Z.ltb_spec (1 * 4096 + y) 4096); [lia|]. cbn [p_data]. unfold at_. rewrite lookup_replicate_2 by lia.
    destruct (Z.leb_spec 0 (1 * 4096 + y - 4096)), (Z.ltb_spec (1 * 4096 + y - 4096) 4096), (Z.ltb_spec y 0); try lia; reflexivity.
Qed.

Lemma two_honest : honest_host (Hh:=small_host) two_answers two_pages two_memory_of two_image (Some two_parent).
Proof.
  split.
  - cbn. lia.
  - intros bs [-> | ->]; vm_compute; repeat split; congruence.
  - repeat constructor; cbn; lia.
  - intros regions E. injection E as <-. reflexivity.
  - intros off a Ha. apply (GetHostVirtAddr_maps _ (mo_regions _ _ _ two_memory)) in Ha as (g & Hg & Hin).
    apply elem_of_cons in Hg as [->|[]%elem_of_nil]. destruct Hin as [Hin Ha]. cbn in Hin, Ha |- *. replace (a - 65536) with off by lia.
    unfold two_memory_of. rewrite at_app, len_fill, !at_fill by lia.
    destruct (Z.ltb_spec off 4096), (Z.leb_spec 0 off), (Z.leb_spec 0 (off - 4096)), (Z.ltb_spec (off - 4096) 4096); try lia; reflexivity.
  - intros base p b E _. injection E as <-. intros E. symmetry. exact (ok_inj _ _ E).
Qed.

Lemma Memory_snapshot_restores_witness : ∃ s h h' c out ms',
  two_end = Some s ∧ two_snapshot s h = Some (Ok (Ok h', Ok c)) ∧ full c out ∧
  ∀ x, 0 <= x < 8192 → image_at (store_add two_fetch (replicate 16 3) out) ms' x = guest_byte 4096 s x.
Proof.
  destruct two_header as (h & Hn & Hok & Hsz). destruct (two_paused h Hok Hsz) as (s & Hs & Hpd).
  pose proof two_snapshot_done as Hd. rewrite Hs, Hn in Hd. cbn [mbind option_bind] in Hd.
  pose proof (Memory_snapshot_restores (Hh:=small_host) two_pages 4096 two_src s two_dirty h two_builds two_fetch two_image two_memory_of
    two_answers (replicate 16 3) None false (Some two_parent) two_cfg) as Hr.
  fold (two_snapshot s h) in Hr. destruct (two_snapshot s h) as [[[[h'|e] [c|e']]|e]|] eqn:Er in Hd; try discriminate Hd. clear Hd.
  specialize (Hr (Ok (Ok h', Ok c)) Hpd two_honest (or_introl eq_refl) ltac:(discriminate)).
  specialize (Hr ltac:(apply (bool_decide_unpack _); vm_compute; exact I) ltac:(vm_compute; discriminate) Er).
  destruct Hr as (out & ms' & Hf & _ & Hall). rewrite (proj1 len_two) in Hall.
  exists s, h, h', c, out, ms'. split; [exact Hs|]. split; [exact Er|]. split; [exact Hf|exact Hall].
Defined.
