(* ===== verification/Nbd.v ===== *)
(** * Nbd: the block device protocol over the overlay

    Models [nbd/dispatch.go]: the loop that reads requests from the socket of
    the kernel ([Handle]), and the goroutines that serve them over the overlay
    and write the responses ([cmdRead], [cmdWrite], [cmdWriteZeroes] with
    [asyncWriteZeroes], [writeResponse], [Drain]).

    The socket delivers the requests in pieces of any size: [Handle] takes the
    sizes of the reads as a parameter.  The goroutines are a step relation.
    A read of the device takes the lock of the cache for each block, so that
    it is one step for each block; a write or a zeroing is one step. *)

From stdpp Require Import relations.
From S2P Require Import Prelude Bytes Bitmap Blocks Mapping Compact FrameTable Header Export.
From S2P Require Import Tracker Cache Overlay.

(** ** The wire *)

Fixpoint be_acc (acc : Z) (b : bytes) : Z := match b with [] => acc | x :: b => be_acc (acc * 256 + x) b end.
Definition be_dec (b : bytes) : Z := be_acc 0 b.
Definition be_enc (n : nat) (x : Z) : bytes := rev (le_enc n x).

Definition NBDCmdRead : Z := 0.
Definition NBDCmdWrite : Z := 1.
Definition NBDCmdDisconnect : Z := 2.
Definition NBDCmdFlush : Z := 3.
Definition NBDCmdTrim : Z := 4.
Definition NBDCmdWriteZeroes : Z := 6.
Definition NBDRequestMagic : Z := 0x25609513.
Definition NBDResponseMagic : Z := 0x67446698.

Definition dispatchBufferSize : Z := 4 * 1024 * 1024.
Definition dispatchMaxWriteBufferSize : Z := 32 * 1024 * 1024.

Record Request := mkRequest {
  Magic : Z;
  Flags : Z;
  Ty : Z;
  Handle_ : Z;
  From : Z;
  Length : Z
}.

Definition decode_request (header : bytes) : Request :=
  mkRequest (be_dec (slice 0 4 header)) (be_dec (slice 4 6 header)) (be_dec (slice 6 8 header))
            (be_dec (slice 8 16 header)) (be_dec (slice 16 24 header)) (be_dec (slice 24 28 header)).

(** ** [Handle] *)

(** What the loop hands to the provider. *)
Inductive command :=
| CmdRead (handle from length : Z)
| CmdWrite (handle from : Z) (data : bytes)
| CmdZero (handle from length : Z).

Inductive handle_end :=
| Disconnected
| FlushUnsupported
| InvalidMagic
| WriteTooLong (length : Z)
| NotImplemented (type : Z)
| SocketClosed
| SocketClosedInWrite
| Interrupted    (** a fatal error of a goroutine, or the context *)
| Refused.       (** by [cmdRead], [cmdWrite] or [cmdWriteZeroes]: the server
                     shuts down, or the response of a zeroing served inline
                     was not written *)

(** One turn of the inner loop on the bytes of the buffer. *)
Inductive turn :=
| TMore
| TEnd (e : handle_end)
| TCommand (c : command) (rest : bytes)
| TData (handle from need : Z) (have : bytes).

Definition next (buf : bytes) : turn :=
  if len buf <? 28 then TMore
  else
    let r := decode_request (slice 0 28 buf) in
    let rest := drop 28 buf in
    if negb (Magic r =? NBDRequestMagic) then TEnd InvalidMagic
    else if Ty r =? NBDCmdDisconnect then TEnd Disconnected
    else if Ty r =? NBDCmdFlush then TEnd FlushUnsupported
    else if Ty r =? NBDCmdRead then TCommand (CmdRead (Handle_ r) (From r) (Length r)) rest
    else if Ty r =? NBDCmdWrite then
      if dispatchMaxWriteBufferSize <? Length r then TEnd (WriteTooLong (Length r))
      else if len rest <? Length r then TData (Handle_ r) (From r) (Length r) rest
      else TCommand (CmdWrite (Handle_ r) (From r) (take (Z.to_nat (Length r)) rest)) (drop (Z.to_nat (Length r)) rest)
    else if (Ty r =? NBDCmdWriteZeroes) || (Ty r =? NBDCmdTrim)
    then TCommand (CmdZero (Handle_ r) (From r) (Length r)) rest
    else TEnd (NotImplemented (Ty r)).

(** Where the inner loop stops: out of bytes, in the data of a write, or for
    good. *)
Inductive pause :=
| PMore (buf : bytes)
| PData (handle from need : Z) (have : bytes)
| PEnd (e : handle_end).

(** The inner loop; [stop k] tells whether its [k]-th check finds a fatal error
    or a cancelled context, [refused k] whether the command taken after it, the
    last one, is met with an error. *)
Fixpoint process (fuel : nat) (stop refused : nat → bool) (k : nat) (buf : bytes) : list command * pause * nat :=
  match fuel with
  | O => ([], PMore buf, k)
  | S fuel =>
      if stop k then ([], PEnd Interrupted, S k)
      else match next buf with
           | TMore => ([], PMore buf, S k)
           | TEnd e => ([], PEnd e, S k)
           | TData h f n have => ([], PData h f n have, S k)
           | TCommand c rest =>
               if refused k then ([c], PEnd Refused, S k)
               else let '(cs, p, k) := process fuel stop refused (S k) rest in (c :: cs, p, k)
           end
  end.

Definition process_all (stop refused : nat → bool) (k : nat) (buf : bytes) : list command * pause * nat :=
  process (S (length buf)) stop refused k buf.

(** [Read] into room for [cap] bytes: it delivers at least one byte and as
    many as it likes. *)
Definition delivered (cap wanted : Z) (socket : bytes) : nat :=
  Z.to_nat (Z.max 1 (Z.min wanted (Z.min cap (len socket)))).

Fixpoint handle_loop (fuel : nat) (wanted : nat → Z) (stop refused : nat → bool) (n k : nat) (p : pause) (socket : bytes)
    : list command * handle_end :=
  match fuel with
  | O => ([], Interrupted)
  | S fuel =>
      match p with
      | PEnd e => ([], e)
      | PMore buf =>
          match socket with
          | [] => ([], SocketClosed)
          | _ =>
              let m := delivered (dispatchBufferSize - len buf) (wanted n) socket in
              let '(cs, p, k) := process_all stop refused k (buf ++ take m socket) in
              let '(cs', e) := handle_loop fuel wanted stop refused (S n) k p (drop m socket) in
              (cs ++ cs', e)
          end
      | PData h f need have =>
          match socket with
          | [] => ([], SocketClosedInWrite)
          | _ =>
              let m := delivered (need - len have) (wanted n) socket in
              let have := have ++ take m socket in
              if stop k then ([], Interrupted)
              else if len have <? need then handle_loop fuel wanted stop refused (S n) (S k) (PData h f need have) (drop m socket)
              else if refused k then ([CmdWrite h f have], Refused)
              else
                let '(cs, p, k) := process_all stop refused (S k) [] in
                let '(cs', e) := handle_loop fuel wanted stop refused (S n) k p (drop m socket) in
                (CmdWrite h f have :: cs ++ cs', e)
          end
      end
  end.

Definition Handle (wanted : nat → Z) (stop refused : nat → bool) (socket : bytes) : list command * handle_end :=
  handle_loop (2 + length socket) wanted stop refused O O (PMore []) socket.

(** ** The requests of a stream, however it is delivered *)

Fixpoint parse_fuel (fuel : nat) (s : bytes) : list command * handle_end :=
  match fuel with
  | O => ([], SocketClosed)
  | S fuel =>
      match next s with
      | TMore => ([], SocketClosed)
      | TEnd e => ([], e)
      | TData _ _ _ _ => ([], SocketClosedInWrite)
      | TCommand c rest => let '(cs, e) := parse_fuel fuel rest in (c :: cs, e)
      end
  end.

Definition parse (s : bytes) : list command * handle_end := parse_fuel (S (length s)) s.

(** The wire form of a command, and of a response. *)
Definition put_request (ty h from length : Z) : bytes :=
  be_enc 4 NBDRequestMagic ++ be_enc 2 0 ++ be_enc 2 ty ++ be_enc 8 h ++ be_enc 8 from ++ be_enc 4 length.

Definition encode_command (c : command) : bytes :=
  match c with
  | CmdRead h from n => put_request NBDCmdRead h from n
  | CmdWrite h from data => put_request NBDCmdWrite h from (len data) ++ data
  | CmdZero h from n => put_request NBDCmdWriteZeroes h from n
  end.

(** ** Big-endian integers *)

Lemma be_acc_app acc a b : be_acc acc (a ++ b) = be_acc (be_acc acc a) b.
Proof. revert acc. induction a as [|x a IH]; intros acc; [done|apply IH]. Qed.

Lemma be_dec_rev b : be_dec (rev b) = le_dec b.
Proof.
  unfold be_dec. induction b as [|x b IH]; [done|]. cbn [rev le_dec]. rewrite be_acc_app, IH. cbn. lia.
Qed.

Lemma be_dec_enc n x : 0 <= x < 256 ^ Z.of_nat n → be_dec (be_enc n x) = x.
Proof. intros Hx. unfold be_enc. rewrite be_dec_rev, le_dec_enc. by apply Z.mod_small. Qed.

Lemma be16 x : 0 <= x < 2 ^ 16 → be_dec (be_enc 2 x) = x.
Proof. exact (be_dec_enc 2 x). Qed.
Lemma be32 x : is_u32 x → be_dec (be_enc 4 x) = x.
Proof. exact (be_dec_enc 4 x). Qed.
Lemma be64 x : is_u64 x → be_dec (be_enc 8 x) = x.
Proof. exact (be_dec_enc 8 x). Qed.

Lemma len_be_enc n x : len (be_enc n x) = Z.of_nat n.
Proof. unfold be_enc, len. by rewrite length_rev, length_le_enc. Qed.

(** ** One turn *)

Lemma slice_app_in {A} (l k : list A) i j : 0 <= i → j <= len l → slice i j (l ++ k) = slice i j l.
Proof.
  intros Hi Hj. unfold slice, len in *. destruct (decide (i <= Z.of_nat (length l))) as [Hle|Hle].
  - rewrite drop_app_le by lia. apply take_app_le. rewrite length_drop. lia.
  - replace (Z.to_nat (j - i)) with O by lia. by rewrite !take_0.
Qed.

Lemma len_take_drop {A} n (l : list A) : n <= len l → 0 <= n → len (drop (Z.to_nat n) l) = len l - n ∧ len (take (Z.to_nat n) l) = n.
Proof. intros Hn H0. unfold len in *. rewrite length_drop, length_take. lia. Qed.

(** More bytes change nothing about a turn that had enough, and complete the
    data of a write. *)
Lemma next_app buf s :
  match next buf with
  | TMore => len buf < 28
  | TEnd e => next (buf ++ s) = TEnd e
  | TCommand c rest => next (buf ++ s) = TCommand c (rest ++ s) ∧ len rest + 28 <= len buf
  | TData h f n have =>
      len have < n ∧
      next (buf ++ s) = if len (have ++ s) <? n then TData h f n (have ++ s)
                        else TCommand (CmdWrite h f (take (Z.to_nat n) (have ++ s))) (drop (Z.to_nat n) (have ++ s))
  end.
Proof.
  unfold next. pose proof (len_nonneg s). destruct (Z.ltb_spec (len buf) 28) as [Hlt|Hge]; [done|].
  assert (E : (len (buf ++ s) <? 28) = false) by (apply Z.ltb_ge; rewrite len_app; lia). rewrite E. clear E.
  rewrite slice_app_in by lia. assert (Hd : drop 28 (buf ++ s) = drop 28 buf ++ s) by (apply drop_app_le; unfold len in Hge; lia).
  rewrite Hd. assert (Hr : len (drop 28 buf) = len buf - 28) by (unfold len in *; rewrite length_drop; lia).
  generalize (decode_request (slice 0 28 buf)), (drop 28 buf), Hr. intros r rest Hrest.
  destruct (negb _); [done|]. destruct (Ty r =? NBDCmdDisconnect); [done|]. destruct (Ty r =? NBDCmdFlush); [done|].
  destruct (Ty r =? NBDCmdRead); [split; [done|lia]|]. destruct (Ty r =? NBDCmdWrite).
  - destruct (dispatchMaxWriteBufferSize <? Length r); [done|]. destruct (Z.ltb_spec (len rest) (Length r)) as [Hs|Hs].
    + split; [done|]. done.
    + assert (Hn : (len (rest ++ s) <? Length r) = false) by (apply Z.ltb_ge; rewrite len_app; lia). rewrite Hn.
      pose proof (len_nonneg rest). split; [|unfold len in *; rewrite length_drop; lia]. unfold len in Hs.
      rewrite take_app_le, drop_app_le by lia. done.
  - destruct (_ || _); [split; [done|lia]|done].
Qed.

Lemma parse_fuel_enough f1 f2 s : (length s < f1)%nat → (length s < f2)%nat → parse_fuel f1 s = parse_fuel f2 s.
Proof.
  revert f2 s. induction f1 as [|f1 IH]; intros [|f2] s H1 H2; try lia. cbn [parse_fuel].
  pose proof (next_app s []) as Hn. rewrite app_nil_r in Hn. destruct (next s) as [|e|c rest|h f n have]; try done.
  destruct Hn as [_ Hl]. unfold len in Hl. by rewrite (IH f2) by lia.
Qed.

Lemma parse_next s :
  parse s = match next s with
            | TMore => ([], SocketClosed)
            | TEnd e => ([], e)
            | TData _ _ _ _ => ([], SocketClosedInWrite)
            | TCommand c rest => let '(cs, e) := parse rest in (c :: cs, e)
            end.
Proof.
  unfold parse at 1. cbn [parse_fuel]. pose proof (next_app s []) as Hn. rewrite app_nil_r in Hn.
  destruct (next s) as [|e|c rest|h f n have]; try done. destruct Hn as [_ Hl]. unfold len in Hl. unfold parse.
  by rewrite (parse_fuel_enough (length s) (S (length rest))) by lia.
Qed.

(** What is left to do at a pause, with the rest of the stream. *)
Definition parse_from (p : pause) (s : bytes) : list command * handle_end :=
  match p with
  | PMore buf => parse (buf ++ s)
  | PEnd e => ([], e)
  | PData h f n have =>
      if len (have ++ s) <? n then ([], SocketClosedInWrite)
      else let '(cs, e) := parse (drop (Z.to_nat n) (have ++ s)) in (CmdWrite h f (take (Z.to_nat n) (have ++ s)) :: cs, e)
  end.

(** Why the loop ends before the stream does. *)
Definition broken_off (stop refused : nat → bool) (e : handle_end) : Prop :=
  (e = Interrupted ∧ ∃ k, stop k = true) ∨ (e = Refused ∧ ∃ k, refused k = true).

(** [r] is [full], or what was done of it before the loop was broken off. *)
Definition cut_short (stop refused : nat → bool) (r full : list command * handle_end) : Prop :=
  r = full ∨ (broken_off stop refused r.2 ∧ r.1 `prefix_of` full.1).

Lemma cut_short_cons stop refused c cs e cs' e' :
  cut_short stop refused (cs, e) (cs', e') → cut_short stop refused (c :: cs, e) (c :: cs', e').
Proof. intros [[= -> ->]|[H1 H2]]; [by left|right]. split; [done|]. by apply prefix_cons. Qed.

Lemma cut_short_app stop refused cs r e r' e' :
  cut_short stop refused (r, e) (r', e') → cut_short stop refused (cs ++ r, e) (cs ++ r', e').
Proof. induction cs as [|c cs IH]; [done|]. intros Hc. apply cut_short_cons, IH, Hc. Qed.

(** Where the loop has read all it can. *)
Definition pause_ok (p : pause) : Prop :=
  match p with PMore buf => len buf < 28 | PData _ _ n have => len have < n | PEnd _ => True end.

Lemma process_spec fuel stop refused k buf s cs p k' :
  (length buf < fuel)%nat → process fuel stop refused k buf = (cs, p, k') →
  pause_ok p ∧
  ((∃ e, p = PEnd e ∧ broken_off stop refused e ∧ cs `prefix_of` (parse (buf ++ s)).1) ∨
   (parse (buf ++ s)).1 = cs ++ (parse_from p s).1 ∧ (parse (buf ++ s)).2 = (parse_from p s).2).
Proof.
  revert k buf cs p k'. induction fuel as [|fuel IH]; intros k buf cs p k' Hf; [lia|]. cbn [process].
  destruct (stop k) eqn:Es; [intros [= <- <- _]; split; [done|left]; exists Interrupted; split_and!; [done|left; eauto|apply prefix_nil]|].
  pose proof (next_app buf s) as Hn. rewrite (parse_next (buf ++ s)). destruct (next buf) as [|e|c rest|h f n have].
  - intros [= <- <- _]. split; [done|]. right. cbn [parse_from app]. by rewrite <- (parse_next (buf ++ s)).
  - intros [= <- <- _]. rewrite Hn. split; [done|]. by right.
  - destruct Hn as [-> Hl]. destruct (refused k) eqn:Er.
    { intros [= <- <- _]. split; [done|]. left. exists Refused. split_and!; [done|right; eauto|]. destruct (parse (rest ++ s)) as [csr er]. by apply prefix_cons, prefix_nil. }
    destruct (process fuel stop refused (S k) rest) as [[cs0 p0] k0] eqn:Hp. intros [= <- <- _].
    destruct (IH (S k) rest cs0 p0 k0) as [Hok Hr]; [unfold len in Hl; lia|done|]. split; [done|].
    destruct (parse (rest ++ s)) as [csr er]. cbn in Hr |- *. destruct Hr as [(e0 & H1 & H2 & H3)|[-> ->]]; [left|by right].
    exists e0. split_and!; [done|done|]. by apply prefix_cons.
  - destruct Hn as [Hl ->]. intros [= <- <- _]. split; [done|]. right. cbn [parse_from]. destruct (_ <? n); [done|].
    by destruct (parse _).
Qed.

(** ** The whole stream *)

Lemma delivered_spec cap wanted socket : socket ≠ [] → 1 <= cap →
  (1 <= delivered cap wanted socket <= length socket)%nat ∧ Z.of_nat (delivered cap wanted socket) <= cap.
Proof.
  intros Hs Hc. unfold delivered. assert (1 <= len socket) by (destruct socket; [done|rewrite len_cons; pose proof (len_nonneg socket); lia]).
  unfold len in *. lia.
Qed.

(** A pause reached over the end of the buffer is good for any continuation. *)
Lemma process_all_spec stop refused k buf s cs p k' : process_all stop refused k buf = (cs, p, k') →
  pause_ok p ∧
  ((∃ e, p = PEnd e ∧ broken_off stop refused e ∧ cs `prefix_of` (parse (buf ++ s)).1) ∨
   (parse (buf ++ s)).1 = cs ++ (parse_from p s).1 ∧ (parse (buf ++ s)).2 = (parse_from p s).2).
Proof. apply process_spec. lia. Qed.

Lemma parse_short s : len s < 28 → parse s = ([], SocketClosed).
Proof. intros Hs. rewrite parse_next. unfold next. by destruct (Z.ltb_spec (len s) 28); [|lia]. Qed.

Lemma handle_loop_spec fuel wanted stop refused n k p socket :
  (length socket + (match p with PEnd _ => 0 | _ => 1 end) < fuel)%nat → pause_ok p →
  cut_short stop refused (handle_loop fuel wanted stop refused n k p socket) (parse_from p socket).
Proof.
  revert n k p socket. induction fuel as [|fuel IH]; intros n k p socket Hf Hp; [lia|]. cbn [handle_loop].
  assert (Rest : ∀ cs p1 k1 s full, pause_ok p1 → (length s + 1 < fuel)%nat ∨ (length s < fuel)%nat ∧ (∃ e, p1 = PEnd e) →
    ((∃ e, p1 = PEnd e ∧ broken_off stop refused e ∧ cs `prefix_of` full.1) ∨
     full.1 = cs ++ (parse_from p1 s).1 ∧ full.2 = (parse_from p1 s).2) →
    cut_short stop refused (let '(cs', e) := handle_loop fuel wanted stop refused (S n) k1 p1 s in (cs ++ cs', e)) full).
  { intros cs p1 k1 s full Hok Hfuel Hr. assert (Hfu : (length s + (match p1 with PEnd _ => 0 | _ => 1 end) < fuel)%nat).
    { destruct Hfuel as [?|[? [e ->]]]; [destruct p1; lia|lia]. }
    specialize (IH (S n) k1 p1 s Hfu Hok). destruct full as [fc fe]. cbn in Hr. destruct Hr as [(e0 & -> & Hs & Hpre)|[-> ->]].
    - right. destruct fuel as [|fuel]; [cbn in Hfu; lia|]. cbn [handle_loop]. rewrite app_nil_r. by split.
    - destruct (handle_loop _ _ _ _ _ _ _ _) as [cs' e], (parse_from p1 s) as [c0 e0]. by apply cut_short_app. }
  destruct p as [buf|h f need have|e]; [| |by left].
  - destruct socket as [|x0 s0] eqn:Hsock; [left; cbn [parse_from]; rewrite app_nil_r; symmetry; by apply parse_short|]. rewrite <- Hsock in *.
    destruct (delivered_spec (dispatchBufferSize - len buf) (wanted n) socket) as [Hm _]; [by rewrite Hsock| |].
    { cbn in Hp. unfold dispatchBufferSize. lia. }
    set (m := delivered _ _ _) in *. destruct (process_all stop refused k (buf ++ take m socket)) as [[cs p1] k1] eqn:Hpr.
    destruct (process_all_spec _ _ _ _ (drop m socket) _ _ _ Hpr) as [Hok Hr]. rewrite <- app_assoc, take_drop in Hr.
    apply Rest; [done| |done]. left. rewrite length_drop. lia.
  - destruct socket as [|x0 s0] eqn:Hsock.
    { left. cbn [parse_from]. rewrite app_nil_r. cbn in Hp. by destruct (Z.ltb_spec (len have) need); [|lia]. }
    rewrite <- Hsock in *. cbn in Hp.
    destruct (delivered_spec (need - len have) (wanted n) socket) as [Hm Hcap]; [by rewrite Hsock|lia|].
    set (m := delivered _ _ _) in *. destruct (stop k) eqn:Es.
    { right. split; [left; eauto|apply prefix_nil]. }
    assert (Hsplit : have ++ socket = (have ++ take m socket) ++ drop m socket) by (by rewrite <- app_assoc, take_drop).
    assert (Hlen : len (have ++ take m socket) <= need).
    { rewrite len_app. unfold len in *. rewrite length_take. lia. }
    destruct (Z.ltb_spec (len (have ++ take m socket)) need) as [Hmore|Hdone].
    + assert (Heq : parse_from (PData h f need have) socket = parse_from (PData h f need (have ++ take m socket)) (drop m socket))
        by (cbn [parse_from]; by rewrite <- Hsplit).
      rewrite Heq. apply IH; [rewrite length_drop; lia|done].
    + cbn [parse_from]. rewrite Hsplit. assert (Hn : Z.to_nat need = length (have ++ take m socket)) by (unfold len in *; lia).
      rewrite Hn, take_app_length, drop_app_length.
      replace (len _ <? need) with false by (symmetry; apply Z.ltb_ge; rewrite len_app; pose proof (len_nonneg (drop m socket)); lia).
      destruct (refused k) eqn:Er.
      { right. split; [right; eauto|]. destruct (parse (drop m socket)) as [c0 e0]. by apply prefix_cons, prefix_nil. }
      destruct (process_all stop refused (S k) []) as [[cs p1] k1] eqn:Hpr.
      destruct (process_all_spec _ _ _ _ (drop m socket) _ _ _ Hpr) as [Hok Hr]. cbn [app] in Hr.
      specialize (Rest cs p1 k1 (drop m socket) (parse (drop m socket)) Hok ltac:(left; rewrite length_drop; lia) Hr).
      destruct (handle_loop _ _ _ _ _ _ _ _) as [cs' e], (parse _) as [c0 e0]. by apply cut_short_cons.
Qed.

(** ** Encoded commands *)

Definition command_ok (c : command) : Prop :=
  match c with
  | CmdRead h f n | CmdZero h f n => is_u64 h ∧ is_u64 f ∧ is_u32 n
  | CmdWrite h f data => is_u64 h ∧ is_u64 f ∧ len data <= dispatchMaxWriteBufferSize
  end.
#[global] Instance command_ok_dec c : Decision (command_ok c).
Proof. destruct c; unfold command_ok, is_u64, is_u32; apply _. Defined.

Lemma slice_mid {A} (a b c : list A) i j : len a = i → len b = j - i → slice i j (a ++ b ++ c) = b.
Proof.
  intros <- Hb. unfold slice. rewrite <- Hb, !len_to_nat. by rewrite drop_app_length, take_app_length.
Qed.

Lemma len_put_request ty h f n : len (put_request ty h f n) = 28.
Proof. unfold put_request. rewrite !len_app, !len_be_enc. lia. Qed.

Lemma decode_put_request ty h f n : 0 <= ty < 2 ^ 16 → is_u64 h → is_u64 f → is_u32 n →
  decode_request (put_request ty h f n) = mkRequest NBDRequestMagic 0 ty h f n.
Proof.
  intros Ht Hh Hf Hn. unfold decode_request, put_request.
  set (m := be_enc 4 NBDRequestMagic). set (z := be_enc 2 0). set (t := be_enc 2 ty). set (b := be_enc 8 h).
  set (q := be_enc 8 f). set (l := be_enc 4 n).
  assert (E0 : slice 0 4 (m ++ z ++ t ++ b ++ q ++ l) = m).
  { apply (slice_mid [] m (z ++ t ++ b ++ q ++ l)); [done|unfold m; by rewrite len_be_enc]. }
  assert (E1 : slice 4 6 (m ++ z ++ t ++ b ++ q ++ l) = z).
  { apply slice_mid; unfold m, z; rewrite len_be_enc; lia. }
  assert (E2 : slice 6 8 (m ++ z ++ t ++ b ++ q ++ l) = t).
  { rewrite (app_assoc m). apply slice_mid; unfold m, z, t; rewrite ?len_app, !len_be_enc; lia. }
  assert (E3 : slice 8 16 (m ++ z ++ t ++ b ++ q ++ l) = b).
  { rewrite (app_assoc z), (app_assoc m). apply slice_mid; unfold m, z, t, b; rewrite ?len_app, !len_be_enc; lia. }
  assert (E4 : slice 16 24 (m ++ z ++ t ++ b ++ q ++ l) = q).
  { rewrite (app_assoc t), (app_assoc z), (app_assoc m). apply slice_mid; unfold m, z, t, b, q; rewrite ?len_app, !len_be_enc; lia. }
  assert (E5 : slice 24 28 (m ++ z ++ t ++ b ++ q ++ l) = l).
  { rewrite (app_assoc b), (app_assoc t), (app_assoc z), (app_assoc m), <- (app_nil_r l) at 1.
    apply slice_mid; unfold m, z, t, b, q, l; rewrite ?len_app, !len_be_enc; lia. }
  rewrite E0, E1, E2, E3, E4, E5. unfold m, z, t, b, q, l.
  rewrite (be32 n Hn), (be64 h Hh), (be64 f Hf), (be16 ty Ht), (be16 0), (be32 NBDRequestMagic); [reflexivity|..];
    vm_compute; split; congruence.
Qed.

Lemma next_encoded c s : command_ok c → next (encode_command c ++ s) = TCommand c s.
Proof.
  intros Hc. assert (Hn : ∀ ty h f n r, 0 <= ty < 2 ^ 16 → is_u64 h → is_u64 f → is_u32 n →
    (len (put_request ty h f n ++ r) <? 28) = false ∧
    decode_request (slice 0 28 (put_request ty h f n ++ r)) = mkRequest NBDRequestMagic 0 ty h f n ∧
    drop 28 (put_request ty h f n ++ r) = r).
  { intros ty h f n r Ht Hh Hf Hn. pose proof (len_put_request ty h f n) as Hl. pose proof (len_nonneg r). split_and!.
    - apply Z.ltb_ge. rewrite len_app. lia.
    - assert (Hsl : slice 0 28 (put_request ty h f n ++ r) = put_request ty h f n) by (apply (slice_mid []); [done|lia]).
      rewrite Hsl. by apply decode_put_request.
    - replace 28%nat with (length (put_request ty h f n)) by (unfold len in Hl; lia). apply drop_app_length. }
  destruct c as [h f n|h f data|h f n]; cbn [encode_command]; unfold next; cbn in Hc.
  - destruct Hc as (Hh & Hf & Hl). destruct (Hn NBDCmdRead h f n s) as (-> & -> & ->); try done.
  - destruct Hc as (Hh & Hf & Hl). rewrite <- app_assoc. pose proof (len_nonneg data). pose proof (len_nonneg s).
    assert (Hu : is_u32 (len data)) by (unfold dispatchMaxWriteBufferSize in Hl; unfold is_u32; lia).
    destruct (Hn NBDCmdWrite h f (len data) (data ++ s)) as (-> & -> & ->); try done. cbn [Magic Ty Length Handle_ From].
    cbn [NBDCmdWrite NBDCmdDisconnect NBDCmdFlush NBDCmdRead Z.eqb Pos.eqb negb].
    change (negb (NBDRequestMagic =? NBDRequestMagic)) with false. cbn.
    destruct (Z.ltb_spec dispatchMaxWriteBufferSize (len data)); [lia|].
    destruct (Z.ltb_spec (len (data ++ s)) (len data)) as [Hx|_]; [rewrite len_app in Hx; lia|].
    by rewrite len_to_nat, take_app_length, drop_app_length.
  - destruct Hc as (Hh & Hf & Hl). destruct (Hn NBDCmdWriteZeroes h f n s) as (-> & -> & ->); try done.
Qed.

Lemma parse_encoded cs s : Forall command_ok cs →
  parse (concat (encode_command <$> cs) ++ s) = (cs ++ (parse s).1, (parse s).2).
Proof.
  induction 1 as [|c cs Hc _ IH]; [apply surjective_pairing|]. cbn [fmap list_fmap concat]. rewrite <- app_assoc, parse_next, next_encoded by done.
  by rewrite IH.
Qed.

(** C30. [Handle] reads the requests that were sent.  However the socket cuts
    the stream into pieces, the commands it hands over and the way the loop
    ends are those of the stream read at once, and commands sent in their wire
    form come out as they were, in order and before anything else.  Two things
    can cut this short, after some first commands of the stream: a fatal error
    of a goroutine or the context, and an error with which [cmdRead],
    [cmdWrite] or [cmdWriteZeroes] meets a command. *)
Theorem Handle_reads_commands wanted stop refused cs s :
  let '(cs', e) := parse s in
  Forall command_ok cs →
  cut_short stop refused (Handle wanted stop refused (concat (encode_command <$> cs) ++ s)) (cs ++ cs', e).
Proof.
  destruct (parse s) as [cs' e] eqn:Hp. intros Hcs. pose proof (parse_encoded cs s Hcs) as Hpe. rewrite Hp in Hpe. cbn in Hpe.
  rewrite <- Hpe. by apply (handle_loop_spec _ wanted stop refused 0 0 (PMore [])); [lia|].
Qed.

(** A write cut in its header and in its data, then a read, then a disconnect. *)
Lemma Handle_reads_commands_witness :
  Forall command_ok [CmdWrite 7 4096 [1; 2; 3]; CmdRead 8 0 4096] ∧
  Handle (λ _, 5) (λ _, false) (λ _, false)
    (concat (encode_command <$> [CmdWrite 7 4096 [1; 2; 3]; CmdRead 8 0 4096]) ++ put_request NBDCmdDisconnect 9 0 0) =
  ([CmdWrite 7 4096 [1; 2; 3]; CmdRead 8 0 4096], Disconnected).
Proof.
  assert (Hok : Forall command_ok [CmdWrite 7 4096 [1; 2; 3]; CmdRead 8 0 4096])
    by (repeat constructor; vm_compute; congruence).
  split; [exact Hok|].
  destruct (Handle_reads_commands (λ _, 5) (λ _, false) (λ _, false) [CmdWrite 7 4096 [1; 2; 3]; CmdRead 8 0 4096]
    (put_request NBDCmdDisconnect 9 0 0) Hok) as [E|[[[_ [k Hk]]|[_ [k Hk]]] _]]; [exact E|discriminate|discriminate].
Defined.

(** The server shuts down while the data of the write arrives: the write is
    the last command taken, and is met with [ErrShuttingDown]. *)
Lemma Handle_refused :
  Handle (λ _, 5) (λ _, false) (λ _, true) (concat (encode_command <$> [CmdWrite 7 4096 [1; 2; 3]; CmdRead 8 0 4096])) =
  ([CmdWrite 7 4096 [1; 2; 3]], Refused).
Proof. vm_compute. reflexivity. Qed.

(** ** Serving the commands *)

Section serve.
Context {E : Type} `{Bitmap B}.

(** The goroutine that calls the provider: the loop of [ReadAt] over the blocks
    left, a write or a zeroing about to start, or its result. *)
Inductive work :=
| WRead (off : Z) (blocks : list Z) (p : bytes)
| WWrite (off : Z) (p : bytes)
| WZero (off n : Z)
| WDone (r : option bytes).

(** The goroutine that answers. *)
Inductive reply :=
| Waiting
| Replying (err : Z) (chunk : bytes)
| HeaderWritten (err : Z) (chunk : bytes)   (** has [writeLock] *)
| Written (err : Z) (chunk : bytes)         (** before [pendingResponses.Done] *)
| Finished (err : Z) (chunk : bytes)
| Failed | GaveUp.                          (** the socket refused; before and after [Done] *)

Record task := mkTask { t_cmd : command; t_counted : bool; t_work : work; t_reply : reply }.

Record server := mkServer {
  sv_dev : Overlay E B;
  sv_tasks : list task;
  sv_wire : bytes;
  sv_lock : option nat;
  sv_broken : bool;
  sv_shuttingDown : bool;
  sv_pending : Z;
  sv_log : list (nat * dev_op * dev_out)   (** ghost: what the provider did, and for whom *)
}.

Definition handle_of (c : command) : Z := match c with CmdRead h _ _ | CmdWrite h _ _ | CmdZero h _ _ => h end.

Definition is_read (c : command) : bool := match c with CmdRead _ _ _ => true | _ => false end.

(** [cmdRead], [cmdWrite], [cmdWriteZeroes] up to their goroutines. *)
Definition start_work (bs : Z) (c : command) : work :=
  match c with
  | CmdRead _ f n => WRead (i64 f) (BlocksOffsets n bs) (replicate (Z.to_nat n) 0)
  | CmdWrite _ f data => WWrite (i64 f) data
  | CmdZero _ f n => WZero (i64 f) n
  end.

Definition counted (asyncWriteZeroes : bool) (c : command) : bool :=
  match c with CmdZero _ _ _ => asyncWriteZeroes | _ => true end.

(** One step of the provider: the device, the work left, and the operation for
    the log. *)
Definition work_step (o : Overlay E B) (w : work) : option (Overlay E B * work * list (dev_op * dev_out)) :=
  match w with
  | WRead off [] p => Some (o, WDone (Some p), [])
  | WRead off (b :: bs) p =>
      match read_blocks o off [b] p with
      | (p', Ok _) => Some (o, WRead off bs p',
          [(OpRead (i64 (off + b)) (replicate (Z.to_nat (o_blockSize o)) 0), OutRead (slice b (b + o_blockSize o) p'))])
      | (_, Err _) => Some (o, WDone None, [])
      end
  | WWrite off p =>
      match oWriteAt o p off with
      | Ok (o', n) => Some (o', WDone (Some []), [(OpWrite off p, OutCount n)])
      | Err _ => Some (o, WDone None, [])
      end
  | WZero off n =>
      match oWriteZeroesAt o off n with
      | Ok (o', k) => Some (o', WDone (Some []), [(OpZero off n, OutCount k)])
      | Err _ => Some (o, WDone None, [])
      end
  | WDone _ => None
  end.

(** [writeResponse]: the two writes under the lock. *)
Definition response_header (err handle : Z) : bytes := be_enc 4 NBDResponseMagic ++ be_enc 4 err ++ be_enc 8 handle.

Definition with_task (s : server) (i : nat) (t : task) : server :=
  mkServer (sv_dev s) (<[i := t]> (sv_tasks s)) (sv_wire s) (sv_lock s) (sv_broken s) (sv_shuttingDown s)
    (sv_pending s) (sv_log s).
Definition with_wire (s : server) (w : bytes) (l : option nat) (broken : bool) : server :=
  mkServer (sv_dev s) (sv_tasks s) w l broken (sv_shuttingDown s) (sv_pending s) (sv_log s).
Definition with_reply (t : task) (r : reply) : task := mkTask (t_cmd t) (t_counted t) (t_work t) r.

Definition finish (t : task) : option task :=
  match t_reply t with
  | Written e c => Some (with_reply t (Finished e c))
  | Failed => Some (with_reply t GaveUp)
  | _ => None
  end.

Definition delta (t : task) : Z := if t_counted t then 1 else 0.

(** [Drain] shuts the door; it returns when [sv_pending] is zero. *)
Definition Drain (s : server) : server :=
  mkServer (sv_dev s) (sv_tasks s) (sv_wire s) (sv_lock s) (sv_broken s) true (sv_pending s) (sv_log s).

Inductive serve (async : bool) : server → server → Prop :=
| sv_accept s c :
    (counted async c = true → sv_shuttingDown s = false) →
    let t := mkTask c (counted async c) (start_work (o_blockSize (sv_dev s)) c) Waiting in
    serve async s (mkServer (sv_dev s) (sv_tasks s ++ [t]) (sv_wire s) (sv_lock s) (sv_broken s) (sv_shuttingDown s)
                        (sv_pending s + delta t) (sv_log s))
| sv_work s i t o w ops :
    sv_tasks s !! i = Some t → work_step (sv_dev s) (t_work t) = Some (o, w, ops) →
    serve async s (mkServer o (<[i := mkTask (t_cmd t) (t_counted t) w (t_reply t)]> (sv_tasks s)) (sv_wire s) (sv_lock s)
                        (sv_broken s) (sv_shuttingDown s) (sv_pending s) (sv_log s ++ ((λ x, (i, x.1, x.2)) <$> ops)))
| sv_collect s i t r :
    sv_tasks s !! i = Some t → t_reply t = Waiting → t_work t = WDone r →
    serve async s (with_task s i (with_reply t
      match r with None => Replying 1 [] | Some p => Replying 0 (if is_read (t_cmd t) then p else []) end))
| sv_cancel s i t :
    sv_tasks s !! i = Some t → t_reply t = Waiting → serve async s (with_task s i (with_reply t (Replying 1 [])))
| sv_header s i t e c :
    sv_tasks s !! i = Some t → t_reply t = Replying e c → sv_lock s = None →
    serve async s (with_wire (with_task s i (with_reply t (HeaderWritten e c)))
      (sv_wire s ++ response_header e (handle_of (t_cmd t))) (Some i) (sv_broken s))
| sv_chunk s i t e c :
    sv_tasks s !! i = Some t → t_reply t = HeaderWritten e c →
    serve async s (with_wire (with_task s i (with_reply t (Written e c))) (sv_wire s ++ c) None (sv_broken s))
| sv_refused s i t e c part :
    sv_tasks s !! i = Some t → (t_reply t = Replying e c ∧ sv_lock s = None) ∨ t_reply t = HeaderWritten e c →
    serve async s (with_wire (with_task s i (with_reply t Failed)) (sv_wire s ++ part) None true)
| sv_done s i t t' :
    sv_tasks s !! i = Some t → finish t = Some t' →
    serve async s (mkServer (sv_dev s) (<[i := t']> (sv_tasks s)) (sv_wire s) (sv_lock s) (sv_broken s) (sv_shuttingDown s)
                        (sv_pending s - delta t) (sv_log s))
| sv_drain s : serve async s (Drain s).

Definition NewDispatch (o : Overlay E B) : server := mkServer o [] [] None false false 0 [].

(** ** What is on the socket *)

Definition answered (t : task) (e : Z) (c : bytes) : Prop := t_reply t = Written e c ∨ t_reply t = Finished e c.

Definition settled (t : task) : bool := match t_reply t with Finished _ _ | GaveUp => true | _ => false end.
Definition outstanding (t : task) : Z := if settled t then 0 else delta t.

(** A response in full: the task, its handle, the error and the data. *)
Definition response (f : nat * Z * Z * bytes) : bytes := let '(_, h, e, c) := f in response_header e h ++ c.

(** The header of the task that holds the lock. *)
Definition half (s : server) : bytes :=
  match i ← sv_lock s; sv_tasks s !! i with
  | Some t => match t_reply t with HeaderWritten e _ => response_header e (handle_of (t_cmd t)) | _ => [] end
  | None => []
  end.

Record wire_inv (s : server) : Prop := {
  wi_lock i : sv_lock s = Some i ↔ ∃ t e c, sv_tasks s !! i = Some t ∧ t_reply t = HeaderWritten e c;
  wi_broken i t : sv_tasks s !! i = Some t → t_reply t = Failed ∨ t_reply t = GaveUp → sv_broken s = true;
  wi_pending : sv_pending s = sumZ outstanding (sv_tasks s);
  wi_frames : sv_broken s = false → ∃ fr, sv_wire s = concat (response <$> fr) ++ half s ∧
    NoDup ((λ f, f.1.1.1) <$> fr) ∧
    ∀ i h e c, (i, h, e, c) ∈ fr ↔ ∃ t, sv_tasks s !! i = Some t ∧ h = handle_of (t_cmd t) ∧ answered t e c
}.

(** A task changes in a way the socket does not see. *)
Definition same_reply (r r' : reply) : Prop :=
  match r, r' with
  | (Waiting | Replying _ _), (Waiting | Replying _ _) => True
  | _, _ => r = r'
  end.

Lemma wire_inv_task s s' i t t' :
  wire_inv s → sv_tasks s !! i = Some t → sv_tasks s' = <[i := t']> (sv_tasks s) →
  t_cmd t' = t_cmd t → t_counted t' = t_counted t → same_reply (t_reply t) (t_reply t') →
  sv_wire s' = sv_wire s → sv_lock s' = sv_lock s → sv_broken s' = sv_broken s → sv_pending s' = sv_pending s →
  wire_inv s'.
Proof.
  intros [Hl Hb Hp Hf] Ht Hts Hc Hct Hsame Hw Hlk Hbr Hpe. pose proof (lookup_lt_Some _ _ _ Ht) as Hlt.
  assert (Hat : ∀ j x, sv_tasks s' !! j = Some x → (j = i ∧ x = t') ∨ (j ≠ i ∧ sv_tasks s !! j = Some x)).
  { intros j x. rewrite Hts. destruct (decide (j = i)) as [->|]; [rewrite list_lookup_insert_eq by done; intros [= <-]; by left|].
    rewrite list_lookup_insert_ne by done. by right. }
  assert (Hne : ∀ j, j ≠ i → sv_tasks s' !! j = sv_tasks s !! j) by (intros j Hj; rewrite Hts; by apply list_lookup_insert_ne).
  assert (Hi : sv_tasks s' !! i = Some t') by (rewrite Hts; by apply list_lookup_insert_eq).
  split.
  - intros j. rewrite Hlk, Hl. destruct (decide (j = i)) as [->|Hj]; [|by rewrite Hne].
    rewrite Hi, Ht. split; intros (x & e & c & [= <-] & Hr); [exists t', e, c|exists t, e, c]; (split; [done|]);
      rewrite Hr in Hsame; cbn in Hsame; [done|]. by destruct (t_reply t).
  - intros j x Hx Hr. rewrite Hbr. apply Hat in Hx as [[-> ->]|[_ Hx]]; [|by eapply Hb].
    apply (Hb i t Ht). destruct (t_reply t); cbn in Hsame; destruct Hr as [Hr|Hr]; rewrite Hr in Hsame; naive_solver.
  - rewrite Hpe, Hp, Hts, (sumZ_insert _ _ _ _ _ Ht). unfold outstanding, settled, delta. rewrite Hct.
    destruct (t_reply t), (t_reply t'); cbn in Hsame; simplify_eq; lia.
  - intros Hnb. rewrite Hbr in Hnb. destruct (Hf Hnb) as (fr & Hfr & Hnd & Hel). exists fr. split_and!; [|done|].
    + rewrite Hw, Hfr. f_equal. unfold half. rewrite Hlk. destruct (sv_lock s) as [j|]; [|done]. cbn.
      destruct (decide (j = i)) as [->|Hj]; [|by rewrite Hne]. rewrite Hi, Ht, Hc.
      destruct (t_reply t), (t_reply t'); cbn in Hsame; simplify_eq; done.
    + intros j h e c. rewrite Hel. destruct (decide (j = i)) as [->|Hj]; [|by rewrite Hne].
      rewrite Hi, Ht. unfold answered. split; intros (x & [= <-] & -> & Hr).
      * exists t'. rewrite Hc. split_and!; [done|done|]. destruct Hr as [Hr|Hr]; rewrite Hr in Hsame; cbn in Hsame; rewrite <- Hsame; tauto.
      * exists t. rewrite Hc. split_and!; [done|done|].
        destruct (t_reply t); cbn in Hsame; destruct Hr as [Hr|Hr]; rewrite Hr in Hsame; naive_solver.
Qed.

Lemma wire_inv_accept s c counted_ w :
  wire_inv s →
  let t := mkTask c counted_ w Waiting in
  wire_inv (mkServer (sv_dev s) (sv_tasks s ++ [t]) (sv_wire s) (sv_lock s) (sv_broken s) (sv_shuttingDown s)
              (sv_pending s + delta t) (sv_log s)).
Proof.
  intros [Hl Hb Hp Hf] t.
  assert (Hat : ∀ j x, (sv_tasks s ++ [t]) !! j = Some x → sv_tasks s !! j = Some x ∨ x = t).
  { intros j x [Hx|[_ Hx]]%lookup_app_Some; [by left|]. apply list_lookup_singleton_Some in Hx as [_ <-]. by right. }
  assert (Hold : ∀ j x, sv_tasks s !! j = Some x → (sv_tasks s ++ [t]) !! j = Some x) by (intros; by apply lookup_app_l_Some).
  split; cbn [sv_tasks sv_wire sv_lock sv_broken sv_pending].
  - intros j. rewrite Hl. split; intros (x & e & ch & Hx & Hr); exists x, e, ch; (split; [|done]); [by apply Hold|].
    apply Hat in Hx as [?| ->]; [done|]. done.
  - intros j x Hx Hr. apply Hat in Hx as [Hx| ->]; [by eapply Hb|]. by destruct Hr.
  - rewrite sumZ_app, Hp. cbn. unfold outstanding. cbn. lia.
  - intros Hnb. destruct (Hf Hnb) as (fr & Hfr & Hnd & Hel). exists fr. split_and!; [|done|].
    + rewrite Hfr. f_equal. unfold half. cbn. destruct (sv_lock s) as [j|] eqn:Hj; [|done]. cbn.
      destruct (proj1 (Hl j) eq_refl) as (x & e & ch & Hx & _). by rewrite Hx, (Hold _ _ Hx).
    + intros j h e ch. rewrite Hel. split; intros (x & Hx & -> & Hr); exists x; (split_and!; [|done|done]); [by apply Hold|].
      apply Hat in Hx as [?| ->]; [done|]. by destruct Hr.
Qed.

(** A task that is seen to change: what the rest needs to know. *)
Record seen_change (s s' : server) (i : nat) (t t' : task) : Prop := {
  sc_task : sv_tasks s !! i = Some t;
  sc_tasks : sv_tasks s' = <[i := t']> (sv_tasks s);
  sc_cmd : t_cmd t' = t_cmd t;
  sc_counted : t_counted t' = t_counted t
}.

Lemma seen_at s s' i t t' j x : seen_change s s' i t t' →
  sv_tasks s' !! j = Some x ↔ (j = i ∧ x = t') ∨ (j ≠ i ∧ sv_tasks s !! j = Some x).
Proof.
  intros [Ht Hts _ _]. pose proof (lookup_lt_Some _ _ _ Ht). rewrite Hts. destruct (decide (j = i)) as [->|Hj].
  - rewrite list_lookup_insert_eq by done. split; [intros [= <-]; by left|]. by intros [[_ ->]|[? _]].
  - rewrite list_lookup_insert_ne by done. split; [by right|]. by intros [[? _]|[_ ?]].
Qed.

Lemma wire_inv_header s s' i t e c :
  wire_inv s → seen_change s s' i t (with_reply t (HeaderWritten e c)) → t_reply t = Replying e c → sv_lock s = None →
  sv_lock s' = Some i → sv_wire s' = sv_wire s ++ response_header e (handle_of (t_cmd t)) →
  sv_broken s' = sv_broken s → sv_pending s' = sv_pending s → wire_inv s'.
Proof.
  intros [Hl Hb Hp Hf] Hsc Hr Hno Hlk Hw Hbr Hpe. pose proof (λ j x, seen_at _ _ _ _ _ j x Hsc) as Hat.
  assert (Hnoh : ∀ j x e' c', sv_tasks s !! j = Some x → t_reply x ≠ HeaderWritten e' c').
  { intros j x e' c' Hx Hrx. assert (sv_lock s = Some j) by (apply Hl; by exists x, e', c'). congruence. }
  split.
  - intros j. rewrite Hlk. split.
    + intros [= <-]. exists (with_reply t (HeaderWritten e c)), e, c. split; [|done]. apply Hat. by left.
    + intros (x & e' & c' & [[-> ->]|[_ Hx]]%Hat & Hrx); [done|]. by destruct (Hnoh _ _ _ _ Hx Hrx).
  - intros j x [[-> ->]|[_ Hx]]%Hat Hrx; [by destruct Hrx|]. rewrite Hbr. by eapply Hb.
  - rewrite Hpe, Hp, (sc_tasks _ _ _ _ _ Hsc), (sumZ_insert _ _ _ _ _ (sc_task _ _ _ _ _ Hsc)).
    unfold outstanding, settled. rewrite Hr. cbn. unfold delta. cbn. lia.
  - intros Hnb. rewrite Hbr in Hnb. destruct (Hf Hnb) as (fr & Hfr & Hnd & Hel). exists fr. split_and!; [|done|].
    + rewrite Hw, Hfr. unfold half. rewrite Hno, Hlk. cbn. rewrite app_nil_r.
      assert (Hx : sv_tasks s' !! i = Some (with_reply t (HeaderWritten e c))) by (apply Hat; by left). by rewrite Hx.
    + intros j h e' c'. rewrite Hel. split; intros (x & Hx & -> & Ha).
      * exists x. split_and!; [|done|done]. apply Hat. right. split; [|done]. intros ->.
        pose proof (sc_task _ _ _ _ _ Hsc) as Ht. rewrite Ht in Hx. injection Hx as <-. destruct Ha; congruence.
      * apply Hat in Hx as [[-> ->]|[_ Hx]]; [by destruct Ha|]. by exists x.
Qed.

Lemma wire_inv_chunk s s' i t e c :
  wire_inv s → seen_change s s' i t (with_reply t (Written e c)) → t_reply t = HeaderWritten e c →
  sv_lock s' = None → sv_wire s' = sv_wire s ++ c →
  sv_broken s' = sv_broken s → sv_pending s' = sv_pending s → wire_inv s'.
Proof.
  intros [Hl Hb Hp Hf] Hsc Hr Hlk Hw Hbr Hpe. pose proof (λ j x, seen_at _ _ _ _ _ j x Hsc) as Hat.
  pose proof (sc_task _ _ _ _ _ Hsc) as Ht.
  assert (Hli : sv_lock s = Some i) by (apply Hl; by exists t, e, c).
  split.
  - intros j. rewrite Hlk. split; [done|]. intros (x & e' & c' & [[-> ->]|[Hj Hx]]%Hat & Hrx); [done|].
    assert (sv_lock s = Some j) by (apply Hl; by exists x, e', c'). congruence.
  - intros j x [[-> ->]|[_ Hx]]%Hat Hrx; [by destruct Hrx|]. rewrite Hbr. by eapply Hb.
  - rewrite Hpe, Hp, (sc_tasks _ _ _ _ _ Hsc), (sumZ_insert _ _ _ _ _ Ht).
    unfold outstanding, settled. rewrite Hr. cbn. unfold delta. cbn. lia.
  - intros Hnb. rewrite Hbr in Hnb. destruct (Hf Hnb) as (fr & Hfr & Hnd & Hel).
    exists (fr ++ [(i, handle_of (t_cmd t), e, c)]). split_and!.
    + rewrite Hw, Hfr. unfold half. rewrite Hli, Hlk. cbn. rewrite Ht, Hr, fmap_app, concat_app. cbn.
      by rewrite !app_nil_r, <- app_assoc.
    + rewrite fmap_app. apply NoDup_app. split_and!; [done| |apply NoDup_singleton].
      cbn. intros j Hj ->%list_elem_of_singleton. apply list_elem_of_fmap in Hj as ([[[j' h'] e'] c'] & -> & Hin).
      apply Hel in Hin as (x & Hx & _ & Ha). cbn in Ht, Hx. rewrite Ht in Hx. injection Hx as <-. destruct Ha; congruence.
    + intros j h e' c'. rewrite elem_of_app, list_elem_of_singleton, Hel. split.
      * intros [(x & Hx & -> & Ha)|[= -> -> -> ->]].
        -- exists x. split_and!; [|done|done]. apply Hat. right. split; [|done]. intros ->. rewrite Ht in Hx.
           injection Hx as <-. destruct Ha; congruence.
        -- exists (with_reply t (Written e c)). split_and!; [apply Hat; by left|done|by left].
      * intros (x & [[-> ->]|[_ Hx]]%Hat & -> & Ha); [right|left; by exists x]. by destruct Ha as [[= <- <-]|Ha].
Qed.

Lemma wire_inv_refused s s' i t :
  wire_inv s → seen_change s s' i t (with_reply t Failed) → sv_lock s' = None → settled t = false →
  (∀ j, sv_lock s = Some j → j = i) → sv_broken s' = true → sv_pending s' = sv_pending s → wire_inv s'.
Proof.
  intros [Hl Hb Hp Hf] Hsc Hlk Hns Hli Hbr Hpe. pose proof (λ j x, seen_at _ _ _ _ _ j x Hsc) as Hat.
  pose proof (sc_task _ _ _ _ _ Hsc) as Ht. split.
  - intros j. rewrite Hlk. split; [done|]. intros (x & e' & c' & [[-> ->]|[Hj Hx]]%Hat & Hrx); [done|].
    destruct Hj. apply Hli, Hl. by exists x, e', c'.
  - done.
  - rewrite Hpe, Hp, (sc_tasks _ _ _ _ _ Hsc), (sumZ_insert _ _ _ _ _ Ht). unfold outstanding. rewrite Hns.
    cbn. unfold delta. cbn. lia.
  - intros Hnb. congruence.
Qed.

Lemma wire_inv_done s s' i t t' :
  wire_inv s → seen_change s s' i t t' → finish t = Some t' → sv_lock s' = sv_lock s → sv_wire s' = sv_wire s →
  sv_broken s' = sv_broken s → sv_pending s' = sv_pending s - delta t → wire_inv s'.
Proof.
  intros [Hl Hb Hp Hf] Hsc Hfin Hlk Hw Hbr Hpe. pose proof (λ j x, seen_at _ _ _ _ _ j x Hsc) as Hat.
  pose proof (sc_task _ _ _ _ _ Hsc) as Ht.
  assert (Hcase : (∃ e c, t_reply t = Written e c ∧ t' = with_reply t (Finished e c)) ∨ (t_reply t = Failed ∧ t' = with_reply t GaveUp)).
  { unfold finish in Hfin. destruct (t_reply t) as [|e c|e c|e c|e c| |]; try discriminate; injection Hfin as <-; [left; by exists e, c|by right]. }
  assert (Hnh : ∀ e c, t_reply t' ≠ HeaderWritten e c) by (intros e c; by destruct Hcase as [(? & ? & _ & ->)|[_ ->]]).
  assert (Hnh0 : ∀ e c, t_reply t ≠ HeaderWritten e c) by (intros e c; destruct Hcase as [(? & ? & -> & _)|[-> _]]; done).
  assert (Hans : ∀ e c, answered t' e c ↔ answered t e c).
  { intros e c. unfold answered. destruct Hcase as [(e' & c' & -> & ->)|[-> ->]]; cbn; naive_solver. }
  split.
  - intros j. rewrite Hlk, Hl. split; intros (x & e & c & Hx & Hr).
    + exists x, e, c. split; [|done]. apply Hat. right. split; [|done]. intros ->. rewrite Ht in Hx. injection Hx as <-. by destruct (Hnh0 e c).
    + apply Hat in Hx as [[-> ->]|[_ Hx]]; [by destruct (Hnh e c)|]. by exists x, e, c.
  - intros j x [[-> ->]|[_ Hx]]%Hat Hr; rewrite Hbr; [|by eapply Hb]. destruct Hcase as [(? & ? & _ & ->)|[Hfl _]]; [by destruct Hr|].
    apply (Hb i t Ht). by left.
  - rewrite Hpe, Hp, (sc_tasks _ _ _ _ _ Hsc), (sumZ_insert _ _ _ _ _ Ht). unfold outstanding, settled.
    destruct Hcase as [(? & ? & -> & ->)|[-> ->]]; cbn; lia.
  - intros Hnb. rewrite Hbr in Hnb. destruct (Hf Hnb) as (fr & Hfr & Hnd & Hel). exists fr. split_and!; [|done|].
    + rewrite Hw, Hfr. f_equal. unfold half. rewrite Hlk. destruct (sv_lock s) as [j|] eqn:Hj; [|done]. cbn.
      destruct (proj1 (Hl j) eq_refl) as (x & e & c & Hx & Hr). assert (j ≠ i) by (intros ->; rewrite Ht in Hx; injection Hx as <-; by destruct (Hnh0 e c)).
      assert (Hx' : sv_tasks s' !! j = Some x) by (apply Hat; by right). by rewrite Hx, Hx'.
    + intros j h e c. rewrite Hel. split; intros (x & Hx & -> & Ha).
      * destruct (decide (j = i)) as [->|Hj].
        -- rewrite Ht in Hx. injection Hx as <-. exists t'. rewrite (sc_cmd _ _ _ _ _ Hsc). split_and!; [apply Hat; by left|done|by apply Hans].
        -- exists x. split_and!; [apply Hat; by right|done|done].
      * apply Hat in Hx as [[-> ->]|[_ Hx]]; [|by exists x]. exists t. rewrite (sc_cmd _ _ _ _ _ Hsc). split_and!; [done|done|by apply Hans].
Qed.

Lemma serve_wire_inv async s s' : wire_inv s → serve async s s' → wire_inv s'.
Proof.
  intros Hi Hs. destruct Hs as [s c Hsh t|s i t o w ops Ht Hw|s i t r Ht Hr Hw|s i t Ht Hr|s i t e c Ht Hr Hl|s i t e c Ht Hr
    |s i t e c part Ht Hr|s i t t' Ht Hf|s].
  - by apply wire_inv_accept.
  - apply (wire_inv_task s _ i t (mkTask (t_cmd t) (t_counted t) w (t_reply t))); try done. cbn. by destruct (t_reply t).
  - eapply (wire_inv_task s _ i t); try done. cbn. rewrite Hr. by destruct r.
  - eapply (wire_inv_task s _ i t); try done. cbn. by rewrite Hr.
  - apply (wire_inv_header s _ i t e c); done.
  - apply (wire_inv_chunk s _ i t e c); done.
  - apply (wire_inv_refused s _ i t); try done.
    + unfold settled. by destruct Hr as [[-> _]| ->].
    + intros j Hj. destruct Hr as [[_ Hn]|Hh]; [congruence|].
      assert (sv_lock s = Some i) by (apply (wi_lock _ Hi); by exists t, e, c). congruence.
  - assert (t_cmd t' = t_cmd t ∧ t_counted t' = t_counted t) as [Hc1 Hc2].
    { unfold finish in Hf. destruct (t_reply t); try discriminate; by injection Hf as <-. }
    apply (wire_inv_done s _ i t t'); done.
  - destruct Hi. by split.
Qed.

Lemma NewDispatch_wire_inv o : wire_inv (NewDispatch o).
Proof.
  split; cbn; try done.
  - intros i. split; [done|]. by intros (t & e & c & Ht & _).
  - intros _. exists []. split_and!; [done|constructor|]. intros i h e c. split; [by intros ?%elem_of_nil|]. by intros (t & Ht & _).
Qed.

Lemma serves_wire_inv async s s' : wire_inv s → rtc (serve async) s s' → wire_inv s'.
Proof. intros Hi Hr. induction Hr as [|s1 s2 s3 Hs _ IH]; [done|]. by apply IH, (serve_wire_inv async s1). Qed.

(** ** Draining *)

Lemma sumZ_zero {A} (f : A → Z) l i x : (∀ y, 0 <= f y) → sumZ f l = 0 → l !! i = Some x → f x = 0.
Proof.
  intros Hf. revert i. induction l as [|y l IH]; intros [|i] Hs; cbn in *; try done;
    pose proof (Hf y); pose proof (sumZ_nonneg f l (λ _ z _, Hf z)).
  - intros [= ->]. lia.
  - apply IH. lia.
Qed.

Lemma outstanding_nonneg t : 0 <= outstanding t.
Proof. unfold outstanding, delta. destruct (settled t), (t_counted t); lia. Qed.

(** Nothing counted is left, and nothing counted can come. *)
Definition drained (s : server) : Prop :=
  sv_shuttingDown s = true ∧ ∀ i t, sv_tasks s !! i = Some t → t_counted t = true → settled t = true.

Lemma settled_stays async s s' : serve async s s' → drained s → drained s'.
Proof.
  intros Hs [Hd Hall]. destruct Hs as [s c Hsh t|s i t o w ops Ht Hw|s i t r Ht Hr Hw|s i t Ht Hr|s i t e c Ht Hr Hl|s i t e c Ht Hr
    |s i t e c part Ht Hr|s i t t' Ht Hf|s]; (split; [done|]); cbn; try done.
  - intros j x [Hx|[_ Hx]]%lookup_app_Some Hc; [by eapply Hall|]. apply list_lookup_singleton_Some in Hx as [_ <-].
    cbn in Hc. rewrite Hsh in Hd by done. discriminate.
  - intros j x [(-> & <- & _)|[_ Hx]]%list_lookup_insert_Some Hc; [|by eapply Hall].
    pose proof (Hall _ _ Ht Hc) as Hset. by unfold settled in *.
  - intros j x [(-> & <- & _)|[_ Hx]]%list_lookup_insert_Some Hc; [|by eapply Hall].
    pose proof (Hall _ _ Ht Hc) as Hset. unfold settled in Hset. by rewrite Hr in Hset.
  - intros j x [(-> & <- & _)|[_ Hx]]%list_lookup_insert_Some Hc; [|by eapply Hall].
    pose proof (Hall _ _ Ht Hc) as Hset. unfold settled in Hset. by rewrite Hr in Hset.
  - intros j x [(-> & <- & _)|[_ Hx]]%list_lookup_insert_Some Hc; [|by eapply Hall].
    pose proof (Hall _ _ Ht Hc) as Hset. unfold settled in Hset. by rewrite Hr in Hset.
  - intros j x [(-> & <- & _)|[_ Hx]]%list_lookup_insert_Some Hc; [|by eapply Hall].
    pose proof (Hall _ _ Ht Hc) as Hset. unfold settled in Hset. by rewrite Hr in Hset.
  - intros j x [(-> & <- & _)|[_ Hx]]%list_lookup_insert_Some Hc; [|by eapply Hall].
    pose proof (Hall _ _ Ht Hc) as Hset. unfold settled in Hset. by destruct Hr as [[Hr _]|Hr]; rewrite Hr in Hset.
  - intros j x [(-> & <- & _)|[_ Hx]]%list_lookup_insert_Some Hc; [|by eapply Hall].
    unfold finish in Hf. destruct (t_reply t); try discriminate; by injection Hf as <-.
Qed.

(** C29. The socket carries whole responses, one for each request.  However the
    goroutines interleave, as long as the socket takes the writes, the bytes
    on it are a sequence of complete responses, each to a different request
    and with its handle, exactly those of the requests that were answered,
    and half of another one only while its writer holds the lock; and once
    [Drain] has seen no pending response, no counted request is left
    unanswered or comes in, then and ever after. *)
Theorem Responses_framed async o s : rtc (serve async) (NewDispatch o) s →
  (sv_broken s = false → ∃ fr, sv_wire s = concat (response <$> fr) ++ half s ∧
     (sv_lock s = None → half s = []) ∧ NoDup ((λ f, f.1.1.1) <$> fr) ∧
     ∀ i h e c, (i, h, e, c) ∈ fr ↔ ∃ t, sv_tasks s !! i = Some t ∧ h = handle_of (t_cmd t) ∧ answered t e c) ∧
  (sv_shuttingDown s = true → sv_pending s = 0 → ∀ s', rtc (serve async) s s' →
     ∀ i t, sv_tasks s' !! i = Some t → t_counted t = true → settled t = true).
Proof.
  intros Hr. pose proof (serves_wire_inv _ _ _ (NewDispatch_wire_inv o) Hr) as Hi. split.
  - intros Hnb. destruct (wi_frames _ Hi Hnb) as (fr & Hw & Hnd & Hel). exists fr. split_and!; try done.
    intros Hl. unfold half. by rewrite Hl.
  - intros Hsh Hp s' Hr'. assert (Hd : drained s).
    { split; [done|]. intros i t Ht Hc. rewrite (wi_pending _ Hi) in Hp.
      pose proof (sumZ_zero _ _ _ _ outstanding_nonneg Hp Ht) as Hz. unfold outstanding, delta in Hz. rewrite Hc in Hz.
      by destruct (settled t). }
    assert (Hd' : drained s') by (clear -Hr' Hd; induction Hr' as [|s1 s2 s3 Hs _ IH]; [done|by apply IH, (settled_stays async s1)]).
    apply Hd'.
Qed.
End serve.

(** ** The device the responses describe *)

Lemma run_ops_app {St} (step : St → dev_op → St * dev_out) s a b :
  run_ops step s (a ++ b) =
    let '(s1, o1) := run_ops step s a in let '(s2, o2) := run_ops step s1 b in (s2, o1 ++ o2).
Proof.
  revert s. induction a as [|op a IH]; intros s; cbn; [by destruct (run_ops step s b)|].
  destruct (step s op) as [s1 out]. rewrite IH. destruct (run_ops step s1 a) as [s2 o2]. by destruct (run_ops step s2 b).
Qed.

(** The part of a log that is about one request. *)
Definition entries (i : nat) (log : list (nat * dev_op * dev_out)) : list (dev_op * dev_out) :=
  (λ e, (e.1.2, e.2)) <$> filter (λ e, e.1.1 = i) log.

Lemma entries_app i a b : entries i (a ++ b) = entries i a ++ entries i b.
Proof. unfold entries. by rewrite filter_app, fmap_app. Qed.

Lemma entries_own i ops : entries i ((λ x, (i, x.1, x.2)) <$> ops) = ops.
Proof.
  unfold entries. induction ops as [|[op out] ops IH]; [done|].
  rewrite fmap_cons, filter_cons_True by done. rewrite fmap_cons, IH. done.
Qed.

Lemma entries_other i j ops : i ≠ j → entries j ((λ x, (i, x.1, x.2)) <$> ops) = [].
Proof.
  intros Hij. unfold entries. induction ops as [|[op out] ops IH]; [done|].
  rewrite fmap_cons, filter_cons_False by done. exact IH.
Qed.

Lemma slice_splice_same p b d n : 0 <= b → len d = n → b + n <= len p → slice b (b + n) (splice p b d) = d.
Proof.
  intros Hb Hd Hp. apply at_ext. intros x. pose proof (len_nonneg d). rewrite at_slice_in; [|lia|lia|rewrite len_splice; lia].
  rewrite at_splice by lia. destruct (Z.leb_spec 0 x), (Z.ltb_spec x (b + n - b)); cbn [andb].
  - destruct (Z.leb_spec b (b + x)), (Z.ltb_spec (b + x) (b + len d)); try lia. cbn. f_equal. lia.
  - unfold at_. destruct (Z.ltb_spec x 0); [lia|]. symmetry. apply lookup_ge_None_2. unfold len in *. lia.
  - unfold at_. by destruct (Z.ltb_spec x 0); [|lia].
  - unfold at_. by destruct (Z.ltb_spec x 0); [|lia].
Qed.

Lemma slice_splice_before p b d a n : 0 <= a → 0 <= n → a + n <= b → b + len d <= len p →
  slice a (a + n) (splice p b d) = slice a (a + n) p.
Proof.
  intros Ha Hn Hab Hp. pose proof (len_nonneg d). apply at_ext. intros x. rewrite !at_slice_in; try lia; [|rewrite len_splice; lia].
  destruct (Z.leb_spec 0 x), (Z.ltb_spec x (a + n - a)); cbn [andb]; try done. rewrite at_splice by lia.
  destruct (Z.leb_spec b (a + x)); [lia|]. done.
Qed.

Section linear.
Context {E : Type} `{Bitmap B} (o : Overlay E B) (D V0 : bytes).
Hypothesis Ho : represents o D V0.
Notation bs := (o_blockSize o).
Notation size := (len V0).
Notation server := (server (E:=E) (B:=B)).

(** The requests of the kernel: whole blocks of the device. *)
Definition aligned (c : command) : Prop :=
  match c with
  | CmdRead _ f n => 0 <= f ∧ f mod bs = 0 ∧ 0 <= n ∧ n mod bs = 0 ∧ f + n <= size
  | CmdWrite _ f p => op_aligned size bs (OpWrite f p)
  | CmdZero _ f n => op_aligned size bs (OpZero f n)
  end.

Definition read_entry (f : Z) (p : bytes) (b : Z) : dev_op * dev_out :=
  (OpRead (f + b) (replicate (Z.to_nat bs) 0), OutRead (slice b (b + bs) p)).

(** [es] is what the provider does for [c], when the data read is [p]: every
    block of a read in order, or the one write. *)
Definition served (c : command) (p : bytes) (es : list (dev_op * dev_out)) : Prop :=
  match c with
  | CmdRead _ f n => len p = n ∧ es = read_entry f p <$> BlocksOffsets n bs
  | CmdWrite _ f d => es = [(OpWrite f d, OutCount (Z.min (len d) (size - f)))]
  | CmdZero _ f n => es = [(OpZero f n, OutCount n)]
  end.

Definition work_inv (c : command) (w : work) (es : list (dev_op * dev_out)) : Prop :=
  match w, c with
  | WRead off bl p, CmdRead _ f n =>
      off = f ∧ len p = n ∧ ∃ k, bl = drop k (BlocksOffsets n bs) ∧ es = read_entry f p <$> take k (BlocksOffsets n bs)
  | WWrite off d, CmdWrite _ f d' => off = f ∧ d = d' ∧ es = []
  | WZero off n, CmdZero _ f n' => off = f ∧ n = n' ∧ es = []
  | WDone (Some p), _ => served c p es
  | _, _ => False
  end.

Definition reply_inv (t : task) : Prop :=
  match t_reply t with
  | Replying e c | HeaderWritten e c | Written e c | Finished e c =>
      e = 1 ∧ c = [] ∨ e = 0 ∧ ∃ p, t_work t = WDone (Some p) ∧ c = if is_read (t_cmd t) then p else []
  | _ => True
  end.

Lemma bs_bounds : 0 < bs < 2 ^ 31 ∧ is_i64 (size + 2 ^ 32).
Proof using Ho. destruct (represents_size o D V0 Ho) as (_ & _ & Hb & _ & Hi). done. Qed.

Lemma blocks_at n k b : 0 <= n → n mod bs = 0 → n <= size → BlocksOffsets n bs !! k = Some b →
  b = Z.of_nat k * bs ∧ Z.of_nat k * bs + bs <= n.
Proof using Ho.
  intros Hn Hm Hs Hk. destruct bs_bounds as [Hb Hi]. pose proof (Z.div_mod n bs ltac:(lia)) as Hd.
  assert (Hq : 0 <= n / bs) by (apply Z.div_pos; lia).
  replace n with (n / bs * bs) in Hk by lia. rewrite BlocksOffsets_whole in Hk; [|lia|lia|unfold_int; lia].
  apply list_lookup_fmap_Some in Hk as (x & -> & Hx). apply lookup_seqZ in Hx as [-> Hlt].
  rewrite BlockOffset_mul by (unfold_int; nia). split; [lia|]. nia.
Qed.

Lemma read_one (o1 : Overlay E B) V f n k p b :
  represents o1 D V → o_blockSize o1 = bs → len V = size → aligned (CmdRead 0 f n) → len p = n →
  BlocksOffsets n bs !! k = Some b →
  read_blocks o1 f [b] p = (splice p b (slice (f + b) (f + b + bs) V), Ok n) ∧ i64 (f + b) = f + b ∧
  len (slice (f + b) (f + b + bs) V) = bs.
Proof using Ho.
  intros HV Hbs HlV (Hf & Hfm & Hn & Hnm & Hfn) Hp Hk. destruct bs_bounds as [Hb Hi].
  destruct (blocks_at n k b Hn Hnm ltac:(lia) Hk) as [-> Hle]. destruct HV as [m Hok HlVm Hat].
  assert (Hy : (f + Z.of_nat k * bs) mod o_blockSize o1 = 0) by (rewrite Hbs; by rewrite Z.mod_add by lia).
  pose proof (read_block o1 m D V (f + Z.of_nat k * bs) Hok HlVm Hat ltac:(nia) Hy ltac:(lia)) as Hrd.
  rewrite Hbs in Hrd. assert (Hi1 : i64 (f + Z.of_nat k * bs) = f + Z.of_nat k * bs) by (apply i64_id; unfold_int; nia).
  split_and!; [|done|rewrite len_slice by nia; lia]. cbn [read_blocks]. rewrite Hbs, i64_id by (unfold_int; nia).
  destruct (Z.ltb_spec (len p) (Z.of_nat k * bs + bs)); [lia|]. rewrite Hi1.
  assert (Hl : len (splice p (Z.of_nat k * bs) (slice (f + Z.of_nat k * bs) (f + Z.of_nat k * bs + bs) V)) = n).
  { rewrite len_splice; [done|nia|rewrite len_slice by nia; lia]. }
  destruct Hrd as [->|[-> ->]]; by rewrite Hl.
Qed.

Lemma work_step_sim (o1 : Overlay E B) V c w es o2 w' ops :
  represents o1 D V → o_blockSize o1 = bs → len V = size → aligned c → work_inv c w es →
  work_step o1 w = Some (o2, w', ops) →
  ∃ V', represents o2 D V' ∧ o_blockSize o2 = bs ∧ len V' = size ∧
    run_ops array_step V (ops.*1) = (V', ops.*2) ∧ work_inv c w' (es ++ ops).
Proof using Ho.
  intros HV Hbs HlV Hal Hw Hstep. destruct bs_bounds as [Hb Hi].
  destruct w as [off [|b bl] p|off d|off n|r]; cbn in Hstep; try done.
  - injection Hstep as <- <- <-. exists V. split_and!; [done..|]. rewrite app_nil_r.
    destruct c as [h f n|h f d|h f n]; cbn in Hw; try done. destruct Hw as (_ & Hp & k & Hd & ->). cbn. split; [done|].
    apply (f_equal length) in Hd. rewrite length_drop in Hd. cbn in Hd. by rewrite take_ge by lia.
  - destruct c as [h f n|h f d|h f n]; cbn in Hw; try done. destruct Hw as (-> & Hp & k & Hd & ->).
    assert (Hk : BlocksOffsets n bs !! k = Some b) by (rewrite <- (Nat.add_0_r k), <- lookup_drop, <- Hd; done).
    destruct (read_one o1 V f n k p b HV Hbs HlV Hal Hp Hk) as (Hr & Hi1 & Hl). cbn [read_blocks] in Hstep, Hr.
    rewrite Hr, Hi1, Hbs in Hstep. injection Hstep as <- <- <-. destruct Hal as (Hf & Hfm & Hn & Hnm & Hfn).
    destruct (blocks_at n k b Hn Hnm ltac:(lia) Hk) as [Hbk Hle].
    assert (Hsl : slice b (b + bs) (splice p b (slice (f + b) (f + b + bs) V)) = slice (f + b) (f + b + bs) V)
      by (apply slice_splice_same; [nia|done|lia]).
    exists V. split_and!; try done.
    + cbn. rewrite Hsl. unfold len. rewrite length_replicate, Z2Nat.id by lia. done.
    + cbn. split_and!; [done|rewrite len_splice; [done|nia|lia]|]. exists (S k). split.
      * rewrite (drop_S _ _ _ Hk) in Hd. by injection Hd.
      * rewrite (take_S_r _ _ _ Hk), fmap_app. cbn. f_equal. apply list_eq. intros j.
        rewrite !list_lookup_fmap. destruct (take k (BlocksOffsets n bs) !! j) as [a|] eqn:Ha; [|done]. cbn.
        apply lookup_take_Some in Ha as [Ha Hj]. destruct (blocks_at n j a Hn Hnm ltac:(lia) Ha) as [-> _].
        unfold read_entry. do 2 f_equal. symmetry. f_equal. apply slice_splice_before; nia.
  - destruct c as [h f n|h f d'|h f n]; cbn in Hw; try done. destruct Hw as (-> & -> & ->). cbn in Hal.
    destruct (overlay_step_sim o1 D V (OpWrite f d') HV) as (Ho1 & Hr & Hb1 & Hl1); [by rewrite HlV, Hbs|].
    cbn [overlay_step array_step] in Ho1, Hr, Hb1, Hl1. destruct (oWriteAt o1 d' f) as [[o' n]|e]; [|done].
    injection Hstep as <- <- <-. injection Ho1 as ->. eexists. split_and!; [exact Hr|by rewrite <- Hbs|by rewrite Hl1|done|].
    cbn. by rewrite HlV.
  - destruct c as [h f n'|h f d'|h f n']; cbn in Hw; try done. destruct Hw as (-> & -> & ->). cbn in Hal.
    destruct (overlay_step_sim o1 D V (OpZero f n') HV) as (Ho1 & Hr & Hb1 & Hl1); [by rewrite HlV, Hbs|].
    cbn [overlay_step array_step] in Ho1, Hr, Hb1, Hl1. destruct (oWriteZeroesAt o1 f n') as [[o' n]|e]; [|done].
    injection Hstep as <- <- <-. injection Ho1 as ->. eexists. split_and!; [exact Hr|by rewrite <- Hbs|by rewrite Hl1|done|done].
Qed.

Definition log_ops (l : list (nat * dev_op * dev_out)) : list dev_op := (λ e, e.1.2) <$> l.
Definition log_outs (l : list (nat * dev_op * dev_out)) : list dev_out := snd <$> l.

Definition requests_aligned (s : server) : Prop := ∀ i t, sv_tasks s !! i = Some t → aligned (t_cmd t).

Record lin_inv (s : server) : Prop := {
  li_array : ∃ V, represents (sv_dev s) D V ∧ len V = size ∧ run_ops array_step V0 (log_ops (sv_log s)) = (V, log_outs (sv_log s));
  li_bs : o_blockSize (sv_dev s) = bs;
  li_new i : (length (sv_tasks s) <= i)%nat → entries i (sv_log s) = [];
  li_task i t : sv_tasks s !! i = Some t → work_inv (t_cmd t) (t_work t) (entries i (sv_log s)) ∧ reply_inv t
}.

(** Only the answer of a task changes. *)
Lemma lin_inv_reply s s' i t t' :
  lin_inv s → sv_tasks s !! i = Some t → sv_tasks s' = <[i := t']> (sv_tasks s) → sv_dev s' = sv_dev s → sv_log s' = sv_log s →
  t_cmd t' = t_cmd t → t_work t' = t_work t → reply_inv t' → lin_inv s'.
Proof using.
  intros [Ha Hb Hn Ht] Hi Hts Hdv Hlg Hc Hw Hr. split; rewrite ?Hdv, ?Hlg, ?Hts; try done.
  - intros j. rewrite length_insert. apply Hn.
  - intros j x [(-> & <- & _)|[_ Hx]]%list_lookup_insert_Some; [|by apply Ht]. rewrite Hc, Hw. split; [|done]. by apply Ht.
Qed.

Lemma serve_lin_inv async s s' : lin_inv s → requests_aligned s' → serve async s s' → lin_inv s'.
Proof using Ho.
  intros Hi Hal Hs. destruct Hs as [s c Hsh t|s i t o1 w ops Ht Hw|s i t r Ht Hr Hw|s i t Ht Hr|s i t e c Ht Hr Hl|s i t e c Ht Hr
    |s i t e c part Ht Hr|s i t t' Ht Hf|s].
  - destruct Hi as [Ha Hb Hn Htk]. split; cbn [sv_tasks sv_log sv_dev]; try done.
    + intros j. rewrite length_app. cbn [length]. intros Hj. apply Hn. lia.
    + intros j x [Hx|[Hge Hx]]%lookup_app_Some; [by apply Htk|]. apply list_lookup_singleton_Some in Hx as [Hz <-].
      assert (Hc : aligned c) by (apply (Hal j t); cbn; rewrite lookup_app_r by done; by rewrite Hz).
      split; [|done]. subst t. cbn [t_cmd t_work]. rewrite Hn, Hb by lia. destruct bs_bounds as [Hb0 Hi0].
      destruct c as [h f n|h f d|h f n]; cbn in Hc |- *.
      * rewrite i64_id by (unfold_int; lia). split_and!; [done|unfold len; rewrite length_replicate; lia|]. by exists O.
      * rewrite i64_id by (unfold_int; lia). by split_and!.
      * rewrite i64_id by (unfold_int; lia). by split_and!.
  - destruct Hi as [(V & HV & HlV & Hrun) Hb Hn Htk]. pose proof (lookup_lt_Some _ _ _ Ht) as Hlt.
    assert (Hc : aligned (t_cmd t)) by (apply (Hal i (mkTask (t_cmd t) (t_counted t) w (t_reply t))); by apply list_lookup_insert_eq).
    destruct (Htk _ _ Ht) as [Hwi Hri]. destruct (work_step_sim _ _ _ _ _ _ _ _ HV Hb HlV Hc Hwi Hw) as (V' & HV' & Hb' & HlV' & Hrun' & Hwi').
    split; cbn [sv_tasks sv_log sv_dev]; [|done| |].
    + exists V'. split_and!; [done|done|]. unfold log_ops, log_outs in *. rewrite !fmap_app, run_ops_app, Hrun, <- !list_fmap_compose.
      assert (Ef : ∀ l : list (dev_op * dev_out), (λ e : nat * dev_op * dev_out, e.1.2) ∘ (λ x, (i, x.1, x.2)) <$> l = l.*1) by done.
      assert (Es : ∀ l : list (dev_op * dev_out), snd ∘ (λ x, (i, x.1, x.2)) <$> l = l.*2) by done.
      by rewrite Ef, Es, Hrun'.
    + intros j. rewrite length_insert, entries_app. intros Hj. rewrite Hn, entries_other by lia. done.
    + intros j x [(-> & <- & _)|[Hne Hx]]%list_lookup_insert_Some; rewrite entries_app.
      * rewrite entries_own. split; [done|]. unfold reply_inv in *. cbn.
        assert (Hnd : ∀ p, t_work t ≠ WDone (Some p)) by (intros p E1; by rewrite E1 in Hw).
        destruct (t_reply t); try done; (destruct Hri as [?|(_ & p & Hp & _)]; [by left|by destruct (Hnd p)]).
      * rewrite entries_other, app_nil_r by done. by apply Htk.
  - eapply (lin_inv_reply s _ i t); try done. destruct (li_task _ Hi _ _ Ht) as [Hwi _]. rewrite Hw in Hwi.
    destruct r as [p|]; [|done]. right. split; [done|]. by exists p.
  - eapply (lin_inv_reply s _ i t); try done. by left.
  - eapply (lin_inv_reply s _ i t); try done. destruct (li_task _ Hi _ _ Ht) as [_ Hri]. unfold reply_inv in *. by rewrite Hr in Hri.
  - eapply (lin_inv_reply s _ i t); try done. destruct (li_task _ Hi _ _ Ht) as [_ Hri]. unfold reply_inv in *. by rewrite Hr in Hri.
  - eapply (lin_inv_reply s _ i t); done.
  - destruct (li_task _ Hi _ _ Ht) as [_ Hri]. unfold finish in Hf. unfold reply_inv in Hri.
    destruct (t_reply t) eqn:Er; try discriminate; injection Hf as <-; by eapply (lin_inv_reply s _ i t).
  - destruct Hi. by split.
Qed.

Lemma NewDispatch_lin_inv : lin_inv (NewDispatch o).
Proof using Ho. split; cbn; try done. by exists V0. Qed.

(** A request stays what it was. *)
Lemma serve_keeps async (s s' : server) i t : serve async s s' → sv_tasks s !! i = Some t →
  ∃ t', sv_tasks s' !! i = Some t' ∧ t_cmd t' = t_cmd t.
Proof using.
  assert (Hset : ∀ (l : list task) j x x', l !! j = Some x → t_cmd x' = t_cmd x → l !! i = Some t →
    ∃ t', <[j := x']> l !! i = Some t' ∧ t_cmd t' = t_cmd t).
  { intros l j x x' Hx Hc Hi. pose proof (lookup_lt_Some _ _ _ Hi). destruct (decide (j = i)) as [->|Hne].
    - exists x'. rewrite list_lookup_insert_eq by done. split; [done|congruence].
    - exists t. by rewrite list_lookup_insert_ne by done. }
  intros Hs Hi. destruct Hs as [s c Hsh u|s j u o1 w ops Hu Hw|s j u r Hu Hr Hw|s j u Hu Hr|s j u e c Hu Hr Hl|s j u e c Hu Hr
    |s j u e c part Hu Hr|s j u u' Hu Hf|s]; cbn [sv_tasks with_wire with_task]; try (by eapply Hset); [| |by exists t].
  - exists t. split; [by apply lookup_app_l_Some|done].
  - eapply Hset; [done| |done]. unfold finish in Hf. destruct (t_reply u); try discriminate; by injection Hf as <-.
Qed.

Lemma serves_lin_inv async s s' : lin_inv s → requests_aligned s' → rtc (serve async) s s' → lin_inv s'.
Proof using Ho.
  intros Hi Hal Hr. assert (Hboth : lin_inv s' ∧ requests_aligned s'); [|apply Hboth]. revert Hi.
  induction Hr as [|s1 s2 s3 Hs Hr IH]; intros Hi; [done|]. apply IH; [done|]. apply (serve_lin_inv async s1); [done| |done].
  intros i t Ht. clear -Hr Hal Ht. revert t Ht. induction Hr as [|s1 s2 s3 Hs _ IH]; intros t Ht; [by eapply Hal|].
  destruct (serve_keeps _ _ _ _ _ Hs Ht) as (t' & Ht' & <-). by apply IH.
Qed.

Lemma serve_log async (s s' : server) : serve async s s' → sv_log s `prefix_of` sv_log s'.
Proof using. intros []; cbn; try done. by apply prefix_app_r. Qed.

Lemma serves_log async (s s' : server) : rtc (serve async) s s' → sv_log s `prefix_of` sv_log s'.
Proof using. induction 1 as [|s1 s2 s3 Hs _ IH]; [done|]. etrans; [by eapply serve_log|done]. Qed.

(** C5. The responses are those of a device that does one thing at a time.
    Whatever the interleaving, what the provider did is one history of an
    array of bytes (reads block by block, writes and zeroings whole), which
    only grows; and a response is either an error without data, or it says
    that the history holds the whole request, after its arrival and before
    its response, with the data its blocks had there. *)
Theorem Responses_linearizable async s s' :
  rtc (serve async) (NewDispatch o) s → requests_aligned s → rtc (serve async) s s' →
  (∃ V, represents (sv_dev s) D V ∧ run_ops array_step V0 (log_ops (sv_log s)) = (V, log_outs (sv_log s))) ∧
  sv_log s `prefix_of` sv_log s' ∧
  (∀ i, (length (sv_tasks s) <= i)%nat → entries i (sv_log s) = []) ∧
  ∀ i t e c, sv_tasks s !! i = Some t → answered t e c →
    e = 1 ∧ c = [] ∨
    e = 0 ∧ ∃ p, served (t_cmd t) p (entries i (sv_log s)) ∧ c = if is_read (t_cmd t) then p else [].
Proof using Ho.
  intros Hr Hal Hr'. pose proof (serves_lin_inv _ _ _ NewDispatch_lin_inv Hal Hr) as [(V & HV & _ & Hrun) _ Hn Ht].
  split_and!; [by exists V|by eapply serves_log|done|]. intros i t e c Hi Ha. destruct (Ht _ _ Hi) as [Hw Hri].
  unfold reply_inv in Hri. destruct Ha as [Ha|Ha]; rewrite Ha in Hri; (destruct Hri as [?|(-> & p & Hp & ->)]; [by left|right]);
    (split; [done|]); exists p; (split; [|done]); rewrite Hp in Hw; by destruct (t_cmd t).
Qed.
End linear.

(** ** Schedules *)

Section play.
Context {E : Type} `{Bitmap B}.
Notation server := (server (E:=E) (B:=B)).

Inductive move := MAccept (c : command) | MWork (i : nat) | MCollect (i : nat) | MHeader (i : nat) | MChunk (i : nat) | MDone (i : nat).

(** What a goroutine does when it is scheduled: nothing, if it waits. *)
Definition play (async : bool) (s : server) (m : move) : server :=
  match m with
  | MAccept c =>
      if counted async c && sv_shuttingDown s then s
      else let t := mkTask c (counted async c) (start_work (o_blockSize (sv_dev s)) c) Waiting in
           mkServer (sv_dev s) (sv_tasks s ++ [t]) (sv_wire s) (sv_lock s) (sv_broken s) (sv_shuttingDown s)
             (sv_pending s + delta t) (sv_log s)
  | MWork i =>
      match sv_tasks s !! i with
      | Some t =>
          match work_step (sv_dev s) (t_work t) with
          | Some (o, w, ops) =>
              mkServer o (<[i := mkTask (t_cmd t) (t_counted t) w (t_reply t)]> (sv_tasks s)) (sv_wire s) (sv_lock s)
                (sv_broken s) (sv_shuttingDown s) (sv_pending s) (sv_log s ++ ((λ x, (i, x.1, x.2)) <$> ops))
          | None => s
          end
      | None => s
      end
  | MCollect i =>
      match sv_tasks s !! i with
      | Some t =>
          match t_reply t, t_work t with
          | Waiting, WDone r => with_task s i (with_reply t
              match r with None => Replying 1 [] | Some p => Replying 0 (if is_read (t_cmd t) then p else []) end)
          | _, _ => s
          end
      | None => s
      end
  | MHeader i =>
      match sv_tasks s !! i, sv_lock s with
      | Some t, None =>
          match t_reply t with
          | Replying e c => with_wire (with_task s i (with_reply t (HeaderWritten e c)))
              (sv_wire s ++ response_header e (handle_of (t_cmd t))) (Some i) (sv_broken s)
          | _ => s
          end
      | _, _ => s
      end
  | MChunk i =>
      match sv_tasks s !! i with
      | Some t =>
          match t_reply t with
          | HeaderWritten e c => with_wire (with_task s i (with_reply t (Written e c))) (sv_wire s ++ c) None (sv_broken s)
          | _ => s
          end
      | None => s
      end
  | MDone i =>
      match sv_tasks s !! i with
      | Some t =>
          match finish t with
          | Some t' => mkServer (sv_dev s) (<[i := t']> (sv_tasks s)) (sv_wire s) (sv_lock s) (sv_broken s)
              (sv_shuttingDown s) (sv_pending s - delta t) (sv_log s)
          | None => s
          end
      | None => s
      end
  end.

Lemma play_serves async s m : rtc (serve async) s (play async s m).
Proof.
  destruct m as [c|i|i|i|i|i]; cbn [play].
  - destruct (counted async c && sv_shuttingDown s) eqn:Ec; [done|]. apply rtc_once, sv_accept. intros Hc. by rewrite Hc in Ec.
  - destruct (sv_tasks s !! i) as [t|] eqn:Et; [|done]. destruct (work_step _ _) as [[[o w] ops]|] eqn:Ew; [|done].
    apply rtc_once. by constructor.
  - destruct (sv_tasks s !! i) as [t|] eqn:Et; [|done]. destruct (t_reply t) eqn:Er; try done.
    destruct (t_work t) as [| | |r] eqn:Ew; try done. apply rtc_once. by apply sv_collect.
  - destruct (sv_tasks s !! i) as [t|] eqn:Et; [|done]. destruct (sv_lock s) eqn:El; [done|].
    destruct (t_reply t) as [|e c| | | | |] eqn:Er; try done. apply rtc_once. by apply sv_header.
  - destruct (sv_tasks s !! i) as [t|] eqn:Et; [|done].
    destruct (t_reply t) as [| |e c| | | |] eqn:Er; try done. apply rtc_once. by apply (sv_chunk _ _ _ _ e c).
  - destruct (sv_tasks s !! i) as [t|] eqn:Et; [|done]. destruct (finish t) eqn:Ef; [|done]. apply rtc_once. by constructor.
Qed.

Lemma plays_serve async s ms : rtc (serve async) s (foldl (play async) s ms).
Proof. revert s. induction ms as [|m ms IH]; intros s; [done|]. etrans; [apply play_serves|apply IH]. Qed.
End play.

(** A write of the second block while a read of three blocks is under way: the
    read sees it, and is answered first. *)
Definition schedule_example : list move :=
  [MAccept (CmdRead 5 0 6); MAccept (CmdWrite 6 2 [1; 2]); MWork 0; MWork 1; MWork 0; MWork 0; MWork 0;
   MCollect 1; MCollect 0; MHeader 0; MHeader 1; MChunk 0; MDone 0].

Definition served_example : server := foldl (play true) (NewDispatch overlay_example) schedule_example.

Lemma Responses_framed_witness :
  rtc (serve true) (NewDispatch overlay_example) served_example ∧
  ∃ fr, sv_wire served_example = concat (response <$> fr) ∧ (0%nat, 5, 0, [7; 7; 1; 2; 7; 7]) ∈ fr.
Proof.
  assert (Hr : rtc (serve true) (NewDispatch overlay_example) served_example) by apply plays_serve.
  split; [exact Hr|]. destruct (Responses_framed true overlay_example served_example Hr) as [Hf _].
  destruct Hf as (fr & Hw & Hl & _ & Hel); [vm_compute; reflexivity|]. exists fr. split.
  - rewrite Hw, Hl, app_nil_r; [reflexivity|vm_compute; reflexivity].
  - apply Hel. destruct (sv_tasks served_example !! 0%nat) as [t|] eqn:Et; [|vm_compute in Et; discriminate].
    exists t. split; [reflexivity|]. vm_compute in Et. injection Et as <-. split; [reflexivity|right; reflexivity].
Defined.

Lemma Responses_linearizable_witness :
  requests_aligned overlay_example (replicate 8 7) served_example ∧
  ∃ p, served overlay_example (replicate 8 7) (CmdRead 5 0 6) p (entries 0 (sv_log served_example)) ∧ p = [7; 7; 1; 2; 7; 7].
Proof.
  assert (Hr : rtc (serve true) (NewDispatch overlay_example) served_example) by apply plays_serve.
  assert (Hal : requests_aligned overlay_example (replicate 8 7) served_example).
  { intros [|[|i]] t Ht; vm_compute in Ht; [injection Ht as <-|injection Ht as <-|discriminate];
      vm_compute; repeat split; congruence. }
  split; [exact Hal|].
  destruct (Responses_linearizable overlay_example (replicate 8 7) (replicate 8 7) overlay_example_represents true
    served_example served_example Hr Hal (rtc_refl _ _)) as (_ & _ & _ & Ha).
  destruct (sv_tasks served_example !! 0%nat) as [t|] eqn:Et; [|vm_compute in Et; discriminate].
  specialize (Ha 0%nat t 0 [7; 7; 1; 2; 7; 7] Et). vm_compute in Et. injection Et as <-.
  destruct Ha as [[? _]|(_ & p & Hs & Hp)]; [right; reflexivity|discriminate|]. exists p. split; [exact Hs|]. symmetry. exact Hp.
Defined.
