(* ===== verification/ReadFile.v ===== *)
(** * ReadFile: reading an image through its header

    Models [File] of [sandbox/build/build.go], what a resumed sandbox reads its
    memory and disk through: [readAt] plans a read as segments of builds,
    [readSegments] executes them, one after another or in parallel, and a build
    evicted in between makes the whole read start over; [Slice] and [IsCached]
    are the two shortcuts.  The store of builds and the builds themselves
    ([DiffStore] and [Diff] of the same package) are the interface [Builds];
    [builds_ok] says what the file relies on for what it returns: a build
    returned for an id serves the bytes stored under it; [evictions_end], what
    it relies on to end: evictions are finitely many. *)

From S2P Require Import Prelude Bytes Bitmap Blocks Mapping Compact FrameTable Header Export.
From S2P Require Import Tracker Cache Overlay Snapshot.

(** ** The interface of the builds *)

(** [W] is the state of the store: which builds are open, which header the
    file holds (creating a build may swap in a better one).  A call may change
    it, evictions by other goroutines included. *)
Class Builds (W D F : Type) := {
  bs_Header : W → Header;
  bs_getBuild : uuid → W → W * result F D;
  bs_Lookup : uuid → W → option D;
  d_ReadAt : D → Z → Z → option FrameTable → W → W * result F bytes;
  d_Slice : D → Z → Z → option FrameTable → W → W * result F bytes;
  d_IsCached : D → option (Z → Z → W → bool);
  is_closed : F → bool
}.

Section file.
Context `{Builds W D F}.

(** ** [planRead] *)

Record readSegment := mkSegment {
  dstOff : Z;
  srcOff : Z;
  seg_length : Z;
  seg_diff : D;
  seg_ft : option FrameTable
}.

Inductive file_err :=
| NoMapping (e : header_err)
| NoBuild (e : F)
| NoRead (e : F)
| UnexpectedEOF
| EndOfMapping
| FileFuel.   (** every attempt so far met an eviction *)

(** [errors.As(err, &closed)]: through the wraps of [getBuild]. *)
Definition closed_err (e : file_err) : bool :=
  match e with NoBuild e | NoRead e => is_closed e | _ => false end.

Definition buildCacheSize : Z := 16.

(** The per-read cache of builds: ids and builds in step. *)
Fixpoint find_build (buildID : uuid) (ids : list uuid) (diffs : list D) : option D :=
  match ids, diffs with
  | id :: ids, d :: diffs => if decide (id = buildID) then Some d else find_build buildID ids diffs
  | _, _ => None
  end.

Definition cachedBuild (buildID : uuid) (ids : list uuid) (diffs : list D) (w : W)
    : W * result file_err (D * list uuid * list D) :=
  match find_build buildID ids diffs with
  | Some d => (w, Ok (d, ids, diffs))
  | None =>
      match bs_getBuild buildID w with
      | (w, Err e) => (w, Err (NoBuild e))
      | (w, Ok d) =>
          if len ids <? buildCacheSize then (w, Ok (d, ids ++ [buildID], diffs ++ [d]))
          else (w, Ok (d, ids, diffs))
      end
  end.

Fixpoint plan_loop (fuel : nat) (off : Z) (p : bytes) (n : Z) (segments : list readSegment)
    (ids : list uuid) (diffs : list D) (w : W)
    : W * bytes * result file_err (list readSegment * Z * Z) :=
  match fuel with
  | O => (w, p, Err FileFuel)
  | S fuel =>
      if n <? len p then
        let h := bs_Header w in
        match GetShiftedMapping h (i64 (off + n)) with
        | Err e => (w, p, Err (NoMapping e))
        | Ok m =>
            let readLength := Z.min (i64 (Length m)) (len p - n) in
            if readLength <=? 0 then (w, p, Ok (segments, n, len ids))
            else if bool_decide (BuildId m = uuid_nil) then
              plan_loop fuel off (splice p n (replicate (Z.to_nat readLength) 0)) (n + readLength)
                segments ids diffs w
            else
              match cachedBuild (BuildId m) ids diffs w with
              | (w, Err e) => (w, p, Err e)
              | (w, Ok (d, ids, diffs)) =>
                  plan_loop fuel off p (n + readLength)
                    (segments ++ [mkSegment n (i64 (Offset m)) readLength d
                                   (GetBuildFrameData h (BuildId m))]) ids diffs w
              end
        end
      else (w, p, Ok (segments, n, len ids))
  end.

(** Every iteration takes at least a byte, so [len p] of them are enough. *)
Definition planRead (p : bytes) (off : Z) (w : W)
    : W * bytes * result file_err (list readSegment * Z * Z) :=
  plan_loop (S (length p)) off p 0 [] [] [] w.

(** ** [readSegments] *)

Definition readSegment_ (p : bytes) (s : readSegment) (w : W) : W * bytes * result file_err unit :=
  match d_ReadAt (seg_diff s) (seg_length s) (srcOff s) (seg_ft s) w with
  | (w, Err e) => (w, p, Err (NoRead e))
  | (w, Ok b) =>
      (w, splice p (dstOff s) b, if len b =? seg_length s then Ok () else Err UnexpectedEOF)
  end.

Fixpoint read_serial (p : bytes) (segments : list readSegment) (w : W)
    : W * bytes * result file_err unit :=
  match segments with
  | [] => (w, p, Ok ())
  | s :: segments =>
      match readSegment_ p s w with
      | (w, p, Err e) => (w, p, Err e)
      | (w, p, Ok _) => read_serial p segments w
      end
  end.

(** [errgroup]: every segment runs, the first error is the one returned. *)
Fixpoint read_group (p : bytes) (segments : list readSegment) (w : W)
    : W * bytes * result file_err unit :=
  match segments with
  | [] => (w, p, Ok ())
  | s :: segments =>
      match readSegment_ p s w with
      | (w, p, Err e) => let '(w, p, _) := read_group p segments w in (w, p, Err e)
      | (w, p, Ok _) => read_group p segments w
      end
  end.

(** [schedule] is the order the goroutines of a group reach their builds in. *)
Context (schedule : list readSegment → list readSegment).

Definition readSegments (maxParallel : Z) (p : bytes) (segments : list readSegment) (w : W)
    : W * bytes * result file_err unit :=
  if (1 <? maxParallel) && (1 <? len segments) then read_group p (schedule segments) w
  else read_serial p segments w.

(** ** [readAt], [Slice], [IsCached] *)

Inductive read_out :=
| Full (n : Z)              (** [n, nil] *)
| Eof (n : Z)               (** [n, io.EOF] *)
| Failed (e : file_err).    (** [0, err] *)

Fixpoint readAt (fuel : nat) (maxParallel : Z) (p : bytes) (off : Z) (w : W) : W * bytes * read_out :=
  match fuel with
  | O => (w, p, Failed FileFuel)
  | S fuel =>
      let '(w, p, res) :=
        match planRead p off w with
        | (w, p, Err e) => (w, p, Err e)
        | (w, p, Ok (segments, n, _)) =>
            let '(w, p, r) := readSegments maxParallel p segments w in
            (w, p, match r with Ok _ => Ok n | Err e => Err e end)
        end in
      match res with
      | Ok n => (w, p, if n <? len p then Eof n else Full n)
      | Err e => if closed_err e then readAt fuel maxParallel p off w else (w, p, Failed e)
      end
  end.

Definition fSlice_slow (fuel : nat) (maxParallel off length : Z) (w : W) : W * result file_err bytes :=
  let '(w, p, r) := readAt fuel maxParallel (replicate (Z.to_nat length) 0) off w in
  (w, match r with Full _ => Ok p | Eof _ => Err EndOfMapping | Failed e => Err e end).

Definition fSlice (fuel : nat) (maxParallel off length : Z) (w : W) : W * result file_err bytes :=
  let h := bs_Header w in
  if 0 <? length then
    match GetShiftedMapping h off with
    | Ok m =>
        if length <=? i64 (Length m) then
          if bool_decide (BuildId m = uuid_nil) then
            if length <=? HugepageSize then (w, Ok (replicate (Z.to_nat length) 0))
            else fSlice_slow fuel maxParallel off length w
          else
            match bs_getBuild (BuildId m) w with
            | (w, Err _) => fSlice_slow fuel maxParallel off length w
            | (w, Ok d) =>
                match d_Slice d (i64 (Offset m)) length (GetBuildFrameData h (BuildId m)) w with
                | (w, Ok b) => (w, Ok b)
                | (w, Err _) => fSlice_slow fuel maxParallel off length w
                end
            end
        else fSlice_slow fuel maxParallel off length w
    | Err _ => fSlice_slow fuel maxParallel off length w
    end
  else fSlice_slow fuel maxParallel off length w.

Fixpoint cached_loop (fuel : nat) (h : Header) (off length n : Z) (w : W) : bool :=
  match fuel with
  | O => false
  | S fuel =>
      if n <? length then
        match GetShiftedMapping h (i64 (off + n)) with
        | Err _ => false
        | Ok m =>
            let segLen := Z.min (i64 (Length m)) (length - n) in
            if segLen <=? 0 then false
            else if bool_decide (BuildId m = uuid_nil) then cached_loop fuel h off length (n + segLen) w
            else
              match bs_Lookup (BuildId m) w with
              | None => false
              | Some d =>
                  match d_IsCached d with
                  | None => false
                  | Some peek =>
                      if peek (i64 (Offset m)) segLen w then cached_loop fuel h off length (n + segLen) w
                      else false
                  end
              end
        end
      else true
  end.

Definition fIsCached (off length : Z) (w : W) : bool :=
  cached_loop (S (Z.to_nat length)) (bs_Header w) off length 0 w.

End file.

(** ** What the file relies on *)

Section laws.
Context `{Builds W D F} (fetch : Store) (image : bytes).
Context (inv : W → Prop) (serves : D → uuid → Prop) (fails : F → Prop).

(** The frame table the file passes along: the one of some header it held. *)
Definition table_for (id : uuid) (ft : option FrameTable) : Prop :=
  ∃ w, inv w ∧ ft = GetBuildFrameData (bs_Header w) id.

(** A failed call: an eviction, or a failure the caller gets to see. *)
Definition failed_call (e : F) : Prop := is_closed e = false → fails e.

(** [b] is the [n] bytes of build [id] at [off]. *)
Definition bytes_of (id : uuid) (off n : Z) (b : bytes) : Prop :=
  len b = n ∧ ∀ i, 0 <= i < n → at_ b i = fetch id (off + i).

Definition reads (call : D → Z → Z → option FrameTable → W → W * result F bytes) : Prop :=
  ∀ d id n off ft w w' r,
    inv w → serves d id → table_for id ft → 0 < n → (∀ i, 0 <= i < n → is_Some (fetch id (off + i))) →
    call d n off ft w = (w', r) →
    inv w' ∧ match r with Ok b => bytes_of id off n b | Err e => failed_call e end.

Record builds_ok : Prop := {
  bo_Header w : inv w → ∃ ms, header_ok (bs_Header w) ms ∧
    Size (h_Metadata (bs_Header w)) = len image ∧
    ∀ x, 0 <= x < len image → image_at fetch ms x = at_ image x;
  bo_getBuild id w w' r : inv w → bs_getBuild id w = (w', r) →
    inv w' ∧ match r with Ok d => serves d id | Err e => failed_call e end;
  bo_ReadAt : reads d_ReadAt;
  bo_Slice : reads (λ d n off ft w, d_Slice d off n ft w)
}.

(** Finitely many evictions: a call that meets one uses up patience, and none
    gives any back. *)
Definition spends {A} (patience : W → nat) (w : W) (x : W * result F A) : Prop :=
  (patience x.1 <= patience w)%nat ∧ ∀ e, x.2 = Err e → is_closed e = true → (patience x.1 < patience w)%nat.

Record evictions_end (patience : W → nat) : Prop := {
  ee_getBuild id w : spends patience w (bs_getBuild id w);
  ee_ReadAt d n off ft w : spends patience w (d_ReadAt d n off ft w);
  ee_Slice d off n ft w : spends patience w (d_Slice d off n ft w)
}.
End laws.

(** ** Reads *)

Section read.
Context `{Builds W D F} (fetch : Store) (image : bytes).
Context (inv : W → Prop) (serves : D → uuid → Prop) (fails : F → Prop).
Hypothesis Hok : builds_ok fetch image inv serves fails.
Context (schedule : list (readSegment (D:=D)) → list (readSegment (D:=D))).
Hypothesis Hsched : ∀ l, schedule l ≡ₚ l.

(** The mapping of an offset, in terms of the image. *)
Lemma mapping_image w off :
  inv w → 0 <= off < len image → paged off →
  ∃ m, GetShiftedMapping (bs_Header w) off = Ok m ∧ 0 < Length m ∧ off + Length m <= len image ∧
    paged (Length m) ∧ is_i64 (Length m) ∧ is_i64 (Offset m) ∧
    ∀ k, 0 <= k < Length m →
      if decide (BuildId m = uuid_nil) then at_ image (off + k) = Some 0
      else fetch (BuildId m) (Offset m + k) = at_ image (off + k).
Proof using Hok.
  intros Hi Ho Hp. destruct (bo_Header _ _ _ _ _ Hok w Hi) as (ms & Hh & Hsz & Him).
  pose proof (ho_size _ _ Hh). rewrite Hsz in *.
  destruct (GetShiftedMapping_paged _ ms Hh off) as (m & Hm & Hl & He & Hpg & Hsrc); [lia|done|].
  rewrite Hsz in He. exists m.
  pose proof (packed_source _ _ _ (ho_packed _ _ Hh) (Hsrc 0 ltac:(lia))) as Hs. cbn in Hs.
  split_and!; [done|lia|lia|done|unfold_int; lia|unfold_int; lia|].
  intros k Hk. rewrite <- Him by lia. unfold image_at, content. rewrite Hsrc by lia.
  unfold erase_nil. cbn. case_decide as Hn.
  - rewrite bool_decide_eq_true_2, decide_True by done. done.
  - rewrite bool_decide_eq_false_2 by done. cbn. by rewrite decide_False.
Qed.

Lemma mapping_outside w off :
  inv w → len image <= off → ∃ e, GetShiftedMapping (bs_Header w) off = Err e.
Proof using Hok.
  intros Hi Ho. destruct (bo_Header _ _ _ _ _ Hok w Hi) as (ms & Hh & Hsz & _).
  apply (GetShiftedMapping_bad _ ms Hh). rewrite Hsz. lia.
Qed.

Lemma len_image w : inv w → len image < 2 ^ 44.
Proof using Hok.
  intros Hi. destruct (bo_Header _ _ _ _ _ Hok w Hi) as (ms & Hh & Hsz & _).
  pose proof (ho_size _ _ Hh). lia.
Qed.

(** ** The plan *)

Section plan.
Context (off : Z) (L : Z).

(** A byte of the buffer that is what it has to be; a segment that makes its
    bytes so. *)
Definition settled (p : bytes) (x : Z) : Prop := at_ p x = at_ image (off + x).

Definition in_segment (x : Z) (s : readSegment (D:=D)) : Prop := dstOff s <= x < dstOff s + seg_length s.

Definition segment_ok (s : readSegment (D:=D)) : Prop :=
  0 <= dstOff s ∧ 0 < seg_length s ∧ dstOff s + seg_length s <= L ∧
  ∃ id, serves (seg_diff s) id ∧ table_for inv id (seg_ft s) ∧
    ∀ i, 0 <= i < seg_length s →
      fetch id (srcOff s + i) = at_ image (off + (dstOff s + i)) ∧ is_Some (fetch id (srcOff s + i)).

Definition planned (p : bytes) (n : Z) (segments : list (readSegment (D:=D))) : Prop :=
  len p = L ∧ Forall segment_ok segments ∧
  ∀ x, 0 <= x < n → settled p x ∨ Exists (in_segment x) segments.

Lemma find_build_serves id ids diffs d :
  Forall2 (λ id d, serves d id) ids diffs → find_build id ids diffs = Some d → serves d id.
Proof using.
  intros HF. induction HF as [|i e ids diffs Hs HF IH]; [done|]. cbn.
  case_decide as E; [|done]. intros [= <-]. by subst.
Qed.

Lemma cachedBuild_ok id ids diffs w w' r :
  inv w → Forall2 (λ id d, serves d id) ids diffs → cachedBuild id ids diffs w = (w', r) →
  inv w' ∧ match r with
           | Ok (d, ids', diffs') => serves d id ∧ Forall2 (λ id d, serves d id) ids' diffs'
           | Err e => ∃ x, e = NoBuild x ∧ failed_call fails x
           end.
Proof using Hok.
  intros Hi HF. unfold cachedBuild. destruct (find_build id ids diffs) as [d|] eqn:Ef.
  { intros [= <- <-]. split_and!; [done|by eapply find_build_serves|done]. }
  destruct (bs_getBuild id w) as [w1 r1] eqn:Eg.
  destruct (bo_getBuild _ _ _ _ _ Hok _ _ _ _ Hi Eg) as [Hi1 Hr].
  destruct r1 as [d|e].
  - destruct (len ids <? buildCacheSize); intros [= <- <-];
      split_and!; try done. by apply Forall2_app; [|repeat constructor].
  - intros [= <- <-]. split; [done|]. eauto.
Qed.

(** A failed attempt: an eviction, an error the caller sees, or the end of the
    image. *)
Definition attempt_failed (e : file_err (F:=F)) : Prop :=
  closed_err e = false → (∃ x, (e = NoBuild x ∨ e = NoRead x) ∧ fails x) ∨ ((∃ x, e = NoMapping x) ∧ len image < off + L).

Lemma failed_attempt x e : e = NoBuild x ∨ e = NoRead x → failed_call fails x → attempt_failed e.
Proof using. unfold failed_call, attempt_failed. intros He Hx Hc. left. exists x. split; [done|]. apply Hx. by destruct He as [-> | ->]. Qed.

Lemma settled_zero p n k :
  0 <= n → 0 <= k → n + k <= len p →
  (∀ i, 0 <= i < k → at_ image (off + n + i) = Some 0) →
  let p' := splice p n (replicate (Z.to_nat k) 0) in
  len p' = len p ∧ (∀ x, 0 <= x < n → settled p x → settled p' x) ∧ (∀ x, n <= x < n + k → settled p' x).
Proof using.
  intros Hn Hk Hl Hz p'. assert (Lr : len (replicate (Z.to_nat k) 0) = k) by (unfold len; rewrite length_replicate; lia).
  assert (A : ∀ x, at_ p' x = if (n <=? x) && (x <? n + k) then at_ (replicate (Z.to_nat k) 0) (x - n) else at_ p x)
    by (intros; unfold p'; rewrite at_splice, Lr by (rewrite ?Lr; lia); done).
  split; [unfold p'; rewrite len_splice by (rewrite ?Lr; lia); done|]. unfold settled. split; intros x Hx.
  - intros Hs. rewrite A. destruct (Z.leb_spec n x); [lia|]. done.
  - rewrite A. destruct (Z.leb_spec n x), (Z.ltb_spec x (n + k)); try lia. cbn [andb].
    rewrite at_replicate. destruct (Z.leb_spec 0 (x - n)), (Z.ltb_spec (x - n) (Z.of_nat (Z.to_nat k))); try lia.
    cbn. rewrite <- (Hz (x - n)) by lia. f_equal. lia.
Qed.

Lemma plan_loop_ok fuel : ∀ p n segments ids diffs w w' p' r,
  inv w → 0 <= off → paged off → 0 <= L → off + L < 2 ^ 63 → 0 <= n → off + n <= len image →
  (n < L → paged n) → n <= L → L - n < Z.of_nat fuel →
  planned p n segments → Forall2 (λ id d, serves d id) ids diffs →
  plan_loop fuel off p n segments ids diffs w = (w', p', r) →
  inv w' ∧ len p' = L ∧
  match r with
  | Ok (segments', n', _) =>
      n' = L ∧ planned p' L segments' ∧ off + L <= len image
  | Err e => attempt_failed e
  end.
Proof using Hok.
  induction fuel as [|fuel IH]; intros p n segments ids diffs w w' p' r Hi Ho Hp HL0 HL Hn Hin Hpn HnL Hfuel Hpl HF; [lia|].
  pose proof Hpl as (Hlen & Hsegs & Hset). cbn [plan_loop]. rewrite Hlen.
  destruct (Z.ltb_spec n L) as [Hlt|Hge].
  2:{ intros [= <- <- <-]. assert (n = L) by lia. subst n. split_and!; try done; lia. }
  pose proof (len_image w Hi) as Hbig. rewrite (i64_id (off + n)) by (unfold_int; lia).
  destruct (Z.le_gt_cases (len image) (off + n)) as [Hout|Hinside].
  { destruct (mapping_outside w (off + n) Hi Hout) as [e He]. rewrite He. intros [= <- <- <-].
    split_and!; try done. intros _. right. split; [by exists e|lia]. }
  destruct (mapping_image w (off + n) Hi ltac:(lia) ltac:(auto with paged))
    as (m & Hm & Hl & Hend & Hpl' & Hi1 & Hi2 & Hsrc).
  rewrite Hm.
  rewrite !(i64_id (Length m)), (i64_id (Offset m)) by done.
  set (k := Z.min (Length m) (L - n)).
  assert (Hk : 0 < k <= Length m ∧ n + k <= L ∧ (n + k < L → k = Length m)) by (unfold k; lia).
  destruct (Z.leb_spec k 0); [lia|].
  assert (Hpn' : n + k < L → paged (n + k)) by (intros E; destruct Hk as (_ & _ & ->); auto with paged).
  clearbody k. destruct (bool_decide_reflect (BuildId m = uuid_nil)) as [Hnil|Hnil].
  - destruct (settled_zero p n k ltac:(lia) ltac:(lia) ltac:(lia)) as (L1 & S1 & S2).
    { intros i Hik. specialize (Hsrc i ltac:(lia)). by rewrite decide_True in Hsrc. }
    apply IH; try done; try lia. split_and!; [lia|done|]. intros x Hx.
    destruct (Z.lt_ge_cases x n) as [Hxn|Hxn]; [|left; apply S2; lia].
    destruct (Hset x ltac:(lia)); [left; apply S1; [lia|done]|by right].
  - destruct (cachedBuild (BuildId m) ids diffs w) as [w1 r1] eqn:Ec.
    destruct (cachedBuild_ok _ _ _ _ _ _ Hi HF Ec) as [Hw1 Hr1].
    destruct r1 as [[[d ids'] diffs']|e].
    2:{ destruct Hr1 as (x & -> & Hx). intros [= <- <- <-]. split_and!; try done; eapply failed_attempt; eauto. }
    destruct Hr1 as (Hs & HF'). intros E.
    assert (R := IH p (n + k) (segments ++ [mkSegment n (Offset m) k d (GetBuildFrameData (bs_Header w) (BuildId m))])
      ids' diffs' w1 w' p' r Hw1 Ho Hp HL0 HL ltac:(lia) ltac:(lia) Hpn' ltac:(lia) ltac:(lia)).
    destruct R as (Hw' & Hl' & Hr); [|done|exact E|].
    { split_and!; [done| |].
      - apply Forall_app. split; [done|]. constructor; [|constructor].
        split_and!; cbn; try lia. exists (BuildId m). split_and!; [done|by exists w|].
        intros i Hik. specialize (Hsrc i ltac:(lia)). rewrite decide_False in Hsrc by done.
        rewrite Hsrc. split; [f_equal; lia|]. apply at_is_Some. lia.
      - intros x Hx. destruct (Z.lt_ge_cases x n).
        + destruct (Hset x ltac:(lia)); [by left|right; apply Exists_app; by left].
        + right. apply Exists_app. right. constructor. unfold in_segment. cbn. lia. }
    by split_and!.
Qed.

(** ** The segments *)

Lemma readSegment_ok p s w w' p' r :
  inv w → len p = L → segment_ok s → readSegment_ p s w = (w', p', r) →
  inv w' ∧ len p' = L ∧ (∀ x, 0 <= x → settled p x → settled p' x) ∧
  match r with
  | Ok _ => ∀ x, in_segment x s → settled p' x
  | Err e => attempt_failed e
  end.
Proof using Hok.
  intros Hi Hl (Hd & Hs & Hend & id & Hserv & Hft & Hsrc). unfold readSegment_.
  destruct (d_ReadAt (seg_diff s) (seg_length s) (srcOff s) (seg_ft s) w) as [w1 r1] eqn:E.
  destruct (bo_ReadAt _ _ _ _ _ Hok _ _ _ _ _ _ _ _ Hi Hserv Hft Hs (λ i Hi, proj2 (Hsrc i Hi)) E) as [Hi1 Hr1].
  destruct r1 as [b|e]; intros [= <- <- <-].
  - destruct Hr1 as [Lb Hb].
    assert (A : ∀ x, at_ (splice p (dstOff s) b) x =
        if (dstOff s <=? x) && (x <? dstOff s + seg_length s) then at_ b (x - dstOff s) else at_ p x)
      by (intros; rewrite at_splice, Lb by (rewrite ?Lb; lia); done).
    assert (S : ∀ x, in_segment x s → settled (splice p (dstOff s) b) x).
    { unfold in_segment, settled. intros x Hx. rewrite A.
      destruct (Z.leb_spec (dstOff s) x), (Z.ltb_spec x (dstOff s + seg_length s)); try lia. cbn [andb].
      rewrite Hb by lia. rewrite (proj1 (Hsrc (x - dstOff s) ltac:(lia))). f_equal. lia. }
    split_and!; [done|rewrite len_splice by (rewrite ?Lb; lia); done| |].
    + intros x Hx Hset. destruct (decide (in_segment x s)) as [|Hno]; [by apply S|].
      unfold settled, in_segment in *. rewrite A.
      destruct (Z.leb_spec (dstOff s) x), (Z.ltb_spec x (dstOff s + seg_length s)); try lia; done.
    + destruct (Z.eqb_spec (len b) (seg_length s)); [|lia]. done.
  - split_and!; try done. eapply failed_attempt; eauto.
Qed.

Definition segments_read (p : bytes) (w' : W) (p' : bytes) (segments : list (readSegment (D:=D)))
    (r : result (file_err (F:=F)) unit) : Prop :=
  inv w' ∧ len p' = L ∧ (∀ x, 0 <= x → settled p x → settled p' x) ∧
  match r with
  | Ok _ => ∀ x, Exists (in_segment x) segments → settled p' x
  | Err e => attempt_failed e
  end.

Lemma in_segment_nonneg x segments :
  Forall segment_ok segments → Exists (in_segment x) segments → 0 <= x.
Proof using.
  intros HF HE. apply Exists_exists in HE as (s & Hin & Hx).
  pose proof (proj1 (Forall_forall _ _) HF s Hin) as (? & _). unfold in_segment in Hx. lia.
Qed.

Lemma read_serial_ok segments : ∀ p w w' p' r,
  inv w → len p = L → Forall segment_ok segments → read_serial p segments w = (w', p', r) →
  segments_read p w' p' segments r.
Proof using Hok.
  induction segments as [|s segs IH]; intros p w w' p' r Hi Hl HF; cbn [read_serial].
  { intros [= <- <- <-]. split_and!; try done. intros x Hx. by apply Exists_nil in Hx. }
  apply Forall_cons in HF as [Hs HF].
  destruct (readSegment_ p s w) as [[w1 p1] r1] eqn:E.
  destruct (readSegment_ok _ _ _ _ _ _ Hi Hl Hs E) as (Hi1 & Hl1 & Hk1 & Hr1).
  destruct r1 as [[]|e]; [|by intros [= <- <- <-]]. intros E2.
  destruct (IH _ _ _ _ _ Hi1 Hl1 HF E2) as (Hi' & Hl' & Hk' & Hr').
  split_and!; [done|done|auto|]. destruct r as [[]|e]; [|done]. intros x Hx. apply Exists_cons in Hx as [Hx|Hx]; [|auto].
  apply Hk'; [|auto]. apply (in_segment_nonneg x [s]); [by constructor|by constructor].
Qed.

Lemma read_group_ok segments : ∀ p w w' p' r,
  inv w → len p = L → Forall segment_ok segments → read_group p segments w = (w', p', r) →
  segments_read p w' p' segments r.
Proof using Hok.
  induction segments as [|s segs IH]; intros p w w' p' r Hi Hl HF; cbn [read_group].
  { intros [= <- <- <-]. split_and!; try done. intros x Hx. by apply Exists_nil in Hx. }
  apply Forall_cons in HF as [Hs HF].
  destruct (readSegment_ p s w) as [[w1 p1] r1] eqn:E.
  destruct (readSegment_ok _ _ _ _ _ _ Hi Hl Hs E) as (Hi1 & Hl1 & Hk1 & Hr1).
  destruct r1 as [[]|e].
  - intros E2. destruct (IH _ _ _ _ _ Hi1 Hl1 HF E2) as (Hi' & Hl' & Hk' & Hr').
    split_and!; [done|done|auto|]. destruct r as [[]|e]; [|done]. intros x Hx. apply Exists_cons in Hx as [Hx|Hx]; [|auto].
    apply Hk'; [|auto]. apply (in_segment_nonneg x [s]); [by constructor|by constructor].
  - destruct (read_group p1 segs w1) as [[w2 p2] r2] eqn:E2. intros [= <- <- <-].
    destruct (IH _ _ _ _ _ Hi1 Hl1 HF E2) as (Hi' & Hl' & Hk' & _). split_and!; [done|done|auto|done].
Qed.

Lemma readSegments_ok maxParallel p segments w w' p' r :
  inv w → len p = L → Forall segment_ok segments →
  readSegments schedule maxParallel p segments w = (w', p', r) →
  segments_read p w' p' segments r.
Proof using Hok Hsched.
  intros Hi Hl HF. unfold readSegments. destruct (_ && _); intros E; [|by eapply read_serial_ok].
  destruct (read_group_ok (schedule segments) p w w' p' r) as (H1 & H2 & H3 & H4); [done..|by rewrite Hsched|done|].
  split_and!; [done|done|done|]. destruct r as [[]|e]; [|done].
  intros x Hx. apply H4. apply Exists_exists in Hx as (s & Hin & Hx). apply Exists_exists.
  exists s. by rewrite Hsched.
Qed.
End plan.

(** A buffer whose bytes are all settled is the slice of the image. *)
Lemma settled_slice off p :
  0 <= off → off + len p <= len image → (∀ x, 0 <= x < len p → settled off p x) →
  p = slice off (off + len p) image.
Proof using.
  intros Ho Hl Hs. pose proof (len_nonneg p). apply at_ext. intros x. rewrite at_slice_in by lia.
  destruct (Z.leb_spec 0 x), (Z.ltb_spec x (off + len p - off)); cbn [andb]; [apply Hs; lia|..];
    destruct (at_ p x) eqn:E; try done; apply at_Some in E; lia.
Qed.

Lemma readAt_ok maxParallel off fuel : ∀ p w w' p' r,
  inv w → 0 <= off <= len image → paged off → off + len p < 2 ^ 63 →
  readAt schedule fuel maxParallel p off w = (w', p', r) →
  inv w' ∧ len p' = len p ∧
  match r with
  | Full n => n = len p ∧ off + len p <= len image ∧ p' = slice off (off + len p) image
  | Eof _ => False
  | Failed e => (∃ x, (e = NoBuild x ∨ e = NoRead x) ∧ fails x) ∨
                ((∃ x, e = NoMapping x) ∧ len image < off + len p) ∨ e = FileFuel
  end.
Proof using Hok Hsched.
  induction fuel as [|fuel IH]; intros p w w' p' r Hi Ho Hp Hl; cbn [readAt]; [intros [= <- <- <-]; by auto|].
  pose proof (len_nonneg p).
  destruct (planRead p off w) as [[w1 p1] r1] eqn:Epl. unfold planRead in Epl.
  destruct (plan_loop_ok off (len p) (S (length p)) p 0 [] [] [] w w1 p1 r1 Hi ltac:(lia) Hp ltac:(lia) Hl
    ltac:(lia) ltac:(lia) ltac:(intros; by exists 0) ltac:(lia) ltac:(unfold len; lia)
    ltac:(split_and!; [done|constructor|intros; lia]) ltac:(constructor) Epl) as (Hi1 & Hl1 & Hr1).
  assert (Again : ∀ e w2 p2, inv w2 → len p2 = len p → attempt_failed off (len p) e →
    (if closed_err e then readAt schedule fuel maxParallel p2 off w2 else (w2, p2, Failed e)) = (w', p', r) →
    inv w' ∧ len p' = len p ∧
    match r with
    | Full n => n = len p ∧ off + len p <= len image ∧ p' = slice off (off + len p) image
    | Eof _ => False
    | Failed e => (∃ x, (e = NoBuild x ∨ e = NoRead x) ∧ fails x) ∨
                  ((∃ x, e = NoMapping x) ∧ len image < off + len p) ∨ e = FileFuel
    end).
  { intros e w2 p2 Hi2 Hl2 He. destruct (closed_err e) eqn:Ec.
    - intros E. rewrite <- Hl2. eapply IH; rewrite ?Hl2; done.
    - intros [= <- <- <-]. split_and!; [done|done|]. destruct (He Ec); auto. }
  destruct r1 as [[[segs n] q]|e]; [|by apply Again].
  destruct Hr1 as (Hn & (_ & Hsegs & Hset) & Hin). subst n.
  destruct (readSegments schedule maxParallel p1 segs w1) as [[w2 p2] r2] eqn:Er.
  destruct (readSegments_ok _ _ _ _ _ _ _ _ _ Hi1 Hl1 Hsegs Er) as (Hi2 & Hl2 & Hk2 & Hr2).
  destruct r2 as [[]|e]; [|by apply Again].
  intros [= <- <- <-]. rewrite Hl2. destruct (Z.ltb_spec (len p) (len p)); [lia|].
  split_and!; [done|done|done|lia|]. rewrite <- Hl2. apply settled_slice; [lia|lia|].
  intros x Hx. rewrite Hl2 in Hx.
  destruct (Hset x Hx) as [|Hex]; [by apply Hk2; [lia|]|by apply Hr2].
Qed.

(** Every attempt that meets an eviction uses up patience, so that some attempt
    meets none. *)
Context (patience : W → nat) (Hend : evictions_end patience).

Definition wears {A} (w : W) (r : result (file_err (F:=F)) A) (w' : W) : Prop :=
  (patience w' <= patience w)%nat ∧ ∀ e, r = Err e → e ≠ FileFuel ∧ (closed_err e = true → (patience w' < patience w)%nat).

Lemma wears_refl {A} w (a : A) : wears w (Ok a) w.
Proof using. by split. Qed.

Lemma wears_trans {A} w w1 w2 (r : result (file_err (F:=F)) A) : (patience w1 <= patience w)%nat → wears w1 r w2 → wears w r w2.
Proof using. intros Hw [H1 H2]. split; [lia|]. intros e He. destruct (H2 e He) as [? Hc]. split; [done|]. intros Hx. specialize (Hc Hx). lia. Qed.

Lemma cachedBuild_wears id ids diffs w : let x := cachedBuild id ids diffs w in wears w x.2 x.1.
Proof using Hend.
  cbv zeta. unfold cachedBuild. destruct (find_build id ids diffs) as [d|]; [apply wears_refl|]. destruct (ee_getBuild _ Hend id w) as [H1 H2].
  destruct (bs_getBuild id w) as [w1 [d|e]]; cbn in *; [destruct (len ids <? buildCacheSize); by split|].
  split; [done|]. intros e' [= <-]. split; [done|]. by apply H2.
Qed.

Lemma plan_loop_wears off fuel : ∀ p n segments ids diffs w, len p - n < Z.of_nat fuel → 0 <= n <= len p →
  let x := plan_loop fuel off p n segments ids diffs w in wears w x.2 x.1.1.
Proof using Hend.
  induction fuel as [|fuel IH]; intros p n segments ids diffs w Hf Hn; cbn [plan_loop]; cbv zeta; [lia|].
  destruct (Z.ltb_spec n (len p)); [|apply wears_refl]. destruct (GetShiftedMapping _ _) as [m|e]; [|split; [done|]; intros e' [= <-]; done].
  set (k := Z.min _ _). assert (Hk : k <= len p - n) by (unfold k; lia). clearbody k. destruct (Z.leb_spec k 0); [apply wears_refl|].
  destruct (bool_decide _).
  - apply IH; rewrite len_splice by (rewrite ?len_fill; unfold len; rewrite ?length_replicate; unfold len in *; lia); lia.
  - pose proof (cachedBuild_wears (BuildId m) ids diffs w) as Hc. destruct (cachedBuild _ _ _ w) as [w1 [[[d ids'] diffs']|e]]; cbn in Hc.
    + eapply wears_trans; [apply Hc|]. apply IH; lia.
    + destruct Hc as [Hc1 Hc2]. split; [done|]. intros e' [= <-]. by apply Hc2.
Qed.

Lemma readSegment_wears p s w : let x := readSegment_ p s w in wears w x.2 x.1.1.
Proof using Hend.
  cbv zeta. unfold readSegment_. destruct (ee_ReadAt _ Hend (seg_diff s) (seg_length s) (srcOff s) (seg_ft s) w) as [H1 H2].
  destruct (d_ReadAt _ _ _ _ w) as [w1 [b|e]]; cbn in *; [|split; [done|]; intros e' [= <-]; split; [done|]; by apply H2].
  destruct (len b =? _); split; try done. by intros e [= <-].
Qed.

Lemma read_serial_wears segments : ∀ p w, let x := read_serial p segments w in wears w x.2 x.1.1.
Proof using Hend.
  induction segments as [|s segments IH]; intros p w; cbn [read_serial]; cbv zeta; [apply wears_refl|]. pose proof (readSegment_wears p s w) as Hs.
  destruct (readSegment_ p s w) as [[w1 p1] [[]|e]]; [|done]. eapply wears_trans; [apply Hs|apply IH].
Qed.

Lemma read_group_wears segments : ∀ p w, let x := read_group p segments w in wears w x.2 x.1.1.
Proof using Hend.
  induction segments as [|s segments IH]; intros p w; cbn [read_group]; cbv zeta; [apply wears_refl|]. pose proof (readSegment_wears p s w) as Hs.
  destruct (readSegment_ p s w) as [[w1 p1] [[]|e]]; [eapply wears_trans; [apply Hs|apply IH]|]. specialize (IH p1 w1). cbn in Hs.
  destruct (read_group p1 segments w1) as [[w2 p2] r2]. cbn in *. destruct IH as [IH _], Hs as [Hs1 Hs2]. split; [lia|]. intros e' [= <-].
  destruct (Hs2 e eq_refl) as [? Hc]. split; [done|]. intros Hx. specialize (Hc Hx). lia.
Qed.

Lemma readAt_ends maxParallel off fuel : ∀ p w w' p' r, (patience w < fuel)%nat →
  readAt schedule fuel maxParallel p off w = (w', p', r) → r ≠ Failed FileFuel ∧ (patience w' <= patience w)%nat.
Proof using Hend.
  induction fuel as [|fuel IH]; intros p w w' p' r Hf; cbn [readAt]; [lia|]. pose proof (len_nonneg p).
  pose proof (plan_loop_wears off (S (length p)) p 0 [] [] [] w ltac:(unfold len; lia) ltac:(lia)) as Hpl. cbv zeta in Hpl. fold (planRead p off w) in Hpl.
  assert (Again : ∀ e w2 p2, wears w (Err (A:=unit) e) w2 →
    (if closed_err e then readAt schedule fuel maxParallel p2 off w2 else (w2, p2, Failed e)) = (w', p', r) → r ≠ Failed FileFuel ∧ (patience w' <= patience w)%nat).
  { intros e w2 p2 [He1 He]. destruct (He e eq_refl) as [Hne Hc]. destruct (closed_err e); [|intros [= <- <- <-]; split; [congruence|done]].
    intros E. specialize (Hc eq_refl). destruct (IH p2 w2 w' p' r ltac:(lia) E). split; [done|lia]. }
  destruct (planRead p off w) as [[w1 p1] [[[segs n] q]|e]]; cbn in Hpl; [|apply Again; split; [apply Hpl|intros e' [= <-]; by apply Hpl]].
  assert (Hr : let x := readSegments schedule maxParallel p1 segs w1 in wears w1 x.2 x.1.1).
  { cbv zeta. unfold readSegments. destruct (_ && _); [apply read_group_wears|apply read_serial_wears]. }
  cbv zeta in Hr. destruct (readSegments schedule maxParallel p1 segs w1) as [[w2 p2] [[]|e]]; cbn in Hr.
  - intros [= <- <- <-]. destruct Hpl as [Hp1 _], Hr as [Hr1 _]. split; [by destruct (_ <? _)|lia].
  - apply Again. eapply wears_trans; [apply Hpl|done].
Qed.
End read.

(** ** [Slice] and [IsCached] *)

Section slice.
Context `{Builds W D F} (fetch : Store) (image : bytes).
Context (inv : W → Prop) (serves : D → uuid → Prop) (fails : F → Prop).
Hypothesis Hok : builds_ok fetch image inv serves fails.
Context (schedule : list (readSegment (D:=D)) → list (readSegment (D:=D))).
Hypothesis Hsched : ∀ l, schedule l ≡ₚ l.

Definition slice_spec (off length : Z) (r : result (file_err (F:=F)) bytes) : Prop :=
  match r with
  | Ok b => off + length <= len image ∧ b = slice off (off + length) image
  | Err e => (∃ x, (e = NoBuild x ∨ e = NoRead x) ∧ fails x) ∨
             ((∃ x, e = NoMapping x) ∧ len image < off + length) ∨ e = FileFuel
  end.

Lemma fSlice_slow_ok fuel maxParallel off length w w' r :
  inv w → 0 <= off <= len image → paged off → 0 <= length → off + length < 2 ^ 63 →
  fSlice_slow schedule fuel maxParallel off length w = (w', r) → inv w' ∧ slice_spec off length r.
Proof using Hok Hsched.
  intros Hi Ho Hp Hl Hb. unfold fSlice_slow.
  assert (L0 : len (replicate (Z.to_nat length) 0) = length) by (unfold len; rewrite length_replicate; lia).
  destruct (readAt _ _ _ _ _ _) as [[w1 p1] r1] eqn:E.
  destruct (readAt_ok _ _ _ _ _ Hok _ Hsched _ _ _ _ _ _ _ _ Hi Ho Hp ltac:(rewrite L0; done) E)
    as (Hi1 & _ & Hr). rewrite L0 in Hr. intros [= <- <-]. split; [done|].
  destruct r1; [|done|done]. by destruct Hr as (_ & ? & ?).
Qed.

(** The bytes of one entry, as a slice of the image. *)
Lemma bytes_of_slice id pos off n b :
  0 <= off → off + n <= len image → 0 <= n → bytes_of fetch id pos n b →
  (∀ k, 0 <= k < n → fetch id (pos + k) = at_ image (off + k)) → b = slice off (off + n) image.
Proof using.
  intros Ho Hn Hn0 [<- Hb] Hf. apply settled_slice; [done|done|].
  intros x Hx. unfold settled. by rewrite Hb, Hf.
Qed.

Lemma fSlice_ok fuel maxParallel off length w w' r :
  inv w → 0 <= off <= len image → paged off → 0 <= length → off + length < 2 ^ 63 →
  fSlice schedule fuel maxParallel off length w = (w', r) → inv w' ∧ slice_spec off length r.
Proof using Hok Hsched.
  intros Hi Ho Hp Hl Hb. unfold fSlice.
  assert (Slow : ∀ w1, inv w1 →
    fSlice_slow schedule fuel maxParallel off length w1 = (w', r) → inv w' ∧ slice_spec off length r).
  { intros w1 Hi1. by apply fSlice_slow_ok. }
  destruct (Z.ltb_spec 0 length) as [Hpos|]; [|by apply Slow].
  destruct (Z.lt_ge_cases off (len image)) as [Hin|Hout].
  2:{ destruct (mapping_outside _ _ _ _ _ Hok w off Hi Hout) as [e ->]. by apply Slow. }
  destruct (mapping_image _ _ _ _ _ Hok w off Hi ltac:(lia) Hp) as (m & -> & Hm0 & Hend & _ & Hi1 & Hi2 & Hsrc).
  rewrite (i64_id (Length m)), (i64_id (Offset m)) by done.
  destruct (Z.leb_spec length (Length m)); [|by apply Slow].
  destruct (bool_decide_reflect (BuildId m = uuid_nil)) as [Hnil|Hnil].
  { destruct (length <=? HugepageSize); [|by apply Slow]. intros [= <- <-]. split; [done|]. split; [lia|].
    assert (Lr : len (replicate (Z.to_nat length) 0) = length) by (unfold len; rewrite length_replicate; lia).
    rewrite <- Lr at 2. apply settled_slice; rewrite ?Lr; [lia|lia|]. intros x Hx. unfold settled.
    specialize (Hsrc x ltac:(lia)). rewrite decide_True in Hsrc by done. rewrite Hsrc, at_replicate.
    destruct (Z.leb_spec 0 x), (Z.ltb_spec x (Z.of_nat (Z.to_nat length))); try lia. done. }
  assert (Hsrc' : ∀ k, 0 <= k < length → fetch (BuildId m) (Offset m + k) = at_ image (off + k)).
  { intros k Hk. specialize (Hsrc k ltac:(lia)). by rewrite decide_False in Hsrc. }
  destruct (bs_getBuild (BuildId m) w) as [w1 r1] eqn:Eg.
  destruct (bo_getBuild _ _ _ _ _ Hok _ _ _ _ Hi Eg) as [Hi1' Hr1].
  destruct r1 as [d|e].
  2:{ by apply Slow. }
  destruct (d_Slice d (Offset m) length _ w1) as [w2 r2] eqn:Es.
  destruct (bo_Slice _ _ _ _ _ Hok _ _ _ _ _ _ _ _ Hi1' Hr1 ltac:(by exists w) Hpos
    ltac:(intros i Hk; rewrite Hsrc' by lia; apply at_is_Some; lia) Es) as [Hi2' Hr2].
  destruct r2 as [b|e].
  - intros [= <- <-]. split; [done|]. split; [lia|].
    eapply bytes_of_slice; [lia|lia|lia|exact Hr2|done].
  - by apply Slow.
Qed.

Context (patience : W → nat) (Hend : evictions_end patience).

Lemma fSlice_slow_ends fuel maxParallel off length w : (patience w < fuel)%nat → (fSlice_slow schedule fuel maxParallel off length w).2 ≠ Err FileFuel.
Proof using Hend.
  intros Hf. unfold fSlice_slow. destruct (readAt _ _ _ _ _ _) as [[w1 p1] r1] eqn:E. destruct (readAt_ends _ patience Hend _ _ _ _ _ _ _ _ Hf E). by destruct r1; cbn; congruence.
Qed.

Lemma fSlice_ends fuel maxParallel off length w : (patience w < fuel)%nat → (fSlice schedule fuel maxParallel off length w).2 ≠ Err FileFuel.
Proof using Hend.
  intros Hf. assert (Slow : ∀ w1, (patience w1 <= patience w)%nat → (fSlice_slow schedule fuel maxParallel off length w1).2 ≠ Err FileFuel)
    by (intros w1 Hw; apply fSlice_slow_ends; lia).
  unfold fSlice. destruct (0 <? length); [|by apply Slow]. destruct (GetShiftedMapping _ off) as [m|]; [|by apply Slow].
  destruct (length <=? _); [|by apply Slow]. destruct (bool_decide _); [destruct (length <=? _); [done|by apply Slow]|].
  destruct (ee_getBuild _ Hend (BuildId m) w) as [H1 _]. destruct (bs_getBuild _ w) as [w1 [d|]]; cbn in H1; [|by apply Slow].
  destruct (ee_Slice _ Hend d (i64 (Offset m)) length (GetBuildFrameData (bs_Header w) (BuildId m)) w1) as [H2 _]. destruct (d_Slice _ _ _ _ w1) as [w2 [b|]]; cbn in H2; [done|]. apply Slow. lia.
Qed.
End slice.

Section cached.
Context `{Builds W D F} (resident : D → Z → W → Prop).
(** A build answers for a range what it answers for its bytes. *)
Hypothesis pointwise : ∀ d peek off n w, d_IsCached d = Some peek → 0 < n →
  peek off n w = true ↔ ∀ i, 0 <= i < n → resident d (off + i) w.

(** A byte of the image that needs no fetch: zero, or in an open build. *)
Definition byte_cached (ms : list BuildMap) (w : W) (x : Z) : Prop :=
  match source ms x with
  | None => False
  | Some (id, pos) => id = uuid_nil ∨
      ∃ d peek, bs_Lookup id w = Some d ∧ d_IsCached d = Some peek ∧ resident d pos w
  end.

Lemma cached_loop_ok h ms off length w : header_ok h ms →
  0 <= off → paged off → off + length < 2 ^ 63 → ∀ fuel n,
  0 <= n → n <= length → (n < length → paged n) → length - n < Z.of_nat fuel →
  cached_loop fuel h off length n w = true ↔ ∀ x, n <= x < length → byte_cached ms w (off + x).
Proof using pointwise.
  intros Hh Ho Hp Hb. pose proof (ho_size _ _ Hh) as Hsz.
  induction fuel as [|fuel IH]; intros n Hn Hnl Hpn Hf; [lia|]. cbn [cached_loop].
  destruct (Z.ltb_spec n length) as [Hlt|]; [|split; [lia|done]].
  rewrite (i64_id (off + n)) by (unfold_int; lia).
  destruct (Z.lt_ge_cases (off + n) (Size (h_Metadata h))) as [Hin|Hout].
  2:{ destruct (GetShiftedMapping_bad h ms Hh (off + n)) as [e ->]; [lia|]. split; [done|].
      intros Hall. specialize (Hall n ltac:(lia)). unfold byte_cached in Hall.
      destruct (source ms (off + n)) eqn:Es; [|done].
      pose proof (proj1 (source_tiles _ _ _ (off + n) (ho_tiles _ _ Hh)) ltac:(by rewrite Es)). lia. }
  destruct (GetShiftedMapping_paged h ms Hh (off + n)) as (m & -> & Hl & He & Hpg & Hsrc); [lia|auto with paged|].
  pose proof (packed_source _ _ _ (ho_packed _ _ Hh) (Hsrc 0 ltac:(lia))) as Hs. cbn in Hs.
  rewrite (i64_id (Length m)), (i64_id (Offset m)) by (unfold_int; lia).
  set (k := Z.min (Length m) (length - n)).
  assert (Hk : 0 < k <= Length m ∧ n + k <= length ∧ (n + k < length → k = Length m)) by (unfold k; lia).
  assert (Hpn' : n + k < length → paged (n + k)) by (intros E; destruct Hk as (_ & _ & ->); auto with paged).
  clearbody k. destruct (Z.leb_spec k 0); [lia|].
  assert (Hsrc' : ∀ x, n <= x < n + k → source ms (off + x) = Some (BuildId m, Offset m + (x - n))).
  { intros x Hx. rewrite <- Hsrc by lia. f_equal. lia. }
  assert (Split : (∀ x, n <= x < length → byte_cached ms w (off + x)) ↔
    (∀ x, n <= x < n + k → byte_cached ms w (off + x)) ∧ ∀ x, n + k <= x < length → byte_cached ms w (off + x)).
  { split; [intros A; split; intros; apply A; lia|]. intros [A B] x Hx.
    destruct (Z.lt_ge_cases x (n + k)); [apply A|apply B]; lia. }
  rewrite Split. clear Split.
  assert (Hrest := IH (n + k) ltac:(lia) ltac:(lia) Hpn' ltac:(lia)).
  destruct (bool_decide_reflect (BuildId m = uuid_nil)) as [Hnil|Hnil].
  { rewrite Hrest. split; [|by intros [_ ?]]. intros A. split; [|done]. intros x Hx.
    unfold byte_cached. rewrite Hsrc' by lia. by left. }
  assert (Seg : (∀ x, n <= x < n + k → byte_cached ms w (off + x)) ↔
    ∃ d peek, bs_Lookup (BuildId m) w = Some d ∧ d_IsCached d = Some peek ∧ peek (Offset m) k w = true).
  { split.
    - intros A. pose proof (A n ltac:(lia)) as A0. unfold byte_cached in A0. rewrite Hsrc' in A0 by lia.
      destruct A0 as [|(d & peek & Hd & Hpk & _)]; [done|]. exists d, peek. split_and!; [done|done|].
      apply (pointwise d peek (Offset m) k w Hpk ltac:(lia)). intros i Hik. specialize (A (n + i) ltac:(lia)).
      unfold byte_cached in A. rewrite Hsrc' in A by lia.
      destruct A as [|(d' & peek' & Hd' & _ & Hres)]; [done|]. replace (n + i - n) with i in Hres by lia.
      rewrite Hd in Hd'. by injection Hd' as <-.
    - intros (d & peek & Hd & Hpk & Ht) x Hx. unfold byte_cached. rewrite Hsrc' by lia. right.
      exists d, peek. split_and!; [done|done|].
      apply (proj1 (pointwise d peek (Offset m) k w Hpk ltac:(lia)) Ht). lia. }
  rewrite Seg, <- Hrest. clear Seg Hrest IH.
  destruct (bs_Lookup (BuildId m) w) as [d|] eqn:Ed; [|split; [done|by intros [(? & ? & ? & _) _]]].
  destruct (d_IsCached d) as [peek|] eqn:Ep; [|split; [done|intros [(? & ? & [= <-] & ? & _) _]; congruence]].
  destruct (peek (Offset m) k w) eqn:Et.
  - split; [|by intros [_ ?]]. intros E. split; [by exists d, peek|done].
  - split; [done|]. intros [(d' & peek' & [= <-] & Hpk & Ht) _]. congruence.
Qed.
End cached.

(** ** Properties *)

(** C4. Reading through a header gives the image: for a store whose builds
    serve their bytes, [readAt] on a page boundary, however many attempts are
    broken by evictions between planning and reading, and in whatever order
    parallel segments run, returns the bytes of the image, all of them, or
    fails with an error of a build that is not an eviction, or because the
    buffer ends beyond the image: never a short read, and never a wrong byte.
    The code retries without a bound: it ends when evictions do, after one
    attempt more than there are. *)
Theorem readAt_reads_image `{Builds W D F} fetch image inv serves fails schedule maxParallel off fuel p w :
  builds_ok fetch image inv serves fails → (∀ l, schedule l ≡ₚ l) →
  inv w → 0 <= off <= len image → paged off → off + len p < 2 ^ 63 →
  let '(w', p', r) := readAt schedule fuel maxParallel p off w in
  inv w' ∧
  match r with
  | Full n => n = len p ∧ off + len p <= len image ∧ p' = slice off (off + len p) image
  | Eof _ => False
  | Failed e => (∃ x, (e = NoBuild x ∨ e = NoRead x) ∧ fails x) ∨
                ((∃ x, e = NoMapping x) ∧ len image < off + len p) ∨ e = FileFuel
  end ∧
  ∀ patience, evictions_end patience → (patience w < fuel)%nat → r ≠ Failed FileFuel.
Proof.
  intros Hok Hs Hi Ho Hp Hl. destruct (readAt schedule fuel maxParallel p off w) as [[w' p'] r] eqn:E.
  destruct (readAt_ok _ _ _ _ _ Hok _ Hs _ _ _ _ _ _ _ _ Hi Ho Hp Hl E) as (? & _ & ?). split_and!; [done|done|].
  intros patience He Hf. by destruct (readAt_ends _ patience He _ _ _ _ _ _ _ _ Hf E).
Qed.

(** [Slice], with its zero-copy path for a range inside one entry and its
    fall back on [readAt], returns the same bytes: those of the image. *)
Theorem Slice_reads_image `{Builds W D F} fetch image inv serves fails schedule maxParallel off length fuel w :
  builds_ok fetch image inv serves fails → (∀ l, schedule l ≡ₚ l) →
  inv w → 0 <= off <= len image → paged off → 0 <= length → off + length < 2 ^ 63 →
  let '(w', r) := fSlice schedule fuel maxParallel off length w in
  inv w' ∧
  match r with
  | Ok b => off + length <= len image ∧ b = slice off (off + length) image
  | Err e => (∃ x, (e = NoBuild x ∨ e = NoRead x) ∧ fails x) ∨
             ((∃ x, e = NoMapping x) ∧ len image < off + length) ∨ e = FileFuel
  end ∧
  ∀ patience, evictions_end patience → (patience w < fuel)%nat → r ≠ Err FileFuel.
Proof.
  intros Hok Hs Hi Ho Hp Hl Hb. destruct (fSlice schedule fuel maxParallel off length w) as [w' r] eqn:E.
  destruct (fSlice_ok _ _ _ _ _ Hok _ Hs _ _ _ _ _ _ _ Hi Ho Hp Hl Hb E). split_and!; [done|done|].
  intros patience He Hf. pose proof (fSlice_ends schedule patience He fuel maxParallel off length w Hf) as Hx. by rewrite E in Hx.
Qed.

(** [IsCached] is exact: it answers true for a range exactly when every
    byte of it lies in the image and is a zero of no build or resident in an
    open one. *)
Theorem IsCached_exact `{Builds W D F} (resident : D → Z → W → Prop) ms off length w :
  (∀ d peek off n w, d_IsCached d = Some peek → 0 < n →
     peek off n w = true ↔ ∀ i, 0 <= i < n → resident d (off + i) w) →
  header_ok (bs_Header w) ms → 0 <= off → paged off → 0 <= length → off + length < 2 ^ 63 →
  fIsCached off length w = true ↔ ∀ x, 0 <= x < length → byte_cached resident ms w (off + x).
Proof.
  intros Hpw Hh Ho Hp Hl Hb.
  apply (cached_loop_ok resident Hpw _ ms off length w Hh Ho Hp Hb (S (Z.to_nat length)) 0); try lia.
  intros. by exists 0.
Qed.

(** A store of the two builds of the example header that evicts the build of
    the next [w] reads. *)
Definition evicting (v : bytes) (w : nat) : nat * result bool bytes :=
  match w with S w => (w, Err true) | O => (O, Ok v) end.

#[local] Instance example_builds : Builds nat uuid bool := {|
  bs_Header _ := header_example;
  bs_getBuild id w := (w, Ok id);
  bs_Lookup id _ := Some id;
  d_ReadAt d n _ _ := evicting (fill n (if decide (d = id_a) then 7 else 8));
  d_Slice d _ n _ := evicting (fill n (if decide (d = id_a) then 7 else 8));
  d_IsCached _ := Some (λ off n _, off + n <=? 4096);
  is_closed e := e
|}.

Lemma evicting_bytes id off n (w w' : nat) r :
  0 < n → evicting (fill n (if decide (id = id_a) then 7 else 8)) w = (w', r) →
  match r with
  | Ok b => bytes_of snap_fetch id off n b
  | Err e => failed_call (H:=example_builds) (λ _, False) e
  end.
Proof.
  intros Hn. unfold evicting. destruct w as [|w]; intros [= <- <-]; [|done].
  split; [rewrite len_fill; lia|]. intros i Hi. rewrite at_fill by lia.
  destruct (Z.leb_spec 0 i), (Z.ltb_spec i n); try lia. unfold snap_fetch. cbn. by case_decide.
Qed.

Lemma example_ends : evictions_end (H:=example_builds) (λ w, w).
Proof. split; intros; [split; [done|by intros]|..]; destruct w; cbn; split; cbn; try lia; intros e' [=]; subst; cbn; intros; try lia; done. Qed.

Lemma example_builds_ok :
  builds_ok (H:=example_builds) snap_fetch snap_image (λ _, True) (λ d id, d = id) (λ _, False).
Proof.
  split.
  - intros w _. exists compact_example. split_and!; [exact header_example_ok|by rewrite len_snap_image|].
    rewrite len_snap_image. intros x Hx. by rewrite snap_image_at.
  - intros id w w' r _ [= <- <-]. done.
  - intros d id n off ft w w' r _ -> _ Hn _ E.
    split; [done|]. exact (evicting_bytes _ _ _ _ _ _ Hn E).
  - intros d id n off ft w w' r _ -> _ Hn _ E.
    split; [done|]. exact (evicting_bytes _ _ _ _ _ _ Hn E).
Qed.

(** Two evictions, then a read across all three entries. *)
Lemma readAt_reads_image_witness :
  ∃ w' p', readAt (H:=example_builds) (@rev _) 3 4 (fill 8192 1) 8192 2%nat = (w', p', Full 8192) ∧
    p' = slice 8192 16384 snap_image.
Proof.
  pose proof (readAt_reads_image (H:=example_builds) snap_fetch snap_image (λ _, True) (λ d id, d = id)
    (λ _, False) (@rev _) 4 8192 3 (fill 8192 1) 2%nat example_builds_ok (λ l, symmetry (Permutation_rev l)) I
    ltac:(rewrite len_snap_image; lia) ltac:(by exists 2) ltac:(rewrite len_fill; lia)) as Hr.
  destruct (readAt (H:=example_builds) (@rev _) 3 4 (fill 8192 1) 8192 2%nat) as [[w' p'] r].
  rewrite len_fill, len_snap_image in Hr by lia. destruct Hr as (_ & Hr & Hend).
  specialize (Hend (λ w, w) example_ends ltac:(cbv beta; lia)).
  exists w', p'. destruct r as [n|n|e]; [|done|destruct Hr as [(x & _ & [])|[[_ Hr]| ->]]; [lia|done]].
  destruct Hr as (-> & _ & ->). done.
Defined.

Lemma Slice_reads_image_witness :
  ∃ w', fSlice (H:=example_builds) (@rev _) 3 1 4096 4096 1%nat = (w', Ok (slice 4096 8192 snap_image)).
Proof.
  pose proof (Slice_reads_image (H:=example_builds) snap_fetch snap_image (λ _, True) (λ d id, d = id)
    (λ _, False) (@rev _) 1 4096 4096 3 1%nat example_builds_ok (λ l, symmetry (Permutation_rev l)) I
    ltac:(rewrite len_snap_image; lia) ltac:(by exists 1) ltac:(lia) ltac:(lia)) as Hr.
  destruct (fSlice (H:=example_builds) (@rev _) 3 1 4096 4096 1%nat) as [w' r].
  rewrite len_snap_image in Hr. destruct Hr as (_ & Hr & Hend). exists w'.
  specialize (Hend (λ w, w) example_ends ltac:(cbv beta; lia)).
  destruct r as [b|e]; [by destruct Hr as [_ ->]|destruct Hr as [(x & _ & [])|[[_ Hr]| ->]]; [lia|done]].
Defined.

(** The first page of a build is resident, the second is not. *)
Lemma IsCached_exact_witness :
  fIsCached (H:=example_builds) 0 4096 0%nat = true ∧ fIsCached (H:=example_builds) 0 8192 0%nat = false ∧
  fIsCached (H:=example_builds) 8192 4096 0%nat = true ∧
  ∀ x, 0 <= x < 4096 → byte_cached (H:=example_builds) (λ _ pos _, pos < 4096) compact_example 0%nat (8192 + x).
Proof.
  split_and!; [by vm_compute..|].
  apply (IsCached_exact (H:=example_builds) (λ _ pos _, pos < 4096) compact_example 8192 4096 0%nat);
    [|exact header_example_ok|lia|by exists 2|lia|lia|by vm_compute].
  intros d peek off n w [= <-] Hn. cbv beta. split; [intros E i Hi; apply Z.leb_le in E; lia|].
  intros Hall. specialize (Hall (n - 1) ltac:(lia)). apply Z.leb_le. lia.
Defined.
