(* ===== verification/Chunker.v ===== *)
(** * Chunker: fetching an object on demand, by many readers at once

    Models [sandbox/block/streaming_chunk.go] and [fetch_session.go].  A
    [Chunker] keeps a partially filled cache of a stored object.  [Slice]
    finds the chunks (frames of a compressed object, 4 MiB pieces otherwise)
    its range touches, joins or starts a fetch session for each and waits for
    the blocks it needs; a session's goroutine streams the chunk into the
    mapping and publishes how far it got.

    Readers and fetchers are goroutines that interleave: the state holds the
    program counter of each, every access under a lock or to an atomic is one
    step, and [step] is the relation of all interleavings.  The bytes arriving
    from storage are those of the object (the upstream and the frame table are
    a consistent pair, says the comment on [ReadAt]); how many arrive at a
    time, failures, panics and cancellations are up to the environment. *)

From stdpp Require Import relations.
From S2P Require Import Prelude Bytes Bitmap Blocks Mapping Compact FrameTable Header Export.
From S2P Require Import Tracker Cache Overlay Snapshot Drain Fill.

Definition MemoryChunkSize : Z := 4 * 1024 * 1024.

(** ** Sessions *)

Inductive fetch_err := AddressFailed | OpenFailed | ReadFailed | FetchPanicked | FetchIncomplete.

Record fetchSession := mkSession {
  chunkOff : Z;
  chunkLen : Z;
  bytesReady : Z;
  fetchErr : option fetch_err;
  done_ : bool
}.

Definition contains (s : fetchSession) (off length : Z) : bool :=
  (chunkOff s <=? off) && (i64 (off + length) <=? i64 (chunkOff s + chunkLen s)).

Definition newFetchSession (off length : Z) : fetchSession := mkSession off length 0 None false.

Definition advance_ (n : Z) (s : fetchSession) : fetchSession :=
  mkSession (chunkOff s) (chunkLen s) n (fetchErr s) (done_ s).
Definition setDone (s : fetchSession) : fetchSession :=
  mkSession (chunkOff s) (chunkLen s) (chunkLen s) (fetchErr s) true.
Definition fail (e : fetch_err) (s : fetchSession) : fetchSession :=
  mkSession (chunkOff s) (chunkLen s) (bytesReady s) (Some e) true.
Definition failIfRunning (e : fetch_err) (s : fetchSession) : fetchSession :=
  if done_ s then s else fail e s.

(** ** The goroutine of a session: [runFetch] *)

Inductive fetcher :=
| FAddress                            (** before [addressBytes] *)
| FOpen                               (** before [OpenRangeReader] *)
| FRead (totalRead : Z)               (** at the head of the read loop *)
| FAdvance (totalRead : Z) (err : bool)  (** bytes copied, not yet published *)
| FMark                               (** all read, before [setIsCached] *)
| FFinish                             (** before [setDone] *)
| FSettle (e : fetch_err)             (** the deferred [failIfRunning] *)
| FRelease                            (** the deferred [releaseSession] *)
| FGone.

(** ** Readers: [Slice] *)

Inductive chunk_err :=
| ChunkCache (e : cache_err)
| LocateFailed (e : frame_err)
| BlockUnaligned
| BlockOutside
| FetchFailed
| Canceled.

Inductive reader :=
| RStart
| RLoop (cur : Z)
| RCheck (cur chunkEnd endByte : Z) (startBlock endBlock : Z) (s : nat)
| RWait (cur chunkEnd : Z) (b endBlock : Z) (s : nat)
| RDirect
| RDone (r : result chunk_err bytes).

Record request := mkRequest { r_off : Z; r_len : Z; r_ft : option FrameTable; r_pc : reader }.

(** ** The chunker and its goroutines *)

(** [ck_sessions] are all sessions ever started, with their goroutines;
    [fetchSessions] are the indices of those not yet released. *)
Record Chunker (B : Type) := mkChunker {
  ck_cache : Cache B;
  ck_sessions : list (fetchSession * fetcher);
  fetchSessions : list nat;
  ck_readers : list request
}.
Arguments mkChunker {B} _ _ _ _.
Arguments ck_cache {B} _.
Arguments ck_sessions {B} _.
Arguments fetchSessions {B} _.
Arguments ck_readers {B} _.

Definition locateChunk (size off : Z) (ft : option FrameTable) : result frame_err (Z * Z) :=
  if IsCompressed ft then
    r ← LocateUncompressed ft off; Ok (r_Offset r, r_Length r)
  else
    let chunkOff := Z.quot off MemoryChunkSize * MemoryChunkSize in
    Ok (chunkOff, Z.min MemoryChunkSize (size - chunkOff)).

Section chunker.
Context `{Bitmap B}.
(** The stored object, and the flag [MinChunkerReadSizeKB]. *)
Context (object : bytes) (minReadKB : Z).

Definition with_cache (c : Chunker B) (k : Cache B) : Chunker B :=
  mkChunker k (ck_sessions c) (fetchSessions c) (ck_readers c).
Definition with_session (c : Chunker B) (i : nat) (s : fetchSession) (f : fetcher) : Chunker B :=
  mkChunker (ck_cache c) (<[i := (s, f)]> (ck_sessions c)) (fetchSessions c) (ck_readers c).
Definition with_active (c : Chunker B) (l : list nat) : Chunker B :=
  mkChunker (ck_cache c) (ck_sessions c) l (ck_readers c).
Definition with_reader (c : Chunker B) (i : nat) (q : request) (pc : reader) : Chunker B :=
  mkChunker (ck_cache c) (ck_sessions c) (fetchSessions c)
    (<[i := mkRequest (r_off q) (r_len q) (r_ft q) pc]> (ck_readers c)).

(** [releaseSession]: the last element takes the place of the released one. *)
Fixpoint swap_delete (i : nat) (l : list nat) : list nat :=
  match l with
  | [] => []
  | j :: l' => if decide (j = i)
               then match list.last l' with Some k => k :: take (length l' - 1) l' | None => [] end
               else j :: swap_delete i l'
  end.

(** [getOrCreateSession], one critical section of [fetchMu]. *)
Fixpoint find_session (c : Chunker B) (off length : Z) (l : list nat) : option nat :=
  match l with
  | [] => None
  | i :: l => match ck_sessions c !! i with
              | Some (s, _) => if contains s off length then Some i else find_session c off length l
              | None => find_session c off length l
              end
  end.

Definition getOrCreateSession (c : Chunker B) (off length : Z) : Chunker B * option nat :=
  match find_session c off length (fetchSessions c) with
  | Some i => (c, Some i)
  | None =>
      if isCached (ck_cache c) off length then (c, None)
      else
        let i := List.length (ck_sessions c) in
        (mkChunker (ck_cache c) (ck_sessions c ++ [(newFetchSession off length, FAddress)])
           (fetchSessions c ++ [i]) (ck_readers c), Some i)
  end.

(** One iteration of the loop of [registerAndWait]: ready, failed, or blocked
    on the condition variable. *)
Inductive waited := Ready | WaitFailed (e : chunk_err) | Blocked.

Definition registerAndWait (c : Chunker B) (s : fetchSession) (blockOff : Z) : waited :=
  let bs := c_blockSize (ck_cache c) in
  if negb (Z.rem blockOff bs =? 0) then WaitFailed BlockUnaligned
  else if (blockOff <? chunkOff s) || (i64 (chunkOff s + chunkLen s) <=? blockOff) then WaitFailed BlockOutside
  else
    let endByte := Z.min (i64 (blockOff + bs - chunkOff s)) (chunkLen s) in
    if endByte <=? bytesReady s then Ready
    else if done_ s then
      if isCached (ck_cache c) blockOff bs then Ready else WaitFailed FetchFailed
    else Blocked.

(** A step of reader [i]; [None] when it is blocked or has returned. *)
Definition reader_step (c : Chunker B) (i : nat) (q : request) : option (Chunker B) :=
  let off := r_off q in
  let end_ := i64 (off + r_len q) in
  let bs := c_blockSize (ck_cache c) in
  let go pc := Some (with_reader c i q pc) in
  match r_pc q with
  | RStart =>
      match cSlice (ck_cache c) off (r_len q) with
      | Ok b => go (RDone (Ok b))
      | Err BytesNotAvailableError => go (RLoop off)
      | Err e => go (RDone (Err (ChunkCache e)))
      end
  | RLoop cur =>
      if cur <? end_ then
        match locateChunk (c_size (ck_cache c)) cur (r_ft q) with
        | Err e => go (RDone (Err (LocateFailed e)))
        | Ok (co, cl) =>
            let chunkEnd := i64 (co + cl) in
            let length := Z.min end_ chunkEnd - cur in
            match getOrCreateSession c co cl with
            | (c, None) => Some (with_reader c i q (RLoop chunkEnd))
            | (c, Some s) =>
                let startBlock := Z.quot cur bs * bs in
                let endBlock := Z.quot (i64 (cur + length - 1)) bs * bs in
                let endByte := Z.min (i64 (endBlock + bs)) chunkEnd - co in
                Some (with_reader c i q (RCheck cur chunkEnd endByte startBlock endBlock s))
            end
        end
      else go RDirect
  | RCheck cur chunkEnd endByte startBlock endBlock s =>
      match ck_sessions c !! s with
      | Some (x, _) =>
          if endByte <=? bytesReady x then go (RLoop chunkEnd)
          else go (RWait cur chunkEnd startBlock endBlock s)
      | None => None
      end
  | RWait cur chunkEnd b endBlock s =>
      if (b <=? endBlock) && negb (chunkEnd <=? b) then
        match ck_sessions c !! s with
        | Some (x, _) =>
            match registerAndWait c x b with
            | Ready => go (RWait cur chunkEnd (i64 (b + bs)) endBlock s)
            | WaitFailed e => go (RDone (Err e))
            | Blocked => None
            end
        | None => None
        end
      else go (RLoop chunkEnd)
  | RDirect =>
      match sliceDirect (ck_cache c) off (r_len q) with
      | Ok b => go (RDone (Ok b))
      | Err e => go (RDone (Err (ChunkCache e)))
      end
  | RDone _ => None
  end.

(** ** The steps of a fetcher *)

(** What the environment answers: go on, fail, deliver [n] bytes, panic. *)
Inductive answer := Proceed | Fails | Delivers (n : Z) | Panics.

Definition readBatch (c : Chunker B) : Z := Z.max (c_blockSize (ck_cache c)) (minReadKB * 1024).

Definition locked (f : fetcher) : bool :=
  match f with FOpen | FRead _ | FAdvance _ _ | FMark | FFinish => true | _ => false end.

Definition fetcher_step (a : answer) (c : Chunker B) (j : nat) (s : fetchSession) (f : fetcher)
    : option (Chunker B) :=
  let go s f := Some (with_session c j s f) in
  match a, f with
  | Panics, FAddress => go s (FSettle FetchPanicked)
  | Panics, _ => if locked f then go s (FSettle FetchPanicked) else None
  | Proceed, FAddress =>
      match c_mmap (ck_cache c) with
      | None => go s FOpen
      | Some _ => if c_closed (ck_cache c) || (c_size (ck_cache c) <=? chunkOff s)
                  then go (fail AddressFailed s) (FSettle FetchIncomplete) else go s FOpen
      end
  | Proceed, FOpen => go s (FRead 0)
  | Fails, FOpen => go (fail OpenFailed s) (FSettle FetchIncomplete)
  | Proceed, FRead t => if t <? chunkLen s then None else go s FMark
  | Delivers n, FRead t =>
      let readEnd := Z.min (i64 (t + readBatch c)) (chunkLen s) in
      if (t <? chunkLen s) && (0 <=? n) && (n <=? readEnd - t) then
        match c_mmap (ck_cache c) with
        | None => None
        | Some m =>
            let at0 := chunkOff s + t in
            let k := ck_cache c in
            Some (with_session
                    (with_cache c (with_data k (splice m at0 (slice at0 (at0 + n) object)) (c_tracker k)))
                    j s (FAdvance (t + n) (n <? readEnd - t)))
        end
      else None
  | Proceed, FAdvance t err =>
      let s := if bytesReady s <? t then advance_ t s else s in
      if err then
        if chunkLen s <=? t then go s FMark else go (fail ReadFailed s) (FSettle FetchIncomplete)
      else go s (FRead t)
  | Proceed, FMark =>
      Some (with_session (with_cache c (setIsCached (ck_cache c) (chunkOff s) (chunkLen s))) j s FFinish)
  | Proceed, FFinish => go (setDone s) (FSettle FetchIncomplete)
  | Proceed, FSettle e => go (failIfRunning e s) FRelease
  | Proceed, FRelease => Some (with_active (with_session c j s FGone) (swap_delete j (fetchSessions c)))
  | _, _ => None
  end.

(** ** All interleavings *)

(** A goroutine of the chunker moves. *)
Inductive moves : Chunker B → Chunker B → Prop :=
| mv_reader c i q c' : ck_readers c !! i = Some q → reader_step c i q = Some c' → moves c c'
| mv_fetcher a c j s f c' :
    ck_sessions c !! j = Some (s, f) → a ≠ Panics → fetcher_step a c j s f = Some c' → moves c c'.

(** A fetch may also panic; the environment may cancel a waiting reader, and
    close the cache when no fetch holds its lock. *)
Inductive step : Chunker B → Chunker B → Prop :=
| st_moves c c' : moves c c' → step c c'
| st_panic c j s f c' : ck_sessions c !! j = Some (s, f) → fetcher_step Panics c j s f = Some c' → step c c'
| st_cancel c i q cur chunkEnd b endBlock s :
    ck_readers c !! i = Some q → r_pc q = RWait cur chunkEnd b endBlock s →
    step c (with_reader c i q (RDone (Err Canceled)))
| st_close c k :
    (∀ j s f, ck_sessions c !! j = Some (s, f) → locked f = false) →
    c_closed (ck_cache c) = false → cClose (ck_cache c) = Ok k → step c (with_cache c k).

(** A fresh chunker, its readers about to call [Slice]. *)
Definition NewChunker (blockSize : Z) (file : bytes) (readers : list (Z * Z * option FrameTable)) : Chunker B :=
  mkChunker (NewCache (len object) blockSize file false) [] []
    ((λ '(off, n, ft), mkRequest off n ft RStart) <$> readers).
End chunker.

(** ** The invariant *)

(** How the object is cut in chunks: at block boundaries, into a partition. *)
Record geometry (bs size : Z) (chunk_of : Z → Z * Z) : Prop := {
  ge_in x : 0 <= x < size → 0 <= (chunk_of x).1 <= x ∧ x < (chunk_of x).1 + (chunk_of x).2 <= size;
  ge_start x : 0 <= x < size → (chunk_of x).1 mod bs = 0;
  ge_end x : 0 <= x < size →
    ((chunk_of x).1 + (chunk_of x).2) mod bs = 0 ∨ (chunk_of x).1 + (chunk_of x).2 = size;
  ge_same x y : 0 <= x < size → (chunk_of x).1 <= y < (chunk_of x).1 + (chunk_of x).2 → chunk_of y = chunk_of x
}.

(** A range of the object, read with a frame table that cuts it that way. *)
Definition request_ok (size : Z) (chunk_of : Z → Z * Z) (off n : Z) (ft : option FrameTable) : Prop :=
  0 <= off ∧ 0 < n ∧ off + n <= size ∧
  ∀ x r, 0 <= x < size → locateChunk size x ft = Ok r → r = chunk_of x.

Definition reopen {B} (k : Cache B) : Cache B :=
  mkCache (c_size k) (c_blockSize k) (c_mmap k) (c_tracker k) (c_dirtyFile k) false.

Section invariant.
Context `{Bitmap B} (object : bytes) (minReadKB bs : Z) (chunk_of : Z → Z * Z).
Notation size := (len object).
Hypothesis Hbs : 0 < bs < 2 ^ 31.
Hypothesis Hsize : 0 < size <= bs * (2 ^ 32 - 1).
Hypothesis Hgeo : geometry bs size chunk_of.
Hypothesis Hread : minReadKB * 1024 < 2 ^ 62.

(** A byte of the mapping that has been fetched. *)
Definition good (m : bytes) (x : Z) : Prop := at_ m x = at_ object x.

Definition session_inv (m : bytes) (s : fetchSession) (f : fetcher) : Prop :=
  (∃ x, 0 <= x < size ∧ chunk_of x = (chunkOff s, chunkLen s)) ∧
  0 <= bytesReady s <= chunkLen s ∧
  (∀ x, chunkOff s <= x < chunkOff s + bytesReady s → good m x) ∧
  match f with
  | FAddress | FOpen => done_ s = false ∧ bytesReady s = 0
  | FRead t => done_ s = false ∧ t = bytesReady s
  | FAdvance t _ => done_ s = false ∧ bytesReady s <= t <= chunkLen s ∧
                    ∀ x, chunkOff s <= x < chunkOff s + t → good m x
  | FMark | FFinish => done_ s = false ∧ ∀ x, chunkOff s <= x < chunkOff s + chunkLen s → good m x
  | FSettle _ => True
  | FRelease | FGone => done_ s = true
  end.

Definition has_session (l : list (fetchSession * fetcher)) (s : nat) (ch : Z * Z) : Prop :=
  ∃ x f, l !! s = Some (x, f) ∧ (chunkOff x, chunkLen x) = ch.

Definition reader_inv (m : bytes) (l : list (fetchSession * fetcher)) (q : request) : Prop :=
  request_ok size chunk_of (r_off q) (r_len q) (r_ft q) ∧
  let end_ := r_off q + r_len q in
  match r_pc q with
  | RStart => True
  | RLoop cur => r_off q <= cur ∧ ∀ x, r_off q <= x < Z.min cur end_ → good m x
  | RCheck cur chunkEnd endByte startBlock endBlock s =>
      r_off q <= cur < end_ ∧ (∀ x, r_off q <= x < cur → good m x) ∧
      has_session l s (chunk_of cur) ∧ chunkEnd = (chunk_of cur).1 + (chunk_of cur).2 ∧
      startBlock = cur / bs * bs ∧ endBlock = (Z.min end_ chunkEnd - 1) / bs * bs ∧
      endByte = Z.min (endBlock + bs) chunkEnd - (chunk_of cur).1
  | RWait cur chunkEnd b endBlock s =>
      r_off q <= cur < end_ ∧ (∀ x, r_off q <= x < cur → good m x) ∧
      has_session l s (chunk_of cur) ∧ chunkEnd = (chunk_of cur).1 + (chunk_of cur).2 ∧
      (chunk_of cur).1 <= b <= endBlock + bs ∧ b mod bs = 0 ∧ endBlock = (Z.min end_ chunkEnd - 1) / bs * bs ∧
      ∀ x, cur <= x < Z.min b chunkEnd → good m x
  | RDirect => ∀ x, r_off q <= x < end_ → good m x
  | RDone (Ok b) => b = slice (r_off q) end_ object
  | RDone (Err _) => True
  end.

Record inv (m : bytes) (c : Chunker B) : Prop := {
  iv_cache : cache_ok (reopen (ck_cache c)) m;
  iv_bs : c_blockSize (ck_cache c) = bs;
  iv_size : c_size (ck_cache c) = size;
  iv_clean : c_dirtyFile (ck_cache c) = false;
  iv_present x : 0 <= x < size → Get (c_tracker (ck_cache c)) (x / bs) ≠ NotPresent → good m x;
  iv_nozero i : Get (c_tracker (ck_cache c)) i ≠ SZero;
  iv_sessions j s f : ck_sessions c !! j = Some (s, f) → session_inv m s f;
  iv_readers i q : ck_readers c !! i = Some q → reader_inv m (ck_sessions c) q
}.

Lemma size_i64 x : 0 <= x <= size + bs → is_i64 x.
Proof using Hbs Hsize. unfold_int. nia. Qed.

Lemma reader_inv_mono m m' l l' q :
  (∀ x, good m x → good m' x) → (∀ s ch, has_session l s ch → has_session l' s ch) →
  reader_inv m l q → reader_inv m' l' q.
Proof using Hbs Hsize.
  intros Hm Hl [Hq Hr]. split; [done|]. destruct (r_pc q) as [|cur|? ? ? ? ? ?|? ? ? ? ?| |[?|?]]; naive_solver.
Qed.

Lemma session_inv_mono m m' s f : (∀ x, good m x → good m' x) → session_inv m s f → session_inv m' s f.
Proof using Hbs Hsize. intros Hm (? & ? & ? & Hf). split_and!; [done|lia|lia|auto|]. destruct f; naive_solver. Qed.

Lemma has_session_insert l j s f s' f' t ch :
  l !! j = Some (s, f) → chunkOff s' = chunkOff s → chunkLen s' = chunkLen s →
  has_session l t ch → has_session (<[j := (s', f')]> l) t ch.
Proof using Hbs Hsize.
  intros Hj Ho Hl (x & g & Hx & Hc). destruct (decide (t = j)) as [->|Hne].
  - exists s', f'. rewrite list_lookup_insert_eq by (by eapply lookup_lt_Some). split; [done|]. congruence.
  - exists x, g. by rewrite list_lookup_insert_ne.
Qed.

(** ** Fetchers preserve it *)

Lemma inv_session m m' c k j s f s' f' l :
  inv m c → ck_sessions c !! j = Some (s, f) →
  cache_ok (reopen k) m' → c_blockSize k = bs → c_size k = size → c_dirtyFile k = false →
  (∀ x, 0 <= x < size → Get (c_tracker k) (x / bs) ≠ NotPresent → good m' x) → (∀ i, Get (c_tracker k) i ≠ SZero) →
  (∀ x, good m x → good m' x) → chunkOff s' = chunkOff s → chunkLen s' = chunkLen s → session_inv m' s' f' →
  inv m' (mkChunker k (<[j := (s', f')]> (ck_sessions c)) l (ck_readers c)).
Proof using Hbs Hsize.
  intros Hi Hj Hk1 Hk2 Hk3 Hk4 Hk5 Hk6 Hm Ho Hl Hs. split; try done; cbn [ck_cache ck_sessions ck_readers].
  - intros t x g Ht. destruct (decide (t = j)) as [->|Hne].
    + rewrite list_lookup_insert_eq in Ht by (by eapply lookup_lt_Some). by injection Ht as <- <-.
    + rewrite list_lookup_insert_ne in Ht by done. eapply session_inv_mono; [done|]. by apply (iv_sessions _ _ Hi) in Ht.
  - intros i q Hq. eapply reader_inv_mono; [done| |by eapply iv_readers].
    intros t ch. by eapply has_session_insert.
Qed.

(** The cache is untouched. *)
Lemma inv_session_only m c j s f s' f' l :
  inv m c → ck_sessions c !! j = Some (s, f) → chunkOff s' = chunkOff s → chunkLen s' = chunkLen s →
  session_inv m s' f' → inv m (mkChunker (ck_cache c) (<[j := (s', f')]> (ck_sessions c)) l (ck_readers c)).
Proof using Hbs Hsize. intros Hi. intros. eapply inv_session; try done; apply Hi. Qed.

Lemma cache_ok_data (k : Cache B) m m' :
  cache_ok (reopen k) m → len m' = len m → (∀ i, Get (c_tracker k) i ≠ SZero) →
  cache_ok (reopen (with_data k m' (c_tracker k))) m'.
Proof using Hbs Hsize.
  intros Hk Hl Hz. destruct Hk. split; cbn in *; try done; [lia|].
  intros x _ Hx. by apply Hz in Hx.
Qed.

(** Copying bytes of the object into the mapping. *)
Lemma good_splice m a n :
  len m = size → 0 <= a → 0 <= n → a + n <= size →
  let m' := splice m a (slice a (a + n) object) in
  len m' = size ∧ (∀ x, good m x → good m' x) ∧ (∀ x, a <= x < a + n → good m' x).
Proof using Hbs Hsize.
  intros Hm Ha Hn Han m'. assert (Ls : len (slice a (a + n) object) = n) by (rewrite len_slice; lia).
  assert (A : ∀ x, at_ m' x = if (a <=? x) && (x <? a + n) then at_ object x else at_ m x).
  { intros x. unfold m'. rewrite at_splice, Ls by (rewrite ?Ls; lia).
    destruct (Z.leb_spec a x), (Z.ltb_spec x (a + n)); cbn [andb]; try done.
    rewrite at_slice by lia. f_equal. lia. }
  split_and!; [unfold m'; rewrite len_splice by (rewrite ?Ls; lia); done|intros x Hx|intros x Hx]; unfold good in *;
    rewrite A; destruct (Z.leb_spec a x), (Z.ltb_spec x (a + n)); try done; lia.
Qed.

(** A byte whose block starts inside a chunk lies inside it. *)
Lemma block_in_chunk x y :
  0 <= x < size → 0 <= y < size → (chunk_of y).1 <= x / bs * bs < (chunk_of y).1 + (chunk_of y).2 →
  (chunk_of y).1 <= x < (chunk_of y).1 + (chunk_of y).2.
Proof using Hbs Hsize Hgeo.
  intros Hx Hy Hc. pose proof (block_of x bs ltac:(lia)).
  destruct (ge_end _ _ _ Hgeo y Hy) as [He|He]; [|lia].
  assert (Hne : bs ≠ 0) by lia. pose proof (proj1 (Z.mod_divide _ bs Hne) He) as [q Hq].
  set (i := x / bs) in *. clearbody i. assert (i < q) by nia. assert ((i + 1) * bs <= q * bs) by nia. lia.
Qed.

Lemma reopen_setIsCached (k : Cache B) a n : reopen (setIsCached k a n) = setIsCached (reopen k) a n.
Proof using. reflexivity. Qed.
Lemma tracker_reopen (k : Cache B) : c_tracker (reopen k) = c_tracker k.
Proof using. reflexivity. Qed.

Lemma isCached_reopen (k : Cache B) a n : isCached (reopen k) a n = isCached k a n.
Proof using. unfold isCached, reopen. cbn [c_size c_blockSize c_tracker]. reflexivity. Qed.

Lemma mark_reopen (k : Cache B) m a n :
  cache_ok (reopen k) m → c_blockSize k = bs → c_size k = size → a mod bs = 0 → 0 <= a → 0 < n → a + n <= size →
  (a + n) mod bs = 0 ∨ a + n = size →
  cache_ok (reopen (setIsCached k a n)) m ∧
  ∀ i, Get (c_tracker (setIsCached k a n)) i =
    if (a <=? i * bs) && (i * bs <? a + n) then SDirty else Get (c_tracker k) i.
Proof using Hbs Hsize.
  intros Hk Hb Hs Hm Ha Hn Han He.
  assert (Hi : is_i64 size) by (apply size_i64; lia). rewrite <- Hb in Hm, He. rewrite <- Hs in Hi, Han, He.
  destruct (setIsCached_ok (reopen k) m a n Hk Hm Ha Hn Han He Hi) as [Hok Hget].
  rewrite <- reopen_setIsCached in Hok, Hget. split; [done|]. intros i. specialize (Hget i).
  rewrite !tracker_reopen in Hget. cbn [reopen c_blockSize] in Hget. by rewrite Hb in Hget.
Qed.

Lemma mark_inv m c j s :
  inv m c → ck_sessions c !! j = Some (s, FMark) →
  inv m (with_session (with_cache c (setIsCached (ck_cache c) (chunkOff s) (chunkLen s))) j s FFinish).
Proof using Hbs Hsize Hgeo.
  intros Hi Hj. pose proof (iv_sessions _ _ Hi _ _ _ Hj) as Hs.
  destruct (id Hs) as ((y & Hy & Hch) & Hr & Hg & Hd & Hall).
  pose proof (ge_in _ _ _ Hgeo y Hy) as Hin. pose proof (ge_start _ _ _ Hgeo y Hy) as Hst.
  pose proof (ge_end _ _ _ Hgeo y Hy) as Hen. pose proof (block_in_chunk) as Hblk.
  rewrite Hch in Hin, Hst, Hen. cbn [fst snd] in *.
  destruct (mark_reopen (ck_cache c) m (chunkOff s) (chunkLen s) (iv_cache _ _ Hi))
    as [Hok Hget]; rewrite ?(iv_bs _ _ Hi), ?(iv_size _ _ Hi); try done; try lia.
  apply (inv_session m m c _ j s FMark); try done; try apply Hi.
  - intros x Hx. rewrite Hget.
    destruct (Z.leb_spec (chunkOff s) (x / bs * bs)), (Z.ltb_spec (x / bs * bs) (chunkOff s + chunkLen s));
      cbn [andb]; try (by apply Hi).
    intros _. apply Hall. specialize (Hblk x y Hx Hy). rewrite Hch in Hblk. cbn in Hblk. lia.
  - intros i. rewrite Hget. destruct (_ && _); [done|apply Hi].
Qed.

Lemma deliver_inv m c j s t n err :
  inv m c → ck_sessions c !! j = Some (s, FRead t) → 0 <= n → t + n <= chunkLen s →
  let a := chunkOff s + t in
  ∃ m', inv m' (with_session (with_cache c (with_data (ck_cache c) (splice m a (slice a (a + n) object))
                  (c_tracker (ck_cache c)))) j s (FAdvance (t + n) err)).
Proof using Hbs Hsize Hgeo.
  intros Hi Hj Hn Htn a. pose proof (iv_sessions _ _ Hi _ _ _ Hj) as Hs.
  destruct (id Hs) as ((y & Hy & Hch) & Hr & Hg & Hd & Ht). subst t.
  pose proof (ge_in _ _ _ Hgeo y Hy) as Hin. rewrite Hch in Hin. cbn [fst snd] in *.
  pose proof (co_len _ _ (iv_cache _ _ Hi)) as Hlm. cbn in Hlm. rewrite (iv_size _ _ Hi) in Hlm.
  destruct (good_splice m a n Hlm ltac:(unfold a; lia) Hn ltac:(unfold a; lia)) as (L1 & K1 & G1).
  exists (splice m a (slice a (a + n) object)).
  eapply (inv_session m _ c _ j s); try done; cbn [c_tracker c_size c_blockSize c_dirtyFile with_data].
  - apply (cache_ok_data _ m); [apply Hi|by rewrite L1|apply Hi].
  - apply Hi.
  - apply Hi.
  - apply Hi.
  - intros x Hx Hp. apply K1. by apply (iv_present _ _ Hi).
  - apply Hi.
  - split_and!; [by exists y|lia|lia|intros; apply K1, Hg; lia|done|lia|lia|].
    intros x Hx. destruct (Z.lt_ge_cases x a); [apply K1, Hg; unfold a in *; lia|apply G1; unfold a in *; lia].
Qed.

Lemma session_settled m s f s' e :
  session_inv m s f → chunkOff s' = chunkOff s → chunkLen s' = chunkLen s → bytesReady s' = bytesReady s →
  session_inv m s' (FSettle e).
Proof using Hbs Hsize.
  intros (Hc & Hr & Hg & _) Ho Hl Hb. unfold session_inv. rewrite Ho, Hl, Hb. split_and!; [done|lia|lia|done|done].
Qed.

Lemma fetcher_inv m a c j s f c' :
  inv m c → ck_sessions c !! j = Some (s, f) → fetcher_step object minReadKB a c j s f = Some c' →
  ∃ m', inv m' c'.
Proof using Hbs Hsize Hgeo Hread.
  intros Hi Hj. pose proof (iv_sessions _ _ Hi _ _ _ Hj) as Hs.
  pose proof (co_mmap _ _ (iv_cache _ _ Hi)) as Hmm. cbn in Hmm.
  assert (Keep : ∀ s' f', chunkOff s' = chunkOff s → chunkLen s' = chunkLen s → session_inv m s' f' →
    Some (with_session c j s' f') = Some c' → ∃ m', inv m' c').
  { intros s' f' Ho Hl Hs' [= <-]. exists m. by eapply inv_session_only. }
  assert (Settle : ∀ s' e, chunkOff s' = chunkOff s → chunkLen s' = chunkLen s → bytesReady s' = bytesReady s →
    Some (with_session c j s' (FSettle e)) = Some c' → ∃ m', inv m' c').
  { intros s' e Ho Hl Hb. apply Keep; [done|done|]. by eapply session_settled. }
  destruct (id Hs) as ((y & Hy & Hch) & Hr & Hg & Hf).
  pose proof (ge_in _ _ _ Hgeo y Hy) as Hin. rewrite Hch in Hin. cbn [fst snd] in Hin.
  destruct a as [| |n|]; destruct f as [| |t|t err| | |e| |]; cbn; try done; try (by apply Settle).
  - rewrite Hmm. destruct (_ || _); [by apply Settle|by apply Keep].
  - apply Keep; [done|done|]. destruct Hf as [Hd Hb]. split_and!; [by exists y|lia|lia|done|done|lia].
  - destruct Hf as [Hd Ht]. destruct (Z.ltb_spec t (chunkLen s)); [done|]. apply Keep; [done|done|].
    split_and!; [by exists y|lia|lia|done|done|]. intros x Hx. apply Hg. lia.
  - destruct Hf as (Hd & Ht & Hall).
    set (s1 := if bytesReady s <? t then advance_ t s else s).
    assert (S1 : chunkOff s1 = chunkOff s ∧ chunkLen s1 = chunkLen s ∧ bytesReady s1 = t ∧ done_ s1 = false).
    { unfold s1. destruct (Z.ltb_spec (bytesReady s) t); split_and!; try done. lia. }
    destruct S1 as (O1 & L1 & B1 & D1).
    assert (I1 : ∀ f', match f' with
      | FRead t' => t' = t | FMark => chunkLen s <= t | FSettle _ => True | _ => False end → session_inv m s1 f').
    { intros f' Hf'. unfold session_inv. rewrite O1, L1, B1, D1.
      split_and!; [by exists y|lia|lia|done|]. destruct f'; try done. split; [done|]. intros x Hx. apply Hall. lia. }
    destruct err; [destruct (Z.leb_spec (chunkLen s1) t)|].
    + apply Keep; [done|done|]. apply I1. lia.
    + apply Keep; [done|done|]. eapply (session_settled m s1 (FSettle FetchIncomplete)); [by apply I1|done..].
    + apply Keep; [done|done|]. by apply I1.
  - intros [= <-]. exists m. by apply mark_inv.
  - destruct Hf as [_ Hall]. apply Keep; [done|done|]. split_and!; [by exists y|cbn; lia|cbn; lia|cbn; auto|done].
  - unfold failIfRunning. destruct (done_ s) eqn:Ed; apply Keep; try done; split_and!; try done; cbn; try lia; by exists y.
  - intros [= <-]. exists m. unfold with_active, with_session. cbn [ck_cache ck_sessions ck_readers].
    apply (inv_session_only m c j s FRelease s FGone); [done..|]. split_and!; [by exists y|lia|lia|done|done].
  - destruct Hf as [Hd Ht].
    destruct (Z.ltb_spec t (chunkLen s)), (Z.leb_spec 0 n), (Z.leb_spec n (Z.min (i64 (t + readBatch minReadKB c)) (chunkLen s) - t));
      cbn [andb]; try done.
    rewrite Hmm. intros [= <-]. apply deliver_inv; [done|done|lia|lia].
Qed.

(** ** Readers preserve it *)

Lemma slice_good m a e :
  len m = size → 0 <= a → a <= e → e <= size → (∀ x, a <= x < e → good m x) → slice a e m = slice a e object.
Proof using Hbs Hsize.
  intros Hm Ha He Hs Hg. apply at_ext. intros x. rewrite !at_slice_in by lia.
  destruct (Z.leb_spec 0 x), (Z.ltb_spec x (e - a)); cbn [andb]; try done. apply Hg. lia.
Qed.

Lemma inv_len m c : inv m c → len m = size.
Proof using Hbs Hsize. intros Hi. pose proof (co_len _ _ (iv_cache _ _ Hi)) as Hl. cbn in Hl. by rewrite (iv_size _ _ Hi) in Hl. Qed.

(** What the tracker calls present has been fetched. *)
Lemma isCached_good m c off n :
  inv m c → 0 <= off → 0 <= n → off + n <= size + bs → off <= size → isCached (ck_cache c) off n = true →
  ∀ x, off <= x < Z.min (off + n) size → good m x.
Proof using Hbs Hsize.
  intros Hi Ho Hn Hle Hos Hc x Hx.
  pose proof (isCached_spec (reopen (ck_cache c)) m off n (iv_cache _ _ Hi)) as Hspec.
  rewrite isCached_reopen in Hspec. cbn [reopen c_size] in Hspec. rewrite (iv_size _ _ Hi) in Hspec.
  pose proof (proj1 (Hspec ltac:(lia) Hn ltac:(apply size_i64; lia)) Hc) as Hp. unfold present_on in Hp.
  rewrite tracker_reopen in Hp. cbn [reopen c_blockSize] in Hp. rewrite (iv_bs _ _ Hi) in Hp.
  apply (iv_present _ _ Hi); [lia|]. pose proof (block_of x bs ltac:(lia)). apply Hp; [|lia].
  apply Z.div_le_mono; lia.
Qed.

Lemma inv_reader m c i q pc :
  inv m c → ck_readers c !! i = Some q →
  reader_inv m (ck_sessions c) (mkRequest (r_off q) (r_len q) (r_ft q) pc) → inv m (with_reader c i q pc).
Proof using Hbs Hsize.
  intros Hi Hq Hr. destruct Hi. split; try done. cbn [ck_readers ck_sessions with_reader].
  intros i' q' Hq'. destruct (decide (i' = i)) as [->|Hne].
  - rewrite list_lookup_insert_eq in Hq' by (by eapply lookup_lt_Some). by injection Hq' as <-.
  - rewrite list_lookup_insert_ne in Hq' by done. by eapply iv_readers0.
Qed.

Lemma find_session_spec (c : Chunker B) off n l i :
  find_session c off n l = Some i → ∃ s f, ck_sessions c !! i = Some (s, f) ∧ contains s off n = true.
Proof using.
  induction l as [|j l IH]; [done|]. cbn. destruct (ck_sessions c !! j) as [[s f]|] eqn:E; [|done].
  destruct (contains s off n) eqn:Ec; [|done]. intros [= <-]. by exists s, f.
Qed.

Lemma chunk_unique x y : 0 <= x < size → 0 <= y < size →
  (chunk_of x).1 <= (chunk_of y).1 → (chunk_of y).1 + (chunk_of y).2 <= (chunk_of x).1 + (chunk_of x).2 →
  chunk_of x = chunk_of y.
Proof using Hgeo.
  intros Hx Hy H1 H2. pose proof (ge_in _ _ _ Hgeo y Hy).
  rewrite <- (ge_same _ _ _ Hgeo x (chunk_of y).1 Hx ltac:(lia)).
  symmetry. rewrite (ge_same _ _ _ Hgeo y (chunk_of y).1 Hy ltac:(lia)). done.
Qed.

Lemma getOrCreate_inv m c y c' r :
  inv m c → 0 <= y < size → getOrCreateSession c (chunk_of y).1 (chunk_of y).2 = (c', r) →
  inv m c' ∧ ck_readers c' = ck_readers c ∧ ck_cache c' = ck_cache c ∧
  match r with
  | None => ∀ x, (chunk_of y).1 <= x < (chunk_of y).1 + (chunk_of y).2 → good m x
  | Some s => has_session (ck_sessions c') s (chunk_of y)
  end.
Proof using Hbs Hsize Hgeo.
  intros Hi Hy. pose proof (ge_in _ _ _ Hgeo y Hy) as Hin. unfold getOrCreateSession.
  destruct (find_session c _ _ _) as [i|] eqn:Ef.
  { intros [= <- <-]. split_and!; try done.
    destruct (find_session_spec _ _ _ _ _ Ef) as (s & f & Hs & Hc). exists s, f. split; [done|].
    destruct (iv_sessions _ _ Hi _ _ _ Hs) as ((z & Hz & Hch) & _). rewrite <- Hch.
    pose proof (ge_in _ _ _ Hgeo z Hz) as Hinz. unfold contains in Hc. rewrite Hch in Hinz. cbn in Hinz.
    apply andb_true_iff in Hc as [Hc1 Hc2]. apply Z.leb_le in Hc1, Hc2.
    rewrite !i64_id in Hc2 by (apply size_i64; lia). apply chunk_unique; rewrite ?Hch; cbn; lia || done. }
  destruct (isCached _ _ _) eqn:Ec; intros [= <- <-].
  { split_and!; try done. intros x Hx. apply (isCached_good m c (chunk_of y).1 (chunk_of y).2 Hi ltac:(lia) ltac:(lia) ltac:(lia) ltac:(lia) Ec). lia. }
  split_and!; try done.
  - destruct Hi. split; try done; cbn [ck_sessions ck_readers].
    + intros j s f Hj. apply lookup_app_Some in Hj as [Hj|[Hlen Hj]]; [by eapply iv_sessions0|].
      apply list_lookup_singleton_Some in Hj as [_ [= <- <-]].
      split_and!; cbn; try done; try lia. exists y. split; [done|]. by destruct (chunk_of y).
    + intros i q Hq. eapply reader_inv_mono; [done| |by eapply iv_readers0].
      intros s ch (x & g & Hx & Hch). exists x, g. split; [|done]. by apply lookup_app_l_Some.
  - exists (newFetchSession (chunk_of y).1 (chunk_of y).2), FAddress. cbn [ck_sessions].
    split; [by apply list_lookup_middle|]. cbn. by destruct (chunk_of y).
Qed.

Lemma cSlice_inv m c off n b :
  inv m c → 0 <= off → 0 < n → off + n <= size →
  cSlice (ck_cache c) off n = Ok b → b = slice off (off + n) object.
Proof using Hbs Hsize.
  intros Hi Ho Hn Hle. unfold cSlice. destruct (c_closed _); [done|].
  pose proof (co_mmap _ _ (iv_cache _ _ Hi)) as Hmm. cbn in Hmm. rewrite Hmm, (iv_clean _ _ Hi). cbn [orb].
  destruct (isCached _ _ _) eqn:Ec; [|done].
  pose proof (isCached_good m c off n Hi Ho ltac:(lia) ltac:(lia) ltac:(lia) Ec) as Hg.
  unfold mmap_slice. rewrite (iv_size _ _ Hi), i64_id by (apply size_i64; lia).
  replace (Z.min (off + n) size) with (off + n) in * by lia.
  destruct (_ || _); [done|]. intros [= <-]. apply slice_good; try lia; [by eapply inv_len|exact Hg].
Qed.

Lemma sliceDirect_inv m c off n b :
  inv m c → 0 <= off → 0 < n → off + n <= size → (∀ x, off <= x < off + n → good m x) →
  sliceDirect (ck_cache c) off n = Ok b → b = slice off (off + n) object.
Proof using Hbs Hsize.
  intros Hi Ho Hn Hle Hg. unfold sliceDirect. destruct (c_closed _); [done|].
  pose proof (co_mmap _ _ (iv_cache _ _ Hi)) as Hmm. cbn in Hmm. rewrite Hmm.
  destruct (_ || _); [done|]. unfold mmap_slice. rewrite (iv_size _ _ Hi), i64_id by (apply size_i64; lia).
  replace (Z.min (off + n) size) with (off + n) in * by lia.
  destruct (_ || _); [done|]. intros [= <-]. apply slice_good; try lia; [by eapply inv_len|exact Hg].
Qed.

(** What [registerAndWait] answers [Ready] for has been fetched. *)
Lemma wait_good m c s f b ch :
  inv m c → ck_sessions c !! s = Some f → (chunkOff f.1, chunkLen f.1) = ch →
  0 <= b < size → registerAndWait c f.1 b = Ready →
  ∀ x, b <= x < Z.min (b + bs) (ch.1 + ch.2) → good m x.
Proof using Hbs Hsize Hgeo.
  intros Hi Hs <- Hb. destruct f as [s0 f0]. cbn [fst] in *.
  destruct (iv_sessions _ _ Hi _ _ _ Hs) as ((y & Hy & Hch) & Hr & Hg & _).
  pose proof (ge_in _ _ _ Hgeo y Hy) as Hin. rewrite Hch in Hin. cbn [fst snd] in *.
  unfold registerAndWait. rewrite (iv_bs _ _ Hi). destruct (negb _); [done|].
  destruct (Z.ltb_spec b (chunkOff s0)); [done|]. cbn [orb]. rewrite i64_id by (apply size_i64; lia).
  destruct (Z.leb_spec (chunkOff s0 + chunkLen s0) b); [done|].
  rewrite i64_id by (apply size_i64; lia).
  destruct (Z.leb_spec (Z.min (b + bs - chunkOff s0) (chunkLen s0)) (bytesReady s0)).
  - intros _ x Hx. apply Hg. lia.
  - destruct (done_ s0); [|done]. destruct (isCached _ _ _) eqn:Ec; [|done]. intros _ x Hx.
    apply (isCached_good m c b bs Hi ltac:(lia) ltac:(lia) ltac:(lia) ltac:(lia) Ec). lia.
Qed.

Lemma block_quot x : 0 <= x → Z.quot x bs * bs = x / bs * bs.
Proof using Hbs. intros. by rewrite Z.quot_div_nonneg by lia. Qed.

Lemma next_block a b : b mod bs = 0 → a * bs < b → a * bs + bs <= b.
Proof using Hbs.
  intros Hb Hlt. assert (Hne : bs ≠ 0) by lia. apply (proj1 (Z.mod_divide b bs Hne)) in Hb as [k ->].
  apply Z.mul_lt_mono_pos_r in Hlt; [|lia]. pose proof (Z.mul_le_mono_nonneg_r (a + 1) k bs). lia.
Qed.

Lemma reader_loop_inv m c i q c' cur :
  inv m c → ck_readers c !! i = Some q → r_pc q = RLoop cur → reader_step c i q = Some c' → inv m c'.
Proof using Hbs Hsize Hgeo.
  intros Hi Hq Hpc. unfold reader_step. rewrite Hpc.
  destruct (iv_readers _ _ Hi _ _ Hq) as [(Ho & Hn & Hle & Hft) Hr]. rewrite Hpc in Hr. destruct Hr as [Hcur Hg].
  assert (Hreq : request_ok size chunk_of (r_off q) (r_len q) (r_ft q)) by (split_and!; done).
  rewrite (i64_id (r_off q + r_len q)) by (apply size_i64; lia).
  destruct (Z.ltb_spec cur (r_off q + r_len q)) as [Hlt|Hge].
  2:{ intros [= <-]. apply inv_reader; [done|done|]. split; [done|]. cbn. intros x Hx. apply Hg. lia. }
  assert (Hcs : 0 <= cur < size) by lia. rewrite (iv_size _ _ Hi).
  destruct (locateChunk size cur (r_ft q)) as [[co cl]|e] eqn:El.
  2:{ intros [= <-]. by apply inv_reader. }
  specialize (Hft cur (co, cl) Hcs El). pose proof (ge_in _ _ _ Hgeo cur Hcs) as Hin.
  destruct (getOrCreateSession c co cl) as [c1 r] eqn:Eg.
  destruct (getOrCreate_inv m c cur c1 r Hi Hcs) as (Hi1 & Hrd & Hk & Hr); [by rewrite <- Hft|].
  rewrite <- Hft in *. cbn [fst snd] in *. rewrite (i64_id (co + cl)) by (apply size_i64; lia).
  destruct r as [s|]; intros [= <-]; apply inv_reader; rewrite ?Hrd; try done; (split; [done|]); cbn [r_pc].
  - rewrite (iv_bs _ _ Hi), (i64_id (cur + _ - 1)) by (apply size_i64; lia).
    replace (cur + (Z.min (r_off q + r_len q) (co + cl) - cur) - 1) with (Z.min (r_off q + r_len q) (co + cl) - 1) by lia.
    rewrite !block_quot by lia. rewrite <- Hft. cbn [fst snd r_off r_len].
    pose proof (block_of (Z.min (r_off q + r_len q) (co + cl) - 1) bs ltac:(lia)).
    rewrite i64_id by (apply size_i64; lia).
    split_and!; try done; try lia. intros x Hx. apply Hg. lia.
  - cbn [r_off r_len]. split; [lia|]. intros x Hx. destruct (Z.lt_ge_cases x cur); [apply Hg|apply Hr]; lia.
Qed.

Lemma reader_step_inv m c i q c' :
  inv m c → ck_readers c !! i = Some q → reader_step c i q = Some c' → inv m c'.
Proof using Hbs Hsize Hgeo.
  intros Hi Hq Hst. destruct (r_pc q) as [|cur|cur ce eb sb lb s|cur ce b lb s| |] eqn:Hpc;
    [|by eapply reader_loop_inv| | | |]; revert Hst; unfold reader_step; rewrite Hpc;
    destruct (iv_readers _ _ Hi _ _ Hq) as [Hreq Hr]; rewrite Hpc in Hr; destruct (id Hreq) as (Ho & Hn & Hle & _).
  - destruct (cSlice _ _ _) as [b|[]] eqn:E; intros [= <-]; apply inv_reader; try done; (split; [done|]); cbn; try done.
    + by eapply cSlice_inv.
    + split; [lia|]. intros. lia.
  - destruct Hr as (Hcur & Hg & (x & f & Hs & Hch) & -> & -> & -> & ->).
    pose proof (ge_in _ _ _ Hgeo cur ltac:(lia)) as Hin. rewrite Hs.
    destruct (iv_sessions _ _ Hi _ _ _ Hs) as (_ & Hb & Hgs & _). rewrite <- Hch in *. cbn [fst snd] in *.
    set (re := Z.min (r_off q + r_len q) (chunkOff x + chunkLen x)) in *.
    pose proof (block_of (re - 1) bs ltac:(lia)). pose proof (block_of cur bs ltac:(lia)).
    destruct (Z.leb_spec (Z.min ((re - 1) / bs * bs + bs) (chunkOff x + chunkLen x) - chunkOff x) (bytesReady x));
      intros [= <-]; apply inv_reader; try done; (split; [done|]); cbn [r_pc r_off r_len].
    + split; [lia|]. intros y Hy. destruct (Z.lt_ge_cases y cur); [apply Hg; lia|apply Hgs; lia].
    + pose proof (ge_start _ _ _ Hgeo cur ltac:(lia)) as Hst. rewrite <- Hch in Hst. cbn [fst] in Hst.
      rewrite <- Hch. cbn [fst snd]. fold re.
      assert (cur / bs * bs <= (re - 1) / bs * bs) by (apply Z.mul_le_mono_nonneg_r, Z.div_le_mono; lia).
      split_and!; try done; try lia.
      * by exists x, f.
      * by apply block_start_le; [lia|..|lia].
      * by rewrite Z.mod_mul by lia.
  - destruct Hr as (Hcur & Hg & (x & f & Hs & Hch) & -> & Hb & Hbm & -> & Hgb).
    pose proof (ge_in _ _ _ Hgeo cur ltac:(lia)) as Hin. rewrite Hs.
    set (ce := (chunk_of cur).1 + (chunk_of cur).2) in *. set (re := Z.min (r_off q + r_len q) ce) in *.
    pose proof (block_of (re - 1) bs ltac:(lia)).
    destruct (Z.leb_spec b ((re - 1) / bs * bs)) as [Hble|Hbgt], (Z.leb_spec ce b) as [Hce|Hce]; cbn [andb negb].
    2:{ destruct (registerAndWait c x b) eqn:Ew; [| |done]; intros [= <-]; apply inv_reader; try done; (split; [done|]); try done.
      pose proof (wait_good m c s (x, f) b _ Hi Hs Hch ltac:(lia) Ew) as Hw.
      cbn [r_pc r_off r_len]. rewrite (iv_bs _ _ Hi), i64_id by (apply size_i64; lia). fold ce re.
      split_and!; try done; try lia.
      - by exists x, f.
      - rewrite Z.add_mod, Hbm, Z.mod_same by lia. by rewrite Z.mod_0_l by lia.
      - intros y Hy. destruct (Z.lt_ge_cases y b); [apply Hgb; lia|apply Hw; fold ce; lia]. }
    all: intros [= <-]; apply inv_reader; try done; (split; [done|]); cbn [r_pc r_off r_len];
      split; [lia|]; intros y Hy; (destruct (Z.lt_ge_cases y cur); [apply Hg; lia|apply Hgb]); try lia.
    all: pose proof (next_block ((re - 1) / bs) b Hbm); lia.
  - destruct (sliceDirect _ _ _) as [b|e] eqn:E; intros [= <-]; apply inv_reader; try done; (split; [done|]); cbn; try done.
    by eapply sliceDirect_inv.
  - done.
Qed.

Lemma moves_inv m c c' : inv m c → moves object minReadKB c c' → ∃ m', inv m' c'.
Proof using Hbs Hsize Hgeo Hread.
  intros Hi Hm. destruct Hm as [? i q ? Hq Hs|? ? j s f ? Hj _ Hs]; [exists m; by eapply reader_step_inv|by eapply fetcher_inv].
Qed.

Lemma step_inv m c c' : inv m c → step object minReadKB c c' → ∃ m', inv m' c'.
Proof using Hbs Hsize Hgeo Hread.
  intros Hi Hs. destruct Hs as [? ? Hm|? j s f ? Hj Hs|? i q cur ce b lb s Hq Hpc|? k Hlock Hopen Hcl];
    [by eapply moves_inv|by eapply fetcher_inv| |].
  - exists m. apply inv_reader; [done|done|]. by destruct (iv_readers _ _ Hi _ _ Hq).
  - exists m. unfold cClose in Hcl. destruct (c_mmap (ck_cache c)) eqn:Em; [|injection Hcl as <-; by destruct Hi; split].
    rewrite Hopen in Hcl. injection Hcl as <-. destruct Hi. split; try done.
    unfold with_cache, reopen. cbn. by rewrite <- Em.
Qed.

Lemma steps_inv m c c' : inv m c → rtc (step object minReadKB) c c' → ∃ m', inv m' c'.
Proof using Hbs Hsize Hgeo Hread.
  intros Hi Hr. revert m Hi. induction Hr as [|c c1 c2 Hs Hr IH]; intros m Hi; [by exists m|].
  destruct (step_inv _ _ _ Hi Hs) as [m1 Hi1]. by apply (IH m1).
Qed.

Lemma NewChunker_inv file readers :
  len file = size → Forall (λ '(off, n, ft), request_ok size chunk_of off n ft) readers →
  inv file (NewChunker object bs file readers).
Proof using Hbs Hsize.
  intros Hf Hr.
  assert (Hk : ck_cache (NewChunker object bs file readers) = NewCache size bs file false) by done.
  split; rewrite ?Hk; try done.
  - rewrite <- Hf. apply cache_ok_fresh; cbn [NewCache c_blockSize]; lia.
  - intros x _. unfold NewCache. cbn [c_tracker]. by rewrite Get_New.
  - intros i. unfold NewCache. cbn [c_tracker]. by rewrite Get_New.
  - intros i q Hq. cbn [NewChunker ck_readers ck_sessions] in *.
    apply list_lookup_fmap_Some in Hq as ([[off n] ft] & -> & Hq).
    split; [|done]. by apply (proj1 (Forall_lookup _ _) Hr i (off, n, ft)).
Qed.

(** ** Termination: a cost every step pays *)

Hypothesis Hsmall : size < 2 ^ 62.

Definition fetcher_cost (x : fetchSession * fetcher) : Z :=
  let left_ t := 2 * (chunkLen x.1 - t) in
  match x.2 with
  | FAddress => left_ 0 + 8
  | FOpen => left_ 0 + 7
  | FRead t => left_ t + 6
  | FAdvance t err => left_ t + (if err : bool then 5 else 7)
  | FMark => 4
  | FFinish => 3
  | FSettle _ => 2
  | FRelease => 1
  | FGone => 0
  end.

(** What one chunk can cost a reader: a session, and waiting for its blocks. *)
Definition chunk_cost : Z := 4 * size + 2 * bs + 20.

Definition reader_cost (q : request) : Z :=
  let rest x := Z.max 0 (r_off q + r_len q - x) * chunk_cost in
  match r_pc q with
  | RStart => rest (r_off q) + 3
  | RLoop cur => rest cur + 2
  | RCheck _ ce _ sb lb _ => rest ce + (lb + bs - sb) + 4
  | RWait _ ce b lb _ => rest ce + (lb + bs - b) + 3
  | RDirect => 1
  | RDone _ => 0
  end.

Definition cost (c : Chunker B) : Z :=
  sumZ fetcher_cost (ck_sessions c) + sumZ reader_cost (ck_readers c) +
  (if c_closed (ck_cache c) then 0 else 1).

Lemma rest_nonneg x : 0 <= Z.max 0 x * chunk_cost.
Proof using Hbs Hsize. apply Z.mul_nonneg_nonneg; unfold chunk_cost; lia. Qed.

Lemma session_facts m s f : session_inv m s f →
  0 < chunkLen s <= size ∧
  match f with FRead t | FAdvance t _ => 0 <= t <= chunkLen s | _ => True end.
Proof using Hbs Hsize Hgeo.
  intros ((y & Hy & Hch) & Hr & _ & Hf). pose proof (ge_in _ _ _ Hgeo y Hy) as Hin. rewrite Hch in Hin. cbn in Hin.
  destruct f; split; try done; try lia; naive_solver lia.
Qed.

Lemma fetcher_cost_nonneg m s f : session_inv m s f → 0 <= fetcher_cost (s, f).
Proof using Hbs Hsize Hgeo.
  intros Hs. destruct (session_facts _ _ _ Hs) as [Hl Ht]. destruct f as [| |t|t []| | | | |]; cbn; lia.
Qed.

Lemma check_bounds cur re : 0 <= cur → cur < re → re <= size →
  0 <= cur / bs * bs <= (re - 1) / bs * bs ∧ (re - 1) / bs * bs < size.
Proof using Hbs Hsize.
  intros Hc Hr Hs. pose proof (block_of cur bs ltac:(lia)). pose proof (block_of (re - 1) bs ltac:(lia)).
  assert (cur / bs * bs <= (re - 1) / bs * bs) by (apply Z.mul_le_mono_nonneg_r, Z.div_le_mono; lia).
  assert (0 <= cur / bs) by (apply Z.div_pos; lia).
  pose proof (Z.mul_nonneg_nonneg (cur / bs) bs). lia.
Qed.

Lemma reader_cost_nonneg m l q : reader_inv m l q → 0 <= reader_cost q.
Proof using Hbs Hsize Hgeo.
  intros [(Ho & Hn & Hle & _) Hr]. unfold reader_cost. destruct (r_pc q) as [|cur|cur ce eb sb lb s|cur ce b lb s| |]; try lia.
  - pose proof (rest_nonneg (r_off q + r_len q - r_off q)). lia.
  - pose proof (rest_nonneg (r_off q + r_len q - cur)). lia.
  - pose proof (rest_nonneg (r_off q + r_len q - ce)).
    destruct Hr as (Hcur & _ & _ & Hce & -> & -> & _). pose proof (ge_in _ _ _ Hgeo cur ltac:(lia)).
    pose proof (check_bounds cur (Z.min (r_off q + r_len q) ce) ltac:(lia) ltac:(lia) ltac:(lia)). lia.
  - pose proof (rest_nonneg (r_off q + r_len q - ce)). destruct Hr as (_ & _ & _ & _ & Hb & _). lia.
Qed.

Lemma cost_nonneg m c : inv m c → 0 <= cost c.
Proof using Hbs Hsize Hgeo.
  intros Hi. unfold cost.
  pose proof (sumZ_nonneg fetcher_cost (ck_sessions c) ltac:(intros j [s f] Hj; by eapply fetcher_cost_nonneg, iv_sessions)).
  pose proof (sumZ_nonneg reader_cost (ck_readers c) ltac:(intros i q Hq; by eapply reader_cost_nonneg, iv_readers)).
  destruct (c_closed _); lia.
Qed.

(** A fetcher that moves pays. *)
Lemma fetcher_pays m a c j s f c' :
  inv m c → ck_sessions c !! j = Some (s, f) → fetcher_step object minReadKB a c j s f = Some c' → cost c' < cost c.
Proof using Hbs Hsize Hgeo Hread Hsmall.
  intros Hi Hj. pose proof (iv_sessions _ _ Hi _ _ _ Hj) as Hs. destruct (session_facts _ _ _ Hs) as [Hl Ht].
  pose proof (co_mmap _ _ (iv_cache _ _ Hi)) as Hmm. cbn in Hmm.
  assert (Pay : ∀ s' f' k l, c_closed k = c_closed (ck_cache c) → fetcher_cost (s', f') < fetcher_cost (s, f) →
    Some (mkChunker k (<[j := (s', f')]> (ck_sessions c)) l (ck_readers c)) = Some c' → cost c' < cost c).
  { intros s' f' k l Hk Hc [= <-]. unfold cost. cbn [ck_sessions ck_readers ck_cache]. rewrite Hk.
    rewrite (sumZ_insert _ _ _ _ _ Hj). lia. }
  destruct a as [| |n|]; destruct f as [| |t|t err| | |e| |]; cbn [fetcher_step locked]; try done;
    try (apply Pay; [done|cbn; lia]); try (apply Pay; [done|destruct err; cbn; lia]).
  - rewrite Hmm. destruct (_ || _); apply Pay; try done; cbn; lia.
  - destruct (Z.ltb_spec t (chunkLen s)); [done|]. apply Pay; [done|]. cbn. lia.
  - destruct err; [destruct (_ <=? _)|]; apply Pay; try done; destruct (bytesReady s <? t); cbn; lia.
  - assert (Hb : bs <= readBatch minReadKB c < 2 ^ 62).
    { unfold readBatch. rewrite (iv_bs _ _ Hi). lia. }
    rewrite i64_id by (unfold_int; lia). rewrite Hmm.
    destruct (Z.ltb_spec t (chunkLen s)), (Z.leb_spec 0 n), (Z.leb_spec n (Z.min (t + readBatch minReadKB c) (chunkLen s) - t));
      cbn [andb]; try done.
    apply Pay; [done|]. cbn [fetcher_cost fst snd].
    destruct (Z.ltb_spec n (Z.min (t + readBatch minReadKB c) (chunkLen s) - t)); lia.
Qed.

Lemma getOrCreate_cost m c y c' r :
  inv m c → 0 <= y < size → getOrCreateSession c (chunk_of y).1 (chunk_of y).2 = (c', r) →
  ck_readers c' = ck_readers c ∧ cost c' <= cost c + (match r with None => 0 | Some _ => 2 * size + 8 end).
Proof using Hbs Hsize Hgeo.
  intros Hi Hy. pose proof (ge_in _ _ _ Hgeo y Hy) as Hin. unfold getOrCreateSession.
  destruct (find_session _ _ _ _); [intros [= <- <-]; split; [done|lia]|].
  destruct (isCached _ _ _); intros [= <- <-]; (split; [done|]); [lia|].
  unfold cost. cbn [ck_sessions ck_readers ck_cache]. rewrite sumZ_app. cbn. lia.
Qed.

Ltac pay H := apply H; unfold reader_cost; cbn [r_pc r_off r_len]; lia.

Lemma reader_pays m c i q c' :
  inv m c → ck_readers c !! i = Some q → reader_step c i q = Some c' → cost c' < cost c.
Proof using Hbs Hsize Hgeo.
  intros Hi Hq. destruct (iv_readers _ _ Hi _ _ Hq) as [(Ho & Hn & Hle & Hft) Hr].
  assert (Pay : ∀ c1 pc k, ck_readers c1 = ck_readers c → cost c1 <= cost c + k →
    reader_cost (mkRequest (r_off q) (r_len q) (r_ft q) pc) + k < reader_cost q →
    Some (with_reader c1 i q pc) = Some c' → cost c' < cost c).
  { intros c1 pc k Hrd Hc1 Hc [= <-]. unfold cost in *. cbn [with_reader ck_sessions ck_readers ck_cache].
    rewrite Hrd in *. rewrite (sumZ_insert _ _ _ _ _ Hq). lia. }
  assert (Pay0 : ∀ pc, reader_cost (mkRequest (r_off q) (r_len q) (r_ft q) pc) < reader_cost q →
    Some (with_reader c i q pc) = Some c' → cost c' < cost c).
  { intros pc Hc. apply (Pay c pc 0); [done|lia|lia]. }
  assert (Rest : ∀ x, 0 <= Z.max 0 (r_off q + r_len q - x) * chunk_cost) by (intros; apply rest_nonneg).
  pose proof (reader_cost_nonneg _ _ _ (conj (conj Ho (conj Hn (conj Hle Hft))) Hr)) as Hq0.
  revert Pay0 Pay Hq0. unfold reader_cost at 2 4 5, reader_step.
  destruct (r_pc q) as [|cur|cur ce eb sb lb s|cur ce b lb s| |] eqn:Hpc; intros Pay0 Pay Hq0.
  - pose proof (Rest (r_off q)). destruct (cSlice _ _ _) as [b|[]]; pay Pay0.
  - pose proof (Rest cur). rewrite (i64_id (r_off q + r_len q)) by (apply size_i64; lia).
    destruct (Z.ltb_spec cur (r_off q + r_len q)); [|pay Pay0]. destruct Hr as [Hcur _].
    rewrite (iv_size _ _ Hi), (iv_bs _ _ Hi). destruct (locateChunk _ _ _) as [[co cl]|e] eqn:El; [|pay Pay0].
    specialize (Hft cur (co, cl) ltac:(lia) El). pose proof (ge_in _ _ _ Hgeo cur ltac:(lia)) as Hin.
    destruct (getOrCreateSession c co cl) as [c1 r] eqn:Eg.
    destruct (getOrCreate_cost m c cur c1 r Hi ltac:(lia)) as [Hrd Hc1]; [by rewrite <- Hft|].
    rewrite <- Hft in Hin. cbn [fst snd] in Hin. rewrite (i64_id (co + cl)) by (apply size_i64; lia).
    assert (Hrest : Z.max 0 (r_off q + r_len q - (co + cl)) * chunk_cost + chunk_cost <=
                    Z.max 0 (r_off q + r_len q - cur) * chunk_cost).
    { assert (0 < chunk_cost) by (unfold chunk_cost; lia).
      replace (_ + chunk_cost) with ((Z.max 0 (r_off q + r_len q - (co + cl)) + 1) * chunk_cost) by ring.
      apply Z.mul_le_mono_nonneg_r; lia. }
    destruct r as [s|]; apply (Pay c1 _ _ Hrd Hc1); unfold reader_cost; cbn [r_pc r_off r_len].
    + rewrite i64_id by (apply size_i64; lia). rewrite !block_quot by lia.
      replace (cur + (Z.min (r_off q + r_len q) (co + cl) - cur) - 1) with (Z.min (r_off q + r_len q) (co + cl) - 1) by lia.
      pose proof (check_bounds cur (Z.min (r_off q + r_len q) (co + cl)) ltac:(lia) ltac:(lia) ltac:(lia)).
      unfold chunk_cost in *. lia.
    + unfold chunk_cost in *. lia.
  - pose proof (Rest ce). destruct Hr as (Hcur & _ & _ & Hce & -> & -> & _). pose proof (ge_in _ _ _ Hgeo cur ltac:(lia)).
    pose proof (check_bounds cur (Z.min (r_off q + r_len q) ce) ltac:(lia) ltac:(lia) ltac:(lia)).
    destruct (ck_sessions c !! s) as [[x f]|]; [|done]. destruct (Z.leb eb (bytesReady x)); pay Pay0.
  - pose proof (Rest ce). destruct Hr as (Hcur & _ & _ & Hce & Hb & _ & Hlb & _). pose proof (ge_in _ _ _ Hgeo cur ltac:(lia)).
    pose proof (check_bounds cur (Z.min (r_off q + r_len q) ce) ltac:(lia) ltac:(lia) ltac:(lia)).
    destruct (Z.leb_spec b lb); cbn [andb]; [|pay Pay0].
    destruct (negb _); [|pay Pay0]. destruct (ck_sessions c !! s) as [[x f]|]; [|done].
    destruct (registerAndWait _ _ _); [|pay Pay0|done].
    rewrite (iv_bs _ _ Hi), i64_id by (apply size_i64; lia). pay Pay0.
  - destruct (sliceDirect _ _ _); pay Pay0.
  - done.
Qed.

Lemma step_pays m c c' : inv m c → step object minReadKB c c' → cost c' < cost c.
Proof using Hbs Hsize Hgeo Hread Hsmall.
  intros Hi Hs. destruct Hs as [c c' Hm|c j s f c' Hj Hs|c i q cur ce b lb s Hq Hpc|c k Hlock Hopen Hcl].
  - destruct Hm as [c i q c' Hq Hs|a c j s f c' Hj _ Hs]; [by eapply reader_pays|by eapply fetcher_pays].
  - by eapply fetcher_pays.
  - pose proof (reader_cost_nonneg _ _ _ (iv_readers _ _ Hi _ _ Hq)) as Hn.
    pose proof (rest_nonneg (r_off q + r_len q - ce)). destruct (iv_readers _ _ Hi _ _ Hq) as [_ Hr]. rewrite Hpc in Hr.
    destruct Hr as (_ & _ & _ & _ & Hb & _). unfold cost. cbn [with_reader ck_sessions ck_readers ck_cache].
    rewrite (sumZ_insert _ _ _ _ _ Hq). unfold reader_cost at 2 3. rewrite Hpc. cbn [r_pc]. lia.
  - pose proof (co_mmap _ _ (iv_cache _ _ Hi)) as Hmm. cbn in Hmm. unfold cClose in Hcl. rewrite Hmm, Hopen in Hcl.
    injection Hcl as <-. unfold cost. cbn. rewrite Hopen. lia.
Qed.

Lemma steps_bounded n c c' m :
  inv m c → nsteps (step object minReadKB) n c c' → Z.of_nat n + cost c' <= cost c.
Proof using Hbs Hsize Hgeo Hread Hsmall.
  intros Hi Hr. revert m Hi. induction Hr as [c|n c c1 c2 Hs Hr IH]; intros m Hi; [lia|].
  destruct (step_inv _ _ _ Hi Hs) as [m1 Hi1]. specialize (IH _ Hi1). pose proof (step_pays _ _ _ Hi Hs). lia.
Qed.

(** ** Progress *)

Definition returned (q : request) : bool := match r_pc q with RDone _ => true | _ => false end.

Lemma fetcher_moves m c j s f :
  inv m c → ck_sessions c !! j = Some (s, f) → done_ s = false → ∃ c', moves object minReadKB c c'.
Proof using Hbs Hsize Hgeo Hread Hsmall.
  intros Hi Hj Hd. pose proof (iv_sessions _ _ Hi _ _ _ Hj) as Hs. destruct (session_facts _ _ _ Hs) as [Hl Ht].
  pose proof (co_mmap _ _ (iv_cache _ _ Hi)) as Hmm. cbn in Hmm.
  assert (Go : ∀ a, a ≠ Panics → is_Some (fetcher_step object minReadKB a c j s f) →
    ∃ c', moves object minReadKB c c').
  { intros a Ha [c' Hc']. exists c'. by eapply mv_fetcher. }
  destruct Hs as (_ & _ & _ & Hf).
  destruct f as [| |t|t err| | |e| |]; try (apply (Go Proceed); [done|cbn; by eexists]); try congruence.
  - apply (Go Proceed); [done|]. cbn. rewrite Hmm. destruct (_ || _); by eexists.
  - destruct (Z.lt_ge_cases t (chunkLen s)) as [Hlt|Hge].
    + assert (Hb : bs <= readBatch minReadKB c < 2 ^ 62) by (unfold readBatch; rewrite (iv_bs _ _ Hi); lia).
      set (n := Z.min (t + readBatch minReadKB c) (chunkLen s) - t).
      apply (Go (Delivers n)); [done|]. cbn. rewrite i64_id by (unfold_int; lia). rewrite Hmm.
      fold n. destruct (Z.ltb_spec t (chunkLen s)), (Z.leb_spec 0 n), (Z.leb_spec n n);
        try (unfold n in *; lia). by eexists.
    + apply (Go Proceed); [done|]. cbn. destruct (Z.ltb_spec t (chunkLen s)); [lia|]. by eexists.
  - apply (Go Proceed); [done|]. cbn. destruct err; [|by eexists]. destruct (_ <=? t); by eexists.
Qed.

Lemma reader_moves m c i q :
  inv m c → ck_readers c !! i = Some q → returned q = false → ∃ c', moves object minReadKB c c'.
Proof using Hbs Hsize Hgeo Hread Hsmall.
  intros Hi Hq Hret. destruct (iv_readers _ _ Hi _ _ Hq) as [_ Hr].
  assert (Go : is_Some (reader_step c i q) → ∃ c', moves object minReadKB c c').
  { intros [c' Hc']. exists c'. by eapply mv_reader. }
  unfold returned in Hret. unfold reader_step in Go.
  destruct (r_pc q) as [|cur|cur ce eb sb lb s|cur ce b lb s| |] eqn:Hpc; try done.
  - apply Go. destruct (cSlice _ _ _) as [b|[]]; by eexists.
  - apply Go. destruct (_ <? _); [|by eexists]. destruct (locateChunk _ _ _) as [[co cl]|e]; [|by eexists].
    destruct (getOrCreateSession _ _ _) as [c1 [s|]]; by eexists.
  - destruct Hr as (_ & _ & (x & f & Hs & _) & _). apply Go. rewrite Hs. destruct (Z.leb eb (bytesReady x)); by eexists.
  - destruct Hr as (_ & _ & (x & f & Hs & _) & _). rewrite Hs in Go. destruct (_ && _); [|apply Go; by eexists].
    destruct (registerAndWait c x b) eqn:Ew; [apply Go; by eexists..|].
    apply (fetcher_moves _ _ _ _ _ Hi Hs). unfold registerAndWait in Ew. destruct (done_ x); [|done].
    repeat case_match; done.
  - apply Go. destruct (sliceDirect _ _ _); by eexists.
Qed.
End invariant.

(** An object cut every [fs] bytes. *)
Definition even_chunk (fs size x : Z) : Z * Z := (x / fs * fs, Z.min fs (size - x / fs * fs)).

Lemma even_chunk_geometry fs bs size : 0 < fs → 0 < bs → (bs | fs) → geometry bs size (even_chunk fs size).
Proof.
  intros Hpos Hbs [k Hk].
  assert (Hm : ∀ i, (i * fs) mod bs = 0).
  { intros i. rewrite Hk, Z.mul_assoc. by apply Z.mod_mul, Z.neq_sym, Z.lt_neq. }
  split; cbn [even_chunk fst snd]; intros x.
  - intros Hx. pose proof (block_of x fs Hpos).
    pose proof (Z.mul_nonneg_nonneg (x / fs) fs ltac:(apply Z.div_pos; lia) ltac:(lia)). lia.
  - intros _. apply Hm.
  - intros Hx. destruct (Z.le_gt_cases fs (size - x / fs * fs)); [left|right; lia].
    rewrite Z.min_l by lia. replace (_ + fs) with ((x / fs + 1) * fs) by ring. apply Hm.
  - intros y Hx Hy. assert (y / fs = x / fs) as E; [|unfold even_chunk; by rewrite E].
    symmetry. apply (Z.div_unique_pos y fs _ (y - x / fs * fs)); lia.
Qed.

(** The pieces of an uncompressed object: blocks divide the chunk size. *)
Definition memory_chunk : Z → Z → Z * Z := even_chunk MemoryChunkSize.

Lemma memory_chunk_geometry bs size : 0 < bs → (bs | MemoryChunkSize) → geometry bs size (memory_chunk size).
Proof. apply even_chunk_geometry. unfold MemoryChunkSize. lia. Qed.

Lemma request_uncompressed size off n ft :
  0 <= off → 0 < n → off + n <= size → IsCompressed ft = false → request_ok size (memory_chunk size) off n ft.
Proof.
  intros Ho Hn Hle Hft. split_and!; try done. intros x r Hx. unfold locateChunk. rewrite Hft.
  intros [= <-]. unfold memory_chunk, even_chunk. by rewrite Z.quot_div_nonneg by (unfold MemoryChunkSize; lia).
Qed.

(** ** Properties *)

(** A schedule, to run concrete interleavings: which reader moves, or which
    session and with what answer. *)
Inductive turn := Reader (i : nat) | Fetch (j : nat) (a : answer).

Definition take_turn `{Bitmap B} (object : bytes) (minReadKB : Z) (t : turn) (c : Chunker B) : option (Chunker B) :=
  match t with
  | Reader i => q ← ck_readers c !! i; reader_step c i q
  | Fetch j Panics => None
  | Fetch j a => '(s, f) ← ck_sessions c !! j; fetcher_step object minReadKB a c j s f
  end.

Fixpoint run_turns `{Bitmap B} (object : bytes) (minReadKB : Z) (ts : list turn) (c : Chunker B) : option (Chunker B) :=
  match ts with
  | [] => Some c
  | t :: ts => c ← take_turn object minReadKB t c; run_turns object minReadKB ts c
  end.

Lemma run_turns_moves `{Bitmap B} object minReadKB ts c c' :
  run_turns object minReadKB ts c = Some c' → rtc (moves object minReadKB) c c'.
Proof.
  revert c. induction ts as [|t ts IH]; intros c; cbn [run_turns]; [intros [= <-]; constructor|].
  intros (c1 & Ht & Hr)%bind_Some. eapply rtc_l; [|by apply IH].
  destruct t as [i|j a]; cbn in Ht.
  - apply bind_Some in Ht as (q & Hq & Hs). by eapply mv_reader.
  - destruct a; try done; apply bind_Some in Ht as ([s f] & Hj & Hs); (eapply mv_fetcher; [exact Hj| |exact Hs]; discriminate).
Qed.

(** C23. Concurrent readers of one object see its bytes: when every reader
    locates chunks the same way (one partition of the object at block
    boundaries, see [geometry]), then in every state any interleaving of
    readers, fetches, failures, panics, cancellations and a close can reach, a
    [Slice] that has returned without error has returned the bytes of the
    object for its range. *)
Theorem Slice_serves_object `{Bitmap B} object minReadKB bs chunk_of file readers (c : Chunker B) i q b :
  0 < bs < 2 ^ 31 → 0 < len object <= bs * (2 ^ 32 - 1) → minReadKB * 1024 < 2 ^ 62 →
  geometry bs (len object) chunk_of → len file = len object →
  Forall (λ '(off, n, ft), request_ok (len object) chunk_of off n ft) readers →
  rtc (step object minReadKB) (NewChunker object bs file readers) c →
  ck_readers c !! i = Some q → r_pc q = RDone (Ok b) →
  b = slice (r_off q) (r_off q + r_len q) object.
Proof.
  intros Hbs Hsize Hread Hgeo Hfile Hreq Hsteps Hq Hpc.
  destruct (steps_inv object minReadKB bs chunk_of Hbs Hsize Hgeo Hread file _ c
    (NewChunker_inv object bs chunk_of Hbs Hsize file readers Hfile Hreq) Hsteps) as [m Hi].
  destruct (iv_readers _ _ _ _ _ Hi _ _ Hq) as [_ Hr]. by rewrite Hpc in Hr.
Qed.

(** C24. No reader waits forever: when every reader locates chunks the same way
    ([geometry]), every execution ends within a number of
    steps fixed by the readers and the size of the object, however the
    environment behaves, and a state where neither a reader nor a fetch can
    move (panics and cancellations not counted) is one where every [Slice] has
    returned. *)
Theorem Slice_terminates `{Bitmap B} object minReadKB bs chunk_of file readers :
  0 < bs < 2 ^ 31 → 0 < len object <= bs * (2 ^ 32 - 1) → minReadKB * 1024 < 2 ^ 62 → len object < 2 ^ 62 →
  geometry bs (len object) chunk_of → len file = len object →
  Forall (λ '(off, n, ft), request_ok (len object) chunk_of off n ft) readers →
  let c0 := NewChunker (B:=B) object bs file readers in
  (∀ n c, nsteps (step object minReadKB) n c0 c → Z.of_nat n <= cost object bs c0) ∧
  (∀ c, rtc (step object minReadKB) c0 c → (¬ ∃ c', moves object minReadKB c c') →
    Forall (λ q, returned q = true) (ck_readers c)).
Proof.
  intros Hbs Hsize Hread Hsmall Hgeo Hfile Hreq c0.
  pose proof (NewChunker_inv (B:=B) object bs chunk_of Hbs Hsize file readers Hfile Hreq) as Hi0. fold c0 in Hi0. split.
  - intros n c Hn. pose proof (steps_bounded object minReadKB bs chunk_of Hbs Hsize Hgeo Hread Hsmall n c0 c file Hi0 Hn).
    assert (∃ m, inv object bs chunk_of m c) as [m Hi].
    { eapply steps_inv; try done. by eapply rtc_nsteps_2. }
    pose proof (cost_nonneg object bs chunk_of Hbs Hsize Hgeo m c Hi). lia.
  - intros c Hr Hstuck. destruct (steps_inv object minReadKB bs chunk_of Hbs Hsize Hgeo Hread file c0 c Hi0 Hr) as [m Hi].
    apply Forall_lookup. intros i q Hq. destruct (returned q) eqn:E; [done|]. destruct Hstuck.
    by eapply (reader_moves object minReadKB bs chunk_of).
Qed.

Definition chunk_object : bytes := fill 4096 5 ++ fill 4096 7.

(** Two readers of an uncompressed object of two blocks; the second finds the
    session of the first. *)
Definition two_readers : list (Z * Z * option FrameTable) := [(0, 4096, None); (4096, 4096, None)].
Definition two_turns : list turn :=
  [Reader 0; Reader 0; Reader 1; Fetch 0 Proceed; Fetch 0 Proceed; Fetch 0 (Delivers 4096); Fetch 0 Proceed;
   Reader 1; Reader 1; Reader 0; Reader 0; Reader 0; Fetch 0 (Delivers 4096); Fetch 0 Proceed; Reader 1; Reader 1;
   Reader 1; Reader 1]%nat.

Definition reader_answer {B} (c : option (Chunker B)) (i : nat) : option reader :=
  c ← c; r_pc <$> ck_readers c !! i.

Lemma len_chunk_object : len chunk_object = 8192.
Proof. unfold chunk_object. rewrite len_app, !len_fill by lia. lia. Qed.

Lemma chunk_object_setting :
  (0 < 4096 < 2 ^ 31) ∧ 0 < len chunk_object <= 4096 * (2 ^ 32 - 1) ∧ 0 * 1024 < 2 ^ 62 ∧
  geometry 4096 (len chunk_object) (memory_chunk (len chunk_object)) ∧
  len (fill 8192 0) = len chunk_object ∧
  Forall (λ '(off, n, ft), request_ok (len chunk_object) (memory_chunk (len chunk_object)) off n ft) two_readers.
Proof.
  rewrite len_chunk_object, len_fill by lia. split_and!; try lia; [by apply memory_chunk_geometry; [lia|exists 1024]|].
  unfold two_readers. rewrite !Forall_cons. split_and!; [| |constructor]; apply request_uncompressed; lia || done.
Qed.

Lemma Slice_serves_object_witness :
  ∃ (c : Chunker (gset Z)) q b,
    rtc (step chunk_object 0) (NewChunker chunk_object 4096 (fill 8192 0) two_readers) c ∧
    ck_readers c !! 1%nat = Some q ∧ r_pc q = RDone (Ok b) ∧ b = slice (r_off q) (r_off q + r_len q) chunk_object.
Proof.
  destruct (run_turns chunk_object 0 two_turns (NewChunker (B:=gset Z) chunk_object 4096 (fill 8192 0) two_readers))
    as [c|] eqn:E.
  2:{ exfalso. assert (is_Some (run_turns chunk_object 0 two_turns
        (NewChunker (B:=gset Z) chunk_object 4096 (fill 8192 0) two_readers))) as [? Hs]; [|congruence].
      apply (bool_decide_unpack _). vm_compute. exact I. }
  assert (Ha : match reader_answer (run_turns chunk_object 0 two_turns
                 (NewChunker (B:=gset Z) chunk_object 4096 (fill 8192 0) two_readers)) 1 with
               | Some (RDone (Ok _)) => True | _ => False end) by (vm_compute; exact I).
  rewrite E in Ha. apply run_turns_moves in E.
  assert (Hr : rtc (step chunk_object 0) (NewChunker chunk_object 4096 (fill 8192 0) two_readers) c).
  { eapply (rtc_congruence id); [|exact E]. intros x y Hm. by apply st_moves. }
  clear E. unfold reader_answer in Ha. cbn in Ha. destruct (ck_readers c !! 1%nat) as [q|] eqn:Hq; [|done]. cbn in Ha.
  destruct (r_pc q) as [| | | | |[b|]] eqn:Hpc; try done. exists c, q, b.
  split_and!; [exact Hr|exact Hq|exact Hpc|].
  destruct chunk_object_setting as (H1 & H2 & H3 & H4 & H5 & H6).
  by apply (Slice_serves_object chunk_object 0 4096 (memory_chunk (len chunk_object)) (fill 8192 0) two_readers c 1).
Defined.

(** The first turn of that run is an execution the bound is about. *)
Lemma two_turns_run : ∃ n (c : Chunker (gset Z)),
  nsteps (step chunk_object 0) n (NewChunker chunk_object 4096 (fill 8192 0) two_readers) c ∧ (0 < n)%nat.
Proof.
  assert (Hm : rtc (moves chunk_object 0) (NewChunker (B:=gset Z) chunk_object 4096 (fill 8192 0) two_readers)
    (default (NewChunker (B:=gset Z) chunk_object 4096 (fill 8192 0) two_readers)
       (run_turns chunk_object 0 [Reader 0] (NewChunker (B:=gset Z) chunk_object 4096 (fill 8192 0) two_readers)))).
  { apply (run_turns_moves chunk_object 0 [Reader 0]). vm_compute. reflexivity. }
  apply rtc_inv in Hm as [Heq|(c & Hc & _)]; [exfalso; revert Heq; vm_compute; discriminate|].
  exists 1%nat, c. split; [|lia]. apply nsteps_once. by apply st_moves.
Qed.

Lemma Slice_terminates_witness :
  ∃ n (c : Chunker (gset Z)),
    nsteps (step chunk_object 0) n (NewChunker chunk_object 4096 (fill 8192 0) two_readers) c ∧ (0 < n)%nat ∧
    Z.of_nat n <= cost chunk_object 4096 (NewChunker (B:=gset Z) chunk_object 4096 (fill 8192 0) two_readers).
Proof.
  destruct two_turns_run as (n & c & Hn & Hpos). exists n, c. split; [exact Hn|]. split; [exact Hpos|].
  destruct chunk_object_setting as (H1 & H2 & H3 & H4 & H5 & H6).
  apply (Slice_terminates (B:=gset Z) chunk_object 0 4096 (memory_chunk (len chunk_object)) (fill 8192 0) two_readers)
    with c; done.
Defined.

(** Two readers that cut the object differently: a 4 MiB piece of an
    uncompressed upstream, and frames of 4096 bytes. *)
Definition half_frames : FrameTable := mkFT CompressionLZ4 [mkFrame 0 0 4096 100; mkFrame 4096 100 4096 100].
Definition mixed_readers : list (Z * Z * option FrameTable) :=
  [(0, 4096, Some UncompressedFrameTable); (4096, 4096, Some half_frames)].
Definition mixed_turns : list turn :=
  [Reader 0; Reader 0; Fetch 0 Proceed; Fetch 0 Proceed; Fetch 0 (Delivers 4096); Fetch 0 Proceed;
   Reader 1; Reader 1; Reader 1; Reader 1; Reader 1]%nat.

(** When the frame table changes while a fetch is in flight (a peer that
    served the object uncompressed hands over to compressed storage), [fetch]
    compares the progress of a session that starts earlier than the reader's
    chunk with an offset counted from the reader's chunk.  A reader then takes
    bytes for fetched that are not: here it returns zeros where the object
    holds sevens, without error, with no failure of any kind. *)
Theorem mixed_tables_serve_unfetched :
  ∃ (c : Chunker (gset Z)) q,
    rtc (moves chunk_object 0) (NewChunker chunk_object 4096 (fill 8192 0) mixed_readers) c ∧
    ck_readers c !! 1%nat = Some q ∧ r_off q = 4096 ∧ r_len q = 4096 ∧ r_pc q = RDone (Ok (fill 4096 0)) ∧
    slice 4096 8192 chunk_object = fill 4096 7.
Proof.
  assert (Ha : (λ c, (λ q, (r_off q, r_len q, match r_pc q with RDone (Ok b) => b | _ => [] end)) <$> (c ← c; ck_readers c !! 1%nat))
    (run_turns chunk_object 0 mixed_turns (NewChunker (B:=gset Z) chunk_object 4096 (fill 8192 0) mixed_readers)) =
    Some (4096, 4096, fill 4096 0)) by (vm_compute; reflexivity).
  destruct (run_turns _ _ _ _) as [c|] eqn:E; [|done]. apply run_turns_moves in E. cbn in Ha. exists c.
  revert E. generalize (NewChunker (B:=gset Z) chunk_object 4096 (fill 8192 0) mixed_readers). intros c0 E.
  destruct (ck_readers c !! 1%nat) as [q|]; [|done]. exists q. cbn [fmap option_fmap option_map] in Ha.
  assert (Hs : slice 4096 8192 chunk_object = fill 4096 7) by (vm_compute; reflexivity).
  assert (Hz : fill 4096 0 ≠ []) by (unfold fill; done). revert Ha Hs Hz.
  generalize (fill 4096 0), (fill 4096 7), (slice 4096 8192 chunk_object). intros z s7 s8 [= Ho Hl Hb] -> Hz.
  split_and!; try done. destruct (r_pc q) as [| | | | |[b|]]; congruence.
Qed.
