(* ===== verification/SetOnce.v ===== *)
(** * SetOnce: a cell that is set once

    Models [shared/pkg/utils/set_once.go] and [error_once.go]: the goroutine
    that owns a cell sets its result, the first result stays, and everyone who
    waits gets it. *)

From S2P Require Import Prelude.

(** The cell: its result once it is set. *)
Notation SetOnce E A := (option (result E A)).

Definition NewSetOnce {E A} : SetOnce E A := None.

(** [setResult]: the cell afterwards. *)
Definition setResult {E A} (c : SetOnce E A) (r : result E A) : SetOnce E A :=
  match c with Some r => Some r | None => Some r end.

(** Whether the call was the one that set it: [ErrAlreadySet] otherwise. *)
Definition setResult_ok {E A} (c : SetOnce E A) : bool :=
  match c with Some _ => false | None => true end.

Lemma setResult_stays {E A} (c : SetOnce E A) r r' : c = Some r → setResult c r' = Some r.
Proof. by intros ->. Qed.
