(* ===== verification/Lifecycle.v ===== *)
(** * Lifecycle: the states of a sandbox in the API

    Models [api/internal/sandbox]: the states and actions of [states.go] and
    the in-memory store of [storage/memory] ([operations.go], [sandbox.go],
    [sync.go]), with the one-shot error cell [utils.ErrorOnce] it uses to let
    callers wait for a transition.

    [startRemoving] is the hard part: any number of callers pause, kill,
    snapshot or evict the same sandbox at once.  A caller either owns the new
    transition (it gets the callback that ends it), waits for the one in
    progress and tries again, or is refused.  The sandbox's lock makes each
    critical section one step; [life_step] interleaves the callers, the
    callbacks, keep-alives and reconciliation.  Time is the value of
    [time.Now()] at a step, nanoseconds as a [Z]. *)

From stdpp Require Import relations.
From S2P Require Import Prelude.

(** ** [states.go] *)

Inductive State := StateRunning | StatePausing | StateKilling | StateSnapshotting.

#[global] Instance State_eq_dec : EqDecision State.
Proof. solve_decision. Defined.

Inductive TransitionEffect := TransitionExpires | TransitionTransient.

Record StateAction := mkAction { TargetState : State; Effect : TransitionEffect }.

Definition StateActionPause : StateAction := mkAction StatePausing TransitionExpires.
Definition StateActionKill : StateAction := mkAction StateKilling TransitionExpires.
Definition StateActionSnapshot : StateAction := mkAction StateSnapshotting TransitionTransient.

Record RemoveOpts := mkOpts { Action : StateAction; Eviction : bool }.

Definition AllowedTransitions (from to : State) : bool :=
  match from, to with
  | StateRunning, (StatePausing | StateKilling | StateSnapshotting) => true
  | StatePausing, StateKilling => true
  | StateSnapshotting, (StateRunning | StateKilling | StatePausing) => true
  | _, _ => false
  end.

(** ** The data *)

(** The fields the store reads; the others are carried along in [Rest]. *)
Record Sandbox (R : Type) := mkSandbox {
  SandboxID : string;
  TeamID : string;
  NodeID : string;
  StartTime : Z;
  EndTime : Z;
  MaxInstanceLength : Z;
  AutoPause : bool;
  St : State;
  Rest : R
}.
Arguments mkSandbox {R} _ _ _ _ _ _ _ _ _.
Arguments SandboxID {R} _.
Arguments TeamID {R} _.
Arguments NodeID {R} _.
Arguments StartTime {R} _.
Arguments EndTime {R} _.
Arguments MaxInstanceLength {R} _.
Arguments AutoPause {R} _.
Arguments St {R} _.
Arguments Rest {R} _.

Definition IsExpired {R} (s : Sandbox R) (now : Z) : bool := EndTime s <? now.

Definition with_state {R} (s : Sandbox R) (st : State) : Sandbox R :=
  mkSandbox (SandboxID s) (TeamID s) (NodeID s) (StartTime s) (EndTime s) (MaxInstanceLength s) (AutoPause s) st (Rest s).
Definition with_end {R} (s : Sandbox R) (e : Z) : Sandbox R :=
  mkSandbox (SandboxID s) (TeamID s) (NodeID s) (StartTime s) e (MaxInstanceLength s) (AutoPause s) (St s) (Rest s).

(** [*utils.ErrorOnce]: a cell on the heap, unset or set to an error or nil. *)
Record memorySandbox (R : Type) := mkItem { _data : Sandbox R; transition : option nat }.
Arguments mkItem {R} _ _.
Arguments _data {R} _.
Arguments transition {R} _.

Definition setExpired {R} (now : Z) (i : memorySandbox R) : memorySandbox R :=
  if IsExpired (_data i) now then i else mkItem (with_end (_data i) now) (transition i).

Section remove.
Context {R E : Type}.
Notation item := (memorySandbox R).
Notation cell := (option (option E)).

(** [SetError]: the first call sets the cell, a later one is an error that
    the callback only logs. *)
Definition SetError (c : cell) (err : option E) : cell :=
  match c with None => Some err | Some r => Some r end.

Inductive remove_err :=
| EvictionInProgress
| EvictionNotNeeded
| InvalidStateTransition (current target : State)
| FailedState (e : E)
| ContextDone
| Unexpected.

(** What the critical section of [startRemoving] decides. *)
Inductive entered :=
| Refused (e : remove_err)
| AlreadyDone
| Waiting (t : nat) (current : State)
| Owning (i : item).

(** [fresh] is the address of the cell [utils.NewErrorOnce()] allocates. *)
Definition startRemoving (now : Z) (opts : RemoveOpts) (fresh : nat) (sbx : item) : entered :=
  let newState := TargetState (Action opts) in
  let currentState := St (_data sbx) in
  match transition sbx with
  | Some t =>
      if Eviction opts then Refused EvictionInProgress
      else if negb (bool_decide (currentState = newState)) && negb (AllowedTransitions currentState newState)
      then Refused (InvalidStateTransition currentState newState)
      else Waiting t currentState
  | None =>
      if Eviction opts && negb (IsExpired (_data sbx) now) then Refused EvictionNotNeeded
      else if bool_decide (currentState = newState) then AlreadyDone
      else if negb (AllowedTransitions currentState newState)
      then Refused (InvalidStateTransition currentState newState)
      else
        let sbx := match Effect (Action opts) with TransitionExpires => setExpired now sbx | TransitionTransient => sbx end in
        Owning (mkItem (with_state (_data sbx) newState) (Some fresh))
  end.

(** After [WaitWithContext]: the error of the transition, or another try. *)
Definition after_wait (opts : RemoveOpts) (currentState : State) (err : option E) : entered + RemoveOpts :=
  let newState := TargetState (Action opts) in
  match err with
  | Some e => inl (Refused (FailedState e))
  | None =>
      if bool_decide (currentState = newState) then inl AlreadyDone
      else if AllowedTransitions currentState newState then inr (mkOpts (Action opts) false)
      else inl (Refused Unexpected)
  end.

(** The callback the owner calls with the result of its work; [None] is the
    panic of [SetError] on a nil transition. *)
Definition callback (a : StateAction) (err : option E) (cells : list cell) (sbx : item)
    : option (list cell * item) :=
  let newState := TargetState a in
  let '(d, err) :=
    match Effect a with
    | TransitionTransient =>
        (match err with
         | None => if bool_decide (St (_data sbx) = newState) then with_state (_data sbx) StateRunning else _data sbx
         | Some _ => _data sbx
         end, None)
    | TransitionExpires => (_data sbx, err)
    end in
  t ← transition sbx;
  Some (alter (λ c, SetError c err) t cells, mkItem d (match err with Some _ => Some t | None => None end)).

(** ** Callers *)

Inductive outcome := Gone (e : remove_err) | Done | Completed.

Inductive caller :=
| Calling (o : RemoveOpts)                               (** before the lock *)
| Parked (o : RemoveOpts) (t : nat) (current : State)    (** waiting on cell [t] *)
| Holding (a : StateAction)                              (** has the callback *)
| Returned (r : outcome).

Record life := mkLife { sbx : item; cells : list cell; callers : list caller }.

Definition settle (e : entered) (o : RemoveOpts) : caller :=
  match e with
  | Refused e => Returned (Gone e)
  | AlreadyDone => Returned Done
  | Waiting t st => Parked o t st
  | Owning _ => Holding (Action o)
  end.

Inductive life_move : life → life → Prop :=
| lm_call l i o now e :
    callers l !! i = Some (Calling o) → startRemoving now o (length (cells l)) (sbx l) = e →
    life_move l (mkLife (match e with Owning s => s | _ => sbx l end)
                        (match e with Owning _ => cells l ++ [None] | _ => cells l end)
                        (<[i := settle e o]> (callers l)))
| lm_wake l i o t st err :
    callers l !! i = Some (Parked o t st) → cells l !! t = Some (Some err) →
    life_move l (mkLife (sbx l) (cells l)
                   (<[i := match after_wait o st err with inl e => settle e o | inr o' => Calling o' end]> (callers l)))
| lm_finish l i a err cs s :
    callers l !! i = Some (Holding a) → callback a err (cells l) (sbx l) = Some (cs, s) →
    life_move l (mkLife s cs (<[i := Returned Completed]> (callers l))).

(** Other requests: a waiting caller gives up, a keep-alive or another update
    that leaves the state alone (all of them do), [Reconcile]'s [SetExpired]. *)
Inductive life_step : life → life → Prop :=
| ls_move l l' : life_move l l' → life_step l l'
| ls_cancel l i o t st :
    callers l !! i = Some (Parked o t st) →
    life_step l (mkLife (sbx l) (cells l) (<[i := Returned (Gone ContextDone)]> (callers l)))
| ls_update l d :
    St d = St (_data (sbx l)) → life_step l (mkLife (mkItem d (transition (sbx l))) (cells l) (callers l))
| ls_expire l now : life_step l (mkLife (setExpired now (sbx l)) (cells l) (callers l)).
End remove.

(** ** The invariant *)

Section invariant.
Context {R E : Type}.
Notation life := (life (R:=R) (E:=E)).
Notation caller := (caller (E:=E)).

Definition action_ok (a : StateAction) : Prop :=
  a = StateActionPause ∨ a = StateActionKill ∨ a = StateActionSnapshot.

Definition caller_action (c : caller) : option StateAction :=
  match c with
  | Calling o | Parked o _ _ => Some (Action o)
  | Holding a => Some a
  | Returned _ => None
  end.

Definition is_holding (c : caller) : Prop := match c with Holding _ => True | _ => False end.

Record life_inv (l : life) : Prop := {
  li_actions i c a : callers l !! i = Some c → caller_action c = Some a → action_ok a;
  li_hold i a : callers l !! i = Some (Holding a) →
    St (_data (sbx l)) = TargetState a ∧ ∃ t, transition (sbx l) = Some t ∧ cells l !! t = Some None;
  li_unique i j a b : callers l !! i = Some (Holding a) → callers l !! j = Some (Holding b) → i = j;
  li_unset t : cells l !! t = Some None →
    transition (sbx l) = Some t ∧ ∃ i a, callers l !! i = Some (Holding a);
  li_trans t : transition (sbx l) = Some t → cells l !! t = Some None ∨ ∃ e, cells l !! t = Some (Some (Some e));
  li_parked i o t st : callers l !! i = Some (Parked o t st) → is_Some (cells l !! t)
}.

(** The caller at [i] changes, and neither owned nor owns. *)
Lemma inv_caller l s i c c' :
  life_inv l → callers l !! i = Some c → ¬ is_holding c → ¬ is_holding c' →
  St (_data s) = St (_data (sbx l)) → transition s = transition (sbx l) →
  (∀ a, caller_action c' = Some a → action_ok a) → (∀ o t st, c' = Parked o t st → is_Some (cells l !! t)) →
  life_inv (mkLife s (cells l) (<[i := c']> (callers l))).
Proof.
  intros Hi Hc Hn Hn' Hs Ht Ha Hp. pose proof (lookup_lt_Some _ _ _ Hc) as Hlt.
  assert (Hold : ∀ j a, <[i := c']> (callers l) !! j = Some (Holding a) → callers l !! j = Some (Holding a)).
  { intros j a Hj. destruct (decide (j = i)) as [->|]; [|by rewrite list_lookup_insert_ne in Hj].
    rewrite list_lookup_insert_eq in Hj by done. injection Hj as ->. by destruct Hn'. }
  split; cbn [sbx cells callers]; rewrite ?Hs, ?Ht.
  - intros j x a Hj. destruct (decide (j = i)) as [->|]; [|rewrite list_lookup_insert_ne in Hj by done; by eapply li_actions].
    rewrite list_lookup_insert_eq in Hj by done. injection Hj as <-. apply Ha.
  - intros j a Hj. apply Hold in Hj. by apply (li_hold _ Hi) in Hj.
  - intros j k a b Hj Hk. by eapply li_unique; eauto.
  - intros t Hu. destruct (li_unset _ Hi t Hu) as (? & j & a & Hj). split; [done|]. exists j, a.
    rewrite list_lookup_insert_ne; [done|]. intros ->. rewrite Hj in Hc. injection Hc as <-. by destruct Hn.
  - apply Hi.
  - intros j o t st Hj. destruct (decide (j = i)) as [->|]; [|rewrite list_lookup_insert_ne in Hj by done; by eapply li_parked].
    rewrite list_lookup_insert_eq in Hj by done. injection Hj as ->. by eapply Hp.
Qed.

Lemma no_holder l : life_inv l → transition (sbx l) = None → ∀ i a, callers l !! i ≠ Some (Holding a).
Proof. intros Hi Ht i a Hc. destruct (li_hold _ Hi _ _ Hc) as (_ & t & ? & _). congruence. Qed.

(** A caller starts a transition. *)
Lemma inv_own l i o s :
  life_inv l → callers l !! i = Some (Calling o) → transition (sbx l) = None →
  St (_data s) = TargetState (Action o) → transition s = Some (length (cells l)) →
  life_inv (mkLife s (cells l ++ [None]) (<[i := Holding (Action o)]> (callers l))).
Proof.
  intros Hi Hc Hn Hs Ht. pose proof (no_holder _ Hi Hn) as Hno. pose proof (lookup_lt_Some _ _ _ Hc) as Hlt.
  assert (Hnew : (cells l ++ [None]) !! length (cells l) = Some None) by (by apply list_lookup_middle).
  assert (Hold : ∀ t, cells l !! t ≠ Some None).
  { intros t Hu. destruct (li_unset _ Hi t Hu). congruence. }
  assert (Hcal : ∀ j x, <[i := Holding (Action o)]> (callers l) !! j = Some x →
    (j = i ∧ x = Holding (Action o)) ∨ (j ≠ i ∧ callers l !! j = Some x)).
  { intros j x Hj. destruct (decide (j = i)) as [->|]; [left|right; by rewrite list_lookup_insert_ne in Hj].
    rewrite list_lookup_insert_eq in Hj by done. by injection Hj as <-. }
  split; cbn [sbx cells callers].
  - intros j x a Hj Ha. destruct (Hcal _ _ Hj) as [[-> ->]|[_ Hj']]; [|by eapply li_actions].
    cbn in Ha. injection Ha as <-. by apply (li_actions _ Hi i (Calling o)).
  - intros j a Hj. destruct (Hcal _ _ Hj) as [[-> [= ->]]|[_ Hj']]; [|by apply Hno in Hj'].
    split; [done|]. by exists (length (cells l)).
  - intros j k a b Hj Hk. destruct (Hcal _ _ Hj) as [[-> _]|[_ Hj']]; [|by apply Hno in Hj'].
    by destruct (Hcal _ _ Hk) as [[-> _]|[_ Hk']]; [|apply Hno in Hk'].
  - intros t Hu. apply lookup_app_Some in Hu as [Hu|[Hge Hu]]; [by apply Hold in Hu|].
    apply list_lookup_singleton_Some in Hu as [Hz _]. split; [rewrite Ht; f_equal; lia|].
    exists i, (Action o). by apply list_lookup_insert_eq.
  - intros t Ht'. left. rewrite Ht in Ht'. by injection Ht' as <-.
  - intros j o' t st Hj. destruct (Hcal _ _ Hj) as [[_ ?]|[_ Hj']]; [done|].
    destruct (li_parked _ Hi _ _ _ _ Hj') as [x Hx]. exists x. by apply lookup_app_l_Some.
Qed.

(** The owner reports. *)
Lemma inv_finish l i a err cs s :
  life_inv l → callers l !! i = Some (Holding a) → callback a err (cells l) (sbx l) = Some (cs, s) →
  life_inv (mkLife s cs (<[i := Returned Completed]> (callers l))).
Proof.
  intros Hi Hc Hcb. pose proof (lookup_lt_Some _ _ _ Hc) as Hlt.
  destruct (li_hold _ Hi _ _ Hc) as (Hst & t & Ht & Hu). unfold callback in Hcb. rewrite Ht in Hcb.
  destruct (match Effect a with TransitionExpires => _ | _ => _ end) as [d err'] eqn:Ed.
  cbn in Hcb. injection Hcb as <- <-.
  assert (Hcal : ∀ j x, <[i := Returned Completed]> (callers l) !! j = Some x → x ≠ Returned Completed →
    j ≠ i ∧ callers l !! j = Some x).
  { intros j x Hj Hx. destruct (decide (j = i)) as [->|Hne]; [|by rewrite list_lookup_insert_ne in Hj].
    rewrite list_lookup_insert_eq in Hj by done. by injection Hj as <-. }
  assert (Hnone : ∀ j b, <[i := Returned Completed]> (callers l) !! j ≠ Some (Holding b)).
  { intros j b Hj. destruct (Hcal _ _ Hj) as [Hne Hj']; [done|]. by destruct Hne; eapply li_unique. }
  assert (Hcells : ∀ u, alter (λ c, SetError c err') t (cells l) !! u =
    if decide (u = t) then Some (Some err') else cells l !! u).
  { intros u. destruct (decide (u = t)) as [->|Hne]; [by rewrite list_lookup_alter_eq, Hu|].
    by apply list_lookup_alter_ne. }
  split; cbn [sbx cells callers].
  - intros j x b Hj Hb. destruct (Hcal _ _ Hj) as [_ Hj']; [by intros ->|]. by eapply li_actions.
  - intros j b Hj. by apply Hnone in Hj.
  - intros j k b b' Hj. by apply Hnone in Hj.
  - intros u. rewrite Hcells. destruct (decide (u = t)); intros Hu'; [discriminate|]. destruct (li_unset _ Hi u Hu'). congruence.
  - intros u Hu'. rewrite Hcells. destruct err' as [e|]; [|done]. cbn in Hu'. right. exists e.
    rewrite decide_True; [done|congruence].
  - intros j o u st Hj. destruct (Hcal _ _ Hj) as [_ Hj']; [done|].
    rewrite Hcells. destruct (decide (u = t)); [done|]. by eapply li_parked.
Qed.

Lemma setExpired_state now (i : memorySandbox R) :
  St (_data (setExpired now i)) = St (_data i) ∧ transition (setExpired now i) = transition i.
Proof. unfold setExpired. by destruct (IsExpired _ _). Qed.

Lemma startRemoving_settles now o n (s : memorySandbox R) e :
  startRemoving (E:=E) now o n s = e →
  match e with
  | Owning s' => transition s = None ∧ St (_data s') = TargetState (Action o) ∧ transition s' = Some n ∧
                 AllowedTransitions (St (_data s)) (St (_data s')) = true
  | Waiting t st => transition s = Some t ∧ st = St (_data s) ∧ Eviction o = false
  | _ => True
  end.
Proof.
  intros <-. unfold startRemoving. destruct (transition s) as [t|] eqn:Et.
  - destruct (Eviction o); [done|]. destruct (_ && _); done.
  - destruct (_ && _); [done|]. destruct (bool_decide _); [done|].
    destruct (AllowedTransitions _ _) eqn:Ea; [|done]. cbn. done.
Qed.

Lemma life_move_inv l l' : life_inv l → life_move l l' → life_inv l'.
Proof.
  intros Hi Hm. destruct Hm as [l i o now e Hc He|l i o t st err Hc Hu|l i a err cs s Hc Hcb].
  - pose proof (startRemoving_settles _ _ _ _ _ He) as Hs. pose proof (li_actions _ Hi _ _ _ Hc eq_refl) as Ha.
    destruct e as [x| |t st|s]; cbn [settle].
    + eapply inv_caller; try done; naive_solver.
    + eapply inv_caller; try done; naive_solver.
    + destruct Hs as (Ht & _ & _). destruct (li_trans _ Hi t Ht) as [Hu|[x Hu]]; eapply inv_caller; try done; naive_solver.
    + destruct Hs as (Hn & Hs & Ht & _). by apply inv_own.
  - pose proof (li_actions _ Hi _ _ _ Hc eq_refl) as Ha.
    eapply inv_caller; try done; unfold after_wait; repeat case_match; simplify_eq/=; naive_solver.
  - by eapply inv_finish.
Qed.

Lemma life_step_inv l l' : life_inv l → life_step l l' → life_inv l'.
Proof.
  intros Hi Hs. destruct Hs as [l l' Hm|l i o t st Hc|l d Hd|l now]; [by eapply life_move_inv|..].
  - eapply inv_caller; try done; naive_solver.
  - destruct Hi. split; cbn [sbx cells callers _data transition]; rewrite ?Hd; done.
  - destruct (setExpired_state now (sbx l)) as [H1 H2]. destruct Hi.
    split; cbn [sbx cells callers]; rewrite ?H1, ?H2; done.
Qed.

Lemma life_steps_inv l l' : life_inv l → rtc life_step l l' → life_inv l'.
Proof. intros Hi Hr. induction Hr as [|l l1 l2 Hs Hr IH]; [done|]. by apply IH, (life_step_inv _ _ Hi). Qed.

(** A sandbox nobody is removing yet, and callers about to. *)
Definition life_start (d : Sandbox R) (os : list RemoveOpts) : life := mkLife (mkItem d None) [] (Calling <$> os).

Lemma life_start_inv d os : Forall (λ o, action_ok (Action o)) os → life_inv (life_start d os).
Proof.
  intros Ho. assert (Hc : ∀ i (c : caller), (Calling <$> os) !! i = Some c → ∃ o, c = Calling o ∧ action_ok (Action o)).
  { intros i c Hi. apply list_lookup_fmap_Some in Hi as (o & -> & Hi). exists o. split; [done|].
    by apply (Forall_lookup_1 _ _ _ _ Ho Hi). }
  split; cbn [life_start sbx cells callers]; try done; intros i; intros; try (by destruct (Hc _ _ ltac:(eassumption)) as (? & ? & ?); simplify_eq/=).
Qed.

(** ** The path of the state *)

Lemma life_step_state l l' : life_inv l → life_step l l' →
  St (_data (sbx l')) = St (_data (sbx l)) ∨ AllowedTransitions (St (_data (sbx l))) (St (_data (sbx l'))) = true.
Proof.
  intros Hi Hs. destruct Hs as [l l' Hm|l i o t st Hc|l d Hd|l now]; cbn; [|by left|by left|left; apply setExpired_state].
  destruct Hm as [l i o now e Hc He|l i o t st err Hc Hu|l i a err cs s Hc Hcb]; cbn; [|by left|].
  - pose proof (startRemoving_settles _ _ _ _ _ He) as Hs. destruct e; try (by left). right. apply Hs.
  - pose proof (li_actions _ Hi _ _ _ Hc eq_refl) as Ha. unfold callback in Hcb.
    destruct (li_hold _ Hi _ _ Hc) as (Hst & t & Ht & _). rewrite Ht in Hcb.
    destruct Ha as [->|[->| ->]]; cbn in Hcb, Hst.
    + injection Hcb as <- <-. by left.
    + injection Hcb as <- <-. by left.
    + rewrite Hst in *. cbn in Hcb. destruct err; injection Hcb as <- <-; cbn; [by left|by right].
Qed.

Lemma life_steps_state l l' : life_inv l → rtc life_step l l' →
  rtc (λ a b, AllowedTransitions a b = true) (St (_data (sbx l))) (St (_data (sbx l'))).
Proof.
  intros Hi Hr. induction Hr as [l|l l1 l2 Hs _ IH]; [done|].
  specialize (IH (life_step_inv _ _ Hi Hs)).
  destruct (life_step_state _ _ Hi Hs) as [Heq|Ha]; [by rewrite Heq in IH|]. by eapply rtc_l.
Qed.

Lemma killing_final st : rtc (λ a b, AllowedTransitions a b = true) StateKilling st → st = StateKilling.
Proof. intros Hr. inversion Hr as [|? st' ? Ha]; [done|]. by destruct st'. Qed.

Lemma pausing_final st :
  rtc (λ a b, AllowedTransitions a b = true) StatePausing st → st = StatePausing ∨ st = StateKilling.
Proof.
  intros Hr. inversion Hr as [|? st' ? Ha Hr']; subst; [by left|].
  destruct st'; try discriminate. right. by apply killing_final.
Qed.

(** ** Progress and termination *)

(** Nobody can move only when everybody has returned. *)
Lemma stuck_returned l : life_inv l → (∀ l', ¬ life_move l l') →
  ∀ i c, callers l !! i = Some c → ∃ r, c = Returned r.
Proof.
  intros Hi Hst. assert (Hno : ∀ i a, callers l !! i ≠ Some (Holding a)).
  { intros i a Hc. destruct (li_hold _ Hi _ _ Hc) as (_ & t & Ht & _).
    destruct (callback a None (cells l) (sbx l)) as [[cs s]|] eqn:Hcb.
    - by eapply Hst, lm_finish.
    - unfold callback in Hcb. rewrite Ht in Hcb. by destruct (match Effect a with TransitionExpires => _ | _ => _ end). }
  intros i c Hc. destruct c as [o|o t st|a|r]; [| | |by exists r].
  - destruct (Hst _ (lm_call l i o 0 _ Hc eq_refl)).
  - destruct (li_parked _ Hi _ _ _ _ Hc) as [[err|] Hu].
    + destruct (Hst _ (lm_wake l i o t st err Hc Hu)).
    + destruct (li_unset _ Hi _ Hu) as (_ & j & a & Hj). by destruct (Hno j a).
  - by destruct (Hno i a).
Qed.

(** What a caller still has to do: take or be refused the transition, then
    report. *)
Definition work (c : caller) : Z :=
  match c with Calling _ | Parked _ _ _ => 2 | Holding _ => 1 | Returned _ => 0 end.

(** Between two of those steps, a caller woken by a transition that succeeded
    tries once more. *)
Definition tries (cs : list (option (option E))) (c : caller) : Z :=
  match c with
  | Calling _ => 1
  | Parked _ t _ => match cs !! t with Some (Some None) => 2 | _ => 0 end
  | _ => 0
  end.

Definition life_cost (l : life) : Z :=
  (2 * len (callers l) + 1) * sumZ work (callers l) + sumZ (tries (cells l)) (callers l).

Lemma work_bound c : 0 <= work c <= 2.
Proof. destruct c; cbn; lia. Qed.
Lemma tries_bound cs c : 0 <= tries cs c <= 2.
Proof. destruct c as [o|o t st|a|r]; cbn; try lia. destruct (cs !! t) as [[[e|]|]|]; lia. Qed.

Lemma life_cost_bound (l : life) : 0 <= life_cost l <= 4 * len (callers l) * (len (callers l) + 1).
Proof.
  unfold life_cost. pose proof (sumZ_bound work 2 (callers l) work_bound).
  pose proof (sumZ_bound (tries (cells l)) 2 (callers l) (tries_bound _)). pose proof (len_nonneg (callers l)). nia.
Qed.

Lemma len_callers (l : life) i c : len (<[i := c]> (callers l)) = len (callers l).
Proof. unfold len. by rewrite length_insert. Qed.

(** A step that gets work done pays, whatever it does to the cells. *)
Lemma cost_work (l : life) s cs i c c' : callers l !! i = Some c → work c' < work c →
  life_cost (mkLife s cs (<[i := c']> (callers l))) < life_cost l.
Proof.
  intros Hc Hw. unfold life_cost. cbn [callers cells]. rewrite len_callers, (sumZ_insert _ _ _ _ _ Hc).
  pose proof (sumZ_bound (tries cs) 2 (<[i := c']> (callers l)) (tries_bound _)) as H2. rewrite len_callers in H2.
  pose proof (sumZ_bound (tries (cells l)) 2 (callers l) (tries_bound _)). nia.
Qed.

Lemma cost_try (l : life) s i c c' : callers l !! i = Some c → work c' = work c → tries (cells l) c' < tries (cells l) c →
  life_cost (mkLife s (cells l) (<[i := c']> (callers l))) < life_cost l.
Proof.
  intros Hc Hw Ht. unfold life_cost. cbn [callers cells].
  rewrite len_callers, !(sumZ_insert _ _ _ _ _ Hc), Hw. lia.
Qed.

Lemma life_move_cost l l' : life_inv l → life_move l l' → life_cost l' < life_cost l.
Proof.
  intros Hi Hm. destruct Hm as [l i o now e Hc He|l i o t st err Hc Hu|l i a err cs s Hc Hcb].
  - pose proof (startRemoving_settles _ _ _ _ _ He) as Hs.
    destruct e as [x| |t st|s]; [by apply (cost_work _ _ _ _ _ _ Hc)..| |by apply (cost_work _ _ _ _ _ _ Hc)].
    apply (cost_try _ _ _ _ _ Hc); [done|]. cbn [settle tries].
    destruct (li_trans _ Hi t (proj1 Hs)) as [->|[e ->]]; done.
  - unfold after_wait. destruct err as [e|]; [by apply (cost_work _ _ _ _ _ _ Hc)|].
    destruct (bool_decide _); [by apply (cost_work _ _ _ _ _ _ Hc)|].
    destruct (AllowedTransitions _ _); [|by apply (cost_work _ _ _ _ _ _ Hc)].
    apply (cost_try _ _ _ _ _ Hc); [done|]. cbn [tries]. by rewrite Hu.
  - by apply (cost_work _ _ _ _ _ _ Hc).
Qed.

Lemma len_life_move (l l' : life) : life_move l l' → len (callers l') = len (callers l).
Proof. intros Hm. destruct Hm; cbn [callers]; apply len_callers. Qed.

Lemma life_moves_bounded n l l' : life_inv l → nsteps life_move n l l' → Z.of_nat n <= life_cost l.
Proof.
  intros Hi Hn. induction Hn as [l|n l l1 l2 Hm _ IH]; [pose proof (life_cost_bound l); lia|].
  pose proof (life_move_cost _ _ Hi Hm). specialize (IH (life_move_inv _ _ Hi Hm)). lia.
Qed.

(** ** The properties *)

(** C25. However pauses, kills, snapshots and evictions of one sandbox
    interleave with keep-alives, cancellations and reconciliation, at most one
    caller owns a transition at any time, the state of the sandbox is the
    target of that transition, and the callback the owner was given can be
    called with any result: the transition it reports to is still there. *)
Theorem Transitions_exclusive d os l :
  Forall (λ o, action_ok (Action o)) os → rtc life_step (life_start d os) l →
  (∀ i j a b, callers l !! i = Some (Holding a) → callers l !! j = Some (Holding b) → i = j) ∧
  ∀ i a, callers l !! i = Some (Holding a) →
    St (_data (sbx l)) = TargetState a ∧ ∀ err, is_Some (callback a err (cells l) (sbx l)).
Proof.
  intros Ho Hr. pose proof (life_steps_inv _ _ (life_start_inv d os Ho) Hr) as Hi. split; [apply Hi|].
  intros i a Hc. destruct (li_hold _ Hi _ _ Hc) as (Hst & t & Ht & _). split; [done|].
  intros err. unfold callback. rewrite Ht. by destruct (match Effect a with TransitionExpires => _ | _ => _ end).
Qed.

(** C26. No caller waits for ever.  From any reachable state, [n] callers make
    at most [4 n (n + 1)] moves before nobody can move, retries after the
    transitions of others included; and a state where nobody can move is one
    where every caller has returned. *)
Theorem Transitions_settle d os l :
  Forall (λ o, action_ok (Action o)) os → rtc life_step (life_start d os) l →
  (∀ n l', nsteps life_move n l l' →
    Z.of_nat n <= 4 * len (callers l) * (len (callers l) + 1) ∧
    ((∀ l2, ¬ life_move l' l2) → ∀ i c, callers l' !! i = Some c → ∃ r, c = Returned r)).
Proof.
  intros Ho Hr n l' Hn. pose proof (life_steps_inv _ _ (life_start_inv d os Ho) Hr) as Hi. split.
  - pose proof (life_moves_bounded _ _ _ Hi Hn). pose proof (life_cost_bound l). lia.
  - apply stuck_returned. apply (life_steps_inv _ _ Hi).
    apply (rtc_subrel life_move life_step); [apply ls_move|]. by apply rtc_nsteps_2 in Hn.
Qed.

(** C27. The state of a sandbox only moves along [AllowedTransitions]: between
    two reachable states there is a path of them, a sandbox being killed is
    never anything else again, and one being paused can only be killed. *)
Theorem States_follow_transitions d os l l' :
  Forall (λ o, action_ok (Action o)) os → rtc life_step (life_start d os) l → rtc life_step l l' →
  rtc (λ a b, AllowedTransitions a b = true) (St (_data (sbx l))) (St (_data (sbx l'))) ∧
  (St (_data (sbx l)) = StateKilling → St (_data (sbx l')) = StateKilling) ∧
  (St (_data (sbx l)) = StatePausing → St (_data (sbx l')) = StatePausing ∨ St (_data (sbx l')) = StateKilling).
Proof.
  intros Ho Hr Hr'. pose proof (life_steps_inv _ _ (life_start_inv d os Ho) Hr) as Hi.
  pose proof (life_steps_state _ _ Hi Hr') as Hp. split_and!; [done|intros Hk; rewrite Hk in Hp|intros Hk; rewrite Hk in Hp].
  - by apply killing_final.
  - by apply pausing_final.
Qed.
End invariant.

(** ** A run: a pause and a snapshot race, then a kill *)

Definition sample_sandbox : Sandbox unit :=
  mkSandbox "sbx" "team" "node" 0 100 1000 false StateRunning ().
Definition sample_opts : list RemoveOpts :=
  [mkOpts StateActionSnapshot false; mkOpts StateActionKill false].
Definition sample_start : life (R:=unit) (E:=unit) := life_start sample_sandbox sample_opts.

(** The snapshot owns the transition and the kill waits for it. *)
Definition sample_waiting : life (R:=unit) (E:=unit) :=
  mkLife (mkItem (with_state sample_sandbox StateSnapshotting) (Some O)) [None]
    [Holding StateActionSnapshot; Parked (mkOpts StateActionKill false) O StateSnapshotting].

Lemma sample_opts_ok : Forall (λ o, action_ok (Action o)) sample_opts.
Proof. repeat constructor; unfold action_ok; cbn; tauto. Qed.

Lemma sample_run : nsteps (life_move (R:=unit) (E:=unit)) 2 sample_start sample_waiting.
Proof.
  apply (nsteps_l _ _ _ (mkLife (mkItem (with_state sample_sandbox StateSnapshotting) (Some O)) [None]
    [Holding StateActionSnapshot; Calling (mkOpts StateActionKill false)])).
  - exact (lm_call sample_start O (mkOpts StateActionSnapshot false) 0 _ eq_refl eq_refl).
  - apply nsteps_once. exact (lm_call (mkLife (mkItem (with_state sample_sandbox StateSnapshotting) (Some O)) [None]
      [Holding StateActionSnapshot; Calling (mkOpts StateActionKill false)]) 1%nat (mkOpts StateActionKill false) 0 _ eq_refl eq_refl).
Qed.

Lemma sample_steps : rtc (life_step (R:=unit) (E:=unit)) sample_start sample_waiting.
Proof. apply (rtc_subrel life_move life_step); [apply ls_move|]. apply (rtc_nsteps_2 2%nat), sample_run. Qed.

Lemma Transitions_exclusive_witness :
  St (_data (sbx sample_waiting)) = StateSnapshotting ∧
  ∀ err, is_Some (callback StateActionSnapshot err (cells sample_waiting) (sbx sample_waiting)).
Proof.
  exact (proj2 (Transitions_exclusive sample_sandbox sample_opts sample_waiting sample_opts_ok sample_steps)
           O StateActionSnapshot eq_refl).
Defined.

Lemma Transitions_settle_witness : Z.of_nat 2 <= 4 * 2 * (2 + 1).
Proof.
  exact (proj1 (Transitions_settle sample_sandbox sample_opts sample_start sample_opts_ok (rtc_refl _ _) 2%nat
    sample_waiting sample_run)).
Defined.

Lemma States_follow_transitions_witness :
  rtc (λ a b, AllowedTransitions a b = true) StateRunning StateSnapshotting.
Proof.
  exact (proj1 (States_follow_transitions sample_sandbox sample_opts sample_start sample_waiting sample_opts_ok
    (rtc_refl _ _) sample_steps)).
Defined.
