(* ===== verification/Store.v ===== *)
(** * Store: the sandboxes an API instance knows, and their reservations

    Models the map operations of [api/internal/sandbox/storage/memory]
    ([operations.go], [sync.go]), the reservations of [reservations.go] with
    the cells of [SetOnce] they wait on, and the [Store] of
    [store.go] that puts the two together.

    Both maps are sharded and locked, so that one call on a key is one step.
    Teams and sandboxes are named by strings; an instant is a [Z] in
    nanoseconds, given by [time.Now()] at each step. *)

From stdpp Require Import relations.
From S2P Require Import Prelude SetOnce Lifecycle.

Section storage.
Context {R E : Type}.
Notation sandbox := (Sandbox R).
Notation item := (memorySandbox R).

(** ** [storage/memory] *)

Notation Storage := (gmap string item).

Definition newMemorySandbox (d : sandbox) : item := mkItem d None.

Inductive store_err := ErrAlreadyExists | ErrNotFound | UpdateErr (e : E).

(** The values an iteration visits, in one of the orders it may have. *)
Definition items (s : Storage) : list item := (map_to_list s).*2.

Definition Add (s : Storage) (d : sandbox) : result store_err Storage :=
  match s !! SandboxID d with
  | Some _ => Err ErrAlreadyExists
  | None => Ok (<[SandboxID d := newMemorySandbox d]> s)
  end.

Definition exists_ (s : Storage) (id : string) : bool := bool_decide (is_Some (s !! id)).

Definition Get (s : Storage) (team id : string) : result store_err sandbox :=
  match s !! id with
  | None => Err ErrNotFound
  | Some i => if bool_decide (TeamID (_data i) ≠ team) then Err ErrNotFound else Ok (_data i)
  end.

Definition Remove (s : Storage) (id : string) : Storage := delete id s.

Definition selected (team : option string) (states : list State) (data : sandbox) : bool :=
  match team with Some t => bool_decide (t = TeamID data) | None => true end &&
  (bool_decide (states = []) || bool_decide (St data ∈ states)).

Definition getItems (s : Storage) (team : option string) (states : list State) : list sandbox :=
  filter (λ d, selected team states d = true) (_data <$> items s).

Definition TeamItems (s : Storage) (team : string) (states : list State) : list sandbox :=
  getItems s (Some team) states.

Definition TeamsWithSandboxCount (s : Storage) : gmap string Z :=
  foldl (λ teams i, let t := TeamID (_data i) in <[t := default 0 (teams !! t) + 1]> teams) ∅ (items s).

Definition ExpiredItems (now : Z) (s : Storage) : list sandbox :=
  filter (λ d, St d = StateRunning ∧ IsExpired d now = true) (_data <$> items s).

Definition Update (s : Storage) (team id : string) (updateFunc : sandbox → result E sandbox)
    : result store_err (sandbox * Storage) :=
  match s !! id with
  | None => Err ErrNotFound
  | Some i =>
      if bool_decide (TeamID (_data i) ≠ team) then Err ErrNotFound
      else match updateFunc (_data i) with
           | Err e => Err (UpdateErr e)
           | Ok d => Ok (d, <[id := mkItem d (transition i)]> s)
           end
  end.

(** The first visit of [StartRemoving] to the lock of the sandbox. *)
Definition StartRemoving (now : Z) (s : Storage) (team id : string) (opts : RemoveOpts) (fresh : nat)
    : result store_err (entered (R:=R) (E:=E) * Storage) :=
  match s !! id with
  | None => Err ErrNotFound
  | Some i =>
      if bool_decide (TeamID (_data i) ≠ team) then Err ErrNotFound
      else
        let e := startRemoving now opts fresh i in
        Ok (e, match e with Owning i' => <[id := i']> s | _ => s end)
  end.

(** ** [sync.go] *)

Definition syncSandboxRemoveGracePeriod : Z := 10 * 1000000000.

Definition sandbox_map (l : list sandbox) : gmap string sandbox :=
  foldl (λ m d, <[SandboxID d := d]> m) ∅ l.

(** One visit of the iteration; [since] and [set] are the clock in
    [time.Since] and in [setExpired]. *)
Definition reconcile_item (now since set : Z) (m : gmap string sandbox) (nodeID : string) (i : item) : item :=
  let data := _data i in
  if IsExpired data now then i
  else if bool_decide (NodeID data ≠ nodeID) then i
  else if since - StartTime data <=? syncSandboxRemoveGracePeriod then i
  else match m !! SandboxID data with Some _ => i | None => setExpired set i end.

Definition Reconcile (now : Z) (clock : string → Z * Z) (s : Storage) (sandboxes : list sandbox) (nodeID : string)
    : Storage * list sandbox :=
  let m := sandbox_map sandboxes in
  let s' := map_imap (λ id i, Some (reconcile_item now (clock id).1 (clock id).2 m nodeID i)) s in
  (s', filter (λ d, exists_ s' (SandboxID d) = false) sandboxes).

(** ** [reservations.go] *)

(** The heap of [SetOnce] cells, and the maps of the teams into it. *)
Record ReservationStorage := mkRes { reservations : gmap string (gmap string nat); starts : list (SetOnce E sandbox) }.

Inductive reserved := LimitExceeded | Present (start : nat) | Start (start : nat).

Definition Reserve (s : ReservationStorage) (team id : string) (limit : Z) : ReservationStorage * reserved :=
  let ts := default ∅ (reservations s !! team) in
  match ts !! id with
  | Some t => (mkRes (<[team := ts]> (reservations s)) (starts s), Present t)
  | None =>
      if (0 <=? limit) && (limit <=? Z.of_nat (size ts))
      then (mkRes (<[team := ts]> (reservations s)) (starts s), LimitExceeded)
      else
        let t := length (starts s) in
        (mkRes (<[team := <[id := t]> ts]> (reservations s)) (starts s ++ [None]), Start t)
  end.

Definition Release (s : ReservationStorage) (team id : string) : ReservationStorage :=
  match reservations s !! team with
  | None => s
  | Some ts =>
      let ts := delete id ts in
      mkRes (if bool_decide (size ts = O) then delete team (reservations s) else <[team := ts]> (reservations s)) (starts s)
  end.

(** [finishStart] up to the release that follows an error. *)
Definition finish_set (s : ReservationStorage) (t : nat) (r : result E sandbox) : ReservationStorage :=
  mkRes (reservations s) (alter (λ c, setResult c r) t (starts s)).

Definition finishStart (s : ReservationStorage) (team id : string) (t : nat) (r : result E sandbox) : ReservationStorage :=
  let s := finish_set s t r in
  match r with Err _ => Release s team id | Ok _ => s end.

(** ** [store.go], over the memory storage *)

Record Store := mkStore { storage : Storage; resv : ReservationStorage; routed : list sandbox }.

(** [routed] is the sequence of calls of [AddSandboxToRoutingTable]. *)
Definition capped (d : sandbox) : sandbox :=
  if MaxInstanceLength d <? EndTime d - StartTime d then with_end d (StartTime d + MaxInstanceLength d) else d.

Definition StoreAdd (st : Store) (d : sandbox) : Store :=
  let d := capped d in
  let '(s, r) :=
    match Add (storage st) d with
    | Ok s => (s, routed st ++ [d])
    | Err _ => (storage st, routed st)
    end in
  let '(v, o) := Reserve (resv st) (TeamID d) (SandboxID d) (-1) in
  mkStore s (match o with Start t => finishStart v (TeamID d) (SandboxID d) t (Ok d) | _ => v end) r.

Definition StoreRemove (st : Store) (team id : string) : Store :=
  mkStore (Remove (storage st) id) (Release (resv st) team id) (routed st).

Definition StoreReconcile (now : Z) (clock : string → Z * Z) (st : Store) (sandboxes : list sandbox) (nodeID : string) : Store :=
  let '(s, toBeAdded) := Reconcile now clock (storage st) sandboxes nodeID in
  foldl StoreAdd (mkStore s (resv st) (routed st)) toBeAdded.

(** ** The maps *)

Lemma elem_of_items s i : i ∈ items s ↔ ∃ id, s !! id = Some i.
Proof.
  unfold items. rewrite list_elem_of_fmap. split.
  - intros ([id i'] & -> & Hi). exists id. by apply elem_of_map_to_list.
  - intros [id Hi]. exists (id, i). split; [done|]. by apply elem_of_map_to_list.
Qed.

Lemma elem_of_data s d : d ∈ _data <$> items s ↔ ∃ id i, s !! id = Some i ∧ d = _data i.
Proof.
  rewrite list_elem_of_fmap. split.
  - intros (i & -> & Hi). apply elem_of_items in Hi as [id Hi]. by exists id, i.
  - intros (id & i & Hi & ->). exists i. split; [done|]. apply elem_of_items. by exists id.
Qed.

Lemma elem_of_ExpiredItems now s d :
  d ∈ ExpiredItems now s ↔ St d = StateRunning ∧ IsExpired d now = true ∧ ∃ id i, s !! id = Some i ∧ d = _data i.
Proof. unfold ExpiredItems. rewrite list_elem_of_filter, elem_of_data. tauto. Qed.

Lemma sandbox_map_spec l id : is_Some (sandbox_map l !! id) ↔ ∃ d, d ∈ l ∧ SandboxID d = id.
Proof.
  unfold sandbox_map. induction l as [|d l IH] using rev_ind.
  - cbn. split; [by intros [? ?]|]. intros (d & Hd & _). by apply elem_of_nil in Hd.
  - rewrite foldl_app. cbn. destruct (decide (id = SandboxID d)) as [->|Hne].
    + rewrite lookup_insert_eq. split; [|done]. intros _. exists d. split; [|done]. apply elem_of_app. right. by apply list_elem_of_singleton.
    + rewrite lookup_insert_ne by done. rewrite IH. split; intros (x & Hx & Hid); exists x; (split; [|done]).
      * apply elem_of_app. by left.
      * apply elem_of_app in Hx as [?|Hx]; [done|]. apply list_elem_of_singleton in Hx. by subst.
Qed.

(** Every sandbox is stored under its own name. *)
Definition store_wf (s : Storage) : Prop := ∀ id i, s !! id = Some i → SandboxID (_data i) = id.

Lemma exists_Some s id : exists_ s id = true ↔ is_Some (s !! id).
Proof. unfold exists_. apply bool_decide_eq_true. Qed.

Lemma Reconcile_lookup now clock s l node s' add id :
  Reconcile now clock s l node = (s', add) →
  s' !! id = reconcile_item now (clock id).1 (clock id).2 (sandbox_map l) node <$> s !! id.
Proof. unfold Reconcile. intros [= <- _]. rewrite map_lookup_imap. by destruct (s !! id). Qed.

Lemma Reconcile_exists now clock s l node s' add id :
  Reconcile now clock s l node = (s', add) → exists_ s' id = exists_ s id.
Proof.
  intros Hr. apply eq_bool_prop_intro. rewrite !Is_true_true, !exists_Some, (Reconcile_lookup _ _ _ _ _ _ _ _ Hr).
  apply fmap_is_Some.
Qed.

Lemma setExpired_expired (t later : Z) (i : item) : t < later → IsExpired (_data (setExpired t i)) later = true.
Proof. intros Hl. unfold setExpired, IsExpired. destruct (EndTime (_data i) <? t) eqn:He; cbn; zbool; lia. Qed.

(** What node synchronisation takes for gone: a sandbox of the node that is
    not expired, is past the grace period and is not in the report. *)
Definition orphan (now since : Z) (l : list sandbox) (nodeID : string) (i : item) : Prop :=
  now <= EndTime (_data i) ∧ NodeID (_data i) = nodeID ∧
  syncSandboxRemoveGracePeriod < since - StartTime (_data i) ∧ ¬ ∃ d, d ∈ l ∧ SandboxID d = SandboxID (_data i).

Lemma reconcile_item_spec now since set l node i :
  (orphan now since l node i ∧ reconcile_item now since set (sandbox_map l) node i = setExpired set i) ∨
  (¬ orphan now since l node i ∧ reconcile_item now since set (sandbox_map l) node i = i).
Proof.
  unfold reconcile_item, IsExpired, orphan. pose proof (sandbox_map_spec l (SandboxID (_data i))) as Hm.
  destruct (Z.ltb_spec (EndTime (_data i)) now) as [He|He]; [right; split; [lia|done]|].
  case_bool_decide as Hn; [right; split; [tauto|done]|].
  destruct (Z.leb_spec (since - StartTime (_data i)) syncSandboxRemoveGracePeriod) as [Hg|Hg]; [right; split; [lia|done]|].
  destruct (sandbox_map l !! SandboxID (_data i)) as [d|] eqn:Ed.
  - right. split; [|done]. intros (_ & _ & _ & Hno). apply Hno, Hm. by exists d.
  - left. split; [|done]. split_and!; try done. intros Hx. apply Hm in Hx as [? ?]. done.
Qed.

Lemma evict_expired now s id i fresh :
  s !! id = Some i → IsExpired (_data i) now = true → St (_data i) = StateRunning → transition i = None →
  ∃ i', StartRemoving now s (TeamID (_data i)) id (mkOpts StateActionKill true) fresh =
          Ok (Owning i', <[id := i']> s) ∧ St (_data i') = StateKilling.
Proof.
  intros Hi He Hs Ht. unfold StartRemoving, startRemoving. rewrite Hi, bool_decide_eq_false_2 by (intros Hx; by apply Hx).
  rewrite Ht, He, Hs. cbn. eexists. split; [done|]. done.
Qed.

(** Node synchronisation marks exactly the orphans.  A sandbox the node no
    longer reports keeps its state and its transition but is expired from
    then on, so that the next look at the expired sandboxes finds it and its
    eviction owns the transition; every other sandbox is untouched, and the
    sandboxes to be added are the reported ones the store does not know, in
    order. *)
Theorem Reconcile_evicts_orphans now clock s l node s' add :
  store_wf s → Reconcile now clock s l node = (s', add) →
  add = filter (λ d, exists_ s (SandboxID d) = false) l ∧
  (∀ id, s !! id = None → s' !! id = None) ∧
  ∀ id i, s !! id = Some i →
    (¬ orphan now (clock id).1 l node i → s' !! id = Some i) ∧
    (orphan now (clock id).1 l node i → ∃ i', s' !! id = Some i' ∧
       St (_data i') = St (_data i) ∧ transition i' = transition i ∧
       ∀ later, (clock id).2 < later → St (_data i) = StateRunning →
         _data i' ∈ ExpiredItems later s' ∧
         (transition i = None → ∀ fresh, ∃ i2,
            StartRemoving later s' (TeamID (_data i)) id (mkOpts StateActionKill true) fresh =
              Ok (Owning i2, <[id := i2]> s') ∧ St (_data i2) = StateKilling)).
Proof.
  intros Hwf Hr. pose proof (λ id, Reconcile_lookup _ _ _ _ _ _ _ id Hr) as Hl. split_and!.
  - pose proof (λ id, Reconcile_exists _ _ _ _ _ _ _ id Hr) as He. revert Hr. unfold Reconcile. intros [= Hs <-].
    rewrite Hs. apply list_filter_iff. intros d. by rewrite He.
  - intros id Hi. by rewrite Hl, Hi.
  - intros id i Hi. specialize (Hl id). rewrite Hi in Hl. cbn in Hl.
    destruct (reconcile_item_spec now (clock id).1 (clock id).2 l node i) as [[Ho Hre]|[Ho Hre]]; rewrite Hre in Hl.
    2: { split; [done|]. intros ?. by destruct Ho. }
    split; [by intros []|]. intros _. destruct (setExpired_state (clock id).2 i) as [Hst Htr].
    assert (Htm : TeamID (_data (setExpired (clock id).2 i)) = TeamID (_data i)).
    { unfold setExpired. by destruct (IsExpired _ _). }
    exists (setExpired (clock id).2 i). split_and!; [done..|]. intros later Hla Hrun.
    pose proof (setExpired_expired _ _ i Hla) as Hexp. split.
    + apply elem_of_ExpiredItems. split_and!; [by rewrite Hst|done|]. by exists id, (setExpired (clock id).2 i).
    + intros Hn fresh. rewrite <- Htm. apply evict_expired; [done|done|by rewrite Hst|by rewrite Htr].
Qed.

(** ** Reservations *)

Definition reserved_at (v : ReservationStorage) (team id : string) : option nat := reservations v !! team ≫= λ ts, ts !! id.

Definition count (v : ReservationStorage) (team : string) : Z := Z.of_nat (size (default ∅ (reservations v !! team))).

Lemma reserved_default v team id : reserved_at v team id = default ∅ (reservations v !! team) !! id.
Proof. unfold reserved_at. by destruct (reservations v !! team). Qed.

(** What one call of [Reserve] does to the maps, in each of its outcomes. *)
Lemma Reserve_spec v team id limit v' r : Reserve v team id limit = (v', r) →
  match r with
  | Present t => reserved_at v team id = Some t ∧ starts v' = starts v ∧ ∀ a b, reserved_at v' a b = reserved_at v a b
  | LimitExceeded => reserved_at v team id = None ∧ 0 <= limit <= count v team ∧ starts v' = starts v ∧
                     ∀ a b, reserved_at v' a b = reserved_at v a b
  | Start t => reserved_at v team id = None ∧ (limit < 0 ∨ count v team < limit) ∧
               t = length (starts v) ∧ starts v' = starts v ++ [None] ∧ count v' team = count v team + 1 ∧
               ∀ a b, reserved_at v' a b = if decide (a = team ∧ b = id) then Some t else reserved_at v a b
  end.
Proof.
  unfold Reserve. assert (Hkeep : ∀ a b, reserved_at (mkRes (<[team := default ∅ (reservations v !! team)]> (reservations v)) (starts v)) a b =
    reserved_at v a b).
  { intros a b. rewrite !reserved_default. cbn. destruct (decide (a = team)) as [->|]; [by rewrite lookup_insert_eq|by rewrite lookup_insert_ne]. }
  rewrite reserved_default. destruct (default ∅ (reservations v !! team) !! id) as [t|] eqn:Et; [by intros [= <- <-]|].
  destruct (_ && _) eqn:Hlim; intros [= <- <-].
  - zbool. unfold count. split_and!; try done; lia.
  - split_and!; try done.
    + unfold count. destruct (Z.leb_spec 0 limit); [|by left]. right. cbn in Hlim. zbool. lia.
    + unfold count. cbn. rewrite lookup_insert_eq. cbn. rewrite map_size_insert_None by done. lia.
    + intros a b. rewrite !reserved_default. cbn. destruct (decide (a = team)) as [->|Ha].
      * rewrite lookup_insert_eq. cbn. destruct (decide (b = id)) as [->|Hb].
        { rewrite lookup_insert_eq, decide_True; done. }
        rewrite lookup_insert_ne, decide_False; [done|tauto|done].
      * rewrite lookup_insert_ne, decide_False; [done|tauto|done].
Qed.

Lemma Release_spec v team id : starts (Release v team id) = starts v ∧
  ∀ a b, reserved_at (Release v team id) a b = if decide (a = team ∧ b = id) then None else reserved_at v a b.
Proof.
  unfold Release, reserved_at. destruct (reservations v !! team) as [ts|] eqn:Et; (split; [done|]); intros a b; cbn.
  - destruct (decide (a = team)) as [->|Ha].
    + rewrite Et. cbn. assert (Hd : delete id ts !! b = if decide (team = team ∧ b = id) then None else ts !! b).
      { destruct (decide (b = id)) as [->|Hb]; [rewrite lookup_delete_eq, decide_True; done|].
        rewrite lookup_delete_ne, decide_False; [done|tauto|done]. }
      rewrite <- Hd. case_bool_decide as Hz; [|by rewrite lookup_insert_eq].
      rewrite lookup_delete_eq. cbn. apply map_size_empty_iff in Hz. by rewrite Hz, lookup_empty.
    + rewrite decide_False by tauto. case_bool_decide; [by rewrite lookup_delete_ne|by rewrite lookup_insert_ne].
  - destruct (decide (a = team ∧ b = id)) as [[-> ->]|]; [|done]. by rewrite Et.
Qed.

(** ** Requests over the store

    A request that reserved a start holds [finishStart]; the release of a
    failed start is a step of its own.  Each call of the store is one step. *)

Inductive starter :=
| Starting (team id : string) (t : nat)
| Releasing (team id : string)
| Finished.

Record world := mkWorld { w_store : Store; w_starters : list starter; w_waits : list nat }.

Definition with_resv (st : Store) (v : ReservationStorage) : Store := mkStore (storage st) v (routed st).
Definition with_storage (st : Store) (s : Storage) : Store := mkStore s (resv st) (routed st).

(** With [clean], a start that fails has not put its sandbox in the store:
    [CreateSandbox] adds it right before it reports success. *)
Inductive store_step (clean : Prop) : world → world → Prop :=
| ss_start w team id limit v t :
    Reserve (resv (w_store w)) team id limit = (v, Start t) →
    store_step clean w (mkWorld (with_resv (w_store w) v) (w_starters w ++ [Starting team id t]) (w_waits w))
| ss_wait w team id limit v t :
    Reserve (resv (w_store w)) team id limit = (v, Present t) →
    store_step clean w (mkWorld (with_resv (w_store w) v) (w_starters w) (w_waits w ++ [t]))
| ss_limit w team id limit v :
    Reserve (resv (w_store w)) team id limit = (v, LimitExceeded) →
    store_step clean w (mkWorld (with_resv (w_store w) v) (w_starters w) (w_waits w))
| ss_finish w i team id t r :
    w_starters w !! i = Some (Starting team id t) →
    store_step clean w (mkWorld (with_resv (w_store w) (finish_set (resv (w_store w)) t r))
      (<[i := match r with Ok _ => Finished | Err _ => Releasing team id end]> (w_starters w)) (w_waits w))
| ss_release w i team id :
    w_starters w !! i = Some (Releasing team id) →
    (clean → ∀ x, storage (w_store w) !! id = Some x → TeamID (_data x) ≠ team) →
    store_step clean w (mkWorld (with_resv (w_store w) (Release (resv (w_store w)) team id))
      (<[i := Finished]> (w_starters w)) (w_waits w))
| ss_add w d : store_step clean w (mkWorld (StoreAdd (w_store w) d) (w_starters w) (w_waits w))
| ss_remove w team id : store_step clean w (mkWorld (StoreRemove (w_store w) team id) (w_starters w) (w_waits w))
| ss_reconcile w now clock l node :
    store_step clean w (mkWorld (StoreReconcile now clock (w_store w) l node) (w_starters w) (w_waits w))
| ss_item w id i i' :
    storage (w_store w) !! id = Some i → SandboxID (_data i') = SandboxID (_data i) → TeamID (_data i') = TeamID (_data i) →
    store_step clean w (mkWorld (with_storage (w_store w) (<[id := i']> (storage (w_store w)))) (w_starters w) (w_waits w)).

Definition world_start : world := mkWorld (mkStore ∅ (mkRes ∅ []) []) [] [].

Record world_inv (clean : Prop) (w : world) : Prop := {
  wi_store : store_wf (storage (w_store w));
  wi_once i j a b a' b' t : w_starters w !! i = Some (Starting a b t) → w_starters w !! j = Some (Starting a' b' t) → i = j;
  wi_unset t : starts (resv (w_store w)) !! t = Some None → ∃ i a b, w_starters w !! i = Some (Starting a b t);
  wi_held i a b t : w_starters w !! i = Some (Starting a b t) → starts (resv (w_store w)) !! t = Some None;
  wi_waits t : t ∈ w_waits w → is_Some (starts (resv (w_store w)) !! t);
  wi_cells a b t : reserved_at (resv (w_store w)) a b = Some t → is_Some (starts (resv (w_store w)) !! t);
  wi_covers : clean → ∀ id i, storage (w_store w) !! id = Some i → is_Some (reserved_at (resv (w_store w)) (TeamID (_data i)) id)
}.

(** A change of the store that leaves the starters alone and only adds cells
    that are set. *)
Lemma inv_store clean w st ext waits :
  world_inv clean w → store_wf (storage st) → starts (resv st) = starts (resv (w_store w)) ++ ext → None ∉ ext →
  (∀ t, t ∈ waits → is_Some (starts (resv st) !! t)) →
  (∀ a b t, reserved_at (resv st) a b = Some t → is_Some (starts (resv st) !! t)) →
  (clean → ∀ id i, storage st !! id = Some i → is_Some (reserved_at (resv st) (TeamID (_data i)) id)) →
  world_inv clean (mkWorld st (w_starters w) waits).
Proof.
  intros Hi Hwf Hs Hext Hw Hr Hc. destruct Hi as [H1 H2 H3 H4 H5 H6 H7].
  split; cbn [w_store w_starters w_waits]; try done.
  - intros t. rewrite Hs. intros Hu. apply lookup_app_Some in Hu as [Hu|[_ Hu]]; [by apply H3|].
    destruct Hext. by eapply list_elem_of_lookup_2.
  - intros i a b t Ht. rewrite Hs. apply lookup_app_l_Some. by eapply H4.
Qed.

Lemma starts_alter v t r u :
  starts (finish_set v t r) !! u = if decide (u = t) then (λ c, setResult c r) <$> starts v !! u else starts v !! u.
Proof.
  unfold finish_set. cbn. destruct (decide (u = t)) as [->|Hne]; [apply list_lookup_alter_eq|by apply list_lookup_alter_ne].
Qed.

Lemma capped_ids (d : sandbox) : SandboxID (capped d) = SandboxID d ∧ TeamID (capped d) = TeamID d.
Proof. unfold capped. by destruct (_ <? _). Qed.

(** [StoreAdd]: the sandbox is in the store and has a reservation, the rest
    stays, and the cells only grow by ones that are set. *)
Lemma StoreAdd_spec st d st' : StoreAdd st d = st' →
  storage st' = match storage st !! SandboxID d with
                | Some _ => storage st
                | None => <[SandboxID d := newMemorySandbox (capped d)]> (storage st)
                end ∧
  is_Some (reserved_at (resv st') (TeamID d) (SandboxID d)) ∧
  (∀ a b, (a, b) ≠ (TeamID d, SandboxID d) ∨ is_Some (reserved_at (resv st) a b) →
     reserved_at (resv st') a b = reserved_at (resv st) a b) ∧
  (starts (resv st') = starts (resv st) ∧ is_Some (reserved_at (resv st) (TeamID d) (SandboxID d)) ∨
   starts (resv st') = starts (resv st) ++ [Some (Ok (capped d))] ∧
   reserved_at (resv st') (TeamID d) (SandboxID d) = Some (length (starts (resv st)))).
Proof.
  destruct (capped_ids d) as [Hid Htm]. unfold StoreAdd, Add. rewrite Hid, Htm.
  destruct (Reserve (resv st) (TeamID d) (SandboxID d) (-1)) as [v r] eqn:Er.
  pose proof (Reserve_spec _ _ _ _ _ _ Er) as Hs.
  intros <-. split; [destruct (storage st !! SandboxID d); by cbn|]. cbn.
  destruct (storage st !! SandboxID d); cbn; destruct r as [|t|t].
  all: try (destruct Hs as (_ & Hl & _); lia).
  1, 3: destruct Hs as (Hp & Hst & Hr); split_and!; [rewrite Hr; by exists t|intros; apply Hr|left; split; [done|by exists t]].
  all: destruct Hs as (Hp & _ & -> & Hst & _ & Hr); split_and!.
  1, 4: unfold reserved_at in *; cbn; rewrite Hr, decide_True by done; by exists (length (starts (resv st))).
  1, 3: intros a b Hab; unfold reserved_at in *; cbn; rewrite Hr; apply decide_False; intros [-> ->]; destruct Hab as [|[? ?]]; congruence.
  all: right; split; [|unfold reserved_at in *; cbn; by rewrite Hr, decide_True by done].
  all: cbn; rewrite Hst; rewrite <- (Nat.add_0_r (length _)), alter_app_r; by cbn.
Qed.

Lemma starts_grow v ext t : is_Some (starts v !! t) → is_Some ((starts v ++ ext) !! t).
Proof. intros [x Hx]. exists x. by apply lookup_app_l_Some. Qed.

Lemma StoreAdd_inv clean w d : world_inv clean w → world_inv clean (mkWorld (StoreAdd (w_store w) d) (w_starters w) (w_waits w)).
Proof.
  intros Hi. destruct (StoreAdd_spec (w_store w) d _ eq_refl) as (Hst & Hres & Hkeep & Hs). destruct (capped_ids d) as [Hid Htm].
  set (st' := StoreAdd (w_store w) d) in *.
  assert (Hext : ∃ ext, starts (resv st') = starts (resv (w_store w)) ++ ext ∧ None ∉ ext).
  { destruct Hs as [[Hs _]|[Hs _]]; [exists []; rewrite app_nil_r; split; [done|apply not_elem_of_nil]|].
    eexists. split; [done|]. by intros ?%list_elem_of_singleton. }
  destruct Hext as (ext & Hext & Hno). apply (inv_store clean w st' ext); try done.
  - intros id i. rewrite Hst. destruct (storage (w_store w) !! SandboxID d) eqn:Ed; [by apply Hi|].
    intros Hx. apply lookup_insert_Some in Hx as [[<- <-]|[_ Hx]]; [done|by apply Hi].
  - intros t Ht. rewrite Hext. by apply starts_grow, Hi.
  - intros a b t Ht. destruct (decide ((a, b) = (TeamID d, SandboxID d))) as [[= -> ->]|Hne].
    + destruct (reserved_at (resv (w_store w)) (TeamID d) (SandboxID d)) as [t0|] eqn:E0.
      * rewrite Hkeep in Ht by (right; by rewrite E0). rewrite Hext. apply starts_grow, (wi_cells _ _ Hi _ _ _ Ht).
      * destruct Hs as [[_ [? ?]]|[Hs Hr]]; [congruence|]. rewrite Hr in Ht. injection Ht as <-. by rewrite Hs, list_lookup_middle.
    + rewrite Hkeep in Ht by (by left). rewrite Hext. apply starts_grow, (wi_cells _ _ Hi _ _ _ Ht).
  - intros Hcl id i. rewrite Hst. assert (Hold : ∀ x, storage (w_store w) !! id = Some x → is_Some (reserved_at (resv st') (TeamID (_data x)) id)).
    { intros x Hx. pose proof (wi_covers _ _ Hi Hcl _ _ Hx) as Hc. by rewrite Hkeep; [|right]. }
    destruct (storage (w_store w) !! SandboxID d) eqn:Ed; [by apply Hold|].
    intros Hx. apply lookup_insert_Some in Hx as [[<- <-]|[_ Hx]]; [cbn; by rewrite Htm|by apply Hold].
Qed.

Lemma Reconcile_ids now clock s l node s' add id i' :
  Reconcile now clock s l node = (s', add) → s' !! id = Some i' →
  ∃ i, s !! id = Some i ∧ SandboxID (_data i') = SandboxID (_data i) ∧ TeamID (_data i') = TeamID (_data i).
Proof.
  intros Hr. rewrite (Reconcile_lookup _ _ _ _ _ _ _ id Hr). intros (i & Hi & ->)%fmap_Some. exists i. split; [done|].
  destruct (reconcile_item_spec now (clock id).1 (clock id).2 l node i) as [[_ ->]|[_ ->]]; [|done].
  unfold setExpired. by destruct (IsExpired _ _).
Qed.

(** Replacing the sandboxes by ones with the same names and teams. *)
Lemma inv_storage clean w s' :
  world_inv clean w →
  (∀ id i', s' !! id = Some i' → ∃ i, storage (w_store w) !! id = Some i ∧
     SandboxID (_data i') = SandboxID (_data i) ∧ TeamID (_data i') = TeamID (_data i)) →
  world_inv clean (mkWorld (with_storage (w_store w) s') (w_starters w) (w_waits w)).
Proof.
  intros Hi Hs. apply (inv_store clean w _ []); cbn; try done.
  - intros id i' Hx. destruct (Hs _ _ Hx) as (i & Hy & -> & _). by apply Hi.
  - by rewrite app_nil_r.
  - apply not_elem_of_nil.
  - apply Hi.
  - intros a b t. apply (wi_cells _ _ Hi).
  - intros Hc id i' Hx. destruct (Hs _ _ Hx) as (i & Hy & _ & ->). by apply (wi_covers _ _ Hi Hc).
Qed.

Lemma adds_inv clean l w : world_inv clean w →
  world_inv clean (mkWorld (foldl StoreAdd (w_store w) l) (w_starters w) (w_waits w)).
Proof.
  revert w. induction l as [|d l IH]; intros w Hi; [by destruct w|].
  exact (IH (mkWorld (StoreAdd (w_store w) d) (w_starters w) (w_waits w)) (StoreAdd_inv _ _ _ Hi)).
Qed.

Lemma StoreReconcile_inv clean w now clock l node : world_inv clean w →
  world_inv clean (mkWorld (StoreReconcile now clock (w_store w) l node) (w_starters w) (w_waits w)).
Proof.
  intros Hi. unfold StoreReconcile. destruct (Reconcile _ _ _ _ _) as [s' add] eqn:Hr.
  apply (adds_inv clean add (mkWorld (with_storage (w_store w) s') (w_starters w) (w_waits w))).
  apply inv_storage; [done|]. intros id i'. by apply (Reconcile_ids _ _ _ _ _ _ _ _ _ Hr).
Qed.

(** A reservation is given back. *)
Lemma Release_inv clean w team id s' :
  world_inv clean w → (∀ k i, s' !! k = Some i → storage (w_store w) !! k = Some i) →
  (clean → ∀ i, s' !! id = Some i → TeamID (_data i) ≠ team) →
  world_inv clean (mkWorld (mkStore s' (Release (resv (w_store w)) team id) (routed (w_store w))) (w_starters w) (w_waits w)).
Proof.
  intros Hi Hs Hno. destruct (Release_spec (resv (w_store w)) team id) as [Hst Hr].
  apply (inv_store clean w _ []); cbn; rewrite ?Hst, ?app_nil_r; try done.
  - intros k i Hx. by apply Hi, Hs.
  - apply not_elem_of_nil.
  - apply Hi.
  - intros a b t. rewrite Hr. destruct (decide _); [done|]. apply (wi_cells _ _ Hi).
  - intros Hc k i Hx. rewrite Hr, decide_False; [by apply (wi_covers _ _ Hi Hc), Hs|].
    intros [Ht ->]. by destruct (Hno Hc _ Hx).
Qed.

Lemma inv_finished clean w i c :
  world_inv clean w → w_starters w !! i = Some c → (∀ a b t, c ≠ Starting a b t) → ∀ c', (∀ a b t, c' ≠ Starting a b t) →
  world_inv clean (mkWorld (w_store w) (<[i := c']> (w_starters w)) (w_waits w)).
Proof.
  intros Hi Hc Hn c' Hn'. assert (Hold : ∀ j a b t, <[i := c']> (w_starters w) !! j = Some (Starting a b t) ↔ w_starters w !! j = Some (Starting a b t)).
  { intros j a b t. destruct (decide (j = i)) as [->|]; [|by rewrite list_lookup_insert_ne].
    rewrite list_lookup_insert_eq by (by eapply lookup_lt_Some). split; intros [= ?]; [by destruct (Hn' a b t)|].
    rewrite Hc in *. by destruct (Hn a b t); simplify_eq. }
  destruct Hi as [H1 H2 H3 H4 H5 H6 H7]. split; cbn [w_store w_starters w_waits]; try done.
  - intros j k a b a' b' t. rewrite !Hold. apply H2.
  - intros t Ht. destruct (H3 t Ht) as (j & a & b & Hj). exists j, a, b. by apply Hold.
  - intros j a b t. rewrite Hold. apply H4.
Qed.

Lemma start_inv clean w team id limit v t :
  world_inv clean w → Reserve (resv (w_store w)) team id limit = (v, Start t) →
  world_inv clean (mkWorld (with_resv (w_store w) v) (w_starters w ++ [Starting team id t]) (w_waits w)).
Proof.
  intros [H1 H2 H3 H4 H5 H6 H7] Hr. apply Reserve_spec in Hr as (Hn & _ & -> & Hst & _ & Hr).
  assert (Hnew : ∀ j a b t, (w_starters w ++ [Starting team id (length (starts (resv (w_store w))))]) !! j = Some (Starting a b t) →
    w_starters w !! j = Some (Starting a b t) ∧ (t < length (starts (resv (w_store w))))%nat ∨
    j = length (w_starters w) ∧ a = team ∧ b = id ∧ t = length (starts (resv (w_store w)))).
  { intros j a b t Hj. apply lookup_app_Some in Hj as [Hj|[Hge Hj]]; [left; split; [done|]|right].
    - by eapply lookup_lt_Some, H4.
    - apply list_lookup_singleton_Some in Hj as [Hz [= <- <- <-]]. split_and!; try done. lia. }
  split; cbn [w_store w_starters w_waits with_resv storage resv]; rewrite ?Hst; try done.
  - intros i j a b a' b' t Hi Hj. apply Hnew in Hi as [[Hi Hlt]|(-> & -> & -> & ->)], Hj as [[Hj Hlt']|(-> & -> & -> & Heq)]; try lia.
    by eapply H2.
  - intros t Hu. apply lookup_app_Some in Hu as [Hu|[Hge Hu]].
    + destruct (H3 t Hu) as (i & a & b & Hi). exists i, a, b. by apply lookup_app_l_Some.
    + apply list_lookup_singleton_Some in Hu as [Hz _]. exists (length (w_starters w)), team, id.
      replace t with (length (starts (resv (w_store w)))) by lia. by apply list_lookup_middle.
  - intros i a b t Hi. apply Hnew in Hi as [[Hi _]|(-> & -> & -> & ->)]; [by eapply lookup_app_l_Some, H4|by apply list_lookup_middle].
  - intros t Ht. by apply starts_grow, H5.
  - intros a b t. rewrite Hr. destruct (decide _); [intros [= <-]; by rewrite list_lookup_middle|].
    intros Ht. by apply starts_grow, (H6 a b).
  - intros Hc k i Hx. rewrite Hr. destruct (decide _); [done|]. by apply H7.
Qed.

Lemma finish_inv clean w i team id t r c :
  world_inv clean w → w_starters w !! i = Some (Starting team id t) → (∀ a b u, c ≠ Starting a b u) →
  world_inv clean (mkWorld (with_resv (w_store w) (finish_set (resv (w_store w)) t r)) (<[i := c]> (w_starters w)) (w_waits w)).
Proof.
  intros [H1 H2 H3 H4 H5 H6 H7] Hi Hc. pose proof (H4 _ _ _ _ Hi) as Hu.
  assert (Hold : ∀ j a b u, <[i := c]> (w_starters w) !! j = Some (Starting a b u) → w_starters w !! j = Some (Starting a b u) ∧ u ≠ t).
  { intros j a b u Hj. destruct (decide (j = i)) as [->|Hne].
    - rewrite list_lookup_insert_eq in Hj by (by eapply lookup_lt_Some). injection Hj as ->. by destruct (Hc a b u).
    - rewrite list_lookup_insert_ne in Hj by done. split; [done|]. intros ->. by destruct Hne; eapply H2. }
  assert (Hsome : ∀ u, is_Some (starts (resv (w_store w)) !! u) → is_Some (starts (finish_set (resv (w_store w)) t r) !! u)).
  { intros u [x Hx]. rewrite starts_alter, Hx. by destruct (decide _). }
  split; cbn [w_store w_starters w_waits with_resv storage resv]; try done.
  - intros j k a b a' b' u Hj Hk. apply Hold in Hj as [Hj _], Hk as [Hk _]. by eapply H2.
  - intros u Hx. rewrite starts_alter in Hx. destruct (decide (u = t)) as [->|Hne]; [by rewrite Hu in Hx|].
    destruct (H3 u Hx) as (j & a & b & Hj). exists j, a, b. rewrite list_lookup_insert_ne; [done|].
    intros ->. rewrite Hi in Hj. by injection Hj.
  - intros j a b u Hj. apply Hold in Hj as [Hj Hne]. rewrite starts_alter, decide_False by done. by eapply H4.
  - intros u Hx. by apply Hsome, H5.
  - intros a b u Hx. by apply Hsome, (H6 a b).
Qed.

Lemma store_step_inv clean w w' : world_inv clean w → store_step clean w w' → world_inv clean w'.
Proof.
  intros Hi Hs. destruct Hs as [w team id limit v t Hr|w team id limit v t Hr|w team id limit v Hr|w i team id t r Hc
    |w i team id Hc Hno|w d|w team id|w now clock l node|w id i i' Hx Hid Htm].
  - by eapply start_inv.
  - pose proof (Reserve_spec _ _ _ _ _ _ Hr) as (Hp & Hst & Hsame).
    apply (inv_store clean w _ []); cbn; rewrite ?Hst, ?app_nil_r; try done; try apply Hi.
    + apply not_elem_of_nil.
    + intros u [Hu|Hu%list_elem_of_singleton]%elem_of_app; [by apply Hi|]. subst u. by apply (wi_cells _ _ Hi _ _ _ Hp).
    + intros a b u. rewrite Hsame. apply (wi_cells _ _ Hi).
    + intros Hcl k x Hk. rewrite Hsame. by apply (wi_covers _ _ Hi).
  - pose proof (Reserve_spec _ _ _ _ _ _ Hr) as (_ & _ & Hst & Hsame).
    apply (inv_store clean w _ []); cbn; rewrite ?Hst, ?app_nil_r; try done; try apply Hi.
    + apply not_elem_of_nil.
    + intros a b u. rewrite Hsame. apply (wi_cells _ _ Hi).
    + intros Hcl k x Hk. rewrite Hsame. by apply (wi_covers _ _ Hi).
  - eapply finish_inv; [done|done|]. by destruct r.
  - apply (inv_finished clean (mkWorld (with_resv (w_store w) (Release (resv (w_store w)) team id)) (w_starters w) (w_waits w)) i (Releasing team id)); try done.
    by apply (Release_inv clean w team id (storage (w_store w))).
  - by apply StoreAdd_inv.
  - apply Release_inv; [done| |].
    + intros k x. unfold Remove. intros [_ Hk]%lookup_delete_Some. done.
    + intros _ x. unfold Remove. by rewrite lookup_delete_eq.
  - by apply StoreReconcile_inv.
  - apply inv_storage; [done|]. intros k x [[<- <-]|[_ Hk]]%lookup_insert_Some; [by exists i|by exists x].
Qed.

Lemma world_start_inv clean : world_inv clean world_start.
Proof. split; cbn; try done. by intros t Ht%elem_of_nil. Qed.

Lemma store_steps_inv clean w : rtc (store_step clean) world_start w → world_inv clean w.
Proof.
  intros Hr. pose proof (world_start_inv clean) as Hi. induction Hr as [|w1 w2 w3 Hs _ IH]; [done|].
  by apply IH, (store_step_inv _ w1).
Qed.

(** A result, once set, stays. *)
Definition set_stays (v v' : ReservationStorage) : Prop :=
  ∀ t r, starts v !! t = Some (Some r) → starts v' !! t = Some (Some r).

Lemma StoreAdd_stays st d : set_stays (resv st) (resv (StoreAdd st d)).
Proof.
  intros t r Ht. destruct (StoreAdd_spec st d _ eq_refl) as (_ & _ & _ & [[-> _]|[-> _]]); [done|by apply lookup_app_l_Some].
Qed.

Lemma adds_stays l st : set_stays (resv st) (resv (foldl StoreAdd st l)).
Proof.
  revert st. induction l as [|d l IH]; intros st; [by intros t r|]. intros t r Ht. exact (IH _ _ _ (StoreAdd_stays _ _ _ _ Ht)).
Qed.

Lemma store_step_stays clean w w' : store_step clean w w' → set_stays (resv (w_store w)) (resv (w_store w')).
Proof.
  intros Hs. destruct Hs as [w team id limit v t Hr|w team id limit v t Hr|w team id limit v Hr|w i team id t r Hc
    |w i team id Hc Hno|w d|w team id|w now clock l node|w id i i' Hx Hid Htm]; cbn; try done.
  - apply Reserve_spec in Hr as (_ & _ & _ & Hst & _). intros u x Hu. rewrite Hst. by apply lookup_app_l_Some.
  - apply Reserve_spec in Hr as (_ & Hst & _). intros u x. by rewrite Hst.
  - apply Reserve_spec in Hr as (_ & _ & Hst & _). intros u x. by rewrite Hst.
  - intros u x Hu. rewrite starts_alter, Hu. by destruct (decide _).
  - intros u x. by rewrite (proj1 (Release_spec _ _ _)).
  - apply StoreAdd_stays.
  - intros u x. by rewrite (proj1 (Release_spec _ _ _)).
  - exact (adds_stays _ (mkStore _ (resv (w_store w)) (routed (w_store w)))).
  - by intros t r.
Qed.

(** Concurrent starts of the same sandbox share one result.  In every
    reachable state each reservation has at most one request that will report
    its start; a request told to wait is waiting on a start whose result is
    there or whose starter is still at work, so nobody waits for ever; and a
    result, once reported, is the one every later look finds. *)
Theorem Starts_shared clean w : rtc (store_step clean) world_start w →
  (∀ i j a b a' b' t, w_starters w !! i = Some (Starting a b t) → w_starters w !! j = Some (Starting a' b' t) → i = j) ∧
  (∀ t, t ∈ w_waits w →
     (∃ r, starts (resv (w_store w)) !! t = Some (Some r)) ∨ ∃ i a b, w_starters w !! i = Some (Starting a b t)) ∧
  (∀ w' t r, rtc (store_step clean) w w' → starts (resv (w_store w)) !! t = Some (Some r) →
     starts (resv (w_store w')) !! t = Some (Some r)).
Proof.
  intros Hr. pose proof (store_steps_inv _ _ Hr) as Hi. split_and!; [apply Hi| |].
  - intros t Ht. destruct (wi_waits _ _ Hi t Ht) as [[r|] Hx]; [left; by exists r|right; by apply (wi_unset _ _ Hi)].
  - intros w' t r Hr'. induction Hr' as [|w1 w2 w3 Hs Hr' IH]; [done|]. intros Ht.
    apply IH; [by eapply rtc_r|by eapply store_step_inv|]. by apply (store_step_stays _ _ _ Hs).
Qed.

(** ** The limit of a team *)

Lemma TeamItems_ids s team : store_wf s →
  NoDup (SandboxID <$> TeamItems s team []) ∧
  ∀ id, id ∈ SandboxID <$> TeamItems s team [] → ∃ i, s !! id = Some i ∧ TeamID (_data i) = team.
Proof.
  intros Hwf. unfold TeamItems, getItems. split.
  - assert (Hnd : NoDup (SandboxID <$> (_data <$> items s))).
    { unfold items. rewrite <- !list_fmap_compose.
      rewrite (list_fmap_ext _ (@fst string item)); [apply NoDup_fst_map_to_list|]. intros k [id i] Hk. apply Hwf. apply elem_of_map_to_list. by eapply list_elem_of_lookup_2. }
    apply NoDup_fmap_2_strong; [|by apply NoDup_filter, (NoDup_fmap_1 SandboxID)].
    intros x y [_ (k & i & Hi & ->)%elem_of_data]%list_elem_of_filter [_ (k' & j & Hj & ->)%elem_of_data]%list_elem_of_filter.
    rewrite (Hwf _ _ Hi), (Hwf _ _ Hj). intros ->. congruence.
  - intros id (d & -> & Hd)%list_elem_of_fmap. apply list_elem_of_filter in Hd as [Hsel Hd].
    apply elem_of_data in Hd as (id & i & Hi & ->). exists i. rewrite (Hwf _ _ Hi). split; [done|].
    unfold selected in Hsel. apply andb_prop in Hsel as [Hsel _]. by apply bool_decide_eq_true in Hsel.
Qed.

Lemma TeamItems_count w team : world_inv True w →
  len (TeamItems (storage (w_store w)) team []) <= count (resv (w_store w)) team.
Proof.
  intros Hi. destruct (TeamItems_ids (storage (w_store w)) team (wi_store _ _ Hi)) as [Hnd Hin].
  unfold count, len. rewrite <- (length_fmap SandboxID), <- (size_list_to_set (C:=gset string)) by done.
  rewrite <- size_dom. apply inj_le, subseteq_size. intros id Hid%elem_of_list_to_set.
  destruct (Hin _ Hid) as (i & Hx & <-). apply elem_of_dom.
  destruct (wi_covers _ _ Hi I _ _ Hx) as [t Ht]. exists t. by rewrite <- reserved_default.
Qed.

(** The limit of a team is respected.  A request with limit [limit >= 0]
    may start a sandbox only when the sandboxes of the team in the store and
    the starts in progress, the new one included, stay within it; it is
    refused only when the team is at its limit and the sandbox is not already
    there; and it is told to wait only for a start of the same sandbox. *)
Theorem Admission_within_limit w team id limit v r :
  rtc (store_step True) world_start w → 0 <= limit → Reserve (resv (w_store w)) team id limit = (v, r) →
  match r with
  | Start t => len (TeamItems (storage (w_store w)) team []) + 1 <= limit ∧ count v team <= limit ∧
               id ∉ SandboxID <$> TeamItems (storage (w_store w)) team []
  | LimitExceeded => limit <= count (resv (w_store w)) team ∧ reserved_at (resv (w_store w)) team id = None
  | Present t => reserved_at (resv (w_store w)) team id = Some t
  end.
Proof.
  intros Hr Hl Hres. pose proof (store_steps_inv _ _ Hr) as Hi. apply Reserve_spec in Hres. destruct r as [|t|t].
  - destruct Hres as (Hn & [_ Hc] & _). by split.
  - apply Hres.
  - destruct Hres as (Hn & Hc & _ & _ & Hv & _). pose proof (TeamItems_count w team Hi). split_and!; [lia..|].
    intros Hid. destruct (TeamItems_ids _ team (wi_store _ _ Hi)) as [_ Hin]. destruct (Hin _ Hid) as (i & Hx & <-).
    destruct (wi_covers _ _ Hi I _ _ Hx) as [u Hu]. congruence.
Qed.
End storage.

(** ** A run: two requests for one sandbox *)

Definition sample_d : Sandbox unit := mkSandbox "sbx" "team" "node" 0 100 1000 false StateRunning ().
Definition sample_known : gmap string (memorySandbox unit) := {[ "sbx" := mkItem sample_d None ]}.
Definition sample_res : ReservationStorage (R:=unit) (E:=unit) := mkRes {[ "team" := {[ "sbx" := O ]} ]} [None].
Definition sample_first : world (R:=unit) (E:=unit) :=
  mkWorld (mkStore ∅ sample_res []) [Starting "team" "sbx" O] [].
Definition sample_world : world (R:=unit) (E:=unit) :=
  mkWorld (mkStore ∅ sample_res []) [Starting "team" "sbx" O] [O].

Lemma sample_world_reached clean : rtc (store_step clean) world_start sample_world.
Proof.
  apply (rtc_l _ _ sample_first).
  - exact (ss_start clean world_start "team" "sbx" 1 sample_res O eq_refl).
  - apply rtc_once. exact (ss_wait clean sample_first "team" "sbx" 1 sample_res O eq_refl).
Qed.

Lemma sample_known_wf : store_wf sample_known.
Proof. intros id i Hi. unfold sample_known in Hi. by apply lookup_singleton_Some in Hi as [<- <-]. Qed.

Lemma Reconcile_evicts_orphans_witness :
  let r := Reconcile 50 (λ _, (20000000000, 60)) sample_known [] "node" in
  ∃ i', r.1 !! "sbx" = Some i' ∧ _data i' ∈ ExpiredItems 61 r.1.
Proof.
  destruct (Reconcile_evicts_orphans (E:=unit) 50 (λ _, (20000000000, 60)) sample_known [] "node" _ _
    sample_known_wf (surjective_pairing _)) as (_ & _ & H).
  destruct (proj2 (H "sbx" (mkItem sample_d None) ltac:(vm_compute; reflexivity))) as (i' & Hi & _ & _ & He).
  { unfold orphan. cbn. split; [lia|]. split; [reflexivity|]. split; [unfold syncSandboxRemoveGracePeriod; lia|].
    intros (d & Hd & _). inversion Hd. }
  exists i'. split; [exact Hi|]. exact (proj1 (He 61 ltac:(cbn; lia) eq_refl)).
Defined.

Lemma Starts_shared_witness :
  (∃ r, starts (resv (w_store sample_world)) !! O = Some (Some r)) ∨
  ∃ i a b, w_starters sample_world !! i = Some (Starting a b O).
Proof.
  exact (proj1 (proj2 (Starts_shared True sample_world (sample_world_reached True))) O ltac:(left)).
Defined.

Lemma Admission_within_limit_witness :
  1 <= count (resv (w_store sample_world)) "team" ∧ reserved_at (resv (w_store sample_world)) "team" "other" = None.
Proof.
  exact (Admission_within_limit sample_world "team" "other" 1 _ LimitExceeded (sample_world_reached True) ltac:(lia)
    ltac:(vm_compute; reflexivity)).
Defined.
