(* ===== verification/Compress.v ===== *)
(** * Compress: storing a build compressed, and reading it back

    Models [st/compress_upload.go] (the read loop, the parts, the upload loop,
    [CompressBytes]), [st/compress_config.go], the compressed side of
    [st/storage_fs.go] and [validateCompressConfig] of
    [orchestrator/pkg/sandbox/build_upload.go].

    The stream is cut into frames; each frame is compressed on its own, frames
    are grouped into parts, and the parts are uploaded in parallel.  What the
    scheduler decides is a parameter the theorems quantify over: which frames
    of the current part are compressed when the read loop looks at their size,
    and the order in which the uploads end.  A frame that fails to compress,
    an upload that fails or a read error each make the whole call fail. *)

From S2P Require Import Prelude Bytes Bitmap Blocks Mapping Compact FrameTable Header Export.
From S2P Require Import Tracker Cache Overlay Snapshot Drain Fill Dedup ReadFile Chunker.

(** ** [compress_config.go] *)

Record CompressConfig := mkConfig {
  Enabled : bool;
  cfg_Type : string;
  Level : Z;
  FrameSizeKB : Z;
  MinPartSizeMB : Z;
  FrameEncodeWorkers : Z;
  EncoderConcurrency : Z
}.

Definition gcpMultipartUploadChunkSize : Z := 50 * 1024 * 1024.

Definition parseCompressionType (s : string) : Z :=
  if bool_decide (s = "lz4") then CompressionLZ4 else if bool_decide (s = "zstd") then CompressionZstd else CompressionNone.

Definition cfg_CompressionType (c : CompressConfig) : Z := parseCompressionType (cfg_Type c).

Definition cfg_FrameSize (c : CompressConfig) : Z :=
  if FrameSizeKB c <=? 0 then DefaultCompressFrameSize else i64 (FrameSizeKB c * 1024).

Definition MinPartSize (c : CompressConfig) : Z :=
  if MinPartSizeMB c <=? 0 then gcpMultipartUploadChunkSize else i64 (MinPartSizeMB c * Z.shiftl 1 20).

Definition IsCompressionEnabled (c : CompressConfig) : bool :=
  Enabled c && negb (cfg_CompressionType c =? CompressionNone).

(** [build_upload.go]; [blockSize] is a [uint64]. *)
Definition validateCompressConfig (c : CompressConfig) (blockSize : Z) : bool :=
  let fs := cfg_FrameSize c in
  if fs <=? 0 then false
  else if blockSize =? 0 then false
  else u64 fs mod blockSize =? 0.

(** ** The codecs

    [encoder_ok] is whether the encoder takes the options; a frame decodes to
    what was encoded, is not empty, and grows by a bounded amount. *)
Class Codec := {
  encoder_ok : CompressConfig → bool;
  compress : CompressConfig → bytes → option bytes;
  decompress : Z → bytes → option bytes;
  decompress_compress c d z : compress c d = Some z → decompress (cfg_CompressionType c) z = Some d;
  compress_size c d z : compress c d = Some z → 0 < len z <= 2 * len d + 1024
}.

Section compress.
Context `{Codec}.

(** ** Frames and parts *)

Record frame := mkFrameData { uncompressedSize : Z; compressed : bytes }.

(** A part as the read loop fills it: its index, the bytes of its frames. *)
Record part := mkPart { index : Z; frames : list bytes }.

Inductive stream_err :=
| UnsupportedCodec
| ReadFailed
| CompressFailed
| StartFailed
| UploadFailed
| CompleteFailed
| StreamFuel.

Definition compressed_len (cfg : CompressConfig) (d : bytes) : Z :=
  match compress cfg d with Some z => len z | None => 0 end.

(** What [p.compressedSize.Load()] reads when the frames that [ready] tells
    have been compressed. *)
Definition compressedSize (cfg : CompressConfig) (ready : nat → bool) (fs : list bytes) : Z :=
  sumZ id (imap (λ j d, if ready j then compressed_len cfg d else 0) fs).

(** [readLoop]: [data] is what the reader still has, [fails] whether it ends
    in an error instead of [io.EOF], [k] the number of the iteration. *)
Fixpoint read_loop (fuel : nat) (cfg : CompressConfig) (ready : nat → nat → bool) (k : nat) (data : bytes)
    (fails : bool) (p : part) (q : list part) (hashed : bytes) : result stream_err (list part * bytes) :=
  match fuel with
  | O => Err StreamFuel
  | S fuel =>
      let d := take (Z.to_nat (cfg_FrameSize cfg)) data in
      let short := len d <? cfg_FrameSize cfg in
      if short && fails then Err ReadFailed
      else
        let '(p, hashed) :=
          if 0 <? len d then (mkPart (index p) (frames p ++ [d]), hashed ++ d) else (p, hashed) in
        if short then Ok (if 0 <? len (frames p) then q ++ [p] else q, hashed)
        else
          let rest := drop (Z.to_nat (cfg_FrameSize cfg)) data in
          if MinPartSize cfg <=? compressedSize cfg (ready k) (frames p)
          then read_loop fuel cfg ready (S k) rest fails (mkPart (index p + 1) []) (q ++ [p]) hashed
          else read_loop fuel cfg ready (S k) rest fails p q hashed
  end.

Definition readLoop (cfg : CompressConfig) (ready : nat → nat → bool) (data : bytes) (fails : bool)
    : result stream_err (list part * bytes) :=
  if negb (encoder_ok cfg) then Err UnsupportedCodec
  else read_loop (S (length data)) cfg ready O data fails (mkPart 1 []) [] [].

(** [addFrame] and [p.compress.Wait()]. *)
Definition compress_frame (cfg : CompressConfig) (d : bytes) : option frame := mkFrameData (len d) <$> compress cfg d.

Definition compress_part (cfg : CompressConfig) (p : part) : option (Z * list frame) :=
  fs ← mapM (compress_frame cfg) (frames p); Some (index p, fs).

(** The body of the upload loop, over the frames of all parts. *)
Definition frame_size (f : frame) : FrameSize := mkFrameSize (i32 (uncompressedSize f)) (i32 (len (compressed f))).

Fixpoint sink_loop (fs : list frame) (cOffset : Z) : list (Z * bytes) :=
  match fs with
  | [] => []
  | f :: fs => (cOffset, compressed f) :: sink_loop fs (i64 (cOffset + len (compressed f)))
  end.

(** [memPartUploader]: [Start] makes the map, [UploadPart] fills it. *)
Definition UploadPart (parts : gmap Z bytes) (p : Z * list frame) : gmap Z bytes :=
  <[p.1 := concat (compressed <$> p.2)]> parts.

Definition Assemble (parts : gmap Z bytes) : bytes :=
  concat ((λ k, default [] (parts !! k)) <$> merge_sort (≤) (elements (dom parts))).

Record stream_out := mkOut {
  so_table : FullFrameTable;
  so_parts : gmap Z bytes;
  so_hashed : bytes;
  so_sunk : list (Z * bytes)
}.

(** The [partUploader]: whether [Start], each [UploadPart] and [Complete] return
    without an error. *)
Record partUploader := mkUploader { up_Start : bool; up_UploadPart : Z → bool; up_Complete : bool }.

Definition accepting : partUploader := mkUploader true (λ _, true) true.
Definition up_ok (u : partUploader) : Prop := up_Start u = true ∧ (∀ i, up_UploadPart u i = true) ∧ up_Complete u = true.

(** [order] is the order in which the uploads take effect. *)
Definition compressStream (cfg : CompressConfig) (ready : nat → nat → bool) (uploader : partUploader)
    (order : list (Z * list frame) → list (Z * list frame)) (data : bytes) (fails : bool)
    : result stream_err stream_out :=
  if negb (up_Start uploader) then Err StartFailed else
  '(q, hashed) ← readLoop cfg ready data fails;
  ps ← from_option CompressFailed (mapM (compress_part cfg) q);
  if forallb (λ p, up_UploadPart uploader p.1) ps then
    if negb (up_Complete uploader) then Err CompleteFailed else
    let fs := concat (ps.*2) in
    Ok (mkOut (NewFullFrameTable (cfg_CompressionType cfg) (frame_size <$> fs))
              (foldl UploadPart ∅ (order ps)) hashed (sink_loop fs 0))
  else Err UploadFailed.

(** [CompressBytes]: one upload at a time, in order. *)
Definition CompressBytes (cfg : CompressConfig) (ready : nat → nat → bool) (data : bytes)
    : result stream_err (FullFrameTable * bytes * bytes) :=
  out ← compressStream cfg ready accepting id data false;
  Ok (so_table out, Assemble (so_parts out), so_hashed out).

(** ** [storage_fs.go] *)

(** The object, its sidecar with the uncompressed size, the table and what was
    hashed. *)
Definition storeFileCompressed (cfg : CompressConfig) (ready : nat → nat → bool)
    (order : list (Z * list frame) → list (Z * list frame)) (file : bytes) (fails : bool)
    : result stream_err (bytes * Z * FullFrameTable * bytes) :=
  out ← compressStream cfg ready accepting order file fails;
  Ok (Assemble (so_parts out), len file, so_table out, so_hashed out).

Inductive open_err := NoFrame (e : frame_err) | BadFrame.

(** Everything the reader delivers. *)
Definition OpenRangeReader (object : bytes) (offsetU length : Z) (ft : option FrameTable) : result open_err bytes :=
  if IsCompressed ft then
    match LocateCompressed ft offsetU with
    | Err e => Err (NoFrame e)
    | Ok r =>
        match decompress (ft_CompressionType ft) (slice (r_Offset r) (r_Offset r + r_Length r) object) with
        | Some d => Ok d
        | None => Err BadFrame
        end
    end
  else Ok (slice offsetU (offsetU + length) object).

(** ** The read loop *)

Lemma len_snoc_pos {A} (l : list A) x : 0 < len (l ++ [x]).
Proof using. unfold len. rewrite length_app. cbn. lia. Qed.

(** Parts numbered from [i], none empty. *)
Fixpoint numbered (i : Z) (q : list part) : Prop :=
  match q with [] => True | p :: q => index p = i ∧ frames p ≠ [] ∧ numbered (i + 1) q end.

(** A part that was closed because it is large enough. *)
Definition large (cfg : CompressConfig) (p : part) : Prop := MinPartSize cfg <= sumZ (compressed_len cfg) (frames p).

Lemma numbered_snoc i q p : numbered i q → index p = i + len q → frames p ≠ [] → numbered i (q ++ [p]).
Proof using.
  revert i. induction q as [|x q IH]; intros i; cbn; [rewrite len_nil; intuition lia|].
  intros (Hx & Hf & Hq). rewrite len_cons. intros Hi Hp. split_and!; [done|done|]. apply IH; [done|lia|done].
Qed.

Lemma compressed_len_nonneg cfg d : 0 <= compressed_len cfg d.
Proof using. unfold compressed_len. destruct (compress cfg d); [apply len_nonneg|done]. Qed.

Lemma compressedSize_le cfg ready fs : compressedSize cfg ready fs <= sumZ (compressed_len cfg) fs.
Proof using.
  unfold compressedSize. revert ready. induction fs as [|d fs IH]; intros ready; [done|].
  rewrite imap_cons. cbn [sumZ]. match goal with |- context [sumZ id ?l] =>
    assert (sumZ id l <= sumZ (compressed_len cfg) fs) by exact (IH (λ j, ready (S j))) end.
  pose proof (compressed_len_nonneg cfg d). unfold id at 1. destruct (ready O); lia.
Qed.

(** The frames the read loop cuts: all of one size but perhaps the last. *)
Record cut (fs : Z) (data : bytes) (ds : list bytes) : Prop := {
  cut_concat : concat ds = data;
  cut_shape : ∃ new last, ds = new ++ last ∧ Forall (λ d, len d = fs) new ∧ (last = [] ∨ ∃ d, last = [d] ∧ 0 < len d < fs)
}.

Lemma cut_cons fs d rest data ds : len d = fs → data = d ++ rest → cut fs rest ds → cut fs data (d :: ds).
Proof using.
  intros Hd -> [Hc (new & last & -> & Hn & Hl)]. split; [cbn; by rewrite Hc|]. exists (d :: new), last.
  split_and!; [done|by constructor|done].
Qed.

Lemma take_full (fs : Z) (data : bytes) : 0 < fs → (len (take (Z.to_nat fs) data) <? fs) = false →
  len (take (Z.to_nat fs) data) = fs.
Proof using. intros Hfs Hs. zbool. unfold len in *. rewrite length_take in *. lia. Qed.

Lemma take_short (fs : Z) (data : bytes) : 0 < fs → (len (take (Z.to_nat fs) data) <? fs) = true →
  take (Z.to_nat fs) data = data ∧ len data < fs.
Proof using.
  intros Hfs Hs. zbool. unfold len in *. rewrite length_take in Hs. split; [apply take_ge; lia|lia].
Qed.

Definition all_frames (q : list part) : list bytes := concat (frames <$> q).

Lemma read_loop_spec cfg ready fuel k data p q hashed :
  0 < cfg_FrameSize cfg → (length data < fuel)%nat →
  numbered 1 q → index p = 1 + len q → Forall (large cfg) q →
  ∃ q' ds, read_loop fuel cfg ready k data false p q hashed = Ok (q', hashed ++ data) ∧
    all_frames q' = all_frames q ++ frames p ++ ds ∧ cut (cfg_FrameSize cfg) data ds ∧
    numbered 1 q' ∧ ∃ big last, q' = big ++ last ∧ Forall (large cfg) big ∧ (length last <= 1)%nat.
Proof using.
  intros Hfs. revert k data p q hashed. induction fuel as [|fuel IH]; intros k data p q hashed Hfuel Hq Hp Hl; [lia|].
  cbn [read_loop]. set (d := take (Z.to_nat (cfg_FrameSize cfg)) data).
  destruct (len d <? cfg_FrameSize cfg) eqn:Es; cbn [andb].
  - destruct (take_short _ _ Hfs Es) as [Hd Hlt]. fold d in Hd.
    destruct (Z.ltb_spec 0 (len d)) as [Hpos|Hz].
    + cbn [frames]. replace (0 <? len (frames p ++ [d])) with true.
      2: { symmetry. apply Z.ltb_lt, len_snoc_pos. }
      eexists _, [d]. split; [by rewrite Hd|]. split_and!.
      * unfold all_frames. rewrite fmap_app, concat_app. cbn. by rewrite app_nil_r.
      * split; [cbn; by rewrite app_nil_r|]. exists [], [d]. split_and!; [done|done|]. right. exists d. split; [done|]. pose proof (f_equal len Hd). lia.
      * apply numbered_snoc; [done|done|]. cbn. by destruct (frames p).
      * exists q. eexists. split_and!; [done|done|done].
    + assert (Hnil : data = []). { pose proof (f_equal len Hd) as E. clear -E Hz. destruct data as [|x l]; [done|]. rewrite len_cons in E. pose proof (len_nonneg l). lia. }
      exists (if 0 <? len (frames p) then q ++ [p] else q), []. split; [by rewrite Hnil, app_nil_r|]. split_and!.
      * unfold all_frames. destruct (Z.ltb_spec 0 (len (frames p))) as [Hf|Hf].
        { rewrite fmap_app, concat_app. cbn. by rewrite app_nil_r. }
        destruct (frames p) as [|x l]; [cbn; by rewrite app_nil_r|]. rewrite len_cons in Hf. pose proof (len_nonneg l). lia.
      * split; [by rewrite Hnil|]. exists [], []. split_and!; [done|done|by left].
      * destruct (Z.ltb_spec 0 (len (frames p))) as [Hf|Hf]; [|done]. apply numbered_snoc; [done|done|]. intros E. rewrite E in Hf. done.
      * exists q, (if 0 <? len (frames p) then [p] else []). destruct (0 <? len (frames p)); split_and!; try done; [by rewrite app_nil_r|cbn; lia].
  - pose proof (take_full _ _ Hfs Es) as Hd. fold d in Hd.
    replace (0 <? len d) with true by (symmetry; apply Z.ltb_lt; lia). cbn [frames index].
    set (rest := drop (Z.to_nat (cfg_FrameSize cfg)) data).
    assert (Hdata : data = d ++ rest) by (unfold d, rest; by rewrite take_drop).
    assert (Hrest : (length rest < fuel)%nat).
    { unfold rest. rewrite length_drop. unfold len in Hd. rewrite Hdata, length_app in Hfuel |- *. lia. }
    assert (Happ : hashed ++ data = (hashed ++ d) ++ rest) by (rewrite Hdata at 1; by rewrite app_assoc).
    rewrite Happ. destruct (Z.leb_spec (MinPartSize cfg) (compressedSize cfg (ready k) (frames p ++ [d]))) as [Hbig|Hsmall].
    + destruct (IH (S k) rest (mkPart (index p + 1) []) (q ++ [mkPart (index p) (frames p ++ [d])]) (hashed ++ d))
        as (q' & ds & Hr & Hall & Hcut & Hrest'); [done| | | |].
      * apply numbered_snoc; [done|done|]. cbn. by destruct (frames p).
      * cbn [index]. rewrite len_app, len_cons, len_nil. lia.
      * apply Forall_app. split; [done|]. constructor; [|done]. unfold large. cbn [frames].
        pose proof (compressedSize_le cfg (ready k) (frames p ++ [d])). lia.
      * exists q', (d :: ds). split; [done|]. split_and!; [|by eapply cut_cons|apply Hrest'..].
        rewrite Hall. unfold all_frames. rewrite fmap_app, concat_app. cbn. rewrite app_nil_r. by rewrite <- !app_assoc.
    + destruct (IH (S k) rest (mkPart (index p) (frames p ++ [d])) q (hashed ++ d))
        as (q' & ds & Hr & Hall & Hcut & Hrest'); [done|done|done|done|].
      exists q', (d :: ds). split; [done|]. split_and!; [|by eapply cut_cons|apply Hrest'..].
      rewrite Hall. cbn. by rewrite <- !app_assoc.
Qed.

(** ** Frames *)

(** A frame of the table and the piece of the input it holds. *)
Definition holds (cfg : CompressConfig) (d : bytes) (f : frame) : Prop :=
  uncompressedSize f = len d ∧ compress cfg d = Some (compressed f).

Lemma compress_frame_holds cfg d f : compress_frame cfg d = Some f ↔ holds cfg d f.
Proof using.
  unfold compress_frame, holds. destruct f as [u z]. cbn. rewrite fmap_Some. split.
  - by intros (z' & -> & [= -> ->]).
  - intros [-> Hz]. by exists z.
Qed.

Lemma compress_part_Some cfg p x :
  compress_part cfg p = Some x ↔ x.1 = index p ∧ Forall2 (holds cfg) (frames p) x.2.
Proof using.
  unfold compress_part. destruct x as [i fs]. cbn. rewrite bind_Some. split.
  - intros (fs' & Hfs & [= -> ->]). split; [done|]. apply mapM_Some in Hfs.
    eapply Forall2_impl; [done|]. intros d f. apply compress_frame_holds.
  - intros [-> Hfs]. exists fs. split; [|done]. apply mapM_Some. eapply Forall2_impl; [done|].
    intros d f. apply compress_frame_holds.
Qed.

Lemma parts_hold cfg q ps : mapM (compress_part cfg) q = Some ps →
  ps.*1 = index <$> q ∧ Forall2 (holds cfg) (all_frames q) (concat (ps.*2)).
Proof using.
  intros Hm%mapM_Some. unfold all_frames. induction Hm as [|p x q ps Hp _ [IH1 IH2]]; [split; by cbn|].
  apply compress_part_Some in Hp as [Hi Hp]. cbn. split; [by rewrite Hi, IH1|by apply Forall2_app].
Qed.

(** ** Uploads *)

Definition part_bytes (p : Z * list frame) : bytes := concat (compressed <$> p.2).

Lemma uploads_lookup l m k :
  NoDup (l.*1) →
  (∀ fs, (k, fs) ∈ l → foldl UploadPart m l !! k = Some (part_bytes (k, fs))) ∧
  (k ∉ l.*1 → foldl UploadPart m l !! k = m !! k).
Proof using.
  revert m. induction l as [|[i gs] l IH]; intros m Hnd; [split; [by intros ? ?%elem_of_nil|done]|].
  cbn in Hnd. apply NoDup_cons in Hnd as [Hi Hnd]. destruct (IH (UploadPart m (i, gs)) Hnd) as [IH1 IH2]. split.
  - intros fs [[= -> ->]|Hin]%elem_of_cons; [|by apply IH1]. cbn [foldl]. rewrite IH2 by done. apply lookup_insert_eq.
  - intros [Hne Hk]%not_elem_of_cons. cbn [foldl]. rewrite IH2 by done. cbn in Hne. by apply lookup_insert_ne.
Qed.

Lemma uploads_dom l m : dom (foldl UploadPart m l) = list_to_set (l.*1) ∪ dom m.
Proof using.
  revert m. induction l as [|[i gs] l IH]; intros m; [set_solver|].
  cbn [foldl]. rewrite IH. unfold UploadPart. cbn. rewrite dom_insert_L. set_solver.
Qed.

Lemma numbered_sorted i q : numbered i q → StronglySorted (<) (index <$> q) ∧ Forall (λ k, i <= k) (index <$> q).
Proof using.
  revert i. induction q as [|p q IH]; intros i; [by repeat constructor|]. cbn. intros (Hp & _ & Hq).
  destruct (IH _ Hq) as [Hs Hge]. split; constructor; try done; [|lia|]; (eapply Forall_impl; [exact Hge|]); cbn; lia.
Qed.

Lemma sorted_NoDup (l : list Z) : StronglySorted (<) l → NoDup l.
Proof using.
  induction 1 as [|x l Hs IH Hl]; constructor; [|done]. intros Hx. rewrite Forall_forall in Hl. specialize (Hl x Hx). lia.
Qed.

(** Whatever the order of the uploads, the object is the parts in order. *)
Lemma Assemble_parts l ps :
  l ≡ₚ ps → StronglySorted (<) (ps.*1) →
  Assemble (foldl UploadPart ∅ l) = concat (compressed <$> concat (ps.*2)).
Proof using.
  intros Hp Hs. assert (Hnd : NoDup (l.*1)). { rewrite Hp. by apply sorted_NoDup. }
  unfold Assemble. rewrite uploads_dom, dom_empty_L, (right_id_L ∅ (∪)).
  assert (Hk : merge_sort (≤) (elements (list_to_set (C:=gset Z) (l.*1))) = ps.*1).
  { apply (StronglySorted_unique (≤)).
    - apply StronglySorted_merge_sort; apply _.
    - clear -Hs. induction Hs as [|x l Hl IH Hx]; constructor; [done|]. eapply Forall_impl; [exact Hx|]. cbn. lia.
    - rewrite merge_sort_Permutation, elements_list_to_set by done. by rewrite Hp. }
  rewrite Hk. clear Hk.
  assert (Hl : ∀ k fs, (k, fs) ∈ ps → foldl UploadPart ∅ l !! k = Some (part_bytes (k, fs))).
  { intros k fs Hin. apply uploads_lookup; [done|]. by rewrite Hp. }
  clear Hs Hp Hnd. induction ps as [|[k fs] ps IH]; [done|]. cbn. rewrite (Hl k fs) by left.
  rewrite fmap_app, concat_app. f_equal. apply IH. intros k' fs' Hin. apply Hl. by right.
Qed.

(** ** The frame table *)

Lemma slice_concat {A} (l : list (list A)) k x :
  l !! k = Some x → slice (sumZ len (take k l)) (sumZ len (take k l) + len x) (concat l) = x.
Proof using.
  intros Hk. rewrite <- (take_drop_middle l k x Hk) at 3. rewrite concat_app. cbn.
  assert (Hs : ∀ j : list (list A), sumZ len j = len (concat j)).
  { induction j as [|y j IH]; cbn; [done|]. rewrite len_app. lia. }
  rewrite Hs. unfold slice. replace (len _ + len x - len _) with (len x) by lia. rewrite !len_to_nat.
  by rewrite drop_app_length, take_app_length.
Qed.

(** Frames whose sizes fit in an [int32]. *)
Definition fits (f : frame) : Prop := 0 < uncompressedSize f < 2 ^ 31 ∧ 0 < len (compressed f) < 2 ^ 31.

Lemma fits_sizes fs : Forall fits fs →
  sizes_ok (frame_size <$> fs) ∧ sum_U (frame_size <$> fs) = sumZ uncompressedSize fs ∧
  sum_C (frame_size <$> fs) = sumZ (λ f, len (compressed f)) fs.
Proof using.
  induction 1 as [|f fs [Hu Hc] _ (IH1 & IH2 & IH3)]; [split_and!; by constructor|]. cbn.
  rewrite IH2, IH3. rewrite !i32_id by ilia. split_and!; try lia. constructor; [|done]. cbn. rewrite !i32_id by ilia. lia.
Qed.

Lemma sumZ_fits fs : Forall fits fs → 0 <= sumZ uncompressedSize fs ∧ 0 <= sumZ (λ f, len (compressed f)) fs.
Proof using. induction 1 as [|f fs [Hu Hc] _ IH]; cbn; lia. Qed.

Lemma full_loop_at fs u c e k :
  Forall fits fs → 0 <= u → 0 <= c → u + sumZ uncompressedSize fs < 2 ^ 63 →
  c + sumZ (λ f, len (compressed f)) fs < 2 ^ 63 →
  full_loop (frame_size <$> fs) u c !! k = Some e →
  ∃ f, fs !! k = Some f ∧
    e = mkFrame (u + sumZ uncompressedSize (take k fs)) (c + sumZ (λ f, len (compressed f)) (take k fs))
                (uncompressedSize f) (len (compressed f)).
Proof using.
  intros Hf. revert u c k. induction Hf as [|f fs [Hu Hc] Hfs IH]; intros u c k Hu0 Hc0 HU HC; [done|].
  pose proof (sumZ_fits fs Hfs) as [H1 H2]. cbn in HU, HC. cbn [fmap list_fmap full_loop frame_size SizeOfU SizeOfC].
  rewrite !i32_id by ilia. rewrite !i64_id by ilia. destruct k as [|k]; cbn.
  - intros [= <-]. exists f. split; [done|]. f_equal; lia.
  - intros He. destruct (IH (u + uncompressedSize f) (c + len (compressed f)) k ltac:(lia) ltac:(lia) ltac:(lia) ltac:(lia) He)
      as (g & Hg & ->). exists g. split; [done|]. f_equal; lia.
Qed.

Lemma sink_loop_at fs c k o b : Forall fits fs → 0 <= c → c + sumZ (λ f, len (compressed f)) fs < 2 ^ 63 →
  sink_loop fs c !! k = Some (o, b) →
  ∃ f, fs !! k = Some f ∧ b = compressed f ∧ o = c + sumZ (λ f, len (compressed f)) (take k fs).
Proof using.
  intros Hf. revert c k. induction Hf as [|f fs [Hu Hc] Hfs IH]; intros c k Hc0 HC; [done|].
  pose proof (sumZ_fits fs Hfs) as [H1 H2]. cbn in HC. cbn [sink_loop]. rewrite i64_id by ilia. destruct k as [|k]; cbn.
  - intros [= <- <-]. exists f. split_and!; [done|done|lia].
  - intros He. destruct (IH (c + len (compressed f)) k ltac:(lia) ltac:(lia) He) as (g & Hg & -> & ->). exists g. split_and!; [done|done|lia].
Qed.

(** ** The cut *)

Lemma cut_before fs (ds : list bytes) k d : (∃ new last, ds = new ++ last ∧ Forall (λ d, len d = fs) new ∧ (last = [] ∨ ∃ d, last = [d] ∧ 0 < len d < fs)) →
  0 < fs → ds !! k = Some d → sumZ len (take k ds) = Z.of_nat k * fs ∧ 0 < len d <= fs ∧
  (len d = fs ∨ sumZ len (take k ds) + len d = sumZ len ds).
Proof using.
  intros (new & last & -> & Hn & Hl) Hfs. revert k. induction Hn as [|x new Hx Hn IH]; intros k Hk; cbn in Hk.
  - destruct Hl as [->|(y & -> & Hy)]; [done|]. destruct k; [|done]. cbn in *. injection Hk as ->. lia.
  - destruct k as [|k]; cbn in *; [injection Hk as ->; lia|]. destruct (IH k Hk) as (H1 & H2 & H3). lia.
Qed.

Lemma cut_slice fs data ds k d : cut fs data ds → 0 < fs → ds !! k = Some d →
  sumZ len (take k ds) = Z.of_nat k * fs ∧ 0 < len d <= fs ∧
  d = slice (Z.of_nat k * fs) (Z.of_nat k * fs + fs) data ∧ len d = Z.min fs (len data - Z.of_nat k * fs).
Proof using.
  intros [Hc Hs] Hfs Hk. destruct (cut_before _ _ _ _ Hs Hfs Hk) as (H1 & H2 & H3).
  assert (Hsum : ∀ j : list bytes, sumZ len j = len (concat j)).
  { induction j as [|y j IH]; cbn; [done|]. rewrite len_app. lia. }
  pose proof (Hsum ds) as Hlen. rewrite Hc in Hlen. pose proof (slice_concat ds k d Hk) as Hsl. rewrite H1, Hc in Hsl.
  assert (Hle : Z.of_nat k * fs + len d <= len data).
  { rewrite <- Hlen, <- H1. rewrite <- (take_drop_middle ds k d Hk) at 2. rewrite sumZ_app. cbn.
    pose proof (sumZ_nonneg len (drop (S k) ds) ltac:(intros; apply len_nonneg)). lia. }
  split_and!; [done|lia|lia| |lia].
  destruct H3 as [H3|H3]; [rewrite H3 in Hsl; by rewrite Hsl|]. etransitivity; [symmetry; exact Hsl|]. unfold slice.
  rewrite !take_ge; [done|unfold len in *; rewrite length_drop; lia..].
Qed.

Lemma sum_compressed fs k : sumZ len (take k (compressed <$> fs)) = sumZ (λ f, len (compressed f)) (take k fs).
Proof using. rewrite <- fmap_take. generalize (take k fs). induction l as [|g l IH]; cbn; [done|]. by rewrite IH. Qed.

(** ** The stream *)

(** What a successful call has done. *)
Record streamed (cfg : CompressConfig) (data : bytes) (out : stream_out) (q : list part) (ds : list bytes) (fs : list frame) : Prop := {
  sd_cut : cut (cfg_FrameSize cfg) data ds;
  sd_holds : Forall2 (holds cfg) ds fs;
  sd_table : so_table out = NewFullFrameTable (cfg_CompressionType cfg) (frame_size <$> fs);
  sd_object : Assemble (so_parts out) = concat (compressed <$> fs);
  sd_hashed : so_hashed out = data;
  sd_sunk : so_sunk out = sink_loop fs 0;
  sd_numbered : numbered 1 q;
  sd_large : ∃ big last, q = big ++ last ∧ Forall (large cfg) big ∧ (length last <= 1)%nat;
  sd_parts : dom (so_parts out) = list_to_set (index <$> q);
  sd_bytes p : p ∈ q → ∃ gs, Forall2 (holds cfg) (frames p) gs ∧
    so_parts out !! index p = Some (concat (compressed <$> gs))
}.

Lemma mapM_elem {A B} (f : A → option B) l k x : mapM f l = Some k → x ∈ l → ∃ y, f x = Some y ∧ y ∈ k.
Proof using.
  intros Hm%mapM_Some [i Hi]%list_elem_of_lookup. destruct (Forall2_lookup_l _ _ _ _ _ Hm Hi) as (y & Hy & Hf).
  exists y. split; [done|]. by eapply list_elem_of_lookup_2.
Qed.

Lemma readLoop_spec cfg ready data : 0 < cfg_FrameSize cfg → encoder_ok cfg = true →
  ∃ q ds, readLoop cfg ready data false = Ok (q, data) ∧ all_frames q = ds ∧ cut (cfg_FrameSize cfg) data ds ∧
    numbered 1 q ∧ ∃ big last, q = big ++ last ∧ Forall (large cfg) big ∧ (length last <= 1)%nat.
Proof using.
  intros Hfs He. unfold readLoop. rewrite He.
  destruct (read_loop_spec cfg ready (S (length data)) O data (mkPart 1 []) [] [] Hfs ltac:(lia) I eq_refl ltac:(constructor))
    as (q & ds & Hr & Hall & Hrest). exists q, ds. split; [done|]. split; [by rewrite Hall|done].
Qed.

Lemma compressStream_streamed cfg ready uploader order data out :
  0 < cfg_FrameSize cfg → (∀ l, order l ≡ₚ l) → compressStream cfg ready uploader order data false = Ok out →
  ∃ q ds fs, streamed cfg data out q ds fs.
Proof using.
  intros Hfs Hord. unfold compressStream. destruct (negb (up_Start uploader)); [done|]. destruct (encoder_ok cfg) eqn:He.
  2: { unfold readLoop. by rewrite He. }
  destruct (readLoop_spec cfg ready data Hfs He) as (q & ds & -> & Hall & Hcut & Hnum & Hlarge). cbn.
  destruct (mapM (compress_part cfg) q) as [ps|] eqn:Hm; [|done]. cbn.
  destruct (forallb _ _); [|done]. destruct (negb _); [done|]. intros [= <-]. destruct (parts_hold _ _ _ Hm) as [Hidx Hh]. rewrite Hall in Hh.
  destruct (numbered_sorted _ _ Hnum) as [Hs _]. rewrite <- Hidx in Hs.
  assert (Hnd : NoDup ((order ps).*1)). { rewrite Hord. by apply sorted_NoDup. }
  exists q, ds, (concat (ps.*2)). split; cbn; try done.
  - by apply Assemble_parts.
  - rewrite uploads_dom, dom_empty_L, (right_id_L ∅ (∪)), <- Hidx. apply set_eq. intros x. by rewrite !elem_of_list_to_set, Hord.
  - intros p Hp. destruct (mapM_elem _ _ _ _ Hm Hp) as ([i gs] & Hc & Hin). apply compress_part_Some in Hc as [Hi Hc].
    cbn in Hi, Hc. subst i. exists gs. split; [done|]. apply (proj1 (uploads_lookup _ _ _ Hnd)). by rewrite Hord.
Qed.

Lemma streamed_fits cfg data out q ds fs :
  0 < cfg_FrameSize cfg < 2 ^ 29 → len data < 2 ^ 52 → streamed cfg data out q ds fs →
  Forall fits fs ∧ sumZ uncompressedSize fs = len data ∧ sumZ (λ f, len (compressed f)) fs < 2 ^ 63.
Proof using.
  intros Hfs Hlen [[Hc (new & last & Hds & Hnew & Hlast)] Hh _ _ _ _ _ _ _ _].
  assert (Hsz : Forall (λ d, 0 < len d < 2 ^ 29) ds).
  { rewrite Hds. apply Forall_app. split; [eapply Forall_impl; [exact Hnew|]; cbn; lia|].
    destruct Hlast as [->|(d & -> & Hd)]; [done|]. constructor; [lia|done]. }
  assert (Hsum : sumZ len ds = len data).
  { rewrite <- Hc. clear. induction ds as [|y j IH]; cbn; [done|]. rewrite len_app. lia. }
  assert (Hall : Forall fits fs ∧ sumZ uncompressedSize fs = sumZ len ds ∧ sumZ (λ f, len (compressed f)) fs <= 1026 * sumZ len ds).
  { clear -Hh Hsz. induction Hh as [|d f ds fs [Hu Hz] _ IH]; [by repeat constructor|].
    apply Forall_cons in Hsz as [Hd Hsz]. destruct (IH Hsz) as (IH1 & IH2 & IH3). pose proof (compress_size _ _ _ Hz).
    cbn. unfold fits. split_and!; [constructor; [unfold fits; lia|done]|lia|lia]. }
  destruct Hall as (H1 & H2 & H3). split_and!; [done|lia|lia].
Qed.

(** The frame that covers an offset, in the table, the input and the object. *)
Lemma streamed_locate cfg data out q ds fs off :
  0 < cfg_FrameSize cfg < 2 ^ 29 → len data < 2 ^ 52 → streamed cfg data out q ds fs → 0 <= off < len data →
  let '(lo, sz) := even_chunk (cfg_FrameSize cfg) (len data) off in
  ∃ e f, locate (Table (Some (so_table out))) off = Ok e ∧ StartU e = lo ∧ SizeU e = sz ∧
    compress cfg (slice lo (lo + sz) data) = Some (compressed f) ∧
    slice (StartC e) (StartC e + SizeC e) (Assemble (so_parts out)) = compressed f.
Proof using.
  intros Hfs Hlen Hst Hoff. destruct (streamed_fits _ _ _ _ _ _ Hfs Hlen Hst) as (Hfit & HU & HC).
  destruct (fits_sizes fs Hfit) as (Hok & HsU & HsC).
  destruct (full_loop_ok (frame_size <$> fs) 0 0 ltac:(lia) ltac:(lia) Hok ltac:(lia) ltac:(lia)) as [Hfr Hcov].
  destruct (Hcov off ltac:(lia)) as (e & He & Hin). pose proof He as Hel. apply list_elem_of_lookup in He as [k Hk].
  destruct (full_loop_at fs 0 0 e k Hfit ltac:(lia) ltac:(lia) ltac:(lia) ltac:(lia) Hk) as (f & Hf & Hee).
  destruct (Forall2_lookup_r _ _ _ _ _ (sd_holds _ _ _ _ _ _ Hst) Hf) as (d & Hd & [Hdu Hdz]).
  destruct (cut_slice _ _ _ _ _ (sd_cut _ _ _ _ _ _ Hst) ltac:(lia) Hd) as (Hsum & Hdl & Hdat & Hdlen).
  assert (HsumU : sumZ uncompressedSize (take k fs) = Z.of_nat k * cfg_FrameSize cfg).
  { rewrite <- Hsum. pose proof (Forall2_take _ _ _ k (sd_holds _ _ _ _ _ _ Hst)) as Ht. revert Ht. clear.
    induction 1 as [|x g xs gs [Hu _] _ IH]; cbn; [done|]. by rewrite IH, Hu. }
  assert (Hoffk : off / cfg_FrameSize cfg = Z.of_nat k).
  { unfold FrameTable.inside in Hin. rewrite Hee in Hin. cbn [StartU SizeU] in Hin. rewrite HsumU in Hin. symmetry.
    apply (Z.div_unique_pos _ _ _ (off - Z.of_nat k * cfg_FrameSize cfg)); lia. }
  unfold even_chunk. rewrite Hoffk. exists e, f. split_and!.
  - rewrite (sd_table _ _ _ _ _ _ Hst). by apply (locate_spec (mkFT _ (full_loop (frame_size <$> fs) 0 0))).
  - rewrite Hee. cbn. lia.
  - rewrite Hee. cbn. lia.
  - rewrite <- Hdz. f_equal. rewrite Hdat at 1. unfold slice.
    apply list_eq. intros j. destruct (decide (j < Z.to_nat (Z.min (cfg_FrameSize cfg) (len data - Z.of_nat k * cfg_FrameSize cfg)))%nat).
    + rewrite !lookup_take_lt by lia. done.
    + rewrite !lookup_ge_None_2; [done|rewrite length_take, length_drop; unfold len in *; lia..].
  - rewrite (sd_object _ _ _ _ _ _ Hst), Hee. cbn [StartC SizeC]. rewrite Z.add_0_l.
    assert (Hcf : (compressed <$> fs) !! k = Some (compressed f)) by (by rewrite list_lookup_fmap, Hf).
    rewrite <- sum_compressed. by apply slice_concat.
Qed.

Lemma streamed_open cfg data out q ds fs off n :
  0 < cfg_FrameSize cfg < 2 ^ 29 → IsCompressionEnabled cfg = true → len data < 2 ^ 52 →
  streamed cfg data out q ds fs → 0 <= off < len data →
  let '(lo, sz) := even_chunk (cfg_FrameSize cfg) (len data) off in
  let ft := Table (Some (so_table out)) in
  IsCompressed ft = true ∧ LocateUncompressed ft off = Ok (mkRange lo sz) ∧
  OpenRangeReader (Assemble (so_parts out)) off n ft = Ok (slice lo (lo + sz) data).
Proof using.
  intros Hfs Hen Hlen Hst Hoff. pose proof (streamed_locate _ _ _ _ _ _ off Hfs Hlen Hst Hoff) as Hl.
  destruct (even_chunk _ _ _) as [lo sz]. destruct Hl as (e & f & He & <- & <- & Hz & Hsl). cbn zeta.
  assert (Hct : ft_CompressionType (Table (Some (so_table out))) = cfg_CompressionType cfg) by (by rewrite (sd_table _ _ _ _ _ _ Hst)).
  assert (Hic : IsCompressed (Table (Some (so_table out))) = true).
  { apply andb_prop in Hen as [_ Hen]. unfold IsCompressed. cbn in Hct |- *. by rewrite Hct. }
  split; [done|]. unfold LocateUncompressed, OpenRangeReader, LocateCompressed. rewrite Hic, He. split; [done|].
  cbn [mbind result_bind r_Offset r_Length]. by rewrite Hsl, Hct, (decompress_compress _ _ _ Hz).
Qed.

Lemma read_loop_fails cfg ready fuel k data p q hashed : 0 < cfg_FrameSize cfg → (length data < fuel)%nat →
  read_loop fuel cfg ready k data true p q hashed = Err ReadFailed.
Proof using.
  intros Hfs. revert k data p q hashed. induction fuel as [|fuel IH]; intros k data p q hashed Hf; [lia|].
  cbn [read_loop]. destruct (_ <? cfg_FrameSize cfg) eqn:Es; cbn [andb]; [done|].
  pose proof (take_full _ _ Hfs Es) as Hd. destruct (0 <? _); (destruct (Z.leb _ _); apply IH; unfold len in Hd; rewrite length_take in Hd; rewrite length_drop; lia).
Qed.

(** ** Parts *)

Lemma numbered_index i q : numbered i q → ∀ j, (∃ p, p ∈ q ∧ index p = j) ↔ i <= j <= i + len q - 1.
Proof using.
  revert i. induction q as [|p q IH]; intros i; cbn.
  - intros _ j. rewrite len_nil. split; [by intros (? & ?%elem_of_nil & _)|lia].
  - intros (Hp & _ & Hq) j. rewrite len_cons. pose proof (len_nonneg q). specialize (IH _ Hq j). split.
    + intros (x & [->|Hx]%elem_of_cons & Hj); [lia|]. pose proof (proj1 IH (ex_intro _ x (conj Hx Hj))). lia.
    + intros Hj. destruct (decide (j = i)) as [->|]; [exists p; split; [left|done]|].
      destruct (proj2 IH ltac:(lia)) as (x & Hx & Hi). exists x. split; [by right|done].
Qed.

Lemma numbered_nonempty i q : numbered i q → ∀ p, p ∈ q → frames p ≠ [].
Proof using.
  revert i. induction q as [|x q IH]; intros i; cbn; [by intros _ p ?%elem_of_nil|].
  intros (_ & Hx & Hq) p [->|Hp]%elem_of_cons; [done|by eapply IH].
Qed.

Lemma numbered_app i a b : numbered i (a ++ b) → numbered i a ∧ numbered (i + len a) b.
Proof using.
  revert i. induction a as [|x a IH]; intros i; cbn; [rewrite len_nil, Z.add_0_r; tauto|].
  intros (Hx & Hf & Hr). destruct (IH _ Hr) as [Ha Hb]. rewrite len_cons. split; [done|].
  by replace (i + (1 + len a)) with (i + 1 + len a) by lia.
Qed.

(** The last part has the highest number. *)
Lemma numbered_last big last p p' :
  numbered 1 (big ++ last) → (length last <= 1)%nat → p ∈ last → p' ∈ big ++ last → index p' <= index p.
Proof using.
  intros Hn Hone Hp Hp'. destruct last as [|x [|y last]]; [by apply elem_of_nil in Hp| |cbn in Hone; lia].
  apply list_elem_of_singleton in Hp as ->. pose proof (proj1 (numbered_index _ _ Hn (index p')) (ex_intro _ p' (conj Hp' eq_refl))) as Hi.
  apply numbered_app in Hn as [_ [Hx _]]. unfold len in *. rewrite length_app in Hi. cbn in Hi. lia.
Qed.

Lemma len_part cfg ds gs : Forall2 (holds cfg) ds gs → len (concat (compressed <$> gs)) = sumZ (compressed_len cfg) ds.
Proof using.
  induction 1 as [|d g ds gs [_ Hz] _ IH]; [done|]. cbn. rewrite len_app, IH. unfold compressed_len. by rewrite Hz.
Qed.

Lemma part_pos cfg ds gs : Forall2 (holds cfg) ds gs → ds ≠ [] → 0 < sumZ (compressed_len cfg) ds.
Proof using.
  intros Hh Hne. destruct Hh as [|d g ds gs [_ Hz] Hh]; [done|]. cbn. unfold compressed_len at 1. rewrite Hz.
  pose proof (compress_size _ _ _ Hz). pose proof (sumZ_nonneg (compressed_len cfg) ds ltac:(intros; apply compressed_len_nonneg)). lia.
Qed.

(** ** The properties *)

(** C28. What is stored compressed reads back.  [compressStream] returns: a
    read error is an error, and when the encoder takes the configuration, the
    frames compress and the uploader returns no error, it succeeds.  Then, whatever the
    scheduler did, the checksum is taken over the input, and for every offset
    of the input the frame table gives the frame that covers it (frames are
    cut evenly), and opening the stored object there delivers exactly the
    bytes of that frame. *)
Theorem compressStream_roundtrip cfg ready uploader order data :
  0 < cfg_FrameSize cfg < 2 ^ 29 → IsCompressionEnabled cfg = true → len data < 2 ^ 52 → (∀ l, order l ≡ₚ l) →
  (∃ e, compressStream cfg ready uploader order data true = Err e) ∧
  (encoder_ok cfg = true → (∀ d, len d <= cfg_FrameSize cfg → is_Some (compress cfg d)) → up_ok uploader →
   ∃ out, compressStream cfg ready uploader order data false = Ok out) ∧
  ∀ out, compressStream cfg ready uploader order data false = Ok out →
    so_hashed out = data ∧
    ∀ off n, 0 <= off < len data →
      let '(lo, sz) := even_chunk (cfg_FrameSize cfg) (len data) off in
      LocateUncompressed (Table (Some (so_table out))) off = Ok (mkRange lo sz) ∧
      OpenRangeReader (Assemble (so_parts out)) off n (Table (Some (so_table out))) = Ok (slice lo (lo + sz) data).
Proof using.
  intros Hfs Hen Hlen Hord. split_and!.
  - unfold compressStream, readLoop. destruct (up_Start uploader); [cbn [negb]|by eexists]. destruct (encoder_ok cfg); [cbn [negb]|by eexists]. rewrite read_loop_fails by lia. by eexists.
  - intros He Hc (Hs & Hu & Hco). unfold compressStream. rewrite Hs, Hco. cbn [negb]. destruct (readLoop_spec cfg ready data ltac:(lia) He) as (q & ds & -> & Hall & Hcut & _).
    cbn. assert (Hm : is_Some (mapM (compress_part cfg) q)).
    { apply mapM_is_Some, Forall_forall. intros p Hp.
      assert (Hfp : is_Some (mapM (compress_frame cfg) (frames p))); [|destruct Hfp as [x Hx]; exists (index p, x); unfold compress_part; by rewrite Hx].
      apply mapM_is_Some, Forall_forall. intros d Hd. apply fmap_is_Some, Hc.
      assert (Hin : d ∈ ds). { rewrite <- Hall. unfold all_frames. apply list_elem_of_In, in_concat. exists (frames p). split; apply list_elem_of_In; [apply list_elem_of_fmap; by exists p|done]. }
      apply list_elem_of_lookup in Hin as [k Hk]. by apply (cut_slice (cfg_FrameSize cfg) data ds k d Hcut ltac:(lia) Hk). }
    destruct Hm as [ps ->]. cbn. replace (forallb _ _) with true; [by eexists|]. symmetry. apply forallb_forall. intros; apply Hu.
  - intros out Hout. destruct (compressStream_streamed cfg ready uploader order data out ltac:(lia) Hord Hout) as (q & ds & fs & Hst).
    split; [apply Hst|]. intros off n Hoff. pose proof (streamed_open _ _ _ _ _ _ off n Hfs Hen Hlen Hst Hoff) as Ho.
    destruct (even_chunk _ _ _). apply Ho.
Qed.

(** What a multipart upload demands of its parts holds: they are numbered
    from one without gaps, none is empty, and every part but the last is at
    least the minimum size; and the frames given to the sink are at their
    place in the object. *)
Theorem compressStream_parts cfg ready uploader order data out :
  0 < cfg_FrameSize cfg < 2 ^ 29 → len data < 2 ^ 52 → (∀ l, order l ≡ₚ l) →
  compressStream cfg ready uploader order data false = Ok out →
  (∃ n, ∀ i, is_Some (so_parts out !! i) ↔ 1 <= i <= n) ∧
  (∀ i b, so_parts out !! i = Some b → 0 < len b ∧ (is_Some (so_parts out !! (i + 1)) → MinPartSize cfg <= len b)) ∧
  ∀ k o b, so_sunk out !! k = Some (o, b) → slice o (o + len b) (Assemble (so_parts out)) = b.
Proof using.
  intros Hfs Hlen Hord Hout. destruct (compressStream_streamed cfg ready uploader order data out ltac:(lia) Hord Hout) as (q & ds & fs & Hst).
  pose proof (numbered_index _ _ (sd_numbered _ _ _ _ _ _ Hst)) as Hidx.
  assert (Hdom : ∀ i, is_Some (so_parts out !! i) ↔ ∃ p, p ∈ q ∧ index p = i).
  { intros i. rewrite <- elem_of_dom, (sd_parts _ _ _ _ _ _ Hst), elem_of_list_to_set, list_elem_of_fmap. naive_solver. }
  split_and!.
  - exists (len q). intros i. rewrite Hdom, Hidx. lia.
  - intros i b Hb. destruct (proj1 (Hdom i) (ex_intro _ b Hb)) as (p & Hp & <-).
    destruct (sd_bytes _ _ _ _ _ _ Hst p Hp) as (gs & Hgs & Hpb). rewrite Hb in Hpb. injection Hpb as ->.
    pose proof (numbered_nonempty _ _ (sd_numbered _ _ _ _ _ _ Hst) p Hp) as Hne.
    rewrite (len_part cfg _ _ Hgs). split; [by eapply part_pos|].
    intros (p' & Hp' & Hi)%Hdom. destruct (sd_large _ _ _ _ _ _ Hst) as (big & last & Hq & Hbig & Hone).
    rewrite Hq in Hp. apply elem_of_app in Hp as [Hp|Hp]; [by eapply Forall_forall in Hbig|]. exfalso.
    pose proof (numbered_last big last p p' ltac:(rewrite <- Hq; apply Hst) Hone Hp ltac:(by rewrite <- Hq)). lia.
  - intros k o b. rewrite (sd_sunk _ _ _ _ _ _ Hst), (sd_object _ _ _ _ _ _ Hst). intros Hk.
    destruct (streamed_fits _ _ _ _ _ _ Hfs Hlen Hst) as (Hfit & _ & HC).
    destruct (sink_loop_at fs 0 k o b Hfit ltac:(lia) ltac:(lia) Hk) as (f & Hf & -> & ->). rewrite Z.add_0_l, <- sum_compressed.
    apply slice_concat. by rewrite list_lookup_fmap, Hf.
Qed.

(** A validated configuration suits the readers.  When the configuration
    passes [validateCompressConfig] for the block size of the image, the
    frames of the stored object satisfy what the chunker asks of its readers:
    every block lies in one frame, frames tile the object, and every range of
    the object may be read with the frame table. *)
Theorem compressStream_suits_chunker cfg ready uploader order data out blockSize :
  0 < cfg_FrameSize cfg < 2 ^ 29 → IsCompressionEnabled cfg = true → len data < 2 ^ 52 → (∀ l, order l ≡ₚ l) →
  0 <= blockSize → validateCompressConfig cfg blockSize = true →
  compressStream cfg ready uploader order data false = Ok out →
  geometry blockSize (len data) (even_chunk (cfg_FrameSize cfg) (len data)) ∧
  ∀ off n, 0 <= off → 0 < n → off + n <= len data →
    request_ok (len data) (even_chunk (cfg_FrameSize cfg) (len data)) off n (Table (Some (so_table out))).
Proof using.
  intros Hfs Hen Hlen Hord Hbs Hval Hout. destruct (compressStream_streamed cfg ready uploader order data out ltac:(lia) Hord Hout) as (q & ds & fs & Hst).
  unfold validateCompressConfig in Hval. destruct (Z.leb_spec (cfg_FrameSize cfg) 0); [lia|].
  destruct (Z.eqb_spec blockSize 0) as [|Hnz]; [done|]. rewrite u64_id in Hval by ilia. apply Z.eqb_eq in Hval. split.
  - apply even_chunk_geometry; [lia|lia|]. by apply Z.mod_divide.
  - intros off n Ho Hn Hle. split_and!; try done. intros x r Hx Hr.
    pose proof (streamed_open _ _ _ _ _ _ x n Hfs Hen Hlen Hst Hx) as Hopen. destruct (even_chunk _ _ _) as [lo sz].
    destruct Hopen as (Hic & Hl & _). unfold locateChunk in Hr. rewrite Hic, Hl in Hr. by injection Hr as <-.
Qed.
End compress.

(** ** A codec that puts a byte in front, and a file of two frames and a half *)

#[global] Program Instance tagging : Codec := {|
  encoder_ok _ := true;
  compress _ d := Some (7 :: d);
  decompress _ z := match z with _ :: d => Some d | [] => None end
|}.
Next Obligation. by intros c d z [= <-]. Qed.
Next Obligation. intros c d z [= <-]. rewrite len_cons. pose proof (len_nonneg d). lia. Qed.

Definition small_frames : CompressConfig := mkConfig true "lz4" 0 1 0 2 1.
Definition sample_file : bytes := fill 1024 1 ++ fill 1024 2 ++ fill 452 3.

Lemma len_sample_file : len sample_file = 2500.
Proof. unfold sample_file. rewrite !len_app, !len_fill by lia. lia. Qed.

(** The uploads end in the opposite order. *)
Lemma sample_stream : ∃ out, compressStream small_frames (λ _ _, true) accepting (@reverse _) sample_file false = Ok out.
Proof.
  assert (Hb : is_ok (compressStream small_frames (λ _ _, true) accepting (@reverse _) sample_file false) = true)
    by (vm_compute; reflexivity).
  destruct (compressStream _ _ _ _ _ _) as [out|e]; [by exists out|done].
Qed.

Lemma compressStream_roundtrip_witness :
  ∃ out, compressStream small_frames (λ _ _, true) accepting (@reverse _) sample_file false = Ok out ∧
    OpenRangeReader (Assemble (so_parts out)) 1500 1 (Table (Some (so_table out))) = Ok (slice 1024 2048 sample_file).
Proof.
  destruct (compressStream_roundtrip small_frames (λ _ _, true) accepting (@reverse _) sample_file) as (_ & Hok & Hrt).
  - vm_compute. split; reflexivity.
  - vm_compute. reflexivity.
  - rewrite len_sample_file. vm_compute. reflexivity.
  - apply reverse_Permutation.
  - destruct (Hok eq_refl) as [out Hout]; [intros d _; by eexists|by split_and!|]. exists out. split; [exact Hout|].
    destruct (Hrt out Hout) as [_ Ho]. specialize (Ho 1500 1 ltac:(rewrite len_sample_file; lia)).
    unfold even_chunk in Ho. rewrite len_sample_file in Ho. exact (proj2 Ho).
Defined.

Lemma compressStream_parts_witness :
  ∃ out, compressStream small_frames (λ _ _, true) accepting (@reverse _) sample_file false = Ok out ∧
    ∃ n, ∀ i, is_Some (so_parts out !! i) ↔ 1 <= i <= n.
Proof.
  destruct sample_stream as [out Hout]. exists out. split; [exact Hout|].
  apply (compressStream_parts small_frames (λ _ _, true) accepting (@reverse _) sample_file out).
  - vm_compute. split; reflexivity.
  - rewrite len_sample_file. vm_compute. reflexivity.
  - apply reverse_Permutation.
  - exact Hout.
Defined.

Lemma compressStream_suits_chunker_witness :
  ∃ out, compressStream small_frames (λ _ _, true) accepting (@reverse _) sample_file false = Ok out ∧
    geometry 512 2500 (even_chunk 1024 2500) ∧
    request_ok 2500 (even_chunk 1024 2500) 1000 100 (Table (Some (so_table out))).
Proof.
  destruct sample_stream as [out Hout]. exists out. split; [exact Hout|].
  destruct (compressStream_suits_chunker small_frames (λ _ _, true) accepting (@reverse _) sample_file out 512)
    as [Hg Hr].
  - vm_compute. split; reflexivity.
  - vm_compute. reflexivity.
  - rewrite len_sample_file. vm_compute. reflexivity.
  - apply reverse_Permutation.
  - lia.
  - vm_compute. reflexivity.
  - exact Hout.
  - rewrite len_sample_file in Hg, Hr. split; [exact Hg|]. apply (Hr 1000 100); lia.
Defined.
