(* ===== verification/Upload.v ===== *)
(** * Upload: the builds of a snapshot go to storage, ancestors first

    Models the uploads of a node: the table of uploads in flight and the wait
    for an ancestor ([sandbox/uploads.go]), the poll for its header
    ([sandbox/build/header_load.go]), and the uploads themselves
    ([build_upload.go], [build_upload_v3.go], [build_upload_v4.go]).

    The code is written as programs of a free monad over the calls that read
    or change what others share: the storage, the devices of the templates, the
    futures, the peers.  A program runs one call at a time; the goroutines of an
    upload, the uploads of all nodes and what else happens on them interleave.
    What a call gets from outside (a failure, a cancellation, the table of a
    compressed body) is chosen by the execution.

    The storage holds headers, not their bytes: that a stored header is read
    back is shown in [HeaderIO].  Contexts, metrics and the subscription to the
    channel of another node are left out: a hint of it may come at any poll. *)

From stdpp Require Import relations.
From S2P Require Import Prelude Bytes Bitmap Blocks Mapping Compact FrameTable Header HeaderIO SetOnce Compress Prog.

(** ** The calls *)

Inductive DiffType := Memfile | Rootfs.

#[global] Instance DiffType_eq_dec : EqDecision DiffType.
Proof. solve_decision. Defined.
#[global] Instance DiffType_countable : Countable DiffType.
Proof.
  refine (inj_countable' (λ t, if t is Memfile then true else false) (λ b : bool, if b then Memfile else Rootfs) _).
  by intros [].
Defined.

Inductive upload_err :=
| Cancelled
| PathFailed
| HeaderFailed
| BodyFailed
| StatFailed
| ResolutionFailed
| WaitFailed (e : upload_err)
| NotInTemplateCache
| UploadSignaled
| DeadlineExceeded
| TransientErrors
| RefusedIncomplete
| StoreFailed
| SwapFailed
| BlobFailed
| LayerFailed
| InvalidConfig
| UploadInFlight.

Inductive find_err := ErrBuildNotInCache | FindFailed.
Inductive load_err := ErrObjectNotExist | LoadFailed.
Inductive wake := WakeCtx | WakeHint (failed : bool) | WakeTimer.
Inductive blob := Snapfile | Metafile.

#[global] Instance blob_eq_dec : EqDecision blob.
Proof. solve_decision. Defined.
#[global] Instance blob_countable : Countable blob.
Proof.
  refine (inj_countable' (λ b, if b is Snapfile then true else false) (λ b : bool, if b then Snapfile else Metafile) _).
  by intros [].
Defined.

(** A call, and the type of its answer.  Futures and devices are named by
    their index on the node. *)
Inductive call : Type → Type :=
| CachePath (t : DiffType) : call (result upload_err bool)
| DiffHeader (t : DiffType) : call (result upload_err (option Header))
| UploadFramed (t : DiffType) (ct : Z) : call (result upload_err (option FullFrameTable * bytes))
| Stat (t : DiffType) : call (result upload_err Z)
| PutHeader (t : DiffType) (h : Header) : call (result upload_err unit)
| UploadBlob (b : blob) : call (result upload_err unit)
| Find (a : uuid) (t : DiffType) : call (result find_err nat)
| Future (a : uuid) : call (option nat)
| Await (f : nat) : call (result upload_err unit)
| HeaderOf (d : nat) : call Header
| IsActive (a : uuid) : call bool
| LoadObject (a : uuid) (t : DiffType) : call (result load_err Header)
| Select : call wake
| SwapHeader (d : nat) (h : Header) : call unit.

Notation prog := (prog call).
Open Scope prog_scope.

(** ** The data *)

(** What a pause leaves for one file: whether there is a diff file, and the
    header, once known.  A snapshot without the file has neither. *)
Record diff := mkDiff { df_path : result upload_err bool; df_header : result upload_err (option Header) }.

Record Snapshot := mkSnapshot { sn_Memory : diff; sn_Rootfs : diff; FilesystemSnapshot : bool }.

Definition diff_of (s : Snapshot) (t : DiffType) : diff := match t with Memfile => sn_Memory s | Rootfs => sn_Rootfs s end.

Record Upload := mkUpload {
  u_buildID : uuid;
  u_snap : Snapshot;
  u_uploads : bool;
  u_mem : CompressConfig;
  u_root : CompressConfig;
  u_future : option nat;
  useV4 : bool;
  headerVersion : Z
}.

Definition cfg_of (u : Upload) (t : DiffType) : CompressConfig := match t with Memfile => u_mem u | Rootfs => u_root u end.

(** ** [header_load.go] *)

Definition loadV4MaxTransientErrors : Z := 3.

(** [loads] is how many more loads fit before the deadline. *)
Fixpoint PollRemoteStorageForHeader (loads : nat) (a : uuid) (t : DiffType) (transientErrs : Z) : prog (result upload_err Header) :=
  r ←! LoadObject a t;
  match r with
  | Ok h => Ret (Ok h)
  | Err e =>
      let transientErrs := match e with LoadFailed => transientErrs + 1 | ErrObjectNotExist => 0 end in
      if loadV4MaxTransientErrors <=? transientErrs then Ret (Err TransientErrors)
      else match loads with
           | O => Ret (Err DeadlineExceeded)
           | S loads =>
               w ←! Select;
               match w with
               | WakeCtx => Ret (Err Cancelled)
               | WakeHint true => Ret (Err UploadSignaled)
               | WakeHint false | WakeTimer => PollRemoteStorageForHeader loads a t transientErrs
               end
           end
  end.

(** ** [uploads.go] *)

Section programs.
Context (refreshHeaderLoads : nat).

(** [Wait] once the device, if any, is found. *)
Definition Wait_from (d : option nat) (a : uuid) (t : DiffType) : prog (result upload_err (option Header)) :=
  item ←! Future a;
  match item with
  | Some f =>
      r ←! Await f;
      match r, d with
      | Err e, _ => Ret (Err (WaitFailed e))
      | Ok _, None => Ret (Err NotInTemplateCache)
      | Ok _, Some d => h ←! HeaderOf d; Ret (Ok (Some h))
      end
  | None =>
      settled ← match d with
                | Some d => h ←! HeaderOf d; Ret (negb (IncompletePendingUpload h))
                | None => Ret false
                end;
      match d, settled with
      | Some d, true => h ←! HeaderOf d; Ret (Ok (Some h))
      | _, _ =>
          active ← match d with Some _ => Ret true | None => perform (IsActive a) end;
          if negb active then Ret (Ok None)
          else
            h ←? PollRemoteStorageForHeader refreshHeaderLoads a t 0;
            match d with
            | Some d => _ ←! SwapHeader d h; Ret (Ok (Some h))
            | None => Ret (Ok (Some h))
            end
      end
  end.

Definition Wait (a : uuid) (t : DiffType) : prog (result upload_err (option Header)) :=
  r ←! Find a t;
  match r with
  | Ok d => Wait_from (Some d) a t
  | Err ErrBuildNotInCache => Wait_from None a t
  | Err FindFailed => Ret (Err ResolutionFailed)
  end.

(** ** [build_upload.go] *)

Definition publish (u : Upload) (t : DiffType) (h : Header) : prog (result upload_err unit) :=
  if negb (u_uploads u) then Ret (Ok ())
  else
    r ←! Find (u_buildID u) t;
    match r with
    | Err ErrBuildNotInCache => Ret (Ok ())
    | Err FindFailed => Ret (Err SwapFailed)
    | Ok d => _ ←! SwapHeader d h; Ret (Ok ())
    end.

(** ** [build_upload_v4.go] *)

(** What the header of the ancestor [a] adds to [dst]. *)
Definition inherit (a : uuid) (h : option Header) (dst : option (gmap uuid BuildData)) : option (gmap uuid BuildData) :=
  match h, dst with
  | Some h, Some dst =>
      match default ∅ (h_Builds h) !! a with
      | Some bd => Some (<[a := bd]> dst)
      | None => if Version (h_Metadata h) <? MetadataVersionV4 then Some (<[a := empty_build]> dst) else Some dst
      end
  | _, _ => dst
  end.

Fixpoint append_builds (u : Upload) (dst : option (gmap uuid BuildData)) (builds : list uuid) (t : DiffType)
    : prog (result upload_err (option (gmap uuid BuildData))) :=
  match builds with
  | [] => Ret (Ok dst)
  | a :: builds =>
      if bool_decide (a = u_buildID u) || bool_decide (a = uuid_nil) then append_builds u dst builds t
      else h ←? Wait a t; append_builds u (inherit a h dst) builds t
  end.

(** [None] is the nil map: the V3 caller only waits. *)
Definition appendAncestorBuilds (u : Upload) (dst : option (gmap uuid BuildData)) (m : Compact.Mapping) (t : DiffType)
    : prog (result upload_err (option (gmap uuid BuildData))) :=
  if negb (u_uploads u) then Ret (Ok dst) else append_builds u dst (m_builds m) t.

(** The file, and its entry in the header. *)
Definition upload_body (u : Upload) (t : DiffType) (body : bool) : prog (result upload_err BuildData) :=
  if negb body then Ret (Ok empty_build)
  else
    framed ←? perform (UploadFramed t (cfg_CompressionType (cfg_of u t)));
    let '(fullFT, checksum) := framed in
    let ft := Table fullFT in
    size ←? (if IsCompressed ft then Ret (Ok (UncompressedSize ft)) else perform (Stat t));
    Ret (Ok (mkBuildData size checksum ft)).

Definition uploadFramed (u : Upload) (t : DiffType) (body : bool) (srcHeader : Header) : prog (result upload_err unit) :=
  selfBuild ←? upload_body u t body;
  let h := CloneForUpload srcHeader (headerVersion u) in
  builds ←? appendAncestorBuilds u (Some (default ∅ (h_Builds h))) (h_Mapping srcHeader) t;
  let h := mkHeader (h_Metadata h) (Some (<[u_buildID u := selfBuild]> (default ∅ builds))) (h_Mapping h) false in
  _ ←? perform (PutHeader t h);
  publish u t h.

Definition upload_v4 (u : Upload) (t : DiffType) (body : bool) : prog (result upload_err unit) :=
  h ←? perform (DiffHeader t);
  match h with Some h => uploadFramed u t body h | None => Ret (Ok ()) end.

(** Both kinds of upload: what comes before the goroutines, the goroutines,
    and what follows when none has failed. *)
Record routine := mkRoutine {
  before : prog (result upload_err (bool * bool));
  group : bool * bool → list (prog (result upload_err unit));
  after : prog (result upload_err unit)
}.

Definition both_paths : prog (result upload_err (bool * bool)) :=
  mem ←? perform (CachePath Memfile); root ←? perform (CachePath Rootfs); Ret (Ok (mem, root)).

Definition snapfile_task (u : Upload) : prog (result upload_err unit) :=
  if FilesystemSnapshot (u_snap u) then Ret (Ok ()) else perform (UploadBlob Snapfile).

Definition runV4 (u : Upload) : routine :=
  mkRoutine both_paths
    (λ '(mem, root), [upload_v4 u Memfile mem; upload_v4 u Rootfs root; snapfile_task u; perform (UploadBlob Metafile)])
    (Ret (Ok ())).

(** ** [build_upload_v3.go] *)

Definition finalizeV3 (src : Header) : Header := mkHeader (h_Metadata src) (h_Builds src) (h_Mapping src) false.

Definition header_v3 (t : DiffType) : prog (result upload_err unit) :=
  h ←? perform (DiffHeader t);
  match h with Some h => perform (PutHeader t (finalizeV3 h)) | None => Ret (Ok ()) end.

Definition body_v3 (t : DiffType) (body : bool) : prog (result upload_err unit) :=
  if negb body then Ret (Ok ())
  else _ ←? perform (Stat t); _ ←? perform (UploadFramed t CompressionNone); Ret (Ok ()).

Definition publish_v3 (u : Upload) (t : DiffType) (h : option Header) : prog (result upload_err unit) :=
  match h with
  | None => Ret (Ok ())
  | Some h => _ ←? appendAncestorBuilds u None (h_Mapping h) t; publish u t (finalizeV3 h)
  end.

Definition publish_both (u : Upload) : prog (result upload_err unit) :=
  mem ←? perform (DiffHeader Memfile);
  root ←? perform (DiffHeader Rootfs);
  _ ←? publish_v3 u Memfile mem;
  publish_v3 u Rootfs root.

Definition runV3 (u : Upload) : routine :=
  mkRoutine both_paths
    (λ '(mem, root), [header_v3 Memfile; header_v3 Rootfs; body_v3 Memfile mem; body_v3 Rootfs root;
                      snapfile_task u; perform (UploadBlob Metafile)])
    (publish_both u).

Definition runsV4 (u : Upload) : bool := IsCompressionEnabled (u_mem u) || IsCompressionEnabled (u_root u) || useV4 u.

Definition Run (u : Upload) : routine := if runsV4 u then runV4 u else runV3 u.
End programs.

(** ** The world *)

(** A device of a template of a node; a build whose template is cached may
    lack one of the two. *)
Record device := mkDevice { dv_build : uuid; dv_type : DiffType; dv_header : Header }.
Record template := mkTemplate { tp_Memfile : option nat; tp_Rootfs : option nat }.
Definition tp_of (tp : template) (t : DiffType) : option nat := match t with Memfile => tp_Memfile tp | Rootfs => tp_Rootfs tp end.

(** The futures of [Uploads], each with the build it was made for, and the
    builds a peer was found for (true once a reader saw it switch). *)
Record node := mkNode {
  n_devs : list device;
  n_templates : gmap uuid template;
  n_futures : gmap uuid nat;
  n_results : list (uuid * SetOnce upload_err unit);
  n_peers : gmap uuid bool
}.

Inductive phase :=
| Idle
| Before (p : prog (result upload_err (bool * bool)))
| Group (tasks : list (prog (result upload_err unit))) (failed : option upload_err)
| After (p : prog (result upload_err unit))
| Ran (r : result upload_err unit)
| Finished (r : result upload_err unit).

Record world := mkWorld {
  w_bodies : gset (uuid * DiffType * Z);
  w_headers : gmap (uuid * DiffType) Header;
  w_blobs : gset (uuid * blob);
  w_nodes : list node;
  w_registry : gmap uuid nat;
  w_uploads : list (nat * Upload * phase)
}.

Definition put_body (k : uuid * DiffType * Z) (w : world) : world :=
  mkWorld ({[k]} ∪ w_bodies w) (w_headers w) (w_blobs w) (w_nodes w) (w_registry w) (w_uploads w).
Definition put_header (k : uuid * DiffType) (h : Header) (w : world) : world :=
  mkWorld (w_bodies w) (<[k := h]> (w_headers w)) (w_blobs w) (w_nodes w) (w_registry w) (w_uploads w).
Definition put_blob (k : uuid * blob) (w : world) : world :=
  mkWorld (w_bodies w) (w_headers w) ({[k]} ∪ w_blobs w) (w_nodes w) (w_registry w) (w_uploads w).
Definition on_node (n : nat) (f : node → node) (w : world) : world :=
  mkWorld (w_bodies w) (w_headers w) (w_blobs w) (alter f n (w_nodes w)) (w_registry w) (w_uploads w).
Definition with_registry (r : gmap uuid nat) (w : world) : world :=
  mkWorld (w_bodies w) (w_headers w) (w_blobs w) (w_nodes w) r (w_uploads w).
Definition with_uploads (us : list (nat * Upload * phase)) (w : world) : world :=
  mkWorld (w_bodies w) (w_headers w) (w_blobs w) (w_nodes w) (w_registry w) us.

Definition with_devs (ds : list device) (nd : node) : node :=
  mkNode ds (n_templates nd) (n_futures nd) (n_results nd) (n_peers nd).
Definition with_templates (tc : gmap uuid template) (nd : node) : node :=
  mkNode (n_devs nd) tc (n_futures nd) (n_results nd) (n_peers nd).
Definition with_futures (fs : gmap uuid nat) (rs : list (uuid * SetOnce upload_err unit)) (nd : node) : node :=
  mkNode (n_devs nd) (n_templates nd) fs rs (n_peers nd).
Definition with_peers (ps : gmap uuid bool) (nd : node) : node :=
  mkNode (n_devs nd) (n_templates nd) (n_futures nd) (n_results nd) ps.

Definition swap (h : Header) (dv : device) : device := mkDevice (dv_build dv) (dv_type dv) h.

(** [LoadHeader] of what [StoreHeader] wrote. *)
Definition load (w : world) (a : uuid) (t : DiffType) : result load_err Header :=
  match w_headers w !! (a, t) with
  | Some h => Ok (if IncompletePendingUpload h then h else backfillMissingV3UncompressedBuilds h)
  | None => Err ErrObjectNotExist
  end.

Definition find (nd : node) (a : uuid) (t : DiffType) : result find_err nat :=
  match n_templates nd !! a with
  | None => Err ErrBuildNotInCache
  | Some tp => match tp_of tp t with Some d => Ok d | None => Err FindFailed end
  end.

(** What a call gets from outside. *)
Inductive choice :=
| Go
| CtxDone
| Fails (late : bool)
| Framed (ft : option FullFrameTable) (checksum : bytes)
| FileSize (n : Z)
| Hint (failed : bool)
| Tick.

Definition failing {A} (late : bool) (w w' : world) (a : A) : option (world * A) := Some (if late then w' else w, a).

(** One call of the upload [u] of node [n].  A failed write may have taken
    effect. *)
Definition exec {A} (c : call A) (x : choice) (n : nat) (u : Upload) (w : world) : option (world * A) :=
  match c in call A return option (world * A) with
  | CachePath t =>
      match x with Go => Some (w, df_path (diff_of (u_snap u) t)) | CtxDone => Some (w, Err Cancelled) | _ => None end
  | DiffHeader t =>
      match x with Go => Some (w, df_header (diff_of (u_snap u) t)) | CtxDone => Some (w, Err Cancelled) | _ => None end
  | UploadFramed t ct =>
      let w' := put_body (u_buildID u, t, ct) w in
      match x with
      | Framed ft sum => if ft_CompressionType (Table ft) =? ct then Some (w', Ok (ft, sum)) else None
      | Fails late => failing late w w' (Err BodyFailed)
      | _ => None
      end
  | Stat t => match x with FileSize n => Some (w, Ok n) | Fails _ => Some (w, Err StatFailed) | _ => None end
  | PutHeader t h =>
      let w' := put_header (u_buildID u, t) h w in
      if IncompletePendingUpload h then Some (w, Err RefusedIncomplete)
      else match x with Go => Some (w', Ok ()) | Fails late => failing late w w' (Err StoreFailed) | _ => None end
  | UploadBlob b =>
      let w' := put_blob (u_buildID u, b) w in
      match x with Go => Some (w', Ok ()) | Fails late => failing late w w' (Err BlobFailed) | _ => None end
  | Find a t => nd ← w_nodes w !! n; Some (w, find nd a t)
  | Future a => nd ← w_nodes w !! n; Some (w, n_futures nd !! a)
  | Await f =>
      match x with
      | CtxDone => Some (w, Err Cancelled)
      | Go => nd ← w_nodes w !! n; '(_, r) ← n_results nd !! f; r ← r; Some (w, r)
      | _ => None
      end
  | HeaderOf d => nd ← w_nodes w !! n; dv ← n_devs nd !! d; Some (w, dv_header dv)
  | IsActive a => nd ← w_nodes w !! n; Some (w, match n_peers nd !! a with Some switched => negb switched | None => false end)
  | LoadObject a t => match x with Go => Some (w, load w a t) | Fails _ => Some (w, Err LoadFailed) | _ => None end
  | Select =>
      match x with CtxDone => Some (w, WakeCtx) | Hint failed => Some (w, WakeHint failed) | Tick => Some (w, WakeTimer) | _ => None end
  | SwapHeader d h => Some (on_node n (λ nd, with_devs (alter (swap h) d (n_devs nd)) nd) w, ())
  end.

(** ** [NewUpload] and [Finish] *)

(** [Uploads.Start]: the new future, unless one is in flight. *)
Definition Start (nd : node) (b : uuid) : result upload_err (node * nat) :=
  let f := length (n_results nd) in
  let started := Ok (with_futures (<[b := f]> (n_futures nd)) (n_results nd ++ [(b, NewSetOnce)]) nd, f) in
  match n_futures nd !! b with
  | Some e => match n_results nd !! e with Some (_, None) => Err UploadInFlight | _ => started end
  | None => started
  end.

Definition no_config : CompressConfig := mkConfig false EmptyString 0 0 0 0 0.

(** The flags: whether headers of uncompressed builds are V4, and the
    configuration the flag names, if any.  [None]: no client. *)
Definition flags : Type := option (bool * option CompressConfig).

Definition resolveCompressConfig (base : CompressConfig) (ff : flags) (blockSize : Z) : result upload_err (CompressConfig * bool) :=
  let v4 := match ff with Some (v4, _) => v4 | None => false end in
  let resolved :=
    match ff with
    | Some (_, Some ld) => if cfg_CompressionType ld =? CompressionNone then base else ld
    | _ => base
    end in
  if negb (IsCompressionEnabled resolved) then Ok (no_config, v4)
  else if validateCompressConfig resolved blockSize then Ok (resolved, v4) else Err InvalidConfig.

(** The block sizes are those of the memory and of the root file system, the
    flags those of each file; [v5] is the flag of the header version. *)
Record upload_opts := mkOpts {
  op_uploads : bool;
  op_base : CompressConfig;
  op_mem : flags;
  op_root : flags;
  op_memBlock : Z;
  op_rootBlock : Z;
  op_v5 : bool
}.

Definition NewUpload (nd : node) (b : uuid) (snap : Snapshot) (o : upload_opts) : result upload_err (node * Upload) :=
  '(mem, memV4) ← (if FilesystemSnapshot snap then Ok (no_config, false)
                   else resolveCompressConfig (op_base o) (op_mem o) (op_memBlock o));
  '(root, rootV4) ← resolveCompressConfig (op_base o) (op_root o) (op_rootBlock o);
  let version := if op_v5 o then MetadataVersionV5 else MetadataVersionV4 in
  let u f := mkUpload b snap (op_uploads o) mem root f (memV4 || rootV4 || (version =? MetadataVersionV5)) version in
  if op_uploads o then '(nd, f) ← Start nd b; Ok (nd, u (Some f)) else Ok (nd, u None).

(** The futures after [Finish]; the payload published to other nodes is a
    hint of a poll. *)
Definition set_future (f : nat) (r : result upload_err unit) (nd : node) : node :=
  with_futures (n_futures nd) (alter (λ '(b, c), (b, setResult c r)) f (n_results nd)) nd.

Definition Finish (u : Upload) (r : result upload_err unit) (nd : node) : node :=
  match u_future u with Some f => set_future f r nd | None => nd end.

(** ** The moves *)

(** Where a device of a template comes from. *)
Inductive origin := NoDevice | FromStorage | FromPeer (m : nat).

Inductive event :=
| EPause (n : nat) (b : uuid) (snap : Snapshot) (o : upload_opts)
| ERun (i : nat)
| ECall (i j : nat) (x : choice)
| EJoin (i : nat)
| EFinish (i : nat) (failed : option upload_err)
| EOpen (n : nat) (a : uuid) (mem root : origin)
| EPromote (n d : nat)
| EEvict (n : nat) (a : uuid)
| EExpire (n : nat) (a : uuid)
| EUnregister (a : uuid)
| EPeer (n : nat) (a : uuid) (switched : bool).

(** A header as a peer sends it. *)
Definition wire_header (h : Header) : Header :=
  let m := h_Metadata h in
  mkHeader (mkMetadata MetadataVersionV5 (BlockSize m) (Size m) (Generation m) (md_BuildId m) (BaseBuildId m)) (h_Builds h) (h_Mapping h) true.

Definition add_device (b : uuid) (t : DiffType) (h : option Header) (nd : node) : node * option nat :=
  match h with
  | Some h => (with_devs (n_devs nd ++ [mkDevice b t h]) nd, Some (length (n_devs nd)))
  | None => (nd, None)
  end.

(** A template enters the cache with what devices it has. *)
Definition add_template (b : uuid) (mem root : option Header) (nd : node) : node :=
  let '(nd, m) := add_device b Memfile mem nd in
  let '(nd, r) := add_device b Rootfs root nd in
  with_templates (<[b := mkTemplate m r]> (n_templates nd)) nd.

Definition header_of (s : Snapshot) (t : DiffType) : option Header :=
  match df_header (diff_of s t) with Ok h => h | Err _ => None end.

(** The header a device starts with: a peer is another node that registered
    the build. *)
Definition fetch (w : world) (n : nat) (a : uuid) (t : DiffType) (o : origin) : option (option Header) :=
  match o with
  | NoDevice => Some None
  | FromStorage => match load w a t with Ok h => Some (Some h) | Err _ => Some None end
  | FromPeer m =>
      if bool_decide (w_registry w !! a = Some m) && negb (m =? n)%nat then
        nd ← w_nodes w !! m; tp ← n_templates nd !! a; d ← tp_of tp t; dv ← n_devs nd !! d; Some (Some (wire_header (dv_header dv)))
      else None
  end.

(** How the body of a build is stored, as a header says: no entry reads as
    uncompressed. *)
Definition codec_of (h : Header) (a : uuid) : Z :=
  match default ∅ (h_Builds h) !! a with Some bd => ft_CompressionType (bd_FrameData bd) | None => CompressionNone end.

Definition builds_of (h : Header) : list uuid := m_builds (h_Mapping h).

Definition finished (ph : phase) : bool := match ph with Finished _ => true | _ => false end.

Section world.
Context (loads : nat) (bodied : uuid → DiffType → bool).

(** What a pause gives for one file: a pending header of the build over builds
    that have a body, and the entries its parent had, which are right. *)
Definition diff_ok (w : world) (b : uuid) (t : DiffType) (df : diff) : bool :=
  match df_header df with
  | Ok (Some h) =>
      IncompletePendingUpload h && bool_decide (md_BuildId (h_Metadata h) = b) &&
      match df_path df with Ok p => Bool.eqb p (bodied b t) | Err _ => true end &&
      forallb (λ a, bool_decide (a = uuid_nil) || bodied a t) (builds_of h) &&
      bool_decide (map_Forall (λ a bd, a = b ∨ (a, t, ft_CompressionType (bd_FrameData bd)) ∈ w_bodies w) (default ∅ (h_Builds h)))
  | _ => true
  end.

(** No trace of a build yet. *)
Definition fresh (b : uuid) (w : world) : bool :=
  bool_decide (w_registry w !! b = None) &&
  forallb (λ nd, bool_decide (n_templates nd !! b = None) && forallb (λ dv, bool_decide (dv_build dv ≠ b)) (n_devs nd) &&
                 forallb (λ r, bool_decide (r.1 ≠ b)) (n_results nd)) (w_nodes w) &&
  forallb (λ '(_, u, _), bool_decide (u_buildID u ≠ b)) (w_uploads w).

(** What [Wait] says of its callers: of an ancestor that was never opened here
    and that no peer serves, the header of the snapshot carries the entry, or
    it needs none, the ancestor being stored uncompressed. *)
Definition carried (w : world) (u : Upload) (a : uuid) : bool :=
  forallb (λ t, match header_of (u_snap u) t with
                | Some h => negb (bool_decide (a ∈ builds_of h)) || bool_decide (is_Some (default ∅ (h_Builds h) !! a)) ||
                            bool_decide ((a, t, CompressionNone) ∈ w_bodies w)
                | None => true
                end) [Memfile; Rootfs].

Definition trusted {A} (c : call A) (u : Upload) (w : world) : A → bool :=
  match c in call A return A → bool with
  | IsActive a => λ active, active || carried w u a
  | _ => λ _, true
  end.

Definition run_call {A} (clean : bool) (c : call A) (x : choice) (n : nat) (u : Upload) (w : world) : option (world * A) :=
  '(w', a) ← exec c x n u w;
  if negb clean || trusted c u w a then Some (w', a) else None.

Definition run_prog {R} (clean : bool) (p : prog R) (x : choice) (n : nat) (u : Upload) (w : world) : option (world * prog R) :=
  match p with
  | Ret _ => None
  | Do c k => '(w', a) ← run_call clean c x n u w; Some (w', k a)
  end.

Definition with_phase (i n : nat) (u : Upload) (ph : phase) (w : world) : world := with_uploads (<[i := (n, u, ph)]> (w_uploads w)) w.

(** The first error is the one of the group. *)
Definition note_failure (p : prog (result upload_err unit)) (failed : option upload_err) : option upload_err :=
  match failed, p with None, Ret (Err e) => Some e | _, _ => failed end.

(** What the end of a program, or of all goroutines, leads to. *)
Definition join (u : Upload) (ph : phase) : option phase :=
  match ph with
  | Before p => r ← returned p; Some (match r with Ok paths => Group (group (Run loads u) paths) None | Err e => Ran (Err e) end)
  | Group tasks failed =>
      if forallb (λ p, match p with Ret _ => true | Do _ _ => false end) tasks
      then Some (match failed with Some e => Ran (Err e) | None => After (after (Run loads u)) end)
      else None
  | After p => r ← returned p; Some (Ran r)
  | _ => None
  end.

Definition call_move (clean : bool) (i j : nat) (x : choice) (w : world) : option world :=
  '(n, u, ph) ← w_uploads w !! i;
  match ph with
  | Before p => '(w', p') ← run_prog clean p x n u w; Some (with_phase i n u (Before p') w')
  | After p => '(w', p') ← run_prog clean p x n u w; Some (with_phase i n u (After p') w')
  | Group tasks failed =>
      p ← tasks !! j;
      '(w', p') ← run_prog clean p x n u w;
      Some (with_phase i n u (Group (<[j := p']> tasks) (note_failure p' failed)) w')
  | _ => None
  end.

(** In a [clean] execution builds are named once and made over builds that have
    a body, with the right entries of their parent ([fresh], [diff_ok]); uploads
    are V4; a template stays in the cache while its build is uploaded; and what
    is neither open nor served by a peer is [carried]. *)
Definition move (clean : bool) (e : event) (w : world) : option world :=
  match e with
  | EPause n b snap o =>
      if clean && negb (fresh b w && op_uploads o && diff_ok w b Memfile (sn_Memory snap) && diff_ok w b Rootfs (sn_Rootfs snap)) then None
      else
        nd ← w_nodes w !! n;
        let nd := add_template b (header_of snap Memfile) (header_of snap Rootfs) nd in
        match NewUpload nd b snap o with
        | Ok (nd, u) =>
            if clean && negb (runsV4 u) then None
            else Some (with_uploads (w_uploads w ++ [(n, u, Idle)]) (with_registry (<[b := n]> (w_registry w)) (on_node n (λ _, nd) w)))
        | Err _ => Some (on_node n (λ _, nd) w)
        end
  | ERun i =>
      '(n, u, ph) ← w_uploads w !! i;
      match ph with
      | Idle | Ran (Err _) => Some (with_phase i n u (Before (before (Run loads u))) w)
      | _ => None
      end
  | ECall i j x => call_move clean i j x w
  | EJoin i => '(n, u, ph) ← w_uploads w !! i; ph ← join u ph; Some (with_phase i n u ph w)
  | EFinish i failed =>
      '(n, u, ph) ← w_uploads w !! i;
      match ph with
      | Ran r =>
          let r := match r, failed with Ok _, Some e => Err e | _, _ => r end in
          Some (with_phase i n u (Finished r) (with_registry (delete (u_buildID u) (w_registry w)) (on_node n (Finish u r) w)))
      | _ => None
      end
  | EOpen n a mem root =>
      nd ← w_nodes w !! n;
      if bool_decide (n_templates nd !! a = None) then
        m ← fetch w n a Memfile mem; r ← fetch w n a Rootfs root;
        Some (on_node n (add_template a m r) w)
      else None
  | EPromote n d =>
      nd ← w_nodes w !! n; dv ← n_devs nd !! d;
      let a := md_BuildId (h_Metadata (dv_header dv)) in
      match load w a (dv_type dv) with
      | Ok h => if bool_decide (md_BuildId (h_Metadata h) = a) && bool_decide (is_Some (default ∅ (h_Builds h) !! a))
                then Some (on_node n (λ nd, with_devs (alter (swap h) d (n_devs nd)) nd) w) else None
      | Err _ => None
      end
  | EEvict n a =>
      if clean && existsb (λ '(m, u, ph), (m =? n)%nat && bool_decide (u_buildID u = a) && negb (finished ph)) (w_uploads w) then None
      else Some (on_node n (λ nd, with_peers (delete a (n_peers nd)) (with_templates (delete a (n_templates nd)) nd)) w)
  | EExpire n a => Some (on_node n (λ nd, with_futures (delete a (n_futures nd)) (n_results nd) nd) w)
  | EUnregister a => Some (with_registry (delete a (w_registry w)) w)
  | EPeer n a switched => Some (on_node n (λ nd, with_peers (<[a := switched]> (n_peers nd)) nd) w)
  end.

Definition step (clean : bool) (w w' : world) : Prop := ∃ e, move clean e w = Some w'.

(** ** What grows *)

(** A header is settled when every body it names is in storage, stored the way
    it says, and so is the one of its own build. *)
Record settled (w : world) (t : DiffType) (a : uuid) (h : Header) : Prop := {
  st_id : md_BuildId (h_Metadata h) = a;
  st_bodies b : b ∈ builds_of h → b ≠ uuid_nil → (b, t, codec_of h b) ∈ w_bodies w;
  st_own : bodied a t = true → (a, t, codec_of h a) ∈ w_bodies w
}.

Definition started (nd : node) (a : uuid) : Prop := ∃ f r, n_results nd !! f = Some (a, r).

(** Every device of a file of a build has been given its final header. *)
Definition published (nd : node) (a : uuid) (t : DiffType) : Prop :=
  ∀ d dv, n_devs nd !! d = Some dv → dv_build dv = a → dv_type dv = t → IncompletePendingUpload (dv_header dv) = false.

Record node_ext (nd nd' : node) : Prop := {
  nx_devs d dv : n_devs nd !! d = Some dv → ∃ dv', n_devs nd' !! d = Some dv' ∧ dv_build dv' = dv_build dv ∧ dv_type dv' = dv_type dv ∧
    (IncompletePendingUpload (dv_header dv) = false → IncompletePendingUpload (dv_header dv') = false);
  nx_results f a r : n_results nd !! f = Some (a, r) → ∃ r', n_results nd' !! f = Some (a, r') ∧ ∀ x, r = Some x → r' = Some x;
  nx_published a t : started nd a → published nd a t → published nd' a t
}.

Record ext (w w' : world) : Prop := {
  ex_bodies : w_bodies w ⊆ w_bodies w';
  ex_headers k : is_Some (w_headers w !! k) → is_Some (w_headers w' !! k);
  ex_blobs : w_blobs w ⊆ w_blobs w';
  ex_nodes n nd : w_nodes w !! n = Some nd → ∃ nd', w_nodes w' !! n = Some nd' ∧ node_ext nd nd'
}.

#[local] Instance node_ext_preorder : PreOrder node_ext.
Proof using.
  split.
  - intros nd. split; [intros d dv ->; by exists dv|intros f a r ->; by exists r|done].
  - intros n1 n2 n3 [A1 A2 A3] [B1 B2 B3]. split.
    + intros d dv (dv2 & H2 & E1 & E2 & E3)%A1. destruct (B1 _ _ H2) as (dv3 & H3 & F1 & F2 & F3). exists dv3. split; [done|].
      split; [congruence|]. split; [congruence|auto].
    + intros f a r (r2 & H2 & E)%A2. destruct (B2 _ _ _ H2) as (r3 & H3 & F). exists r3. split; [done|auto].
    + intros a t Hs Hp. apply B3; [|by apply A3]. destruct Hs as (f & r & Hf). destruct (A2 _ _ _ Hf) as (r' & Hf' & _). by exists f, r'.
Qed.

#[local] Instance ext_preorder : PreOrder ext.
Proof using.
  split.
  - intros w. split; [done|done|done|]. intros n nd Hn. exists nd. split; [done|reflexivity].
  - intros w1 w2 w3 [A1 A2 A3 A4] [B1 B2 B3 B4]. split; [by etrans|auto|by etrans|].
    intros n nd (nd2 & H2 & E)%A4. destruct (B4 _ _ H2) as (nd3 & H3 & F). exists nd3. split; [done|by etrans].
Qed.

Lemma settled_mono w w' t a h : w_bodies w ⊆ w_bodies w' → settled w t a h → settled w' t a h.
Proof using. intros E [S1 S2 S3]. split; [done|intros; apply E; auto|intros; apply E; auto]. Qed.

Lemma same_nodes_ext w w' : w_bodies w ⊆ w_bodies w' → (∀ k, is_Some (w_headers w !! k) → is_Some (w_headers w' !! k)) →
  w_blobs w ⊆ w_blobs w' → w_nodes w' = w_nodes w → ext w w'.
Proof using. intros H1 H2 H3 H4. split; [done..|]. intros n nd Hn. exists nd. rewrite H4. split; [done|reflexivity]. Qed.

Lemma on_node_ext n f w nd : w_nodes w !! n = Some nd → node_ext nd (f nd) → ext w (on_node n f w).
Proof using.
  intros Hn Hx. split; [done|done|done|]. intros m nd' Hm. cbn. destruct (decide (m = n)) as [->|Hne].
  - rewrite list_lookup_alter_eq, Hn. replace nd' with nd by congruence. by exists (f nd).
  - rewrite list_lookup_alter_ne by congruence. exists nd'. split; [done|reflexivity].
Qed.

(** ** The invariant of storage and nodes *)

Record node_inv (w : world) (nd : node) : Prop := {
  ni_ids d dv : n_devs nd !! d = Some dv → md_BuildId (h_Metadata (dv_header dv)) = dv_build dv;
  ni_devs d dv : n_devs nd !! d = Some dv → IncompletePendingUpload (dv_header dv) = false → settled w (dv_type dv) (dv_build dv) (dv_header dv);
  ni_templates a tp t d : n_templates nd !! a = Some tp → tp_of tp t = Some d →
    ∃ dv, n_devs nd !! d = Some dv ∧ dv_build dv = a ∧ dv_type dv = t;
  ni_futures a f : n_futures nd !! a = Some f → ∃ r, n_results nd !! f = Some (a, r);
  ni_results f a t : n_results nd !! f = Some (a, Some (Ok ())) → published nd a t
}.

(** The template of an upload is cached, and holds the only devices of its
    build. *)
Record node_live (nd : node) (u : Upload) (tp : template) : Prop := {
  nl_template : n_templates nd !! u_buildID u = Some tp;
  nl_started : started nd (u_buildID u);
  nl_none t : tp_of tp t = None ↔ header_of (u_snap u) t = None;
  nl_future f : u_future u = Some f → ∃ r, n_results nd !! f = Some (u_buildID u, r);
  nl_only t d dv : n_devs nd !! d = Some dv → dv_build dv = u_buildID u → dv_type dv = t → tp_of tp t = Some d
}.

(** An upload not finished. *)
Record upload_live (w : world) (n : nat) (u : Upload) : Prop := {
  ul_v4 : runsV4 u = true;
  ul_table : u_uploads u = true;
  ul_diff t : diff_ok w (u_buildID u) t (diff_of (u_snap u) t) = true;
  ul_node : ∃ nd tp, w_nodes w !! n = Some nd ∧ node_live nd u tp
}.

Record global_inv (w : world) : Prop := {
  gi_stored a t h : w_headers w !! (a, t) = Some h → IncompletePendingUpload h = false ∧ settled w t a h;
  gi_nodes n nd : w_nodes w !! n = Some nd → node_inv w nd;
  gi_live i n u ph : w_uploads w !! i = Some (n, u, ph) → finished ph = false → upload_live w n u;
  gi_registry a n : w_registry w !! a = Some n → ∃ nd, w_nodes w !! n = Some nd ∧ started nd a;
  gi_once n m nd nd' a : w_nodes w !! n = Some nd → w_nodes w !! m = Some nd' → started nd a → started nd' a → n = m
}.

Lemma diff_ok_mono w w' b t df : w_bodies w ⊆ w_bodies w' → diff_ok w b t df = true → diff_ok w' b t df = true.
Proof using.
  intros Hb. unfold diff_ok. destruct (df_header df) as [[h|]|]; [|done..]. rewrite !andb_true_iff. intros [H1 H2]. split; [done|].
  rewrite bool_decide_eq_true in *. intros a bd Ha. destruct (H2 a bd Ha); auto.
Qed.

Lemma node_inv_mono w w' nd : w_bodies w ⊆ w_bodies w' → node_inv w nd → node_inv w' nd.
Proof using.
  intros Hb [N1 N2 N3 N4 N5]. split; [done| |done..]. intros d dv Hd Hp. destruct (N2 d dv Hd Hp). split; [done|auto..].
Qed.

Lemma upload_live_mono w w' n u : w_bodies w ⊆ w_bodies w' → w_nodes w' = w_nodes w → upload_live w n u → upload_live w' n u.
Proof using. intros Hb Hn [U1 U2 U3 U4]. split; [done|done|by intros t; eapply diff_ok_mono|by rewrite Hn]. Qed.

(** Storage grows, and the nodes stay. *)
Lemma grow_inv w w' : global_inv w → w_bodies w ⊆ w_bodies w' → w_nodes w' = w_nodes w → w_registry w' = w_registry w →
  (∀ i n u ph, w_uploads w' !! i = Some (n, u, ph) → finished ph = false → ∃ j ph', w_uploads w !! j = Some (n, u, ph') ∧ finished ph' = false) →
  (∀ a t h, w_headers w' !! (a, t) = Some h → IncompletePendingUpload h = false ∧ settled w' t a h) → global_inv w'.
Proof using.
  intros [G1 G2 G3 G4 G5] Hb Hn Hr Hu Hh. split; rewrite ?Hn, ?Hr; try done.
  - intros n nd Hnd. eapply node_inv_mono; [exact Hb|by eapply G2].
  - intros i n u ph Hi Hf. destruct (Hu i n u ph Hi Hf) as (j & ph' & Hj & Hf'). eapply upload_live_mono; [exact Hb|exact Hn|by eapply G3].
Qed.

(** What a call asks of its caller. *)
Definition call_pre {A} (c : call A) (n : nat) (u : Upload) (w : world) : Prop :=
  match c with
  | PutHeader t h => settled w t (u_buildID u) h
  | SwapHeader d h => ∀ nd dv, w_nodes w !! n = Some nd → n_devs nd !! d = Some dv →
      IncompletePendingUpload h = false ∧ settled w (dv_type dv) (dv_build dv) h
  | _ => True
  end.

Lemma alter_swap_lookup h d (ds : list device) e dv : alter (swap h) d ds !! e = Some dv →
  ∃ dv0, ds !! e = Some dv0 ∧ dv_build dv = dv_build dv0 ∧ dv_type dv = dv_type dv0 ∧ (dv = dv0 ∨ e = d ∧ dv_header dv = h).
Proof using.
  destruct (decide (e = d)) as [->|Hne].
  - rewrite list_lookup_alter_eq. destruct (ds !! d) as [dv0|]; [|done]. cbn. intros [= <-]. exists dv0. split_and!; auto.
  - rewrite list_lookup_alter_ne by congruence. intros H. exists dv. auto.
Qed.

(** A node changes, for what is not finished on it. *)
Lemma node_step w n nd f : global_inv w → w_nodes w !! n = Some nd → node_ext nd (f nd) → node_inv w (f nd) →
  (∀ a, started (f nd) a → started nd a ∨ ∀ m x, w_nodes w !! m = Some x → ¬ started x a) →
  (∀ i u ph tp, w_uploads w !! i = Some (n, u, ph) → finished ph = false → node_live nd u tp → ∃ tp', node_live (f nd) u tp') →
  global_inv (on_node n f w) ∧ ext w (on_node n f w).
Proof using.
  intros [G1 G2 G3 G4 G5] Hn Hx Hi Hst Hlive. split; [|by eapply on_node_ext].
  assert (Hnodes : ∀ m x, w_nodes (on_node n f w) !! m = Some x → ∃ x0, w_nodes w !! m = Some x0 ∧ node_inv w x ∧
    ∀ a, started x a → started x0 a ∨ m = n ∧ ∀ p y, w_nodes w !! p = Some y → ¬ started y a).
  { intros m x. cbn. destruct (decide (m = n)) as [->|Hne].
    - rewrite list_lookup_alter_eq, Hn. cbn. intros [= <-]. exists nd. split_and!; [done|done|]. intros a Ha. destruct (Hst a Ha); auto.
    - rewrite list_lookup_alter_ne by congruence. intros H. exists x. split_and!; [done|by eapply G2|by left]. }
  assert (Hfwd : ∀ m x0, w_nodes w !! m = Some x0 → ∃ x, w_nodes (on_node n f w) !! m = Some x ∧ ∀ a, started x0 a → started x a).
  { intros m x0 Hm. destruct (ex_nodes _ _ (on_node_ext n f w nd Hn Hx) m x0 Hm) as (x & H1 & H2). exists x. split; [done|]. intros a.
    intros (g & r & Hg). destruct (nx_results _ _ H2 _ _ _ Hg) as (r' & Hr & _). by exists g, r'. }
  split; cbn [w_headers w_uploads w_registry].
  - intros a t h Ha. destruct (G1 a t h Ha). split; [done|by apply (settled_mono w)].
  - intros m x (x0 & _ & Hx0 & _)%Hnodes. by apply (node_inv_mono w).
  - intros i m u ph Hu Hf. destruct (G3 i m u ph Hu Hf) as [U1 U2 U3 (x0 & tp & Hm & Hl)]. split; [done|done|intros t; by apply (diff_ok_mono w)|].
    destruct (decide (m = n)) as [->|Hne].
    + replace x0 with nd in * by congruence. destruct (Hlive i u ph tp Hu Hf Hl) as [tp' Hl']. exists (f nd), tp'. cbn. by rewrite list_lookup_alter_eq, Hn.
    + exists x0, tp. cbn. by rewrite list_lookup_alter_ne by congruence.
  - intros a m Ha. destruct (G4 a m Ha) as (x0 & (x & Hm & Hxs)%Hfwd & Hs). exists x. split; [done|by apply Hxs].
  - intros p m x x' a (x0 & H1 & _ & E1)%Hnodes (x1 & H2 & _ & E2)%Hnodes Hs1 Hs2. destruct (E1 a Hs1) as [S1|[-> S1]], (E2 a Hs2) as [S2|[-> S2]].
    + by eapply (G5 p m x0 x1 a).
    + by destruct (S2 p x0 H1).
    + by destruct (S1 m x1 H2).
    + done.
Qed.

(** A device is given a settled header of its build. *)
Lemma swap_inv w n nd d h : global_inv w → w_nodes w !! n = Some nd →
  (∀ dv, n_devs nd !! d = Some dv → IncompletePendingUpload h = false ∧ settled w (dv_type dv) (dv_build dv) h) →
  let w' := on_node n (λ nd, with_devs (alter (swap h) d (n_devs nd)) nd) w in global_inv w' ∧ ext w w'.
Proof using.
  intros G Hn Hh. destruct (gi_nodes _ G _ _ Hn) as [N1 N2 N3 N4 N5].
  assert (Hx : node_ext nd (with_devs (alter (swap h) d (n_devs nd)) nd)).
  { split; [|by intros f a r Hf; exists r|].
    - intros e dv He. destruct (decide (e = d)) as [->|Hne]; cbn.
      + rewrite list_lookup_alter_eq, He. exists (swap h dv). split_and!; [done|done|done|]. intros _. exact (proj1 (Hh _ He)).
      + rewrite list_lookup_alter_ne by congruence. by exists dv.
    - intros a t _ Hp e dv (dv0 & He & E1 & E2 & [->|[-> <-]])%alter_swap_lookup Ha Ht; [by eapply Hp|exact (proj1 (Hh dv0 He))]. }
  apply (node_step w n nd); [done|done|exact Hx| |by left|].
  - split; cbn.
    + intros e dv (dv0 & He & E1 & E2 & [->|[-> <-]])%alter_swap_lookup; [by eapply N1|]. rewrite E1. exact (st_id _ _ _ _ (proj2 (Hh _ He))).
    + intros e dv (dv0 & He & E1 & E2 & Hc)%alter_swap_lookup Hp. rewrite E1, E2.
      destruct Hc as [->|[-> <-]]; [by eapply N2|exact (proj2 (Hh _ He))].
    + intros a tp t e Ha He. destruct (N3 a tp t e Ha He) as (dv & Hd & Hb & Ht). apply (nx_devs _ _ Hx) in Hd as (dv' & Hd & E1 & E2 & _).
      exists dv'. split_and!; [exact Hd|congruence|congruence].
    + exact N4.
    + intros f a t Hf. eapply (nx_published _ _ Hx); [by eexists _, _|by eapply N5].
  - intros i u ph tp _ _ [L1 L2 L3 L4 L5]. exists tp. split; [done..|].
    intros t e dv (dv0 & He & E1 & E2 & _)%alter_swap_lookup Hb Ht. eapply L5; [exact He|congruence|congruence].
Qed.

(** ** Programs under interference *)

Lemma put_body_inv k w : global_inv w → global_inv (put_body k w) ∧ ext w (put_body k w).
Proof using.
  intros G. assert (Hb : w_bodies w ⊆ w_bodies (put_body k w)) by (cbn; set_solver). split.
  - eapply grow_inv; [exact G|exact Hb|done|done|by intros i n u ph Hi; exists i, ph|].
    intros a t h Ha. destruct (gi_stored _ G a t h Ha). split; [done|by apply (settled_mono w)].
  - by apply same_nodes_ext.
Qed.

Lemma put_header_inv a t h w : global_inv w → IncompletePendingUpload h = false → settled w t a h →
  global_inv (put_header (a, t) h w) ∧ ext w (put_header (a, t) h w).
Proof using.
  intros G Hp Hs. split.
  - eapply grow_inv; [exact G|done|done|done|by intros i n u ph Hi; exists i, ph|].
    intros b t' h' Hb. cbn in Hb. apply lookup_insert_Some in Hb as [[E <-]|[_ Hb]].
    + injection E as <- <-. split; [done|by apply (settled_mono w)].
    + destruct (gi_stored _ G b t' h' Hb). split; [done|by apply (settled_mono w)].
  - apply same_nodes_ext; [done| |done|done]. intros k Hk. cbn. destruct (decide (k = (a, t))) as [->|Hne]; [by rewrite lookup_insert_eq|by rewrite lookup_insert_ne].
Qed.

Lemma put_blob_inv k w : global_inv w → global_inv (put_blob k w) ∧ ext w (put_blob k w).
Proof using.
  intros G. split.
  - eapply grow_inv; [exact G|done|done|done|by intros i n u ph Hi; exists i, ph|].
    intros a t h Ha. destruct (gi_stored _ G a t h Ha). split; [done|by apply (settled_mono w)].
  - apply same_nodes_ext; [done|done|cbn; set_solver|done].
Qed.

Lemma exec_inv {A} (c : call A) x n u w w' a : global_inv w → call_pre c n u w → exec c x n u w = Some (w', a) →
  global_inv w' ∧ ext w w' ∧ w_uploads w' = w_uploads w.
Proof using.
  intros G Hpre He. assert (Hid : global_inv w ∧ ext w w ∧ w_uploads w = w_uploads w) by (by split_and!).
  assert (Hbody : ∀ k, global_inv (put_body k w) ∧ ext w (put_body k w) ∧ w_uploads (put_body k w) = w_uploads w) by (intros k; by destruct (put_body_inv k w G)).
  assert (Hblob : ∀ k, global_inv (put_blob k w) ∧ ext w (put_blob k w) ∧ w_uploads (put_blob k w) = w_uploads w) by (intros k; by destruct (put_blob_inv k w G)).
  destruct c; cbn [exec] in He.
  all: try (destruct x; try discriminate He; by injection He as <- _).
  - destruct x; try discriminate He; [by destruct late; injection He as <- _|]. destruct (_ =? _); [|done]. by injection He as <- _.
  - destruct (IncompletePendingUpload h) eqn:Hp; [by injection He as <- _|]. destruct (put_header_inv _ _ _ _ G Hp Hpre).
    destruct x; try discriminate He; [by injection He as <- _|]. destruct late; by injection He as <- _.
  - destruct x; try discriminate He; [by injection He as <- _|]. destruct late; by injection He as <- _.
  - destruct (w_nodes w !! n); [|done]. by injection He as <- _.
  - destruct (w_nodes w !! n); [|done]. by injection He as <- _.
  - destruct x; try discriminate He; [|by injection He as <- _]. destruct (w_nodes w !! n) as [nd|]; [|done]. cbn in He.
    destruct (n_results nd !! f) as [[b [r|]]|]; [|done..]. by injection He as <- _.
  - destruct (w_nodes w !! n) as [nd|]; [|done]. cbn in He. destruct (n_devs nd !! d); [|done]. by injection He as <- _.
  - destruct (w_nodes w !! n); [|done]. by injection He as <- _.
  - injection He as <- _. destruct (w_nodes w !! n) as [nd|] eqn:Hn.
    + destruct (swap_inv w n nd d h G Hn) as [? ?]; [intros dv Hd; by eapply Hpre|done].
    + replace (on_node n _ w) with w; [done|]. unfold on_node. destruct w as [bs hs bl ns rg us]. cbn in *. f_equal.
      symmetry. apply list_eq. intros i. destruct (decide (i = n)) as [->|Hne]; [by rewrite list_lookup_alter_eq, Hn|by rewrite list_lookup_alter_ne by congruence].
Qed.

(** The weakest precondition of a program of the upload [i]: between two calls
    the world may grow. *)
Section program_logic.
Context (i n : nat) (u : Upload).

Definition running_upload (w : world) : Prop := ∃ ph, w_uploads w !! i = Some (n, u, ph) ∧ finished ph = false.

Definition others (_ : unit) (w w1 : world) : Prop := ext w w1 ∧ global_inv w1 ∧ running_upload w1.
Definition needs A (c : call A) (_ : unit) (w : world) : Prop := call_pre c n u w.
Definition answers A (c : call A) (_ : unit) (w : world) (a : A) (_ : unit) (w2 : world) : Prop :=
  ∃ x, exec c x n u w = Some (w2, a) ∧ trusted c u w a = true ∧ ext w w2 ∧ global_inv w2.

Definition wp {R} (p : prog R) (Q : world → R → Prop) (w : world) : Prop :=
  Prog.wp others needs answers p (λ _, Q) () w.

Definition stable {R} (Q : world → R → Prop) : Prop := ∀ w w' r, ext w w' → Q w r → Q w' r.

Lemma wp_ret {R} (r : R) (Q : world → R → Prop) w : Q w r → wp (Ret r) Q w.
Proof using. done. Qed.

Lemma wp_ext {R} (p : prog R) Q w w' : stable Q → ext w w' → wp p Q w → wp p Q w'.
Proof using.
  intros HQ He. destruct p as [r|A c k]; cbn; [by apply HQ|]. intros Hp w1 (H1 & H2 & H3). apply Hp. split; [by etrans|done].
Qed.

Lemma wp_mono {R} (p : prog R) (Q Q' : world → R → Prop) w : (∀ w r, Q w r → Q' w r) → wp p Q w → wp p Q' w.
Proof using. intros HQ. apply prog_wp_mono. auto. Qed.

Lemma wp_bind {A B} (p : prog A) (f : A → prog B) Q w : wp p (λ w a, wp (f a) Q w) w → wp (p ≫= f) Q w.
Proof using. intros Hp. apply prog_wp_bind. eapply prog_wp_mono; [|exact Hp]. by intros []. Qed.

(** What only grows is kept. *)
Lemma wp_frame {R} (P : world → Prop) (p : prog R) Q w : (∀ w w', ext w w' → P w → P w') → P w → wp p Q w → wp p (λ w r, Q w r ∧ P w) w.
Proof using.
  intros HP. apply prog_wp_frame; [intros [] w1 w2 (X & _); by apply HP|].
  intros A c [] w1 a [] w2 (x & _ & _ & X & _). by apply HP.
Qed.

Lemma wp_check {E A B} (p : prog (result E A)) (k : A → prog (result E B)) (Q : world → result E B → Prop) w :
  (∀ w e, Q w (Err e)) → wp p (λ w r, match r with Ok a => wp (k a) Q w | Err _ => True end) w → wp (check p k) Q w.
Proof using.
  intros He Hp. apply prog_wp_check; [by intros _|]. eapply prog_wp_mono; [|exact Hp]. by intros [] w' [].
Qed.

Lemma wp_perform {A} (c : call A) (Q : world → A → Prop) w :
  (∀ w1, ext w w1 → global_inv w1 → running_upload w1 → call_pre c n u w1 ∧
    ∀ x w2 a, exec c x n u w1 = Some (w2, a) → trusted c u w1 a = true → ext w1 w2 → global_inv w2 → Q w2 a) → wp (perform c) Q w.
Proof using.
  intros Hp w1 (X & G & U). destruct (Hp w1 X G U) as [Hpre Hk]. split; [done|].
  intros a [] w2 (x & He & Ht & X2 & G2). by eapply Hk.
Qed.
End program_logic.

(** *** What the calls tell *)

Definition device_at (w : world) (n d : nat) (a : uuid) (t : DiffType) (done : bool) : Prop :=
  ∃ nd dv, w_nodes w !! n = Some nd ∧ n_devs nd !! d = Some dv ∧ dv_build dv = a ∧ dv_type dv = t ∧
    (done = true → IncompletePendingUpload (dv_header dv) = false).

Definition future_at (w : world) (n f : nat) (a : uuid) : Prop :=
  ∃ nd r, w_nodes w !! n = Some nd ∧ n_results nd !! f = Some (a, r).

Lemma device_at_ext w w' n d a t b : ext w w' → device_at w n d a t b → device_at w' n d a t b.
Proof using.
  intros [_ _ _ X] (nd & dv & H1 & H2 & H3 & H4 & H5). destruct (X _ _ H1) as (nd' & Hn & [D _ _]). destruct (D _ _ H2) as (dv' & Hd & E1 & E2 & E3).
  exists nd', dv'. split_and!; [done|done|congruence|congruence|auto].
Qed.

Lemma future_at_ext w w' n f a : ext w w' → future_at w n f a → future_at w' n f a.
Proof using.
  intros [_ _ _ X] (nd & r & H1 & H2). destruct (X _ _ H1) as (nd' & Hn & [_ D _]). destruct (D _ _ _ H2) as (r' & Hr & _). by exists nd', r'.
Qed.

Lemma find_device w n nd a t d : global_inv w → w_nodes w !! n = Some nd → find nd a t = Ok d → device_at w n d a t false.
Proof using.
  intros G Hn. unfold find. destruct (n_templates nd !! a) as [tp|] eqn:Ha; [|done]. destruct (tp_of tp t) as [d'|] eqn:Hd; [|done]. intros [= ->].
  destruct (ni_templates _ _ (gi_nodes _ G _ _ Hn) _ _ _ _ Ha Hd) as (dv & H1 & H2 & H3). by exists nd, dv.
Qed.

Lemma device_settled w n d a t nd dv : global_inv w → device_at w n d a t true → w_nodes w !! n = Some nd → n_devs nd !! d = Some dv →
  settled w t a (dv_header dv).
Proof using.
  intros G (nd' & dv' & H1 & H2 & <- & <- & H5) Hn Hd. replace nd' with nd in * by congruence. replace dv' with dv in * by congruence.
  by apply (ni_devs _ _ (gi_nodes _ G _ _ Hn) d); [|apply H5].
Qed.

Lemma codec_backfill h a : codec_of (backfillMissingV3UncompressedBuilds h) a = codec_of h a.
Proof using.
  unfold codec_of. rewrite backfill_lookup. destruct (default ∅ (h_Builds h) !! a) as [bd|]; [done|]. by case_bool_decide.
Qed.

Lemma load_settled w a t h : global_inv w → load w a t = Ok h → IncompletePendingUpload h = false ∧ settled w t a h.
Proof using.
  intros G. unfold load. destruct (w_headers w !! (a, t)) as [h0|] eqn:Hh; [|done]. destruct (gi_stored _ G _ _ _ Hh) as [Hp [S1 S2 S3]].
  rewrite Hp. intros [= <-]. split; [exact Hp|]. split; [done| |]; intros; rewrite codec_backfill; auto.
Qed.

(** The entries of the header of a snapshot are right. *)
Lemma diff_entries w b t sn h : diff_ok w b t (diff_of sn t) = true → header_of sn t = Some h →
  ∀ a bd, default ∅ (h_Builds h) !! a = Some bd → a = b ∨ (a, t, ft_CompressionType (bd_FrameData bd)) ∈ w_bodies w.
Proof using.
  unfold diff_ok, header_of. destruct (df_header (diff_of sn t)) as [[h'|]|]; [|done..]. intros [_ Hd]%andb_true_iff [= ->].
  apply bool_decide_eq_true in Hd. intros a bd Ha. exact (Hd a bd Ha).
Qed.

(** *** The wait for an ancestor *)

Section specs.
Context (i n : nat) (u : Upload).
Notation wp := (wp i n u).

Definition loaded_ok (a : uuid) (t : DiffType) (w : world) (r : result upload_err Header) : Prop :=
  match r with Ok h => IncompletePendingUpload h = false ∧ settled w t a h | Err _ => True end.

Lemma Poll_spec k a t m w : wp (PollRemoteStorageForHeader k a t m) (loaded_ok a t) w.
Proof using.
  revert m w. induction k as [|k IH]; intros m w; cbn [PollRemoteStorageForHeader]; apply wp_bind, wp_perform.
  all: intros w1 _ _ _; split; [done|]; intros x w2 r He _ _ G2; cbn [exec] in He.
  all: assert (Hr : match r with Ok h => IncompletePendingUpload h = false ∧ settled w2 t a h | Err _ => True end)
    by (destruct x; try discriminate He; injection He as <- <-; [|done]; destruct (load w1 a t) as [h|] eqn:Hl; [by apply load_settled|done]).
  all: destruct r as [h|e]; [exact Hr|]; cbv zeta; destruct (_ <=? _); [done|].
  - done.
  - apply wp_bind, wp_perform. intros w3 _ _ _. split; [done|]. intros x' w4 wk _ _ _ _. destruct wk as [|[]|]; cbn; try done; apply IH.
Qed.

Definition ancestor_ok (a : uuid) (t : DiffType) (w : world) (r : result upload_err (option Header)) : Prop :=
  match r with
  | Ok (Some h) => settled w t a h
  | Ok None => a ≠ u_buildID u → ∀ h, header_of (u_snap u) t = Some h → a ∈ builds_of h → (a, t, codec_of h a) ∈ w_bodies w
  | Err _ => True
  end.

Lemma header_done d a t w : device_at w n d a t true → wp (h ←! HeaderOf d; Ret (Ok (Some h))) (ancestor_ok a t) w.
Proof using.
  intros Hd. apply wp_bind, wp_perform. intros w1 X1 G1 _. split; [done|]. intros x w2 h He _ X2 G2. cbn [exec] in He.
  destruct (w_nodes w1 !! n) as [nd|] eqn:Hn; [|done]. cbn in He. destruct (n_devs nd !! d) as [dv|] eqn:Hdv; [|done]. injection He as <- <-.
  cbn. eapply device_settled; [exact G2| |exact Hn|exact Hdv]. eapply device_at_ext; [exact X1|exact Hd].
Qed.

(** The poll, and the swap onto the device. *)
Lemma refresh_spec od a t w : (∀ d, od = Some d → device_at w n d a t false) →
  wp (h ←? PollRemoteStorageForHeader loads a t 0;
      match od with Some d => _ ←! SwapHeader d h; Ret (Ok (Some h)) | None => Ret (Ok (Some h)) end) (ancestor_ok a t) w.
Proof using.
  intros Hod. apply wp_check; [done|].
  assert (Hpoll : wp (PollRemoteStorageForHeader loads a t 0) (λ w' r, loaded_ok a t w' r ∧ ∀ d, od = Some d → device_at w' n d a t false) w).
  { apply wp_frame; [|exact Hod|apply Poll_spec]. intros w1 w2 X H d E. eapply device_at_ext; [exact X|by apply H]. }
  eapply wp_mono; [|exact Hpoll]. intros w' [h|e] [Hl Hd]; [|done]. cbn in Hl. destruct Hl as [Hp Hs].
  destruct od as [d|]; [|exact Hs]. apply wp_bind, wp_perform. intros w1 X1 G1 _. split.
  - intros nd dv Hn Hdv. split; [done|]. destruct (device_at_ext _ _ _ _ _ _ _ X1 (Hd d eq_refl)) as (nd' & dv' & H1 & H2 & <- & <- & _).
    replace nd' with nd in * by congruence. replace dv' with dv in * by congruence. by apply (settled_mono w'); [apply X1|].
  - intros x w2 [] _ _ X2 _. cbn. apply (settled_mono w'); [|done]. etrans; [apply X1|apply X2].
Qed.

(** The branch without a future: the header is final, or polled, or the peers
    know nothing of the build. *)
Lemma no_future_spec od a t w : (∀ d, od = Some d → device_at w n d a t false) →
  wp (settled ← match od with Some d => h ←! HeaderOf d; Ret (negb (IncompletePendingUpload h)) | None => Ret false end;
      match od, settled with
      | Some d, true => h ←! HeaderOf d; Ret (Ok (Some h))
      | _, _ =>
          active ← match od with Some _ => Ret true | None => perform (IsActive a) end;
          if negb active then Ret (Ok None)
          else h ←? PollRemoteStorageForHeader loads a t 0;
               match od with Some d => _ ←! SwapHeader d h; Ret (Ok (Some h)) | None => Ret (Ok (Some h)) end
      end) (ancestor_ok a t) w.
Proof using.
  intros Hod. pose proof (refresh_spec od a t) as Href. destruct od as [d|].
  - apply wp_bind, wp_bind, wp_perform. intros w1 X1 G1 _. split; [done|]. intros x w2 h He _ X2 G2. cbn [exec] in He.
    destruct (w_nodes w1 !! n) as [nd|] eqn:Hn; [|done]. cbn in He. destruct (n_devs nd !! d) as [dv|] eqn:Hdv; [|done]. injection He as <- <-.
    assert (H1 : device_at w1 n d a t false) by (eapply device_at_ext; [exact X1|by apply Hod]). cbn [wp].
    destruct (IncompletePendingUpload (dv_header dv)) eqn:Hp; cbn [negb].
    + apply Href. by intros d' [= <-].
    + apply header_done. destruct H1 as (nd' & dv' & A1 & A2 & A3 & A4 & _). exists nd', dv'. split_and!; try done. intros _.
      replace nd' with nd in * by congruence. by replace dv' with dv in * by congruence.
  - cbn [mbind prog_mbind prog_bind]. apply wp_bind, wp_perform. intros w1 _ G1 (ph & Hi & Hf). split; [done|]. intros x w2 active He Ht _ G2. cbn [exec] in He.
    destruct (w_nodes w1 !! n) as [nd|]; [|done]. cbn in He. injection He as <- <-. destruct (match n_peers nd !! a with Some b => negb b | None => false end).
    + by apply Href.
    + cbn. cbn in Ht. intros Hne h Hh Ha. unfold carried in Ht. cbn [forallb] in Ht.
      assert (E : negb (bool_decide (a ∈ builds_of h)) || bool_decide (is_Some (default ∅ (h_Builds h) !! a)) || bool_decide ((a, t, CompressionNone) ∈ w_bodies w1) = true).
      { destruct t; rewrite Hh in Ht; rewrite !andb_true_iff in Ht; tauto. }
      rewrite (bool_decide_eq_true_2 (a ∈ _)) in E by done. unfold codec_of. destruct (default ∅ (h_Builds h) !! a) as [bd|] eqn:Ebd.
      * by destruct (diff_entries w1 (u_buildID u) t (u_snap u) h (ul_diff _ _ _ (gi_live _ G1 _ _ _ _ Hi Hf) t) Hh a bd Ebd).
      * rewrite (bool_decide_eq_false_2 (is_Some _)) in E by (by intros []). by apply bool_decide_eq_true in E.
Qed.

Lemma Wait_from_spec od a t w : (∀ d, od = Some d → device_at w n d a t false) → wp (Wait_from loads od a t) (ancestor_ok a t) w.
Proof using.
  intros Hod. unfold Wait_from. apply wp_bind, wp_perform. intros w1 X1 G1 _. split; [done|]. intros x w2 item He _ X2 G2. cbn [exec] in He.
  destruct (w_nodes w1 !! n) as [nd|] eqn:Hn; [|done]. cbn in He. injection He as <- <-.
  assert (H1 : ∀ d, od = Some d → device_at w1 n d a t false) by (intros d E; eapply device_at_ext; [exact X1|by apply Hod]).
  destruct (n_futures nd !! a) as [f|] eqn:Hf; [|by apply no_future_spec].
  destruct (ni_futures _ _ (gi_nodes _ G1 _ _ Hn) _ _ Hf) as [r0 Hr0]. apply wp_bind, wp_perform. intros w3 X3 G3 _. split; [done|].
  intros x' w4 r He _ X4 G4. cbn [exec] in He. destruct (future_at_ext _ _ _ _ _ X3 (ex_intro _ nd (ex_intro _ r0 (conj Hn Hr0)))) as (nd' & r' & Hn' & Hr').
  destruct r as [[]|e]; [|done]. destruct x'; try discriminate He. rewrite Hn' in He. cbn in He. rewrite Hr' in He. cbn in He.
  destruct r' as [r'|]; [|done]. cbn in He. injection He as <- ->. destruct od as [d|]; [|done]. apply header_done.
  destruct (device_at_ext _ _ _ _ _ _ _ X3 (H1 d eq_refl)) as (nd2 & dv & A1 & A2 & A3 & A4 & _). exists nd2, dv. split_and!; try done.
  intros _. replace nd2 with nd' in * by congruence. by eapply (ni_results _ _ (gi_nodes _ G3 _ _ Hn')).
Qed.

Lemma Wait_spec a t w : wp (Wait loads a t) (ancestor_ok a t) w.
Proof using.
  unfold Wait. apply wp_bind, wp_perform. intros w1 _ G1 _. split; [done|]. intros x w2 r He _ _ G2. cbn [exec] in He.
  destruct (w_nodes w1 !! n) as [nd|] eqn:Hn; [|done]. cbn in He. injection He as <- <-.
  assert (Hd : ∀ d, find nd a t = Ok d → device_at w1 n d a t false) by (intros d E; by eapply find_device).
  set (od := match find nd a t with Ok d => Some d | Err _ => None end).
  assert (Hod : ∀ d, od = Some d → device_at w1 n d a t false) by (unfold od; intros d E; apply Hd; by destruct (find nd a t); [injection E as ->|]).
  assert (Hrest : wp (Wait_from loads od a t) (ancestor_ok a t) w1) by (by apply Wait_from_spec).
  unfold od in Hrest. by destruct (find nd a t) as [d|[|]].
Qed.

(** *** The builds of the ancestors *)

Definition codec_in (dst : gmap uuid BuildData) (a : uuid) : Z :=
  match dst !! a with Some bd => ft_CompressionType (bd_FrameData bd) | None => CompressionNone end.

Section ancestors.
Context (t : DiffType) (h0 : Header).
Hypothesis Hh0 : header_of (u_snap u) t = Some h0.
Hypothesis Hbodied : ∀ a, a ∈ builds_of h0 → a ≠ uuid_nil → bodied a t = true.
Notation src := (default ∅ (h_Builds h0)).

Definition right (w : world) (dst : gmap uuid BuildData) (a : uuid) : Prop := (a, t, codec_in dst a) ∈ w_bodies w.

(** Every entry is right, and an ancestor without one has none in the header
    of the snapshot. *)
Record dst_ok (w : world) (dst : gmap uuid BuildData) : Prop := {
  do_entries a bd : dst !! a = Some bd → a ≠ u_buildID u → (a, t, ft_CompressionType (bd_FrameData bd)) ∈ w_bodies w;
  do_source a : a ∈ builds_of h0 → a ≠ u_buildID u → right w dst a ∨ dst !! a = src !! a
}.

Lemma dst_ok_ext w w' dst : ext w w' → dst_ok w dst → dst_ok w' dst.
Proof using.
  intros X [D1 D2]. split.
  - intros a bd Ha Hne. apply X. by eapply D1.
  - intros a Ha Hne. destruct (D2 a Ha Hne) as [Hr|Hs]; [left; by apply X|by right].
Qed.

Lemma right_ext w w' dst a : ext w w' → right w dst a → right w' dst a.
Proof using. intros X. apply X. Qed.

(** One ancestor. *)
Lemma inherit_ok w dst a h : dst_ok w dst → a ∈ builds_of h0 → a ≠ u_buildID u → a ≠ uuid_nil → ancestor_ok a t w (Ok h) →
  ∃ dst', inherit a h (Some dst) = Some dst' ∧ dst_ok w dst' ∧ right w dst' a ∧ ∀ b, right w dst b → right w dst' b.
Proof using Hh0 Hbodied.
  intros [D1 D2] Ha Hne Hnil Hok.
  assert (Hset : ∀ bd, (a, t, ft_CompressionType (bd_FrameData bd)) ∈ w_bodies w →
    dst_ok w (<[a := bd]> dst) ∧ right w (<[a := bd]> dst) a ∧ ∀ b, right w dst b → right w (<[a := bd]> dst) b).
  { intros bd Hbd. assert (Hra : right w (<[a := bd]> dst) a) by (unfold right, codec_in; by rewrite lookup_insert_eq).
    assert (Hrb : ∀ b, right w dst b → right w (<[a := bd]> dst) b).
    { intros b Hb. destruct (decide (b = a)) as [->|Hba]; [done|]. unfold right, codec_in in *. by rewrite lookup_insert_ne. }
    split; [|done]. split.
    - intros b bd' Hb Hb'. apply lookup_insert_Some in Hb as [[<- <-]|[_ Hb]]; [done|by eapply D1].
    - intros b Hb Hb'. destruct (D2 b Hb Hb') as [Hr|Hs]; [left; by apply Hrb|]. destruct (decide (b = a)) as [->|Hba]; [by left|].
      right. by rewrite lookup_insert_ne. }
  destruct h as [h|]; cbn [inherit ancestor_ok] in *.
  - pose proof (st_own _ _ _ _ Hok (Hbodied a Ha Hnil)) as Hown. unfold codec_of in Hown. destruct (default ∅ (h_Builds h) !! a) as [bd|].
    + exists (<[a := bd]> dst). split; [done|by apply Hset].
    + destruct (_ <? _); [exists (<[a := empty_build]> dst); split; [done|by apply Hset]|]. exists dst. split; [done|].
      split; [by split|]. split; [|done]. unfold right, codec_in. destruct (dst !! a) as [bd|] eqn:E; [by eapply D1|done].
  - exists dst. split; [done|]. split; [by split|]. split; [|done]. destruct (D2 a Ha Hne) as [Hr|Hs]; [done|].
    unfold right, codec_in. rewrite Hs. by apply (Hok Hne h0).
Qed.

Lemma append_builds_spec l w dst : (∀ a, a ∈ l → a ∈ builds_of h0) → dst_ok w dst →
  (∀ a, a ∈ builds_of h0 → a ≠ u_buildID u → a ≠ uuid_nil → right w dst a ∨ a ∈ l) →
  wp (append_builds loads u (Some dst) l t) (λ w r, match r with
    | Ok r => ∃ dst', r = Some dst' ∧ ∀ a, a ∈ builds_of h0 → a ≠ u_buildID u → a ≠ uuid_nil → right w dst' a
    | Err _ => True
    end) w.
Proof using Hh0 Hbodied.
  revert w dst. induction l as [|a l IH]; intros w dst Hl Hdst Hdone; cbn [append_builds].
  { exists dst. split; [done|]. intros a Ha Hne Hnil. destruct (Hdone a Ha Hne Hnil) as [?|Hn]; [done|by apply elem_of_nil in Hn]. }
  assert (Hl' : ∀ b, b ∈ l → b ∈ builds_of h0) by (intros b Hb; apply Hl; by right).
  destruct (bool_decide (a = u_buildID u) || bool_decide (a = uuid_nil)) eqn:E.
  - apply IH; [done|done|]. intros b Hb Hne Hnil. destruct (Hdone b Hb Hne Hnil) as [?|[->|Hbl]%elem_of_cons]; [by left| |by right].
    by rewrite !bool_decide_eq_false_2 in E.
  - apply orb_false_iff in E as [E1%bool_decide_eq_false E2%bool_decide_eq_false]. apply wp_check; [done|].
    eapply wp_mono; [|apply (wp_frame i n u (λ w, dst_ok w dst ∧ ∀ b, b ∈ builds_of h0 → b ≠ u_buildID u → b ≠ uuid_nil → right w dst b ∨ b ∈ a :: l));
      [|split; [exact Hdst|exact Hdone]|apply Wait_spec]].
    2: { intros w1 w2 X [H1 H2]. split; [by eapply dst_ok_ext|]. intros b Hb Hne Hnil. destruct (H2 b Hb Hne Hnil); [left; by eapply right_ext|by right]. }
    intros w' [h|e] [Hok [Hd Hdn]]; [|done]. destruct (inherit_ok w' dst a h Hd (Hl a (list_elem_of_here _ _)) E1 E2 Hok) as (dst' & -> & Hd' & Hr & Hmono).
    apply IH; [done|done|]. intros b Hb Hne Hnil. destruct (Hdn b Hb Hne Hnil) as [?|[->|Hbl]%elem_of_cons]; [left; by apply Hmono|by left|by right].
Qed.
End ancestors.

(** *** The upload of one file *)

Definition file_done (t : DiffType) (w : world) : Prop :=
  header_of (u_snap u) t ≠ None → is_Some (w_headers w !! (u_buildID u, t)) ∧
    ∃ nd, w_nodes w !! n = Some nd ∧ started nd (u_buildID u) ∧ published nd (u_buildID u) t.

Lemma started_ext nd nd' a : node_ext nd nd' → started nd a → started nd' a.
Proof using. intros [_ X _] (f & r & Hf). destruct (X _ _ _ Hf) as (r' & Hf' & _). by exists f, r'. Qed.

Lemma file_done_ext t w w' : ext w w' → file_done t w → file_done t w'.
Proof using.
  intros X Hd Hh. destruct (Hd Hh) as (H1 & nd & H2 & H3 & H4). split; [by apply X|]. destruct (ex_nodes _ _ X _ _ H2) as (nd' & Hn & Hx).
  exists nd'. split; [done|]. split; [by eapply started_ext|by apply (nx_published _ _ Hx)].
Qed.

Lemma running_live w : global_inv w → running_upload i n u w → upload_live w n u.
Proof using. intros G (ph & Hi & Hf). by eapply gi_live. Qed.

Lemma upload_body_spec t body w :
  wp (upload_body u t body) (λ w r, match r with
    | Ok bd => body = true → (u_buildID u, t, ft_CompressionType (bd_FrameData bd)) ∈ w_bodies w
    | Err _ => True
    end) w.
Proof using.
  unfold upload_body. destruct body; [|done]. cbn [negb]. apply wp_check; [done|]. apply wp_perform. intros w1 _ _ _. split; [done|].
  intros x w2 r He _ _ _. cbn [exec] in He. destruct r as [[ft sum]|e]; [|done].
  assert (Hin : (u_buildID u, t, ft_CompressionType (Table ft)) ∈ w_bodies w2).
  { destruct x; try discriminate He. destruct (Z.eqb_spec (ft_CompressionType (Table ft0)) (cfg_CompressionType (cfg_of u t))) as [E|]; [|done].
    injection He as <- -> ->. rewrite E. cbn. set_solver. }
  apply wp_check; [done|]. destruct (IsCompressed (Table ft)); [by cbn|]. apply wp_perform. intros w3 X3 _ _. split; [done|].
  intros x' w4 [z|e] _ _ X4 _; [|done]. cbn. intros _. apply X4, X3, Hin.
Qed.

Lemma publish_spec t h w : u_uploads u = true → header_of (u_snap u) t ≠ None → settled w t (u_buildID u) h → IncompletePendingUpload h = false →
  is_Some (w_headers w !! (u_buildID u, t)) → wp (publish u t h) (λ w r, r = Ok () → file_done t w) w.
Proof using.
  intros Hu Hh Hs Hp Hst. unfold publish. rewrite Hu. cbn [negb]. apply wp_bind, wp_perform. intros w1 X1 G1 R1. split; [done|]. intros x w2 r He _ X2 G2. cbn [exec] in He.
  destruct (ul_node _ _ _ (running_live _ G1 R1)) as (nd & tp & Hn & [Htp _ Hnone _ _]). rewrite Hn in He. cbn in He. injection He as <- <-.
  pose proof (find_device w1 n nd (u_buildID u) t) as Hfd. unfold find in Hfd |- *. rewrite Htp in Hfd |- *. destruct (tp_of tp t) as [d|] eqn:Hd.
  2: { by apply Hnone in Hd. }
  specialize (Hfd d G1 Hn eq_refl). apply wp_bind, wp_perform. intros w3 X3 G3 R3.
  assert (Hd3 : device_at w3 n d (u_buildID u) t false) by (by eapply device_at_ext). destruct Hd3 as (nd3 & dv3 & Hn3 & Hdv3 & Hb3 & Ht3 & _). split.
  - intros nd' dv' Hn' Hdv'. replace nd' with nd3 in * by congruence. replace dv' with dv3 in * by congruence. split; [done|]. rewrite Hb3, Ht3.
    apply (settled_mono w); [|done]. etrans; [apply X1|]. etrans; [apply X2|apply X3].
  - intros x' w4 [] He _ X4 G4. cbn [exec] in He. injection He as <-. cbn. intros _ _. split.
    + apply X3, X2, X1, Hst.
    + destruct (ul_node _ _ _ (running_live _ G3 R3)) as (nd3' & tp3 & Hn3' & [_ Hsd3 _ _ Huniq3]). replace nd3' with nd3 in * by congruence.
      eexists. split; [unfold on_node; cbn [w_nodes]; by rewrite list_lookup_alter_eq, Hn3|]. split; [done|].
      intros e dv He Hb Ht. cbn in He. destruct (decide (e = d)) as [->|Hne].
      * rewrite list_lookup_alter_eq, Hdv3 in He. by injection He as <-.
      * rewrite list_lookup_alter_ne in He by congruence. exfalso. apply Hne.
        assert (tp_of tp3 t = Some e) by by eapply Huniq3. assert (tp_of tp3 t = Some d) by by eapply Huniq3. congruence.
Qed.

Lemma diff_ok_elim w b t s h : diff_ok w b t (diff_of s t) = true → header_of s t = Some h →
  IncompletePendingUpload h = true ∧ md_BuildId (h_Metadata h) = b ∧ (∀ p, df_path (diff_of s t) = Ok p → p = bodied b t) ∧
  (∀ a, a ∈ builds_of h → a ≠ uuid_nil → bodied a t = true) ∧
  ∀ a bd, default ∅ (h_Builds h) !! a = Some bd → a ≠ b → (a, t, ft_CompressionType (bd_FrameData bd)) ∈ w_bodies w.
Proof using.
  unfold diff_ok, header_of. destruct (df_header (diff_of s t)) as [oh|]; [|done]. intros Hd ->. rewrite !andb_true_iff, !bool_decide_eq_true in Hd.
  destruct Hd as [[[[H1 H2] H3] H4] H5]. split_and!; [done|done| | |].
  - intros p Hp. rewrite Hp in H3. by apply Bool.eqb_prop.
  - intros a Ha Hnil. rewrite forallb_forall in H4. specialize (H4 a). rewrite <- list_elem_of_In in H4. specialize (H4 Ha).
    by rewrite bool_decide_eq_false_2 in H4.
  - intros a bd Ha Hne. by destruct (H5 a bd Ha).
Qed.

(** The header put together at the end. *)
Lemma final_settled t h dst selfBuild w :
  md_BuildId (h_Metadata h) = u_buildID u → (u_buildID u ∈ builds_of h → u_buildID u ≠ uuid_nil → bodied (u_buildID u) t = true) →
  (bodied (u_buildID u) t = true → (u_buildID u, t, ft_CompressionType (bd_FrameData selfBuild)) ∈ w_bodies w) →
  (∀ a, a ∈ builds_of h → a ≠ u_buildID u → a ≠ uuid_nil → right t w dst a) →
  settled w t (u_buildID u) (mkHeader (h_Metadata (CloneForUpload h (headerVersion u))) (Some (<[u_buildID u := selfBuild]> dst)) (h_Mapping h) false).
Proof using.
  intros Hid Hself Hbody Hall. set (hf := mkHeader _ _ _ _).
  assert (Hc : codec_of hf (u_buildID u) = ft_CompressionType (bd_FrameData selfBuild)) by (unfold codec_of; cbn; by rewrite lookup_insert_eq).
  split; [exact Hid| |].
  - intros a Ha Hnil. destruct (decide (a = u_buildID u)) as [->|Hne]; [rewrite Hc; by apply Hbody, Hself|].
    specialize (Hall a Ha Hne Hnil). unfold right, codec_in in Hall. unfold codec_of. cbn. by rewrite lookup_insert_ne.
  - rewrite Hc. exact Hbody.
Qed.

Lemma uploadFramed_spec t body h w : u_uploads u = true → header_of (u_snap u) t = Some h → diff_ok w (u_buildID u) t (diff_of (u_snap u) t) = true →
  body = bodied (u_buildID u) t → wp (uploadFramed loads u t body h) (λ w r, r = Ok () → file_done t w) w.
Proof using.
  intros Hu Hh Hdiff Hbody. destruct (diff_ok_elim w _ _ _ _ Hdiff Hh) as (D1 & D2 & _ & D4 & D5). unfold uploadFramed. apply wp_check; [done|].
  eapply wp_mono; [|apply (wp_frame i n u (λ w', ext w w')); [intros w1 w2 X Y; by etrans|reflexivity|apply upload_body_spec]].
  intros w1 [selfBuild|e] [Hb X1]; [|done]. cbv zeta. apply wp_check; [done|].
  unfold appendAncestorBuilds. rewrite Hu. cbn [negb CloneForUpload h_Builds h_Mapping].
  eapply wp_mono; [|apply (wp_frame i n u (λ w', ext w1 w')); [intros w2 w3 X Y; by etrans|reflexivity|apply (append_builds_spec t h Hh D4)]].
  - intros w2 [r|e] [Hr X2]; [|done]. destruct Hr as (dst & -> & Hall). cbn [default].
    assert (Hs : settled w2 t (u_buildID u) (mkHeader (h_Metadata (CloneForUpload h (headerVersion u))) (Some (<[u_buildID u := selfBuild]> dst)) (h_Mapping h) false)).
    { apply final_settled; [done|by apply D4| |done]. intros E. apply X2, Hb. congruence. }
    apply wp_check; [done|]. apply wp_perform. intros w3 X3 _ _. split; [by apply (settled_mono w2); [apply X3|]|].
    intros x w4 [[]|e] He _ X4 _; [|done]. apply publish_spec; [done|congruence| |done|].
    + apply (settled_mono w2); [|exact Hs]. etrans; [apply X3|apply X4].
    + cbn [exec IncompletePendingUpload] in He. destruct x as [| |[]| | | |]; try discriminate He. injection He as <-. cbn. by rewrite lookup_insert_eq.
  - done.
  - split.
    + intros a bd Ha Hne. apply X1. by eapply D5.
    + intros a _ _. by right.
  - intros a Ha _ _. by right.
Qed.

Lemma upload_v4_spec t body w : u_uploads u = true → diff_ok w (u_buildID u) t (diff_of (u_snap u) t) = true →
  df_path (diff_of (u_snap u) t) = Ok body → wp (upload_v4 loads u t body) (λ w r, r = Ok () → file_done t w) w.
Proof using.
  intros Hu Hdiff Hpath. unfold upload_v4. apply wp_check; [done|]. apply wp_perform. intros w1 X1 _ _. split; [done|].
  intros x w2 r He _ X2 _. cbn [exec] in He. destruct r as [[h|]|e]; [| |done].
  - assert (Hh : header_of (u_snap u) t = Some h) by (unfold header_of; destruct x; try discriminate He; by injection He as _ ->).
    assert (Hd : diff_ok w2 (u_buildID u) t (diff_of (u_snap u) t) = true) by (apply (diff_ok_mono w); [etrans; [apply X1|apply X2]|done]).
    apply uploadFramed_spec; try done. by eapply diff_ok_elim.
  - cbn. intros _ Hne. exfalso. apply Hne. unfold header_of. destruct x; try discriminate He; by injection He as _ ->.
Qed.

Definition blob_done (b : blob) (w : world) : Prop := (u_buildID u, b) ∈ w_blobs w.

Lemma UploadBlob_spec b w : wp (perform (UploadBlob b)) (λ w r, r = Ok () → blob_done b w) w.
Proof using.
  apply wp_perform. intros w1 _ _ _. split; [done|]. intros x w2 r He _ _ _ ->. cbn [exec] in He.
  destruct x as [| |[]| | | |]; try discriminate He. injection He as <-. unfold blob_done. cbn. set_solver.
Qed.
End specs.

(** ** The phases of an upload *)

Definition upload_done (n : nat) (u : Upload) (w : world) : Prop :=
  (∀ t, file_done n u t w) ∧ (FilesystemSnapshot (u_snap u) = false → blob_done u Snapfile w) ∧ blob_done u Metafile w.

(** What each goroutine has done when it returns without error. *)
Definition goals (n : nat) (u : Upload) : list (world → Prop) :=
  [file_done n u Memfile; file_done n u Rootfs; (λ w, FilesystemSnapshot (u_snap u) = false → blob_done u Snapfile w); blob_done u Metafile].

Definition phase_ok (w : world) (i n : nat) (u : Upload) (ph : phase) : Prop :=
  match ph with
  | Idle => True
  | Before p => wp i n u p (λ _ r, ∀ m rt, r = Ok (m, rt) → df_path (sn_Memory (u_snap u)) = Ok m ∧ df_path (sn_Rootfs (u_snap u)) = Ok rt) w
  | Group tasks failed => Forall2 (λ p (P : world → Prop), wp i n u p (λ w r, r = Ok () → P w) w) tasks (goals n u) ∧
      ∀ e, Ret (Err e) ∈ tasks → failed ≠ None
  | After p => p = Ret (Ok ()) ∧ upload_done n u w
  | Ran r | Finished r => r = Ok () → upload_done n u w
  end.

Definition world_inv (w : world) : Prop :=
  global_inv w ∧ ∀ i n u ph, w_uploads w !! i = Some (n, u, ph) → phase_ok w i n u ph.

Lemma blob_done_ext u b w w' : ext w w' → blob_done u b w → blob_done u b w'.
Proof using. intros X. apply X. Qed.

Lemma upload_done_ext n u w w' : ext w w' → upload_done n u w → upload_done n u w'.
Proof using.
  intros X (H1 & H2 & H3). split_and!; [intros t; by eapply file_done_ext|intros E; eapply blob_done_ext; eauto|by eapply blob_done_ext].
Qed.

Lemma goals_ext n u w w' P : ext w w' → P ∈ goals n u → P w → P w'.
Proof using.
  intros X HP. unfold goals in HP. repeat (apply elem_of_cons in HP as [->|HP]); [by apply file_done_ext|by apply file_done_ext| |by apply blob_done_ext|by apply elem_of_nil in HP].
  intros H E. eapply blob_done_ext; eauto.
Qed.

Lemma phase_ok_ext w w' i n u ph : ext w w' → phase_ok w i n u ph → phase_ok w' i n u ph.
Proof using.
  intros X. destruct ph as [|p|tasks failed|p|r|r]; cbn; [done| | | | |].
  - intros Hp. eapply wp_ext; [|exact X|exact Hp]. intros w1 w2 r _ Hr. exact Hr.
  - intros [Hf Hr]. split; [|done]. clear Hr. pose proof (goals_ext n u) as HPs. revert HPs. induction Hf as [|p P ps Ps Hp Hps IH]; intros HPs; constructor.
    + eapply wp_ext; [|exact X|exact Hp]. intros w1 w2 r X' H E. eapply HPs; [exact X'|by left|auto].
    + apply IH. intros w1 w2 Q X' HQ. by apply HPs; [|right].
  - intros [-> H]. split; [done|by eapply upload_done_ext].
  - intros H E. eapply upload_done_ext; eauto.
  - intros H E. eapply upload_done_ext; eauto.
Qed.

(** The world changes, and the phases stay. *)
Lemma world_inv_ext w w' : world_inv w → global_inv w' → ext w w' → w_uploads w' = w_uploads w → world_inv w'.
Proof using. intros [_ H] G X E. split; [done|]. intros i n u ph Hi. rewrite E in Hi. eapply phase_ok_ext; [exact X|by apply H]. Qed.

(** One upload moves on. *)
Lemma with_phase_inv w i n u ph ph' : world_inv w → w_uploads w !! i = Some (n, u, ph) → finished ph = false → phase_ok w i n u ph' →
  world_inv (with_phase i n u ph' w).
Proof using.
  intros [G H] Hi Hf Hp. assert (X : ext w (with_phase i n u ph' w)) by (by apply same_nodes_ext). split.
  - eapply grow_inv; [exact G|done|done|done| |].
    + intros j m v p Hj Hpf. cbn in Hj. destruct (decide (j = i)) as [->|Hne].
      * rewrite list_lookup_insert_eq in Hj by (by eapply lookup_lt_Some). injection Hj as <- <- <-. by exists i, ph.
      * rewrite list_lookup_insert_ne in Hj by congruence. by exists j, p.
    + intros a t h Ha. destruct (gi_stored _ G a t h Ha). split; [done|by apply (settled_mono w)].
  - intros j m v p Hj. eapply phase_ok_ext; [exact X|]. cbn in Hj. destruct (decide (j = i)) as [->|Hne].
    + rewrite list_lookup_insert_eq in Hj by (by eapply lookup_lt_Some). by injection Hj as <- <- <-.
    + rewrite list_lookup_insert_ne in Hj by congruence. by apply H.
Qed.

(** One call of one program. *)
Lemma run_prog_inv {R} (p p' : prog R) Q x i n u ph w w' : world_inv w → w_uploads w !! i = Some (n, u, ph) → finished ph = false →
  wp i n u p Q w → run_prog true p x n u w = Some (w', p') → world_inv w' ∧ ext w w' ∧ w_uploads w' = w_uploads w ∧ wp i n u p' Q w'.
Proof using.
  intros Hw Hi Hf Hp. destruct p as [r|A c k]; [done|]. cbn [run_prog]. unfold run_call. destruct (exec c x n u w) as [[w1 a]|] eqn:He; [|done]. cbn.
  destruct (trusted c u w a) eqn:Ht; [|done]. cbn. intros [= <- <-]. destruct Hw as [G H].
  destruct (Hp w) as [Hpre Hk]; [by split_and!; [reflexivity|done|exists ph]|]. destruct (exec_inv _ _ _ _ _ _ _ G Hpre He) as (G1 & X1 & E1).
  split; [by apply (world_inv_ext w)|]. split; [done|]. split; [done|]. apply (Hk a ()). by exists x.
Qed.

Lemma both_paths_spec i n u w :
  wp i n u both_paths (λ _ r, ∀ m rt, r = Ok (m, rt) → df_path (sn_Memory (u_snap u)) = Ok m ∧ df_path (sn_Rootfs (u_snap u)) = Ok rt) w.
Proof using.
  unfold both_paths. apply wp_check; [done|]. apply wp_perform. intros w1 _ _ _. split; [done|]. intros x w2 [m|e] He _ _ _; [|done].
  apply wp_check; [done|]. apply wp_perform. intros w3 _ _ _. split; [done|]. intros x' w4 [rt|e] He' _ _ _; [|done]. cbn [exec diff_of] in *.
  cbn. intros m' rt' [= <- <-]. destruct x; try discriminate He. destruct x'; try discriminate He'. injection He as _ ->. by injection He' as _ ->.
Qed.

(** The goroutines of an upload start. *)
Lemma group_spec i n u w m rt : upload_live w n u → df_path (sn_Memory (u_snap u)) = Ok m → df_path (sn_Rootfs (u_snap u)) = Ok rt →
  phase_ok w i n u (Group (group (Run loads u) (m, rt)) None).
Proof using.
  intros [V4 Ht Hd _] Hm Hr. unfold Run. rewrite V4. cbn [group runV4 phase_ok]. split.
  - unfold goals. rewrite !Forall2_cons. split; [|split; [|split; [|split; [|constructor]]]].
    + apply upload_v4_spec; [done|apply (Hd Memfile)|done].
    + apply upload_v4_spec; [done|apply (Hd Rootfs)|done].
    + unfold snapfile_task. destruct (FilesystemSnapshot (u_snap u)); [done|]. eapply wp_mono; [|apply UploadBlob_spec]. cbn. auto.
    + apply UploadBlob_spec.
  - intros e He. exfalso. repeat (apply elem_of_cons in He as [He|He]); [discriminate He..| | |by apply elem_of_nil in He].
    + unfold snapfile_task in He. by destruct (FilesystemSnapshot (u_snap u)).
    + discriminate He.
Qed.

(** ** What happens on a node *)

Lemma on_node_none n f w : w_nodes w !! n = None → on_node n f w = w.
Proof using.
  intros Hn. destruct w as [bs hs bl ns rg us]. unfold on_node. cbn in *. f_equal. apply list_eq. intros i.
  destruct (decide (i = n)) as [->|Hne]; [by rewrite list_lookup_alter_eq, Hn|by rewrite list_lookup_alter_ne by congruence].
Qed.

(** A node changes but for its devices and futures' results. *)
Lemma same_devs_step w n f : world_inv w → (∀ nd, n_devs (f nd) = n_devs nd) → (∀ nd, n_results (f nd) = n_results nd) →
  (∀ nd a tp, n_templates (f nd) !! a = Some tp → n_templates nd !! a = Some tp) →
  (∀ nd a g, n_futures (f nd) !! a = Some g → n_futures nd !! a = Some g) →
  (∀ nd i u ph, w_uploads w !! i = Some (n, u, ph) → finished ph = false → n_templates (f nd) !! u_buildID u = n_templates nd !! u_buildID u) →
  world_inv (on_node n f w).
Proof using.
  intros Hw Hd Hr Ht Hf Hl. destruct (w_nodes w !! n) as [nd|] eqn:Hn; [|by rewrite on_node_none].
  destruct (gi_nodes _ (proj1 Hw) _ _ Hn) as [N1 N2 N3 N4 N5]. destruct (node_step w n nd f (proj1 Hw) Hn) as [G X].
  - split; [intros d dv Hdv; exists dv; by rewrite Hd|intros g a r Hg; exists r; by rewrite Hr|]. intros a t _ Hp d dv. rewrite Hd. apply Hp.
  - split.
    + intros d dv. rewrite Hd. apply N1.
    + intros d dv. rewrite Hd. apply N2.
    + intros a tp t d Ha%Ht. rewrite Hd. by apply N3.
    + intros a g Ha%Hf. rewrite Hr. by apply N4.
    + intros g a t. rewrite Hr. intros Hg d dv. rewrite Hd. by eapply N5.
  - intros a (g & r & Hg). rewrite Hr in Hg. left. by exists g, r.
  - intros i u ph tp Hi Hp [L1 L2 L3 L4 L5]. exists tp. split; [by rewrite (Hl nd i u ph Hi Hp)| |done| |].
    + destruct L2 as (g & r & Hg). exists g, r. by rewrite Hr.
    + intros g Hg. rewrite Hr. by apply L4.
    + intros t d dv. rewrite Hd. apply L5.
  - by apply (world_inv_ext w).
Qed.

(** A template that enters the cache of a node. *)
Section template.
Context (b : uuid) (mem root : option Header) (nd : node).
Definition given (t : DiffType) : option Header := match t with Memfile => mem | Rootfs => root end.
Let nd' := add_template b mem root nd.

Lemma add_results : n_results nd' = n_results nd ∧ n_futures nd' = n_futures nd.
Proof using. unfold nd', add_template, add_device. destruct mem, root; by cbn. Qed.

Lemma add_templates : ∃ tp, n_templates nd' = <[b := tp]> (n_templates nd) ∧ (∀ t, tp_of tp t = None ↔ given t = None) ∧
  (∀ t d, tp_of tp t = Some d → ∃ h, given t = Some h ∧ n_devs nd' !! d = Some (mkDevice b t h)) ∧
  ∀ d dv, n_devs nd' !! d = Some dv → n_devs nd !! d = Some dv ∨
    dv_build dv = b ∧ given (dv_type dv) = Some (dv_header dv) ∧ tp_of tp (dv_type dv) = Some d.
Proof using.
  unfold nd', add_template, add_device. set (l := n_devs nd).
  assert (H0 : ∀ h t, (l ++ [mkDevice b t h]) !! length l = Some (mkDevice b t h)) by (intros; by apply list_lookup_middle).
  destruct mem as [hm|] eqn:Em, root as [hr|] eqn:Er; cbn [with_devs with_templates n_devs n_templates]; fold l.
  - exists (mkTemplate (Some (length l)) (Some (length (l ++ [mkDevice b Memfile hm])))). split; [done|]. split; [intros []; unfold given; rewrite ?Em, ?Er; by split|]. split.
    + intros [] d [= <-]; eexists; (split; [unfold given; by rewrite ?Em, ?Er|]).
      * apply lookup_app_l_Some. apply H0.
      * by apply list_lookup_middle.
    + intros d dv [[Hd|[Hge Hd]]%lookup_app_Some|[Hge Hd]]%lookup_app_Some; [by left| |]; right.
      * apply list_lookup_singleton_Some in Hd as [Hz <-]. cbn. rewrite Em. split_and!; [done|done|f_equal; lia].
      * apply list_lookup_singleton_Some in Hd as [Hz <-]. cbn. rewrite Er. split_and!; [done|done|f_equal; lia].
  - exists (mkTemplate (Some (length l)) None). split; [done|]. split; [intros []; unfold given; rewrite ?Em, ?Er; by split|]. split.
    + intros [] d [= <-]. exists hm. split; [done|apply H0].
    + intros d dv [Hd|[Hge Hd]]%lookup_app_Some; [by left|right]. apply list_lookup_singleton_Some in Hd as [Hz <-]. cbn. rewrite Em.
      split_and!; [done|done|f_equal; lia].
  - exists (mkTemplate None (Some (length l))). split; [done|]. split; [intros []; unfold given; rewrite ?Em, ?Er; by split|]. split.
    + intros [] d [= <-]. exists hr. split; [done|apply H0].
    + intros d dv [Hd|[Hge Hd]]%lookup_app_Some; [by left|right]. apply list_lookup_singleton_Some in Hd as [Hz <-]. cbn. rewrite Er.
      split_and!; [done|done|f_equal; lia].
  - exists (mkTemplate None None). split; [done|]. split; [intros []; unfold given; rewrite ?Em, ?Er; by split|]. split; [by intros []|]. intros d dv Hd. by left.
Qed.

Lemma add_old d dv : n_devs nd !! d = Some dv → n_devs nd' !! d = Some dv.
Proof using.
  intros Hd. unfold nd', add_template, add_device. destruct mem, root; cbn; rewrite ?lookup_app_l; try done;
    rewrite ?length_app; apply lookup_lt_Some in Hd; cbn; lia.
Qed.
End template.

(** The node with a new template: final headers are settled, and a pending one
    comes only to a node that did not start the build. *)
Lemma add_template_step w n nd b mem root : global_inv w → w_nodes w !! n = Some nd → n_templates nd !! b = None →
  (∀ t h, given mem root t = Some h → md_BuildId (h_Metadata h) = b ∧ (IncompletePendingUpload h = false → settled w t b h) ∧
     (started nd b → IncompletePendingUpload h = false)) →
  node_ext nd (add_template b mem root nd) ∧ node_inv w (add_template b mem root nd) ∧
  ∀ u tp, node_live nd u tp → node_live (add_template b mem root nd) u tp.
Proof using.
  intros G Hn Hb Hh. set (nd' := add_template b mem root nd). destruct (add_results b mem root nd) as [Er Ef]. fold nd' in Er, Ef.
  destruct (add_templates b mem root nd) as (tp & Et & _ & Hnew & Hcases). fold nd' in Et, Hnew, Hcases.
  assert (Hold : ∀ d dv, n_devs nd !! d = Some dv → n_devs nd' !! d = Some dv) by apply add_old.
  destruct (gi_nodes _ G _ _ Hn) as [N1 N2 N3 N4 N5].
  assert (Hx : node_ext nd nd').
  { split; [intros d dv Hd; exists dv; split_and!; auto|intros f a r Hf; exists r; by rewrite Er|].
    intros a t Hs Hp d dv [Hd|(E1 & E2 & _)]%Hcases Ha Ht; [by eapply Hp|]. subst a t. destruct (Hh _ _ E2) as (_ & _ & H3). apply H3. by rewrite <- E1. }
  split; [exact Hx|]. split.
  - split.
    + intros d dv [Hd|(E1 & E2 & _)]%Hcases; [by eapply N1|]. rewrite E1. exact (proj1 (Hh _ _ E2)).
    + intros d dv [Hd|(E1 & E2 & _)]%Hcases Hp; [by eapply N2|]. rewrite E1. exact (proj1 (proj2 (Hh _ _ E2)) Hp).
    + intros a tp' t d Ha Htp. rewrite Et in Ha. apply lookup_insert_Some in Ha as [[<- <-]|[_ Ha]].
      * destruct (Hnew t d Htp) as (h & _ & Hd). by eexists.
      * destruct (N3 a tp' t d Ha Htp) as (dv & Hd & ? & ?). exists dv. split_and!; auto.
    + intros a f. rewrite Ef, Er. apply N4.
    + intros f a t. rewrite Er. intros Hf. eapply (nx_published _ _ Hx); [by eexists _, _|by eapply N5].
  - intros u tp' [L1 L2 L3 L4 L5]. assert (Hne : u_buildID u ≠ b) by congruence. split.
    + by rewrite Et, lookup_insert_ne.
    + by eapply started_ext.
    + done.
    + intros f Hf. rewrite Er. by apply L4.
    + intros t d dv [Hd|(E1 & _)]%Hcases E Ht; [by eapply L5|congruence].
Qed.

(** A header that a template is opened with. *)
Lemma fetch_ok w n nd a t o r : global_inv w → w_nodes w !! n = Some nd → fetch w n a t o = Some r → ∀ h, r = Some h →
  md_BuildId (h_Metadata h) = a ∧ (IncompletePendingUpload h = false → settled w t a h) ∧ (started nd a → IncompletePendingUpload h = false).
Proof using.
  intros G Hn Hf h ->. destruct o as [| |m]; cbn [fetch] in Hf; [done| |].
  - destruct (load w a t) as [h'|] eqn:Hl; [|done]. injection Hf as ->. destruct (load_settled w a t h G Hl) as [Hp Hs]. split_and!; [apply Hs|done|done].
  - destruct (bool_decide (w_registry w !! a = Some m) && negb (m =? n)%nat) eqn:E; [|done].
    apply andb_true_iff in E as [E1%bool_decide_eq_true E2%negb_true_iff%Nat.eqb_neq].
    destruct (w_nodes w !! m) as [nm|] eqn:Hm; [|done]. cbn in Hf. destruct (n_templates nm !! a) as [tp|] eqn:Ht; [|done]. cbn in Hf.
    destruct (tp_of tp t) as [d|] eqn:Hd; [|done]. cbn in Hf. destruct (n_devs nm !! d) as [dv|] eqn:Hdv; [|done]. injection Hf as <-.
    destruct (ni_templates _ _ (gi_nodes _ G _ _ Hm) _ _ _ _ Ht Hd) as (dv' & H1 & H2 & H3). replace dv' with dv in * by congruence.
    split_and!; [cbn; rewrite <- H2; by apply (ni_ids _ _ (gi_nodes _ G _ _ Hm) d)|done|].
    intros Hs. exfalso. apply E2. destruct (gi_registry _ G _ _ E1) as (nm' & Hm' & Hs'). by eapply (gi_once _ G m n nm' nd a).
Qed.

Lemma open_inv w n nd a mem root m r : world_inv w → w_nodes w !! n = Some nd → n_templates nd !! a = None →
  fetch w n a Memfile mem = Some m → fetch w n a Rootfs root = Some r → world_inv (on_node n (add_template a m r) w).
Proof using.
  intros Hw Hn Ha Hm Hr. destruct (add_template_step w n nd a m r (proj1 Hw) Hn Ha) as (X & I & L).
  { intros [] h Hh; cbn in Hh; eapply fetch_ok; try done; apply Hw. }
  destruct (node_step w n nd (add_template a m r) (proj1 Hw) Hn X I) as [G E].
  - intros b (f & x & Hf). left. exists f, x. by rewrite (proj1 (add_results a m r nd)) in Hf.
  - intros i u ph tp _ _ Hl. exists tp. by apply L.
  - by apply (world_inv_ext w).
Qed.

(** A future of an upload is set, to success only when the upload is done. *)
Lemma set_future_inv w n nd u tp f r : world_inv w → w_nodes w !! n = Some nd → node_live nd u tp → u_future u = Some f →
  (r = Ok () → ∀ t, published nd (u_buildID u) t) → world_inv (on_node n (set_future f r) w) ∧ ext w (on_node n (set_future f r) w).
Proof using.
  intros Hw Hn L Hf Hall. destruct (nl_future _ _ _ L f Hf) as [c Hc]. destruct (gi_nodes _ (proj1 Hw) _ _ Hn) as [N1 N2 N3 N4 N5].
  assert (Hres : ∀ g a x, n_results (set_future f r nd) !! g = Some (a, x) → ∃ x0, n_results nd !! g = Some (a, x0) ∧
    (x = x0 ∨ a = u_buildID u ∧ x = Some r)).
  { intros g a x. cbn. destruct (decide (g = f)) as [->|Hne].
    - rewrite list_lookup_alter_eq, Hc. cbn. intros [= <- <-]. exists c. split; [done|]. destruct c; [by left|by right].
    - rewrite list_lookup_alter_ne by congruence. intros Hg. exists x. auto. }
  assert (Hx : node_ext nd (set_future f r nd)).
  { split; [intros d dv Hd; by exists dv| |done]. intros g a x Hg. cbn. destruct (decide (g = f)) as [->|Hne].
    - rewrite list_lookup_alter_eq, Hg. cbn. eexists. split; [done|]. by intros y ->.
    - rewrite list_lookup_alter_ne by congruence. by exists x. }
  destruct (node_step w n nd (set_future f r) (proj1 Hw) Hn Hx) as [G1 X1].
  - split; [done|done|done| |].
    + intros a g Ha. destruct (N4 a g Ha) as [x Hg]. destruct (nx_results _ _ Hx _ _ _ Hg) as (y & Hy & _). by exists y.
    + intros g a t (x0 & Hg & [<-|[-> E]])%Hres; [by eapply N5|]. injection E as E. by apply Hall.
  - intros a (g & x & (x0 & Hg & _)%Hres). left. by exists g, x0.
  - intros j v ph tp' _ _ [M1 M2 M3 M4 M5]. exists tp'. split; [done|by eapply started_ext|done| |done].
    intros g Hg. destruct (M4 g Hg) as [x Hx0]. destruct (nx_results _ _ Hx _ _ _ Hx0) as (y & Hy & _). by exists y.
  - split; [by apply (world_inv_ext w)|done].
Qed.

Lemma unregister_inv w a : world_inv w → let w' := with_registry (delete a (w_registry w)) w in world_inv w' ∧ ext w w'.
Proof using.
  intros Hw w'. assert (X : ext w w') by (by apply same_nodes_ext). split; [|done]. apply (world_inv_ext w); [done| |done|done].
  destruct Hw as [[G1 G2 G3 G4 G5] _]. split; [|..|done].
  - intros b t h Hb. destruct (G1 b t h Hb). split; [done|by apply (settled_mono w)].
  - intros m x Hm. apply (node_inv_mono w); [done|by eapply G2].
  - intros j m v ph Hj Hf. eapply (upload_live_mono w); [done|done|by eapply G3].
  - intros b m Hb. cbn in Hb. apply lookup_delete_Some in Hb as [_ Hb]. by apply G4.
Qed.

(** A finished upload has given its devices their final headers. *)
Lemma done_published w n nd u tp : w_nodes w !! n = Some nd → node_live nd u tp → upload_done n u w → ∀ t, published nd (u_buildID u) t.
Proof using.
  intros Hn L Hdone t. destruct (header_of (u_snap u) t) eqn:Hh.
  - destruct (proj1 Hdone t) as (_ & nd' & Hn' & _ & Hpub); [by rewrite Hh|]. by replace nd with nd' by congruence.
  - intros d dv Hd Hb Ht. apply (nl_none _ _ _ L) in Hh. pose proof (nl_only _ _ _ L t d dv Hd Hb Ht). congruence.
Qed.

Lemma upload_finish_inv w i n u r0 r : world_inv w → w_uploads w !! i = Some (n, u, Ran r0) → (r = Ok () → r0 = Ok ()) →
  world_inv (with_phase i n u (Finished r) (with_registry (delete (u_buildID u) (w_registry w)) (on_node n (Finish u r) w))).
Proof using.
  intros Hw Hi Hr. pose proof Hw as [G Hp]. pose proof (Hp _ _ _ _ Hi) as Hdone. cbn in Hdone.
  destruct (ul_node _ _ _ (gi_live _ G _ _ _ _ Hi eq_refl)) as (nd & tp & Hn & L).
  assert (Hw1 : world_inv (on_node n (Finish u r) w) ∧ ext w (on_node n (Finish u r) w)).
  { unfold Finish. destruct (u_future u) as [f|] eqn:Hf.
    - eapply set_future_inv; [done|exact Hn|exact L|exact Hf|]. intros E. eapply done_published; [exact Hn|exact L|auto].
    - replace (on_node n (λ nd, nd) w) with w; [done|]. unfold on_node. destruct w. cbn. f_equal. symmetry. by apply list_alter_id. }
  destruct Hw1 as [Hw1 X1]. destruct (unregister_inv _ (u_buildID u) Hw1) as [Hw2 X2]. cbn [w_registry on_node] in Hw2, X2.
  eapply with_phase_inv; [exact Hw2|exact Hi|done|]. cbn. intros E. eapply upload_done_ext; [|by apply Hdone, Hr]. etrans; [exact X1|exact X2].
Qed.

(** A pause: the template, then the future, the registration and the upload. *)
Lemma fresh_elim b w : fresh b w = true → (∀ n nd, w_nodes w !! n = Some nd → n_templates nd !! b = None ∧ ¬ started nd b ∧
  ∀ d dv, n_devs nd !! d = Some dv → dv_build dv ≠ b).
Proof using.
  unfold fresh. rewrite !andb_true_iff. intros [[_ Hf] _] n nd Hn. rewrite forallb_forall in Hf. specialize (Hf nd).
  rewrite <- list_elem_of_In in Hf. specialize (Hf (list_elem_of_lookup_2 _ _ _ Hn)). rewrite !andb_true_iff, bool_decide_eq_true in Hf.
  destruct Hf as [[H1 H2] H3]. rewrite !forallb_forall in *. split_and!; [done| |].
  - intros (f & r & Hr). specialize (H3 (b, r)). rewrite <- list_elem_of_In in H3. specialize (H3 (list_elem_of_lookup_2 _ _ _ Hr)).
    apply bool_decide_eq_true in H3. by apply H3.
  - intros d dv Hd. specialize (H2 dv). rewrite <- list_elem_of_In in H2. specialize (H2 (list_elem_of_lookup_2 _ _ _ Hd)).
    by apply bool_decide_eq_true in H2.
Qed.

Lemma Start_new nd b nd' f : Start nd b = Ok (nd', f) →
  f = length (n_results nd) ∧ nd' = with_futures (<[b := f]> (n_futures nd)) (n_results nd ++ [(b, NewSetOnce)]) nd.
Proof using.
  unfold Start. destruct (n_futures nd !! b) as [e|]; [destruct (n_results nd !! e) as [[a [r|]]|]|]; try discriminate; by intros [= <- <-].
Qed.

Lemma NewUpload_new nd b snap o nd' u : NewUpload nd b snap o = Ok (nd', u) → op_uploads o = true →
  ∃ f, Start nd b = Ok (nd', f) ∧ u_buildID u = b ∧ u_snap u = snap ∧ u_uploads u = true ∧ u_future u = Some f.
Proof using.
  unfold NewUpload. intros H Ho. apply bind_ok in H as ([mem memV4] & _ & H). apply bind_ok in H as ([root rootV4] & _ & H).
  rewrite Ho in H. apply bind_ok in H as ([nd1 f] & Hs & [= <- <-]). by exists f.
Qed.

Lemma started_node_step w nd b f : node_inv w nd → f = length (n_results nd) → let nd' := with_futures (<[b := f]> (n_futures nd)) (n_results nd ++ [(b, NewSetOnce)]) nd in
  node_ext nd nd' ∧ node_inv w nd' ∧ started nd' b ∧ n_results nd' !! f = Some (b, None) ∧ ∀ a, started nd' a → started nd a ∨ a = b.
Proof using.
  intros [N1 N2 N3 N4 N5] -> nd'. assert (Hf : n_results nd' !! length (n_results nd) = Some (b, None)) by (by apply list_lookup_middle).
  assert (Hold : ∀ g x, n_results nd !! g = Some x → n_results nd' !! g = Some x) by (intros g x; apply lookup_app_l_Some).
  assert (Hcases : ∀ g x, n_results nd' !! g = Some x → n_results nd !! g = Some x ∨ x = (b, None)).
  { intros g x [Hg|[_ Hg]]%lookup_app_Some; [by left|]. apply list_lookup_singleton_Some in Hg as [_ <-]. by right. }
  split_and!.
  - split; [intros d dv Hd; by exists dv|intros g a r Hg; exists r; auto|done].
  - split; [done|done|done| |].
    + intros a g Ha. cbn in Ha. apply lookup_insert_Some in Ha as [[<- <-]|[_ Ha]]; [by exists None|]. destruct (N4 a g Ha) as [r Hr]. exists r. auto.
    + intros g a t [Hg|[=]]%Hcases. by eapply N5.
  - by exists (length (n_results nd)), None.
  - done.
  - intros a (g & r & [Hg|[= -> _]]%Hcases); [left; by exists g, r|by right].
Qed.

Lemma pause_template w n nd b snap : global_inv w → w_nodes w !! n = Some nd → fresh b w = true →
  diff_ok w b Memfile (sn_Memory snap) = true → diff_ok w b Rootfs (sn_Rootfs snap) = true →
  let nd' := add_template b (header_of snap Memfile) (header_of snap Rootfs) nd in
  node_ext nd nd' ∧ node_inv w nd' ∧ (∀ u tp, node_live nd u tp → node_live nd' u tp) ∧
  ∃ tp, n_templates nd' !! b = Some tp ∧ (∀ t, tp_of tp t = None ↔ header_of snap t = None) ∧
    ∀ t d dv, n_devs nd' !! d = Some dv → dv_build dv = b → dv_type dv = t → tp_of tp t = Some d.
Proof using.
  intros G Hn Hf Hm Hr nd'. destruct (fresh_elim b w Hf n nd Hn) as (F1 & F2 & F3).
  assert (Hd : ∀ t, diff_ok w b t (diff_of snap t) = true) by (by intros []).
  destruct (add_template_step w n nd b (header_of snap Memfile) (header_of snap Rootfs) G Hn F1) as (X & I & L).
  { intros t h Hh. assert (Hh' : header_of snap t = Some h) by (by destruct t). destruct (diff_ok_elim w b t snap h (Hd t) Hh') as (P & Q & _).
    split_and!; [done|congruence|done]. }
  split; [exact X|]. split; [exact I|]. split; [exact L|].
  destruct (add_templates b (header_of snap Memfile) (header_of snap Rootfs) nd) as (tp & Et & Hnone & _ & Hcases). fold nd' in Et, Hcases.
  exists tp. split; [by rewrite Et, lookup_insert_eq|]. split; [intros t; rewrite Hnone; by destruct t|].
  intros t d dv [Hdv|(_ & _ & E)]%Hcases Hb Ht; [by destruct (F3 d dv Hdv)|by rewrite <- Ht].
Qed.

(** The registry and the list of uploads take a new entry. *)
Lemma enlist_inv w n nd u tp : world_inv w → w_nodes w !! n = Some nd → node_live nd u tp → runsV4 u = true → u_uploads u = true →
  (∀ t, diff_ok w (u_buildID u) t (diff_of (u_snap u) t) = true) →
  world_inv (with_uploads (w_uploads w ++ [(n, u, Idle)]) (with_registry (<[u_buildID u := n]> (w_registry w)) w)).
Proof using.
  intros [[G1 G2 G3 G4 G5] Hp] Hn L V4 Ht Hd. set (w' := with_uploads _ _). assert (X : ext w w') by (by apply same_nodes_ext). split.
  - split.
    + intros a t h Ha. destruct (G1 a t h Ha). split; [done|by apply (settled_mono w)].
    + intros m x Hm. apply (node_inv_mono w); [done|by eapply G2].
    + intros i m v ph Hi Hf. apply (upload_live_mono w); [done|done|]. cbn in Hi. apply lookup_app_Some in Hi as [Hi|[_ Hi]]; [by eapply G3|].
      apply list_lookup_singleton_Some in Hi as [_ [= <- <- <-]]. split; [done|done|done|by exists nd, tp].
    + intros a m Ha. cbn in Ha. apply lookup_insert_Some in Ha as [[<- <-]|[_ Ha]]; [|by apply G4]. exists nd. split; [done|apply L].
    + done.
  - intros i m v ph Hi. cbn in Hi. apply lookup_app_Some in Hi as [Hi|[_ Hi]]; [eapply phase_ok_ext; [exact X|by apply Hp]|].
    by apply list_lookup_singleton_Some in Hi as [_ [= <- <- <-]].
Qed.

Lemma pause_inv w n nd b snap o nd' u : world_inv w → w_nodes w !! n = Some nd → fresh b w = true → op_uploads o = true →
  diff_ok w b Memfile (sn_Memory snap) = true → diff_ok w b Rootfs (sn_Rootfs snap) = true →
  NewUpload (add_template b (header_of snap Memfile) (header_of snap Rootfs) nd) b snap o = Ok (nd', u) → runsV4 u = true →
  world_inv (with_uploads (w_uploads w ++ [(n, u, Idle)]) (with_registry (<[b := n]> (w_registry w)) (on_node n (λ _, nd') w))).
Proof using.
  intros Hw Hn Hf Ho Hm Hr Hnew V4. pose proof Hw as [G _]. destruct (pause_template w n nd b snap G Hn Hf Hm Hr) as (X1 & I1 & L1 & tp & T1 & T2 & T3).
  destruct (NewUpload_new _ _ _ _ _ _ Hnew Ho) as (f & [Ef ->]%Start_new & Eb & Es & Eu & Efu).
  set (nd1 := add_template b _ _ nd) in *. destruct (started_node_step w nd1 b f I1 Ef) as (X2 & I2 & S2 & R2 & C2). set (nd2 := with_futures _ _ nd1) in *.
  assert (Hlive : ∀ v tp', node_live nd v tp' → node_live nd2 v tp').
  { intros v tp' [M1 M2 M3 M4 M5]%L1. split; [done|by eapply started_ext|done| |done].
    intros g Hg. destruct (M4 g Hg) as [x Hx]. destruct (nx_results _ _ X2 _ _ _ Hx) as (y & Hy & _). by exists y. }
  destruct (node_step w n nd (λ _, nd2) G Hn) as [G2 E2]; [by etrans|done| |by intros i v ph tp' _ _ Hl; exists tp'; apply Hlive|].
  { intros a [Ha| ->]%C2.
    - left. destruct Ha as (g & x & Hg). exists g, x. unfold nd1 in Hg. by rewrite (proj1 (add_results b _ _ nd)) in Hg.
    - right. intros m x Hx. by eapply fresh_elim. }
  assert (Hw2 : world_inv (on_node n (λ _, nd2) w)) by (by apply (world_inv_ext w)). subst b.
  apply (enlist_inv (on_node n (λ _, nd2) w) n nd2 u tp); [done|cbn; by rewrite list_lookup_alter_eq, Hn| |done|done|].
  - split; [done|done|by rewrite Es| |done]. intros g Hg. exists None. congruence.
  - intros t. apply (diff_ok_mono w); [done|]. rewrite Es. by destruct t.
Qed.

(** ** Every move keeps the invariant *)

Lemma call_inv i j x w w' : world_inv w → call_move true i j x w = Some w' → world_inv w'.
Proof using.
  intros Hw. unfold call_move. destruct (w_uploads w !! i) as [[[n u] ph]|] eqn:Hi; [|done]. cbn.
  pose proof (proj2 Hw _ _ _ _ Hi) as Hp. destruct ph as [|p|tasks failed|p|r|r]; try done; cbn in Hp.
  - destruct (run_prog true p x n u w) as [[w1 p']|] eqn:Hr; [|done]. cbn. intros [= <-].
    destruct (run_prog_inv _ _ _ _ _ _ _ _ _ _ Hw Hi eq_refl Hp Hr) as (Hw1 & _ & E & Hp').
    eapply with_phase_inv; [exact Hw1|by rewrite E|done|exact Hp'].
  - destruct (tasks !! j) as [p|] eqn:Hj; [|done]. cbn. destruct (run_prog true p x n u w) as [[w1 p']|] eqn:Hr; [|done]. cbn. intros [= <-].
    destruct Hp as [Hall Herr]. destruct (Forall2_lookup_l _ _ _ _ _ Hall Hj) as (P & HP & Hwp).
    destruct (run_prog_inv _ _ _ _ _ _ _ _ _ _ Hw Hi eq_refl Hwp Hr) as (Hw1 & X & E & Hp').
    eapply with_phase_inv; [exact Hw1|by rewrite E|done|]. cbn.
    destruct (phase_ok_ext w w1 i n u (Group tasks failed) X (conj Hall Herr)) as [Hall1 _]. split.
    + rewrite <- (list_insert_id (goals n u) j P HP). by apply Forall2_insert.
    + intros e He. apply list_elem_of_lookup in He as [k Hk]. destruct (decide (k = j)) as [->|Hne].
      * rewrite list_lookup_insert_eq in Hk by (by eapply lookup_lt_Some). injection Hk as ->. cbn. by destruct failed.
      * rewrite list_lookup_insert_ne in Hk by congruence. assert (Hf : failed ≠ None) by (eapply Herr, list_elem_of_lookup_2, Hk).
        destruct failed; [|done]. by destruct p' as [[|]|].
  - by destruct Hp as [-> _].
Qed.

Lemma join_ok w i n u ph ph' : global_inv w → w_uploads w !! i = Some (n, u, ph) → finished ph = false → phase_ok w i n u ph → join u ph = Some ph' →
  phase_ok w i n u ph'.
Proof using.
  intros G Hi Hf Hp. pose proof (gi_live _ G _ _ _ _ Hi Hf) as Hl. destruct ph as [|p|tasks failed|p|r|r]; try done; cbn [join].
  - destruct p as [[[m rt]|e]|]; cbn; [|by intros [= <-]|done]. intros [= <-]. cbn in Hp. destruct (Hp m rt eq_refl). by apply group_spec.
  - destruct (forallb _ tasks) eqn:Hall; [|done]. intros [= <-]. destruct failed as [e|]; [done|]. destruct Hp as [Hg Herr].
    unfold Run. rewrite (ul_v4 _ _ _ Hl). cbn [after runV4 phase_ok]. split; [done|].
    assert (Hgoal : ∀ P, P ∈ goals n u → P w).
    { intros P [k Hk]%list_elem_of_lookup. destruct (Forall2_lookup_r _ _ _ _ _ Hg Hk) as (p & Hpk & Hwp). rewrite forallb_forall in Hall.
      specialize (Hall p). rewrite <- list_elem_of_In in Hall. specialize (Hall (list_elem_of_lookup_2 _ _ _ Hpk)).
      destruct p as [[[]|e]|]; [by apply Hwp|by destruct (Herr e (list_elem_of_lookup_2 _ _ _ Hpk))|done]. }
    split_and!; [|apply (Hgoal (λ w, FilesystemSnapshot (u_snap u) = false → blob_done u Snapfile w))|apply (Hgoal (blob_done u Metafile))]; [|set_solver..].
    intros []; [apply (Hgoal (file_done n u Memfile))|apply (Hgoal (file_done n u Rootfs))]; set_solver.
  - destruct Hp as [-> Hd]. cbn. intros [= <-]. cbn. auto.
Qed.

Lemma upload_move_inv e w w' : world_inv w → move true e w = Some w' → world_inv w'.
Proof using.
  intros Hw. destruct e as [n b snap o|i|i j x|i|i failed|n a mem root|n d|n a|n a|a|n a s]; cbn [move].
  - destruct (fresh b w && op_uploads o && diff_ok w b Memfile (sn_Memory snap) && diff_ok w b Rootfs (sn_Rootfs snap)) eqn:E; [|done]. cbn [negb andb].
    rewrite !andb_true_iff in E. destruct E as [[[F O] D1] D2]. destruct (w_nodes w !! n) as [nd|] eqn:Hn; [|done]. cbn [mbind option_bind].
    destruct (NewUpload _ _ _ _) as [[nd' u]|e] eqn:Hnew.
    + destruct (runsV4 u) eqn:V4; [|done]. cbn. intros [= <-]. by eapply pause_inv.
    + intros [= <-]. destruct (pause_template w n nd b snap (proj1 Hw) Hn F D1 D2) as (X & I & L & _).
      destruct (node_step w n nd (λ _, add_template b (header_of snap Memfile) (header_of snap Rootfs) nd) (proj1 Hw) Hn X I) as [G2 X2].
      * intros a (g & x & Hg). left. exists g, x. by rewrite (proj1 (add_results b _ _ nd)) in Hg.
      * intros i v ph tp _ _ Hl. exists tp. by apply L.
      * by apply (world_inv_ext w).
  - destruct (w_uploads w !! i) as [[[n u] ph]|] eqn:Hi; [|done]. cbn. destruct ph as [|p|tasks failed|p|[|]|r]; try done; intros [= <-].
    all: eapply with_phase_inv; [done|exact Hi|done|]; unfold Run; destruct (runsV4 u); apply both_paths_spec.
  - apply call_inv, Hw.
  - destruct (w_uploads w !! i) as [[[n u] ph]|] eqn:Hi; [|done]. cbn. destruct (join u ph) as [ph'|] eqn:Hj; [|done]. cbn. intros [= <-].
    assert (Hf : finished ph = false) by (by destruct ph). eapply with_phase_inv; [done|exact Hi|done|].
    eapply join_ok; [apply Hw|exact Hi|done|by apply Hw|done].
  - destruct (w_uploads w !! i) as [[[n u] ph]|] eqn:Hi; [|done]. cbn. destruct ph as [|p|tasks f|p|r|r]; try done. intros [= <-].
    eapply upload_finish_inv; [done|exact Hi|]. destruct r as [[]|e], failed; done.
  - destruct (w_nodes w !! n) as [nd|] eqn:Hn; [|done]. cbn [mbind option_bind]. case_bool_decide as Ha; [|done].
    destruct (fetch w n a Memfile mem) as [m|] eqn:Hm; [|done]. destruct (fetch w n a Rootfs root) as [r|] eqn:Hr; [|done]. cbn. intros [= <-].
    by eapply open_inv.
  - destruct (w_nodes w !! n) as [nd|] eqn:Hn; [|done]. cbn [mbind option_bind]. destruct (n_devs nd !! d) as [dv|] eqn:Hd; [|done]. cbn [mbind option_bind].
    pose proof (ni_ids _ _ (gi_nodes _ (proj1 Hw) _ _ Hn) _ _ Hd) as Hid. rewrite Hid.
    destruct (load w (dv_build dv) (dv_type dv)) as [h|] eqn:Hl; [|done]. destruct (load_settled _ _ _ _ (proj1 Hw) Hl) as [Hp Hs].
    case_match; [|done]. intros [= <-]. destruct (swap_inv w n nd d h (proj1 Hw) Hn) as [G X].
    { intros dv' Hdv'. by replace dv' with dv by congruence. }
    by apply (world_inv_ext w).
  - destruct (existsb _ _) eqn:E; [done|]. cbn. intros [= <-]. apply same_devs_step; try done.
    + intros nd b tp. cbn. by intros [_ H]%lookup_delete_Some.
    + intros nd i u ph Hi Hf. cbn. rewrite lookup_delete_ne; [done|]. intros ->. apply not_true_iff_false in E. apply E, existsb_exists.
      exists (n, u, ph). split; [apply list_elem_of_In, list_elem_of_lookup; by exists i|]. by rewrite Nat.eqb_refl, Hf, bool_decide_eq_true_2.
  - intros [= <-]. apply same_devs_step; try done. intros nd b g. cbn. by intros [_ H]%lookup_delete_Some.
  - intros [= <-]. by apply unregister_inv.
  - intros [= <-]. by apply same_devs_step.
Qed.

(** ** What is marked complete is complete *)

(** Nodes that just started, over builds that are in storage. *)
Record quiet (w : world) : Prop := {
  qt_uploads : w_uploads w = [];
  qt_registry : w_registry w = ∅;
  qt_nodes n nd : w_nodes w !! n = Some nd → nd = mkNode [] ∅ ∅ [] ∅;
  qt_stored a t h : w_headers w !! (a, t) = Some h → IncompletePendingUpload h = false ∧ settled w t a h
}.

Lemma quiet_world_inv w : quiet w → world_inv w.
Proof using.
  intros [Q1 Q2 Q3 Q4]. split; [split|].
  - done.
  - intros n nd ->%Q3. by split.
  - intros i n u ph. by rewrite Q1.
  - intros a n. by rewrite Q2.
  - intros n m nd nd' a Hn. apply Q3 in Hn as ->. by intros _ (f & r & Hf).
  - intros i n u ph. by rewrite Q1.
Qed.

Lemma upload_steps_inv w0 w : quiet w0 → rtc (step true) w0 w → world_inv w.
Proof using. intros Hq%quiet_world_inv Hs. induction Hs as [|w1 w2 w3 [e He] _ IH]; [done|]. apply IH. by eapply upload_move_inv. Qed.

(** C6. What is marked complete is complete.  Suppose builds are named once and
    made over builds that have a body, with the right entries of their parent;
    uploads are V4; a template stays in the cache while its build is uploaded;
    and an ancestor that is neither open on the node nor served by a peer has
    an entry in the header of the snapshot, or needs none ([clean] moves; what
    goes wrong otherwise is shown in [Ancestor_entry_is_lost] and
    [V3_header_comes_first]).  Then, however the uploads of all nodes interleave
    with each other, with failures, retries, expired futures and headers
    fetched from peers: every header in storage, and every header a device of
    a node uses as final, names for each build it maps to (its own included) a
    body that is in storage under the codec it says; and an upload that
    finished without error has stored the headers of its files, its snapshot
    file and its metadata. *)
Theorem Completed_headers_settled w0 w : quiet w0 → rtc (step true) w0 w →
  (∀ a t h, w_headers w !! (a, t) = Some h → IncompletePendingUpload h = false ∧ settled w t a h) ∧
  (∀ n nd d dv, w_nodes w !! n = Some nd → n_devs nd !! d = Some dv → IncompletePendingUpload (dv_header dv) = false →
     settled w (dv_type dv) (dv_build dv) (dv_header dv)) ∧
  (∀ i n u, w_uploads w !! i = Some (n, u, Finished (Ok ())) →
     (∀ t, header_of (u_snap u) t ≠ None → is_Some (w_headers w !! (u_buildID u, t))) ∧
     (FilesystemSnapshot (u_snap u) = false → (u_buildID u, Snapfile) ∈ w_blobs w) ∧ (u_buildID u, Metafile) ∈ w_blobs w).
Proof using.
  intros Hq Hs. destruct (upload_steps_inv w0 w Hq Hs) as [G Hp]. split; [apply (gi_stored _ G)|]. split.
  - intros n nd d dv Hn Hd. by eapply ni_devs; [eapply gi_nodes|].
  - intros i n u Hi. destruct (Hp _ _ _ _ Hi eq_refl) as (H1 & H2 & H3). split_and!; [|done|done]. intros t Ht. by apply H1.
Qed.
End world.

(** ** A build and its parent *)

Definition id_n (k : Z) : uuid := replicate 16 k.
Definition chain_mapping (ids : list uuid) : Compact.Mapping :=
  mkMapping 4096 ids (seqZ 0 (len ids)) (replicate (length ids) 1) (replicate (length ids) 0) (seqZ 0 (len ids)).
Definition chain_header (version : Z) (id : uuid) (ids : list uuid) (builds : option (gmap uuid BuildData)) (pending : bool) : Header :=
  mkHeader (mkMetadata version 4096 (4096 * len ids) 1 id (id_n 1)) builds (chain_mapping ids) pending.
Definition chain_bodied (a : uuid) (t : DiffType) : bool := bool_decide (t = Memfile).

Definition zstd : CompressConfig := mkConfig true "zstd" 3 2048 50 1 1.
Definition chain_opts (cfg : CompressConfig) : upload_opts := mkOpts true cfg None None 4096 4096 false.
Definition chain_snapshot (h : Header) : Snapshot := mkSnapshot (mkDiff (Ok true) (Ok (Some h))) (mkDiff (Ok false) (Ok None)) false.

(** A base build, uncompressed; two nodes. *)
Definition chain_start : world :=
  mkWorld {[(id_n 1, Memfile, CompressionNone)]} {[(id_n 1, Memfile) := chain_header 3 (id_n 1) [id_n 1] None false]} ∅
    [mkNode [] ∅ ∅ [] ∅; mkNode [] ∅ ∅ [] ∅] ∅ [].

Fixpoint moves (clean : bool) (es : list event) (w : world) : option world :=
  match es with
  | [] => Some w
  | e :: es => w ← move 3 chain_bodied clean e w; moves clean es w
  end.

Lemma moves_rtc clean es w w' : moves clean es w = Some w' → rtc (step 3 chain_bodied clean) w w'.
Proof.
  revert w. induction es as [|e es IH]; intros w; cbn; [by intros [= ->]|]. destruct (move 3 chain_bodied clean e w) as [w1|] eqn:E; [|done].
  cbn. intros H. eapply rtc_l; [by exists e|by apply IH].
Qed.

Definition base_entry : gmap uuid BuildData := {[id_n 1 := empty_build]}.
Definition pause (n : nat) (k : Z) (ids : list uuid) (builds : option (gmap uuid BuildData)) : event :=
  EPause n (id_n k) (chain_snapshot (chain_header 4 (id_n k) ids builds true)) (chain_opts zstd).
Definition compressed (i : nat) : event := ECall i 0 (Framed (Some (mkFull (mkFT CompressionZstd [mkFrame 0 0 4096 10]))) []).
Definition gos (i j k : nat) : list event := replicate k (ECall i j Go).
Definition start_upload (i : nat) : list event := [ERun i] ++ gos i 0 2 ++ [EJoin i] ++ gos i 0 1 ++ [compressed i] ++ gos i 1 1 ++ gos i 2 1 ++ gos i 3 1.
Definition end_upload (i : nat) : list event := [EJoin i; EJoin i; EFinish i None].

(** The parent is paused and uploaded while the child already waits for it. *)
Definition chain_run : list event :=
  [pause 0 2 [id_n 1; id_n 2] (Some base_entry); pause 0 3 [id_n 2; id_n 1; id_n 3] (Some base_entry)] ++
  start_upload 1 ++ gos 1 0 2 ++ start_upload 0 ++ gos 0 0 6 ++ end_upload 0 ++ gos 1 0 8 ++ end_upload 1.

Definition chain_end : option world := moves true chain_run chain_start.

Definition stored_codec (w : world) (k a : Z) : option Z := (λ h, codec_of h (id_n a)) <$> w_headers w !! (id_n k, Memfile).

Lemma chain_start_quiet : quiet chain_bodied chain_start.
Proof.
  split; [done|done| |].
  - intros n nd Hn. apply list_elem_of_lookup_2 in Hn. repeat (apply elem_of_cons in Hn as [->|Hn]; [done|]). by apply elem_of_nil in Hn.
  - intros a t h Ha. cbn in Ha. apply lookup_singleton_Some in Ha as [[= <- <-] <-]. split; [done|]. split; [done| |].
    + intros b [->|Hb]%elem_of_cons _; [|by apply elem_of_nil in Hb]. apply (bool_decide_unpack _). vm_compute. exact I.
    + intros _. apply (bool_decide_unpack _). vm_compute. exact I.
Qed.

Lemma Completed_headers_settled_witness : ∃ w h, chain_end = Some w ∧ w_headers w !! (id_n 3, Memfile) = Some h ∧
  codec_of h (id_n 2) = CompressionZstd ∧ (id_n 2, Memfile, CompressionZstd) ∈ w_bodies w ∧ settled chain_bodied w Memfile (id_n 3) h.
Proof.
  assert (E : option_map (λ w, stored_codec w 3 2) chain_end = Some (Some CompressionZstd)) by (vm_compute; reflexivity).
  destruct chain_end as [w|] eqn:Hw; [|discriminate E]. injection E as E. unfold stored_codec in E.
  destruct (w_headers w !! (id_n 3, Memfile)) as [h|] eqn:Hh; [|discriminate E]. injection E as E.
  destruct (Completed_headers_settled 3 chain_bodied chain_start w chain_start_quiet (moves_rtc _ _ _ _ Hw)) as (Hst & _ & _).
  destruct (Hst _ _ _ Hh) as [_ Hs]. exists w, h. split; [reflexivity|]. split; [exact Hh|]. split; [exact E|]. split; [|exact Hs].
  rewrite <- E. apply (st_bodies _ _ _ _ _ Hs); [|discriminate]. assert (Hb : option_map (λ w, builds_of <$> w_headers w !! (id_n 3, Memfile)) chain_end = Some (Some [id_n 2; id_n 1; id_n 3])) by (vm_compute; reflexivity).
  rewrite Hw in Hb. injection Hb as Hb. rewrite Hh in Hb. injection Hb as ->. left.
Defined.

(** ** Two gaps *)

(** The second node opens a build from its peer while the build and its parent
    are being uploaded, and pauses a child.  The header of the peer has no entry
    for the parent; when the child is uploaded the parent is in storage, and no
    peer was ever seen for it: the header of the child is stored without the
    entry, and reads it as uncompressed. *)
Definition relay_run : list event :=
  [pause 0 2 [id_n 1; id_n 2] (Some base_entry); pause 0 3 [id_n 2; id_n 1; id_n 3] (Some base_entry);
   EOpen 1 (id_n 3) (FromPeer 0) NoDevice; pause 1 4 [id_n 3; id_n 2; id_n 1; id_n 4] (Some base_entry)] ++
  start_upload 0 ++ gos 0 0 6 ++ end_upload 0 ++ start_upload 1 ++ gos 1 0 10 ++ end_upload 1 ++
  start_upload 2 ++ gos 2 0 5 ++ gos 2 0 3 ++ gos 2 0 6 ++ end_upload 2.

Definition body_codecs (w : world) (k : Z) : list Z :=
  filter (λ c, (id_n k, Memfile, c) ∈ w_bodies w) [CompressionNone; CompressionZstd; CompressionLZ4].

Lemma Ancestor_entry_is_lost :
  option_map (λ w, (stored_codec w 4 2, body_codecs w 2, match last (w_uploads w) with Some (_, _, ph) => finished ph | None => false end))
    (moves false relay_run chain_start) = Some (Some CompressionNone, [CompressionZstd], true).
Proof. vm_compute. reflexivity. Qed.

(** An upload without compression stores the header while the body is still on
    its way: for a moment, and for ever if the upload fails, a header that is
    not pending names a body that is not in storage. *)
Definition early_run : list event :=
  [EPause 0 (id_n 2) (chain_snapshot (chain_header 3 (id_n 2) [id_n 1; id_n 2] None true)) (chain_opts no_config);
   ERun 0] ++ gos 0 0 2 ++ [EJoin 0] ++ gos 0 0 2 ++ [EOpen 1 (id_n 2) FromStorage NoDevice].

Lemma V3_header_comes_first :
  option_map (λ w, (stored_codec w 2 2, body_codecs w 2,
                    (λ nd, (λ dv, IncompletePendingUpload (dv_header dv)) <$> n_devs nd) <$> w_nodes w !! 1%nat))
    (moves false early_run chain_start) = Some (Some CompressionNone, [], Some [false]).
Proof. vm_compute. reflexivity. Qed.
