(* ===== verification/Redis.v ===== *)
(** * Redis: the sandboxes all API instances share

    Models the Redis backend of [api/internal/sandbox]: the storage
    ([storage/redis]: [operations.go], [state_change.go], [items.go],
    [main.go], [scripts.go]), the reservations ([reservations/redis]), and what
    an API instance does with them ([store.go], and [orchestrator]'s
    [delete_instance.go], [snapshot_template.go], [create_instance.go],
    [keep_alive.go], [update_network.go], [autoresume.go]).

    A request is a program over Redis commands; every command, and every Lua
    script, is atomic, and the requests of all instances interleave between
    commands.  A command may fail, and may then have been applied or not.  A
    lock, a transition and a result have a deadline on the clock of Redis; the
    clock of an instance answers anything.  Values are held as they are, not
    as JSON.  A context that ends shows as a failed command or wait.  A fresh
    number stands for [uuid.New()] and for the token of a lock. *)

From stdpp Require Import relations sorting.
From S2P Require Import Prelude Lifecycle Prog.
From S2P Require Store.

(** The team and the sandbox. *)
Definition key : Type := string * string.

Definition second : Z := 1000000000.

(** [main.go], [operations.go], [items.go] and [reservation.go]. *)
Definition lockTimeout : Z := 60 * second.
Definition transitionKeyTTL : Z := 70 * second.
Definition transitionResultKeyTTL : Z := 30 * second.
Definition orphanGracePeriod : Z := 60 * second.
Definition staleCutoff : Z := 3600 * second.
Definition expiredItemsBatchSize : nat := 256.
Definition resultTTL : Z := 30 * second.
Definition staleTTL : Z := 90 * second.
Definition MaxAutoResumeTransitionRetries : nat := 3.

Definition UnixMilli (t : Z) : Z := t / 1000000.
Definition Unix (t : Z) : Z := t / second.

Inductive lock := LockSandbox (k : key) | LockTransition (k : key).

#[global] Instance lock_eq_dec : EqDecision lock.
Proof. solve_decision. Defined.
#[global] Instance lock_countable : Countable lock.
Proof.
  refine (inj_countable' (λ l, match l with LockSandbox k => (true, k) | LockTransition k => (false, k) end)
            (λ '(b, k), if b : bool then LockSandbox k else LockTransition k) _).
  by intros [].
Defined.

(** [api.APIError], or another error, by its text. *)
Inductive start_err := APIError (Code : Z) (ClientMsg : string) (text : string) | PlainError (text : string).

Definition error_string (e : start_err) : string := match e with APIError _ _ text | PlainError text => text end.

Inductive api_err :=
| RedisFailed
| LockFailed
| NotFound
| Refusal (e : remove_err (E:=string))
| NotRunning (st : State)
| MaxLengthExceeded
| NodeFailed
| OperationFailed
| LimitExceeded
| AlreadyExists
| UnexpectedCode
| StartFailed (e : start_err)
| NoResult
| NotAdded
| StillTransitioning.

Inductive wake := WakeCtx | WakeSignal | WakeTick.

Section redis.
Context {R : Type}.
Notation sandbox := (Sandbox R).

Record reservationError := mkResErr { Message : string; re_Code : Z; re_ClientMsg : string }.
Record reservationResult := mkResult { rr_Sandbox : option sandbox; rr_Error : option reservationError }.

(** What the placement of a new sandbox yields. *)
Record placed := mkPlaced { pl_node : string; pl_maxLength : Z; pl_autoPause : bool; pl_rest : R }.

(** A call and the type of its answer.  [Err tt] is a failed command. *)
Inductive call : Type → Type :=
| Now : call Z
| Obtain (l : lock) : call (result unit nat)
| ReleaseLock (l : lock) (token : nat) : call (result unit unit)
| GetSandbox (k : key) : call (result unit (option sandbox))
| SetSandbox (k : key) (s : sandbox) : call (result unit unit)
| MGet (ks : list key) : call (result unit (list (option sandbox)))
| AddSandboxScript (k : key) (s : sandbox) : call (result unit unit)
| RemoveSandboxScript (k : key) : call (result unit unit)
| StartTransitionScript (k : key) (s : sandbox) : call (result unit nat)
| GetTransition (k : key) : call (result unit (option nat))
| DelTransition (k : key) : call (result unit unit)
| GetResult (k : key) (tid : nat) : call (result unit (option string))
| SetResult (k : key) (tid : nat) (v : string) : call (result unit unit)
| Publish (k : key) (tid : nat) : call (result unit unit)
| WaitSignal (k : key) (tid : nat) : call wake
| SMembers (team : string) : call (result unit (list string))
| SCards (teams : list string) : call (result unit (list Z))
| ZAddExpiration (k : key) (score : Z) : call (result unit unit)
| ZRemExpiration (ks : list key) : call (result unit unit)
| ZRangeExpired (max : Z) (count : nat) : call (result unit (list key))
| ZAddTeam (team : string) (score : Z) : call (result unit unit)
| ZRangeTeams : call (result unit (list (string * Z)))
| ZRemTeams (teams : list string) : call (result unit unit)
| ReserveScript (k : key) (limit now cutoff : Z) : call (result unit Z)
| FinishStartScript (k : key) (r : reservationResult) : call (result unit unit)
| ReleaseScript (k : key) : call (result unit unit)
| GetStartResult (k : key) : call (result unit (option reservationResult))
| GetPending (k : key) : call (result unit (option Z))
| Sleep : call wake
| PlaceSandbox (k : key) : call (result start_err placed)
| RemoveFromNode (k : key) (a : StateAction) : call (option string)
| PrepareSnapshot (k : key) : call bool
| Checkpoint (k : key) : call (option string)
| RecordSnapshot (k : key) : call bool
| FindNode (k : key) : call bool
| BudgetExceeded : call bool
| UpdateNode (k : key) : call bool
| KillOnNode (k : key) : call unit
| GoKill (k : key) : call unit
| AddToRoutingTable (s : sandbox) : call unit.

Notation prog := (prog call).
Open Scope prog_scope.

Definition command {A} (r : result unit A) : result api_err A := match r with Ok a => Ok a | Err _ => Err RedisFailed end.

(** [command] of a call, and [if err != nil]. *)
Definition try_call {A} (c : call (result unit A)) : prog (result api_err A) := r ←! c; Ret (command r).

(** The lock is released on every path out of the body. *)
Definition with_lock {A} (l : lock) (failed : A) (body : prog A) : prog A :=
  r ←! Obtain l;
  match r with
  | Err _ => Ret failed
  | Ok token => a ← body; _ ←! ReleaseLock l token; Ret a
  end.

(** ** [operations.go] *)

Definition Add (s : sandbox) : prog (result api_err unit) :=
  let k := (TeamID s, SandboxID s) in
  _ ←? try_call (ZAddExpiration k (UnixMilli (EndTime s)));
  _ ←? try_call (AddSandboxScript k s);
  now ←! Now;
  _ ←! ZAddTeam (TeamID s) (Unix now);
  Ret (Ok ()).

Definition Get (k : key) : prog (result api_err sandbox) :=
  data ←? try_call (GetSandbox k);
  Ret (match data with None => Err NotFound | Some s => Ok s end).

Definition Remove (k : key) : prog (result api_err unit) :=
  with_lock (LockSandbox k) (Err LockFailed)
    (_ ←? try_call (RemoveSandboxScript k);
     _ ←! ZRemExpiration [k];
     Ret (Ok ())).

Definition state_in (states : list State) (s : sandbox) : bool := bool_decide (states = []) || bool_decide (St s ∈ states).

Definition TeamItems (team : string) (states : list State) : prog (result api_err (list sandbox)) :=
  ids ←? try_call (SMembers team);
  if bool_decide (ids = []) then Ret (Ok [])
  else
    results ←? try_call (MGet (pair team <$> ids));
    Ret (Ok (filter (λ s, state_in states s = true) (omap id results))).

Definition update_locked (k : key) (updateFunc : sandbox → prog (result api_err sandbox)) : prog (result api_err sandbox) :=
  data ←? try_call (GetSandbox k);
  match data with
  | None => Ret (Err NotFound)
  | Some s =>
      s' ←? updateFunc s;
      _ ←? try_call (SetSandbox k s');
      if EndTime s' =? EndTime s then Ret (Ok s')
      else _ ←? try_call (ZAddExpiration k (UnixMilli (EndTime s'))); Ret (Ok s')
  end.

Definition Update (k : key) (updateFunc : sandbox → prog (result api_err sandbox)) : prog (result api_err sandbox) :=
  with_lock (LockSandbox k) (Err LockFailed) (update_locked k updateFunc).

(** The teams with their counts, and those to prune. *)
Fixpoint split_counts (cutoff : Z) (entries : list (string * Z)) (counts : list Z) (teams : gmap string Z) (stale : list string)
    : gmap string Z * list string :=
  match entries, counts with
  | (t, score) :: entries, c :: counts =>
      if 0 <? c then split_counts cutoff entries counts (<[t := c]> teams) stale
      else split_counts cutoff entries counts teams (if score <? cutoff then stale ++ [t] else stale)
  | _, _ => (teams, stale)
  end.

Definition TeamsWithSandboxCount : prog (result api_err (gmap string Z)) :=
  members ←? try_call ZRangeTeams;
  if bool_decide (members = []) then Ret (Ok ∅)
  else
    counts ←? try_call (SCards members.*1);
    now ←! Now;
    let '(teams, stale) := split_counts (Unix now - staleCutoff / second) members counts ∅ [] in
    if bool_decide (stale = []) then Ret (Ok teams)
    else _ ←! ZRemTeams stale; Ret (Ok teams).

(** ** [state_change.go] *)

Definition checkTransitionResult (k : key) (tid : nat) : prog (result api_err unit) :=
  r ←? try_call (GetResult k tid);
  Ret (match r with
       | None => Ok ()
       | Some v => if bool_decide (v = EmptyString) then Ok () else Err (Refusal (FailedState v))
       end).

(** A failed read leaves [currentID] empty, which is not [tid] either: the
    test for the error after it is never reached. *)
Definition still_running (r : result unit (option nat)) (tid : nat) : bool :=
  match r with Ok (Some currentID) => bool_decide (currentID = tid) | _ => false end.

(** [polls] is how often the ticker fires before the context ends. *)
Fixpoint wait_loop (polls : nat) (k : key) (tid : nat) : prog (result api_err unit) :=
  w ←! WaitSignal k tid;
  match w with
  | WakeCtx => Ret (Err (Refusal ContextDone))
  | WakeSignal => checkTransitionResult k tid
  | WakeTick =>
      r ←! GetTransition k;
      if still_running r tid then
        match polls with O => Ret (Err (Refusal ContextDone)) | S polls => wait_loop polls k tid end
      else checkTransitionResult k tid
  end.

Section fuel.
Context (tries polls : nat).

Definition waitForTransition (k : key) (tid : nat) : prog (result api_err unit) :=
  r ←! GetTransition k;
  if still_running r tid then wait_loop polls k tid else checkTransitionResult k tid.

Definition WaitForStateChange (k : key) : prog (result api_err unit) :=
  tid ←? try_call (GetTransition k);
  match tid with
  | None => Ret (Ok ())
  | Some tid => waitForTransition k tid
  end.

(** What [StartRemoving] returns: the sandbox with an error, [alreadyDone], or
    the callback, named by its transition. *)
Inductive removal :=
| Refused (s : option sandbox) (e : api_err)
| AlreadyDone (s : sandbox)
| Owning (s : sandbox) (tid : nat).

Inductive critical := Decided (r : removal) | Existing (s : sandbox) (tid : nat).

Definition eviction_check (opts : RemoveOpts) (s : sandbox) (tid : option nat) : prog (option api_err) :=
  if negb (Eviction opts) then Ret None
  else match tid with
       | Some _ => Ret (Some (Refusal EvictionInProgress))
       | None => now ←! Now; Ret (if IsExpired s now then None else Some (Refusal EvictionNotNeeded))
       end.

Definition updated_sandbox (opts : RemoveOpts) (s : sandbox) : prog sandbox :=
  let s' := with_state s (TargetState (Action opts)) in
  match Effect (Action opts) with
  | TransitionExpires => now ←! Now; Ret (if IsExpired s' now then s' else with_end s' now)
  | TransitionTransient => Ret s'
  end.

Definition invalid (s : sandbox) (newState : State) : removal :=
  Refused (Some s) (Refusal (InvalidStateTransition (St s) newState)).

(** Under the lock of the sandbox. *)
Definition startRemoving_locked (k : key) (opts : RemoveOpts) : prog critical :=
  data ←! GetSandbox k;
  match data with
  | Err _ => Ret (Decided (Refused None RedisFailed))
  | Ok None => Ret (Decided (Refused None NotFound))
  | Ok (Some s) =>
      r ←! GetTransition k;
      match r with
      | Err _ => Ret (Decided (Refused (Some s) RedisFailed))
      | Ok tid =>
          refused ← eviction_check opts s tid;
          match refused, tid with
          | Some e, _ => Ret (Decided (Refused (Some s) e))
          | None, Some tid => Ret (Existing s tid)
          | None, None =>
              let newState := TargetState (Action opts) in
              if bool_decide (St s = newState) then Ret (Decided (AlreadyDone s))
              else if negb (AllowedTransitions (St s) newState) then Ret (Decided (invalid s newState))
              else
                updated ← updated_sandbox opts s;
                r ←! StartTransitionScript k updated;
                Ret (Decided (match r with Ok tid => Owning updated tid | Err _ => Refused (Some s) RedisFailed end))
          end
      end
  end.

Definition handleExistingTransition (retry : prog removal) (k : key) (a : StateAction) (s : sandbox) (tid : nat) : prog removal :=
  let newState := TargetState a in
  if bool_decide (St s = newState) then
    r ← waitForTransition k tid;
    Ret (match r with Err e => Refused (Some s) e | Ok _ => AlreadyDone s end)
  else if negb (AllowedTransitions (St s) newState) then Ret (invalid s newState)
  else
    r ← waitForTransition k tid;
    match r with Err e => Ret (Refused (Some s) e) | Ok _ => retry end.

(** [tries] is how often the retry finds the context still open. *)
Fixpoint StartRemoving_loop (tries : nat) (k : key) (opts : RemoveOpts) : prog removal :=
  c ← with_lock (LockSandbox k) (Decided (Refused None LockFailed)) (startRemoving_locked k opts);
  match c with
  | Decided r => Ret r
  | Existing s tid =>
      handleExistingTransition
        match tries with
        | O => Ret (Refused None LockFailed)
        | S tries => StartRemoving_loop tries k (mkOpts (Action opts) false)
        end k (Action opts) s tid
  end.

Definition StartRemoving (k : key) (opts : RemoveOpts) : prog removal := StartRemoving_loop tries k opts.

(** [fromState] is the state the action left it in. *)
Definition restoreToRunning (k : key) (fromState : State) : prog (result api_err sandbox) :=
  Update k (λ s, Ret (Ok (if bool_decide (St s ≠ fromState) then s else with_state s StateRunning))).

Context (error_text : api_err → string).

Definition result_value (a : StateAction) (restoreErr : option api_err) (cbErr : option string) : string :=
  match restoreErr, cbErr, Effect a with
  | Some e, _, _ => ("failed to restore sandbox to running: " ++ error_text e)%string
  | None, Some e, TransitionExpires => e
  | _, _, _ => EmptyString
  end.

Definition createCallback (k : key) (tid : nat) (a : StateAction) (cbErr : option string) : prog unit :=
  restoreErr ← match Effect a, cbErr with
               | TransitionTransient, None =>
                   r ← restoreToRunning k (TargetState a);
                   Ret (match r with Err e => Some e | Ok _ => None end)
               | _, _ => Ret None
               end;
  with_lock (LockTransition k) ()
    (_ ←! SetResult k tid (result_value a restoreErr cbErr);
     _ ←! DelTransition k;
     _ ←! Publish k tid;
     Ret ()).

(** ** [items.go] and [main.go] *)

(** The keys of a batch by team, for the [MGET]s of the pipeline. *)
Definition by_team (ks : list key) : list (list key) :=
  (map_to_list (foldl (λ m (k : key), <[k.1 := default [] (m !! k.1) ++ [k]]> m) (∅ : gmap string (list key)) ks)).*2.

(** The pipeline fails if one command does. *)
Fixpoint mgets (batches : list (list key)) : prog (result api_err (list (key * option sandbox))) :=
  match batches with
  | [] => Ret (Ok [])
  | ks :: batches =>
      r ←? try_call (MGet ks);
      rest ←? mgets batches;
      Ret (Ok (zip ks r ++ rest))
  end.

(** The sandboxes to evict and the index entries to drop. *)
Fixpoint expired_filter (now : Z) (l : list (key * option sandbox)) (acc : list sandbox) (stale : list key)
    : prog (list sandbox * list key) :=
  match l with
  | [] => Ret (acc, stale)
  | (k, None) :: l => expired_filter now l acc (stale ++ [k])
  | (_, Some s) :: l =>
      if negb (IsExpired s now) then expired_filter now l acc stale
      else if bool_decide (St s = StateRunning) then expired_filter now l (acc ++ [s]) stale
      else
        t ←! Now;
        if t - EndTime s <=? staleCutoff then expired_filter now l acc stale
        else expired_filter now l (acc ++ [s]) stale
  end.

Definition ExpiredItems : prog (result api_err (list sandbox)) :=
  now ←! Now;
  members ←? try_call (ZRangeExpired (UnixMilli now) expiredItemsBatchSize);
  if bool_decide (members = []) then Ret (Ok [])
  else
    found ←? mgets (by_team members);
    r ← expired_filter now found [] [];
    if bool_decide (r.2 = []) then Ret (Ok r.1)
    else _ ←! ZRemExpiration r.2; Ret (Ok r.1).

Definition sandbox_key (s : sandbox) : key := (TeamID s, SandboxID s).

Definition missing {A} (found : list (key * option A)) : list key :=
  omap (λ x, match x.2 with None => Some x.1 | Some _ => None end) found.

(** The orphans, to be killed on their node, in any order. *)
Definition Reconcile (sbxs : list sandbox) : prog (list sandbox) :=
  if bool_decide (length sbxs = O) then Ret []
  else
    now ←! Now;
    let candidates := filter (λ s, (now - StartTime s <? orphanGracePeriod) = false) sbxs in
    if bool_decide (length candidates = O) then Ret []
    else
      r ← mgets (by_team (sandbox_key <$> candidates));
      Ret (match r with Err _ => [] | Ok found => filter (λ s, sandbox_key s ∈ missing found) candidates end).

(** ** [reservations/redis] *)

Definition encodeResult (s : option sandbox) (err : option start_err) : reservationResult :=
  mkResult s ((λ e, match e with
                    | APIError code msg _ => mkResErr (error_string e) code msg
                    | PlainError _ => mkResErr (error_string e) 0 EmptyString
                    end) <$> err).

Definition reconstructError (e : reservationError) : start_err :=
  if re_Code e =? 0 then PlainError (Message e) else APIError (re_Code e) (re_ClientMsg e) (Message e).

(** [None] is the zero sandbox. *)
Definition decodeResult (r : reservationResult) : result api_err (option sandbox) :=
  match rr_Error r with Some e => Err (StartFailed (reconstructError e)) | None => Ok (rr_Sandbox r) end.

Inductive reservation := Reserved | InStorage | Pending.

Definition reserveResultReserved : Z := 0.
Definition reserveResultAlreadyInStorage : Z := 1.
Definition reserveResultAlreadyPending : Z := 2.
Definition reserveResultLimitExceeded : Z := 3.

(** With [Store.Reserve]: a sandbox in the storage is read from there. *)
Definition Reserve (k : key) (limit : Z) : prog (result api_err reservation) :=
  now ←! Now;
  now' ←! Now;
  code ←? try_call (ReserveScript k limit (Unix now) (Unix (now' - staleTTL)));
  Ret (if code =? reserveResultReserved then Ok Reserved
       else if code =? reserveResultAlreadyInStorage then Ok InStorage
       else if code =? reserveResultAlreadyPending then Ok Pending
       else if code =? reserveResultLimitExceeded then Err LimitExceeded
       else Err UnexpectedCode).

Definition finishStart (k : key) (s : option sandbox) (err : option start_err) : prog unit :=
  _ ←! FinishStartScript k (encodeResult s err); Ret ().

Fixpoint waitForStart (polls : nat) (k : key) : prog (result api_err (option sandbox)) :=
  r ←! GetStartResult k;
  match r with
  | Err _ => Ret (Err RedisFailed)
  | Ok (Some data) => Ret (decodeResult data)
  | Ok None =>
      pending ←! GetPending k;
      match pending with
      | Err _ => Ret (Err RedisFailed)
      | Ok None =>
          r ←! GetStartResult k;
          Ret (match r with Ok (Some data) => decodeResult data | _ => Err NoResult end)
      | Ok (Some _) =>
          w ←! Sleep;
          match w, polls with
          | WakeCtx, _ | _, O => Ret (Err (Refusal ContextDone))
          | _, S polls => waitForStart polls k
          end
      end
  end.

(** ** [store.go] and [orchestrator] *)

Definition StoreAdd (s : sandbox) : prog (result api_err unit) :=
  let s := Store.capped s in
  r ← Add s;
  match r with
  | Err e => Ret (Err e)
  | Ok _ => _ ←! AddToRoutingTable s; Ret (Ok ())
  end.

(** Both errors are logged. *)
Definition StoreRemove (k : key) : prog unit :=
  _ ← Remove k;
  _ ←! ReleaseScript k;
  Ret ().

Definition removal_failed (opts : RemoveOpts) (s : option sandbox) (e : api_err) : result api_err unit :=
  if Eviction opts then Err e
  else match TargetState (Action opts), e with
       | (StateKilling | StatePausing), NotFound => Err NotFound
       | StateKilling, _ => if bool_decide (St <$> s = Some StateKilling) then Ok () else Err OperationFailed
       | StatePausing, Refusal (InvalidStateTransition current _) =>
           if bool_decide (current = StateKilling) then Err NotFound else Err e
       | _, _ => Err OperationFailed
       end.

Definition RemoveSandbox (k : key) (opts : RemoveOpts) : prog (result api_err unit) :=
  r ← StartRemoving k opts;
  match r with
  | Refused s e => Ret (removal_failed opts s e)
  | AlreadyDone _ => Ret (Ok ())
  | Owning _ tid =>
      err ←! RemoveFromNode k (Action opts);
      _ ← StoreRemove k;
      _ ← createCallback k tid (Action opts) err;
      Ret (match err with None => Ok () | Some _ => Err OperationFailed end)
  end.

Definition CreateSnapshotTemplate (k : key) : prog (result api_err unit) :=
  r ← StartRemoving k (mkOpts StateActionSnapshot false);
  match r with
  | Refused _ e => Ret (Err e)
  | AlreadyDone _ => Ret (Err (Refusal (InvalidStateTransition StateSnapshotting StateSnapshotting)))
  | Owning _ tid =>
      let finish := createCallback k tid StateActionSnapshot in
      prepared ←! PrepareSnapshot k;
      if negb prepared then _ ← finish None; Ret (Err OperationFailed)
      else
        err ←! Checkpoint k;
        match err with
        | Some msg =>
            _ ← finish (Some msg);
            _ ← RemoveSandbox k (mkOpts StateActionKill false);
            Ret (Err NodeFailed)
        | None =>
            recorded ←! RecordSnapshot k;
            _ ← finish None;
            Ret (if recorded : bool then Ok () else Err OperationFailed)
        end
  end.

Definition getMaxAllowedTTL (now startTime duration maxInstanceLength : Z) : Z :=
  let timeLeft := maxInstanceLength - (now - startTime) in
  if timeLeft <=? 0 then 0 else Z.min timeLeft duration.

Definition keep_alive (now duration : Z) (allowShorter : bool) (s : sandbox) : prog (result api_err sandbox) :=
  if bool_decide (St s ≠ StateRunning) then Ret (Err (NotRunning (St s)))
  else
    let endTime := now + getMaxAllowedTTL now (StartTime s) duration (MaxInstanceLength s) in
    t ←! Now;
    Ret (if MaxInstanceLength s <? t - StartTime s then Err MaxLengthExceeded
         else if negb allowShorter && (endTime <? EndTime s) then Ok s
         else Ok (with_end s endTime)).

Definition KeepAliveFor (k : key) (duration : Z) (allowShorter : bool) : prog (result api_err sandbox) :=
  now ←! Now;
  s ←? Update k (keep_alive now duration allowShorter);
  updated ←! UpdateNode k;
  Ret (if updated : bool then Ok s else Err NodeFailed).

Definition with_rest (f : R → R) (s : sandbox) : sandbox :=
  mkSandbox (SandboxID s) (TeamID s) (NodeID s) (StartTime s) (EndTime s) (MaxInstanceLength s) (AutoPause s) (St s) (f (Rest s)).

(** [f] sets the egress rules of the network. *)
Definition set_egress (f : R → R) (s : sandbox) : prog (result api_err sandbox) :=
  Ret (if bool_decide (St s ≠ StateRunning) then Err (NotRunning (St s)) else Ok (with_rest f s)).

Definition UpdateSandboxNetworkConfig (k : key) (f : R → R) : prog (result api_err unit) :=
  _ ←? Update k (set_egress f);
  updated ←! UpdateNode k;
  Ret (if updated : bool then Ok () else Err NodeFailed).

Definition new_sandbox (k : key) (p : placed) (startTime endTime : Z) : sandbox :=
  mkSandbox k.2 k.1 (pl_node p) startTime endTime (pl_maxLength p) (pl_autoPause p) StateRunning (pl_rest p).

Definition add_failed : start_err := APIError 500 "Failed to create sandbox" "failed to add sandbox to store".

(** After the reservation.  A sandbox the storage refused is killed by a
    goroutine, which nothing waits for: see [forks]. *)
Definition create_reserved (k : key) (timeout : Z) : prog (result start_err sandbox) :=
  p ←! PlaceSandbox k;
  match p with
  | Err e => Ret (Err e)
  | Ok p =>
      startTime ←! Now;
      let s := new_sandbox k p startTime (startTime + timeout) in
      r ← StoreAdd s;
      match r with
      | Err _ => _ ←! GoKill k; Ret (Err add_failed)
      | Ok _ => Ret (Ok s)
      end
  end.

Definition CreateSandbox (k : key) (limit timeout : Z) : prog (result api_err (option sandbox)) :=
  r ←? Reserve k limit;
  match r with
  | InStorage => s ←? Get k; Ret (Ok (Some s))
  | Pending => waitForStart polls k
  | Reserved =>
      r ← create_reserved k timeout;
      match r with
      | Ok s => _ ← finishStart k (Some s) None; Ret (Ok (Some s))
      | Err e => _ ← finishStart k None (Some e); Ret (Err (StartFailed e))
      end
  end.

(** [Ok true] is the running sandbox's node, [Ok false] that there is none. *)
Fixpoint auto_resume (retries : nat) (k : key) (s : sandbox) : prog (result api_err bool) :=
  match St s with
  | StatePausing | StateSnapshotting =>
      match retries with
      | O => Ret (Err StillTransitioning)
      | S retries =>
          r ← WaitForStateChange k;
          match r with
          | Err e =>
              late ←! BudgetExceeded;
              Ret (Err (if late : bool then StillTransitioning else match e with Refusal ContextDone => e | _ => OperationFailed end))
          | Ok _ =>
              s ← Get k;
              match s with
              | Ok s => auto_resume retries k s
              | Err NotFound => Ret (Ok false)
              | Err e => Ret (Err e)
              end
          end
      end
  | StateKilling => Ret (Err NotFound)
  | StateRunning => found ←! FindNode k; Ret (if found : bool then Ok true else Err NodeFailed)
  end.

Definition HandleExistingSandboxAutoResume (k : key) (s : sandbox) : prog (result api_err bool) :=
  auto_resume MaxAutoResumeTransitionRetries k s.

Definition StoreReconcile (sbxs : list sandbox) : prog unit :=
  orphans ← Reconcile sbxs;
  (fix kill (l : list sandbox) : prog unit :=
     match l with [] => Ret () | s :: l => _ ←! KillOnNode (sandbox_key s); kill l end) orphans.

(** ** The requests

    [OpKill] is the goroutine that kills a sandbox the storage refused; the
    executions may start one at other times too. *)

Inductive op :=
| OpCreate (k : key) (timeout : Z)
| OpRemove (k : key) (pause : bool)
| OpEvict (k : key) (autoPause : bool)
| OpSnapshot (k : key)
| OpKeepAlive (k : key) (duration : Z) (allowShorter : bool)
| OpNetwork (k : key) (f : R → R)
| OpGet (k : key)
| OpWait (k : key)
| OpAutoResume (k : key) (s : sandbox)
| OpExpired
| OpTeamItems (team : string) (states : list State)
| OpTeams
| OpReconcile (sbxs : list sandbox)
| OpKill (k : key).

Inductive outcome :=
| OUnit (r : result api_err unit)
| OSandbox (r : result api_err (option sandbox))
| OFound (r : result api_err bool)
| OItems (r : result api_err (list sandbox))
| OCounts (r : result api_err (gmap string Z)).

(** A handler, or an eviction, kills or pauses. *)
Definition removal_opts (pause eviction : bool) : RemoveOpts := mkOpts (if pause then StateActionPause else StateActionKill) eviction.

Definition some_sandbox (r : result api_err sandbox) : outcome :=
  OSandbox (match r with Ok s => Ok (Some s) | Err e => Err e end).

(** [limit] is the tier of each team. *)
Definition program (limit : string → Z) (o : op) : prog outcome :=
  match o with
  | OpCreate k timeout => r ← CreateSandbox k (limit k.1) timeout; Ret (OSandbox r)
  | OpRemove k pause => r ← RemoveSandbox k (removal_opts pause false); Ret (OUnit r)
  | OpEvict k autoPause => r ← RemoveSandbox k (removal_opts autoPause true); Ret (OUnit r)
  | OpSnapshot k => r ← CreateSnapshotTemplate k; Ret (OUnit r)
  | OpKeepAlive k duration allowShorter => r ← KeepAliveFor k duration allowShorter; Ret (some_sandbox r)
  | OpNetwork k f => r ← UpdateSandboxNetworkConfig k f; Ret (OUnit r)
  | OpGet k => r ← Get k; Ret (some_sandbox r)
  | OpWait k => r ← WaitForStateChange k; Ret (OUnit r)
  | OpAutoResume k s => r ← HandleExistingSandboxAutoResume k s; Ret (OFound r)
  | OpExpired => r ← ExpiredItems; Ret (OItems r)
  | OpTeamItems team states => r ← TeamItems team states; Ret (OItems r)
  | OpTeams => r ← TeamsWithSandboxCount; Ret (OCounts r)
  | OpReconcile sbxs => _ ← StoreReconcile sbxs; Ret (OUnit (Ok ()))
  | OpKill k => _ ←! KillOnNode k; Ret (OUnit (Ok ()))
  end.
End fuel.

(** ** Redis *)

(** A value with a deadline is gone once the clock reaches it.  [published]
    are the messages sent to the channel. *)
Record db := mkDb {
  sandboxes : gmap key sandbox;
  index : gmap string (gset string);
  expiration : gmap key Z;
  teams : gmap string Z;
  transitions : gmap key (nat * Z);
  results : gmap (key * nat) (string * Z);
  locks : gmap lock (nat * Z);
  pending : gmap string (gmap string Z);
  start_results : gmap key (reservationResult * Z);
  published : gset (key * nat);
  next : nat;
  clock : Z
}.

Definition with_sandboxes (x : gmap key sandbox) (d : db) : db :=
  mkDb x (index d) (expiration d) (teams d) (transitions d) (results d) (locks d) (pending d) (start_results d) (published d) (next d) (clock d).
Definition with_index (x : gmap string (gset string)) (d : db) : db :=
  mkDb (sandboxes d) x (expiration d) (teams d) (transitions d) (results d) (locks d) (pending d) (start_results d) (published d) (next d) (clock d).
Definition with_expiration (x : gmap key Z) (d : db) : db :=
  mkDb (sandboxes d) (index d) x (teams d) (transitions d) (results d) (locks d) (pending d) (start_results d) (published d) (next d) (clock d).
Definition with_teams (x : gmap string Z) (d : db) : db :=
  mkDb (sandboxes d) (index d) (expiration d) x (transitions d) (results d) (locks d) (pending d) (start_results d) (published d) (next d) (clock d).
Definition with_transitions (x : gmap key (nat * Z)) (d : db) : db :=
  mkDb (sandboxes d) (index d) (expiration d) (teams d) x (results d) (locks d) (pending d) (start_results d) (published d) (next d) (clock d).
Definition with_results (x : gmap (key * nat) (string * Z)) (d : db) : db :=
  mkDb (sandboxes d) (index d) (expiration d) (teams d) (transitions d) x (locks d) (pending d) (start_results d) (published d) (next d) (clock d).
Definition with_locks (x : gmap lock (nat * Z)) (d : db) : db :=
  mkDb (sandboxes d) (index d) (expiration d) (teams d) (transitions d) (results d) x (pending d) (start_results d) (published d) (next d) (clock d).
Definition with_pending (x : gmap string (gmap string Z)) (d : db) : db :=
  mkDb (sandboxes d) (index d) (expiration d) (teams d) (transitions d) (results d) (locks d) x (start_results d) (published d) (next d) (clock d).
Definition with_start_results (x : gmap key (reservationResult * Z)) (d : db) : db :=
  mkDb (sandboxes d) (index d) (expiration d) (teams d) (transitions d) (results d) (locks d) (pending d) x (published d) (next d) (clock d).
Definition with_published (x : gset (key * nat)) (d : db) : db :=
  mkDb (sandboxes d) (index d) (expiration d) (teams d) (transitions d) (results d) (locks d) (pending d) (start_results d) x (next d) (clock d).
Definition with_next (x : nat) (d : db) : db :=
  mkDb (sandboxes d) (index d) (expiration d) (teams d) (transitions d) (results d) (locks d) (pending d) (start_results d) (published d) x (clock d).
Definition with_clock (x : Z) (d : db) : db :=
  mkDb (sandboxes d) (index d) (expiration d) (teams d) (transitions d) (results d) (locks d) (pending d) (start_results d) (published d) (next d) x.

Definition live {A} (d : db) (x : option (A * Z)) : option A :=
  match x with Some (a, deadline) => if clock d <? deadline then Some a else None | None => None end.

Definition transition_of (d : db) (k : key) : option nat := live d (transitions d !! k).
Definition holder (d : db) (l : lock) : option nat := live d (locks d !! l).
Definition members (d : db) (team : string) : gset string := default ∅ (index d !! team).
Definition waiting (d : db) (team : string) : gmap string Z := default ∅ (pending d !! team).

Definition put_sandbox (k : key) (s : sandbox) (d : db) : db := with_sandboxes (<[k := s]> (sandboxes d)) d.

(** ** [scripts.go] *)

Definition addSandboxScript (k : key) (s : sandbox) (d : db) : db :=
  with_index (<[k.1 := {[k.2]} ∪ members d k.1]> (index d)) (put_sandbox k s d).

Definition removeSandboxScript (k : key) (d : db) : db :=
  with_index (<[k.1 := members d k.1 ∖ {[k.2]}]> (index d)) (with_sandboxes (delete k (sandboxes d)) d).

Definition startTransitionScript (k : key) (s : sandbox) (tid : nat) (d : db) : db :=
  with_results (<[(k, tid) := (EmptyString, clock d + transitionResultKeyTTL)]> (results d))
    (with_transitions (<[k := (tid, clock d + transitionKeyTTL)]> (transitions d)) (put_sandbox k s d)).

Definition with_waiting (team : string) (p : gmap string Z) (d : db) : db := with_pending (<[team := p]> (pending d)) d.

(** [ZREMRANGEBYSCORE] drops what is at or before the cutoff. *)
Definition reserveScript (k : key) (limit now cutoff : Z) (d : db) : db * Z :=
  let p := filter (λ x, cutoff < x.2) (waiting d k.1) in
  let d := with_waiting k.1 p d in
  if bool_decide (k.2 ∈ members d k.1) then (d, reserveResultAlreadyInStorage)
  else if bool_decide (is_Some (p !! k.2)) then (d, reserveResultAlreadyPending)
  else if (0 <=? limit) && (limit <=? Z.of_nat (size (members d k.1)) + Z.of_nat (size p)) then (d, reserveResultLimitExceeded)
  else (with_start_results (delete k (start_results d)) (with_waiting k.1 (<[k.2 := now]> p) d), reserveResultReserved).

Definition finishStartScript (k : key) (r : reservationResult) (d : db) : db :=
  with_start_results (<[k := (r, clock d + resultTTL)]> (start_results d)) (with_waiting k.1 (delete k.2 (waiting d k.1)) d).

Definition releaseScript (k : key) (d : db) : db :=
  with_start_results (delete k (start_results d)) (with_waiting k.1 (delete k.2 (waiting d k.1)) d).

(** ** Commands *)

(** What a call gets from outside. *)
Inductive choice :=
| Go
| Fails (late : bool)
| Wakes (w : wake)
| Clock (t : Z)
| Places (r : result start_err placed)
| NodeSays (err : option string).

(** A command: it is applied and answers, or fails, applied or not. *)
Definition run {A} (x : choice) (d : db) (applied : db) (a : A) : option (db * result unit A) :=
  match x with
  | Go => Some (applied, Ok a)
  | Fails late => Some (if late then applied else d, Err ())
  | _ => None
  end.

Definition says {A} (x : choice) (d : db) (f : option string → A) : option (db * A) :=
  match x with NodeSays err => Some (d, f err) | _ => None end.

Definition wakes (x : choice) (d : db) (heard : bool) : option (db * wake) :=
  match x with
  | Wakes WakeSignal => if heard then Some (d, WakeSignal) else None
  | Wakes w => Some (d, w)
  | _ => None
  end.

(** By score, then by member, as a sorted set is kept. *)
Definition member_le (x y : key * Z) : bool :=
  (x.2 <? y.2) || ((x.2 =? y.2) && String.leb (x.1.1 ++ ":" ++ x.1.2) (y.1.1 ++ ":" ++ y.1.2)).

Fixpoint insert_sorted (x : key * Z) (l : list (key * Z)) : list (key * Z) :=
  match l with [] => [x] | y :: l' => if member_le x y then x :: l else y :: insert_sorted x l' end.

Definition range_expired (max : Z) (count : nat) (d : db) : list key :=
  take count (foldr insert_sorted [] (map_to_list (filter (λ x, x.2 <= max) (expiration d)))).*1.

Definition exec {A} (c : call A) (x : choice) (d : db) : option (db * A) :=
  match c in call A return option (db * A) with
  | Now => match x with Clock t => Some (d, t) | _ => None end
  | Obtain l =>
      match holder d l with
      | Some _ => match x with Fails _ => Some (d, Err ()) | _ => None end
      | None => run x d (with_next (S (next d)) (with_locks (<[l := (next d, clock d + lockTimeout)]> (locks d)) d)) (next d)
      end
  | ReleaseLock l token =>
      run x d (if bool_decide (holder d l = Some token) then with_locks (delete l (locks d)) d else d) ()
  | GetSandbox k => run x d d (sandboxes d !! k)
  | SetSandbox k s => run x d (put_sandbox k s d) ()
  | MGet ks => run x d d ((λ k, sandboxes d !! k) <$> ks)
  | AddSandboxScript k s => run x d (addSandboxScript k s d) ()
  | RemoveSandboxScript k => run x d (removeSandboxScript k d) ()
  | StartTransitionScript k s => run x d (with_next (S (next d)) (startTransitionScript k s (next d) d)) (next d)
  | GetTransition k => run x d d (transition_of d k)
  | DelTransition k => run x d (with_transitions (delete k (transitions d)) d) ()
  | GetResult k tid => run x d d (live d (results d !! (k, tid)))
  | SetResult k tid v => run x d (with_results (<[(k, tid) := (v, clock d + transitionResultKeyTTL)]> (results d)) d) ()
  | Publish k tid => run x d (with_published ({[(k, tid)]} ∪ published d) d) ()
  | WaitSignal k tid => wakes x d (bool_decide ((k, tid) ∈ published d))
  | SMembers team => run x d d (elements (members d team))
  | SCards teams => run x d d ((λ t, Z.of_nat (size (members d t))) <$> teams)
  | ZAddExpiration k score => run x d (with_expiration (<[k := score]> (expiration d)) d) ()
  | ZRemExpiration ks => run x d (with_expiration (foldr delete (expiration d) ks) d) ()
  | ZRangeExpired max count => run x d d (range_expired max count d)
  | ZAddTeam team score => run x d (with_teams (<[team := score]> (teams d)) d) ()
  | ZRangeTeams => run x d d (map_to_list (teams d))
  | ZRemTeams ts => run x d (with_teams (foldr delete (teams d) ts) d) ()
  | ReserveScript k limit now cutoff => let '(d', code) := reserveScript k limit now cutoff d in run x d d' code
  | FinishStartScript k r => run x d (finishStartScript k r d) ()
  | ReleaseScript k => run x d (releaseScript k d) ()
  | GetStartResult k => run x d d (live d (start_results d !! k))
  | GetPending k => run x d d (waiting d k.1 !! k.2)
  | Sleep => wakes x d false
  | PlaceSandbox k => match x with Places r => Some (d, r) | _ => None end
  | RemoveFromNode k a => says x d id
  | PrepareSnapshot k => says x d (λ err, bool_decide (err = None))
  | Checkpoint k => says x d id
  | RecordSnapshot k => says x d (λ err, bool_decide (err = None))
  | FindNode k => says x d (λ err, bool_decide (err = None))
  | BudgetExceeded => says x d (λ err, bool_decide (err = None))
  | UpdateNode k => says x d (λ err, bool_decide (err = None))
  | KillOnNode k => says x d (λ _, ())
  | GoKill k => says x d (λ _, ())
  | AddToRoutingTable s => says x d (λ _, ())
  end.

(** ** The instances *)

(** What the calls of a request have obtained: locks, transitions (true once
    the sandbox is removed), reservations (true once it is added). *)
Record holds := mkHolds { h_locks : list (lock * nat); h_trans : list (key * nat * bool); h_starts : list (key * bool) }.

Definition nothing : holds := mkHolds [] [] [].

Definition hold {A} (c : call A) (h : holds) : A → holds :=
  match c in call A return A → holds with
  | Obtain l => λ a, match a with Ok token => mkHolds ((l, token) :: h_locks h) (h_trans h) (h_starts h) | Err _ => h end
  | ReleaseLock l token => λ _, mkHolds (filter (λ x, x ≠ (l, token)) (h_locks h)) (h_trans h) (h_starts h)
  | StartTransitionScript k _ => λ a,
      match a with Ok tid => mkHolds (h_locks h) ((k, tid, false) :: h_trans h) (h_starts h) | Err _ => h end
  | DelTransition k => λ _, mkHolds (h_locks h) (filter (λ x, x.1.1 ≠ k) (h_trans h)) (h_starts h)
  | RemoveSandboxScript k => λ _,
      mkHolds (h_locks h) ((λ x, if bool_decide (x.1.1 = k) then (x.1, true) else x) <$> h_trans h) (h_starts h)
  | ReserveScript k _ _ _ => λ a,
      match a with
      | Ok code => if code =? reserveResultReserved then mkHolds (h_locks h) (h_trans h) ((k, false) :: h_starts h) else h
      | Err _ => h
      end
  | AddSandboxScript k _ => λ _,
      mkHolds (h_locks h) (h_trans h) ((λ x, if bool_decide (x.1 = k) then (k, true) else x) <$> h_starts h)
  | FinishStartScript k _ => λ _, mkHolds (h_locks h) (h_trans h) (filter (λ x, x.1 ≠ k) (h_starts h))
  | _ => λ _, h
  end.

Record job := mkJob { j_op : op; j_prog : prog outcome; j_holds : holds }.

Record world := mkWorld { w_db : db; w_jobs : list job }.

Section moves.
Context (tries polls : nat) (error_text : api_err → string) (limit : string → Z).

(** A request that has returned holds nothing. *)
Definition settle (j : job) : job := match j_prog j with Ret _ => mkJob (j_op j) (j_prog j) nothing | Do _ _ => j end.

(** The clock may reach [t]: no lock or transition outlives its use. *)
Definition in_time (t : Z) (d : db) (h : holds) : bool :=
  forallb (λ x, match locks d !! x.1 with Some (_, deadline) => t <? deadline | None => true end) (h_locks h) &&
  forallb (λ x, match transitions d !! x.1.1 with Some (_, deadline) => t <? deadline | None => true end) (h_trans h).

(** The deadline of a reservation: none that is in use is taken for stale. *)
Definition reservations_fresh {A} (c : call A) (d : db) (hs : list holds) : bool :=
  match c with
  | ReserveScript k _ _ cutoff =>
      forallb (λ h, forallb (λ x, match waiting d x.1.1 !! x.1.2 with
                                  | Some score => bool_decide (x.1.1 ≠ k.1) || (cutoff <? score)
                                  | None => true
                                  end) (h_starts h)) hs
  | _ => true
  end.

(** No deadline, and nothing in the code sees to it: the release at the end of
    a removal finds no reservation that a later start has made of the name. *)
Definition releases_none {A} (c : call A) (hs : list holds) : bool :=
  match c with
  | ReleaseScript k => forallb (λ h, forallb (λ x, bool_decide (x.1 ≠ k)) (h_starts h)) hs
  | _ => true
  end.

(** Timely executions keep within the deadlines; in clean ones no removal
    releases the reservation of a start either; and in reliable ones no command
    fails besides. *)
Inductive mode := Any | Timely | Clean | Reliable.

Definition is_timely (m : mode) : bool := match m with Any => false | _ => true end.
Definition is_clean (m : mode) : bool := match m with Any | Timely => false | _ => true end.
Definition reliable_choice (m : mode) (x : choice) : bool := match m, x with Reliable, Fails _ => false | _, _ => true end.

Inductive event :=
| ESpawn (o : op)
| ECall (i : nat) (x : choice)
| ETick (by_ : Z).

Definition run_job (m : mode) (x : choice) (d : db) (js : list job) (j : job) : option (db * job) :=
  match j_prog j with
  | Ret _ => None
  | Do c p =>
      if (negb (is_timely m) || reservations_fresh c d (j_holds <$> js)) && (negb (is_clean m) || releases_none c (j_holds <$> js)) &&
         reliable_choice m x then
        '(d', a) ← exec c x d;
        Some (d', settle (mkJob (j_op j) (p a) (hold c (j_holds j) a)))
      else None
  end.

Definition new_job (o : op) : job := mkJob o (program tries polls error_text limit o) nothing.

(** The goroutines a call starts. *)
Definition forks {A} (c : call A) : list op := match c with GoKill k => [OpKill k] | _ => [] end.
Definition forked (j : job) : list op := match j_prog j with Ret _ => [] | Do c _ => forks c end.

Definition move (m : mode) (e : event) (w : world) : option world :=
  match e with
  | ESpawn o => Some (mkWorld (w_db w) (w_jobs w ++ [new_job o]))
  | ECall i x =>
      j ← w_jobs w !! i;
      '(d, j') ← run_job m x (w_db w) (w_jobs w) j;
      Some (mkWorld d (<[i := j']> (w_jobs w) ++ (new_job <$> forked j)))
  | ETick t =>
      let d := w_db w in
      if (0 <=? t) && (negb (is_timely m) || forallb (in_time (clock d + t) d) (j_holds <$> w_jobs w))
      then Some (mkWorld (with_clock (clock d + t) d) (w_jobs w)) else None
  end.

Definition step (m : mode) (w w' : world) : Prop := ∃ e, move m e w = Some w'.

Fixpoint moves (m : mode) (es : list event) (w : world) : option world :=
  match es with [] => Some w | e :: es => w ← move m e w; moves m es w end.
End moves.
End redis.
