(* ===== verification/RedisSafe.v ===== *)
(** * RedisSafe: what holds of the shared store in clean executions

    The invariant of Redis and of what the requests of all instances hold
    there, that every call of every request of a clean execution keeps it (see
    [mode]), and the properties of the clean executions of [Redis]: at most one operation on a node works on a sandbox
    at a time, the states follow the transitions, the team index holds what is
    stored, a team stays within its limit, and a wait is a wait. *)

From stdpp Require Import relations.
From S2P Require Import Prelude Lifecycle Prog Redis.

(** A state and what may come after it. *)
Definition follows (from to : State) : Prop := from = to ∨ AllowedTransitions from to = true.

Section safe.
Context {R : Type}.
Notation sandbox := (Sandbox R).
Notation call := (call (R:=R)).
Notation db := (db (R:=R)).
Notation prog := (prog call).
Open Scope prog_scope.
Context (limit : string → Z).

(** ** What the requests hold *)

Definition held (hs : list holds) (i : nat) (l : lock) (token : nat) : Prop := ∃ h, hs !! i = Some h ∧ (l, token) ∈ h_locks h.
Definition owned (hs : list holds) (i : nat) (k : key) (tid : nat) (removed : bool) : Prop :=
  ∃ h, hs !! i = Some h ∧ (k, tid, removed) ∈ h_trans h.
Definition starting (hs : list holds) (i : nat) (k : key) (added : bool) : Prop :=
  ∃ h, hs !! i = Some h ∧ (k, added) ∈ h_starts h.

(** The transition is over, for good. *)
Definition ended (d : db) (k : key) (tid : nat) : Prop := transition_of d k ≠ Some tid ∧ (tid < next d)%nat.

(** The sandboxes of a team, and those being started. *)
Definition admitted (d : db) (team : string) : gset string := members d team ∪ dom (waiting d team).

Record db_inv (d : db) (hs : list holds) : Prop := {
  di_index k : is_Some (sandboxes d !! k) ↔ k.2 ∈ members d k.1;
  di_lock i l token : held hs i l token → holder d l = Some token;
  di_lock_once i j l token token' : held hs i l token → held hs j l token' → i = j;
  di_trans i k tid b : owned hs i k tid b → transition_of d k = Some tid ∧ (b = false → is_Some (sandboxes d !! k));
  di_trans_once i j k tid tid' b b' : owned hs i k tid b → owned hs j k tid' b' → i = j;
  di_start i k b : starting hs i k b → is_Some (waiting d k.1 !! k.2) ∧ (b = false → k.2 ∉ members d k.1);
  di_start_once i j k b b' : starting hs i k b → starting hs j k b' → i = j;
  di_next k tid : transition_of d k = Some tid → (tid < next d)%nat;
  di_limit team : 0 <= limit team → Z.of_nat (size (admitted d team)) <= limit team
}.

(** What the job at [i] holds becomes less. *)
Record less (h' h : holds) : Prop := {
  le_locks : h_locks h' ⊆ h_locks h;
  le_trans k tid b' : (k, tid, b') ∈ h_trans h' → ∃ b, (k, tid, b) ∈ h_trans h ∧ (b' = false → b = false);
  le_starts k b' : (k, b') ∈ h_starts h' → ∃ b, (k, b) ∈ h_starts h ∧ (b' = false → b = false)
}.

#[global] Instance less_refl : Reflexive less.
Proof using. intros h. split; [done|by intros k tid b H; exists b|by intros k b H; exists b]. Qed.

Lemma insert_holds (hs : list holds) i j h h' : <[i := h]> hs !! j = Some h' → (j = i ∧ h' = h) ∨ (j ≠ i ∧ hs !! j = Some h').
Proof using.
  destruct (decide (j = i)) as [->|Hne]; [left|right; by rewrite list_lookup_insert_ne in H by congruence].
  apply list_lookup_insert_Some in H as [(_ & <- & _)|(? & _)]; done.
Qed.

Lemma less_inv d hs i h h' : hs !! i = Some h → less h' h → db_inv d hs → db_inv d (<[i := h']> hs).
Proof using.
  intros Hi [L1 L2 L3] I.
  assert (HL : ∀ j l t, held (<[i:=h']> hs) j l t → held hs j l t).
  { intros j l t (x & Hx & Hin). apply insert_holds in Hx as [[-> ->]|[_ Hx]]; [exists h; auto|by exists x]. }
  assert (HT : ∀ j k t b', owned (<[i:=h']> hs) j k t b' → ∃ b, owned hs j k t b ∧ (b' = false → b = false)).
  { intros j k t b' (x & Hx & Hin). apply insert_holds in Hx as [[-> ->]|[_ Hx]]; [|by exists b'; split; [exists x|]].
    destruct (L2 _ _ _ Hin) as (b & Hb & ?). exists b. split; [by exists h|done]. }
  assert (HS : ∀ j k b', starting (<[i:=h']> hs) j k b' → ∃ b, starting hs j k b ∧ (b' = false → b = false)).
  { intros j k b' (x & Hx & Hin). apply insert_holds in Hx as [[-> ->]|[_ Hx]]; [|by exists b'; split; [exists x|]].
    destruct (L3 _ _ Hin) as (b & Hb & ?). exists b. split; [by exists h|done]. }
  destruct I as [I1 I2 I3 I4 I5 I6 I7 I8 I9]. split; [done|eauto|eauto| | | | |done|done].
  - intros j k t b' H. destruct (HT _ _ _ _ H) as (b & Hb & E). destruct (I4 _ _ _ _ Hb). auto.
  - intros j j' k t t' b b' H H'. destruct (HT _ _ _ _ H) as (? & ? & _), (HT _ _ _ _ H') as (? & ? & _). eauto.
  - intros j k b' H. destruct (HS _ _ _ H) as (b & Hb & E). destruct (I6 _ _ _ Hb). auto.
  - intros j j' k b b' H H'. destruct (HS _ _ _ H) as (? & ? & _), (HS _ _ _ H') as (? & ? & _). eauto.
Qed.

(** What the invariant reads. *)
Definition same (d d' : db) : Prop :=
  sandboxes d' = sandboxes d ∧ index d' = index d ∧ transitions d' = transitions d ∧ locks d' = locks d ∧
  pending d' = pending d ∧ next d' = next d ∧ clock d' = clock d.

Lemma same_inv d d' hs : same d d' → db_inv d hs → db_inv d' hs.
Proof using.
  intros (E1 & E2 & E3 & E4 & E5 & E6 & E7) [I1 I2 I3 I4 I5 I6 I7 I8 I9].
  assert (Em : ∀ t, members d' t = members d t) by (intros t; unfold members; by rewrite E2).
  assert (Ew : ∀ t, waiting d' t = waiting d t) by (intros t; unfold waiting; by rewrite E5).
  split; unfold admitted, transition_of, holder, live in *; intros *; rewrite ?Em, ?Ew, ?E1, ?E3, ?E4, ?E6, ?E7 in *; eauto.
Qed.

(** *** Locks *)

Lemma obtain_inv d hs i h l : hs !! i = Some h → holder d l = None → db_inv d hs →
  db_inv (with_next (S (next d)) (with_locks (<[l := (next d, clock d + lockTimeout)]> (locks d)) d))
         (<[i := mkHolds ((l, next d) :: h_locks h) (h_trans h) (h_starts h)]> hs).
Proof using.
  intros Hi Hn [I1 I2 I3 I4 I5 I6 I7 I8 I9].
  set (hs' := <[i := _]> hs).
  assert (HL : ∀ j l' t, held hs' j l' t → (j = i ∧ l' = l ∧ t = next d) ∨ held hs j l' t).
  { intros j l' t (x & Hx & Hin). apply insert_holds in Hx as [[-> ->]|[_ Hx]]; [|right; by exists x].
    cbn in Hin. apply elem_of_cons in Hin as [[= -> ->]|Hin]; [by left|right; by exists h]. }
  assert (Hno : ∀ j t, ¬ held hs j l t) by (intros j t H; apply I2 in H; congruence).
  assert (HT : ∀ j k t b, owned hs' j k t b → owned hs j k t b).
  { intros j k t b (x & Hx & Hin). apply insert_holds in Hx as [[-> ->]|[_ Hx]]; [by exists h|by exists x]. }
  assert (HS : ∀ j k b, starting hs' j k b → starting hs j k b).
  { intros j k b (x & Hx & Hin). apply insert_holds in Hx as [[-> ->]|[_ Hx]]; [by exists h|by exists x]. }
  split; [exact I1| | |by intros j k t b H; apply (I4 j), HT|by intros j j' k t t' b b' H H'; eapply I5; eapply HT|
    by intros j k b H; apply (I6 j), HS|by intros j j' k b b' H H'; eapply I7; eapply HS| |exact I9].
  - intros j l' t H. unfold holder, live. cbn. destruct (decide (l' = l)) as [->|Hne].
    + apply HL in H as [(_ & _ & ->)|H]; [|by apply Hno in H]. rewrite lookup_insert_eq. unfold lockTimeout, second. case_match eqn:E; [done|lia].
    + rewrite lookup_insert_ne by done. apply HL in H as [(_ & -> & _)|H]; [done|by apply I2 in H].
  - intros j j' l' t t' H H'. apply HL in H as [(-> & -> & _)|H], H' as [(-> & ? & _)|H']; [done|by apply Hno in H'|by subst; apply Hno in H|by eapply I3].
  - intros k t Ht. apply I8 in Ht. cbn. lia.
Qed.

Lemma release_inv d hs i h l token : hs !! i = Some h → (l, token) ∈ h_locks h → db_inv d hs →
  db_inv (with_locks (delete l (locks d)) d) (<[i := mkHolds (filter (λ x, x ≠ (l, token)) (h_locks h)) (h_trans h) (h_starts h)]> hs).
Proof using.
  intros Hi Hin I. assert (Hl : less (mkHolds (filter (λ x, x ≠ (l, token)) (h_locks h)) (h_trans h) (h_starts h)) h).
  { split; cbn; [intros x Hx; by apply list_elem_of_filter in Hx as [_ ?]|intros k t b Hb; by exists b|intros k b Hb; by exists b]. }
  destruct (less_inv _ _ _ _ _ Hi Hl I) as [I1 I2 I3 I4 I5 I6 I7 I8 I9].
  split; try done. intros j l' t H. unfold holder. cbn. destruct (decide (l' = l)) as [->|Hne]; [|rewrite lookup_delete_ne by done; by apply (I2 j)].
  exfalso. destruct H as (x & Hx & Hlx). apply insert_holds in Hx as [[-> ->]|[Hne Hx]].
  - cbn in Hlx. apply list_elem_of_filter in Hlx as [Hne Hlx]. apply Hne. f_equal.
    assert (E : holder d l = Some t) by (apply (di_lock _ _ I i); by exists h).
    assert (E' : holder d l = Some token) by (apply (di_lock _ _ I i); by exists h). congruence.
  - apply Hne. eapply (di_lock_once _ _ I); [by exists x|by exists h].
Qed.

(** *** Sandboxes and the index *)

Lemma members_insert (d : db) (team : string) (m : gset string) (t : string) (S' : gmap key sandbox) : members (with_index (<[team := m]> (index d)) (with_sandboxes S' d)) t = if decide (t = team) then m else members d t.
Proof using. unfold members. cbn. case_decide as E; [subst; by rewrite lookup_insert_eq|by rewrite lookup_insert_ne]. Qed.

Lemma set_inv d hs k s : is_Some (sandboxes d !! k) → db_inv d hs → db_inv (put_sandbox k s d) hs.
Proof using.
  intros Hs [I1 I2 I3 I4 I5 I6 I7 I8 I9].
  assert (E : ∀ k', is_Some (<[k := s]> (sandboxes d) !! k') ↔ is_Some (sandboxes d !! k')).
  { intros k'. destruct (decide (k' = k)) as [->|]; [by rewrite lookup_insert_eq|by rewrite lookup_insert_ne]. }
  split; try done; [intros k'; cbn; by rewrite E|]. intros i k' t b H. cbn. rewrite E. by apply (I4 i).
Qed.

Lemma pair_ne (k k' : key) : k' ≠ k → k'.1 = k.1 → k'.2 ≠ k.2.
Proof using. destruct k, k'; cbn; congruence. Qed.

Definition added (k : key) (h : holds) : holds :=
  mkHolds (h_locks h) (h_trans h) ((λ x, if bool_decide (x.1 = k) then (k, true) else x) <$> h_starts h).

Lemma added_less k h : less (added k h) h.
Proof using.
  split; [done|by intros k' t b Hb; exists b|]. intros k' b' Hb. cbn in Hb. apply list_elem_of_fmap in Hb as ([k1 b1] & E & Hin). cbn in E.
  case_bool_decide; [injection E as -> ->; subst; by exists b1|injection E as -> ->; by exists b1].
Qed.

Lemma add_inv d hs i h k s : hs !! i = Some h → (k, false) ∈ h_starts h → db_inv d hs → db_inv (addSandboxScript k s d) (<[i := added k h]> hs).
Proof using.
  intros Hi Hk I. destruct (di_start _ _ I i k false) as [Hw Hnew]; [by exists h|]. specialize (Hnew eq_refl).
  assert (Honce : ∀ j b, starting hs j k b → j = i) by (intros j b H; eapply (di_start_once _ _ I); [exact H|by exists h]).
  destruct (less_inv _ _ _ _ _ Hi (added_less k h) I) as [I1 I2 I3 I4 I5 I6 I7 I8 I9].
  assert (Em : ∀ t, members (addSandboxScript k s d) t = if decide (t = k.1) then {[k.2]} ∪ members d k.1 else members d t) by (intros t; apply members_insert).
  assert (Es : ∀ k', is_Some (sandboxes (addSandboxScript k s d) !! k') ↔ k' = k ∨ is_Some (sandboxes d !! k')).
  { intros k'. cbn. destruct (decide (k' = k)) as [->|]; [rewrite lookup_insert_eq; naive_solver|rewrite lookup_insert_ne by done; naive_solver]. }
  split; try done.
  - intros k'. rewrite Es, Em, I1. case_decide as E; [|naive_solver].
    destruct (decide (k' = k)) as [->|Hne]; [set_solver|]. pose proof (pair_ne _ _ Hne E). rewrite E. set_solver.
  - intros j k' t b H. destruct (I4 _ _ _ _ H) as [? Hb]. split; [done|]. intros E. rewrite Es. auto.
  - intros j k' b H. pose proof (I6 _ _ _ H) as [? Hb]. split; [done|]. intros E. rewrite Em.
    case_decide as E1; [|by apply Hb]. assert (Hkk : k' ≠ k).
    { intros ->. subst b. destruct H as (x & Hx & Hin). apply insert_holds in Hx as [[-> ->]|[Hne Hx]]; [|apply Hne; eapply Honce; by exists x].
      cbn in Hin. apply list_elem_of_fmap in Hin as ([k1 b1] & E2 & _). cbn in E2. case_bool_decide; [done|congruence]. }
    pose proof (pair_ne k k' Hkk E1). specialize (Hb E). rewrite E1 in Hb. set_solver.
  - intros team Hl. specialize (I9 team Hl). unfold admitted in *. rewrite Em. case_decide as E; [subst|done].
    replace ({[k.2]} ∪ members d k.1 ∪ dom (waiting (addSandboxScript k s d) k.1)) with (members d k.1 ∪ dom (waiting d k.1)); [done|].
    apply elem_of_dom in Hw. change (waiting (addSandboxScript k s d) k.1) with (waiting d k.1). set_solver.
Qed.

Definition removed (k : key) (h : holds) : holds :=
  mkHolds (h_locks h) ((λ x, if bool_decide (x.1.1 = k) then (x.1, true) else x) <$> h_trans h) (h_starts h).

Lemma removed_less k h : less (removed k h) h.
Proof using.
  split; [done| |by intros k' b Hb; exists b]. intros k' t b' Hb. cbn in Hb. apply list_elem_of_fmap in Hb as ([[k1 t1] b1] & E & Hin). cbn in E.
  case_bool_decide; injection E as -> -> ->; by exists b1.
Qed.

Lemma redis_remove_inv d hs i h k tid b : hs !! i = Some h → (k, tid, b) ∈ h_trans h → db_inv d hs → db_inv (removeSandboxScript k d) (<[i := removed k h]> hs).
Proof using.
  intros Hi Hk I. assert (Honce : ∀ j t b', owned hs j k t b' → j = i) by (intros j t b' H; eapply (di_trans_once _ _ I); [exact H|by exists h]).
  destruct (less_inv _ _ _ _ _ Hi (removed_less k h) I) as [I1 I2 I3 I4 I5 I6 I7 I8 I9].
  assert (Em : ∀ t, members (removeSandboxScript k d) t = if decide (t = k.1) then members d k.1 ∖ {[k.2]} else members d t) by (intros t; apply members_insert).
  split; try done.
  - intros k'. rewrite Em. cbn. case_decide as E.
    + destruct (decide (k' = k)) as [->|Hne]; [rewrite lookup_delete_eq; split; [by intros []|set_solver]|].
      rewrite lookup_delete_ne, I1 by done. pose proof (pair_ne _ _ Hne E). rewrite E. set_solver.
    + rewrite lookup_delete_ne by congruence. apply I1.
  - intros j k' t b' H. destruct (I4 _ _ _ _ H) as [? Hb]. split; [done|]. intros E. cbn. rewrite lookup_delete_ne; [auto|].
    intros <-. subst b'. destruct H as (x & Hx & Hin). apply insert_holds in Hx as [[-> ->]|[Hne Hx]]; [|apply Hne; eapply Honce; by exists x].
    cbn in Hin. apply list_elem_of_fmap in Hin as ([[k1 t1] b1] & E2 & _). cbn in E2. case_bool_decide; [done|congruence].
  - intros j k' b' H. destruct (I6 _ _ _ H) as [? Hb]. split; [done|]. intros E. rewrite Em. specialize (Hb E). case_decide as E1; [rewrite <- E1; set_solver|done].
  - intros team Hl. specialize (I9 team Hl). etrans; [|exact I9]. apply Nat2Z.inj_le, subseteq_size. unfold admitted. rewrite Em.
    change (waiting (removeSandboxScript k d) team) with (waiting d team). case_decide as E; [subst|]; set_solver.
Qed.

(** *** Transitions *)

Lemma live_insert {A} (d : db) (x : A) t : 0 < t → live d (Some (x, clock d + t)) = Some x.
Proof using. intros H. unfold live. case_match eqn:E; [done|lia]. Qed.

Lemma redis_start_inv d hs i h k s : hs !! i = Some h → is_Some (sandboxes d !! k) → transition_of d k = None → db_inv d hs →
  db_inv (with_next (S (next d)) (startTransitionScript k s (next d) d)) (<[i := mkHolds (h_locks h) ((k, next d, false) :: h_trans h) (h_starts h)]> hs).
Proof using.
  intros Hi Hs Hn I. pose proof (set_inv d hs k s Hs I) as [I1 I2 I3 I4 I5 I6 I7 I8 I9].
  set (hs' := <[i := _]> hs). set (d' := with_next _ _).
  assert (HL : ∀ j l t, held hs' j l t → held hs j l t).
  { intros j l t (x & Hx & Hin). apply insert_holds in Hx as [[-> ->]|[_ Hx]]; [by exists h|by exists x]. }
  assert (HS : ∀ j k' b, starting hs' j k' b → starting hs j k' b).
  { intros j k' b (x & Hx & Hin). apply insert_holds in Hx as [[-> ->]|[_ Hx]]; [by exists h|by exists x]. }
  assert (HT : ∀ j k' t b, owned hs' j k' t b → (j = i ∧ k' = k ∧ t = next d) ∨ owned hs j k' t b).
  { intros j k' t b (x & Hx & Hin). apply insert_holds in Hx as [[-> ->]|[_ Hx]]; [|right; by exists x].
    cbn in Hin. apply elem_of_cons in Hin as [[= -> -> ->]|Hin]; [by left|right; by exists h]. }
  assert (Hno : ∀ j t b, ¬ owned hs j k t b) by (intros j t b H; apply I4 in H as [H _]; unfold transition_of in H; cbn in H; unfold transition_of in Hn; unfold live in *; cbn in *; congruence).
  assert (Et : ∀ k', transition_of d' k' = if decide (k' = k) then Some (next d) else transition_of d k').
  { intros k'. unfold transition_of. cbn. case_decide as E; [subst; rewrite lookup_insert_eq; exact (live_insert d (next d) transitionKeyTTL ltac:(done))|by rewrite lookup_insert_ne]. }
  split; [exact I1|by intros j l t H; apply (I2 j), HL|by intros j j' l t t' H H'; eapply I3; eapply HL| | |
    by intros j k' b H; apply (I6 j), HS|by intros j j' k' b b' H H'; eapply I7; eapply HS| |exact I9].
  - intros j k' t b H. rewrite Et. destruct (HT _ _ _ _ H) as [(-> & -> & ->)|H'].
    + rewrite decide_True by done. split; [done|]. intros _. apply I1. cbn. by apply (di_index _ _ I).
    + case_decide as E; [subst; by apply Hno in H'|]. by apply I4 in H'.
  - intros j j' k' t t' b b' H H'. destruct (HT _ _ _ _ H) as [(-> & -> & _)|H1], (HT _ _ _ _ H') as [(-> & ? & _)|H2];
      [done|by apply Hno in H2|by subst; apply Hno in H1|by eapply I5].
  - intros k' t. rewrite Et. case_decide; [intros [= <-]; cbn; lia|]. intros Ht. apply I8 in Ht. cbn in *. lia.
Qed.

Definition closed (k : key) (h : holds) : holds := mkHolds (h_locks h) (filter (λ x, x.1.1 ≠ k) (h_trans h)) (h_starts h).

Lemma closed_less k h : less (closed k h) h.
Proof using.
  split; [done| |by intros k' b Hb; exists b]. intros k' t b Hb. cbn in Hb. apply list_elem_of_filter in Hb as [_ Hb]. by exists b.
Qed.

Lemma del_inv d hs i h k tid b : hs !! i = Some h → (k, tid, b) ∈ h_trans h → db_inv d hs →
  db_inv (with_transitions (delete k (transitions d)) d) (<[i := closed k h]> hs).
Proof using.
  intros Hi Hk I. destruct (less_inv _ _ _ _ _ Hi (closed_less k h) I) as [I1 I2 I3 I4 I5 I6 I7 I8 I9].
  assert (Et : ∀ k', k' ≠ k → transition_of (with_transitions (delete k (transitions d)) d) k' = transition_of d k').
  { intros k' Hne. unfold transition_of. cbn. by rewrite lookup_delete_ne. }
  split; try done.
  - intros j k' t b' H. rewrite Et; [by apply (I4 j)|]. intros ->. destruct H as (x & Hx & Hin). apply insert_holds in Hx as [[-> ->]|[Hne Hx]].
    + cbn in Hin. by apply list_elem_of_filter in Hin as [[] _].
    + apply Hne. eapply (di_trans_once _ _ I); [by exists x|by exists h].
  - intros k' t H. apply (I8 k'). destruct (decide (k' = k)) as [->|Hne]; [|by rewrite Et in H]. unfold transition_of in H. cbn in H. by rewrite lookup_delete_eq in H.
Qed.

(** *** Reservations *)

Lemma waiting_insert (d : db) (team : string) (p : gmap string Z) (t : string) :
  waiting (with_waiting team p d) t = if decide (t = team) then p else waiting d t.
Proof using. unfold waiting. cbn. case_decide as E; [subst; by rewrite lookup_insert_eq|by rewrite lookup_insert_ne]. Qed.

(** The pending entries of a team shrink to [p], which keeps those in use. *)
Lemma shrink_inv d hs team p : p ⊆ waiting d team →
  (∀ i k b, starting hs i k b → k.1 = team → is_Some (p !! k.2)) → db_inv d hs → db_inv (with_waiting team p d) hs.
Proof using.
  intros Hp Huse [I1 I2 I3 I4 I5 I6 I7 I8 I9]. split; try done.
  - intros i k b H. destruct (I6 _ _ _ H) as [? ?]. split; [|done]. rewrite waiting_insert. case_decide; [by eapply Huse|done].
  - intros t Hl. etrans; [|exact (I9 t Hl)]. apply Nat2Z.inj_le, subseteq_size. unfold admitted. rewrite waiting_insert.
    change (members (with_waiting team p d) t) with (members d t). case_decide as E; [subst|done]. apply subseteq_dom in Hp. set_solver.
Qed.

Lemma reserve_inv d hs i h k now lim : hs !! i = Some h → lim = limit k.1 → k.2 ∉ members d k.1 → waiting d k.1 !! k.2 = None →
  ((0 <=? lim) && (lim <=? Z.of_nat (size (members d k.1)) + Z.of_nat (size (waiting d k.1)))) = false → db_inv d hs →
  db_inv (with_waiting k.1 (<[k.2 := now]> (waiting d k.1)) d) (<[i := mkHolds (h_locks h) (h_trans h) ((k, false) :: h_starts h)]> hs).
Proof using.
  intros Hi -> Hm Hw Hlim [I1 I2 I3 I4 I5 I6 I7 I8 I9]. set (hs' := <[i := _]> hs).
  assert (HL : ∀ j l t, held hs' j l t → held hs j l t).
  { intros j l t (x & Hx & Hin). apply insert_holds in Hx as [[-> ->]|[_ Hx]]; [by exists h|by exists x]. }
  assert (HT : ∀ j k' t b, owned hs' j k' t b → owned hs j k' t b).
  { intros j k' t b (x & Hx & Hin). apply insert_holds in Hx as [[-> ->]|[_ Hx]]; [by exists h|by exists x]. }
  assert (HS : ∀ j k' b, starting hs' j k' b → (j = i ∧ k' = k) ∨ starting hs j k' b).
  { intros j k' b (x & Hx & Hin). apply insert_holds in Hx as [[-> ->]|[_ Hx]]; [|right; by exists x].
    cbn in Hin. apply elem_of_cons in Hin as [[= -> ->]|Hin]; [by left|right; by exists h]. }
  assert (Hno : ∀ j b, ¬ starting hs j k b) by (intros j b H; apply I6 in H as [[? H] _]; congruence).
  split; [done|by intros j l t H; apply (I2 j), HL|by intros j j' l t t' H H'; eapply I3; eapply HL|
    by intros j k' t b H; apply (I4 j), HT|by intros j j' k' t t' b b' H H'; eapply I5; eapply HT| | |done|].
  - intros j k' b H. rewrite waiting_insert. destruct (HS _ _ _ H) as [[-> ->]|H'].
    + rewrite decide_True by done. rewrite lookup_insert_eq. auto.
    + destruct (I6 _ _ _ H') as [Hk ?]. split; [|done]. case_decide as E; [|done]. rewrite E in Hk.
      destruct (decide (k'.2 = k.2)) as [->|]; [by rewrite lookup_insert_eq|by rewrite lookup_insert_ne].
  - intros j j' k' b b' H H'. destruct (HS _ _ _ H) as [[-> ->]|H1], (HS _ _ _ H') as [[-> Ek]|H2]; [done|by apply Hno in H2|by subst; apply Hno in H1|by eapply I7].
  - intros t Hl. unfold admitted. rewrite waiting_insert. case_decide as E; [subst t|by apply I9].
    change (members (with_waiting _ _ d) k.1) with (members d k.1).
    pose proof (size_union_alt (members d k.1) (dom (<[k.2 := now]> (waiting d k.1)))) as E. rewrite E.
    assert (size (dom (<[k.2:=now]> (waiting d k.1)) ∖ members d k.1) ≤ S (size (waiting d k.1)))%nat.
    { etrans; [apply subseteq_size; by apply subseteq_difference_l|]. rewrite dom_insert, size_union, size_singleton, size_dom; [lia|].
      apply disjoint_singleton_l, not_elem_of_dom, Hw. }
    apply andb_false_iff in Hlim as [?|?]; lia.
Qed.

(** *** The clock *)

Lemma live_clock {A} (d : db) t (x : option (A * Z)) a : clock d <= t → live (with_clock t d) x = Some a → live d x = Some a.
Proof using. intros Ht. unfold live. destruct x as [[b deadline]|]; [|done]. cbn. destruct (t <? deadline) eqn:E; [|done]. by replace (clock d <? deadline) with true by lia. Qed.

Lemma clock_inv d hs t : clock d <= t → forallb (in_time t d) hs = true → db_inv d hs → db_inv (with_clock t d) hs.
Proof using.
  intros Ht Hin [I1 I2 I3 I4 I5 I6 I7 I8 I9].
  assert (Hh : ∀ i h, hs !! i = Some h → in_time t d h = true).
  { intros i h Hi. rewrite forallb_forall in Hin. apply Hin. apply list_elem_of_In. by eapply list_elem_of_lookup_2. }
  split; try done.
  - intros i l token H. pose proof (I2 _ _ _ H) as E. destruct H as (h & Hi & Hl). specialize (Hh _ _ Hi). unfold in_time in Hh.
    apply andb_true_iff in Hh as [Hh _]. rewrite forallb_forall in Hh. specialize (Hh _ (proj1 (list_elem_of_In _ _) Hl)). cbn in Hh.
    unfold holder, live in *. cbn. destruct (locks d !! l) as [[a deadline]|]; [|done]. rewrite Hh. by destruct (clock d <? deadline).
  - intros i k tid b H. destruct (I4 _ _ _ _ H) as [E ?]. split; [|done]. destruct H as (h & Hi & Hl). specialize (Hh _ _ Hi). unfold in_time in Hh.
    apply andb_true_iff in Hh as [_ Hh]. rewrite forallb_forall in Hh. specialize (Hh _ (proj1 (list_elem_of_In _ _) Hl)). cbn in Hh.
    unfold transition_of, live in *. cbn. destruct (transitions d !! k) as [[a deadline]|]; [|done]. rewrite Hh. by destruct (clock d <? deadline).
  - intros k tid H. apply (I8 k). by eapply live_clock.
Qed.

(** ** The calls *)

Context (m : mode).

Definition locked (h : holds) (k : key) : Prop := ∃ token, (LockSandbox k, token) ∈ h_locks h.

Definition call_pre A (c : call A) (h : holds) (d : db) : Prop :=
  match c with
  | ReleaseLock l token => (l, token) ∈ h_locks h
  | SetSandbox k s => locked h k ∧ ∃ s0, sandboxes d !! k = Some s0 ∧ follows (St s0) (St s)
  | AddSandboxScript k s => (k, false) ∈ h_starts h
  | RemoveSandboxScript k => locked h k ∧ ∃ tid b, (k, tid, b) ∈ h_trans h
  | StartTransitionScript k s => locked h k ∧ transition_of d k = None ∧ ∃ s0, sandboxes d !! k = Some s0 ∧ AllowedTransitions (St s0) (St s) = true
  | DelTransition k => ∃ tid b, (k, tid, b) ∈ h_trans h
  | Publish k tid => m = Reliable → ended d k tid
  | ReserveScript k lim _ _ => lim = limit k.1
  | FinishStartScript k _ => ∃ b, (k, b) ∈ h_starts h
  | PlaceSandbox k => (k, false) ∈ h_starts h
  | RemoveFromNode k _ | Checkpoint k => ∃ tid, (k, tid, false) ∈ h_trans h
  | _ => True
  end.

Definition answers A (c : call A) (h : holds) (d : db) (a : A) (h' : holds) (d' : db) : Prop :=
  ∃ x, exec c x d = Some (d', a) ∧ reliable_choice m x = true ∧ h' = hold c h a.

(** What the other requests leave alone. *)
Record rely (h : holds) (d d' : db) : Prop := {
  re_sandbox k s : locked h k → sandboxes d !! k = Some s → sandboxes d' !! k = Some s;
  re_free k : locked h k → transition_of d k = None → transition_of d' k = None;
  re_ended k tid : ended d k tid → ended d' k tid;
  re_next : (next d <= next d')%nat
}.

#[global] Instance rely_preorder h : PreOrder (rely h).
Proof using. split; [done|]. intros d1 d2 d3 [A1 A2 A3 A4] [B1 B2 B3 B4]. split; eauto; lia. Qed.

Lemma run_cases {A} x (d applied d' : db) (a : A) r : run x d applied a = Some (d', r) →
  (d' = applied ∧ r = Ok a) ∨ ((d' = d ∨ d' = applied) ∧ r = Err () ∧ ∃ late, x = Fails late).
Proof using. destruct x as [|late| | | |]; cbn; intros [= <- <-]; [by left|right; destruct late; eauto]. Qed.

Lemma says_cases {A} x (d d' : db) (f : option string → A) a : says x d f = Some (d', a) → d' = d.
Proof using. by destruct x; intros [= <- _]. Qed.

Lemma wakes_cases x (d d' : db) heard w : wakes x d heard = Some (d', w) → d' = d ∧ (w = WakeSignal → heard = true).
Proof using. destruct x as [| |[]| | |]; cbn; try done; [by intros [= <- <-]| |by intros [= <- <-]]. destruct heard; [|done]. by intros [= <- _]. Qed.

Lemma reserve_cases k lim now cutoff (d d' : db) code : reserveScript k lim now cutoff d = (d', code) →
  let p := filter (λ x, cutoff < x.2) (waiting d k.1) in let d0 := with_waiting k.1 p d in
  (d' = d0 ∧ code ≠ reserveResultReserved) ∨
  (code = reserveResultReserved ∧ k.2 ∉ members d k.1 ∧ p !! k.2 = None ∧
   ((0 <=? lim) && (lim <=? Z.of_nat (size (members d k.1)) + Z.of_nat (size p))) = false ∧
   d' = with_start_results (delete k (start_results d)) (with_waiting k.1 (<[k.2 := now]> p) d)).
Proof using.
  intros H p d0. unfold reserveScript in H. fold p in H. fold d0 in H. change (members d0 k.1) with (members d k.1) in H.
  case_bool_decide as E1; [injection H as <- <-; by left|]. case_bool_decide as E2; [injection H as <- <-; by left|].
  destruct ((0 <=? lim) && _) eqn:E3; [injection H as <- <-; by left|]. injection H as <- <-. right. split_and!; try done.
  - by apply eq_None_not_Some.
  - unfold with_start_results, with_waiting, d0. cbn. by rewrite insert_insert_eq.
Qed.

Lemma insert_back (hs : list holds) i h h' : hs !! i = Some h → <[i := h]> (<[i := h']> hs) = hs.
Proof using. intros Hi. by rewrite list_insert_insert_eq, list_insert_id. Qed.

(** A command that failed, applied or not. *)
Lemma failed_inv d d0 d' hs i h h' : hs !! i = Some h → (d' = d ∨ d' = d0) → less h h' →
  db_inv d hs → db_inv d0 (<[i := h']> hs) → db_inv d' hs.
Proof using.
  intros Hi [->| ->] Hl I I'; [done|]. rewrite <- (insert_back hs i h h' Hi).
  apply (less_inv _ _ _ h'); [|done|done]. apply list_lookup_insert_eq. by eapply lookup_lt_Some.
Qed.

(** The same, where the answer makes no difference to what is held. *)
Lemma either_inv d d0 d' hs i h h' : hs !! i = Some h → (d' = d ∨ d' = d0) → less h' h →
  db_inv d hs → db_inv d0 (<[i := h']> hs) → db_inv d' (<[i := h']> hs).
Proof using. intros Hi [->| ->] Hl I I'; [by eapply less_inv|done]. Qed.

Lemma cons_less {A} (x : A) l : l ⊆ x :: l.
Proof using. set_solver. Qed.

Lemma same_case d d' hs i h : hs !! i = Some h → same d d' → db_inv d hs → db_inv d' (<[i := h]> hs).
Proof using. intros Hi Hs I. rewrite list_insert_id by done. by eapply same_inv. Qed.

Lemma run_both {A} x (d applied d' : db) (a : A) r : run x d applied a = Some (d', r) → d' = d ∨ d' = applied.
Proof using. intros H. apply run_cases in H as [[-> _]|[? _]]; auto. Qed.

Lemma in_use_kept (d : db) hs k lim now cutoff : reservations_fresh (ReserveScript (R:=R) k lim now cutoff) d hs = true → db_inv d hs →
  db_inv (with_waiting k.1 (filter (λ x, cutoff < x.2) (waiting d k.1)) d) hs.
Proof using.
  intros Ht I. apply shrink_inv; [apply map_filter_subseteq| |done]. intros j k' b Hj E. destruct (di_start _ _ I _ _ _ Hj) as [[score Hw] _].
  rewrite E in Hw. exists score. apply map_lookup_filter_Some. split; [done|]. cbn. destruct Hj as (hj & Hj & Hin). cbn in Ht.
  rewrite forallb_forall in Ht. specialize (Ht hj ltac:(apply list_elem_of_In; by eapply list_elem_of_lookup_2)).
  rewrite forallb_forall in Ht. specialize (Ht _ (proj1 (list_elem_of_In _ _) Hin)). cbn in Ht. rewrite E, Hw in Ht.
  rewrite bool_decide_eq_false_2 in Ht by naive_solver. cbn in Ht. lia.
Qed.

Lemma reserve_call d d1 d' hs i h k lim now cutoff code x a : hs !! i = Some h → lim = limit k.1 →
  reservations_fresh (ReserveScript (R:=R) k lim now cutoff) d hs = true → reserveScript k lim now cutoff d = (d1, code) → run x d d1 code = Some (d', a) →
  db_inv d hs → db_inv d' (<[i := hold (ReserveScript (R:=R) k lim now cutoff) h a]> hs).
Proof using.
  intros Hi Hpre Ht Hr He I. pose proof (in_use_kept _ _ _ _ _ _ Ht I) as Hsh. cbn [hold].
  destruct (reserve_cases _ _ _ _ _ _ _ Hr) as [[-> Hne]|(-> & Hm & Hpn & Hlim & ->)].
  - apply run_cases in He as [[-> ->]|(Hd & -> & _)].
    + replace (code =? reserveResultReserved) with false by (unfold reserveResultReserved in *; lia). by rewrite list_insert_id.
    + rewrite list_insert_id by done. by destruct Hd as [->| ->].
  - set (p := filter _ _) in *. set (d2 := with_start_results _ _) in *.
    assert (H2 : db_inv d2 (<[i:=mkHolds (h_locks h) (h_trans h) ((k, false) :: h_starts h)]> hs)).
    { eapply (same_inv (with_waiting k.1 (<[k.2:=now]> p) d)); [by repeat split|].
      pose proof (reserve_inv (with_waiting k.1 p d) hs i h k now lim Hi Hpre) as X. rewrite waiting_insert, decide_True in X by done.
      change (members (with_waiting k.1 p d) k.1) with (members d k.1) in X. specialize (X Hm Hpn Hlim Hsh).
      eapply same_inv; [|exact X]. unfold same, with_waiting. cbn. by rewrite insert_insert_eq. }
    apply run_cases in He as [[-> ->]|(Hd & -> & _)]; [exact H2|]. rewrite list_insert_id by done.
    eapply (failed_inv d _ _ _ i h); [done|exact Hd| |done|exact H2].
    split; cbn; [done|by intros k' t b Hb; exists b|intros k' b Hb; exists b; by split; [right|]].
Qed.

(** The pending entry of a sandbox nobody is starting goes. *)
Lemma drop_inv d d' hs k : same (with_waiting k.1 (delete k.2 (waiting d k.1)) d) d' → (∀ i b, ¬ starting hs i k b) → db_inv d hs → db_inv d' hs.
Proof using.
  intros Hs Hno I. eapply same_inv; [exact Hs|]. apply shrink_inv; [apply delete_subseteq| |done].
  intros j k' b' Hj E. destruct (di_start _ _ I _ _ _ Hj) as [Hw _]. rewrite lookup_delete_ne; [by rewrite E in Hw|]. intros E2.
  assert (k' = k) as -> by (destruct k, k'; cbn in *; congruence). by eapply Hno.
Qed.

Definition unstarted (k : key) (h : holds) : holds := mkHolds (h_locks h) (h_trans h) (filter (λ x, x.1 ≠ k) (h_starts h)).

Lemma unstarted_less k h : less (unstarted k h) h.
Proof using. split; cbn; [done|by intros k' t b' Hb; exists b'|]. intros k' b' Hb. apply list_elem_of_filter in Hb as [_ ?]. by exists b'. Qed.

Lemma redis_finish_inv d hs i h k r b : hs !! i = Some h → (k, b) ∈ h_starts h → db_inv d hs → db_inv (finishStartScript k r d) (<[i := unstarted k h]> hs).
Proof using.
  intros Hi Hk I. eapply (drop_inv d); [by repeat split| |by eapply less_inv, I; [|apply unstarted_less]].
  intros j b' (hj & Hj & Hin). apply insert_holds in Hj as [[-> ->]|[Hne Hj]].
  - cbn in Hin. by apply list_elem_of_filter in Hin as [[] _].
  - apply Hne. eapply (di_start_once _ _ I); [by exists hj|by exists h].
Qed.

Lemma release_script_inv d hs k : releases_none (ReleaseScript (R:=R) k) hs = true → db_inv d hs → db_inv (releaseScript k d) hs.
Proof using.
  intros Ht I. eapply (drop_inv d); [by repeat split| |done]. intros j b (hj & Hj & Hin). cbn in Ht.
  rewrite forallb_forall in Ht. specialize (Ht hj ltac:(apply list_elem_of_In; by eapply list_elem_of_lookup_2)).
  rewrite forallb_forall in Ht. specialize (Ht _ (proj1 (list_elem_of_In _ _) Hin)). cbn in Ht. by apply bool_decide_eq_true in Ht.
Qed.

Lemma filter_less h P `{∀ x, Decision (P x)} : less (mkHolds (filter P (h_locks h)) (h_trans h) (h_starts h)) h.
Proof using.
  split; cbn; [intros y Hy; by apply list_elem_of_filter in Hy as [_ ?]|by intros k t b Hb; exists b|by intros k b Hb; exists b].
Qed.

Lemma redis_call_inv A (c : call A) x hs i h d d' a : hs !! i = Some h → call_pre A c h d → reservations_fresh c d hs = true → releases_none c hs = true →
  exec c x d = Some (d', a) → db_inv d hs → db_inv d' (<[i := hold c h a]> hs).
Proof using.
  intros Hi Hpre Ht Hrel He I.
  destruct c; cbn [exec hold call_pre] in *;
    try (first [apply says_cases in He as ->|apply wakes_cases in He as [-> _]|apply run_both in He as [->| ->]]; (apply (same_case d); [done|by repeat split|done])).
  - destruct x; try done. injection He as <- <-. by eapply same_case.
  - destruct (holder d l) eqn:Hl; [destruct x; try done; injection He as <- <-; by eapply same_case|].
    apply run_cases in He as [[-> ->]|(Hd & -> & _)]; [by apply obtain_inv|]. rewrite list_insert_id by done.
    eapply (failed_inv d _ _ _ i h); [done|exact Hd| |done|by apply (obtain_inv d hs i h l)].
    split; cbn; [by apply cons_less|by intros k t b Hb; exists b|by intros k b Hb; exists b].
  - assert (H : holder d l = Some token) by (apply (di_lock _ _ I i); by exists h). rewrite bool_decide_eq_true_2 in He by done.
    apply run_both in He. eapply either_inv; [done|exact He|apply filter_less|done|by apply release_inv].
  - destruct Hpre as (_ & s0 & Hs & _). rewrite list_insert_id by done. apply run_both in He as [->| ->]; [done|]. apply set_inv; [by eexists|done].
  - apply run_both in He. eapply either_inv; [done|exact He|apply added_less|done|by apply add_inv].
  - destruct Hpre as (_ & tid & b & Hk). apply run_both in He. eapply either_inv; [done|exact He|apply removed_less|done|by eapply redis_remove_inv].
  - destruct Hpre as (_ & Hn & s0 & Hs & _). assert (Hs' : is_Some (sandboxes d !! k)) by by eexists.
    apply run_cases in He as [[-> ->]|(Hd & -> & _)]; [by apply redis_start_inv|]. rewrite list_insert_id by done.
    eapply (failed_inv d _ _ _ i h); [done|exact Hd| |done|by apply (redis_start_inv d hs i h k s)].
    split; cbn; [done|intros k' t b Hb; exists b; by split; [right|]|by intros k' b Hb; exists b].
  - destruct Hpre as (tid & b & Hk). apply run_both in He. eapply either_inv; [done|exact He|apply closed_less|done|by eapply del_inv].
  - destruct (reserveScript k limit0 now cutoff d) as [d1 code] eqn:Hr. by eapply reserve_call.
  - destruct Hpre as (b & Hk). apply run_both in He. eapply either_inv; [done|exact He|apply unstarted_less|done|by eapply redis_finish_inv].
  - rewrite list_insert_id by done. apply run_both in He as [->| ->]; [done|by apply release_script_inv].
  - destruct x; try done. injection He as <- <-. by eapply same_case.
Qed.

(** *** What a call does to the others *)

Lemma still_rely h d d' : sandboxes d' = sandboxes d → (∀ k, transition_of d' k = transition_of d k) → (next d <= next d')%nat → rely h d d'.
Proof using.
  intros Es Et En. split; [by intros k s _; rewrite Es|by intros k _; rewrite Et| |done].
  intros k tid [? ?]. split; [by rewrite Et|lia].
Qed.

Lemma run_rely {A} h x (d applied d' : db) (a : A) r : run x d applied a = Some (d', r) → rely h d applied → rely h d d'.
Proof using. intros He Hr. by apply run_both in He as [->| ->]. Qed.

Lemma call_rely A (c : call A) x hs i j h hj d d' a : hs !! i = Some h → hs !! j = Some hj → i ≠ j → call_pre A c h d →
  exec c x d = Some (d', a) → db_inv d hs → rely hj d d'.
Proof using.
  intros Hi Hj Hne Hpre He I.
  assert (Hlock : ∀ k, locked h k → locked hj k → False).
  { intros k [t Ht] [t' Ht']. apply Hne. eapply (di_lock_once _ _ I); [by exists h|by exists hj]. }
  destruct c; cbn [exec call_pre] in *;
    try (first [apply says_cases in He as ->|apply wakes_cases in He as [-> _]|(eapply run_rely; [exact He|])]; by apply still_rely).
  - destruct x; try done. by injection He as <- <-.
  - destruct (holder d l); [destruct x; try done; by injection He as <- <-|]. eapply run_rely; [exact He|].
    apply still_rely; [done|done|cbn; lia].
  - eapply run_rely; [exact He|]. by case_bool_decide.
  - eapply run_rely; [exact He|]. destruct Hpre as (Hk & _). split; try done.
    intros k' s' Hk' Hs. cbn. rewrite lookup_insert_ne; [done|]. intros <-. by eapply Hlock.
  - eapply run_rely; [exact He|]. split; try done. intros k' s' _ Hs. cbn. rewrite lookup_insert_ne; [done|]. intros <-.
    destruct (di_start _ _ I i k false) as [_ Hn]; [by exists h|]. apply Hn; [done|]. apply (di_index _ _ I). by eexists.
  - eapply run_rely; [exact He|]. destruct Hpre as (Hk & _). split; try done.
    intros k' s' Hk' Hs. cbn. rewrite lookup_delete_ne; [done|]. intros <-. by eapply Hlock.
  - eapply run_rely; [exact He|]. destruct Hpre as (Hk & _). set (d1 := with_next _ _).
    assert (Et : ∀ k', k' ≠ k → transition_of d1 k' = transition_of d k') by (intros k' Hk'; unfold transition_of; cbn; by rewrite lookup_insert_ne).
    split; [| | |cbn; lia].
    + intros k' s' Hk' Hs. cbn. rewrite lookup_insert_ne; [done|]. intros <-. by eapply Hlock.
    + intros k' Hk' Hn. rewrite Et; [done|]. intros ->. by eapply Hlock.
    + intros k' tid [Ht Hlt]. split; [|cbn; lia]. destruct (decide (k' = k)) as [->|]; [|by rewrite Et].
      unfold transition_of. cbn. rewrite lookup_insert_eq. intros Hl.
      assert (Some (next d) = Some tid) as [= E]; [|lia]. rewrite <- Hl. symmetry. exact (live_insert d (next d) transitionKeyTTL ltac:(done)).
  - eapply run_rely; [exact He|]. set (d1 := with_transitions _ _).
    assert (Et : ∀ k', transition_of d1 k' = None ∨ transition_of d1 k' = transition_of d k').
    { intros k'. unfold transition_of. cbn. destruct (decide (k' = k)) as [->|]; [left; by rewrite lookup_delete_eq|right; by rewrite lookup_delete_ne]. }
    split; [done| | |done].
    + intros k' _ Hn. by destruct (Et k') as [->| ->].
    + intros k' tid [Ht Hlt]. split; [|done]. by destruct (Et k') as [->| ->].
  - destruct (reserveScript k limit0 now cutoff d) as [d1 code] eqn:Hr. eapply run_rely; [exact He|].
    destruct (reserve_cases _ _ _ _ _ _ _ Hr) as [[-> _]|(_ & _ & _ & _ & ->)]; by apply still_rely.
  - destruct x; try done. by injection He as <- <-.
Qed.

Lemma clock_rely h d t : clock d <= t → rely h d (with_clock t d).
Proof using.
  intros Ht. split; [done| | |done].
  - intros k _ Hn. unfold transition_of. cbn. destruct (live (with_clock t d) (transitions d !! k)) eqn:E; [|done]. apply live_clock in E; [|done]. unfold transition_of in Hn. congruence.
  - intros k tid [Hn Hlt]. split; [|done]. intros E. apply Hn. unfold transition_of in *. cbn in E. by eapply live_clock.
Qed.

(** ** The programs *)

Notation wp := (Prog.wp rely call_pre answers).

(** Calls that neither need nor obtain anything. *)
Definition is_simple A (c : call A) : bool :=
  match c with
  | Obtain _ | ReleaseLock _ _ | SetSandbox _ _ | AddSandboxScript _ _ | RemoveSandboxScript _ | StartTransitionScript _ _
  | DelTransition _ | Publish _ _ | ReserveScript _ _ _ _ | FinishStartScript _ _ | PlaceSandbox _ | RemoveFromNode _ _ | Checkpoint _ => false
  | _ => true
  end.

(** A program of such calls, and what it returns. *)
Fixpoint quiet {A} (p : prog A) (P : A → Prop) : Prop :=
  match p with
  | Ret r => P r
  | @Do _ _ B c k => is_simple B c = true ∧ ∀ a, quiet (k a) P
  end.

Lemma quiet_mono {A} (p : prog A) (P Q : A → Prop) : (∀ a, P a → Q a) → quiet p P → quiet p Q.
Proof using. intros H. induction p as [r|B c k IH]; cbn; [apply H|]. intros [Hc Hk]. split; [done|]. intros a. by apply IH. Qed.

Lemma quiet_bind {A B} (p : prog A) (f : A → prog B) P : quiet p (λ a, quiet (f a) P) → quiet (p ≫= f) P.
Proof using. induction p as [r|D c k IH]; cbn; [done|]. intros [Hc Hk]. split; [done|]. intros a. by apply IH. Qed.

Lemma quiet_call {A} (c : call A) P : is_simple A c = true → (∀ a, P a) → quiet (perform c) P.
Proof using. done. Qed.

Lemma quiet_check {E A B} (p : prog (result E A)) (f : A → prog (result E B)) P :
  quiet p (λ r, match r with Ok a => quiet (f a) P | Err e => P (Err e) end) → quiet (check p f) P.
Proof using. intros H. apply quiet_bind. eapply quiet_mono; [|exact H]. by intros [a|e]. Qed.

Lemma quiet_try {A} (c : call (result unit A)) P : is_simple _ c = true → (∀ a, P (Ok a)) → P (Err RedisFailed) → quiet (try_call c) P.
Proof using. intros Hc Ha He. apply quiet_bind, quiet_call; [done|]. intros [a|[]]; cbn; auto. Qed.

Lemma simple_exec {A} (c : call A) x d d' a : is_simple _ c = true → exec c x d = Some (d', a) →
  sandboxes d' = sandboxes d ∧ transitions d' = transitions d ∧ next d' = next d ∧ clock d' = clock d ∧ index d' = index d.
Proof using.
  intros Hc He. destruct c; try discriminate Hc; cbn [exec] in He;
    try (first [apply says_cases in He as ->|apply wakes_cases in He as [-> _]|apply run_both in He as [->| ->]]; by split_and!).
  destruct x; try done. by injection He as <- _.
Qed.

Lemma simple_rely {A} (c : call A) h x d d' a : is_simple _ c = true → exec c x d = Some (d', a) → rely h d d'.
Proof using.
  intros Hc He. destruct (simple_exec c x d d' a Hc He) as (? & Et & En & Ec & _). apply still_rely; [done| |lia].
  intros k. unfold transition_of, live. by rewrite Et, Ec.
Qed.

Lemma simple_hold {A} (c : call A) h a : is_simple _ c = true → hold c h a = h.
Proof using. by destruct c. Qed.

Lemma quiet_wp {A} (p : prog A) (P : A → Prop) (I : db → Prop) h d : (∀ d d', rely h d d' → I d → I d') →
  quiet p P → I d → wp p (λ h' d' r, h' = h ∧ I d' ∧ P r) h d.
Proof using.
  intros HI. revert d. induction p as [r|B c k IH]; cbn; intros d; [done|]. intros [Hc Hk] Hd d1 Hr.
  split; [by destruct c|].
  intros a h' d2 (x & He & _ & ->). rewrite (simple_hold c h a Hc). apply IH; [done|].
  eapply HI; [by eapply simple_rely|]. by eapply HI.
Qed.

(** *** Reading *)

Definition any {A} (_ : A) : Prop := True.

Ltac read := repeat first
  [ progress intros | apply quiet_bind, quiet_call; [done|] | apply quiet_call; [done|] | apply quiet_check | apply quiet_try; [done| |]
  | progress cbn [quiet] | done | case_match | apply quiet_bind ].

Lemma check_quiet k tid (P : result api_err unit → Prop) : (∀ r, P r) → quiet (checkTransitionResult (R:=R) k tid) P.
Proof using. intros HP. unfold checkTransitionResult. read; apply HP. Qed.

Lemma wait_loop_quiet polls k tid (P : result api_err unit → Prop) : (∀ r, P r) → quiet (wait_loop (R:=R) polls k tid) P.
Proof using.
  intros HP. revert tid. induction polls as [|polls IH]; intros tid; cbn [wait_loop]; apply quiet_bind, quiet_call; try done;
    intros [| |]; cbn [quiet]; try apply HP; try by apply check_quiet.
  all: apply quiet_bind, quiet_call; [done|]; intros r; case_match; [|by apply check_quiet]; [apply HP||apply IH].
Qed.

Lemma waitForTransition_quiet polls k tid (P : result api_err unit → Prop) : (∀ r, P r) → quiet (waitForTransition (R:=R) polls k tid) P.
Proof using.
  intros HP. apply quiet_bind, quiet_call; [done|]. intros r. case_match; [by apply wait_loop_quiet|by apply check_quiet].
Qed.

Lemma WaitForStateChange_quiet polls k (P : result api_err unit → Prop) : (∀ r, P r) → quiet (WaitForStateChange (R:=R) polls k) P.
Proof using.
  intros HP. apply quiet_check, quiet_try; [done| |apply HP]. intros [tid|]; [by apply waitForTransition_quiet|apply HP].
Qed.

Lemma Get_quiet k (P : result api_err sandbox → Prop) : (∀ r, P r) → quiet (Get k) P.
Proof using. intros HP. unfold Get. read; apply HP. Qed.

Lemma TeamItems_quiet team states : quiet (TeamItems (R:=R) team states) any.
Proof using. unfold TeamItems. read. Qed.

Lemma TeamsWithSandboxCount_quiet : quiet (TeamsWithSandboxCount (R:=R)) any.
Proof using. unfold TeamsWithSandboxCount. read. Qed.

Lemma mgets_quiet l (P : result api_err (list (key * option sandbox)) → Prop) : (∀ r, P r) → quiet (mgets l) P.
Proof using.
  revert P. induction l as [|ks l IH]; intros P HP; cbn [mgets]; [apply HP|].
  apply quiet_check, quiet_try; [done| |apply HP]. intros a. apply quiet_check, IH. intros []; apply HP.
Qed.

Lemma expired_filter_quiet now l acc stale (P : list sandbox * list key → Prop) : (∀ r, P r) → quiet (expired_filter now l acc stale) P.
Proof using.
  intros HP. revert acc stale. induction l as [|[k [s|]] l IH]; intros acc stale; cbn [expired_filter]; [apply HP| |apply IH].
  repeat case_match; try apply IH. apply quiet_bind, quiet_call; [done|]. intros t. case_match; apply IH.
Qed.

Lemma ExpiredItems_quiet : quiet (ExpiredItems (R:=R)) any.
Proof using.
  apply quiet_bind, quiet_call; [done|]. intros now. apply quiet_check, quiet_try; [done| |done]. intros ms. case_match; [done|].
  apply quiet_check, mgets_quiet. intros [found|]; [|done]. apply quiet_bind, expired_filter_quiet. intros r. case_match; [done|]. by apply quiet_bind, quiet_call.
Qed.

Lemma StoreReconcile_quiet sbxs : quiet (StoreReconcile (R:=R) sbxs) any.
Proof using.
  assert (Hkill : ∀ l, quiet ((fix kill (l : list sandbox) : prog unit :=
     match l with [] => Ret () | s :: l => _ ←! KillOnNode (sandbox_key s); kill l end) l) any).
  { induction l as [|s l IH]; [done|]. apply quiet_bind, quiet_call; [done|]. intros _. exact IH. }
  unfold StoreReconcile, Reconcile. apply quiet_bind. case_match; [apply Hkill|]. apply quiet_bind, quiet_call; [done|]. intros now.
  case_match; [apply Hkill|]. apply quiet_bind, mgets_quiet. intros [|]; apply Hkill.
Qed.

Lemma waitForStart_quiet polls k (P : result api_err (option sandbox) → Prop) : (∀ r, P r) → quiet (waitForStart polls k) P.
Proof using.
  intros HP. induction polls as [|polls IH]; cbn [waitForStart]; apply quiet_bind, quiet_call; try done; intros [[]|]; try apply HP;
    (apply quiet_bind, quiet_call; [done|]); intros [[]|]; try apply HP; (apply quiet_bind, quiet_call; [done|]); intros []; try apply HP; apply IH.
Qed.

Lemma auto_resume_quiet polls n k s : quiet (auto_resume (R:=R) polls n k s) any.
Proof using.
  revert s. induction n as [|n IH]; intros s; cbn [auto_resume]; case_match; try done; try (by apply quiet_bind, quiet_call).
  all: apply quiet_bind, WaitForStateChange_quiet; intros [[]|e]; [|by apply quiet_bind, quiet_call].
  all: apply quiet_bind, Get_quiet; intros [s'|[]]; try done; apply IH.
Qed.

Lemma eviction_check_quiet opts (s : sandbox) tid (P : option api_err → Prop) : (∀ r, P r) → quiet (eviction_check opts s tid) P.
Proof using. intros HP. unfold eviction_check. case_match; [apply HP|]. destruct tid; [apply HP|]. apply quiet_bind, quiet_call; [done|]. intros now. apply HP. Qed.

Lemma updated_quiet opts (s : sandbox) : quiet (updated_sandbox opts s) (λ s', St s' = TargetState (Action opts)).
Proof using. unfold updated_sandbox. case_match; [|done]. apply quiet_bind, quiet_call; [done|]. intros now. cbn. by case_match. Qed.

(** The functions [Update] is given keep the state, or end a snapshot. *)
Definition state_ok (f : sandbox → prog (result api_err sandbox)) : Prop :=
  ∀ s, quiet (f s) (λ r, match r with Ok s' => follows (St s) (St s') | Err _ => True end).

Lemma keep_alive_ok now duration shorter : state_ok (keep_alive now duration shorter).
Proof using.
  intros s. unfold keep_alive. case_match; [done|]. apply quiet_bind, quiet_call; [done|]. intros t. cbn. repeat case_match; simplify_eq; try done; by left.
Qed.

Lemma set_egress_ok f : state_ok (set_egress f).
Proof using. intros s. cbn. case_bool_decide; [done|]. by left. Qed.

Lemma restore_ok : state_ok (λ s, Ret (Ok (if bool_decide (St s ≠ StateSnapshotting) then s else with_state s StateRunning))).
Proof using. intros s. cbn. case_bool_decide as E; [by left|]. right. cbn. by replace (St s) with StateSnapshotting by (destruct (St s); by try destruct E). Qed.

(** *** Updates *)

Definition kept (h : holds) (d : db) (h' : holds) (d' : db) : Prop :=
  h_trans h' = h_trans h ∧ h_starts h' = h_starts h ∧ (next d <= next d')%nat.

Lemma rely_next h d d' : rely h d d' → (next d <= next d')%nat.
Proof using. by intros [? ? ? ?]. Qed.

Lemma rely_above n h d d' : rely h d d' → (n <= next d)%nat → (n <= next d')%nat.
Proof using. intros H%rely_next. lia. Qed.

(** One call of the kind the locks need. *)
Lemma with_lock_spec {A} l (failed : A) (body : prog A) (Q : holds → db → A → Prop) h d :
  (∀ d1, (next d <= next d1)%nat → Q h d1 failed) →
  (∀ token d1, (next d <= next d1)%nat →
     wp body (λ h' d' a, (l, token) ∈ h_locks h' ∧
                ∀ h'' d'', h_trans h'' = h_trans h' → h_starts h'' = h_starts h' → (next d' <= next d'')%nat → Q h'' d'' a)
        (mkHolds ((l, token) :: h_locks h) (h_trans h) (h_starts h)) d1) →
  wp (with_lock l failed body) Q h d.
Proof using.
  intros Hfail Hbody. unfold with_lock. apply prog_wp_bind, prog_wp_perform. intros d1 Hr. split; [done|].
  intros a h' d2 (x & He & _ & ->). apply rely_next in Hr. cbn [exec] in He. assert (Hn : (next d1 <= next d2)%nat).
  { destruct (holder d1 l); [destruct x; try done; by injection He as <- _|]. apply run_both in He as [->| ->]; cbn; lia. }
  destruct a as [token|[]]; [|cbn [hold]; apply Hfail; lia].
  cbn [hold]. apply prog_wp_bind. eapply prog_wp_mono; [|apply Hbody; lia]. cbn beta. intros h1 d3 a [Hl HQ].
  apply prog_wp_bind, prog_wp_perform. intros d4 Hr4. split; [done|]. intros b h2 d5 (x' & He' & _ & ->). cbn [hold].
  apply HQ; [done|done|]. apply rely_next in Hr4. cbn [exec] in He'. apply run_both in He' as [->| ->]; [done|]. by case_bool_decide.
Qed.

Lemma simple_wp {A} (c : call A) (Q : holds → db → A → Prop) h d : is_simple _ c = true → (∀ d2 a, rely h d d2 → Q h d2 a) → wp (perform c) Q h d.
Proof using.
  intros Hc HQ. apply prog_wp_perform. intros d1 Hr. split; [by destruct c|]. intros a h' d2 (x & He & _ & ->).
  rewrite (simple_hold c h a Hc). apply HQ. etrans; [exact Hr|by eapply simple_rely].
Qed.

Lemma get_wp k (Q : holds → db → result unit (option sandbox) → Prop) h d :
  (∀ d2 r, rely h d d2 → (∀ s, r = Ok (Some s) → sandboxes d2 !! k = Some s) → Q h d2 r) → wp (perform (GetSandbox k)) Q h d.
Proof using.
  intros HQ. apply prog_wp_perform. intros d1 Hr. split; [done|]. intros a h' d2 (x & He & _ & ->). cbn [exec hold] in *.
  assert (d2 = d1) as -> by (by apply run_both in He as [->| ->]). apply HQ; [done|]. intros s ->.
  apply run_cases in He as [[_ [= E]]|(_ & ? & _)]; [by rewrite E|done].
Qed.

Lemma get_transition_wp k (Q : holds → db → result unit (option nat) → Prop) h d :
  (∀ d2 r, rely h d d2 → (∀ t, r = Ok t → transition_of d2 k = t) → Q h d2 r) → wp (perform (GetTransition k)) Q h d.
Proof using.
  intros HQ. apply prog_wp_perform. intros d1 Hr. split; [done|]. intros a h' d2 (x & He & _ & ->). cbn [exec hold] in *.
  assert (d2 = d1) as -> by (by apply run_both in He as [->| ->]). apply HQ; [done|]. intros t ->.
  apply run_cases in He as [[_ [= E]]|(_ & ? & _)]; [by rewrite E|done].
Qed.

(** A call that obtains nothing, and what its effect leaves. *)
Lemma effect_wp {A} (c : call A) (Q : holds → db → A → Prop) h d :
  (∀ d1, rely h d d1 → call_pre _ c h d1 ∧ ∀ x a d2, exec c x d1 = Some (d2, a) → reliable_choice m x = true → Q (hold c h a) d2 a) →
  wp (perform c) Q h d.
Proof using. intros H. apply prog_wp_perform. intros d1 Hr. destruct (H d1 Hr) as [Hp HQ]. split; [done|]. intros a h' d2 (x & He & Hx & ->). by eapply HQ. Qed.

Lemma update_locked_spec k f h d n : locked h k → state_ok f → (n <= next d)%nat →
  wp (update_locked k f) (λ h' d' _, h' = h ∧ (n <= next d')%nat) h d.
Proof using.
  intros Hk Hf Hn. unfold update_locked, try_call, check. apply prog_wp_bind, prog_wp_bind, get_wp. intros d1 r Hr Hget.
  pose proof (rely_above _ _ _ _ Hr Hn) as Hn1.
  destruct r as [[s|]|[]]; [|done..]. specialize (Hget s eq_refl). cbn [Prog.wp command]. apply prog_wp_bind.
  eapply prog_wp_mono; [|apply (quiet_wp (f s) (λ r, match r with Ok s' => follows (St s) (St s') | Err _ => True end) (λ d, sandboxes d !! k = Some s ∧ (n <= next d)%nat)); [|apply Hf|done]]; cycle 1.
  { intros d2 d3 H [Hs Hn2]. split; [by eapply re_sandbox|by eapply rely_above]. }
  cbn beta. intros h' d2 [s'|e] (-> & [Hs Hn2] & Hfol); [|done]. apply prog_wp_bind, prog_wp_bind, effect_wp. intros d3 Hr3.
  split; [split; [done|]; exists s; split; [by eapply re_sandbox|done]|]. intros x a d4 He _. cbn [exec hold] in *.
  assert (Hn4 : (n <= next d4)%nat) by (pose proof (rely_above _ _ _ _ Hr3 Hn2); by apply run_both in He as [->| ->]).
  destruct a as [[]|[]]; cbn [Prog.wp command]; [|done]. case_match; [done|]. apply prog_wp_bind, prog_wp_bind, simple_wp; [done|].
  intros d5 b Hr5. pose proof (rely_above _ _ _ _ Hr5 Hn4). by destruct b as [[]|[]].
Qed.

Lemma Update_spec k f h d : state_ok f → wp (Update k f) (λ h' d' _, kept h d h' d') h d.
Proof using.
  intros Hf. apply with_lock_spec; [by intros|]. intros token d1 Hn.
  eapply prog_wp_mono; [|apply (update_locked_spec k f _ d1 (next d1)); [by exists token; left|done|done]].
  cbn beta. intros h' d' r [-> Hn']. split; [by left|]. intros h'' d'' E1 E2 Hn''. split_and!; [done|done|lia].
Qed.

(** *** Removals *)

(** What a program that may start a transition leaves. *)
Definition removal_post (k : key) (h : holds) (n : nat) (h' : holds) (d' : db) (r : removal (R:=R)) : Prop :=
  h_starts h' = h_starts h ∧ (n <= next d')%nat ∧
  match r with
  | Owning _ tid => h_trans h' = (k, tid, false) :: h_trans h ∧ (tid < next d')%nat
  | _ => h_trans h' = h_trans h
  end.

Lemma removal_post_later k h n h' d' r h'' d'' : removal_post k h n h' d' r → h_trans h'' = h_trans h' → h_starts h'' = h_starts h' →
  (next d' <= next d'')%nat → removal_post k h n h'' d'' r.
Proof using.
  intros (E1 & Hn & Hr) E2 E3 Hn'. split_and!; [by rewrite E3|lia|]. destruct r; rewrite E2; try done. destruct Hr. split; [done|lia].
Qed.

Lemma startRemoving_locked_spec k opts h d n : locked h k → (n <= next d)%nat →
  wp (startRemoving_locked k opts) (λ h' d' c, h_locks h' = h_locks h ∧
    match c with Decided r => removal_post k h n h' d' r | Existing _ _ => h' = h ∧ (n <= next d')%nat end) h d.
Proof using.
  intros Hk Hn. unfold startRemoving_locked. apply prog_wp_bind, get_wp. intros d1 r Hr1 Hget. pose proof (rely_above _ _ _ _ Hr1 Hn) as Hn1.
  destruct r as [[s|]|[]]; [|by split_and!..]. specialize (Hget s eq_refl).
  apply prog_wp_bind, get_transition_wp. intros d2 r Hr2 Htr. pose proof (rely_above _ _ _ _ Hr2 Hn1) as Hn2.
  pose proof (re_sandbox _ _ _ Hr2 k s Hk Hget) as Hs2.
  destruct r as [tid|[]]; [|by split_and!]. specialize (Htr tid eq_refl).
  set (I := λ d : db, sandboxes d !! k = Some s ∧ (tid = None → transition_of d k = None) ∧ (n <= next d)%nat).
  assert (HI : ∀ d d', rely h d d' → I d → I d').
  { intros d3 d4 H (A & B & C). split_and!; [by eapply re_sandbox|intros E; by eapply re_free; [exact H|exact Hk|auto]|by eapply rely_above]. }
  apply prog_wp_bind. eapply prog_wp_mono; [|apply (quiet_wp _ any I h d2 HI); [by apply eviction_check_quiet|split_and!; [done|by intros ->|done]]].
  cbn beta. intros h' d3 refused (-> & H3 & _). pose proof H3 as (_ & _ & Hn3). destruct refused as [e|]; [by split; [|split_and!]|].
  destruct tid as [tid|]; [by split_and!|]. case_bool_decide as E1; [by split; [|split_and!]|].
  destruct (AllowedTransitions (St s) (TargetState (Action opts))) eqn:Ha; [|by split; [|split_and!]]. cbn [negb].
  apply prog_wp_bind. eapply prog_wp_mono; [|apply (quiet_wp _ _ I h d3 HI (updated_quiet opts s) H3)].
  cbn beta. intros h' d4 updated (-> & H4 & Hst). apply prog_wp_bind, effect_wp. intros d5 Hr5. pose proof (HI _ _ Hr5 H4) as (A & B & C).
  split; [split_and!; [done|auto|]; exists s; split; [done|]; by rewrite Hst|]. intros x a d6 He _. cbn [exec hold] in *.
  apply run_cases in He as [[-> ->]|([->| ->] & -> & _)]; (split; [done|]); split_and!; cbn; try split; try done; lia.
Qed.

Context (polls : nat) (error_text : api_err → string).

Lemma wait_wp {A} k tid (f : result api_err unit → prog A) (Q : holds → db → A → Prop) h d n : (n <= next d)%nat →
  (∀ d' r, (n <= next d')%nat → wp (f r) Q h d') → wp (waitForTransition polls k tid ≫= f) Q h d.
Proof using.
  intros Hn HQ. apply prog_wp_bind. eapply prog_wp_mono; [|apply (quiet_wp _ any (λ d, n <= next d)%nat h d); [apply rely_above|by apply waitForTransition_quiet|done]].
  cbn beta. intros h' d' r (-> & Hn' & _). by apply HQ.
Qed.

Lemma StartRemoving_spec tries k opts h d n : (n <= next d)%nat → wp (StartRemoving tries polls k opts) (removal_post k h n) h d.
Proof using.
  unfold StartRemoving. revert opts h d. induction tries as [|tries IH]; intros opts h d Hn; cbn [StartRemoving_loop]; apply prog_wp_bind.
  all: apply with_lock_spec; [intros d1 Hn1; cbn; split_and!; [done|lia|done]|].
  all: intros token d1 Hn1; eapply prog_wp_mono; [|apply (startRemoving_locked_spec k opts _ d1 n); [by exists token; left|lia]].
  all: cbn beta; intros h' d' c [El Hc]; (split; [rewrite El; by left|]); intros h'' d'' E1 E2 Hn2; destruct c as [r|s tid];
    [cbn [Prog.wp]; by eapply (removal_post_later k _ n h' d')|].
  all: destruct Hc as [-> Hn']; cbn [h_trans h_starts] in E1, E2; unfold handleExistingTransition.
  all: assert (Hr : ∀ d3 r, (n <= next d3)%nat → (∀ s tid, r ≠ Owning s tid) → removal_post k h n h'' d3 r)
         by (intros d3 r Hd3 Hr; split_and!; [done|done|]; destruct r; [done..|by destruct (Hr s0 tid0)]).
  all: repeat case_match; try (by apply Hr; [lia|]); eapply (wait_wp _ _ _ _ _ _ n); try lia; intros d3 r Hd3; cbn [Prog.wp]; destruct r as [[]|e]; cbn [Prog.wp];
    try (by apply Hr).
  eapply prog_wp_mono; [|apply (IH (mkOpts (Action opts) false) h'' d3 Hd3)]. intros h3 d4 r (A & B & C). split_and!; [by rewrite A|done|].
  destruct r; by rewrite <- E1.
Qed.

Lemma Remove_spec k tid b h d n : (k, tid, b) ∈ h_trans h → (n <= next d)%nat →
  wp (Remove k) (λ h' d' _, (∃ b, (k, tid, b) ∈ h_trans h') ∧ (n <= next d')%nat) h d.
Proof using.
  intros Hk Hn. apply with_lock_spec; [intros d1 Hn1; split; [by exists b|lia]|]. intros token d1 Hn1. unfold check, try_call.
  apply prog_wp_bind, prog_wp_bind, effect_wp. intros d2 Hr. split; [split; [by exists token; left|by exists tid, b]|].
  intros x a d3 He _. cbn [exec hold h_locks h_trans h_starts] in *.
  assert (Hn3 : (n <= next d3)%nat) by (apply rely_next in Hr; apply run_both in He as [->| ->]; cbn; lia).
  set (h1 := mkHolds _ _ _).
  assert (Hpost : ∀ h'' (d'' : db), h_trans h'' = h_trans h1 → (next d3 <= next d'')%nat → (∃ b, (k, tid, b) ∈ h_trans h'') ∧ (n <= next d'')%nat).
  { intros h'' d'' E Hn''. split; [|lia]. exists true. rewrite E. cbn. apply list_elem_of_fmap. exists (k, tid, b). split; [|done]. cbn. by rewrite bool_decide_eq_true_2. }
  destruct a as [[]|[]]; cbn [command Prog.wp]; [|by split; [left|intros; apply Hpost]].
  apply prog_wp_bind, simple_wp; [done|]. intros d4 _ Hr4. cbn [Prog.wp]. split; [by left|]. intros h'' d'' E _ Hn''. apply Hpost; [done|].
  apply rely_next in Hr4. lia.
Qed.

Lemma StoreRemove_spec k tid b h d n : (k, tid, b) ∈ h_trans h → (n <= next d)%nat →
  wp (StoreRemove k) (λ h' d' _, (∃ b, (k, tid, b) ∈ h_trans h') ∧ (n <= next d')%nat) h d.
Proof using.
  intros Hk Hn. apply prog_wp_bind. eapply prog_wp_mono; [|by eapply Remove_spec]. cbn beta. intros h' d' _ [Hb Hn'].
  apply prog_wp_bind, simple_wp; [done|]. intros d2 _ Hr. split; [done|by eapply rely_above].
Qed.

(** An action is one of the three. *)
Definition transient_ok (a : StateAction) : Prop := Effect a = TransitionTransient → TargetState a = StateSnapshotting.

Lemma callback_unlocked k tid b v h d : (k, tid, b) ∈ h_trans h → (tid < next d)%nat →
  wp (with_lock (LockTransition k) () (_ ←! SetResult k tid v; _ ←! DelTransition k; _ ←! Publish k tid; Ret ())) (λ _ _ _, True) h d.
Proof using.
  intros Hk Hlt. apply with_lock_spec; [done|]. intros token d1 Hn1. apply prog_wp_bind, simple_wp; [done|]. intros d2 _ Hr2. apply rely_next in Hr2.
  apply prog_wp_bind, effect_wp. intros d3 Hr3. apply rely_next in Hr3. split; [by exists tid, b|]. intros x a d4 He Hx. cbn [exec hold h_locks] in *.
  apply prog_wp_bind, effect_wp. intros d5 Hr5. split; [|intros x' a' d6 He' _; by split; [left|]].
  intros Hm. apply (re_ended _ _ _ Hr5). apply run_cases in He as [[-> ->]|(_ & _ & late & ->)]; [|by rewrite Hm in Hx].
  split; [|cbn; lia]. unfold transition_of. cbn. by rewrite lookup_delete_eq.
Qed.

Lemma createCallback_spec k tid b a cbErr h d : (k, tid, b) ∈ h_trans h → (tid < next d)%nat → transient_ok a →
  wp (createCallback error_text k tid a cbErr) (λ _ _ _, True) h d.
Proof using.
  intros Hk Hlt Ha. unfold createCallback. apply prog_wp_bind. destruct (Effect a) eqn:Ea; [by eapply callback_unlocked|].
  destruct cbErr; [by eapply callback_unlocked|]. rewrite (Ha Ea). apply prog_wp_bind. eapply prog_wp_mono; [|apply Update_spec, restore_ok].
  cbn beta. intros h' d' r (E & _ & Hn). cbn [Prog.wp]. apply (callback_unlocked k tid b); [by rewrite E|lia].
Qed.

Lemma RemoveSandbox_spec tries k opts h d : transient_ok (Action opts) → wp (RemoveSandbox tries polls error_text k opts) (λ _ _ _, True) h d.
Proof using.
  intros Ha. apply prog_wp_bind. eapply prog_wp_mono; [|by apply (StartRemoving_spec tries k opts h d (next d))].
  intros h1 d1 [s e|s|s tid] (_ & _ & Hr); [done..|]. destruct Hr as [Et Hlt].
  apply prog_wp_bind, effect_wp. intros d2 Hr2. split; [exists tid; rewrite Et; by left|]. intros x err d3 He _. cbn [exec hold] in *.
  apply says_cases in He as ->. apply prog_wp_bind. eapply prog_wp_mono; [|apply (StoreRemove_spec k tid false _ _ (S tid)); [rewrite Et; by left|]].
  - cbn beta. intros h4 d4 _ [[b Hb] Hn]. apply prog_wp_bind. eapply prog_wp_mono; [|by apply (createCallback_spec k tid b)]. by destruct err.
  - apply rely_next in Hr2. lia.
Qed.

Lemma CreateSnapshotTemplate_spec tries k h d : wp (CreateSnapshotTemplate tries polls error_text k) (λ _ _ _, True) h d.
Proof using.
  apply prog_wp_bind. eapply prog_wp_mono; [|by apply (StartRemoving_spec tries k _ h d (next d))].
  intros h1 d1 [s e|s|s tid] (_ & _ & Hr); [done..|]. destruct Hr as [Et Hlt].
  assert (Hk : (k, tid, false) ∈ h_trans h1) by (rewrite Et; by left).
  assert (Hfin : ∀ cbErr A (p : prog A) d2, (tid < next d2)%nat → (∀ h3 d3, wp p (λ _ _ _, True) h3 d3) →
    wp (createCallback error_text k tid StateActionSnapshot cbErr ≫= λ _, p) (λ _ _ _, True) h1 d2).
  { intros cbErr A p d2 Hlt2 Hp. apply prog_wp_bind. eapply prog_wp_mono; [|by eapply createCallback_spec]. intros h3 d3 _ _. apply Hp. }
  apply prog_wp_bind, simple_wp; [done|]. intros d2 prepared Hr2. apply rely_next in Hr2. destruct prepared; [|apply Hfin; [lia|done]]. cbn [negb].
  apply prog_wp_bind, effect_wp. intros d3 Hr3. apply rely_next in Hr3. split; [by exists tid|]. intros x err d4 He _. cbn [exec hold] in *.
  apply says_cases in He as ->. destruct err as [msg|].
  - apply Hfin; [lia|]. intros h5 d5. apply prog_wp_bind. eapply prog_wp_mono; [|by apply RemoveSandbox_spec]. done.
  - apply prog_wp_bind, simple_wp; [done|]. intros d5 recorded Hr5. apply rely_next in Hr5. apply Hfin; [lia|done].
Qed.

(** *** Starts *)

Lemma redis_Reserve_spec k h d : wp (Reserve (R:=R) k (limit k.1)) (λ h' _ r, r = Ok Reserved → (k, false) ∈ h_starts h') h d.
Proof using.
  apply prog_wp_bind, simple_wp; [done|]. intros d1 now _. apply prog_wp_bind, simple_wp; [done|]. intros d2 now' _.
  unfold check, try_call. apply prog_wp_bind, prog_wp_bind, effect_wp. intros d3 _. split; [done|]. intros x [code|[]] d4 _ _; cbn [command Prog.wp hold]; [|done].
  repeat case_match; try done. intros _. by left.
Qed.

Definition start_held (k : key) (h' : holds) : Prop := ∃ b, (k, b) ∈ h_starts h'.

Lemma redis_StoreAdd_spec (s : sandbox) h d : (sandbox_key s, false) ∈ h_starts h → wp (StoreAdd s) (λ h' _ _, start_held (sandbox_key s) h') h d.
Proof using.
  intros Hk. assert (Ek : (TeamID (Store.capped s), SandboxID (Store.capped s)) = sandbox_key s) by (unfold Store.capped; by case_match).
  unfold StoreAdd, Add, check, try_call. rewrite Ek. assert (Hs : start_held (sandbox_key s) h) by by eexists.
  apply prog_wp_bind, prog_wp_bind, prog_wp_bind, simple_wp; [done|]. intros d1 [[]|[]] _; [|done]. cbn [command Prog.wp].
  apply prog_wp_bind, prog_wp_bind, effect_wp. intros d2 _. split; [done|]. intros x r d3 _ _. cbn [hold].
  assert (Hs' : start_held (sandbox_key s) (mkHolds (h_locks h) (h_trans h) ((λ x, if bool_decide (x.1 = sandbox_key s) then (sandbox_key s, true) else x) <$> h_starts h))).
  { exists true. apply list_elem_of_fmap. eexists. split; [|exact Hk]. cbn. by rewrite bool_decide_eq_true_2. }
  destruct r as [[]|[]]; cbn [command Prog.wp]; [|exact Hs'].
  apply prog_wp_bind, simple_wp; [done|]. intros d4 now _. apply prog_wp_bind, simple_wp; [done|]. intros d5 _ _. cbn [Prog.wp].
  apply prog_wp_bind, simple_wp; [done|]. intros d6 _ _. exact Hs'.
Qed.

Lemma create_reserved_spec k timeout h d : (k, false) ∈ h_starts h → wp (create_reserved k timeout) (λ h' _ _, start_held k h') h d.
Proof using.
  intros Hk. apply prog_wp_bind, effect_wp. intros d1 _. split; [done|]. intros x [p|e] d2 _ _; cbn [hold Prog.wp]; [|by eexists].
  apply prog_wp_bind, simple_wp; [done|]. intros d3 now _. apply prog_wp_bind. set (s := new_sandbox k p now (now + timeout)).
  assert (Es : sandbox_key s = k) by by destruct k. eapply prog_wp_mono; [|apply redis_StoreAdd_spec; by rewrite Es]. rewrite Es.
  intros h4 d4 [[]|e] Hs; [done|]. apply prog_wp_bind, simple_wp; [done|]. by intros.
Qed.

Lemma CreateSandbox_spec k timeout h d : wp (CreateSandbox polls k (limit k.1) timeout) (λ _ _ _, True) h d.
Proof using.
  unfold CreateSandbox, check. apply prog_wp_bind. eapply prog_wp_mono; [|apply redis_Reserve_spec]. cbn beta. intros h1 d1 [[]|e] Hr; [| | |done].
  - apply prog_wp_bind. eapply prog_wp_mono; [|apply create_reserved_spec, Hr; done]. cbn beta. intros h2 d2 [s|e] Hs;
      (apply prog_wp_bind; unfold finishStart; apply prog_wp_bind, effect_wp; intros d3 _; split; [exact Hs|]; done).
  - apply prog_wp_bind. eapply prog_wp_mono; [|apply (quiet_wp _ any (λ _, True)); [done|by apply Get_quiet|done]]. by intros h2 d2 [s|e] _.
  - eapply prog_wp_mono; [|apply (quiet_wp _ any (λ _, True)); [done|by apply waitForStart_quiet|done]]. done.
Qed.

(** *** Requests *)

Lemma quiet_request {A} (p : prog A) (f : A → outcome (R:=R)) h d : quiet p any → wp (r ← p; Ret (f r)) (λ _ _ _, True) h d.
Proof using. intros Hp. apply prog_wp_bind. eapply prog_wp_mono; [|apply (quiet_wp _ _ (λ _, True) _ _ ltac:(done) Hp); done]. done. Qed.

Lemma update_request {A} k f (p : prog (result api_err A)) (g : sandbox → prog (result api_err A)) (o : result api_err A → outcome (R:=R)) h d :
  state_ok f → (∀ s, quiet (g s) any) → p = (s ←? Update k f; g s) → wp (r ← p; Ret (o r)) (λ _ _ _, True) h d.
Proof using.
  intros Hf Hg ->. apply prog_wp_bind. unfold check. apply prog_wp_bind. eapply prog_wp_mono; [|by apply Update_spec].
  cbn beta. intros h1 d1 [s|e] _; [|done]. eapply prog_wp_mono; [|apply (quiet_wp _ _ (λ _, True) _ _ ltac:(done) (Hg s)); done]. done.
Qed.

Lemma program_spec tries o d : wp (program tries polls error_text limit o) (λ _ _ _, True) nothing d.
Proof using.
  assert (Hpost : ∀ A (p : prog A) (f : A → outcome (R:=R)), wp p (λ _ _ _, True) nothing d → wp (r ← p; Ret (f r)) (λ _ _ _, True) nothing d).
  { intros A p f Hp. apply prog_wp_bind. by eapply prog_wp_mono; [|exact Hp]. }
  destruct o; cbn [program].
  - apply Hpost, CreateSandbox_spec.
  - apply Hpost, RemoveSandbox_spec. by destruct pause.
  - apply Hpost, RemoveSandbox_spec. by destruct autoPause.
  - apply Hpost, CreateSnapshotTemplate_spec.
  - unfold KeepAliveFor. apply Hpost, prog_wp_bind, simple_wp; [done|]. intros d1 now _.
    unfold check. apply prog_wp_bind. eapply prog_wp_mono; [|apply Update_spec, keep_alive_ok]. cbn beta. intros h2 d2 [s|e] _; [|done].
    apply prog_wp_bind, simple_wp; [done|]. by intros.
  - unfold UpdateSandboxNetworkConfig, check. apply Hpost, prog_wp_bind. eapply prog_wp_mono; [|apply Update_spec, set_egress_ok]. cbn beta.
    intros h2 d2 [s|e] _; [|done]. apply prog_wp_bind, simple_wp; [done|]. by intros.
  - apply quiet_request, Get_quiet. done.
  - apply quiet_request, WaitForStateChange_quiet. done.
  - apply quiet_request, auto_resume_quiet.
  - apply quiet_request, ExpiredItems_quiet.
  - apply quiet_request, TeamItems_quiet.
  - apply quiet_request, TeamsWithSandboxCount_quiet.
  - apply quiet_request, StoreReconcile_quiet.
  - apply prog_wp_bind, simple_wp; [done|]. by intros.
Qed.

(** ** Executions *)

Notation world := (world (R:=R)).
Notation job := (job (R:=R)).
Context (tries : nat).

Definition steps : world → world → Prop := rtc (step tries polls error_text limit m).

(** A store nobody is using. *)
Record consistent (d : db) : Prop := {
  co_index k : is_Some (sandboxes d !! k) ↔ k.2 ∈ members d k.1;
  co_next k tid : transition_of d k = Some tid → (tid < next d)%nat;
  co_limit team : 0 <= limit team → Z.of_nat (size (admitted d team)) <= limit team;
  co_published k tid : (k, tid) ∈ published d → ended d k tid
}.

Definition job_ok (d : db) (j : job) : Prop := wp (j_prog j) (λ _ _ _, True) (j_holds j) d.

Definition world_inv (w : world) : Prop := db_inv (w_db w) (j_holds <$> w_jobs w) ∧ ∀ i j, w_jobs w !! i = Some j → job_ok (w_db w) j.

Lemma consistent_inv d : consistent d → world_inv (mkWorld d []).
Proof using.
  intros [C1 C2 C3 _]. split; [|done].
  split; try done; [intros i l t H|intros i j l t t' H|intros i k t b H|intros i j k t t' b b' H|intros i k b H|intros i j k b b' H]; by destruct H as (h & Hh & _).
Qed.

Lemma spawn_inv d hs : db_inv d hs → db_inv d (hs ++ [nothing]).
Proof using.
  assert (H : ∀ i h, (hs ++ [nothing]) !! i = Some h → hs !! i = Some h ∨ h = nothing).
  { intros i h Hi. apply lookup_app_Some in Hi as [?|[_ Hi]]; [by left|right]. apply list_lookup_singleton_Some in Hi as [_ <-]. done. }
  assert (HL : ∀ i l t, held (hs ++ [nothing]) i l t → held hs i l t) by (intros i l t (h & [Hi| ->]%H & Hin); [by exists h|by apply elem_of_nil in Hin]).
  assert (HT : ∀ i k t b, owned (hs ++ [nothing]) i k t b → owned hs i k t b) by (intros i k t b (h & [Hi| ->]%H & Hin); [by exists h|by apply elem_of_nil in Hin]).
  assert (HS : ∀ i k b, starting (hs ++ [nothing]) i k b → starting hs i k b) by (intros i k b (h & [Hi| ->]%H & Hin); [by exists h|by apply elem_of_nil in Hin]).
  intros [I1 I2 I3 I4 I5 I6 I7 I8 I9]. split; [done|intros i l t X; by apply (I2 i), HL|intros i j l t t' X Y; eapply I3; by apply HL|
    intros i k t b X; by apply (I4 i k t b), HT|intros i j k t t' b b' X Y; eapply I5; by apply HT|intros i k b X; by apply (I6 i k b), HS|
    intros i j k b b' X Y; eapply I7; by apply HS|done|done].
Qed.

Lemma job_rely d d' j : rely (j_holds j) d d' → job_ok d j → job_ok d' j.
Proof using. intros Hr. apply prog_wp_rely; [intros h d1 d2 d3 A B; by etrans|done|done]. Qed.

Lemma settle_ok d (j : job) : job_ok d j → job_ok d (settle j) ∧ less (j_holds (settle j)) (j_holds j).
Proof using.
  intros Hj. unfold settle, job_ok in *. destruct (j_prog j) as [r|A c k] eqn:Ep; [|by rewrite Ep].
  cbn. split; [done|]. split; cbn; [set_solver|by intros k t b Hb%elem_of_nil|by intros k b Hb%elem_of_nil].
Qed.

Lemma clean_timely : is_clean m = true → is_timely m = true.
Proof using. by destruct m. Qed.

(** The requests a move adds. *)
Definition spawned (os : list op) (w : world) : world := mkWorld (w_db w) (w_jobs w ++ (new_job tries polls error_text limit <$> os)).

Lemma spawned_lookup os w i j : w_jobs w !! i = Some j → w_jobs (spawned os w) !! i = Some j.
Proof using. apply lookup_app_l_Some. Qed.

(** A call of a request, and a tick, taken apart. *)
Lemma ecall_inv j x (w w' : world) : move tries polls error_text limit m (ECall j x) w = Some w' →
  ∃ jb A (c : call A) q d1 a, w_jobs w !! j = Some jb ∧ j_prog jb = Do c q ∧
    (is_clean m = true → reservations_fresh c (w_db w) (j_holds <$> w_jobs w) = true ∧ releases_none c (j_holds <$> w_jobs w) = true) ∧
    reliable_choice m x = true ∧ exec c x (w_db w) = Some (d1, a) ∧
    w' = spawned (forks c) (mkWorld d1 (<[j := settle (mkJob (j_op jb) (q a) (hold c (j_holds jb) a))]> (w_jobs w))).
Proof using.
  cbn [move]. destruct (w_jobs w !! j) as [jb|] eqn:Hj; [|done]. cbn [mbind option_bind]. unfold run_job.
  destruct (j_prog jb) as [r|A c q] eqn:Eq; [done|]. destruct (negb (is_timely m) || _) eqn:Ht; [|done]. destruct (negb (is_clean m) || _) eqn:Hr; [|done].
  destruct (reliable_choice m x) eqn:Hx; [|done]. cbn [andb]. destruct (exec c x (w_db w)) as [[d1 a]|] eqn:Ee; [|done]. intros [= <-]. exists jb, A, c, q, d1, a.
  split_and!; try done; [|unfold spawned, forked; by rewrite Eq]. intros Hm. rewrite Hm in Hr. rewrite (clean_timely Hm) in Ht. by split.
Qed.

Lemma tick_inv t (w w' : world) : move tries polls error_text limit m (ETick t) w = Some w' → 0 <= t ∧
  (is_clean m = true → forallb (in_time (clock (w_db w) + t) (w_db w)) (j_holds <$> w_jobs w) = true) ∧
  w' = mkWorld (with_clock (clock (w_db w) + t) (w_db w)) (w_jobs w).
Proof using.
  cbn [move]. destruct (0 <=? t) eqn:H0; [|done]. destruct (negb (is_timely m) || _) eqn:Ht; [|done]. cbn [andb]. intros [= <-].
  split_and!; [lia| |done]. intros Hm. by rewrite (clean_timely Hm) in Ht.
Qed.

Lemma job_pre (w : world) j jb A (c : call A) q : world_inv w → w_jobs w !! j = Some jb → j_prog jb = Do c q →
  (j_holds <$> w_jobs w) !! j = Some (j_holds jb) ∧ call_pre A c (j_holds jb) (w_db w) ∧
  ∀ x d1 a, exec c x (w_db w) = Some (d1, a) → reliable_choice m x = true → job_ok d1 (mkJob (j_op jb) (q a) (hold c (j_holds jb) a)).
Proof using.
  intros [I HJ] Hj Eq. split; [by rewrite list_lookup_fmap, Hj|]. pose proof (HJ j jb Hj) as Hjb. unfold job_ok in Hjb. rewrite Eq in Hjb.
  destruct (Hjb (w_db w) ltac:(reflexivity)) as [Hpre Hk]. split; [done|]. intros x d1 a Ee Hx. apply Hk. by exists x.
Qed.

Lemma spawned_inv os w : world_inv w → world_inv (spawned os w).
Proof using.
  intros [I HJ]. split; cbn [spawned w_db w_jobs].
  - rewrite fmap_app. induction os as [|o os IH] using rev_ind; [by rewrite app_nil_r|]. rewrite !fmap_app, (assoc_L (++)). by apply spawn_inv.
  - intros i j Hi. apply lookup_app_Some in Hi as [Hi|[_ Hi]]; [by eapply HJ|]. apply list_lookup_fmap_Some in Hi as (o & -> & _). apply program_spec.
Qed.

Lemma redis_move_inv e w w' : is_clean m = true → world_inv w → move tries polls error_text limit m e w = Some w' → world_inv w'.
Proof using.
  intros Hm W He. pose proof W as [I HJ]. destruct e as [o|i x|t].
  - cbn [move] in He. injection He as <-. exact (spawned_inv [o] w W).
  - apply ecall_inv in He as (j & A & c & p & d & a & Hi & Ep & Ht & Hx & Ee & ->). destruct (Ht Hm) as [Hfresh Hrel]. apply spawned_inv. destruct (job_pre w i j A c p W Hi Ep) as (Hhi & Hpre & Hk).
    specialize (Hk x d a Ee Hx). set (j' := mkJob (j_op j) (p a) (hold c (j_holds j) a)) in *. destruct (settle_ok d j' Hk) as [Hs Hl].
    assert (I' : db_inv d (<[i := j_holds j']> (j_holds <$> w_jobs w))) by (eapply redis_call_inv; [exact Hhi|exact Hpre|exact Hfresh|exact Hrel|exact Ee|done]).
    split; cbn [w_db w_jobs].
    + rewrite list_fmap_insert. replace (<[i := j_holds (settle j')]> (j_holds <$> w_jobs w)) with (<[i := j_holds (settle j')]> (<[i := j_holds j']> (j_holds <$> w_jobs w)))
        by by rewrite list_insert_insert_eq.
      eapply less_inv; [|exact Hl|done]. apply list_lookup_insert_eq. by eapply lookup_lt_Some.
    + intros n jn Hn. apply list_lookup_insert_Some in Hn as [(<- & <- & _)|(Hne & Hn)]; [done|].
      eapply job_rely; [|by eapply HJ]. by eapply (call_rely _ c x _ i n); [exact Hhi|rewrite list_lookup_fmap, Hn|..].
  - apply tick_inv in He as (Ht & Hin & ->). assert (Hle : clock (w_db w) <= clock (w_db w) + t) by lia.
    split; cbn [w_db w_jobs]; [by apply clock_inv; [..|apply Hin|]|]. intros i j Hi. eapply job_rely; [by apply clock_rely|by eapply HJ].
Qed.

Lemma redis_steps_inv d w : is_clean m = true → consistent d → steps (mkWorld d []) w → world_inv w.
Proof using.
  intros Hm Hd Hs. apply consistent_inv in Hd. revert Hd. induction Hs as [|w1 w2 w3 [e He] _ IH]; [done|]. intros H. apply IH. by eapply redis_move_inv.
Qed.

(** The sandbox a node is asked to start, pause, kill or snapshot for a request
    that has reserved it or taken its transition.  [KillOnNode] is left out: an
    orphan, and a sandbox the storage refused, are killed without either. *)
Definition node_call A (c : call A) : option key :=
  match c with PlaceSandbox k | RemoveFromNode k _ | Checkpoint k => Some k | _ => None end.

Definition on_node (j : job) : option key := match j_prog j with Ret _ => None | @Do _ _ A c _ => node_call A c end.

Definition at_node (w : world) (i : nat) (k : key) : Prop := w_jobs w !! i ≫= on_node = Some k.

Lemma at_node_elim w i k : at_node w i k → ∃ j A (c : call A) p, w_jobs w !! i = Some j ∧ j_prog j = Do c p ∧ node_call A c = Some k.
Proof using.
  unfold at_node. destruct (w_jobs w !! i) as [j|]; [|done]. cbn. unfold on_node. destruct (j_prog j) as [r|A c p] eqn:E; [done|].
  intros Hc. by exists j, A, c, p.
Qed.

(** C7. At most one request works on a sandbox on its node at a time: whatever
    the requests of all instances do, and whatever fails, two requests that are
    starting, pausing, killing or snapshotting the same sandbox are the same
    request, in every clean execution: one in which no lock, transition or
    reservation outlives its use, and in which the [ReleaseScript] that ends a
    removal never finds the reservation of a later start of the sandbox.  The
    second condition is not a deadline and nothing in the code sees to it:
    without it two requests start one sandbox, as
    [RedisRuns.Release_lets_two_start] shows.  The kills of [KillOnNode], of
    orphans and of sandboxes the storage refused, are not counted: they are
    made without transition or reservation, and
    [RedisRuns.Refused_kill_meets_next_start] shows one at the node together
    with the next start. *)
Theorem Node_operations_exclusive d w i j k : is_clean m = true → consistent d → steps (mkWorld d []) w →
  at_node w i k → at_node w j k → i = j.
Proof using.
  intros Hm Hd Hs Hi Hj. pose proof (redis_steps_inv d w Hm Hd Hs) as W. pose proof W as [I _].
  assert (Hrole : ∀ n, at_node w n k → starting (j_holds <$> w_jobs w) n k false ∨ ∃ tid, owned (j_holds <$> w_jobs w) n k tid false).
  { intros n (jb & A & c & p & Hn & Ep & Hk)%at_node_elim. destruct (job_pre w n jb A c p W Hn Ep) as (E & P & _).
    destruct c; try discriminate Hk; injection Hk as ->; cbn [call_pre] in P; [left; by exists (j_holds jb)|..]; right; destruct P as [tid P]; exists tid; by exists (j_holds jb). }
  assert (Hmix : ∀ a b tid, starting (j_holds <$> w_jobs w) a k false → owned (j_holds <$> w_jobs w) b k tid false → False).
  { intros a b tid Ha Hb. destruct (di_start _ _ I _ _ _ Ha) as [_ Hno]. destruct (di_trans _ _ I _ _ _ _ Hb) as [_ Hyes].
    apply Hno; [done|]. apply (di_index _ _ I). auto. }
  destruct (Hrole _ Hi) as [Si|[ti Ti]], (Hrole _ Hj) as [Sj|[tj Tj]];
    [by eapply (di_start_once _ _ I)|by destruct (Hmix i j tj)|by destruct (Hmix j i ti)|by eapply (di_trans_once _ _ I)].
Qed.

Lemma exec_states A (c : call A) x hs i h d d' a k s s' : hs !! i = Some h → call_pre A c h d → db_inv d hs → exec c x d = Some (d', a) →
  sandboxes d !! k = Some s → sandboxes d' !! k = Some s' → follows (St s) (St s').
Proof using.
  intros Hi Hpre I He Hs Hs'. assert (Hsame : sandboxes d' = sandboxes d → follows (St s) (St s')) by (intros E; left; rewrite E, Hs in Hs'; by injection Hs' as ->).
  destruct (is_simple A c) eqn:Hc; [by apply Hsame; destruct (simple_exec c x d d' a Hc He)|].
  destruct c; try discriminate Hc; cbn [exec call_pre] in *;
    try (first [apply says_cases in He as ->|apply run_both in He as [->| ->]]; by apply Hsame).
  - destruct (holder d l); [destruct x; try done; injection He as <- _; by apply Hsame|]. apply run_both in He as [->| ->]; by apply Hsame.
  - apply Hsame. case_bool_decide; by apply run_both in He as [->| ->].
  - destruct Hpre as (_ & s2 & Hs2 & Hf). apply run_both in He as [->| ->]; [by apply Hsame|]. cbn in Hs'.
    apply lookup_insert_Some in Hs' as [(<- & <-)|[_ Hs']]; [by replace s with s2 by congruence|]. left. by replace s' with s by congruence.
  - apply run_both in He as [->| ->]; [by apply Hsame|]. cbn in Hs'.
    apply lookup_insert_Some in Hs' as [(<- & _)|[_ Hs']]; [|left; by replace s' with s by congruence]. exfalso.
    destruct (di_start _ _ I i k0 false) as [_ Hn]; [by exists h|]. apply Hn; [done|]. apply (di_index _ _ I). by eexists.
  - apply run_both in He as [->| ->]; [by apply Hsame|]. cbn in Hs'. apply lookup_delete_Some in Hs' as [_ Hs']. left. by replace s' with s by congruence.
  - destruct Hpre as (_ & _ & s1 & Hs1 & Hf). apply run_both in He as [->| ->]; [by apply Hsame|]. cbn in Hs'.
    apply lookup_insert_Some in Hs' as [(<- & <-)|[_ Hs']]; [right; by replace s with s1 by congruence|]. left. by replace s' with s by congruence.
  - destruct (reserveScript k0 limit0 now cutoff d) as [d1 code] eqn:Hr. apply Hsame. apply run_both in He as [->| ->]; [done|].
    by destruct (reserve_cases _ _ _ _ _ _ _ Hr) as [[-> _]|(_ & _ & _ & _ & ->)].
  - apply Hsame. destruct x; try done. by injection He as <- _.
Qed.

(** C33. In the store all instances share, the state of a sandbox only changes
    the way [AllowedTransitions] says: every step of every clean execution
    (within the deadlines, and with no removal that releases the reservation
    of a later start) that finds a sandbox and leaves one under the same name
    keeps its state, or takes it to an allowed one.  Where a removal does
    release such a reservation, [RedisRuns.Release_overwrites_killing] shows
    the second of two starts take a sandbox from killing back to running. *)
Theorem Stored_states_follow d w w' k s s' : is_clean m = true → consistent d → steps (mkWorld d []) w →
  step tries polls error_text limit m w w' → sandboxes (w_db w) !! k = Some s → sandboxes (w_db w') !! k = Some s' → follows (St s) (St s').
Proof using.
  intros Hm Hd Hs [e He] H H'. destruct (redis_steps_inv d w Hm Hd Hs) as [I HJ].
  destruct e as [o|i x|t].
  - cbn [move] in He. injection He as <-. cbn in H'. left. by replace s' with s by congruence.
  - apply ecall_inv in He as (j & A & c & p & d1 & a & Hi & Ep & _ & _ & Ee & ->). destruct (job_pre w i j A c p (conj I HJ) Hi Ep) as (Hhi & Hpre & _).
    by eapply exec_states.
  - apply tick_inv in He as (_ & _ & ->). cbn in H'. left. by replace s' with s by congruence.
Qed.

(** C8. A team stays within its limit: the sandboxes of a team that are in the
    store, however many requests of however many instances start, resume and
    remove them, are never more than its limit, in every clean execution:
    within the deadlines, and with no removal that releases the reservation of
    a later start, which [RedisRuns.Release_exceeds_limit] shows to break the
    limit with no deadline passed. *)
Theorem Team_within_limit d w team (X : gset string) : is_clean m = true → consistent d → 0 <= limit team → steps (mkWorld d []) w →
  (∀ id, id ∈ X → is_Some (sandboxes (w_db w) !! (team, id))) → Z.of_nat (size X) <= limit team.
Proof using.
  intros Hm Hd Hl Hs HX. destruct (redis_steps_inv d w Hm Hd Hs) as [I _]. etrans; [|exact (di_limit _ _ I team Hl)].
  apply Nat2Z.inj_le, subseteq_size. intros id Hid. unfold admitted. apply elem_of_union. left. apply (proj1 (di_index _ _ I (team, id))). by apply HX.
Qed.

(** ** A wait is a wait *)

(** Where no command fails, a transition a message was sent for is over. *)
Definition published_ok (d : db) : Prop := m = Reliable → ∀ k tid, (k, tid) ∈ published d → ended d k tid.

Lemma bystander A (c : call A) x hs i h d d' a : hs !! i = Some h → call_pre A c h d → db_inv d hs → exec c x d = Some (d', a) → rely nothing d d'.
Proof using.
  intros Hi Hpre I He. pose proof (lookup_lt_Some _ _ _ Hi). eapply (call_rely A c x (hs ++ [nothing]) i (length hs)); [| |lia|exact Hpre|exact He|by apply spawn_inv].
  - by apply lookup_app_l_Some.
  - by apply list_lookup_middle.
Qed.

Lemma exec_published A (c : call A) x hs i h d d' a : hs !! i = Some h → call_pre A c h d → db_inv d hs → exec c x d = Some (d', a) →
  published_ok d → published_ok d'.
Proof using.
  intros Hi Hpre I He Hp Hm k tid Hin. pose proof (bystander _ _ _ _ _ _ _ _ _ Hi Hpre I He) as Hr.
  assert (Hcase : (k, tid) ∈ published d ∨ ended d k tid); [|destruct Hcase as [H|H]; [apply (re_ended _ _ _ Hr); by apply Hp|by apply (re_ended _ _ _ Hr)]].
  assert (Hsame : published d' = published d → (k, tid) ∈ published d ∨ ended d k tid) by (intros E; left; by rewrite <- E).
  destruct c; cbn [exec call_pre] in *;
    try (first [apply says_cases in He as ->|apply wakes_cases in He as [-> _]|apply run_both in He as [->| ->]]; by apply Hsame).
  - apply Hsame. destruct x; try done. by injection He as <- _.
  - apply Hsame. destruct (holder d l); [destruct x; try done; by injection He as <- _|]. by apply run_both in He as [->| ->].
  - apply Hsame. apply run_both in He as [->| ->]; [done|]. by case_bool_decide.
  - apply run_both in He as [->| ->]; [by apply Hsame|]. cbn in Hin. apply elem_of_union in Hin as [Hin|Hin]; [|by left].
    apply elem_of_singleton in Hin as [= -> ->]. right. by apply Hpre.
  - apply Hsame. destruct (reserveScript k0 limit0 now cutoff d) as [d1 code] eqn:Hr'. apply run_both in He as [->| ->]; [done|].
    by destruct (reserve_cases _ _ _ _ _ _ _ Hr') as [[-> _]|(_ & _ & _ & _ & ->)].
  - apply Hsame. destruct x; try done. by injection He as <- _.
Qed.

(** Between two calls of the waiting request. *)
Definition meanwhile (h : holds) (d d' : db) : Prop := rely h d d' ∧ published_ok d'.

Lemma redis_meanwhile e w w' : world_inv w → published_ok (w_db w) → move tries polls error_text limit m e w = Some w' → meanwhile nothing (w_db w) (w_db w').
Proof using.
  intros W Hp He. destruct e as [o|j x|t].
  - cbn [move] in He. injection He as <-. by split.
  - apply ecall_inv in He as (jb & A & c & q & d1 & a & Hj & Eq & _ & _ & Ee & ->). destruct (job_pre w j jb A c q W Hj Eq) as (Hh & Hpre & _).
    split; [eapply bystander; [exact Hh|exact Hpre|apply W|exact Ee]|eapply exec_published; [exact Hh|exact Hpre|apply W|exact Ee|exact Hp]].
  - apply tick_inv in He as (Ht & _ & ->). assert (Hr : rely nothing (w_db w) (with_clock (clock (w_db w) + t) (w_db w))) by (apply clock_rely; lia).
    split; [done|]. intros H k0 t0 Hin. apply (re_ended _ _ _ Hr). by apply Hp.
Qed.

Section waiting.
Context (k : key) (tid : nat).

Definition simple_pre A (c : call A) (_ : holds) (_ : db) : Prop := is_simple A c = true.

Notation wwp := (Prog.wp meanwhile simple_pre answers).

Definition over (_ : holds) (d : db) (r : result api_err unit) : Prop := r = Ok () → ended d k tid.

Lemma meanwhile_ended h d d' t : meanwhile h d d' → ended d k t → ended d' k t.
Proof using. intros [H _]. apply (re_ended _ _ _ H). Qed.

Lemma quiet_over {A} (p : prog A) h d : quiet p any → ended d k tid → wwp p (λ _ d' _, ended d' k tid) h d.
Proof using.
  revert d. induction p as [r|B c p IH]; intros d Hq Hd; cbn; [done|]. destruct Hq as [Hc Hq]. intros d1 Hr. split; [done|].
  intros a h' d2 (x & He & _ & ->). rewrite (simple_hold c h a Hc). apply IH; [done|].
  apply (re_ended _ _ _ (simple_rely c h x d1 d2 a Hc He)). by eapply meanwhile_ended.
Qed.

Lemma check_over h d : ended d k tid → wwp (checkTransitionResult k tid) over h d.
Proof using. intros Hd. eapply prog_wp_mono; [|by apply quiet_over; [apply check_quiet|]]. intros h' d' r H _. exact H. Qed.

(** A read that finds another transition, or none. *)
Lemma read_over h d (f : result unit (option nat) → prog (result api_err unit)) : m = Reliable → (tid < next d)%nat →
  (∀ d' r, still_running r tid = true → (tid < next d')%nat → wwp (f r) over h d') →
  (∀ d' r, still_running r tid = false → ended d' k tid → wwp (f r) over h d') → wwp (perform (GetTransition k) ≫= f) over h d.
Proof using.
  intros Hm Hlt Hyes Hno. apply prog_wp_bind, prog_wp_perform. intros d1 [Hr _]. split; [done|]. intros a h' d2 (x & He & Hx & ->). cbn [exec hold] in *.
  apply rely_next in Hr. apply run_cases in He as [[-> ->]|(_ & _ & late & ->)]; [|by rewrite Hm in Hx].
  destruct (still_running (Ok (transition_of d1 k)) tid) eqn:E; [apply Hyes; [done|lia]|]. apply Hno; [done|]. split; [|lia].
  intros Ht. rewrite Ht in E. cbn in E. by rewrite bool_decide_eq_true_2 in E.
Qed.

Lemma wait_loop_over n h d : m = Reliable → (tid < next d)%nat → wwp (wait_loop n k tid) over h d.
Proof using.
  intros Hm. revert d. induction n as [|n IH]; intros d Hlt; cbn [wait_loop]; apply prog_wp_bind, prog_wp_perform; intros d1 [Hr Hp]; (split; [done|]);
    intros w h' d2 (x & He & _ & ->); cbn [exec hold] in *; apply rely_next in Hr; apply wakes_cases in He as [-> Hw]; destruct w; try done.
  1,3: apply check_over; apply Hp; [done|]; specialize (Hw eq_refl); by apply bool_decide_eq_true in Hw.
  all: apply read_over; [done|lia|intros d' r E Hlt'; rewrite E; first [done|by apply IH]|intros d' r E Hd; rewrite E; by apply check_over].
Qed.

Lemma WaitForStateChange_over n h d : m = Reliable → (tid < next d)%nat → transition_of d k = Some tid ∨ ended d k tid →
  wwp (WaitForStateChange n k) over h d.
Proof using.
  intros Hm Hlt _. unfold WaitForStateChange, check, try_call. apply prog_wp_bind, prog_wp_bind, prog_wp_perform. intros d1 [Hr _]. split; [done|].
  intros a h' d2 (x & He & Hx & ->). cbn [exec hold] in *. apply rely_next in Hr. apply run_cases in He as [[-> ->]|(_ & _ & late & ->)]; [|by rewrite Hm in Hx].
  cbn [command Prog.wp]. destruct (decide (transition_of d1 k = Some tid)) as [E|E].
  - rewrite E. apply read_over; [done|lia|intros d' r E' Hlt'; rewrite E'; by apply wait_loop_over|intros d' r E' Hd; rewrite E'; by apply check_over].
  - assert (Hd : ended d1 k tid) by (split; [done|lia]). destruct (transition_of d1 k) as [t|]; [|by intros _].
    eapply prog_wp_mono; [|by apply quiet_over; [apply waitForTransition_quiet|]]. intros h' d' r H _. exact H.
Qed.

Context (i : nat).

Definition waiter_ok (w : world) : Prop :=
  ∃ o p, w_jobs w !! i = Some (mkJob o p nothing) ∧ wwp p (λ _ d' r, r = OUnit (Ok ()) → ended d' k tid) nothing (w_db w).

Lemma waiter_later (w w' : world) o p (Q : holds → db → outcome (R:=R) → Prop) :
  Q = (λ _ d' r, r = OUnit (Ok ()) → ended d' k tid) → meanwhile nothing (w_db w) (w_db w') →
  w_jobs w' !! i = Some (mkJob o p nothing) → wwp p Q nothing (w_db w) → waiter_ok w'.
Proof using.
  intros -> Hr Hi Hp. exists o, p. split; [done|]. eapply prog_wp_rely; [| |exact Hr|exact Hp].
  - intros h d1 d2 d3 [A _] [B P]. split; [by etrans|done].
  - intros d1 d2 r A H E. eapply meanwhile_ended; [exact A|auto].
Qed.

Lemma waiter_move e w w' : m = Reliable → world_inv w → published_ok (w_db w) → waiter_ok w →
  move tries polls error_text limit m e w = Some w' → waiter_ok w'.
Proof using.
  intros Hm W Hp (o & p & Hi & Hw) He. destruct (redis_meanwhile e w w' W Hp He) as [Hr Hp'].
  destruct e as [o'|j x|t].
  - cbn [move] in He. injection He as <-. eapply (waiter_later w); [done|done| |exact Hw]. cbn. by apply lookup_app_l_Some.
  - apply ecall_inv in He as (jb & A & c & q & d1 & a & Hj & Eq & _ & Hx & Ee & ->). destruct (decide (j = i)) as [->|Hne].
    + rewrite Hi in Hj. injection Hj as <-. cbn [j_prog j_holds j_op] in *. subst p.
      destruct (Hw (w_db w)) as [Hc Hk]; [by split|]. specialize (Hk a _ d1 (ex_intro _ x (conj Ee (conj Hx eq_refl)))).
      unfold simple_pre in Hc. rewrite (simple_hold c nothing a Hc) in *. exists o, (q a). split; [|exact Hk].
      apply spawned_lookup. cbn [w_jobs]. rewrite list_lookup_insert_eq by (by eapply lookup_lt_Some). unfold settle. cbn. by destruct (q a).
    + eapply (waiter_later w); [done|done|apply spawned_lookup; cbn; by rewrite list_lookup_insert_ne|exact Hw].
  - apply tick_inv in He as (_ & _ & ->). by eapply (waiter_later w).
Qed.

Lemma waiter_steps w w' : m = Reliable → world_inv w → published_ok (w_db w) → waiter_ok w → steps w w' → waiter_ok w'.
Proof using.
  intros Hm H1 H2 H3 Hs. induction Hs as [|w1 w2 w3 [e He] _ IH]; [done|].
  apply IH; [by eapply redis_move_inv; [rewrite Hm|exact H1|exact He]|by eapply redis_meanwhile|by eapply waiter_move].
Qed.
End waiting.

Lemma published_steps d w : m = Reliable → consistent d → steps (mkWorld d []) w → published_ok (w_db w).
Proof using.
  intros Hm Hd. assert (Hp : published_ok d) by (intros _ k tid; apply Hd). apply consistent_inv in Hd.
  assert (Ht : is_clean m = true) by by rewrite Hm. change d with (w_db (mkWorld d [])) in Hp. revert Hp Hd. generalize (mkWorld d []). intros w0 Hp Hd Hs.
  induction Hs as [|w1 w2 w3 [e He] _ IH]; [done|]. apply IH; [by eapply redis_meanwhile|by eapply redis_move_inv].
Qed.

(** C34. A request that waits for a sandbox to change state waits: when a
    transition is in progress as [WaitForStateChange] is called, and the call
    later returns without an error, that transition is over, as long as no
    command fails, nothing outlives its deadline and no removal releases the
    reservation of a later start. *)
Theorem Waits_for_the_transition d w1 w1' w2 k tid o h : m = Reliable → consistent d → steps (mkWorld d []) w1 →
  transition_of (w_db w1) k = Some tid → move tries polls error_text limit m (ESpawn (OpWait k)) w1 = Some w1' → steps w1' w2 →
  w_jobs w2 !! length (w_jobs w1) = Some (mkJob o (Ret (OUnit (Ok ()))) h) → transition_of (w_db w2) k ≠ Some tid.
Proof using.
  intros Hm Hd Hs1 Ht Hmv Hs2 Hj. assert (Htm : is_clean m = true) by by rewrite Hm.
  pose proof (redis_steps_inv d w1 Htm Hd Hs1) as H1. pose proof (redis_move_inv _ _ _ Htm H1 Hmv) as H1'.
  pose proof (published_steps d w1 Hm Hd Hs1) as Hp. cbn [move] in Hmv. injection Hmv as <-.
  destruct (waiter_steps k tid (length (w_jobs w1)) _ w2 Hm H1' Hp) as (o2 & p2 & Hi & Hw); [|exact Hs2|].
  - exists (OpWait k), (program tries polls error_text limit (OpWait k)). split; [by apply list_lookup_middle|]. cbn [program w_db].
    apply prog_wp_bind. eapply prog_wp_mono; [|apply (WaitForStateChange_over k tid polls); [done|by eapply (di_next _ _ (proj1 H1))|by left]].
    intros h' d' r Hr [= ->]. by apply Hr.
  - rewrite Hj in Hi. injection Hi as _ <- _. destruct (Hw eq_refl) as [Hend _]. exact Hend.
Qed.
End safe.
