(* ===== verification/RedisStuck.v ===== *)
(** * RedisStuck: a removal that is left is never taken up

    An instance that dies while it kills a sandbox, or whose request is
    cancelled before the storage is told, leaves the sandbox in the store in
    the state [killing] and nobody with its callback.  [ExpiredItems] returns
    such a sandbox, an hour later, to have it removed; the executions of
    [Redis] show that no request ever removes it. *)

From stdpp Require Import relations.
From S2P Require Import Prelude Lifecycle Prog Redis RedisSafe.

Section stuck.
Context {R : Type}.
Notation sandbox := (Sandbox R).
Notation call := (call (R:=R)).
Notation db := (db (R:=R)).
Notation prog := (prog call).
Open Scope prog_scope.
Context (k : key) (m : mode).

Definition stuck (d : db) : Prop := ∃ s, sandboxes d !! k = Some s ∧ St s = StateKilling ∧ k.2 ∈ members d k.1.

(** Others leave it stuck, and so does a request that does not remove it, start
    it or take it out of its state. *)
Definition meanwhile (_ : holds) (_ d' : db) : Prop := stuck d'.

Definition keeps A (c : call A) (_ : holds) (_ : db) : Prop :=
  match c with
  | SetSandbox k' s => k' = k → St s = StateKilling
  | AddSandboxScript k' _ | RemoveSandboxScript k' | StartTransitionScript k' _ => k' ≠ k
  | _ => True
  end.

Notation wp := (Prog.wp meanwhile keeps (answers m)).

Lemma insert_stuck (d : db) k' s : (k' = k → St s = StateKilling) → stuck d → stuck (put_sandbox k' s d).
Proof using.
  intros Hk (s0 & Hs & Hst & Hm). destruct (decide (k' = k)) as [->|Hne].
  - exists s. split_and!; [by apply lookup_insert_eq|auto|done].
  - exists s0. split_and!; [cbn; by rewrite lookup_insert_ne|done|done].
Qed.

Lemma exec_stuck A (c : call A) x h d d' a : keeps A c h d → exec c x d = Some (d', a) → stuck d → stuck d'.
Proof using.
  intros Hk He Hd. assert (Hsame : sandboxes d' = sandboxes d → index d' = index d → stuck d').
  { intros E1 E2. destruct Hd as (s & Hs & Hst & Hm). exists s. unfold members in *. by rewrite E1, E2. }
  destruct (is_simple A c) eqn:Hc; [by apply Hsame; destruct (simple_exec c x d d' a Hc He) as (? & _ & _ & _ & ?)|].
  destruct c; try discriminate Hc; cbn [exec keeps] in *;
    try (first [apply says_cases in He as ->|apply run_both in He as [->| ->]]; by apply Hsame).
  - destruct (holder d l); [destruct x; try done; injection He as <- _; by apply Hsame|]. apply run_both in He as [->| ->]; by apply Hsame.
  - apply run_both in He as [->| ->]; [by apply Hsame|]. case_bool_decide; by apply Hsame.
  - apply run_both in He as [->| ->]; [by apply Hsame|]. by apply insert_stuck.
  - apply run_both in He as [->| ->]; [by apply Hsame|]. destruct Hd as (s0 & Hs & Hst & Hm). exists s0. split_and!; [cbn; by rewrite lookup_insert_ne|done|].
    unfold addSandboxScript. change (put_sandbox k0 s d) with (with_sandboxes (<[k0 := s]> (sandboxes d)) d). rewrite members_insert. case_decide as E; [rewrite <- E; set_solver|done].
  - apply run_both in He as [->| ->]; [by apply Hsame|]. destruct Hd as (s0 & Hs & Hst & Hm). exists s0. split_and!; [cbn; by rewrite lookup_delete_ne|done|].
    unfold removeSandboxScript. rewrite members_insert. case_decide as E; [|done]. pose proof (pair_ne k0 k (not_eq_sym Hk) E). rewrite <- E. set_solver.
  - apply run_both in He as [->| ->]; [by apply Hsame|]. apply (insert_stuck d k0 s); [done|exact Hd].
  - destruct (reserveScript k0 limit now cutoff d) as [d1 code] eqn:Hr. apply run_both in He as [->| ->]; [by apply Hsame|].
    by destruct (reserve_cases _ _ _ _ _ _ _ Hr) as [[-> _]|(_ & _ & _ & _ & ->)]; apply Hsame.
  - destruct x; try done. injection He as <- _. by apply Hsame.
Qed.

(** ** The programs *)

(** What a call needs, and what its answer tells while [k] is stuck. *)
Lemma stuck_call {A} (c : call A) (Q : holds → db → A → Prop) h d : (∀ d1, keeps A c h d1) →
  (∀ d1 x d2 a, stuck d1 → exec c x d1 = Some (d2, a) → Q (hold c h a) d2 a) → wp (perform c) Q h d.
Proof using. intros Hc HQ. apply prog_wp_perform. intros d1 H1. split; [apply Hc|]. intros a h' d2 (x & He & _ & ->). by eapply HQ. Qed.

Lemma simple_call {A} (c : call A) (Q : holds → db → A → Prop) h d : is_simple A c = true → (∀ h' d' a, Q h' d' a) → wp (perform c) Q h d.
Proof using. intros Hc HQ. apply stuck_call; [intros; by destruct c|]. intros. apply HQ. Qed.

Lemma quiet_stuck {A} (p : prog A) (P : A → Prop) h d : quiet p P → wp p (λ _ _ r, P r) h d.
Proof using.
  revert h d. induction p as [r|B c p IH]; cbn; intros h d; [done|]. intros [Hc Hp] d1 _. split; [by destruct c|]. intros a h' d2 _. apply IH, Hp.
Qed.

Definition harmless {A} (p : prog A) : Prop := ∀ h d, wp p (λ _ _ _, True) h d.

Lemma harmless_quiet {A} (p : prog A) : quiet p any → harmless p.
Proof using. intros Hp h d. eapply prog_wp_mono; [|by apply quiet_stuck]. done. Qed.

Lemma harmless_bind {A B} (p : prog A) (f : A → prog B) : harmless p → (∀ a, harmless (f a)) → harmless (p ≫= f).
Proof using. intros Hp Hf h d. apply prog_wp_bind. eapply prog_wp_mono; [|apply Hp]. intros h' d' a _. apply Hf. Qed.

Lemma harmless_call {A B} (c : call A) (f : A → prog B) : (∀ h d, keeps A c h d) → (∀ a, harmless (f a)) → harmless (perform c ≫= f).
Proof using. intros Hc Hf h d. apply prog_wp_bind, stuck_call; [done|]. intros *  _ _. apply Hf. Qed.

Lemma harmless_check {E A B} (p : prog (result E A)) (f : A → prog (result E B)) : harmless p → (∀ a, harmless (f a)) → harmless (check p f).
Proof using. intros Hp Hf. apply harmless_bind; [done|]. intros [a|e]; [apply Hf|done]. Qed.

Lemma with_lock_wp {A} l (failed : A) (body : prog A) (P : A → Prop) h d : P failed →
  (∀ h d, wp body (λ _ _ r, P r) h d) → wp (with_lock l failed body) (λ _ _ r, P r) h d.
Proof using.
  intros Hf Hb. apply prog_wp_bind, stuck_call; [done|]. intros d1 x d2 [token|[]] _ _; [|done].
  apply prog_wp_bind. eapply prog_wp_mono; [|apply Hb]. intros h' d' r Hr. by apply prog_wp_bind, stuck_call.
Qed.

Lemma get_stuck k' (Q : holds → db → result unit (option sandbox) → Prop) h d :
  (∀ d' r, (∀ s, r = Ok (Some s) → k' = k → St s = StateKilling) → Q h d' r) → wp (perform (GetSandbox k')) Q h d.
Proof using.
  intros HQ. apply stuck_call; [done|]. intros d1 x d2 a Hd He. cbn [exec hold] in *. apply HQ. intros s -> ->.
  apply run_cases in He as [[_ [= E]]|(_ & ? & _)]; [|done]. destruct Hd as (s' & Hs & Hst & _). rewrite Hs in E. by injection E as ->.
Qed.

Lemma killing_stays st st' : follows st st' → st = StateKilling → st' = StateKilling.
Proof using. intros [<-|Ha] ->; [done|by destruct st']. Qed.

Lemma Update_harmless k' f : state_ok f → harmless (Update k' f).
Proof using.
  intros Hf h d. apply with_lock_wp; [done|]. intros h1 d1. unfold update_locked, check, try_call.
  apply prog_wp_bind, prog_wp_bind, get_stuck. intros d2 r Hr. destruct r as [[s|]|[]]; [|done..]. cbn [command Prog.wp].
  apply prog_wp_bind. eapply prog_wp_mono; [|apply quiet_stuck, Hf]. cbn beta. intros h3 d3 [s'|e] Hs; [|done].
  apply prog_wp_bind, prog_wp_bind, stuck_call; [intros _ E; eapply killing_stays; [exact Hs|by apply Hr]|]. intros d4 x d5 [[]|[]] _ _; [|done].
  cbn [command Prog.wp]. case_match; [done|]. apply prog_wp_bind, prog_wp_bind, simple_call; [done|]. by intros h6 d6 [[]|[]].
Qed.

Lemma locked_stuck k' opts h d :
  wp (startRemoving_locked k' opts) (λ _ _ c, k' = k → ∀ s tid, c ≠ Decided (Owning s tid)) h d.
Proof using.
  apply prog_wp_bind, get_stuck. intros d1 r Hr. destruct r as [[s|]|[]]; [|done..]. specialize (Hr s eq_refl).
  apply prog_wp_bind, stuck_call; [done|]. intros d2 x d3 [tid|[]] _ _; [|done].
  apply prog_wp_bind. eapply prog_wp_mono; [|by apply quiet_stuck, (eviction_check_quiet opts s tid any)].
  cbn beta. intros h4 d4 refused _. destruct refused as [e|]; [done|]. destruct tid as [tid|]; [done|]. cbn zeta.
  destruct (bool_decide (St s = TargetState (Action opts))); [done|].
  destruct (AllowedTransitions (St s) (TargetState (Action opts))) eqn:Ha; [|done]. cbn [negb].
  assert (Hne : k' ≠ k) by (intros E; rewrite (Hr E) in Ha; by destruct (TargetState (Action opts))).
  apply prog_wp_bind. eapply prog_wp_mono; [|apply quiet_stuck, updated_quiet]. cbn beta. intros h5 d5 s' _.
  apply prog_wp_bind, stuck_call; [done|]. intros d6 x' d7 r _ _ E. by destruct Hne.
Qed.

Lemma StartRemoving_stuck tries polls k' opts h d :
  wp (StartRemoving tries polls k' opts) (λ _ _ r, k' = k → ∀ s tid, r ≠ Owning s tid) h d.
Proof using.
  unfold StartRemoving. revert opts h d. induction tries as [|tries IH]; intros opts h d; cbn [StartRemoving_loop]; apply prog_wp_bind.
  all: eapply prog_wp_mono; [|apply (with_lock_wp _ _ _ (λ c, k' = k → ∀ s tid, c ≠ Decided (Owning s tid))); [done|by apply locked_stuck]].
  all: cbn beta; intros h1 d1 [r|s tid] Hc; [cbn [Prog.wp]; intros E s t ->; by eapply Hc|].
  all: unfold handleExistingTransition; repeat case_match; try done.
  all: apply prog_wp_bind; (eapply prog_wp_mono; [|by apply quiet_stuck, (waitForTransition_quiet polls k' tid any)]).
  all: cbn beta; intros h2 d2 [[]|e] _; done.
Qed.

Context (polls tries : nat) (error_text : api_err → string).

Lemma createCallback_harmless k' tid a cbErr : transient_ok a → harmless (createCallback error_text k' tid a cbErr).
Proof using.
  intros Ha. assert (Hend : ∀ v, harmless (with_lock (LockTransition k') () (_ ←! SetResult k' tid v; _ ←! DelTransition k'; _ ←! Publish k' tid; Ret ()))).
  { intros v h d. apply (with_lock_wp _ _ _ (λ _, True)); [done|]. intros h1 d1. by repeat (apply harmless_call; [done|intros _]). }
  apply harmless_bind; [|intros e; apply Hend]. destruct (Effect a) eqn:Ea; [done|]. destruct cbErr; [done|].
  rewrite (Ha Ea). apply harmless_bind; [apply Update_harmless, restore_ok|done].
Qed.

Lemma RemoveSandbox_harmless k' opts : transient_ok (Action opts) → harmless (RemoveSandbox tries polls error_text k' opts).
Proof using.
  intros Ha h d. apply prog_wp_bind. eapply prog_wp_mono; [|apply StartRemoving_stuck]. cbn beta. intros h1 d1 [s e|s|s tid] Hr; [done..|].
  assert (Hne : k' ≠ k) by (intros E; by eapply Hr). apply harmless_call; [done|]. intros err. apply harmless_bind; [|intros _; apply harmless_bind; [by apply createCallback_harmless|by destruct err]].
  apply harmless_bind; [|intros r; by apply harmless_call]. intros h2 d2. apply (with_lock_wp _ _ _ (λ _, True)); [done|]. intros h3 d3.
  apply harmless_check; [by apply harmless_call; [|intros []]|]. intros _. by apply harmless_call.
Qed.

Lemma CreateSnapshotTemplate_harmless k' : harmless (CreateSnapshotTemplate tries polls error_text k').
Proof using.
  intros h d. apply prog_wp_bind. eapply prog_wp_mono; [|apply StartRemoving_stuck]. cbn beta. intros h1 d1 [s e|s|s tid] Hr; [done..|].
  assert (Hc : ∀ cbErr, harmless (createCallback error_text k' tid StateActionSnapshot cbErr)) by (intros; by apply createCallback_harmless).
  apply harmless_call; [done|]. intros [|]; cbn [negb]; [|by apply harmless_bind]. apply harmless_call; [done|]. intros [msg|].
  - apply harmless_bind; [done|]. intros _. apply harmless_bind; [by apply RemoveSandbox_harmless|done].
  - apply harmless_call; [done|]. intros r. by apply harmless_bind.
Qed.

(** A reservation of a sandbox that is in the store is refused. *)
Lemma Reserve_stuck k' limit h d : wp (Reserve (R:=R) k' limit) (λ _ _ r, r = Ok Reserved → k' ≠ k) h d.
Proof using.
  apply prog_wp_bind, simple_call; [done|]. intros h1 d1 now. apply prog_wp_bind, simple_call; [done|]. intros h2 d2 now'.
  unfold check, try_call. apply prog_wp_bind, prog_wp_bind, stuck_call; [done|]. intros d3 x d4 [code|[]] Hd He; [|done]. cbn [command Prog.wp exec] in *.
  intros H ->. destruct (reserveScript k limit (Unix now) (Unix (now' - staleTTL)) d3) as [d5 code'] eqn:Hr.
  apply run_cases in He as [[_ [= ->]]|(_ & ? & _)]; [|done]. destruct (reserve_cases _ _ _ _ _ _ _ Hr) as [[_ Hne]|(-> & Hm & _)].
  - destruct (code' =? reserveResultReserved) eqn:E; [unfold reserveResultReserved in *; lia|]. repeat case_match; done.
  - by destruct Hd as (s & _ & _ & ?).
Qed.

Lemma CreateSandbox_harmless k' limit timeout : harmless (CreateSandbox polls k' limit timeout).
Proof using.
  intros h d. unfold CreateSandbox, check. apply prog_wp_bind. eapply prog_wp_mono; [|apply Reserve_stuck]. cbn beta. intros h1 d1 [[]|e] Hr; [| | |done].
  - specialize (Hr eq_refl). apply harmless_bind; [|intros [s|e]; (apply harmless_bind; [|done]); by apply harmless_call].
    apply harmless_call; [done|]. intros [p|e]; [|done]. apply harmless_call; [done|]. intros now. apply harmless_bind; [|intros [|]; [done|by apply harmless_call]].
    set (s := new_sandbox k' p now (now + timeout)). assert (Ek : (TeamID (Store.capped s), SandboxID (Store.capped s)) = k') by (unfold Store.capped; case_match; by destruct k').
    unfold StoreAdd, Add. rewrite Ek. apply harmless_bind; [|intros [|]; [by apply harmless_call|done]].
    apply harmless_check; [by apply harmless_call; [|intros []]|]. intros _. apply harmless_check; [by apply harmless_call; [|intros []]|]. intros _.
    apply harmless_call; [done|]. intros t. by apply harmless_call.
  - apply harmless_check; [by apply harmless_quiet, Get_quiet|done].
  - by apply harmless_quiet, waitForStart_quiet.
Qed.

Lemma program_harmless limit o : harmless (program tries polls error_text limit o).
Proof using.
  assert (Hq : ∀ A (p : prog A) (f : A → outcome (R:=R)), quiet p any → harmless (r ← p; Ret (f r))).
  { intros A p f Hp. apply harmless_bind; [by apply harmless_quiet|done]. }
  destruct o; cbn [program]; try (apply harmless_bind; [|done]).
  - apply CreateSandbox_harmless.
  - apply RemoveSandbox_harmless. by destruct pause.
  - apply RemoveSandbox_harmless. by destruct autoPause.
  - apply CreateSnapshotTemplate_harmless.
  - apply harmless_call; [done|]. intros now. apply harmless_check; [apply Update_harmless, keep_alive_ok|]. intros s. by apply harmless_call.
  - apply harmless_check; [apply Update_harmless, set_egress_ok|]. intros s. by apply harmless_call.
  - by apply harmless_quiet, Get_quiet.
  - by apply harmless_quiet, WaitForStateChange_quiet.
  - apply harmless_quiet, auto_resume_quiet.
  - apply harmless_quiet, ExpiredItems_quiet.
  - apply harmless_quiet, TeamItems_quiet.
  - apply harmless_quiet, TeamsWithSandboxCount_quiet.
  - apply harmless_quiet, StoreReconcile_quiet.
  - by apply harmless_call.
Qed.

(** ** Executions *)

Context (limit : string → Z).
Notation world := (world (R:=R)).

Definition stuck_inv (w : world) : Prop := stuck (w_db w) ∧ ∀ i j, w_jobs w !! i = Some j → wp (j_prog j) (λ _ _ _, True) (j_holds j) (w_db w).

Lemma stuck_move e w w' : stuck_inv w → move tries polls error_text limit m e w = Some w' → stuck_inv w'.
Proof using.
  intros [Hs HJ] He.
  assert (Hlater : ∀ d h p, stuck d → wp p (λ _ _ (_ : outcome (R:=R)), True) h (w_db w) → wp p (λ _ _ _, True) h d).
  { intros d h p Hd. by apply prog_wp_rely. }
  destruct e as [o|i x|t].
  - cbn [move] in He. injection He as <-. split; [done|]. intros i j Hi. apply lookup_app_Some in Hi as [Hi|[_ Hi]]; [by eapply HJ|].
    apply list_lookup_singleton_Some in Hi as [_ <-]. apply program_harmless.
  - apply ecall_inv in He as (j & A & c & p & d & a & Hi & Ep & _ & Hx & Ee & ->). pose proof (HJ i j Hi) as Hj. rewrite Ep in Hj.
    destruct (Hj (w_db w) Hs) as [Hk Hp]. assert (Hd : stuck d) by by eapply exec_stuck. split; [done|]. cbn [spawned w_jobs w_db].
    intros n jn Hn. apply lookup_app_Some in Hn as [Hn|[_ Hn]]; [|by apply list_lookup_fmap_Some in Hn as (o & -> & _); apply program_harmless]. apply list_lookup_insert_Some in Hn as [(<- & <- & _)|(_ & Hn)]; [|by eapply Hlater, HJ].
    unfold settle. cbn. destruct (p a) as [r|B c' p'] eqn:Epa; [done|]. cbn [j_prog j_holds]. rewrite <- Epa. apply Hp. by exists x.
  - apply tick_inv in He as (_ & _ & ->). assert (Hd : stuck (with_clock (clock (w_db w) + t) (w_db w))) by exact Hs.
    split; [done|]. intros i j Hi. by eapply Hlater, HJ.
Qed.

(** C35. A sandbox that is in the store in the state [killing] while no request
    is at work stays there in that state for good: no request of any instance,
    to kill, evict, resume, or reconcile, removes it or frees its name and its
    place in the limit of its team, whatever fails and however long it takes. *)
Theorem Killing_without_owner_stays (d : db) (w : world) (s : sandbox) : sandboxes d !! k = Some s → St s = StateKilling → k.2 ∈ members d k.1 →
  steps limit m polls error_text tries (mkWorld d []) w →
  ∃ s', sandboxes (w_db w) !! k = Some s' ∧ St s' = StateKilling ∧ k.2 ∈ members (w_db w) k.1.
Proof using.
  intros Hs Hst Hm Hw. assert (H0 : stuck_inv (mkWorld d [])) by (split; [by exists s|done]).
  assert (H : ∀ w0, steps limit m polls error_text tries w0 w → stuck_inv w0 → stuck (w_db w)); [|exact (H _ Hw H0)].
  intros w0 Hw0. induction Hw0 as [w0|w1 w2 w3 [e He] _ IH]; intros H1; [apply H1|]. apply IH; [done|by eapply stuck_move].
Qed.
End stuck.
