(* ===== verification/RedisRuns.v ===== *)
(** * RedisRuns: executions of the shared store

    A driver that runs the requests of [Redis] call by call, the executions at
    which the theorems of [RedisSafe] and [RedisStuck] are applied, and the
    ones that show what happens outside their conditions: a removal that takes
    longer than its key lives, a reservation the removal before it releases,
    and what follows from that, the kill of a refused sandbox that meets the
    next start, a failed read that ends a wait, and an index entry that a
    removal drops from under the sandbox that was started after it. *)

From stdpp Require Import relations.
From S2P Require Import Prelude Lifecycle Prog Redis RedisSafe RedisStuck.

(** ** Runs *)

(** The requests of a run take their calls in turns, as the acts say. *)
Inductive act :=
| Spawn (o : op (R:=unit))
| Calls (i n : nat)
| Choose (i : nat) (x : choice (R:=unit))
| Wait (t : Z).

Definition sample_place : placed (R:=unit) := mkPlaced "node" (3600 * second) false ().

(** What a call gets when nothing goes wrong; all clocks show 1000 s. *)
Definition usual {A} (c : call (R:=unit) A) : choice (R:=unit) :=
  match c with
  | Now => Clock (1000 * second)
  | WaitSignal _ _ | Sleep => Wakes WakeTick
  | PlaceSandbox _ => Places (Ok sample_place)
  | RemoveFromNode _ _ | PrepareSnapshot _ | Checkpoint _ | RecordSnapshot _ | FindNode _ | BudgetExceeded | UpdateNode _ | KillOnNode _ | GoKill _ | AddToRoutingTable _ => NodeSays None
  | _ => Go
  end.

Definition sample_limit (team : string) : Z := 2.
Definition sample_text (e : api_err) : string := "error".
Definition sample_move (m : mode) := move (R:=unit) 1 1 sample_text sample_limit m.

Fixpoint calls (m : mode) (i n : nat) (w : world (R:=unit)) : option (world (R:=unit)) :=
  match n with
  | O => Some w
  | S n =>
      j ← w_jobs w !! i;
      match j_prog j with
      | Ret _ => None
      | Do c _ => w ← sample_move m (ECall i (usual c)) w; calls m i n w
      end
  end.

Definition perform_act (m : mode) (a : act) (w : world (R:=unit)) : option (world (R:=unit)) :=
  match a with
  | Spawn o => sample_move m (ESpawn o) w
  | Calls i n => calls m i n w
  | Choose i x => sample_move m (ECall i x) w
  | Wait t => sample_move m (ETick t) w
  end.

Fixpoint run_acts (m : mode) (l : list act) (w : world (R:=unit)) : option (world (R:=unit)) :=
  match l with [] => Some w | a :: l => w ← perform_act m a w; run_acts m l w end.

Definition empty_db : db (R:=unit) := mkDb ∅ ∅ ∅ ∅ ∅ ∅ ∅ ∅ ∅ ∅ 0 0.
Definition empty_world : world (R:=unit) := mkWorld empty_db [].

Notation sample_steps m := (steps sample_limit m 1 sample_text 1).

Lemma calls_steps m i n w w' : calls m i n w = Some w' → sample_steps m w w'.
Proof.
  revert w. induction n as [|n IH]; intros w; cbn [calls]; [by intros [= <-]|]. destruct (w_jobs w !! i) as [j|]; [|done]. cbn [mbind option_bind].
  destruct (j_prog j) as [r|A c p]; [done|]. destruct (sample_move m (ECall i (usual c)) w) as [w1|] eqn:E; [|done]. cbn [mbind option_bind]. intros H.
  eapply rtc_l; [by exists (ECall i (usual c))|by apply IH].
Qed.

Lemma run_steps m l w w' : run_acts m l w = Some w' → sample_steps m w w'.
Proof.
  revert w. induction l as [|a l IH]; intros w; cbn [run_acts]; [by intros [= <-]|]. destruct (perform_act m a w) as [w1|] eqn:E; [|done].
  cbn [mbind option_bind]. intros H. etrans; [|by apply IH]. destruct a; cbn [perform_act] in E; [apply rtc_once; by eexists|by eapply calls_steps|apply rtc_once; by eexists..].
Qed.

Lemma empty_consistent : consistent sample_limit empty_db.
Proof.
  split; [|done| |done].
  - intros k. unfold members. cbn. rewrite !lookup_empty. split; [by intros []|]. cbn. set_solver.
  - intros team Hl. unfold admitted, members, waiting. cbn. rewrite !lookup_empty. cbn. rewrite dom_empty_L. unfold sample_limit.
    by replace (∅ ∪ ∅ : gset string) with (∅ : gset string) by set_solver.
Qed.

Definition sample_key : key := ("team", "sbx")%string.
Definition created : list act := [Spawn (OpCreate sample_key (600 * second)); Calls 0 11].

(** A kill at the node, and a second one that waits for it. *)
Definition contended : list act :=
  created ++ [Spawn (OpRemove sample_key false); Spawn (OpRemove sample_key false); Calls 1 6; Calls 2 5].
Definition kill_ends : list act := [Calls 1 11].

Definition state_at {A} (m : mode) (l : list act) (f : world (R:=unit) → option A) : option A := w ← run_acts m l empty_world; f w.

Definition at_job (i : nat) (w : world (R:=unit)) : option key := w_jobs w !! i ≫= on_node.
Definition answer (i : nat) (w : world (R:=unit)) : option (outcome (R:=unit)) := j ← w_jobs w !! i; returned (j_prog j).
Definition stored (w : world (R:=unit)) : option (Sandbox unit) := sandboxes (w_db w) !! sample_key.

Lemma run_Some {A} m l w0 (f : world (R:=unit) → option A) a : (w ← run_acts m l w0; f w) = Some a → ∃ w, run_acts m l w0 = Some w ∧ f w = Some a.
Proof. destruct (run_acts m l w0) as [w|]; [|done]. intros H. by exists w. Qed.

Lemma Node_operations_exclusive_witness :
  ∃ w, sample_steps Reliable empty_world w ∧ at_node w 1 sample_key ∧ ∀ j, at_node w j sample_key → j = 1%nat.
Proof.
  destruct (run_Some Reliable contended empty_world (at_job 1) sample_key) as (w & E & H1); [vm_compute; reflexivity|]. apply run_steps in E as Hw.
  exists w. split; [exact Hw|]. split; [exact H1|]. intros j Hj.
  exact (Node_operations_exclusive sample_limit Reliable 1 sample_text 1 empty_db w j 1 sample_key eq_refl empty_consistent Hw Hj H1).
Defined.

Lemma Stored_states_follow_witness :
  ∃ w w' s s', sample_steps Reliable empty_world w ∧ stored w = Some s ∧ St s = StateRunning ∧ stored w' = Some s' ∧ St s' = StateKilling ∧
    follows (St s) (St s').
Proof.
  destruct (run_Some Reliable (created ++ [Spawn (OpRemove sample_key false); Calls 1 4]) empty_world
    (λ w, w' ← sample_move Reliable (ECall 1 Go) w; s ← stored w; s' ← stored w'; Some (St s, St s')) (StateRunning, StateKilling)) as (w & E & H); [vm_compute; reflexivity|].
  destruct (sample_move Reliable (ECall 1 Go) w) as [w'|] eqn:Em; [|discriminate H]. cbn [mbind option_bind] in H.
  destruct (stored w) as [s|] eqn:Es; [|discriminate H]. cbn [mbind option_bind] in H. destruct (stored w') as [s'|] eqn:Es'; [|discriminate H].
  cbn [mbind option_bind] in H. assert (E1 : St s = StateRunning) by congruence. assert (E2 : St s' = StateKilling) by congruence.
  exists w, w', s, s'. split; [by eapply run_steps|]. do 4 (split; [assumption|]).
  exact (Stored_states_follow sample_limit Reliable 1 sample_text 1 empty_db w w' sample_key s s' eq_refl empty_consistent
    (run_steps _ _ _ _ E) (ex_intro _ (ECall 1 Go) Em) Es Es').
Defined.

Lemma Team_within_limit_witness :
  ∃ w, sample_steps Reliable empty_world w ∧ is_Some (stored w) ∧ Z.of_nat (size ({["sbx"]} : gset string)) <= sample_limit "team".
Proof.
  destruct (run_Some Reliable created empty_world (λ w, const () <$> stored w) ()) as (w & E & H1); [vm_compute; reflexivity|]. apply run_steps in E as Hw.
  assert (Hs : is_Some (stored w)) by (destruct (stored w); [by eexists|discriminate H1]).
  exists w. split; [exact Hw|]. split; [exact Hs|].
  apply (Team_within_limit sample_limit Reliable 1 sample_text 1 empty_db w "team" {["sbx"]} eq_refl empty_consistent ltac:(done) Hw).
  intros id Hid. apply elem_of_singleton in Hid as ->. exact Hs.
Defined.

(** The request at [i] has returned without an error. *)
Definition succeeded (i : nat) (w : world (R:=unit)) : bool :=
  match answer i w with Some (OUnit (Ok _)) => true | _ => false end.

Definition in_progress (w : world (R:=unit)) : option nat := transition_of (w_db w) sample_key.

Definition removing : list act := created ++ [Spawn (OpRemove sample_key false); Calls 1 6].
Definition waited : list act := [Calls 2 2; Calls 1 11; Choose 2 (Wakes WakeSignal); Calls 2 1].

Lemma Waits_for_the_transition_witness :
  ∃ w1 w2 tid, sample_steps Reliable empty_world w1 ∧ in_progress w1 = Some tid ∧ succeeded 2 w2 = true ∧ in_progress w2 ≠ Some tid.
Proof.
  destruct (run_Some Reliable removing empty_world (λ w1, w1' ← sample_move Reliable (ESpawn (OpWait sample_key)) w1; w2 ← run_acts Reliable waited w1';
    Some (in_progress w1, length (w_jobs w1), (λ j, (j_prog j, j_holds j)) <$> w_jobs w2 !! 2%nat)) (Some 1%nat, 2%nat, Some (Ret (OUnit (Ok ())), nothing)))
    as (w1 & E1 & H); [vm_compute; reflexivity|].
  destruct (sample_move Reliable (ESpawn (OpWait sample_key)) w1) as [w1'|] eqn:Em; [|discriminate H]. cbn [mbind option_bind] in H.
  apply run_Some in H as (w2 & E2 & H). injection H as H1 H2 H3.
  destruct (w_jobs w2 !! 2%nat) as [j|] eqn:Ej; [|discriminate H3]. destruct j as [o p h]. cbn in H3. injection H3 as -> ->.
  exists w1, w2, 1%nat. split; [by eapply run_steps|]. split; [exact H1|]. split; [unfold succeeded, answer; rewrite Ej; reflexivity|].
  apply (Waits_for_the_transition sample_limit Reliable 1 sample_text 1 empty_db w1 w1' w2 sample_key 1 o nothing eq_refl empty_consistent (run_steps _ _ _ _ E1) H1 Em (run_steps _ _ _ _ E2)).
  rewrite H2. exact Ej.
Defined.

(** An instance stops for good in the middle of a kill. *)
Definition abandoned : db (R:=unit) := match run_acts Any removing empty_world with Some w => w_db w | None => empty_db end.

(** Two hours later it is killed again, evicted and resumed: all succeed. *)
Definition later : list act :=
  [Wait (7200 * second); Spawn (OpRemove sample_key false); Calls 0 4; Spawn OpExpired; Choose 1 (Clock (9000 * second)); Calls 1 2; Choose 1 (Clock (9000 * second));
   Spawn (OpEvict sample_key false); Calls 2 3; Choose 2 (Clock (9000 * second)); Calls 2 1; Spawn (OpCreate sample_key (600 * second)); Calls 3 4].

Definition evictable (i : nat) (w : world (R:=unit)) : bool := match answer i w with Some (OItems (Ok [s])) => bool_decide (St s = StateKilling) | _ => false end.
Definition resumed (i : nat) (w : world (R:=unit)) : bool := match answer i w with Some (OSandbox (Ok (Some s))) => bool_decide (St s = StateKilling) | _ => false end.

Lemma Killing_without_owner_stays_witness :
  ∃ w, sample_steps Any (mkWorld abandoned []) w ∧ (succeeded 0 w && evictable 1 w && succeeded 2 w && resumed 3 w) = true ∧
    ∃ s, stored w = Some s ∧ St s = StateKilling.
Proof.
  destruct (run_Some Any later (mkWorld abandoned []) (λ w, Some (succeeded 0 w && evictable 1 w && succeeded 2 w && resumed 3 w)) true) as (w & E & H); [vm_compute; reflexivity|].
  assert (H2 : bool_decide (sample_key.2 ∈ members abandoned sample_key.1) = true) by (vm_compute; reflexivity).
  assert (H1 : St <$> sandboxes abandoned !! sample_key = Some StateKilling) by (vm_compute; reflexivity).
  apply bool_decide_eq_true in H2. apply fmap_Some in H1 as (s & Es & H1).
  exists w. split; [by eapply run_steps|]. split.
  - apply (inj Some) in H. exact H.
  - destruct (Killing_without_owner_stays sample_key Any 1 1 sample_text sample_limit abandoned w s Es (eq_sym H1) H2 (run_steps _ _ _ _ E)) as (s' & H3 & H4 & _).
    exists s'. split; [exact H3|exact H4].
Defined.

(** ** Outside the conditions *)

(** A pause takes longer than its key lives: a kill joins it on the node. *)
Definition overdue : list act :=
  created ++ [Spawn (OpRemove sample_key true); Calls 1 6; Wait (71 * second); Spawn (OpRemove sample_key false); Calls 2 6].

Lemma Overdue_pause_is_joined : state_at Any overdue (λ w, Some (at_job 1 w, at_job 2 w)) = Some (Some sample_key, Some sample_key).
Proof. vm_compute. reflexivity. Qed.

(** The callback of the pause deletes the key of the kill. *)
Lemma Overdue_pause_ends_the_kill :
  state_at Any (overdue ++ [Calls 1 10]) (λ w, Some (at_job 2 w, in_progress w)) = Some (Some sample_key, None).
Proof. vm_compute. reflexivity. Qed.

(** A sandbox is resumed as its pause ends: the pause releases the reservation
    of the resume, and no deadline has passed. *)
Definition released : list act :=
  created ++ [Spawn (OpRemove sample_key true); Calls 1 11; Spawn (OpCreate sample_key (600 * second)); Calls 2 3; Calls 1 1].

(** A second resume starts it too. *)
Definition resumed_twice : list act := released ++ [Spawn (OpCreate sample_key (600 * second)); Calls 3 3].

Lemma Release_lets_two_start : state_at Timely resumed_twice (λ w, Some (at_job 2 w, at_job 3 w)) = Some (Some sample_key, Some sample_key).
Proof. vm_compute. reflexivity. Qed.

(** The two places of the team, limited to two, go to others meanwhile. *)
Definition crowded : list act :=
  released ++ [Spawn (OpCreate ("team", "a") (600 * second)); Calls 3 11; Spawn (OpCreate ("team", "b") (600 * second)); Calls 4 11; Calls 2 8]%string.

Lemma Release_exceeds_limit : state_at Timely crowded (λ w, Some (size (sandboxes (w_db w)), sample_limit "team")) = Some (3%nat, 2).
Proof. vm_compute. reflexivity. Qed.

(** One of the two starts ends and the sandbox is being killed as the other adds
    it. *)
Definition overwritten : list act := resumed_twice ++ [Calls 1 5; Calls 2 8; Spawn (OpRemove sample_key false); Calls 4 5; Calls 3 3].

Lemma Release_overwrites_killing :
  state_at Timely overwritten (λ w, Some (St <$> stored w)) = Some (Some StateKilling) ∧
  state_at Timely (overwritten ++ [Calls 3 1]) (λ w, Some (St <$> stored w)) = Some (Some StateRunning).
Proof. vm_compute. by split. Qed.

(** The storage refuses a sandbox, its start ends, and the next start is at the
    node together with the kill of the first. *)
Definition refused_kill : list act :=
  [Spawn (OpCreate sample_key (600 * second)); Calls 0 6; Choose 0 (Fails false); Calls 0 2; Spawn (OpCreate sample_key (600 * second)); Calls 2 3].

Definition killed_by (i : nat) (w : world (R:=unit)) : option key :=
  j ← w_jobs w !! i; match j_prog j with Ret _ => None | Do c _ => match c with KillOnNode k => Some k | _ => None end end.

Lemma Refused_kill_meets_next_start : state_at Clean refused_kill (λ w, Some (killed_by 1 w, at_job 2 w)) = Some (Some sample_key, Some sample_key).
Proof. vm_compute. reflexivity. Qed.

(** A failed read of the transition key ends a wait, as a success, with the
    transition still in progress. *)
Definition misread : list act := removing ++ [Spawn (OpWait sample_key); Calls 2 1; Choose 2 (Fails false); Calls 2 1].

Lemma Failed_read_ends_the_wait : state_at Timely misread (λ w, Some (succeeded 2 w, in_progress w)) = Some (true, Some 1%nat).
Proof. vm_compute. reflexivity. Qed.

(** A sandbox is resumed between the two commands of its removal, which then
    drops the entry of the resumed sandbox from the expiration index. *)
Definition resumed_early : list act :=
  created ++ [Spawn (OpRemove sample_key true); Calls 1 9; Spawn (OpCreate sample_key (600 * second)); Calls 2 11; Calls 1 1].

Lemma Resumed_sandbox_never_expires :
  state_at Reliable resumed_early (λ w, Some (St <$> stored w, expiration (w_db w) !! sample_key)) = Some (Some StateRunning, None).
Proof. vm_compute. reflexivity. Qed.
