(* ===== verification/Placement.v ===== *)
(** * Placement: the node a sandbox starts on

    Models [api/internal/orchestrator/placement] ([placement.go],
    [placement_best_of_K.go], [cpu_compatibility.go],
    [label_compatibility.go]), what it reads and writes of a node
    ([nodemanager]: [node.go], [metrics.go], [placement_metrics.go],
    [status.go]) and the CPU check of [shared/pkg/machineinfo].

    [PlaceSandbox] is a program whose calls are single reads and writes of a
    node, under the lock of the node, the draws of [rand.Intn] and the requests
    to the node.  The placements of an instance interleave call by call, with
    the reports of the nodes, changes of their status and removals of
    sandboxes.  A node is a pointer, named by its identifier.  Floating point
    is the binary64 arithmetic of [SpecFloat], without fused operations. *)

From stdpp Require Import relations functions.
From Stdlib Require Import SpecFloat.
From S2P Require Import Prelude Prog.

(** ** [float64] *)

Definition f_add : spec_float → spec_float → spec_float := SFadd 53 1024.
Definition f_mul : spec_float → spec_float → spec_float := SFmul 53 1024.
Definition f_div : spec_float → spec_float → spec_float := SFdiv 53 1024.
Definition float64 (z : Z) : spec_float := binary_normalize 53 1024 z 0 false.
Definition MaxFloat64 : spec_float := S754_finite false (2 ^ 53 - 1) 971.

(** ** [machineinfo], [nodemanager] *)

Record MachineInfo := mkMachine { CPUArchitecture : string; CPUFamily : string; CPUModel : string }.

Definition IceLakeModel : string := "106".
Definition EmeraldRapidsModel : string := "207".

Definition compatibleNodeModels : gmap string (gset string) := {[IceLakeModel := {[EmeraldRapidsModel]}]}.

Definition IsCompatibleWith (buildCPU nodeCPU : MachineInfo) : bool :=
  if negb (bool_decide (CPUArchitecture buildCPU = CPUArchitecture nodeCPU)) || negb (bool_decide (CPUFamily buildCPU = CPUFamily nodeCPU)) then false
  else if bool_decide (CPUModel buildCPU = CPUModel nodeCPU) then true
  else bool_decide (CPUModel nodeCPU ∈ default ∅ (compatibleNodeModels !! CPUModel buildCPU)).

Inductive NodeStatus := NodeReady | NodeDraining | NodeUnhealthy | NodeStandby | NodeConnecting.

#[global] Instance NodeStatus_eq_dec : EqDecision NodeStatus.
Proof. solve_decision. Defined.

Inductive connectivity := ConnShutdown | ConnTransientFailure | ConnConnecting | ConnOther.

Record SandboxResources := mkResources { CPUs : Z; MiBMemory : Z }.

Record Metrics := mkMetrics {
  CpuAllocated : Z; CpuPercent : Z; CpuCount : Z;
  MemoryAllocatedBytes : Z; MemoryUsedBytes : Z; MemoryTotalBytes : Z; SandboxCount : Z }.

Record PlacementMetrics := mkPlacement { sandboxesInProgress : gmap string SandboxResources; createSuccess : Z; createFails : Z }.

Record Node := mkNode {
  n_status : NodeStatus; n_conn : connectivity; n_machineInfo : MachineInfo; n_labels : gset string;
  n_metrics : Metrics; n_placement : PlacementMetrics }.

Definition Status (n : Node) : NodeStatus :=
  match n_status n, n_conn n with
  | NodeReady, ConnShutdown => NodeUnhealthy
  | NodeReady, (ConnTransientFailure | ConnConnecting) => NodeConnecting
  | st, _ => st
  end.

Definition with_status (st : NodeStatus) (c : connectivity) (n : Node) : Node :=
  mkNode st c (n_machineInfo n) (n_labels n) (n_metrics n) (n_placement n).
Definition with_metrics (m : Metrics) (n : Node) : Node :=
  mkNode (n_status n) (n_conn n) (n_machineInfo n) (n_labels n) m (n_placement n).
Definition with_placement (p : PlacementMetrics) (n : Node) : Node :=
  mkNode (n_status n) (n_conn n) (n_machineInfo n) (n_labels n) (n_metrics n) p.

Definition with_allocated (cpus mem : Z) (m : Metrics) : Metrics :=
  mkMetrics cpus (CpuPercent m) (CpuCount m) mem (MemoryUsedBytes m) (MemoryTotalBytes m) (SandboxCount m).

Definition MiB : Z := 1024 * 1024.

(** With the feature flag on. *)
Definition OptimisticAdd (res : SandboxResources) (n : Node) : Node :=
  let m := n_metrics n in
  with_metrics (with_allocated (u32 (CpuAllocated m + u32 (CPUs res))) (u64 (MemoryAllocatedBytes m + u64 (u64 (MiBMemory res) * MiB))) m) n.

Definition OptimisticRemove (res : SandboxResources) (n : Node) : Node :=
  let m := n_metrics n in
  with_metrics (with_allocated (u32 (CpuAllocated m - u32 (CPUs res))) (u64 (MemoryAllocatedBytes m - u64 (u64 (MiBMemory res) * MiB))) m) n.

(** What a report of the node sets ([Sync]). *)
Record report := mkReport { rp_status : NodeStatus; rp_machine : MachineInfo; rp_labels : gset string; rp_metrics : Metrics }.

Definition reported (r : report) (n : Node) : Node :=
  mkNode (rp_status r) (n_conn n) (rp_machine r) (rp_labels r) (rp_metrics r) (n_placement n).

Definition with_progress (p : gmap string SandboxResources) (n : Node) : Node :=
  with_placement (mkPlacement p (createSuccess (n_placement n)) (createFails (n_placement n))) n.

Definition progress (n : Node) : gmap string SandboxResources := sandboxesInProgress (n_placement n).

(** ** The calls *)

(** [status.FromError]: an error that is none of gRPC is [Internal]. *)
Inductive Code := ResourceExhausted | OtherCode.

Inductive call : Type → Type :=
| Done : call bool
| Intn (n : nat) : call nat
| GetStatus (id : string) : call NodeStatus
| GetMachineInfo (id : string) : call MachineInfo
| Labels (id : string) : call (gset string)
| GetMetrics (id : string) : call Metrics
| InProgress (id : string) : call (gmap string SandboxResources)
| StartPlacing (id sbx : string) (res : SandboxResources) : call unit
| RemovePlacing (id sbx : string) : call unit
| CountSuccess (id : string) : call unit
| CountFail (id : string) : call unit
| AddAllocated (id : string) (res : SandboxResources) : call unit
| SandboxCreate (id sbx : string) : call (option Code).

Notation prog := (prog call).
Open Scope prog_scope.

(** *** [placement_metrics.go] *)

Definition Success (id sbx : string) : prog unit := _ ←! CountSuccess id; perform (RemovePlacing id sbx).
Definition Skip (id sbx : string) : prog unit := perform (RemovePlacing id sbx).
Definition FailPlacing (id sbx : string) : prog unit := _ ←! CountFail id; perform (RemovePlacing id sbx).

Definition InProgressCount (p : gmap string SandboxResources) : Z := u32 (Z.of_nat (size p)).

(** ** [placement_best_of_K.go] *)

Definition maxRetries : Z := 3.
Definition maxStartingInstancesPerNode : Z := 3.

Record BestOfKConfig := mkConfig { cfg_R : spec_float; Alpha : spec_float; cfg_K : Z; TooManyStarting : bool; cfg_CanFit : bool }.

Definition DefaultBestOfKConfig : BestOfKConfig := mkConfig (float64 4) (f_div (float64 1) (float64 2)) 3 false false.

(** What a placement is about. *)
Record request := mkRequest {
  rq_sandbox : string; rq_resources : SandboxResources; rq_machine : MachineInfo;
  rq_filterByLabels : bool; rq_labels : list string }.

Definition pendingCPUs (p : gmap string SandboxResources) : Z := i64 (map_fold (λ _ r acc, CPUs r + acc) 0 p).

Definition score_of (m : Metrics) (p : gmap string SandboxResources) (resources : SandboxResources) (config : BestOfKConfig) : spec_float :=
  let reserved := u32 (CpuAllocated m + u32 (pendingCPUs p)) in
  let usageAvg := f_div (float64 (CpuPercent m)) (float64 100) in
  let cpuCount := float64 (CpuCount m) in
  if SFeqb cpuCount (float64 0) then MaxFloat64
  else
    let totalCapacity := f_mul (cfg_R config) cpuCount in
    let cpuRequested := float64 (CPUs resources) in
    f_div (f_add (f_add cpuRequested (float64 reserved)) (f_mul (Alpha config) usageAvg)) totalCapacity.

Definition fits (m : Metrics) (resources : SandboxResources) (config : BestOfKConfig) : bool :=
  let reserved := CpuAllocated m in
  let cpuCount := float64 (CpuCount m) in
  if SFeqb cpuCount (float64 0) then false
  else SFleb (float64 (u32 (reserved + u32 (CPUs resources)))) (f_mul (cfg_R config) cpuCount).

Definition defaultLabel : string := "default".

Definition effectiveNodeLabels (labels : gset string) : gset string := if bool_decide (size labels = O) then {[defaultLabel]} else labels.
Definition effectiveSandboxLabels (labels : list string) : list string := if bool_decide (length labels = O) then [defaultLabel] else labels.

Definition labels_match (labels : gset string) (required : list string) : bool :=
  forallb (λ req, bool_decide (req ∈ effectiveNodeLabels labels)) (effectiveSandboxLabels required).

Section choose.
Context (config : BestOfKConfig) (rq : request).

Definition Score (id : string) : prog spec_float :=
  m ←! GetMetrics id;
  p ←! InProgress id;
  Ret (score_of m p (rq_resources rq) config).

Definition CanFit (id : string) : prog bool := m ←! GetMetrics id; Ret (fits m (rq_resources rq) config).

Definition isNodeCPUCompatible (id : string) : prog bool :=
  if bool_decide (CPUArchitecture (rq_machine rq) = EmptyString) then Ret true
  else nodeMachineInfo ←! GetMachineInfo id; Ret (IsCompatibleWith (rq_machine rq) nodeMachineInfo).

Definition isNodeLabelsCompatible (id : string) : prog bool := labels ←! Labels id; Ret (labels_match labels (rq_labels rq)).

(** The next check where this one passed. *)
Definition and_then (p q : prog bool) : prog bool := ok ← p; if ok : bool then q else Ret false.

Definition only_if (enabled : bool) (p : prog bool) : prog bool := if enabled then p else Ret true.

Definition passes (nodesExcluded : gset string) (id : string) : prog bool :=
  if bool_decide (id ∈ nodesExcluded) then Ret false
  else
    and_then (st ←! GetStatus id; Ret (bool_decide (st = NodeReady)))
      (and_then (isNodeCPUCompatible id)
        (and_then (only_if (rq_filterByLabels rq) (isNodeLabelsCompatible id))
          (and_then (only_if (cfg_CanFit config) (CanFit id))
            (only_if (TooManyStarting config)
               (p ←! InProgress id; Ret (negb (maxStartingInstancesPerNode <? InProgressCount p))))))).

Definition swap (i j : nat) (l : list nat) : list nat := <[i := l !!! j]> (<[j := l !!! i]> l).

(** [indices[:remaining]] is the active pool. *)
Fixpoint sample_loop (items : list string) (nodesExcluded : gset string) (remaining : nat) (indices : list nat) (candidates : list string)
    : prog (list string) :=
  if cfg_K config <=? Z.of_nat (length candidates) then Ret candidates
  else
    match remaining with
    | O => Ret candidates
    | S last =>
        j ←! Intn remaining;
        let pick := indices !!! j in
        let n := items !!! pick in
        ok ← passes nodesExcluded n;
        sample_loop items nodesExcluded last (swap j last indices) (if ok : bool then candidates ++ [n] else candidates)
    end.

Definition sample (items : list string) (nodesExcluded : gset string) : prog (list string) :=
  if (cfg_K config <=? 0) || bool_decide (length items = O) then Ret []
  else sample_loop items nodesExcluded (length items) (seq 0 (length items)) [].

Fixpoint best_loop (candidates : list string) (bestNode : option string) (bestScore : spec_float) : prog (option string) :=
  match candidates with
  | [] => Ret bestNode
  | node :: candidates =>
      score ← Score node;
      if SFltb score bestScore then best_loop candidates (Some node) score else best_loop candidates bestNode bestScore
  end.

Inductive place_err := TimedOut (attempt : Z) | NoNodesAvailable | NoNodeAvailable | SandboxCreateFailed.

Definition chooseNode (nodes : list string) (excludedNodes : gset string) : prog (result place_err string) :=
  candidates ← sample nodes excludedNodes;
  bestNode ← best_loop candidates None MaxFloat64;
  Ret (match bestNode with Some n => Ok n | None => Err NoNodeAvailable end).

(** ** [placement.go] *)

Section place.
Context (clusterNodes : list string).

(** [tries] is how often the loop finds the context still open. *)
Fixpoint place_loop (tries : nat) (attempt : Z) (nodesExcluded : gset string) (node : option string) : prog (result place_err string) :=
  if maxRetries <=? attempt then Ret (Err SandboxCreateFailed)
  else
    done ←! Done;
    if done : bool then Ret (Err (TimedOut (attempt + 1)))
    else match tries with
    | O => Ret (Err (TimedOut (attempt + 1)))
    | S tries =>
        node ←? match node with
                | Some node => Ret (Ok node)
                | None =>
                    if Z.of_nat (length clusterNodes) <=? Z.of_nat (size nodesExcluded) then Ret (Err NoNodesAvailable)
                    else chooseNode clusterNodes nodesExcluded
                end;
        _ ←! StartPlacing node (rq_sandbox rq) (rq_resources rq);
        err ←! SandboxCreate node (rq_sandbox rq);
        match err with
        | None =>
            _ ← Success node (rq_sandbox rq);
            _ ←! AddAllocated node (rq_resources rq);
            Ret (Ok node)
        | Some ResourceExhausted =>
            _ ← Skip node (rq_sandbox rq);
            place_loop tries attempt nodesExcluded None
        | Some OtherCode =>
            _ ← FailPlacing node (rq_sandbox rq);
            place_loop tries (attempt + 1) ({[node]} ∪ nodesExcluded) None
        end
    end.

Definition PlaceSandbox (tries : nat) (preferredNode : option string) : prog (result place_err string) := place_loop tries 0 ∅ preferredNode.
End place.
End choose.

(** ** The instance *)

(** The nodes by identifier. *)
Notation nodes := (string → Node).

(** What a call gets from outside: a context that is over, a feature flag, a
    draw, the answer of a node. *)
Inductive choice := Go | Flag (b : bool) | Draw (n : nat) | Answers (err : option Code).

Definition reads {A} (x : choice) (w : nodes) (a : A) : option (nodes * A) := match x with Go => Some (w, a) | _ => None end.

Definition writes (x : choice) (w : nodes) (id : string) (f : Node → Node) : option (nodes * unit) :=
  match x with Go => Some (<[id := f (w id)]> w, ()) | _ => None end.

Definition counted (success : bool) (n : Node) : Node :=
  let p := n_placement n in
  with_placement (if success then mkPlacement (sandboxesInProgress p) (u64 (createSuccess p + 1)) (createFails p)
                  else mkPlacement (sandboxesInProgress p) (createSuccess p) (u64 (createFails p + 1))) n.

Definition exec {A} (c : call A) (x : choice) (w : nodes) : option (nodes * A) :=
  match c in call A return option (nodes * A) with
  | Done => match x with Flag b => Some (w, b) | _ => None end
  | Intn n => match x with Draw d => if bool_decide (d < n)%nat then Some (w, d) else None | _ => None end
  | GetStatus id => reads x w (Status (w id))
  | GetMachineInfo id => reads x w (n_machineInfo (w id))
  | Labels id => reads x w (n_labels (w id))
  | GetMetrics id => reads x w (n_metrics (w id))
  | InProgress id => reads x w (progress (w id))
  | StartPlacing id sbx res => writes x w id (λ n, with_progress (<[sbx := res]> (progress n)) n)
  | RemovePlacing id sbx => writes x w id (λ n, with_progress (delete sbx (progress n)) n)
  | CountSuccess id => writes x w id (counted true)
  | CountFail id => writes x w id (counted false)
  | AddAllocated id res => match x with Flag on => Some (if on then <[id := OptimisticAdd res (w id)]> w else w, ()) | _ => None end
  | SandboxCreate id sbx => match x with Answers err => Some (w, err) | _ => None end
  end.

(** What a placement has done so far: the node it is counted at, and what the
    nodes it asked have answered. *)
Record done := mkDone { d_at : option string; d_tried : list (string * option Code) }.

Definition record {A} (c : call A) (h : done) : A → done :=
  match c in call A return A → done with
  | StartPlacing id _ _ => λ _, mkDone (Some id) (d_tried h)
  | RemovePlacing _ _ => λ _, mkDone None (d_tried h)
  | SandboxCreate id _ => λ err, mkDone (d_at h) (d_tried h ++ [(id, err)])
  | _ => λ _, h
  end.

Record job := mkJob { j_rq : request; j_prog : prog (result place_err string); j_done : done }.
Record world := mkWorld { w_nodes : nodes; w_jobs : list job }.

Inductive event :=
| ESpawn (config : BestOfKConfig) (rq : request) (clusterNodes : list string) (preferred : option string) (tries : nat)
| ECall (i : nat) (x : choice)
| EStatus (id : string) (st : NodeStatus) (c : connectivity)
| EReport (id : string) (r : report)
| ERemoved (id : string) (res : SandboxResources).

Definition running (j : job) : bool := match j_prog j with Ret _ => false | Do _ _ => true end.

Definition run_job (x : choice) (w : nodes) (j : job) : option (nodes * job) :=
  match j_prog j with
  | Ret _ => None
  | Do c p => '(w', a) ← exec c x w; Some (w', mkJob (j_rq j) (p a) (record c (j_done j) a))
  end.

Definition move (e : event) (w : world) : option world :=
  match e with
  | ESpawn config rq clusterNodes preferred tries =>
      Some (mkWorld (w_nodes w) (w_jobs w ++ [mkJob rq (PlaceSandbox config rq clusterNodes tries preferred) (mkDone None [])]))
  | ECall i x =>
      j ← w_jobs w !! i;
      '(ns, j') ← run_job x (w_nodes w) j;
      Some (mkWorld ns (<[i := j']> (w_jobs w)))
  | EStatus id st c => Some (mkWorld (<[id := with_status st c (w_nodes w id)]> (w_nodes w)) (w_jobs w))
  | EReport id r => Some (mkWorld (<[id := reported r (w_nodes w id)]> (w_nodes w)) (w_jobs w))
  | ERemoved id res => Some (mkWorld (<[id := OptimisticRemove res (w_nodes w id)]> (w_nodes w)) (w_jobs w))
  end.

Definition step (w w' : world) : Prop := ∃ e, move e w = Some w'.
Notation steps := (rtc step).

Fixpoint moves (es : list event) (w : world) : option world :=
  match es with [] => Some w | e :: es => w ← move e w; moves es w end.

(** [PlaceSandbox] does not look whether the sandbox is being placed already:
    the reservation of its name is to see to that.  The sandboxes [one] holds
    of are placed by one placement at a time; of the others nothing is said. *)
Definition unplaced (sbx : string) (js : list job) : bool := forallb (λ j, negb (running j) || bool_decide (rq_sandbox (j_rq j) ≠ sbx)) js.

Definition placed_once (one : string → bool) (e : event) (w : world) : bool :=
  match e with ESpawn _ rq _ _ _ => negb (one (rq_sandbox rq)) || unplaced (rq_sandbox rq) (w_jobs w) | _ => true end.

Definition step_once (one : string → bool) (w w' : world) : Prop := ∃ e, placed_once one e w = true ∧ move e w = Some w'.

(** No placement yet. *)
Definition fresh (w : world) : Prop := w_jobs w = [] ∧ ∀ id, progress (w_nodes w id) = ∅.

(** ** What a choice is *)

(** A node that passes every check as the nodes stand. *)
Definition eligible (config : BestOfKConfig) (rq : request) (w : nodes) (nodesExcluded : gset string) (id : string) : bool :=
  negb (bool_decide (id ∈ nodesExcluded)) && bool_decide (Status (w id) = NodeReady) &&
  (bool_decide (CPUArchitecture (rq_machine rq) = EmptyString) || IsCompatibleWith (rq_machine rq) (n_machineInfo (w id))) &&
  (negb (rq_filterByLabels rq) || labels_match (n_labels (w id)) (rq_labels rq)) &&
  (negb (cfg_CanFit config) || fits (n_metrics (w id)) (rq_resources rq) config) &&
  (negb (TooManyStarting config) || negb (maxStartingInstancesPerNode <? InProgressCount (progress (w id)))).

Definition node_score (config : BestOfKConfig) (rq : request) (w : nodes) (id : string) : spec_float :=
  score_of (n_metrics (w id)) (progress (w id)) (rq_resources rq) config.

(** [k] of the eligible nodes, or all if they are fewer. *)
Definition sampled (k : Z) (eligibles candidates : list string) : Prop :=
  (∃ rest, candidates ++ rest ≡ₚ eligibles) ∧ Z.of_nat (length candidates) = Z.min (Z.max 0 k) (Z.of_nat (length eligibles)).

(** Every run of a program in which nobody else moves ends in a result [Q]
    holds of. *)
Definition undisturbed {A} (p : prog A) (w : nodes) (Q : nodes → A → Prop) : Prop :=
  Prog.wp (λ (_ : unit) w w', w' = w) (λ _ _ _ _, True) (λ _ c _ w a _ w', ∃ x, exec c x w = Some (w', a)) p (λ _ w' a, Q w' a) () w.

(** ** The order of the scores *)

Lemma SFltb_trans x y z : SFltb x y = true → SFltb y z = true → SFltb x z = true.
Proof.
  unfold SFltb, SFcompare.
  destruct x as [[]|[]| |[] mx ex], y as [[]|[]| |[] my ey], z as [[]|[]| |[] mz ez]; try done;
    destruct (Z.compare_spec ex ey), (Z.compare_spec ey ez), (Z.compare_spec ex ez); try lia; try done.
  all: change (PosDef.Pos.compare_cont Eq mx my) with (mx ?= my)%positive; change (PosDef.Pos.compare_cont Eq my mz) with (my ?= mz)%positive;
    change (PosDef.Pos.compare_cont Eq mx mz) with (mx ?= mz)%positive.
  all: destruct (Pos.compare_spec mx my), (Pos.compare_spec my mz), (Pos.compare_spec mx mz); try done; lia.
Qed.

Lemma SFltb_irrefl x : SFltb x x ≠ true.
Proof.
  unfold SFltb, SFcompare. destruct x as [[]|[]| |[] m e]; try done; rewrite Z.compare_refl;
    change (PosDef.Pos.compare_cont Eq m m) with (m ?= m)%positive; by rewrite Pos.compare_refl.
Qed.

(** ** The choice, while nobody moves *)

Lemma undisturbed_mono {A} (p : prog A) w (Q Q' : nodes → A → Prop) : (∀ w a, Q w a → Q' w a) → undisturbed p w Q → undisturbed p w Q'.
Proof. intros HQ. apply prog_wp_mono. intros _. apply HQ. Qed.

Lemma undisturbed_bind {A B} (p : prog A) (f : A → prog B) w Q : undisturbed p w (λ w a, undisturbed (f a) w Q) → undisturbed (p ≫= f) w Q.
Proof. intros Hp. apply prog_wp_bind. eapply prog_wp_mono; [|exact Hp]. by intros []. Qed.

Lemma undisturbed_read {A B} (c : call A) (f : A → prog B) w a Q :
  (∀ x w' b, exec c x w = Some (w', b) → w' = w ∧ b = a) → undisturbed (f a) w Q → undisturbed (mbind (M:=prog) f (perform c)) w Q.
Proof. intros Hc Hf w1 ->. split; [done|]. intros b [] w2 [x Hx]. by apply Hc in Hx as [-> ->]. Qed.

(** A program that only reads, and what it reads. *)
Definition tells {A} (p : prog A) (w : nodes) (a : A) : Prop := undisturbed p w (λ w' b, w' = w ∧ b = a).

Lemma tells_bind {A B} (p : prog A) (f : A → prog B) w a Q : tells p w a → undisturbed (f a) w Q → undisturbed (p ≫= f) w Q.
Proof. intros Hp Hf. apply undisturbed_bind. eapply undisturbed_mono; [|exact Hp]. by intros ?? [-> ->]. Qed.

Lemma reads_cases {A} x (w w' : nodes) (a b : A) : reads x w a = Some (w', b) → w' = w ∧ b = a.
Proof. destruct x; by intros [= <- <-]. Qed.

Lemma tells_read {A B} (c : call A) (f : A → B) w a : (∀ x, exec c x w = reads x w a) → tells (mbind (M:=prog) (λ a, Ret (f a)) (perform c)) w (f a).
Proof. intros Hc. eapply (undisturbed_read c _ w a); [|done]. intros x w' b Hx. rewrite Hc in Hx. by apply reads_cases in Hx. Qed.

Lemma tells_and p q w (a b : bool) : tells p w a → tells q w b → tells (and_then p q) w (a && b).
Proof. intros Hp Hq. eapply tells_bind; [exact Hp|]. by destruct a. Qed.

Lemma tells_if p w (enabled a : bool) : tells p w a → tells (only_if enabled p) w (negb enabled || a).
Proof. by destruct enabled. Qed.

#[global] Instance sampled_proper k : Proper ((≡ₚ) ==> eq ==> iff) (sampled k).
Proof. intros l l' Hl c ? <-. unfold sampled. rewrite Hl. by setoid_rewrite Hl. Qed.

Section choice.
Context (config : BestOfKConfig) (rq : request) (w : nodes).

Lemma passes_tells excluded id : tells (passes config rq excluded id) w (eligible config rq w excluded id).
Proof using.
  unfold passes, eligible. case_bool_decide; [done|]. cbn [negb andb]. rewrite <- !andb_assoc.
  apply tells_and; [by apply (tells_read (GetStatus id) (λ st, bool_decide (st = NodeReady)))|].
  apply tells_and; [unfold isNodeCPUCompatible; case_bool_decide; [done|]; by apply (tells_read (GetMachineInfo id) (IsCompatibleWith (rq_machine rq)))|].
  apply tells_and; [apply tells_if; by apply (tells_read (Labels id) (λ l, labels_match l (rq_labels rq)))|].
  apply tells_and; apply tells_if; [by apply (tells_read (GetMetrics id) (λ m, fits m (rq_resources rq) config))|].
  by apply (tells_read (InProgress id) (λ p, negb (maxStartingInstancesPerNode <? InProgressCount p))).
Qed.

Lemma Score_tells id : tells (Score config rq id) w (node_score config rq w id).
Proof using.
  unfold Score. eapply undisturbed_read; [intros x w' b; apply reads_cases|].
  by apply (tells_read (InProgress id) (λ p, score_of (n_metrics (w id)) p (rq_resources rq) config)).
Qed.

Lemma swap_take j last (l : list nat) : (j < S last)%nat → (S last ≤ length l)%nat → take last (swap j last l) ++ [l !!! j] ≡ₚ take (S last) l.
Proof using.
  intros Hj Hl. unfold swap. destruct (lookup_lt_is_Some_2 l last ltac:(lia)) as [b Hb]. destruct (lookup_lt_is_Some_2 l j ltac:(lia)) as [a Ha].
  rewrite (list_lookup_total_correct _ _ _ Hb), (list_lookup_total_correct _ _ _ Ha), (take_S_r _ _ _ Hb).
  destruct (decide (j = last)) as [->|Hne].
  - assert (a = b) as -> by congruence. rewrite list_insert_insert_eq, list_insert_id by done. done.
  - rewrite take_insert_lt, take_insert_ge by lia. assert (Hta : take last l !! j = Some a) by (rewrite lookup_take_lt by lia; done).
    rewrite insert_take_drop by (rewrite length_take; lia). rewrite <- (take_drop_middle (take last l) j a Hta) at 3. solve_Permutation.
Qed.

Definition pool (items : list string) (remaining : nat) (indices : list nat) : list string := (λ i, items !!! i) <$> take remaining indices.

Lemma sample_loop_sampled items excluded remaining indices candidates : (remaining ≤ length indices)%nat → Z.of_nat (length candidates) <= cfg_K config →
  undisturbed (sample_loop config rq items excluded remaining indices candidates) w
    (λ w' r, w' = w ∧ sampled (cfg_K config) (candidates ++ filter (λ n, eligible config rq w excluded n = true) (pool items remaining indices)) r).
Proof using.
  revert indices candidates. induction remaining as [|last IH]; intros indices candidates Hl HK; cbn [sample_loop].
  - assert (Hs : sampled (cfg_K config) (candidates ++ filter (λ n, eligible config rq w excluded n = true) (pool items 0 indices)) candidates).
    { unfold pool. rewrite take_0. cbn. rewrite app_nil_r. split; [exists []; by rewrite app_nil_r|lia]. }
    by destruct (_ <=? _).
  - destruct (cfg_K config <=? _) eqn:EK.
    { split; [done|]. split; [by eexists|]. rewrite length_app. lia. }
    intros w1 ->. split; [done|]. intros j [] w2 [x Hx]. cbn [exec] in Hx. destruct x; try done. case_bool_decide; [|done]. injection Hx as <- ->.
    eapply tells_bind; [apply passes_tells|]. pose proof (swap_take j last indices ltac:(done) Hl) as Hp.
    assert (Hpool : pool items (S last) indices ≡ₚ (items !!! (indices !!! j)) :: pool items last (swap j last indices)).
    { unfold pool. rewrite <- Hp, fmap_app. cbn. solve_Permutation. }
    eapply undisturbed_mono; [|apply IH].
    + intros w' r [-> Hr]. split; [done|]. rewrite Hpool, filter_cons.
      destruct (eligible config rq w excluded (items !!! (indices !!! j))); [rewrite decide_True by done; by rewrite <- app_assoc in Hr|by rewrite decide_False].
    + unfold swap. rewrite !length_insert. lia.
    + destruct (eligible _ _ _ _ _); [rewrite length_app; cbn|]; lia.
Qed.

Lemma sample_sampled items excluded :
  undisturbed (sample config rq items excluded) w (λ w' r, w' = w ∧ sampled (cfg_K config) (filter (λ n, eligible config rq w excluded n = true) items) r).
Proof using.
  unfold sample. destruct (_ || _) eqn:E.
  - split; [done|]. split; [by exists (filter (λ n, eligible config rq w excluded n = true) items)|]. apply orb_true_iff in E as [E|E]; [cbn; lia|].
    apply bool_decide_eq_true in E. destruct items; [cbn; lia|done].
  - apply orb_false_iff in E as [E _]. eapply undisturbed_mono; [|apply sample_loop_sampled; rewrite ?length_seq; cbn; lia].
    intros w' r [-> Hr]. split; [done|]. cbn [app] in Hr. unfold pool in Hr. rewrite take_ge in Hr by (rewrite length_seq; lia).
    replace ((λ i, items !!! i) <$> seq 0 (length items)) with items in Hr; [done|].
    apply list_eq. intros i. rewrite list_lookup_fmap. destruct (items !! i) as [a|] eqn:Ha.
    + rewrite lookup_seq_lt by (by eapply lookup_lt_Some). cbn. by rewrite (list_lookup_total_correct _ _ _ Ha).
    + apply lookup_ge_None in Ha. by rewrite lookup_seq_ge.
Qed.

Definition below (x y : spec_float) : Prop := SFltb x y = true.

Lemma best_loop_best candidates seen bestNode bestScore :
  (∀ n, n ∈ seen → ¬ below (node_score config rq w n) bestScore) →
  match bestNode with Some n => n ∈ seen ∧ bestScore = node_score config rq w n ∧ below bestScore MaxFloat64 | None => bestScore = MaxFloat64 end →
  undisturbed (best_loop config rq candidates bestNode bestScore) w (λ w' r, w' = w ∧
    match r with
    | Some n => n ∈ seen ++ candidates ∧ below (node_score config rq w n) MaxFloat64 ∧
                ∀ n', n' ∈ seen ++ candidates → ¬ below (node_score config rq w n') (node_score config rq w n)
    | None => ∀ n', n' ∈ seen ++ candidates → ¬ below (node_score config rq w n') MaxFloat64
    end).
Proof using.
  revert seen bestNode bestScore. induction candidates as [|c candidates IH]; intros seen bestNode bestScore Hseen Hbest; cbn [best_loop].
  - split; [done|]. rewrite app_nil_r. destruct bestNode as [n|]; [destruct Hbest as (? & -> & ?); auto|by subst].
  - eapply tells_bind; [apply Score_tells|].
    destruct (SFltb (node_score config rq w c) bestScore) eqn:E; (eapply undisturbed_mono; [intros w' r; rewrite (app_assoc seen [c] candidates : seen ++ c :: candidates = _); exact id|]); apply IH.
    + intros n [Hn|Hn%list_elem_of_singleton]%elem_of_app; [intros Hlt; apply (Hseen n Hn); by eapply SFltb_trans|subst n; apply SFltb_irrefl].
    + split_and!; [set_solver|done|]. destruct bestNode as [n|]; [by eapply SFltb_trans, Hbest|by subst].
    + intros n [Hn|Hn%list_elem_of_singleton]%elem_of_app; [by apply Hseen|subst n; unfold below; by rewrite E].
    + destruct bestNode as [n|]; [|done]. destruct Hbest as (Hn & -> & Hm). split_and!; [set_solver|done|done].
Qed.

(** C36. While the nodes stand still, [chooseNode] takes a sample of the eligible
    nodes, [K] of them or all, whatever [rand.Intn] draws, and returns one of
    the sample that no other of the sample has a lower score than; it fails
    only if no node of the sample has a score. *)
Theorem chooseNode_best items excluded :
  undisturbed (chooseNode config rq items excluded) w (λ w' r, w' = w ∧ ∃ candidates,
    sampled (cfg_K config) (filter (λ n, eligible config rq w excluded n = true) items) candidates ∧
    match r with
    | Ok n => n ∈ candidates ∧ below (node_score config rq w n) MaxFloat64 ∧
              ∀ n', n' ∈ candidates → ¬ below (node_score config rq w n') (node_score config rq w n)
    | Err e => e = NoNodeAvailable ∧ ∀ n', n' ∈ candidates → ¬ below (node_score config rq w n') MaxFloat64
    end).
Proof using.
  unfold chooseNode. apply undisturbed_bind. eapply undisturbed_mono; [|apply sample_sampled]. intros w' candidates [-> Hs].
  apply undisturbed_bind. eapply undisturbed_mono; [|apply (best_loop_best candidates []); [by intros n ?%elem_of_nil|done]].
  intros w' [n|] [-> Hn]; (split; [done|]); by exists candidates.
Qed.
End choice.

(** ** What a placement does *)

(** The nodes that failed for another reason than being full. *)
Definition failed (tried : list (string * option Code)) : list string :=
  omap (λ x, match x.2 with Some OtherCode => Some x.1 | _ => None end) tried.

(** A node that failed is not asked again. *)
Definition no_retry (tried : list (string * option Code)) : Prop :=
  ∀ i j id err, tried !! i = Some (id, Some OtherCode) → tried !! j = Some (id, err) → (j <= i)%nat.

Definition refused (tried : list (string * option Code)) : Prop := Forall (λ x, x.2 ≠ None) tried.

Definition tried_for (tried : list (string * option Code)) (r : result place_err string) : Prop :=
  no_retry tried ∧
  match r with
  | Ok n => ∃ before, tried = before ++ [(n, None)] ∧ refused before ∧ Z.of_nat (length (failed before)) < maxRetries
  | Err e => refused tried ∧ (e = SandboxCreateFailed ↔ Z.of_nat (length (failed tried)) = maxRetries)
  end.

Section requests.
Context (rq : request).

(** What a call needs: a sandbox is created where it is counted. *)
Definition call_pre A (c : call A) (h : done) (_ : nodes) : Prop :=
  match c with
  | StartPlacing _ sbx res => d_at h = None ∧ sbx = rq_sandbox rq ∧ res = rq_resources rq
  | SandboxCreate id sbx | RemovePlacing id sbx => d_at h = Some id ∧ sbx = rq_sandbox rq
  | _ => True
  end.

Notation wp := (Prog.wp (λ _ _ _, True) call_pre (λ A c h w a h' w', h' = record c h a ∧ ∃ x, exec c x w = Some (w', a))).

(** A program of calls that record nothing. *)
Definition records {A} (c : call A) : bool := match c with StartPlacing _ _ _ | RemovePlacing _ _ | SandboxCreate _ _ => true | _ => false end.

Fixpoint quiet {A} (p : prog A) (Q : A → Prop) : Prop :=
  match p with Ret a => Q a | Do c k => records c = false ∧ ∀ a, quiet (k a) Q end.

Lemma placement_quiet_bind {A B} (p : prog A) (f : A → prog B) Q : quiet p (λ a, quiet (f a) Q) → quiet (p ≫= f) Q.
Proof using. induction p as [a|C c k IH]; [done|]. intros [Hc Hk]. split; [done|]. intros a. apply IH, Hk. Qed.

Lemma placement_quiet_mono {A} (p : prog A) (Q Q' : A → Prop) : (∀ a, Q a → Q' a) → quiet p Q → quiet p Q'.
Proof using. intros HQ. induction p as [a|C c k IH]; [apply HQ|]. intros [Hc Hk]. split; [done|]. intros a. apply IH, Hk. Qed.

Lemma placement_quiet_wp {A} (p : prog A) Q h w : quiet p Q → wp p (λ h' _ a, h' = h ∧ Q a) h w.
Proof using.
  revert w. induction p as [a|C c k IH]; [done|]. intros w [Hc Hk] w1 _. split; [by destruct c|].
  intros a h' w2 [-> _]. replace (record c h a) with h by by destruct c. apply IH, Hk.
Qed.

Lemma only_if_quiet enabled p : quiet p (λ _, True) → quiet (only_if enabled p) (λ _, True).
Proof using. by destruct enabled. Qed.

Lemma and_then_quiet p q : quiet p (λ _, True) → quiet q (λ _, True) → quiet (and_then p q) (λ _, True).
Proof using. intros Hp Hq. apply placement_quiet_bind. eapply placement_quiet_mono; [|exact Hp]. by intros []. Qed.

Lemma passes_quiet config excluded id : quiet (passes config rq excluded id) (λ ok, ok = true → id ∉ excluded).
Proof using.
  unfold passes. case_bool_decide as E; [done|]. eapply placement_quiet_mono; [by intros|].
  repeat first [apply and_then_quiet|apply only_if_quiet]; try done. unfold isNodeCPUCompatible. by case_bool_decide.
Qed.

Lemma chooseNode_quiet config items excluded : quiet (chooseNode config rq items excluded) (λ r, match r with Ok n => n ∉ excluded | Err e => e = NoNodeAvailable end).
Proof using.
  unfold chooseNode. apply placement_quiet_bind. eapply (placement_quiet_mono _ (λ candidates, ∀ n, n ∈ candidates → n ∉ excluded)).
  - intros candidates Hc. apply placement_quiet_bind. eapply (placement_quiet_mono _ (λ best, ∀ n, best = Some n → n ∉ excluded)); [intros [n|] Hn; [by apply Hn|done]|].
    assert (Hb : ∀ n, (None : option string) = Some n → n ∉ excluded) by done. revert Hb. generalize (None : option string) MaxFloat64.
    induction candidates as [|c candidates IH]; intros best score Hb; [done|]. cbn [best_loop]. unfold Score. do 2 (split; [done|intros ?]).
    cbn. destruct (SFltb _ score); apply IH; try (intros n Hn; apply Hc; by right); [intros n [= <-]; apply Hc; by left|done].
  - unfold sample. destruct (_ || _); [cbn; set_solver|].
    assert (Hc : ∀ n, n ∈ ([] : list string) → n ∉ excluded) by set_solver. revert Hc. generalize ([] : list string). generalize (seq 0 (length items)). generalize (length items).
    intros remaining. induction remaining as [|last IH]; intros indices candidates Hc; cbn [sample_loop];
      destruct (_ <=? _); try done. split; [done|]. intros j. apply placement_quiet_bind. eapply placement_quiet_mono; [|apply passes_quiet].
    intros ok Hok. apply IH. destruct ok; [|done]. intros n [Hn|Hn%list_elem_of_singleton]%elem_of_app; [by apply Hc|subst n; by apply Hok].
Qed.

Lemma failed_snoc tried id err : failed (tried ++ [(id, err)]) = failed tried ++ (if err is Some OtherCode then [id] else []).
Proof using. unfold failed. rewrite omap_app. by destruct err as [[]|]. Qed.

Lemma elem_of_failed id tried : id ∈ failed tried ↔ (id, Some OtherCode) ∈ tried.
Proof using.
  unfold failed. rewrite list_elem_of_omap. split; [intros ([n err] & Hin & E)|intros H; by eexists].
  destruct err as [[]|]; try done. by injection E as ->.
Qed.

Lemma no_retry_snoc tried id err : no_retry tried → id ∉ failed tried → no_retry (tried ++ [(id, err)]).
Proof using.
  intros H Hid i j id' err' Hi Hj. apply lookup_app_Some in Hi as [Hi|[Hi1 Hi2]], Hj as [Hj|[Hj1 Hj2]].
  - by eapply H.
  - apply list_lookup_singleton_Some in Hj2 as [_ [= <- <-]]. exfalso. apply Hid, elem_of_failed. by eapply list_elem_of_lookup_2.
  - apply lookup_lt_Some in Hj. lia.
  - apply list_lookup_singleton_Some in Hj2 as [? _]. lia.
Qed.

Definition place_post (h : done) (_ : nodes) (r : result place_err string) : Prop := d_at h = None ∧ tried_for (d_tried h) r.

Record asking (h : done) (attempt : Z) (excluded : gset string) : Prop := {
  as_at : d_at h = None;
  as_retry : no_retry (d_tried h);
  as_refused : refused (d_tried h);
  as_attempt : attempt = Z.of_nat (length (failed (d_tried h)));
  as_max : attempt <= maxRetries;
  as_excluded id : id ∈ failed (d_tried h) → id ∈ excluded
}.

Lemma gives_up h attempt excluded e w : asking h attempt excluded → (e = SandboxCreateFailed ↔ attempt = maxRetries) → place_post h w (Err e).
Proof using. intros [A1 A2 A3 -> A5 A6] He. done. Qed.

(** The record once node [n] has answered, and is not counted any more. *)
Definition asked (n : string) (err : option Code) (h : done) : done := mkDone None (d_tried h ++ [(n, err)]).

Lemma asked_again h attempt excluded n c : asking h attempt excluded → attempt < maxRetries → n ∉ excluded →
  asking (asked n (Some c) h) (match c with ResourceExhausted => attempt | OtherCode => attempt + 1 end)
    (match c with ResourceExhausted => excluded | OtherCode => {[n]} ∪ excluded end).
Proof using.
  intros [A1 A2 A3 A4 A5 A6] Hlt Hn. split; cbn; [done| | | |destruct c; lia|].
  - apply no_retry_snoc; [done|]. intros H. by apply Hn, A6.
  - apply Forall_app. split; [done|]. by apply Forall_singleton.
  - rewrite failed_snoc, length_app. destruct c; cbn; lia.
  - intros id. rewrite failed_snoc. destruct c; cbn; [rewrite app_nil_r; auto|]. rewrite elem_of_app, list_elem_of_singleton. set_solver.
Qed.

Lemma asked_ok h attempt excluded n w : asking h attempt excluded → attempt < maxRetries → n ∉ excluded → place_post (asked n None h) w (Ok n).
Proof using.
  intros [A1 A2 A3 A4 A5 A6] Hlt Hn. split; [done|]. split.
  - cbn. apply no_retry_snoc; [done|]. intros H. by apply Hn, A6.
  - exists (d_tried h). split_and!; [done|done|lia].
Qed.

Lemma place_loop_spec config clusterNodes tries attempt excluded node h w : asking h attempt excluded → (∀ n, node = Some n → n ∉ excluded) →
  wp (place_loop config rq clusterNodes tries attempt excluded node) place_post h w.
Proof using.
  revert attempt excluded node h w. induction tries as [|tries IH]; intros attempt excluded node h w Ha Hnode; cbn [place_loop];
    (destruct (Z.leb_spec maxRetries attempt) as [Hge|Hlt]; [eapply gives_up; [exact Ha|]; destruct Ha; split; [intros _; lia|done]|]);
    intros w1 _; (split; [done|]); intros d h' w2 [-> _]; cbn [record];
    (assert (Hto : ∀ e h w, e ≠ SandboxCreateFailed → asking h attempt excluded → place_post h w (Err e)) by (intros e h0 w0 He H0; eapply gives_up; [exact H0|]; split; [done|lia]));
    destruct d; try by apply Hto.
  unfold check. apply prog_wp_bind. eapply (prog_wp_mono _ _ _ _ (λ h' _ r, h' = h ∧ match r with Ok n => n ∉ excluded | Err e => e ≠ SandboxCreateFailed end)).
  - intros h' w' [n|e] [-> Hn]; [|by apply Hto]. intros w3 _. split; [split_and!; [apply Ha|done|done]|]. intros [] h1 w4 [-> _]. intros w5 _. split; [done|]. intros err h2 w6 [-> _]. cbn [record d_at d_tried].
    destruct err as [[]|].
    + apply prog_wp_bind. intros w7 _. split; [done|]. intros [] h3 w8 [-> _]. apply IH; [by eapply (asked_again _ _ _ _ ResourceExhausted)|done].
    + apply prog_wp_bind. intros w7 _. split; [done|]. intros [] h3 w8 [-> _]. intros w9 _. split; [done|]. intros [] h4 w10 [-> _].
      apply IH; [by eapply (asked_again _ _ _ _ OtherCode)|done].
    + apply prog_wp_bind. intros w7 _. split; [done|]. intros [] h3 w8 [-> _]. intros w9 _. split; [done|]. intros [] h4 w10 [-> _].
      intros w11 _. split; [done|]. intros [] h5 w12 [-> _]. by eapply asked_ok.
  - destruct node as [n|]; [by split; [|apply Hnode]|]. destruct (_ <=? _); [done|].
    eapply prog_wp_mono; [|apply placement_quiet_wp, chooseNode_quiet]. intros h' w' [n|e] [-> Hr]; (split; [done|]); [done|by subst].
Qed.

Lemma PlaceSandbox_spec config clusterNodes tries preferred w :
  wp (PlaceSandbox config rq clusterNodes tries preferred) place_post (mkDone None []) w.
Proof using.
  apply place_loop_spec; [|by intros]. split; cbn; [done| |by apply Forall_nil|done|done|by intros id ?%elem_of_nil].
  intros i j id err Hi. by rewrite lookup_nil in Hi.
Qed.

(** Nobody can take a placement's next step from it. *)
Definition on_course (p : prog (result place_err string)) (h : done) : Prop := ∀ w, wp p place_post h w.

Lemma course_any p h w : wp p place_post h w → on_course p h.
Proof using. destruct p as [r|A c k]; [by intros H w'|]. intros H w' w1 _. by apply H. Qed.
End requests.

(** ** Executions *)

(** Job [j] is counted at node [id]. *)
Definition at_node (js : list job) (i : nat) (id sbx : string) (res : SandboxResources) : Prop :=
  ∃ j, js !! i = Some j ∧ d_at (j_done j) = Some id ∧ rq_sandbox (j_rq j) = sbx ∧ rq_resources (j_rq j) = res.

Lemma course_at rq p h id : on_course rq p h → d_at h = Some id → ∃ A (c : call A) k, p = Do c k.
Proof. intros Hp Hat. destruct p as [r|A c k]; [|by eexists _, _, _]. destruct (Hp (λ _, mkNode NodeReady ConnOther (mkMachine "" "" "") ∅ (mkMetrics 0 0 0 0 0 0 0) (mkPlacement ∅ 0 0))) as [Hn _]. congruence. Qed.

Lemma progress_insert (ns : nodes) id n id' : progress (n) = progress (ns id) → progress (<[id := n]> ns id') = progress (ns id').
Proof. intros Hn. destruct (decide (id = id')) as [->|Hne]; [by rewrite fn_lookup_insert|by rewrite fn_lookup_insert_ne]. Qed.

Section once.
Context (one : string → bool).

(** An entry is that of a placement at work; a placement of a sandbox that is
    placed once at a time has its entry. *)
Record accounted (ns : nodes) (js : list job) : Prop := {
  co_entry id sbx res : progress (ns id) !! sbx = Some res → ∃ i, at_node js i id sbx res;
  co_job i id sbx res : one sbx = true → at_node js i id sbx res → progress (ns id) !! sbx = Some res
}.

Record world_inv (w : world) : Prop := {
  wi_course i j : w_jobs w !! i = Some j → on_course (j_rq j) (j_prog j) (j_done j);
  wi_counted : accounted (w_nodes w) (w_jobs w);
  wi_apart i j j1 j2 : one (rq_sandbox (j_rq j1)) = true → w_jobs w !! i = Some j1 → w_jobs w !! j = Some j2 → running j1 = true → running j2 = true →
    rq_sandbox (j_rq j1) = rq_sandbox (j_rq j2) → i = j
}.

Lemma same_counted w ns : (∀ id, progress (ns id) = progress (w_nodes w id)) → world_inv w → world_inv (mkWorld ns (w_jobs w)).
Proof using. intros Hp [W1 [W2 W3] W4]. split; cbn; [exact W1| |exact W4]. split; intros *; rewrite Hp; eauto. Qed.

Lemma placement_spawn_inv w rq p : world_inv w → (one (rq_sandbox rq) = true → unplaced (rq_sandbox rq) (w_jobs w) = true) →
  on_course rq p (mkDone None []) → world_inv (mkWorld (w_nodes w) (w_jobs w ++ [mkJob rq p (mkDone None [])])).
Proof using.
  intros [W1 [W2 W3] W4] Hu Hp.
  assert (Hno : ∀ i j, one (rq_sandbox rq) = true → w_jobs w !! i = Some j → running j = true → rq_sandbox (j_rq j) ≠ rq_sandbox rq).
  { intros i j Ho Hi Hr. specialize (Hu Ho). unfold unplaced in Hu. rewrite forallb_forall in Hu.
    specialize (Hu j (proj1 (list_elem_of_In _ _) (list_elem_of_lookup_2 _ _ _ Hi))). rewrite Hr in Hu. by apply bool_decide_eq_true in Hu. }
  split; cbn.
  - intros i j Hi. apply lookup_app_Some in Hi as [Hi|[_ Hi]]; [by apply (W1 i)|]. by apply list_lookup_singleton_Some in Hi as [_ <-].
  - split; [intros id sbx res (i & j & Hi & H)%W2; exists i, j; split; [by apply lookup_app_l_Some|done]|].
    intros i id sbx res Ho (j & Hi & Hat & H). eapply W3; [done|]. exists j. split; [|by split].
    apply lookup_app_Some in Hi as [Hi|[_ Hi]]; [exact Hi|]. by apply list_lookup_singleton_Some in Hi as [_ <-].
  - intros i j j1 j2 Ho Hi Hj R1 R2 E. apply lookup_app_Some in Hi as [Hi|[Hi1 Hi]], Hj as [Hj|[Hj1 Hj]]; [by eapply W4| | |];
      repeat match goal with H : [_] !! _ = Some _ |- _ => apply list_lookup_singleton_Some in H as [? <-] end; [|symmetry in E|lia]; exfalso;
      rewrite ?E in Ho; by eapply Hno.
Qed.

Section call.
Context (w : world) (i : nat) (j : job) (A : Type) (c : call A) (k : A → prog (result place_err string)) (x : choice) (ns : nodes) (a : A).
Context (W : world_inv w) (Hi : w_jobs w !! i = Some j) (Ep : j_prog j = Do c k) (He : exec c x (w_nodes w) = Some (ns, a)).

Notation js := (<[i := mkJob (j_rq j) (k a) (record c (j_done j) a)]> (w_jobs w)).

Lemma other_job i' jo : one (rq_sandbox (j_rq j)) = true → w_jobs w !! i' = Some jo → rq_sandbox (j_rq jo) = rq_sandbox (j_rq j) → d_at (j_done jo) ≠ None → i' = i.
Proof using W Hi Ep.
  intros H1 Ho E Hat. destruct (d_at (j_done jo)) as [id|] eqn:Eat; [|done]. destruct (course_at _ _ _ _ (wi_course _ W _ _ Ho) Eat) as (B & c' & k' & E').
  eapply (wi_apart _ W); [by rewrite E|exact Ho|exact Hi| | |done]; unfold running; [by rewrite E'|by rewrite Ep].
Qed.

Lemma at_node_insert i' id sbx res : at_node js i' id sbx res ↔
  (i' = i ∧ d_at (record c (j_done j) a) = Some id ∧ rq_sandbox (j_rq j) = sbx ∧ rq_resources (j_rq j) = res) ∨ (i' ≠ i ∧ at_node (w_jobs w) i' id sbx res).
Proof using Hi.
  unfold at_node. split.
  - intros (jo & Ho & H). apply list_lookup_insert_Some in Ho as [(-> & <- & _)|(Hne & Ho)]; [left; auto|right; split; [done|]; by exists jo].
  - intros [(-> & H)|(Hne & jo & Ho & H)]; [exists (mkJob (j_rq j) (k a) (record c (j_done j) a)); split; [|exact H]; apply list_lookup_insert_eq; by eapply lookup_lt_Some|].
    exists jo. split; [|done]. by rewrite list_lookup_insert_ne.
Qed.

Lemma counted_same : d_at (record c (j_done j) a) = d_at (j_done j) → (∀ id, progress (ns id) = progress (w_nodes w id)) → accounted ns js.
Proof using W Hi.
  intros Eat Hp. destruct W as [_ [W2 W3] _]. split.
  - intros id sbx res. rewrite Hp. intros (i' & H)%W2. exists i'. rewrite at_node_insert, Eat.
    destruct (decide (i' = i)) as [->|Hne]; [|by right]. left. destruct H as (jo & Ho & H). by simplify_eq.
  - intros i' id sbx res Ho. rewrite Hp, at_node_insert, Eat. intros [(-> & H)|[_ H]]; [|by eapply W3]. eapply (W3 i); [done|]. by exists j.
Qed.

(** The entry of the sandbox at [id] is this job's to make and to drop. *)
Lemma counted_change id f : d_at (record c (j_done j) a) = (f : option string) → (∀ id0, d_at (j_done j) = Some id0 → id0 = id) →
  (∀ id0, f = Some id0 → id0 = id) →
  (∀ id' sbx, progress (ns id') !! sbx = if decide (id' = id ∧ sbx = rq_sandbox (j_rq j)) then (if f is Some _ then Some (rq_resources (j_rq j)) else None) else progress (w_nodes w id') !! sbx) →
  accounted ns js.
Proof using W Hi Ep.
  intros Eat Hold Hnew Hp. split.
  - intros id' sbx res. rewrite Hp. setoid_rewrite at_node_insert. rewrite Eat. case_decide as E.
    + destruct E as [-> ->]. destruct f as [id0|]; [|done]. intros [= <-]. exists i. left. by rewrite (Hnew id0 eq_refl).
    + intros (i' & Hi')%(co_entry _ _ (wi_counted _ W)). exists i'. right. split; [|done]. intros ->.
      destruct Hi' as (jo & Ho & Hat & Hs & _). simplify_eq. apply E. split; [by apply Hold|done].
  - intros i' id' sbx res Ho. rewrite Hp, at_node_insert, Eat. intros [(-> & Hf & <- & <-)|(Hne & H)].
    + rewrite decide_True by (split; [by apply Hnew|done]). by rewrite Hf.
    + case_decide as E; [|by eapply (co_job _ _ (wi_counted _ W))]. destruct E as [-> ->]. destruct H as (jo & Hjo & Hat & Hs & _).
      exfalso. apply Hne. eapply other_job; [done|exact Hjo|done|by rewrite Hat].
Qed.

End call.

Lemma call_counted w i j A (c : call A) k x ns a : world_inv w → w_jobs w !! i = Some j → j_prog j = Do c k → exec c x (w_nodes w) = Some (ns, a) →
  call_pre (j_rq j) A c (j_done j) (w_nodes w) → accounted ns (<[i := mkJob (j_rq j) (k a) (record c (j_done j) a)]> (w_jobs w)).
Proof using.
  intros W Hi Ep He Hpre. destruct c as [|n|id|id|id|id|id|id sbx res|id sbx|id|id|id res|id sbx]; cbn [exec call_pre] in He, Hpre;
    try (apply reads_cases in He as [-> _]; by eapply counted_same).
  - destruct x; try done. injection He as <- _. by eapply counted_same.
  - destruct x; try done. case_bool_decide; [|done]. injection He as <- _. by eapply counted_same.
  - destruct Hpre as (Hat & -> & ->). destruct x; try done. injection He as <- _.
    eapply (counted_change w i j _ _ _ _ _ W Hi Ep id (Some id)); [done|by intros id0; rewrite Hat|congruence|]. intros id' sbx. case_decide as E.
    + destruct E as [-> ->]. rewrite fn_lookup_insert. cbn. by rewrite lookup_insert_eq.
    + destruct (decide (id = id')) as [->|Hne]; [|by rewrite fn_lookup_insert_ne]. rewrite fn_lookup_insert. cbn. rewrite lookup_insert_ne; [done|]. intros <-. by apply E.
  - destruct Hpre as (Hat & ->). destruct x; try done. injection He as <- _.
    eapply (counted_change w i j _ _ _ _ _ W Hi Ep id None); [done|intros id0; rewrite Hat; congruence|done|]. intros id' sbx. case_decide as E.
    + destruct E as [-> ->]. rewrite fn_lookup_insert. cbn. by rewrite lookup_delete_eq.
    + destruct (decide (id = id')) as [->|Hne]; [|by rewrite fn_lookup_insert_ne]. rewrite fn_lookup_insert. cbn. rewrite lookup_delete_ne; [done|]. intros <-. by apply E.
  - destruct x; try done. injection He as <- _. eapply counted_same; [done|done|done|]. intros id'. by apply progress_insert.
  - destruct x; try done. injection He as <- _. eapply counted_same; [done|done|done|]. intros id'. by apply progress_insert.
  - destruct x as [|on| |]; try done. injection He as <- _. eapply counted_same; [done|done|done|]. intros id'. destruct on; [by apply progress_insert|done].
  - destruct x; try done. injection He as <- _. by eapply counted_same.
Qed.

Lemma placement_call_inv w i j A (c : call A) k x ns a : world_inv w → w_jobs w !! i = Some j → j_prog j = Do c k → exec c x (w_nodes w) = Some (ns, a) →
  world_inv (mkWorld ns (<[i := mkJob (j_rq j) (k a) (record c (j_done j) a)]> (w_jobs w))).
Proof using.
  intros W Hi Ep He. pose proof (wi_course _ W _ _ Hi (w_nodes w)) as Hc. rewrite Ep in Hc. destruct (Hc (w_nodes w) I) as [Hpre Hk].
  assert (Hin : ∀ n jn, <[i := mkJob (j_rq j) (k a) (record c (j_done j) a)]> (w_jobs w) !! n = Some jn → running jn = true → ∃ jo, w_jobs w !! n = Some jo ∧ running jo = true ∧ j_rq jo = j_rq jn).
  { intros n jn Hn Hr. apply list_lookup_insert_Some in Hn as [(<- & <- & _)|(_ & Hn)]; [|by exists jn]. exists j. split_and!; [done| |done]. unfold running. by rewrite Ep. }
  split; cbn.
  - intros n jn Hn. apply list_lookup_insert_Some in Hn as [(<- & <- & _)|(_ & Hn)]; [|by apply (wi_course _ W n)].
    eapply course_any, (Hk a _ ns). split; [done|]. by exists x.
  - by eapply call_counted.
  - intros n m jn jm H1 Hn Hm Rn Rm E. apply Hin in Hn as (jo & Ho & Ro & Eo); [|done]. apply Hin in Hm as (jp & Hp & Rp & Ep'); [|done].
    eapply (wi_apart _ W); [|exact Ho|exact Hp|done|done|]; [by rewrite Eo|by rewrite Eo, Ep'].
Qed.

Lemma placement_ecall_inv i x w w' : move (ECall i x) w = Some w' → ∃ j A (c : call A) k ns a, w_jobs w !! i = Some j ∧ j_prog j = Do c k ∧
  exec c x (w_nodes w) = Some (ns, a) ∧ w' = mkWorld ns (<[i := mkJob (j_rq j) (k a) (record c (j_done j) a)]> (w_jobs w)).
Proof.
  cbn [move]. destruct (w_jobs w !! i) as [j|]; [|done]. cbn. unfold run_job. destruct (j_prog j) as [r|A c k] eqn:Ep; [done|].
  destruct (exec c x (w_nodes w)) as [[ns a]|] eqn:He; [|done]. cbn. intros [= <-]. by exists j, A, c, k, ns, a.
Qed.

Lemma placement_move_inv e w w' : world_inv w → placed_once one e w = true → move e w = Some w' → world_inv w'.
Proof using.
  intros W Ho He. destruct e as [config rq clusterNodes preferred tries|i x|id st c|id r|id res].
  - cbn [move placed_once] in *. injection He as <-. apply placement_spawn_inv; [done|intros H1; by rewrite H1 in Ho|]. eapply (course_any _ _ _ (w_nodes w)), PlaceSandbox_spec.
  - apply placement_ecall_inv in He as (j & A & c & k & ns & a & Hi & Ep & He & ->). by eapply placement_call_inv.
  - injection He as <-. apply same_counted; [|done]. intros id'. by apply progress_insert.
  - injection He as <-. apply same_counted; [|done]. intros id'. by apply progress_insert.
  - injection He as <-. apply same_counted; [|done]. intros id'. by apply progress_insert.
Qed.

Lemma fresh_inv w : fresh w → world_inv w.
Proof using.
  intros [Hj Hp]. split; rewrite ?Hj; [by intros| |by intros]. split; intros *; rewrite Hp, lookup_empty; [done|]. intros _ (j & Hi & _). by rewrite lookup_nil in Hi.
Qed.

Lemma placement_steps_inv w w' : fresh w → rtc (step_once one) w w' → world_inv w'.
Proof using. intros W%fresh_inv Hs. induction Hs as [|w1 w2 w3 (e & Ho & He) _ IH]; [done|]. by eapply IH, placement_move_inv. Qed.
End once.

(** Of no sandbox anything is said. *)
Lemma steps_once w w' : steps w w' → rtc (step_once (λ _, false)) w w'.
Proof. induction 1 as [|w1 w2 w3 [e He] _ IH]; [done|]. eapply rtc_l; [|exact IH]. exists e. split; [by destruct e|done]. Qed.

(** C13. However the placements of an instance interleave, with the reports of
    the nodes and whatever fails, every entry in progress is that of a
    placement at work of the sandbox, with its resources, so that when all
    placements have returned nothing is in progress.  Of every sandbox that is
    placed by one placement at a time ([one]): a node is asked to create it
    only while it counts as in progress there, and it is not in progress at two
    nodes.  [PlaceSandbox] does not see to that condition, and
    [RedisRuns.Release_lets_two_start] shows it can fail: of two placements of
    a sandbox the first that returns drops the entry of the other, as
    [PlacementRuns.Placed_twice_loses_the_entry] shows. *)
Theorem Placements_accounted (one : string → bool) w w' : fresh w → rtc (step_once one) w w' →
  (∀ id sbx res, progress (w_nodes w' id) !! sbx = Some res →
     ∃ i j, w_jobs w' !! i = Some j ∧ running j = true ∧ rq_sandbox (j_rq j) = sbx ∧ rq_resources (j_rq j) = res) ∧
  (∀ i j id sbx k, one sbx = true → w_jobs w' !! i = Some j → j_prog j = Do (SandboxCreate id sbx) k →
     progress (w_nodes w' id) !! sbx = Some (rq_resources (j_rq j))) ∧
  (∀ id id' sbx, one sbx = true → is_Some (progress (w_nodes w' id) !! sbx) → is_Some (progress (w_nodes w' id') !! sbx) → id = id').
Proof.
  intros Hf Hs. pose proof (placement_steps_inv one w w' Hf Hs) as W. pose proof (wi_counted _ _ W) as [C1 C2].
  assert (Hrun : ∀ i id sbx res, at_node (w_jobs w') i id sbx res → ∃ j, w_jobs w' !! i = Some j ∧ d_at (j_done j) = Some id ∧ running j = true ∧ rq_sandbox (j_rq j) = sbx ∧ rq_resources (j_rq j) = res).
  { intros i id sbx res (j & Hi & Hat & H). exists j. split_and!; try apply H; try done. destruct (course_at _ _ _ _ (wi_course _ _ W _ _ Hi) Hat) as (A & c & k & E). unfold running. by rewrite E. }
  split_and!.
  - intros id sbx res (i & (j & Hi & _ & H)%Hrun)%C1. by exists i, j.
  - intros i j id sbx k Ho Hi Ep. pose proof (wi_course _ _ W _ _ Hi (w_nodes w')) as Hc. rewrite Ep in Hc. destruct (Hc (w_nodes w') I) as [[Hat ->] _].
    apply (C2 i); [done|]. by exists j.
  - intros id id' sbx Ho [r1 H1] [r2 H2]. apply C1 in H1 as (i1 & (j1 & Hi1 & A1 & R1 & S1 & _)%Hrun). apply C1 in H2 as (i2 & (j2 & Hi2 & A2 & R2 & S2 & _)%Hrun).
    assert (i1 = i2) as -> by (eapply (wi_apart _ _ W); [by rewrite S1|exact Hi1|exact Hi2|done|done|by rewrite S1, S2]). congruence.
Qed.

(** C37. In every execution, a placement that has returned asked one node at a
    time: with a node, that one said yes after the others before it had said
    no; with an error, all said no, and the error is that the creation failed
    exactly if three nodes failed.  A node that failed otherwise than by being
    full is not asked again. *)
Theorem Placement_tries w w' i rq r h : fresh w → steps w w' → w_jobs w' !! i = Some (mkJob rq (Ret r) h) → tried_for (d_tried h) r.
Proof.
  intros Hf Hs%steps_once Hi. apply (wi_course _ _ (placement_steps_inv _ w w' Hf Hs) _ _ Hi (w_nodes w')).
Qed.
