(* ===== verification/PlacementRuns.v ===== *)
(** * PlacementRuns: executions of placements

    A driver for the placements of [Placement], the executions at which its
    theorems are applied, one in which a removal is counted twice, and one in
    which a sandbox is placed twice at once. *)

From stdpp Require Import relations functions.
From Stdlib Require Import SpecFloat.
From S2P Require Import Prelude Prog Placement.

Notation steps := (rtc step).

(** What a call gets where the context is open, [rand.Intn] draws zero, the
    flag is on, and a node gives the answer [answer]. *)
Definition driven {A} (answer : string → option Code) (c : call A) : choice :=
  match c with
  | Done => Flag false
  | Intn _ => Draw 0
  | AddAllocated _ _ => Flag true
  | SandboxCreate id _ => Answers (answer id)
  | _ => Go
  end.

(** [n] calls of placement [i], fewer if it returns. *)
Fixpoint drive (answer : string → option Code) (i n : nat) (w : world) : option world :=
  match n, j_prog <$> w_jobs w !! i with
  | S n, Some (Do c _) => w ← move (ECall i (driven answer c)) w; drive answer i n w
  | _, _ => Some w
  end.

(** The same where every sandbox is placed by one placement at a time. *)
Definition all (_ : string) : bool := true.
Definition once_all (w w' : world) : Prop := step_once all w w'.

Inductive act := Event (e : event) | Calls (i n : nat) (answer : string → option Code).

Definition act_run (a : act) (w : world) : option world := match a with Event e => move e w | Calls i n answer => drive answer i n w end.

Fixpoint run (l : list act) (w : world) : option world := match l with [] => Some w | a :: l => w ← act_run a w; run l w end.

Lemma drive_steps answer i n w w' : drive answer i n w = Some w' → steps w w'.
Proof.
  revert w. induction n as [|n IH]; intros w; cbn [drive run]; [by intros [= <-]|].
  destruct (j_prog <$> w_jobs w !! i) as [[r|A c k]|]; try by intros [= <-]. destruct (move (ECall i (driven answer c)) w) as [w1|] eqn:E; [|done]. cbn. intros H.
  eapply rtc_l; [by exists (ECall i (driven answer c))|by apply IH].
Qed.

Lemma placement_run_steps l w w' : run l w = Some w' → steps w w'.
Proof.
  revert w. induction l as [|a l IH]; intros w; cbn [drive run]; [by intros [= <-]|]. destruct (act_run a w) as [w1|] eqn:E; [|done]. cbn. intros H.
  etrans; [|by apply IH]. destruct a as [e|i n answer]; [by apply rtc_once; exists e|by eapply drive_steps].
Qed.

(** The driver checks that no sandbox is placed twice at a time. *)
Fixpoint run_apart (l : list act) (w : world) : bool :=
  match l with
  | [] => true
  | a :: l => match a with Event e => placed_once all e w | _ => true end && match act_run a w with Some w => run_apart l w | None => false end
  end.

Lemma drive_once answer i n w w' : drive answer i n w = Some w' → rtc once_all w w'.
Proof.
  revert w. induction n as [|n IH]; intros w; cbn [drive run]; [by intros [= <-]|].
  destruct (j_prog <$> w_jobs w !! i) as [[r|A c k]|]; try by intros [= <-]. destruct (move (ECall i (driven answer c)) w) as [w1|] eqn:E; [|done]. cbn. intros H.
  eapply rtc_l; [by exists (ECall i (driven answer c))|by apply IH].
Qed.

Lemma run_once l w w' : run l w = Some w' → run_apart l w = true → rtc once_all w w'.
Proof.
  revert w. induction l as [|a l IH]; intros w; cbn [run run_apart]; [by intros [= <-]|]. destruct (act_run a w) as [w1|] eqn:E; [|done]. cbn.
  intros H [Ha Hl]%andb_true_iff. etrans; [|by apply IH]. destruct a as [e|i n answer]; [by apply rtc_once; exists e|by eapply drive_once].
Qed.

Lemma run_proj {A} l w (f : world → A) a : f <$> run l w = Some a → ∃ w', run l w = Some w' ∧ f w' = a.
Proof. intros (w' & H & Hw)%fmap_Some. by exists w'. Qed.

(** Two nodes of 4 CPUs, the first of them half allocated. *)
Definition sample_node (allocated : Z) : Node :=
  mkNode NodeReady ConnOther (mkMachine "x86_64" "6" IceLakeModel) ∅ (mkMetrics allocated 50 4 0 0 0 0) (mkPlacement ∅ 0 0).
Definition sample_world : world := mkWorld (λ id, if bool_decide (id = "a") then sample_node 8 else sample_node 2) [].

Lemma sample_fresh : fresh sample_world.
Proof. split; [done|]. intros id. cbn. by case_bool_decide. Qed.

Definition sample_request (sbx : string) : request := mkRequest sbx (mkResources 2 512) (mkMachine "x86_64" "6" IceLakeModel) true [].
Definition fitting : BestOfKConfig := mkConfig (float64 4) (f_div (float64 1) (float64 2)) 3 true true.
Definition place (sbx : string) : act := Event (ESpawn fitting (sample_request sbx) ["a"; "b"] None 9).

Definition says (err : option Code) : string → option Code := λ _, err.
Definition only_b (id : string) : option Code := if bool_decide (id = "b") then Some OtherCode else None.

Definition placed (i : nat) (w : world) : option (result place_err string * list (string * option Code)) :=
  j ← w_jobs w !! i; match j_prog j with Ret r => Some (r, d_tried (j_done j)) | Do _ _ => None end.
Definition in_progress (w : world) (id : string) : list string := (map_to_list (progress (w_nodes w id))).*1.
Definition allocated (w : world) (id : string) : Z := CpuAllocated (n_metrics (w_nodes w id)).

(** The emptier node is taken; when it fails the other is. *)
Lemma Emptier_node_is_taken : (λ w, (placed 0 w, allocated w "a", allocated w "b")) <$> run [place "s"; Calls 0 30 (says None)] sample_world =
  Some (Some (Ok "b", [("b", None)]), 8, 4).
Proof. vm_compute. reflexivity. Qed.
Lemma Failed_node_is_left : (λ w, (placed 0 w, allocated w "a", allocated w "b")) <$> run [place "s"; Calls 0 60 only_b] sample_world =
  Some (Some (Ok "a", [("b", Some OtherCode); ("a", None)]), 10, 2).
Proof. vm_compute. reflexivity. Qed.

(** Two placements at once: the second starts while the first waits for its
    node. *)
Definition halfway : list act := [place "s"; Calls 0 18 (says None); place "t"; Calls 1 18 (says None)].

Lemma Placements_accounted_witness : ∃ w, rtc once_all sample_world w ∧ (in_progress w "a", in_progress w "b") = ([], ["s"; "t"]) ∧
  ∀ sbx, is_Some (progress (w_nodes w "b") !! sbx) → ¬ is_Some (progress (w_nodes w "a") !! sbx).
Proof.
  destruct (run_proj halfway sample_world (λ w, (in_progress w "a", in_progress w "b")) ([], ["s"; "t"])) as (w & Hr & Hw); [vm_compute; reflexivity|].
  exists w. pose proof (run_once _ _ _ Hr ltac:(vm_compute; reflexivity)) as Hs. split_and!; [exact Hs|exact Hw|].
  destruct (Placements_accounted all sample_world w sample_fresh Hs) as (_ & _ & H). intros sbx Hb Ha. by specialize (H _ _ _ eq_refl Ha Hb).
Defined.

Lemma Placement_tries_witness : ∃ w h, steps sample_world w ∧ w_jobs w !! 0%nat = Some (mkJob (sample_request "s") (Ret (Ok "a")) h) ∧ tried_for (d_tried h) (Ok "a").
Proof.
  destruct (run_proj [place "s"; Calls 0 60 only_b] sample_world (λ w, match w_jobs w with [mkJob rq (Ret (Ok n)) h] => Some (rq, n, h) | _ => None end)
    (Some (sample_request "s", "a", mkDone None [("b", Some OtherCode); ("a", None)]))) as (w & Hr & Hw); [vm_compute; reflexivity|].
  pose proof (placement_run_steps _ _ _ Hr) as Hs. exists w, (mkDone None [("b", Some OtherCode); ("a", None)]).
  assert (Hj : w_jobs w !! 0%nat = Some (mkJob (sample_request "s") (Ret (Ok "a")) (mkDone None [("b", Some OtherCode); ("a", None)]))).
  { clear Hr Hs. destruct (w_jobs w) as [|[rq p h] [|]]; try done; destruct p as [[n|]|]; try done. by injection Hw as -> -> ->. }
  split_and!; [exact Hs|exact Hj|]. exact (Placement_tries sample_world w 0 _ _ _ sample_fresh Hs Hj).
Defined.

(** The sandbox is gone from the node and its report, then its removal is
    subtracted from the report: the node looks full. *)
Definition report_first : list act :=
  [Event (EReport "a" (mkReport NodeReady (mkMachine "x86_64" "6" IceLakeModel) ∅ (mkMetrics 0 0 4 0 0 0 0)));
   Event (ERemoved "a" (mkResources 2 512)); Event (EStatus "b" NodeDraining ConnOther)].

Lemma Removal_counted_twice : (λ w, (allocated w "a", placed 0 w)) <$> run (report_first ++ [Event (ESpawn fitting (mkRequest "s" (mkResources 1 512) (mkMachine "" "" "") false []) ["a"; "b"] None 9); Calls 0 30 (says None)]) sample_world =
  Some (2 ^ 32 - 2, Some (Err NoNodeAvailable, [])).
Proof. vm_compute. reflexivity. Qed.

(** Two placements of one sandbox at once, both at node [b]: the first returns
    and drops the entry, while the second still waits for the node. *)
Definition placed_twice : list act := [place "s"; place "s"; Calls 0 18 (says None); Calls 1 18 (says None)].

Definition waiting_at (i : nat) (w : world) : option string :=
  j ← w_jobs w !! i; match j_prog j with Ret _ => None | Do c _ => match c with SandboxCreate id _ => Some id | _ => None end end.

Lemma Placed_twice_loses_the_entry :
  (λ w, (waiting_at 0 w, waiting_at 1 w, in_progress w "b")) <$> run placed_twice sample_world = Some (Some "b", Some "b", ["s"]) ∧
  (λ w, (placed 0 w, waiting_at 1 w, in_progress w "b")) <$> run (placed_twice ++ [Calls 0 9 (says None)]) sample_world =
    Some (Some (Ok "b", [("b", None)]), Some "b", []).
Proof. vm_compute. by split. Qed.
