(* ===== verification/Egress.v ===== *)
(** * Egress: what a sandbox may send where

    Models the firewall of a network slot ([sandbox/network/firewall.go],
    [slot.go]), the TCP proxy behind it ([tcpfirewall/handlers.go],
    [proxy.go]) and the address lists of [shared/pkg/sandbox-network]
    ([firewall.go], [byop.go]).

    The firewall buffers messages to the kernel and commits them in one flush;
    a packet from the tap interface is judged by the chain of rules the kernel
    holds.  TCP that passes is redirected to the proxy, which decides by host
    name and address and dials.  The nftables connection is a buffer that a
    flush applies as a whole or not at all, and that a failure may leave in any
    state; the sets of [firewall_toolkit] are the interface [Toolkit].  Packets
    are IPv4; host names are ASCII. *)

From Stdlib Require Import Ascii.
From stdpp Require Import relations strings.
From S2P Require Import Prelude.

(** ** Addresses ([net]) *)

(** [net.IP]: an address that [To4] maps to one is [V4]. *)
Inductive IP := V4 (a : Z) | V6 (a : Z).

#[global] Instance IP_eq_dec : EqDecision IP.
Proof. solve_decision. Defined.

Record IPNet := mkNet { net_IP : IP; net_ones : Z }.

Definition same_prefix (bits ones a b : Z) : bool := Z.shiftr a (bits - ones) =? Z.shiftr b (bits - ones).

Definition Contains (n : IPNet) (ip : IP) : bool :=
  match net_IP n, ip with
  | V4 a, V4 b => same_prefix 32 (net_ones n) a b
  | V6 a, V6 b => same_prefix 128 (net_ones n) a b
  | _, _ => false
  end.

Fixpoint split_on (c : ascii) (s : string) : list string :=
  match s with
  | EmptyString => [EmptyString]
  | String a s => if bool_decide (a = c) then EmptyString :: split_on c s
                  else match split_on c s with w :: ws => String a w :: ws | [] => [String a EmptyString] end
  end.

Definition digit (base : Z) (a : ascii) : option Z :=
  let n := Z.of_nat (nat_of_ascii a) in
  let d := if (48 <=? n) && (n <=? 57) then n - 48 else if (97 <=? n) && (n <=? 102) then n - 87 else if (65 <=? n) && (n <=? 70) then n - 55 else 16 in
  if d <? base then Some d else None.

Fixpoint number (base : Z) (s : string) (acc : Z) : option Z :=
  match s with EmptyString => Some acc | String a s => d ← digit base a; number base s (acc * base + d) end.

Definition parse_number (base : Z) (s : string) : option Z := if bool_decide (s = EmptyString) then None else number base s 0.

(** At most 255, without leading zeros. *)
Definition parse_octet (s : string) : option Z :=
  n ← parse_number 10 s;
  if (n <=? 255) && (bool_decide (String.length s = 1)%nat || negb (bool_decide (String.get 0 s = Some "0"%char))) then Some n else None.

Definition parse_v4 (s : string) : option Z :=
  match split_on "." s with
  | [a; b; c; d] => a ← parse_octet a; b ← parse_octet b; c ← parse_octet c; d ← parse_octet d; Some (((a * 256 + b) * 256 + c) * 256 + d)
  | _ => None
  end.

Definition parse_groups (l : list string) : option (list Z) :=
  mapM (λ s, n ← parse_number 16 s; if bool_decide (String.length s <= 4)%nat then Some n else None) l.

(** The last groups, which may end as an IPv4 address. *)
Fixpoint parse_tail (l : list string) : option (list Z) :=
  match l with
  | [] => Some []
  | [s] => match parse_v4 s with Some a => Some [a / 65536; a mod 65536] | None => parse_groups [s] end
  | s :: l => g ← parse_groups [s]; gs ← parse_tail l; Some (g ++ gs)
  end.

Definition join_groups (l : list Z) : Z := foldl (λ acc g, acc * 65536 + g) 0 l.

(** Where the groups have one empty place, that of [::]. *)
Fixpoint expand (before after : list string) : option (list Z) :=
  match after with
  | EmptyString :: after =>
      before ← parse_groups before; after ← parse_tail after;
      let n := (length before + length after)%nat in
      if bool_decide (n < 8)%nat then Some (before ++ replicate (8 - n) 0 ++ after) else None
  | g :: after => expand (before ++ [g]) after
  | [] => gs ← parse_tail before; if bool_decide (length gs = 8)%nat then Some gs else None
  end.

(** A lone colon at an end is none of [::]. *)
Definition closed_end (gs : list string) : bool :=
  match gs with EmptyString :: EmptyString :: _ => true | EmptyString :: _ => false | _ => true end.

(** Groups of hexadecimal digits; a [::] at an end splits into two empty
    strings, of which one goes. *)
Definition parse_v6 (s : string) : option Z :=
  let gs := split_on ":" s in
  if negb (closed_end gs) || negb (closed_end (rev gs)) then None
  else
    let gs := match gs with EmptyString :: EmptyString :: gs => EmptyString :: gs | gs => gs end in
    let gs := match rev gs with EmptyString :: EmptyString :: gs => rev (EmptyString :: gs) | _ => gs end in
    gs ← expand [] gs; Some (join_groups gs).

(** An address of [::ffff:0:0/96] is one of IPv4. *)
Definition from_v6 (a : Z) : IP := if Z.shiftr a 32 =? 65535 then V4 (a mod 2 ^ 32) else V6 a.

Definition ParseIP (s : string) : option IP :=
  match parse_v4 s with Some a => Some (V4 a) | None => from_v6 <$> parse_v6 s end.

Definition masked (bits ones a : Z) : Z := Z.shiftl (Z.shiftr a (bits - ones)) (bits - ones).

Definition ParseCIDR (s : string) : option IPNet :=
  match split_on "/" s with
  | [addr; mask] =>
      ones ← parse_number 10 mask;
      match parse_v4 addr, parse_v6 addr with
      | Some a, _ => if ones <=? 32 then Some (mkNet (V4 (masked 32 ones a)) ones) else None
      | None, Some a =>
          if ones <=? 128 then
            match from_v6 (masked 128 ones a) with V4 a => Some (mkNet (V4 a) (ones - 96)) | V6 a => Some (mkNet (V6 a) ones) end
          else None
      | None, None => None
      end
  | _ => None
  end.

Definition IsUnspecified (ip : IP) : bool := match ip with V4 a | V6 a => a =? 0 end.

(** ** [sandbox-network/firewall.go] *)

Definition AllInternetTrafficCIDR : string := "0.0.0.0/0".

Definition DeniedSandboxCIDRs : list string :=
  ["10.0.0.0/8"; "100.64.0.0/10"; "127.0.0.0/8"; "169.254.0.0/16"; "172.16.0.0/12"; "192.168.0.0/16"; "::1/128"; "fc00::/7"; "fe80::/10"].

Definition contains_str (c : ascii) (s : string) : bool := bool_decide (c ∈ String.list_ascii_of_string s).

Definition AddressStringToCIDR (addressString : string) : string :=
  if contains_str "/" addressString then addressString else (addressString ++ "/32")%string.

Definition AddressStringsToCIDRs (addressStrings : list string) : list string := AddressStringToCIDR <$> addressStrings.

Definition IsIPOrCIDR (s : string) : bool :=
  match ParseIP s with Some _ => true | None => match ParseCIDR s with Some _ => true | None => false end end.

(** The address before the mask, as [net.ParseCIDR] returns it. *)
Definition cidr_addr (s : string) : option IP := match ParseCIDR s, split_on "/" s with Some _, addr :: _ => ParseIP addr | _, _ => None end.

Definition IsSpecifiedIPOrCIDR (s : string) : bool :=
  if negb (IsIPOrCIDR s) then false
  else if bool_decide (s = AllInternetTrafficCIDR) then true
  else match ParseIP s with
       | Some ip => negb (IsUnspecified ip)
       | None => match cidr_addr s with Some ip => negb (IsUnspecified ip) | None => false end
       end.

Definition ParseAddressesAndDomains (entries : list string) : list string * list string :=
  foldl (λ '(addresses, domains) entry, if IsIPOrCIDR entry then (addresses ++ [entry], domains) else (addresses, domains ++ [entry])) ([], []) entries.

Lemma ParseAddressesAndDomains_splits entries :
  ParseAddressesAndDomains entries = (filter (λ s, IsIPOrCIDR s = true) entries, filter (λ s, IsIPOrCIDR s = false) entries).
Proof.
  unfold ParseAddressesAndDomains.
  enough (∀ l1 l2, foldl (λ '(addresses, domains) entry, if IsIPOrCIDR entry then (addresses ++ [entry], domains) else (addresses, domains ++ [entry])) (l1, l2) entries
    = (l1 ++ filter (λ s, IsIPOrCIDR s = true) entries, l2 ++ filter (λ s, IsIPOrCIDR s = false) entries)) as E by apply (E [] []).
  induction entries as [|s l IH]; intros l1 l2; cbn [foldl]; [by rewrite !filter_nil, !app_nil_r|].
  rewrite !filter_cons. destruct (IsIPOrCIDR s) eqn:E; rewrite IH; repeat case_decide; try congruence; by rewrite <- app_assoc.
Qed.

(** [byop.go], where the address of a proxy is checked. *)
Definition thisNetworkCIDR : IPNet := mkNet (V4 0) 8.

Definition IsIPInDeniedSandboxCIDRs (ip : option IP) : bool :=
  match ip with
  | None => true
  | Some ip =>
      IsUnspecified ip || Contains thisNetworkCIDR ip ||
      existsb (λ cidr, match ParseCIDR cidr with Some ipNet => Contains ipNet ip | None => false end) DeniedSandboxCIDRs
  end.

(** ** [tcpfirewall/handlers.go] *)

Record Egress := mkEgress { AllowedCidrs : list string; DeniedCidrs : list string; AllowedDomains : list string; EgressProxyAddress : string }.

Inductive MatchType := MatchTypeNone | MatchTypeDomain | MatchTypeCIDR.

Definition lower (a : ascii) : ascii := let n := nat_of_ascii a in if (65 <=? n)%nat && (n <=? 90)%nat then ascii_of_nat (n + 32) else a.
Fixpoint ToLower (s : string) : string := match s with EmptyString => EmptyString | String a s => String (lower a) (ToLower s) end.
Definition EqualFold (s t : string) : bool := bool_decide (ToLower s = ToLower t).

Definition HasSuffix (s suffix : string) : bool :=
  bool_decide (String.length suffix <= String.length s)%nat &&
  bool_decide (String.substring (String.length s - String.length suffix) (String.length suffix) s = suffix).

Definition matchDomain (hostname pattern : string) : bool :=
  if bool_decide (pattern = EmptyString) then false
  else if EqualFold pattern hostname then true
  else if EqualFold pattern "*" then true
  else match pattern with
       | String "*" (String "." _ as suffix) => HasSuffix (ToLower hostname) (ToLower suffix)
       | _ => false
       end.

Inductive egress_err := InvalidCIDR (cidr : string).

(** The first CIDR that does not parse, or whether one holds the address. *)
Fixpoint in_cidrs (cidrs : list string) (ip : IP) : result egress_err bool :=
  match cidrs with
  | [] => Ok false
  | cidr :: cidrs =>
      match ParseCIDR cidr with
      | None => Err (InvalidCIDR cidr)
      | Some ipNet => if Contains ipNet ip then Ok true else in_cidrs cidrs ip
      end
  end.

Definition isEgressAllowed (egress : option Egress) (hostname : string) (ip : IP) : result egress_err (bool * MatchType) :=
  match egress with
  | None => Ok (true, MatchTypeNone)
  | Some egress =>
      if negb (bool_decide (hostname = EmptyString)) && existsb (matchDomain hostname) (AllowedDomains egress) then Ok (true, MatchTypeDomain)
      else match in_cidrs (AllowedCidrs egress) ip with
           | Err e => Err e
           | Ok true => Ok (true, MatchTypeCIDR)
           | Ok false =>
               match in_cidrs (DeniedCidrs egress) ip with
               | Err e => Err e
               | Ok true => Ok (false, MatchTypeCIDR)
               | Ok false => Ok (true, MatchTypeNone)
               end
           end
  end.

Definition isIPInAlwaysDeniedCIDRs (ip : IP) : bool :=
  existsb (λ cidr, match ParseCIDR cidr with Some ipNet => Contains ipNet ip | None => false end) DeniedSandboxCIDRs.

(** [resolved] are the addresses of the host name that answer, in the order
    they are tried; each is checked before it is connected to. *)
Definition proxyWithIPVerification (resolved : list IP) : option IP := head (filter (λ ip, isIPInAlwaysDeniedCIDRs ip = false) resolved).

Definition domainHandler (egress : option Egress) (hostname : string) (dstIP : IP) (resolved : list IP) : option IP :=
  match isEgressAllowed egress hostname dstIP with
  | Err _ | Ok (false, _) => None
  | Ok (true, MatchTypeDomain) => proxyWithIPVerification resolved
  | Ok (true, _) => Some dstIP
  end.

Definition cidrOnlyHandler (egress : option Egress) (dstIP : IP) : option IP :=
  match isEgressAllowed egress EmptyString dstIP with Ok (true, _) => Some dstIP | _ => None end.

(** ** The firewall of a slot *)

Inductive ipset := PredefinedDeny | PredefinedAllow | UserDeny | UserAllow.

#[global] Instance ipset_eq_dec : EqDecision ipset.
Proof. solve_decision. Defined.

(** The rules that are added, each for packets from the tap interface:
    [addEstablishedAcceptRule], [addSetFilterRule], [addNonTCPSetFilterRule]
    and [addTapDropRule]. *)
Inductive rule := AcceptEstablished | SetFilter (s : ipset) (drop : bool) | NonTCPSetFilter (s : ipset) (drop : bool) | TapDrop.

Record packet := mkPacket { from_tap : bool; established : bool; is_tcp : bool; p_dst : Z }.

(** The chain and the sets, as the kernel holds them. *)
Record ruleset := mkRuleset { chain : list rule; elements_of : ipset → Z → bool }.

(** Whether a rule matches, and whether it drops. *)
Definition rule_matches (k : ruleset) (p : packet) (r : rule) : bool :=
  from_tap p &&
  match r with
  | AcceptEstablished => established p
  | SetFilter s _ => elements_of k s (p_dst p)
  | NonTCPSetFilter s _ => negb (is_tcp p) && elements_of k s (p_dst p)
  | TapDrop => true
  end.

Definition rule_drops (r : rule) : bool := match r with SetFilter _ drop | NonTCPSetFilter _ drop => drop | TapDrop => true | AcceptEstablished => false end.

(** The first rule that matches decides; the policy is to accept. *)
Fixpoint judge (k : ruleset) (p : packet) (rules : list rule) : bool :=
  match rules with [] => true | r :: rules => if rule_matches k p r then negb (rule_drops r) else judge k p rules end.

Definition accepts (k : ruleset) (p : packet) : bool := judge k p (chain k).

(** [nftables.Conn]: messages wait in a buffer until the flush. *)
Inductive msg := FlushChain | AddRule (r : rule) | FlushSet (s : ipset) | AddElements (s : ipset) (elems : Z → bool).

Definition with_elements (s : ipset) (f : Z → bool) (k : ruleset) : ruleset :=
  mkRuleset (chain k) (λ s', if bool_decide (s' = s) then f else elements_of k s').

Definition apply_msg (k : ruleset) (m : msg) : ruleset :=
  match m with
  | FlushChain => mkRuleset [] (elements_of k)
  | AddRule r => mkRuleset (chain k ++ [r]) (elements_of k)
  | FlushSet s => with_elements s (λ _, false) k
  | AddElements s elems => with_elements s (λ a, elements_of k s a || elems a) k
  end.

(** [firewall_toolkit]: the addresses of a list of strings, unless one does
    not parse or is rejected. *)
Class Toolkit := {
  AddressStringsToSetData : list string → option (Z → bool);
  denied_set_data : ∃ f, AddressStringsToSetData DeniedSandboxCIDRs = Some f ∧ ∀ a, f a = isIPInAlwaysDeniedCIDRs (V4 a)
}.

(** What the kernel and the libraries answer to an operation: whether the
    namespace opens, the elements of a set are accepted, the flush succeeds,
    what a failed one leaves in the buffer, and whether a new connection
    opens. *)
Record answer := mkAnswer { an_ns : bool; an_set : ipset → bool; an_flush : bool; an_left : list msg; an_conn : bool }.

Section firewall.
Context `{Toolkit}.

Record Firewall := mkFirewall { fw_buffer : list msg; fw_kernel : ruleset; fw_allowedRanges : list string }.

Definition with_buffer (b : list msg) (fw : Firewall) : Firewall := mkFirewall b (fw_kernel fw) (fw_allowedRanges fw).

Definition installRules (byop : bool) : list msg :=
  [AddRule AcceptEstablished;
   AddRule (SetFilter PredefinedAllow false);
   AddRule (if byop then NonTCPSetFilter PredefinedDeny true else SetFilter PredefinedDeny true);
   AddRule (NonTCPSetFilter UserAllow false);
   AddRule (NonTCPSetFilter UserDeny true)].

(** From 0.0.0.0 up to, and without, the end of the interval. *)
Definition all_traffic (a : Z) : bool := (0 <=? a) && (a <? 2 ^ 32 - 1).

Definition DeniedSandboxSetData : Z → bool := default (λ _, false) (AddressStringsToSetData DeniedSandboxCIDRs).

(** What is put into the buffer, and whether without an error. *)
Definition buffering : Type := list msg * bool.

Definition and_buffer (p q : buffering) : buffering := if p.2 then (p.1 ++ q.1, q.2) else p.

Section user_rules.
Context (a : answer).

Definition ClearAndAddElements (s : ipset) (data : Z → bool) : buffering :=
  and_buffer ([FlushSet s], true) (if an_set a s then ([AddElements s data], true) else ([], false)).

Definition clearAndReplaceCIDRs (s : ipset) (cidrs : list string) : buffering :=
  if bool_decide (length cidrs = O) then ([FlushSet s], true)
  else if bool_decide (AllInternetTrafficCIDR ∈ cidrs) then ClearAndAddElements s all_traffic
  else match AddressStringsToSetData cidrs with None => ([], false) | Some data => ClearAndAddElements s data end.

Definition bufferUserRules (allowedRanges allowedCIDRs deniedCIDRs : list string) : buffering :=
  and_buffer (ClearAndAddElements PredefinedDeny DeniedSandboxSetData)
    (and_buffer (match AddressStringsToSetData allowedRanges with None => ([], false) | Some data => ClearAndAddElements PredefinedAllow data end)
      (and_buffer (clearAndReplaceCIDRs UserDeny deniedCIDRs) (clearAndReplaceCIDRs UserAllow allowedCIDRs))).

Definition Flush (fw : Firewall) : Firewall * bool :=
  if an_flush a then (mkFirewall [] (foldl apply_msg (fw_kernel fw) (fw_buffer fw)) (fw_allowedRanges fw), true)
  else (with_buffer (an_left a) fw, false).

(** Without a new connection the old one is kept, with what it holds. *)
Definition resetConn (fw : Firewall) : Firewall := if an_conn a then with_buffer [] fw else fw.

(** The messages are buffered and, without an error, flushed; on any failure
    the connection is replaced. *)
Definition commit (b : buffering) (fw : Firewall) : Firewall * bool :=
  let fw := with_buffer (fw_buffer fw ++ b.1) fw in
  let '(fw, ok) := if b.2 then Flush fw else (fw, false) in
  if ok : bool then (fw, true) else (resetConn fw, false).

Definition ApplyRules (byop : bool) (allowedCIDRs deniedCIDRs : list string) (fw : Firewall) : Firewall * bool :=
  commit (and_buffer (FlushChain :: installRules byop, true) (bufferUserRules (fw_allowedRanges fw) allowedCIDRs deniedCIDRs)) fw.

(** [DenyEgress] of the firewall. *)
Definition denyAll (fw : Firewall) : Firewall * bool := commit ([FlushChain; AddRule AcceptEstablished; AddRule TapDrop], true) fw.

Definition NewFirewall (orchestratorInternalIP : string) (extraAllowedCIDRs : list string) : option Firewall :=
  let allowedRanges := (orchestratorInternalIP ++ "/32")%string :: extraAllowedCIDRs in
  let b := and_buffer (installRules false, true) (bufferUserRules allowedRanges [] []) in
  if b.2 then (let '(fw, ok) := Flush (mkFirewall b.1 (mkRuleset [] (λ _ _, false)) allowedRanges) in if ok : bool then Some fw else None)
  else None.
End user_rules.

(** ** [slot.go] *)

(** A slot whose firewall is initialised. *)
Record Slot := mkSlot { s_Firewall : Firewall; firewallCustomRules : bool }.

Definition InitializeFirewall (a : answer) (orchestratorIP : string) (internalCIDRs : list string) : option Slot :=
  fw ← NewFirewall a orchestratorIP internalCIDRs; Some (mkSlot fw false).

Definition hasUserRules (egress : option Egress) : bool :=
  match egress with
  | None => false
  | Some e => negb (bool_decide (length (AllowedCidrs e) = O)) || negb (bool_decide (length (DeniedCidrs e) = O)) || negb (bool_decide (length (AllowedDomains e) = O))
  end.

Definition hasBYOP (egress : option Egress) : bool :=
  match egress with None => false | Some e => negb (bool_decide (EgressProxyAddress e = EmptyString)) end.

Definition allowed_of (egress : option Egress) : list string := match egress with None => [] | Some e => AllowedCidrs e end.
Definition denied_of (egress : option Egress) : list string := match egress with None => [] | Some e => DeniedCidrs e end.

Definition on_firewall (custom : bool) (r : Firewall * bool) : Slot * bool := (mkSlot r.1 custom, r.2).

Definition ConfigureInternet (a : answer) (egress : option Egress) (s : Slot) : Slot * bool :=
  if negb (hasUserRules egress) && negb (hasBYOP egress) then (s, true)
  else if negb (an_ns a) then (mkSlot (s_Firewall s) true, false)
  else on_firewall true (ApplyRules a (hasBYOP egress) (allowed_of egress) (denied_of egress) (s_Firewall s)).

Definition UpdateInternet (a : answer) (egress : option Egress) (s : Slot) : Slot * bool :=
  if negb (an_ns a) then (s, false)
  else on_firewall true (ApplyRules a (hasBYOP egress) (allowed_of egress) (denied_of egress) (s_Firewall s)).

Definition DenyEgress (a : answer) (s : Slot) : Slot * bool :=
  if negb (an_ns a) then (s, false) else on_firewall true (denyAll a (s_Firewall s)).

Definition ResetInternet (a : answer) (s : Slot) : Slot * bool :=
  if negb (firewallCustomRules s) then (s, true)
  else if negb (an_ns a) then (s, false)
  else let '(fw, ok) := ApplyRules a false [] [] (s_Firewall s) in (mkSlot fw (negb ok), ok).

Inductive slot_op := Configure (egress : option Egress) | Update (egress : option Egress) | Deny | Reset.

Definition run_op (op : slot_op) (a : answer) : Slot → Slot * bool :=
  match op with Configure e => ConfigureInternet a e | Update e => UpdateInternet a e | Deny => DenyEgress a | Reset => ResetInternet a end.

(** The operations with what they returned. *)
Fixpoint run_ops (l : list (slot_op * answer)) (s : Slot) : Slot * list (slot_op * bool) :=
  match l with
  | [] => (s, [])
  | (op, a) :: l => let '(s, ok) := run_op op a s in let '(s, h) := run_ops l s in (s, (op, ok) :: h)
  end.

(** ** What the rules mean *)

(** What a sandbox may send: everything, save the denied ranges; what its
    rules say; nothing. *)
Inductive policy := Ruled (byop : bool) (allowed denied : Z → bool) | Isolated.

Definition open_policy : policy := Ruled false (λ _, false) (λ _, false).

(** The addresses of the rules of a user. *)
Definition cidrs_set (cidrs : list string) : Z → bool :=
  if bool_decide (length cidrs = O) then λ _, false
  else if bool_decide (AllInternetTrafficCIDR ∈ cidrs) then all_traffic
  else default (λ _, false) (AddressStringsToSetData cidrs).

Definition policy_of (egress : option Egress) : policy := Ruled (hasBYOP egress) (cidrs_set (allowed_of egress)) (cidrs_set (denied_of egress)).

(** The last operation that succeeded decides. *)
Definition policy_after (h : list (slot_op * bool)) : policy :=
  foldl (λ m '(op, ok), if ok : bool then match op with
    | Configure e => if hasUserRules e || hasBYOP e then policy_of e else m
    | Update e => policy_of e
    | Deny => Isolated
    | Reset => open_policy
    end else m) open_policy h.

(** The addresses every sandbox may reach. *)
Definition always_allowed (allowedRanges : list string) : Z → bool := default (λ _, false) (AddressStringsToSetData allowedRanges).

Definition permits (allowedRanges : list string) (m : policy) (p : packet) : bool :=
  let a := p_dst p in
  negb (from_tap p) || established p ||
  match m with
  | Isolated => false
  | Ruled byop allowed denied =>
      always_allowed allowedRanges a ||
      (negb (isIPInAlwaysDeniedCIDRs (V4 a)) || byop && is_tcp p) && (is_tcp p || allowed a || negb (denied a))
  end.

(** ** Where a connection goes *)

(** [CreateNetwork] and [OnSlotCreate]: TCP that comes from a slot is
    redirected by the first of these that matches. *)
Inductive service := Hyperloop | Portmapper | NFSProxy | HTTPFirewall | TLSFirewall | OtherFirewall.

Record redirect := mkRedirect { rd_dst : option Z; rd_dport : option Z; rd_to : service }.

Definition redirects (orchestratorIP : Z) : list redirect :=
  [mkRedirect (Some orchestratorIP) (Some 80) Hyperloop; mkRedirect (Some orchestratorIP) (Some 111) Portmapper;
   mkRedirect (Some orchestratorIP) (Some 2049) NFSProxy; mkRedirect None (Some 80) HTTPFirewall; mkRedirect None (Some 443) TLSFirewall;
   mkRedirect None None OtherFirewall].

Definition matches (o : option Z) (z : Z) : bool := match o with Some y => y =? z | None => true end.

Definition redirected (orchestratorIP dst dport : Z) : option service :=
  rd_to <$> head (filter (λ r, matches (rd_dst r) dst && matches (rd_dport r) dport = true) (redirects orchestratorIP)).

Inductive fate := Dropped | Served (s : service) | Dialled (ip : IP) | Closed | Forwarded (ip : IP).

(** The routes of the listeners: with a host name by name, else by address. *)
Definition listener (s : service) (egress : option Egress) (hostname : option string) (dst : IP) (resolved : list IP) : fate :=
  let dialled o := match o with Some ip => Dialled ip | None => Closed end in
  match s, hostname with
  | (HTTPFirewall | TLSFirewall), Some h => dialled (domainHandler egress h dst resolved)
  | (HTTPFirewall | TLSFirewall | OtherFirewall), _ => dialled (cidrOnlyHandler egress dst)
  | s, _ => Served s
  end.

(** The first packet of a flow from the guest. *)
Definition fate_of (k : ruleset) (orchestratorIP : Z) (egress : option Egress) (p : packet) (dport : Z) (hostname : option string) (resolved : list IP) : fate :=
  if negb (accepts k p) then Dropped
  else if is_tcp p then
    match redirected orchestratorIP (p_dst p) dport with
    | Some s => listener s egress hostname (V4 (p_dst p)) resolved
    | None => Forwarded (V4 (p_dst p))
    end
  else Forwarded (V4 (p_dst p)).

(** ** The firewall holds the policy *)

Lemma accepts_rules byop k p :
  chain k = AcceptEstablished :: SetFilter PredefinedAllow false :: (if byop : bool then NonTCPSetFilter PredefinedDeny true else SetFilter PredefinedDeny true) ::
    [NonTCPSetFilter UserAllow false; NonTCPSetFilter UserDeny true] →
  accepts k p = negb (from_tap p) || established p || elements_of k PredefinedAllow (p_dst p) ||
    (negb (elements_of k PredefinedDeny (p_dst p)) || byop && is_tcp p) &&
    (is_tcp p || elements_of k UserAllow (p_dst p) || negb (elements_of k UserDeny (p_dst p))).
Proof.
  intros E. unfold accepts. rewrite E. destruct byop; cbn; unfold rule_matches; destruct (from_tap p), (established p), (is_tcp p); cbn;
    repeat (match goal with |- context [elements_of ?k ?s ?a] => destruct (elements_of k s a) end; cbn); done.
Qed.

(** The sets that a buffer leaves, whatever they were. *)
Definition leaves (ms : list msg) (s : ipset) (f : Z → bool) : Prop :=
  ∀ k, chain (foldl apply_msg k ms) = chain k ∧
       ∀ s' a, elements_of (foldl apply_msg k ms) s' a = if bool_decide (s' = s) then f a else elements_of k s' a.

Lemma ClearAndAddElements_leaves a s data ms : ClearAndAddElements a s data = (ms, true) → leaves ms s data.
Proof.
  unfold ClearAndAddElements, and_buffer. cbn. destruct (an_set a s); [|done]. intros [= <-] k. split; [done|].
  intros s' a'. cbn. repeat (case_bool_decide; subst; cbn); done.
Qed.

Lemma clearAndReplaceCIDRs_leaves a s cidrs ms : clearAndReplaceCIDRs a s cidrs = (ms, true) → leaves ms s (cidrs_set cidrs).
Proof.
  unfold clearAndReplaceCIDRs, cidrs_set. case_bool_decide.
  { intros [= <-] k. split; [done|]. intros s' a'. cbn. by case_bool_decide. }
  case_bool_decide; [apply ClearAndAddElements_leaves|]. destruct (AddressStringsToSetData cidrs); [|done]. apply ClearAndAddElements_leaves.
Qed.

Lemma and_buffer_true p q ms : and_buffer p q = (ms, true) → ∃ m1 m2, p = (m1, true) ∧ q = (m2, true) ∧ ms = m1 ++ m2.
Proof. destruct p as [m1 [|]], q as [m2 b]; intros [= <- ?]; subst. by exists m1, m2. Qed.

Lemma DeniedSandboxSetData_denied a : DeniedSandboxSetData a = isIPInAlwaysDeniedCIDRs (V4 a).
Proof. unfold DeniedSandboxSetData. destruct denied_set_data as (f & -> & Hf). apply Hf. Qed.

(** Messages that end with a full replacement leave the policy, whatever was
    there before them. *)
Lemma rules_hold a byop ranges allowed denied ms k p :
  and_buffer (installRules byop, true) (bufferUserRules a ranges allowed denied) = (ms, true) → chain k = [] →
  accepts (foldl apply_msg k ms) p = permits ranges (Ruled byop (cidrs_set allowed) (cidrs_set denied)) p.
Proof.
  intros (m0 & m1 & [= <-] & (pd & m2 & Hpd%ClearAndAddElements_leaves & (pa & m3 & Hpa & (ud & ua & Hud%clearAndReplaceCIDRs_leaves &
    Hua%clearAndReplaceCIDRs_leaves & ->)%and_buffer_true & ->)%and_buffer_true & ->)%and_buffer_true & ->)%and_buffer_true Hk.
  assert (Hpa' : leaves pa PredefinedAllow (always_allowed ranges)).
  { unfold always_allowed. destruct (AddressStringsToSetData ranges); [|done]. by apply ClearAndAddElements_leaves in Hpa. }
  rewrite !foldl_app. set (k0 := foldl apply_msg k (installRules byop)).
  destruct (Hpd k0) as [C1 E1], (Hpa' (foldl apply_msg k0 pd)) as [C2 E2].
  destruct (Hud (foldl apply_msg (foldl apply_msg k0 pd) pa)) as [C3 E3].
  destruct (Hua (foldl apply_msg (foldl apply_msg (foldl apply_msg k0 pd) pa) ud)) as [C4 E4].
  rewrite (accepts_rules byop); [|rewrite C4, C3, C2, C1; unfold k0; cbn; by rewrite Hk].
  unfold permits. rewrite !E4, !E3, !E2, !E1.
  repeat match goal with |- context [bool_decide (?x = ?y :> ipset)] => let b := eval vm_compute in (bool_decide (x = y)) in change (bool_decide (x = y)) with b end.
  rewrite DeniedSandboxSetData_denied. by rewrite <- !orb_assoc.
Qed.

(** A connection that commits what resets every rule and set it depends on
    leaves the policy; one that fails leaves the rules. *)
Lemma commit_spec a b fw fw' ok : commit a b fw = (fw', ok) →
  fw_allowedRanges fw' = fw_allowedRanges fw ∧
  if ok then ∃ ms, b = (ms, true) ∧ fw_kernel fw' = foldl apply_msg (foldl apply_msg (fw_kernel fw) (fw_buffer fw)) ms
  else fw_kernel fw' = fw_kernel fw.
Proof.
  destruct b as [ms bok]. unfold commit, Flush, resetConn. cbn. destruct bok, (an_flush a), (an_conn a); cbn; intros [= <- <-]; cbn; (split; [done|]); try done;
    exists ms; by rewrite foldl_app.
Qed.

Lemma ApplyRules_spec a byop allowed denied fw fw' ok p : ApplyRules a byop allowed denied fw = (fw', ok) →
  fw_allowedRanges fw' = fw_allowedRanges fw ∧
  accepts (fw_kernel fw') p = if ok then permits (fw_allowedRanges fw) (Ruled byop (cidrs_set allowed) (cidrs_set denied)) p else accepts (fw_kernel fw) p.
Proof.
  intros (Hr & Hk)%commit_spec. split; [done|]. destruct ok; [|by rewrite Hk].
  destruct Hk as (ms & Hb & ->). apply and_buffer_true in Hb as (m0 & m1 & [= <-] & Hb & ->).
  change ((FlushChain :: installRules byop) ++ m1) with ([FlushChain] ++ (installRules byop ++ m1)). rewrite foldl_app.
  apply (rules_hold a); [|done]. unfold and_buffer. cbn. by rewrite Hb.
Qed.

Lemma denyAll_spec a fw fw' ok p : denyAll a fw = (fw', ok) →
  fw_allowedRanges fw' = fw_allowedRanges fw ∧
  accepts (fw_kernel fw') p = if ok then permits (fw_allowedRanges fw) Isolated p else accepts (fw_kernel fw) p.
Proof.
  intros (Hr & Hk)%commit_spec. split; [done|]. destruct ok; [|by rewrite Hk].
  destruct Hk as (ms & [= <-] & ->). cbn. unfold accepts, permits, rule_matches. cbn. by destruct (from_tap p), (established p).
Qed.

(** *** The slot *)

Record holds (s : Slot) (ranges : list string) (m : policy) : Prop := {
  h_ranges : fw_allowedRanges (s_Firewall s) = ranges;
  h_policy p : accepts (fw_kernel (s_Firewall s)) p = permits ranges m p;
  h_custom : firewallCustomRules s = false → m = open_policy
}.

Lemma InitializeFirewall_holds a orch cidrs s : InitializeFirewall a orch cidrs = Some s → holds s ((orch ++ "/32")%string :: cidrs) open_policy.
Proof.
  unfold InitializeFirewall, NewFirewall. destruct (and_buffer _ _) as [ms [|]] eqn:E; [|done]. unfold Flush. cbn. destruct (an_flush a); [|done].
  intros [= <-]. split; [done| |done]. intros p. by apply (rules_hold a false _ [] []).
Qed.

Lemma applied_holds s ranges m m' custom byop allowed denied a fw ok : holds s ranges m →
  ApplyRules a byop allowed denied (s_Firewall s) = (fw, ok) →
  m' = (if ok then Ruled byop (cidrs_set allowed) (cidrs_set denied) else m) → (custom = false → m' = open_policy) →
  holds (mkSlot fw custom) ranges m'.
Proof.
  intros [Hr Hp Hc] E -> Hopen. split; cbn; [by rewrite <- Hr; apply (ApplyRules_spec _ _ _ _ _ _ _ (mkPacket true true true 0) E)| |done].
  intros p. destruct (ApplyRules_spec _ _ _ _ _ _ _ p E) as [_ ->]. rewrite Hr. by destruct ok.
Qed.

Lemma custom_holds s ranges m : holds s ranges m → holds (mkSlot (s_Firewall s) true) ranges m.
Proof. by intros [Hr Hp _]. Qed.

Lemma run_op_holds op a s s' ok ranges h : holds s ranges (policy_after h) → run_op op a s = (s', ok) → holds s' ranges (policy_after (h ++ [(op, ok)])).
Proof.
  intros Hs. unfold policy_after. rewrite foldl_app. change (foldl _ open_policy h) with (policy_after h). cbn [foldl].
  destruct op as [e|e| |]; cbn [run_op].
  - unfold ConfigureInternet, on_firewall. destruct (hasUserRules e || hasBYOP e) eqn:E; rewrite <- negb_orb, E; cbn; [|by intros [= <- <-]].
    destruct (an_ns a); cbn; [|intros [= <- <-]; by eapply custom_holds].
    destruct (ApplyRules _ _ _ _ _) as [fw b] eqn:Ea. intros [= <- <-]. by eapply applied_holds.
  - unfold UpdateInternet, on_firewall. destruct (an_ns a); cbn; [|by intros [= <- <-]].
    destruct (ApplyRules _ _ _ _ _) as [fw b] eqn:Ea. intros [= <- <-]. by eapply applied_holds.
  - unfold DenyEgress, on_firewall. destruct (an_ns a); cbn; [|by intros [= <- <-]].
    destruct (denyAll _ _) as [fw b] eqn:Ea. intros [= <- <-]. destruct Hs as [Hr Hp Hc].
    split; cbn; [rewrite <- Hr; by apply (denyAll_spec _ _ _ _ (mkPacket true true true 0) Ea)| |done].
    intros p. destruct (denyAll_spec _ _ _ _ p Ea) as [_ ->]. rewrite Hr. by destruct b.
  - unfold ResetInternet. destruct (firewallCustomRules s) eqn:Ec; cbn; [|intros [= <- <-]; by rewrite <- (h_custom _ _ _ Hs)].
    destruct (an_ns a); cbn; [|by intros [= <- <-]].
    destruct (ApplyRules _ _ _ _ _) as [fw b] eqn:Ea. intros [= <- <-]. eapply applied_holds; [done|done|by destruct b|by destruct b].
Qed.

Lemma run_ops_holds l s s' h h' ranges : holds s ranges (policy_after h) → run_ops l s = (s', h') → holds s' ranges (policy_after (h ++ h')).
Proof.
  revert s h h'. induction l as [|[op a] l IH]; intros s h h' Hs; cbn [run_ops].
  { intros [= <- <-]. by rewrite app_nil_r. }
  destruct (run_op op a s) as [s1 ok] eqn:E1, (run_ops l s1) as [s2 h2] eqn:E2. intros [= <- <-].
  change ((op, ok) :: h2) with ([(op, ok)] ++ h2). rewrite app_assoc. eapply IH; [|done]. by eapply run_op_holds.
Qed.

(** C38. Whatever fails, and whatever a failed flush leaves in the connection:
    the kernel judges every packet of a slot by the rules of the last operation
    that succeeded.  In particular a slot that was reset, then configured for
    the next sandbox, has the rules of that sandbox and no others. *)
Theorem Slot_keeps_policy a0 orch cidrs l s s' h : InitializeFirewall a0 orch cidrs = Some s → run_ops l s = (s', h) →
  ∀ p, accepts (fw_kernel (s_Firewall s')) p = permits ((orch ++ "/32")%string :: cidrs) (policy_after h) p.
Proof. intros Hi Hr. apply (run_ops_holds l s s' [] h); [by eapply InitializeFirewall_holds|done]. Qed.

(** *** What is dialled *)

Lemma domainHandler_dials egress h dst resolved ip : domainHandler egress h dst resolved = Some ip → ip = dst ∨ isIPInAlwaysDeniedCIDRs ip = false.
Proof.
  unfold domainHandler, proxyWithIPVerification. destruct (isEgressAllowed egress h dst) as [[[|] []]|]; try done; intros E; simplify_eq/=; auto.
  right. apply head_Some_elem_of in E. by apply list_elem_of_filter in E as [? _].
Qed.

Lemma listener_dials s egress hostname dst resolved ip : listener s egress hostname dst resolved = Dialled ip → ip = dst ∨ isIPInAlwaysDeniedCIDRs ip = false.
Proof.
  assert (Hc : cidrOnlyHandler egress dst = Some ip → ip = dst) by (unfold cidrOnlyHandler; destruct (isEgressAllowed _ _ _) as [[[|] m]|]; congruence).
  assert (Hd : ∀ h, domainHandler egress h dst resolved = Some ip → ip = dst ∨ isIPInAlwaysDeniedCIDRs ip = false) by (intros h; apply domainHandler_dials).
  unfold listener. destruct s, hostname as [h|]; try done; repeat case_match; intros [= ->]; eauto.
Qed.

Lemma listener_serves s egress hostname dst resolved s' : listener s egress hostname dst resolved = Served s' → s' = s ∧ s ∈ [Hyperloop; Portmapper; NFSProxy].
Proof. unfold listener. destruct s, hostname; repeat case_match; intros [= <-]; (split; [done|]); set_solver. Qed.

Lemma listener_not s egress hostname dst resolved ip : listener s egress hostname dst resolved ≠ Forwarded ip.
Proof. unfold listener. destruct s, hostname; repeat case_match; done. Qed.

Lemma redirected_orchestrator orch dst dport s : redirected orch dst dport = Some s → s ∈ [Hyperloop; Portmapper; NFSProxy] → dst = orch.
Proof.
  unfold redirected, redirects. rewrite !filter_cons, filter_nil. unfold matches. cbn [rd_dst rd_dport].
  destruct (orch =? dst) eqn:E; [by intros _ _; apply Z.eqb_eq in E|]. cbn [andb].
  rewrite !decide_False by done. repeat case_decide; cbn; intros [= <-]; set_solver.
Qed.

(** C12. Without a proxy of its own a sandbox reaches no denied address, whatever
    its rules, whoever resolves its names and whatever failed before: a packet
    that starts a flow to one is dropped, save those every sandbox may reach;
    a connection the proxy makes by name goes to no denied address; and only a
    packet to the orchestrator is served by it. *)
Theorem Denied_ranges_unreachable a0 orch cidrs l s s' h : InitializeFirewall a0 orch cidrs = Some s → run_ops l s = (s', h) →
  (∀ allowed denied, policy_after h ≠ Ruled true allowed denied) →
  ∀ orchIP egress p dport hostname resolved, from_tap p = true → established p = false →
  match fate_of (fw_kernel (s_Firewall s')) orchIP egress p dport hostname resolved with
  | Dialled ip | Forwarded ip => isIPInAlwaysDeniedCIDRs ip = false ∨ ip = V4 (p_dst p) ∧ always_allowed ((orch ++ "/32")%string :: cidrs) (p_dst p) = true
  | Served _ => p_dst p = orchIP
  | Dropped | Closed => True
  end.
Proof.
  intros Hi Hr Hb orchIP egress p dport hostname resolved Ht He. unfold fate_of.
  destruct (accepts _ p) eqn:Ha; cbn; [|done].
  assert (Hdst : isIPInAlwaysDeniedCIDRs (V4 (p_dst p)) = false ∨ always_allowed ((orch ++ "/32")%string :: cidrs) (p_dst p) = true).
  { pose proof (h_policy _ _ _ (run_ops_holds l s s' [] h _ (InitializeFirewall_holds _ _ _ _ Hi) Hr) p) as Hp. rewrite Ha in Hp.
    unfold permits in Hp. rewrite Ht, He in Hp. cbn [app] in Hp. destruct (policy_after h) as [[|] al de|]; [by destruct (Hb al de)| |done].
    cbn [negb orb andb] in Hp. rewrite orb_false_r in Hp. destruct (always_allowed _ _); [by right|left]. by destruct (isIPInAlwaysDeniedCIDRs _). }
  destruct (is_tcp p); [|destruct Hdst; auto]. destruct (redirected orchIP (p_dst p) dport) as [sv|] eqn:Es; [|destruct Hdst; auto].
  destruct (listener sv egress hostname (V4 (p_dst p)) resolved) eqn:El; [done| | |done|].
  - apply listener_serves in El as [-> Hs]. by eapply redirected_orchestrator.
  - apply listener_dials in El as [->|?]; [destruct Hdst; auto|auto].
  - by apply listener_not in El.
Qed.
End firewall.
