(* ===== verification/EgressRuns.v ===== *)
(** * EgressRuns: slots and connections

    An instance of the sets of [Egress], the executions at which its theorems
    are applied, and a connection to the host that no list denies. *)

From stdpp Require Import relations strings.
From S2P Require Import Prelude Egress.

(** The addresses of lists of CIDRs. *)
Definition cidr_data (l : list string) : option (Z → bool) :=
  if forallb (λ s, bool_decide (is_Some (ParseCIDR s))) l
  then Some (λ a, existsb (λ s, match ParseCIDR s with Some n => Contains n (V4 a) | None => false end) l) else None.

Lemma cidr_denied : ∃ f, cidr_data DeniedSandboxCIDRs = Some f ∧ ∀ a, f a = isIPInAlwaysDeniedCIDRs (V4 a).
Proof. eexists. split; [reflexivity|done]. Qed.

#[global] Instance cidr_toolkit : Toolkit := {| AddressStringsToSetData := cidr_data; denied_set_data := cidr_denied |}.

Definition smooth : answer := mkAnswer true (λ _, true) true [] true.
Definition flush_fails : answer := mkAnswer true (λ _, true) false [AddRule TapDrop] false.

Definition sample_slot : Slot := default (mkSlot (mkFirewall [] (mkRuleset [] (λ _ _, false)) []) false) (InitializeFirewall smooth "192.0.2.1" ["10.5.0.0/16"]).

Definition own_proxy : Egress := mkEgress [] ["0.0.0.0/0"] [] "proxy.example.org:1080".
Definition by_rules : Egress := mkEgress ["1.1.1.1/32"] ["0.0.0.0/0"] ["*.example.org"] EmptyString.

(** A sandbox with a proxy of its own, a reset that fails, one that does not,
    and the next sandbox. *)
Definition sample_ops : list (slot_op * answer) :=
  [(Configure (Some own_proxy), smooth); (Reset, flush_fails); (Reset, smooth); (Configure (Some by_rules), smooth)].

Definition sample_end : Slot * list (slot_op * bool) := run_ops sample_ops sample_slot.

Lemma sample_slot_init : InitializeFirewall smooth "192.0.2.1" ["10.5.0.0/16"] = Some sample_slot.
Proof. reflexivity. Qed.

Lemma sample_history : sample_end.2 = [(Configure (Some own_proxy), true); (Reset, false); (Reset, true); (Configure (Some by_rules), true)].
Proof. vm_compute. reflexivity. Qed.

Lemma Slot_keeps_policy_witness :
  sample_end.2 = [(Configure (Some own_proxy), true); (Reset, false); (Reset, true); (Configure (Some by_rules), true)] ∧
  ∀ p, accepts (fw_kernel (s_Firewall sample_end.1)) p = permits ["192.0.2.1/32"; "10.5.0.0/16"] (policy_of (Some by_rules)) p.
Proof.
  split; [exact sample_history|].
  exact (Slot_keeps_policy smooth "192.0.2.1" ["10.5.0.0/16"] sample_ops sample_slot sample_end.1 sample_end.2 sample_slot_init (surjective_pairing _)).
Defined.

(** A request for an allowed name that resolves to the host and to the world. *)
Definition sample_packet : packet := mkPacket true false true 3405803783.
Definition sample_resolved : list IP := [V4 2130706433; V4 134744072].

Lemma Denied_ranges_unreachable_witness :
  fate_of (fw_kernel (s_Firewall sample_end.1)) 3221225985 (Some by_rules) sample_packet 443 (Some "api.example.org") sample_resolved = Dialled (V4 134744072) ∧
  (isIPInAlwaysDeniedCIDRs (V4 134744072) = false ∨ V4 134744072 = V4 (p_dst sample_packet) ∧ always_allowed ["192.0.2.1/32"; "10.5.0.0/16"] (p_dst sample_packet) = true).
Proof.
  split; [vm_compute; reflexivity|].
  refine (Denied_ranges_unreachable smooth "192.0.2.1" ["10.5.0.0/16"] sample_ops sample_slot sample_end.1 sample_end.2 sample_slot_init (surjective_pairing _) _
    3221225985 (Some by_rules) sample_packet 443 (Some "api.example.org") sample_resolved eq_refl eq_refl).
  rewrite sample_history. discriminate.
Defined.

(** A packet to a denied address is dropped. *)
Lemma Metadata_is_dropped : fate_of (fw_kernel (s_Firewall sample_end.1)) 3221225985 (Some by_rules) (mkPacket true false true 2852039166) 80 (Some "api.example.org") [] = Dropped.
Proof. vm_compute. reflexivity. Qed.

(** An allowed name that resolves to 0.0.0.0 is dialled on the host: the check
    of [proxyWithIPVerification] has no 0.0.0.0/8, unlike that of [byop.go]. *)
Lemma Unspecified_is_dialled :
  fate_of (fw_kernel (s_Firewall sample_end.1)) 3221225985 (Some by_rules) sample_packet 443 (Some "api.example.org") [V4 0] = Dialled (V4 0) ∧
  IsIPInDeniedSandboxCIDRs (Some (V4 0)) = true.
Proof. split; vm_compute; reflexivity. Qed.
