(* ===== verification/Slots.v ===== *)
(** * Slots: the addresses of network slots, and who has them

    Models [sandbox/network/slot.go] (the addresses), [storage.go],
    [storage_memory.go], [storage_local.go] and [storage_kv.go].

    A storage is asked in one step: the first two hold a lock, the third goes by
    compare-and-set on keys of Consul, which may fail applied or not.  The
    interface [SlotStorage] is what the pool relies on; each storage is an
    instance.  [GetIndexedIP] is the interface [IndexedIP]. *)

From Stdlib Require Import Ascii Decimal DecimalString DecimalZ.
From stdpp Require Import strings gmap.
From S2P Require Import Prelude Egress.

(** ** [strconv] *)

Definition Itoa (n : Z) : string := NilZero.string_of_int (Z.to_int n).

Definition Atoi (s : string) : option Z :=
  match s with
  | String "+"%char s => d ← NilZero.uint_of_string s; Some (Z.of_uint d)
  | s => d ← NilZero.int_of_string s; Some (Z.of_int d)
  end.

Lemma to_int_nonnil n : Z.to_int n ≠ Pos Nil ∧ Z.to_int n ≠ Neg Nil.
Proof. destruct n; cbn; split; intros [= E]; by apply DecimalPos.Unsigned.to_uint_nonnil in E. Qed.

Lemma Itoa_digits n : NilZero.int_of_string (Itoa n) = Some (Z.to_int n).
Proof. apply NilZero.isi; apply to_int_nonnil. Qed.

#[global] Instance Itoa_inj : Inj (=) (=) Itoa.
Proof. intros n m E. apply to_int_inj. pose proof (Itoa_digits n) as Hn. rewrite E, Itoa_digits in Hn. congruence. Qed.

Lemma Itoa_head n s : Itoa n ≠ String "+"%char s.
Proof. intros E. pose proof (Itoa_digits n) as H. rewrite E in H. unfold NilZero.int_of_string in H. cbn in H. by destruct (NilEmpty.uint_of_string s). Qed.

Lemma Atoi_Itoa n : Atoi (Itoa n) = Some n.
Proof.
  assert (E : Atoi (Itoa n) = d ← NilZero.int_of_string (Itoa n); Some (Z.of_int d)).
  { unfold Atoi. destruct (Itoa n) as [|[[] [] [] [] [] [] [] []] s] eqn:E; try done. by apply Itoa_head in E. }
  rewrite E, Itoa_digits. cbn. by rewrite of_to.
Qed.

(** ** [slot.go]: addresses *)

(** [netutils.GetIndexedIP]: the address at a place of a network. *)
Class IndexedIP := {
  GetIndexedIP : IPNet → Z → option IP;
  indexed_v4 base ones index : 0 <= base < 2 ^ 32 → 0 <= ones <= 32 → base mod 2 ^ (32 - ones) = 0 → 0 <= index < 2 ^ (32 - ones) →
    GetIndexedIP (mkNet (V4 base) ones) index = Some (V4 (base + index))
}.

Definition vrtMask : Z := 31.
Definition vrtAddressPerSlot : Z := Z.shiftl 1 (32 - vrtMask).

Record Addresses := mkAddresses { Key : string; Idx : Z; vPeerIp : IP; vEthIp : IP; HostIP : IP }.

Definition getSlotName (slotIdx : Z) : string := ("ns-" ++ Itoa slotIdx)%string.

Section slots.
Context `{IndexedIP} (hostNetworkCIDR vrtNetworkCIDR : IPNet).

Definition GetVrtSlotsSize : Z := Z.shiftl 1 (32 - net_ones vrtNetworkCIDR) / vrtAddressPerSlot - vrtAddressPerSlot.
Notation vrtSlotsSize := GetVrtSlotsSize.

Definition NewSlot (key : string) (idx : Z) : option Addresses :=
  if (idx <? 1) || (vrtSlotsSize <? idx) then None
  else
    vEthIp ← GetIndexedIP vrtNetworkCIDR (idx * vrtAddressPerSlot);
    vPeerIp ← GetIndexedIP vrtNetworkCIDR (idx * vrtAddressPerSlot + 1);
    hostIp ← GetIndexedIP hostNetworkCIDR idx;
    Some (mkAddresses key idx vPeerIp vEthIp hostIp).

Lemma NewSlot_idx key idx a : NewSlot key idx = Some a → Idx a = idx ∧ Key a = key ∧ 1 <= idx <= vrtSlotsSize.
Proof using.
  unfold NewSlot. destruct (Z.ltb_spec idx 1), (Z.ltb_spec vrtSlotsSize idx); cbn; try done.
  destruct (GetIndexedIP vrtNetworkCIDR (idx * _)) as [ip1|]; [|done]. cbn. destruct (GetIndexedIP vrtNetworkCIDR _) as [ip2|]; [|done]. cbn.
  destruct (GetIndexedIP hostNetworkCIDR _) as [ip3|]; [|done]. cbn. by intros [= <-].
Qed.

(** The name of a namespace and back. *)
Definition SlotIndexFromNamespace (name : string) : option Z :=
  match name with
  | String "n"%char (String "s"%char (String "-"%char idxStr)) =>
      if bool_decide (idxStr = EmptyString) then None
      else idx ← Atoi idxStr; if (idx <? 1) || (vrtSlotsSize <? idx) then None else Some idx
  | _ => None
  end.

Lemma Itoa_nonempty n : Itoa n ≠ EmptyString.
Proof using. intros E. pose proof (Itoa_digits n) as H'. rewrite E in H'. discriminate H'. Qed.

Lemma SlotIndexFromNamespace_getSlotName idx : 1 <= idx <= vrtSlotsSize → SlotIndexFromNamespace (getSlotName idx) = Some idx.
Proof using.
  intros Hi.
  change (SlotIndexFromNamespace (getSlotName idx)) with
    (if bool_decide (Itoa idx = EmptyString) then None else idx ← Atoi (Itoa idx); if (idx <? 1) || (vrtSlotsSize <? idx) then None else Some idx).
  rewrite bool_decide_eq_false_2 by apply Itoa_nonempty. rewrite Atoi_Itoa. cbn.
  destruct (Z.ltb_spec idx 1), (Z.ltb_spec vrtSlotsSize idx); cbn; (lia || done).
Qed.

(** *** Slots of different indices share no address *)

(** The networks, as [ParseCIDR] returns them; that of the hosts has a place
    for every slot. *)
Record networks (host vrt : Z) : Prop := {
  nw_host : net_IP hostNetworkCIDR = V4 host;
  nw_vrt : net_IP vrtNetworkCIDR = V4 vrt;
  nw_host_ones : 0 <= net_ones hostNetworkCIDR <= 32;
  nw_vrt_ones : 0 <= net_ones vrtNetworkCIDR <= 32;
  nw_host_masked : 0 <= host < 2 ^ 32 ∧ host mod 2 ^ (32 - net_ones hostNetworkCIDR) = 0;
  nw_vrt_masked : 0 <= vrt < 2 ^ 32 ∧ vrt mod 2 ^ (32 - net_ones vrtNetworkCIDR) = 0;
  nw_enough : vrtSlotsSize < 2 ^ (32 - net_ones hostNetworkCIDR)
}.

Lemma vrt_index host vrt idx : networks host vrt → 1 <= idx <= vrtSlotsSize → 0 <= idx * 2 + 1 < 2 ^ (32 - net_ones vrtNetworkCIDR).
Proof using.
  intros N Hi. unfold GetVrtSlotsSize in Hi. change vrtAddressPerSlot with 2 in Hi. rewrite Z.shiftl_1_l in Hi.
  pose proof (Z.mul_div_le (2 ^ (32 - net_ones vrtNetworkCIDR)) 2). lia.
Qed.

Lemma NewSlot_addresses host vrt key idx : networks host vrt → 1 <= idx <= vrtSlotsSize →
  NewSlot key idx = Some (mkAddresses key idx (V4 (vrt + (idx * 2 + 1))) (V4 (vrt + idx * 2)) (V4 (host + idx))).
Proof using.
  intros N Hi. pose proof (vrt_index _ _ _ N Hi) as Hv. unfold NewSlot. change vrtAddressPerSlot with 2.
  destruct (Z.ltb_spec idx 1), (Z.ltb_spec vrtSlotsSize idx); cbn [orb]; try lia.
  destruct N as [Nh Nv Oh Ov Mh Mv En], hostNetworkCIDR as [hip hones], vrtNetworkCIDR as [vip vones]. cbn in *. subst.
  rewrite !indexed_v4 by lia. done.
Qed.

Lemma contains_base base ones n : 0 <= ones <= 32 → base mod 2 ^ (32 - ones) = 0 → 0 <= n < 2 ^ (32 - ones) → same_prefix 32 ones base (base + n) = true.
Proof using.
  intros Ho Hm Hn. unfold same_prefix. rewrite !Z.shiftr_div_pow2 by lia. apply Z.eqb_eq.
  apply Z_div_exact_full_2 in Hm; [|lia]. rewrite Hm at 2. rewrite Z.mul_comm, Z.div_add_l, (Z.div_small n) by lia. lia.
Qed.

Lemma contains_host host vrt i : networks host vrt → 1 <= i <= vrtSlotsSize → Contains hostNetworkCIDR (V4 (host + i)) = true.
Proof using. intros N Hi. unfold Contains. rewrite (nw_host _ _ N). pose proof (nw_enough _ _ N). apply contains_base; [apply N|apply N|lia]. Qed.

Lemma contains_vrt host vrt i n : networks host vrt → 1 <= i <= vrtSlotsSize → i * 2 <= n <= i * 2 + 1 → Contains vrtNetworkCIDR (V4 (vrt + n)) = true.
Proof using. intros N Hi Hn. unfold Contains. rewrite (nw_vrt _ _ N). pose proof (vrt_index _ _ _ N Hi). apply contains_base; [apply N|apply N|lia]. Qed.

(** A network of more than one slot starts at an even address. *)
Lemma vrt_even host vrt i : networks host vrt → 1 <= i <= vrtSlotsSize → vrt mod 2 = 0.
Proof using.
  intros N Hi. pose proof (vrt_index _ _ _ N Hi). destruct (nw_vrt_masked _ _ N) as [_ Hm].
  assert (Hp : 2 ^ (32 - net_ones vrtNetworkCIDR) = 2 * 2 ^ (31 - net_ones vrtNetworkCIDR)).
  { rewrite <- Z.pow_succ_r; [f_equal; lia|]. destruct (Z.le_gt_cases 0 (31 - net_ones vrtNetworkCIDR)); [done|].
    exfalso. assert (32 - net_ones vrtNetworkCIDR <= 0) as Hz by lia. pose proof (Z.pow_le_mono_r 2 (32 - net_ones vrtNetworkCIDR) 0 ltac:(lia) Hz). lia. }
  rewrite Hp in Hm. apply Z_div_exact_full_2 in Hm; [|lia]. rewrite Hm, <- Z.mul_assoc, Z.mul_comm. apply Z.mod_mul. lia.
Qed.

Lemma contains_block host vrt i j n b : networks host vrt → 1 <= i <= vrtSlotsSize → i * 2 <= n <= i * 2 + 1 → bool_decide (i = j) = b →
  Contains (mkNet (V4 (vrt + j * 2)) vrtMask) (V4 (vrt + n)) = b.
Proof using.
  intros N Hi Hn <-. pose proof (vrt_even _ _ _ N Hi) as Hm. unfold Contains, same_prefix. cbn [net_IP net_ones]. change (32 - vrtMask) with 1.
  rewrite !Z.shiftr_div_pow2 by lia. change (2 ^ 1) with 2. apply Z_div_exact_full_2 in Hm; [|lia].
  replace (vrt + j * 2) with ((vrt / 2 + j) * 2) by lia. replace (vrt + n) with ((vrt / 2 + i) * 2 + (n - i * 2)) by lia.
  rewrite Z.div_mul, Z.div_add_l, (Z.div_small (n - i * 2)) by lia. apply eq_bool_prop_intro. rewrite Z.add_0_r. 
  destruct (Z.eqb_spec (vrt / 2 + j) (vrt / 2 + i)); case_bool_decide; cbn; (lia || done).
Qed.

(** The addresses of a slot, those of the link in one block of two. *)
Definition ips (a : Addresses) : list IP := [vPeerIp a; vEthIp a].

(** Every index of the range gives a slot, whose addresses lie in the
    networks configured, the two of its link in a block of their own: slots of
    different indices share no address and no block. *)
Theorem Slots_disjoint host vrt key key' i j : networks host vrt → 1 <= i <= vrtSlotsSize → 1 <= j <= vrtSlotsSize → i ≠ j →
  ∃ a b, NewSlot key i = Some a ∧ NewSlot key' j = Some b ∧ HostIP a ≠ HostIP b ∧ Contains hostNetworkCIDR (HostIP a) = true ∧
    (∀ ip, ip ∈ ips a → Contains vrtNetworkCIDR ip = true ∧ Contains (mkNet (vEthIp a) vrtMask) ip = true ∧ Contains (mkNet (vEthIp b) vrtMask) ip = false).
Proof using.
  intros N Hi Hj Hne. exists (mkAddresses key i (V4 (vrt + (i * 2 + 1))) (V4 (vrt + i * 2)) (V4 (host + i))).
  exists (mkAddresses key' j (V4 (vrt + (j * 2 + 1))) (V4 (vrt + j * 2)) (V4 (host + j))).
  split_and!; [by apply NewSlot_addresses|by apply NewSlot_addresses|cbn; intros [= E]; lia|by eapply contains_host|].
  intros ip [->|[->|[]%elem_of_nil]%elem_of_cons]%elem_of_cons; cbn [vPeerIp vEthIp]; split_and!;
    (eapply contains_vrt; [exact N|exact Hi|lia]) || (eapply contains_block; [exact N|exact Hi|lia|]); (by apply bool_decide_eq_true) || (by apply bool_decide_eq_false).
Qed.

(** ** [storage.go]: what the pool relies on *)

(** [has] are the indices that are taken.  An index acquired was not; what is
    taken stays so until it is released.  [own] are the slots of the storage. *)
Class SlotStorage := {
  store : Type;
  asked : Type;
  has : store → Z → Prop;
  own : Addresses → Prop;
  Acquire : asked → store → store * option Addresses;
  Release : asked → Addresses → store → store * bool;
  acquire_some q s s' a : Acquire q s = (s', Some a) → ¬ has s (Idx a) ∧ has s' (Idx a) ∧ own a ∧ NewSlot (Key a) (Idx a) = Some a;
  acquire_keeps q s i : has s i → has (Acquire q s).1 i;
  release_keeps q s a i : own a → i ≠ Idx a → has s i → has (Release q a s).1 i
}.

(** *** [storage_memory.go] *)

(** [slotsSize] is the length of [freeSlots]. *)
Record StorageMemory := mkMemory { freeSlots : list bool }.

Definition NewStorageMemory (slotsSize : nat) : StorageMemory := mkMemory (replicate slotsSize false).

Definition getMemoryKey (slotIdx : Z) : string := Itoa slotIdx.

(** [rounds] rounds of the loop are left. *)
Fixpoint memory_loop (rounds slotIdx : nat) (s : StorageMemory) : StorageMemory * option Addresses :=
  match rounds with
  | O => (s, None)
  | S rounds =>
      let key := getMemoryKey (Z.of_nat slotIdx) in
      if (freeSlots s !!! slotIdx : bool) then memory_loop rounds (S slotIdx) s
      else (mkMemory (<[slotIdx := true]> (freeSlots s)), NewSlot key (Z.of_nat slotIdx))
  end.

Definition memory_Acquire (_ : ()) (s : StorageMemory) : StorageMemory * option Addresses := memory_loop (length (freeSlots s) - 1) 1 s.

Definition memory_Release (_ : ()) (a : Addresses) (s : StorageMemory) : StorageMemory * bool :=
  (mkMemory (<[Z.to_nat (Idx a) := false]> (freeSlots s)), true).

Definition memory_has (s : StorageMemory) (i : Z) : Prop := 0 <= i ∧ freeSlots s !! Z.to_nat i = Some true.

(** *** [storage_local.go] *)

Record StorageLocal := mkLocal { l_slotsSize : Z; foreignNs : gset string; acquiredNs : gset string }.

Definition NewStorageLocal (foreign : gset string) : StorageLocal := mkLocal vrtSlotsSize foreign ∅.

Definition getLocalKey (slotIdx : Z) : string := Itoa slotIdx.

(** A round finds the time not over, and gets what [os.Stat] says of the
    namespace: that it is there or not, or an error. *)
Fixpoint local_loop (stats : list (option bool)) (slotIdx : Z) (s : StorageLocal) : StorageLocal * option Addresses :=
  match stats with
  | [] => (s, None)
  | available :: stats =>
      if l_slotsSize s <? Z.of_nat (size (acquiredNs s)) then (s, None)
      else
        let slotIdx := slotIdx + 1 in
        let slotName := getSlotName slotIdx in
        if bool_decide (slotName ∈ foreignNs s) then local_loop stats slotIdx s
        else if bool_decide (slotName ∈ acquiredNs s) then local_loop stats slotIdx s
        else match available with
             | None => (s, None)
             | Some false => local_loop stats slotIdx (mkLocal (l_slotsSize s) ({[slotName]} ∪ foreignNs s) (acquiredNs s))
             | Some true => (mkLocal (l_slotsSize s) (foreignNs s) ({[slotName]} ∪ acquiredNs s), NewSlot (getLocalKey slotIdx) slotIdx)
             end
  end.

Definition local_Acquire (stats : list (option bool)) (s : StorageLocal) : StorageLocal * option Addresses := local_loop stats 1 s.

Definition local_Release (_ : list (option bool)) (a : Addresses) (s : StorageLocal) : StorageLocal * bool :=
  (mkLocal (l_slotsSize s) (foreignNs s) (acquiredNs s ∖ {[getSlotName (Idx a)]}), true).

Definition local_has (s : StorageLocal) (i : Z) : Prop := getSlotName i ∈ acquiredNs s.

(** *** [storage_kv.go] *)

(** What Consul answers: an error, before or after it did what was asked. *)
Inductive consul := ConsulOk | ConsulErr (applied : bool).

Record StorageKV := mkKV { kv_slotsSize : Z; kv_keys : gset string }.

(** The draws of the ten tries, the answers to them, to the list of keys and
    to the tries after it; the answers to a release. *)
Record kv_asked := mkAsked { aq_draw : nat → Z; aq_cas : nat → consul; aq_keys : bool; aq_scan : Z → consul; aq_get : bool; aq_same : bool; aq_delete : consul }.

Section kv.
Context (nodeID : string).

Definition getKVKey (slotIdx : Z) : string := (nodeID ++ "/" ++ Itoa slotIdx)%string.

Definition with_keys (s : StorageKV) (keys : gset string) : StorageKV := mkKV (kv_slotsSize s) keys.

(** A slot, nothing, or an error. *)
Definition trySlot (slotIdx : Z) (key : string) (answer : consul) (s : StorageKV) : StorageKV * result () (option Addresses) :=
  match answer with
  | ConsulErr applied => (if applied then with_keys s ({[key]} ∪ kv_keys s) else s, Err ())
  | ConsulOk =>
      if bool_decide (key ∈ kv_keys s) then (s, Ok None)
      else (with_keys s ({[key]} ∪ kv_keys s), match NewSlot key slotIdx with Some a => Ok (Some a) | None => Err () end)
  end.

Definition one_try (slotIdx : Z) (answer : consul) (s : StorageKV) : StorageKV * result () (option Addresses) :=
  trySlot slotIdx (getKVKey slotIdx) answer s.

Fixpoint random_tries (q : kv_asked) (rounds : nat) (s : StorageKV) : StorageKV * result () (option Addresses) :=
  match rounds with
  | O => (s, Ok None)
  | S rounds =>
      match one_try (aq_draw q rounds mod kv_slotsSize s) (aq_cas q rounds) s with
      | (s, Ok None) => random_tries q rounds s
      | r => r
      end
  end.

Fixpoint scan (q : kv_asked) (reserved : gset string) (rounds : nat) (slotIdx : Z) (s : StorageKV) : StorageKV * result () (option Addresses) :=
  match rounds with
  | O => (s, Ok None)
  | S rounds =>
      if bool_decide (getKVKey slotIdx ∈ reserved) then scan q reserved rounds (slotIdx + 1) s
      else match one_try slotIdx (aq_scan q slotIdx) s with
           | (s, Ok None) => scan q reserved rounds (slotIdx + 1) s
           | r => r
           end
  end.

Definition found (r : StorageKV * result () (option Addresses)) : StorageKV * option Addresses :=
  (r.1, match r.2 with Ok o => o | Err _ => None end).

Definition kv_Acquire (q : kv_asked) (s : StorageKV) : StorageKV * option Addresses :=
  match random_tries q 10 s with
  | (s, Ok None) => if aq_keys q then found (scan q (kv_keys s) (Z.to_nat (kv_slotsSize s)) 0 s) else (s, None)
  | r => found r
  end.

Definition kv_Release (q : kv_asked) (a : Addresses) (s : StorageKV) : StorageKV * bool :=
  if negb (aq_get q) then (s, false)
  else if bool_decide (Key a ∉ kv_keys s) then (s, false)
  else match aq_delete q with
       | ConsulErr applied => (if applied then with_keys s (kv_keys s ∖ {[Key a]}) else s, false)
       | ConsulOk => if aq_same q then (with_keys s (kv_keys s ∖ {[Key a]}), true) else (s, false)
       end.
End kv.

(** *** Each is what the pool relies on *)

Lemma NewSlot_self key idx a : NewSlot key idx = Some a → NewSlot (Key a) (Idx a) = Some a.
Proof using. intros E. destruct (NewSlot_idx _ _ _ E) as (-> & -> & _). exact E. Qed.

Definition own_index (a : Addresses) : Prop := 1 <= Idx a.

Lemma memory_loop_some rounds n s s' a : memory_loop rounds n s = (s', Some a) → (1 <= n)%nat → (n + rounds <= length (freeSlots s))%nat →
  ¬ memory_has s (Idx a) ∧ memory_has s' (Idx a) ∧ own_index a ∧ NewSlot (Key a) (Idx a) = Some a.
Proof using.
  revert n. induction rounds as [|rounds IH]; intros n; cbn [memory_loop]; [done|]. destruct (freeSlots s !!! n) eqn:E; [intros H1 H2 H3; apply (IH (S n)); [done|lia|lia]|].
  intros [= <- Hn] H1 H2. destruct (NewSlot_idx _ _ _ Hn) as (Hi & _ & Hr). unfold memory_has, own_index. rewrite Hi, Nat2Z.id. cbn.
  rewrite list_lookup_insert_eq by lia. split_and!; try (lia || done); [|by rewrite <- Hi; eapply NewSlot_self].
  intros [_ Hs]. apply list_lookup_total_correct in Hs. congruence.
Qed.

Lemma memory_loop_keeps rounds n s i : memory_has s i → memory_has (memory_loop rounds n s).1 i.
Proof using.
  revert n. induction rounds as [|rounds IH]; intros n Hs; cbn [memory_loop]; [done|]. destruct (freeSlots s !!! n); [by apply IH|].
  destruct Hs as [Hi Hs]. split; [done|]. cbn. destruct (decide (n = Z.to_nat i)) as [->|Hne]; [apply list_lookup_insert_eq; by eapply lookup_lt_Some|by rewrite list_lookup_insert_ne].
Qed.

#[global] Instance memory_storage : SlotStorage.
Proof using.
  refine {| store := StorageMemory; asked := unit; has := memory_has; own := own_index; Acquire := memory_Acquire; Release := memory_Release |}.
  - intros q s s' a E. assert (length (freeSlots s) ≠ O) by (intros E0; unfold memory_Acquire in E; rewrite E0 in E; done). eapply memory_loop_some; [exact E|lia|lia].
  - intros q s i Hs. by apply memory_loop_keeps.
  - intros q s a i Ha Hne [Hi Hs]. split; [done|]. cbn. unfold own_index in Ha. rewrite list_lookup_insert_ne; [done|lia].
Defined.

Lemma getSlotName_inj i j : getSlotName i = getSlotName j → i = j.
Proof using. intros E. apply Itoa_inj. by injection E. Qed.

Lemma local_loop_spec stats n s s' o : local_loop stats n s = (s', o) →
  (∀ i, local_has s i → local_has s' i) ∧
  ∀ a, o = Some a → ¬ local_has s (Idx a) ∧ local_has s' (Idx a) ∧ NewSlot (Key a) (Idx a) = Some a.
Proof using.
  revert n s. induction stats as [|available stats IH]; intros n s; cbn [local_loop]; [intros [= <- <-]; by split|].
  destruct (_ <? _); [intros [= <- <-]; by split|]. case_bool_decide as Ef; [apply IH|]. case_bool_decide as Ea; [apply IH|].
  destruct available as [[|]|]; [|intros E; by apply IH in E|intros [= <- <-]; by split].
  intros [= <- <-]. split; [unfold local_has; cbn; set_solver|]. intros a Hn. destruct (NewSlot_idx _ _ _ Hn) as (-> & _ & _).
  split_and!; [done|unfold local_has; cbn; set_solver|]. eapply NewSlot_self in Hn as Hs. by rewrite (proj1 (NewSlot_idx _ _ _ Hn)) in Hs.
Qed.

#[global] Instance local_storage : SlotStorage.
Proof using.
  refine {| store := StorageLocal; asked := list (option bool); has := local_has; own := λ _, True; Acquire := local_Acquire; Release := local_Release |}.
  - intros q s s' a E. destruct (local_loop_spec _ _ _ _ _ E) as [_ Ha]. destruct (Ha a eq_refl) as (H1 & H2 & H3). done.
  - intros q s i Hs. destruct (local_loop q 1 s) as [s' o] eqn:E. change ((local_Acquire q s).1) with (local_loop q 1 s).1. rewrite E.
    destruct (local_loop_spec _ _ _ _ _ E) as [Hk _]. exact (Hk i Hs).
  - intros q s a i _ Hne Hs. unfold local_has in *. cbn. apply elem_of_difference. split; [done|]. intros Hi%elem_of_singleton%getSlotName_inj. done.
Defined.

Section kv_storage.
Context (nodeID : string).

Definition kv_has (s : StorageKV) (i : Z) : Prop := getKVKey nodeID i ∈ kv_keys s.
Definition own_key (a : Addresses) : Prop := Key a = getKVKey nodeID (Idx a).

Lemma string_app_inj s t u : (s ++ t = s ++ u → t = u)%string.
Proof using. induction s as [|a s IH]; cbn; [done|]. intros [= E]. by apply IH. Qed.

Lemma getKVKey_inj i j : getKVKey nodeID i = getKVKey nodeID j → i = j.
Proof using. intros E%string_app_inj%string_app_inj. by apply Itoa_inj. Qed.

(** What tries do: keys are added, that of a slot that is returned once. *)
Definition tried (s : StorageKV) (r : StorageKV * result () (option Addresses)) : Prop :=
  (kv_keys s ⊆ kv_keys r.1) ∧ (r.2 = Ok None → r.1 = s) ∧
  ∀ a, r.2 = Ok (Some a) → ¬ kv_has s (Idx a) ∧ kv_has r.1 (Idx a) ∧ own_key a ∧ NewSlot (Key a) (Idx a) = Some a.

Lemma one_try_tried slotIdx answer s : tried s (one_try nodeID slotIdx answer s).
Proof using.
  unfold one_try, trySlot, tried. destruct answer as [|[|]]; cbn; [|split_and!; (set_solver || done)..].
  case_bool_decide as Hk; cbn; [done|]. destruct (NewSlot _ slotIdx) as [a|] eqn:E; (split_and!; [set_solver|done|]); [|done].
  intros a' [= <-]. destruct (NewSlot_idx _ _ _ E) as (Hi & Hkey & _). unfold kv_has, own_key. cbn. rewrite Hi, Hkey.
  split_and!; [done|set_solver|done|done].
Qed.

Lemma random_tries_tried q rounds s : tried s (random_tries nodeID q rounds s).
Proof using.
  revert s. induction rounds as [|rounds IH]; intros s; cbn [random_tries]; [done|].
  pose proof (one_try_tried (aq_draw q rounds mod kv_slotsSize s) (aq_cas q rounds) s) as Ht.
  destruct (one_try _ _ _ s) as [s' [[a|]|e]]; try exact Ht. destruct Ht as (_ & Hn & _). cbn in Hn. rewrite (Hn eq_refl). apply IH.
Qed.

Lemma scan_tried q reserved rounds slotIdx s : tried s (scan nodeID q reserved rounds slotIdx s).
Proof using.
  revert slotIdx s. induction rounds as [|rounds IH]; intros slotIdx s; cbn [scan]; [done|]. case_bool_decide; [apply IH|].
  pose proof (one_try_tried slotIdx (aq_scan q slotIdx) s) as Ht.
  destruct (one_try _ _ _ s) as [s' [[a|]|e]]; try exact Ht. destruct Ht as (_ & Hn & _). cbn in Hn. rewrite (Hn eq_refl). apply IH.
Qed.

Lemma found_spec s r s' o : tried s r → found r = (s', o) → kv_keys s ⊆ kv_keys s' ∧
  ∀ a, o = Some a → ¬ kv_has s (Idx a) ∧ kv_has s' (Idx a) ∧ own_key a ∧ NewSlot (Key a) (Idx a) = Some a.
Proof using.
  intros (Hk & _ & Ha). unfold found. intros [= <- <-]. split; [done|]. intros a E. apply Ha. by destruct r.2 as [o|e]; [subst|].
Qed.

Lemma kv_Acquire_spec q s s' o : kv_Acquire nodeID q s = (s', o) → kv_keys s ⊆ kv_keys s' ∧
  ∀ a, o = Some a → ¬ kv_has s (Idx a) ∧ kv_has s' (Idx a) ∧ own_key a ∧ NewSlot (Key a) (Idx a) = Some a.
Proof using.
  unfold kv_Acquire. pose proof (random_tries_tried q 10 s) as Ht. revert Ht. generalize (random_tries nodeID q 10 s). intros [s1 [[a|]|e]] Ht.
  - by apply found_spec.
  - destruct Ht as (_ & Hn & _). specialize (Hn eq_refl). cbn [fst] in Hn. subst s1. destruct (aq_keys q); [|by intros [= <- <-]].
    apply found_spec, scan_tried.
  - by apply found_spec.
Qed.

#[global] Instance kv_storage : SlotStorage.
Proof using nodeID.
  refine {| store := StorageKV; asked := kv_asked; has := kv_has; own := own_key; Acquire := kv_Acquire nodeID; Release := kv_Release |}.
  - intros q s s' a E. by apply (kv_Acquire_spec _ _ _ _ E).
  - intros q s i Hs. destruct (kv_Acquire nodeID q s) as [s' o] eqn:E. destruct (kv_Acquire_spec _ _ _ _ E) as [Hk _]. cbn. by apply Hk.
  - intros q s a i Ha Hne Hs. assert (Hk : getKVKey nodeID i ≠ Key a) by (rewrite Ha; intros E%getKVKey_inj; done). unfold kv_has in *. cbn. unfold kv_Release.
    destruct (aq_get q); cbn; [|done]. case_bool_decide; [done|]. destruct (aq_delete q) as [|[|]], (aq_same q); cbn; set_solver.
Defined.
End kv_storage.
End slots.

#[global] Arguments store {_ _ _ _}.
#[global] Arguments asked {_ _ _ _}.
#[global] Arguments has {_ _ _ _}.
#[global] Arguments own {_ _ _ _}.
#[global] Arguments Acquire {_ _ _ _}.
#[global] Arguments Release {_ _ _ _}.
#[global] Arguments acquire_some {_ _ _ _}.
#[global] Arguments acquire_keeps {_ _ _ _}.
#[global] Arguments release_keeps {_ _ _ _}.
