(* ===== verification/Pool.v ===== *)
(** * Pool: the network slots of a node

    Models [sandbox/network/pool.go], how a sandbox uses it
    ([sandbox/sandbox.go]: [getNetworkSlot], [CreateSandbox]) and the index of
    sandboxes by address ([sandbox/map.go]), by which the TCP firewall and the
    services of the orchestrator tell whom a connection is from.

    [Populate], a sandbox from [Get] to the end of [ReturnAsync], and [Close]
    are programs whose calls are single operations on channels, on the storage
    and on a slot.  They interleave call by call; the contexts, the timers, the
    storage and the network answer as they like.  A goroutine that returns a
    slot goes on as the program that started it, which has no more to do with
    the pool; its context has no end, as in both callers.  Channels have room for at least one slot; a slot is changed by
    its sandbox only until it is returned. *)

From stdpp Require Import relations strings gmap.
From S2P Require Import Prelude Prog Egress Slots.

#[global] Instance IP_countable : Countable IP.
Proof.
  apply (inj_countable' (λ ip, match ip with V4 a => (true, a) | V6 a => (false, a) end) (λ '(four, a), if four : bool then V4 a else V6 a)). by intros [].
Defined.

(** ** [map.go]: the sandboxes by address, named by their lifecycle *)

Definition network_map : Type := gmap IP nat.

Definition AssignNetwork (ip : IP) (life : nat) (m : network_map) : network_map := <[ip := life]> m.
Definition NetworkReleased (ip : IP) (m : network_map) : network_map := delete ip m.
Definition GetByHostPort (ip : IP) (m : network_map) : option nat := m !! ip.

Lemma AssignNetwork_lookup ip' life (m : network_map) ip : AssignNetwork ip' life m !! ip = if decide (ip' = ip) then Some life else m !! ip.
Proof. unfold AssignNetwork, network_map in *. case_decide; [subst; apply lookup_insert_eq|by apply lookup_insert_ne]. Qed.

Lemma NetworkReleased_lookup ip' (m : network_map) ip : NetworkReleased ip' m !! ip = if decide (ip' = ip) then None else m !! ip.
Proof. unfold NetworkReleased, network_map in *. case_decide; [subst; apply lookup_delete_eq|by apply lookup_delete_ne]. Qed.

Section pool.
Context `{Toolkit} `{IndexedIP} {hostNetworkCIDR vrtNetworkCIDR : IPNet} `{!SlotStorage hostNetworkCIDR vrtNetworkCIDR}.
Context (newSlotsPoolSize reusedSlotsPoolSize : nat) (orchestratorIP : string) (internalCIDRs : list string).

Definition cap_new : nat := newSlotsPoolSize - 1.
Definition cap_reused : nat := reusedSlotsPoolSize.

(** ** The state *)

(** A slot: its firewall once its network is created, and how often it was
    given back to the storage. *)
Record slot_obj := mkObj { n_addr : Addresses; n_slot : option Slot; n_released : nat }.

(** A slot is a pointer, a place in [objs].  [armed]: [Populate] has begun a
    round since it last looked for the end. *)
Record state := mkState {
  st_store : store; objs : list slot_obj; newSlots : list nat; reusedSlots : list nat;
  done : bool; closed : bool; new_closed : bool; returnsWG : nat; armed : bool;
  network : network_map }.

Inductive cause := ErrClosed | CtxErr.

(** What the first select of [Get] gives: the default, the end, or a slot. *)
Inductive taken := Nothing | Over | Got (s : nat).

Inductive call : Type → Type :=
| Poll : call bool
| AcquireSlot : call (option nat)
| CreateNetwork (s : nat) : call bool
| RemoveNetwork (s : nat) : call bool
| ReleaseSlot (s : nat) : call bool
| SendNew (s : nat) : call bool
| CloseNew : call unit
| TakeReused : call taken
(** The slot is nil where the channel is closed. *)
| TakeNew : call (result cause (option nat))
| OnSlot (s : nat) (op : slot_op) : call bool
| Enter : call bool
| Assign (s life : nat) : call unit
| HoldOp : call (option slot_op)
| TryTrack : call bool
| TrackDone : call unit
| Delay : call bool
| Notify (s : nat) : call unit
| TryReuse (s : nat) : call bool
| CloseDone : call unit
| SetClosed : call unit
| WaitReturns : call unit
| RangeNew : call (option nat)
| DrainReused : call (option nat).

Notation prog := (prog call).
Open Scope prog_scope.

(** ** [pool.go] *)

Definition cleanup (s : nat) : prog bool := removed ←! RemoveNetwork s; released ←! ReleaseSlot s; Ret (removed && released).

Definition createNetworkSlot : prog (option nat) :=
  ips ←! AcquireSlot;
  match ips with
  | None => Ret None
  | Some ips =>
      ok ←! CreateNetwork ips;
      if ok : bool then Ret (Some ips) else _ ←! ReleaseSlot ips; Ret None
  end.

(** [rounds] is how often [Populate] finds neither end reached. *)
Fixpoint populate_loop (rounds : nat) : prog unit :=
  stop ←! Poll;
  if stop : bool then Ret ()
  else match rounds with
  | O => Ret ()
  | S rounds =>
      slot ← createNetworkSlot;
      match slot with
      | None => populate_loop rounds
      | Some slot =>
          sent ←! SendNew slot;
          if sent : bool then populate_loop rounds else _ ← cleanup slot; Ret ()
      end
  end.

Definition Populate (rounds : nat) : prog unit := _ ← populate_loop rounds; perform CloseNew.

Definition recycle (s : nat) : prog unit :=
  ok ←! OnSlot s Reset;
  if ok : bool then
    reused ←! TryReuse s;
    if reused : bool then Ret () else _ ← cleanup s; Ret ()
  else _ ← cleanup s; Ret ().

(** [notify]: whether [releasedFn] does something. *)
Definition notifyNetworkRelease (notify : bool) (s : nat) : prog unit := if notify then perform (Notify s) else Ret ().

Definition returnSlot (notify : bool) (s : nat) : prog unit :=
  over ←! Delay;
  if over : bool then _ ← cleanup s; notifyNetworkRelease notify s
  else _ ← notifyNetworkRelease notify s; recycle s.

Definition ReturnAsync (notify : bool) (s : nat) : prog unit :=
  tracked ←! TryTrack;
  if tracked : bool then _ ← returnSlot notify s; perform TrackDone else returnSlot notify s.

(** A nil slot is a nil dereference in [ConfigureInternet]. *)
Inductive get_err := GetFailed (e : cause) | NilSlot | NotConfigured.

Definition take : prog (result cause (option nat)) :=
  t ←! TakeReused;
  match t with
  | Over => Ret (Err ErrClosed)
  | Got s => Ret (Ok (Some s))
  | Nothing => perform TakeNew
  end.

Definition Get (egress : option Egress) : prog (result get_err nat) :=
  t ← take;
  match t with
  | Err e => Ret (Err (GetFailed e))
  | Ok None => Ret (Err NilSlot)
  | Ok (Some slot) =>
      ok ←! OnSlot slot (Configure egress);
      if ok : bool then Ret (Ok slot) else _ ← ReturnAsync false slot; Ret (Err NotConfigured)
  end.

Fixpoint range_loop (rounds : nat) : prog bool :=
  match rounds with
  | O => Ret false
  | S rounds => o ←! RangeNew; match o with None => Ret true | Some slot => _ ← cleanup slot; range_loop rounds end
  end.

Fixpoint drain_loop (rounds : nat) : prog bool :=
  match rounds with
  | O => Ret false
  | S rounds => o ←! DrainReused; match o with None => Ret true | Some slot => _ ← cleanup slot; drain_loop rounds end
  end.

(** Whether the loops had enough rounds. *)
Definition Close : prog bool :=
  _ ←! CloseDone;
  _ ←! SetClosed;
  _ ←! WaitReturns;
  new_done ← range_loop (S (S cap_new));
  reused_done ← drain_loop (S cap_reused);
  Ret (new_done && reused_done).

(** ** A sandbox: [getNetworkSlot], its updates, and its cleanup *)

(** The sandbox is entered once its other resources are there; what it asks
    of the slot from then on, until it ends. *)

Fixpoint hold (rounds : nat) (s : nat) : prog unit :=
  op ←! HoldOp;
  match op, rounds with
  | Some op, S rounds => _ ←! OnSlot s op; hold rounds s
  | _, _ => Ret ()
  end.

Definition getNetworkSlot (life : nat) (egress : option Egress) (rounds : nat) : prog (result get_err nat) :=
  slot ←? Get egress;
  entered ←! Enter;
  _ ← (if entered : bool then _ ←! Assign slot life; hold rounds slot else Ret ());
  _ ← ReturnAsync true slot;
  Ret (Ok slot).

Inductive outcome := Populated | Ended (r : result get_err nat) | Drained (all : bool).

Inductive task := TPopulate (rounds : nat) | TSandbox (life : nat) (egress : option Egress) (rounds : nat) | TClose.

Definition program (t : task) : prog outcome :=
  match t with
  | TPopulate rounds => _ ← Populate rounds; Ret Populated
  | TSandbox life egress rounds => r ← getNetworkSlot life egress rounds; Ret (Ended r)
  | TClose => b ← Close; Ret (Drained b)
  end.

(** ** The node *)

Definition with_channels (new reused : list nat) (w : state) : state :=
  mkState (st_store w) (objs w) new reused (done w) (closed w) (new_closed w) (returnsWG w) (armed w) (network w).
Definition with_objs (l : list slot_obj) (w : state) : state :=
  mkState (st_store w) l (newSlots w) (reusedSlots w) (done w) (closed w) (new_closed w) (returnsWG w) (armed w) (network w).
Definition with_store (st : store) (w : state) : state :=
  mkState st (objs w) (newSlots w) (reusedSlots w) (done w) (closed w) (new_closed w) (returnsWG w) (armed w) (network w).
Definition with_flags (d c n : bool) (wg : nat) (a : bool) (w : state) : state :=
  mkState (st_store w) (objs w) (newSlots w) (reusedSlots w) d c n wg a (network w).
Definition with_network (m : network_map) (w : state) : state :=
  mkState (st_store w) (objs w) (newSlots w) (reusedSlots w) (done w) (closed w) (new_closed w) (returnsWG w) (armed w) m.

Definition with_wg (wg : nat) (w : state) : state := with_flags (done w) (closed w) (new_closed w) wg (armed w) w.
Definition with_armed (a : bool) (w : state) : state := with_flags (done w) (closed w) (new_closed w) (returnsWG w) a w.

(** What a call gets from outside: a context that is over or another failure,
    a branch of a select, what the storage and the kernel answer, what the
    sandbox asks. *)
Inductive choice := Go | Flag (b : bool) | Pick (n : nat) | Store (q : asked) | Kernel (ok : bool) (a : answer) | Ask (o : option slot_op).

Definition update_op (op : slot_op) : bool := match op with Update _ | Deny => true | Configure _ | Reset => false end.

Definition set_slot (s : nat) (f : slot_obj → slot_obj) (w : state) : state := with_objs (alter f s (objs w)) w.

Definition exec {A} (c : call A) (x : choice) (w : state) : option (state * A) :=
  match c in call A return option (state * A) with
  | Poll => match x with Flag ctx => let stop := ctx || done w in Some (with_armed (negb stop) w, stop) | _ => None end
  | AcquireSlot =>
      match x with
      | Store q =>
          match Acquire q (st_store w) with
          | (st, None) => Some (with_store st w, None)
          | (st, Some a) => Some (with_store st (with_objs (objs w ++ [mkObj a None 0]) w), Some (length (objs w)))
          end
      | _ => None
      end
  | CreateNetwork s =>
      match x with
      | Kernel true a =>
          match InitializeFirewall a orchestratorIP internalCIDRs with
          | Some sl => Some (set_slot s (λ o, mkObj (n_addr o) (Some sl) (n_released o)) w, true)
          | None => Some (w, false)
          end
      | Kernel false _ => Some (w, false)
      | _ => None
      end
  | RemoveNetwork s => match x with Flag ok => Some (w, ok) | _ => None end
  | ReleaseSlot s =>
      match x with
      | Store q =>
          o ← objs w !! s;
          let '(st, ok) := Release q (n_addr o) (st_store w) in
          Some (with_store st (set_slot s (λ o, mkObj (n_addr o) (n_slot o) (S (n_released o))) w), ok)
      | _ => None
      end
  | SendNew s =>
      match x with
      | Flag true =>
          if bool_decide (length (newSlots w) < cap_new)%nat && negb (new_closed w)
          then Some (with_armed false (with_channels (newSlots w ++ [s]) (reusedSlots w) w), true) else None
      | Flag false => Some (with_armed false w, false)
      | _ => None
      end
  | CloseNew => match x with Go => Some (with_flags (done w) (closed w) true (returnsWG w) (armed w) w, ()) | _ => None end
  | TakeReused =>
      match x, reusedSlots w with
      | Pick 0, _ => if done w then Some (w, Over) else None
      | Pick _, s :: l => Some (with_channels (newSlots w) l w, Got s)
      | Pick _, [] => if done w then None else Some (w, Nothing)
      | _, _ => None
      end
  | TakeNew =>
      match x, newSlots w with
      | Pick 0, _ => if done w then Some (w, Err ErrClosed) else None
      | Pick 1, _ => Some (w, Err CtxErr)
      | Pick _, s :: l => Some (with_channels l (reusedSlots w) w, Ok (Some s))
      | Pick _, [] => if new_closed w then Some (w, Ok None) else None
      | _, _ => None
      end
  | OnSlot s op =>
      match x with
      | Kernel _ a =>
          o ← objs w !! s; sl ← n_slot o;
          let '(sl, ok) := run_op op a sl in
          Some (set_slot s (λ o, mkObj (n_addr o) (Some sl) (n_released o)) w, ok)
      | _ => None
      end
  | Enter => match x with Flag ok => Some (w, ok) | _ => None end
  | Assign s life =>
      match x with Go => o ← objs w !! s; Some (with_network (AssignNetwork (HostIP (n_addr o)) life (network w)) w, ()) | _ => None end
  | HoldOp => match x with Ask (Some op) => if update_op op then Some (w, Some op) else None | Ask None => Some (w, None) | _ => None end
  | TryTrack => match x with Go => if closed w then Some (w, false) else Some (with_wg (S (returnsWG w)) w, true) | _ => None end
  | TrackDone => match x with Go => Some (with_wg (pred (returnsWG w)) w, ()) | _ => None end
  | Delay => match x with Flag true => if done w then Some (w, true) else None | Flag false => Some (w, false) | _ => None end
  | Notify s => match x with Go => o ← objs w !! s; Some (with_network (NetworkReleased (HostIP (n_addr o)) (network w)) w, ()) | _ => None end
  | TryReuse s =>
      match x with
      | Flag true =>
          if negb (closed w) && bool_decide (length (reusedSlots w) < cap_reused)%nat
          then Some (with_channels (newSlots w) (reusedSlots w ++ [s]) w, true) else None
      | Flag false => Some (w, false)
      | _ => None
      end
  | CloseDone => match x with Go => Some (with_flags true (closed w) (new_closed w) (returnsWG w) (armed w) w, ()) | _ => None end
  | SetClosed => match x with Go => Some (with_flags (done w) true (new_closed w) (returnsWG w) (armed w) w, ()) | _ => None end
  | WaitReturns => match x with Go => if bool_decide (returnsWG w = O) then Some (w, ()) else None | _ => None end
  | RangeNew =>
      match x, newSlots w with
      | Go, s :: l => Some (with_channels l (reusedSlots w) w, Some s)
      | Go, [] => if new_closed w then Some (w, None) else None
      | _, _ => None
      end
  | DrainReused =>
      match x, reusedSlots w with
      | Go, s :: l => Some (with_channels (newSlots w) l w, Some s)
      | Go, [] => Some (w, None)
      | _, _ => None
      end
  end.

(** What a program has: a slot, what was done to it since it has it, whether
    its network is created; an entry in the index; a return that [Close] waits
    for; the sending end of [newSlots]. *)
Record hands := mkHands {
  d_slot : option nat; d_since : list (slot_op * bool); d_ready : bool; d_assigned : bool; d_tracked : bool; d_populates : bool }.

Definition with_slot (o : option nat) (ready : bool) (h : hands) : hands := mkHands o [] ready (d_assigned h) (d_tracked h) (d_populates h).

Definition record {A} (c : call A) (h : hands) : A → hands :=
  match c in call A return A → hands with
  | AcquireSlot => λ o, match o with Some s => with_slot (Some s) false h | None => h end
  | CreateNetwork s => λ ok, if ok : bool then with_slot (d_slot h) true h else h
  | ReleaseSlot s => λ _, with_slot None false h
  | SendNew s | TryReuse s => λ ok, if ok : bool then with_slot None false h else h
  | CloseNew => λ _, mkHands (d_slot h) (d_since h) (d_ready h) (d_assigned h) (d_tracked h) false
  | Assign _ _ => λ _, mkHands (d_slot h) (d_since h) (d_ready h) true (d_tracked h) (d_populates h)
  | Notify _ => λ _, mkHands (d_slot h) (d_since h) (d_ready h) false (d_tracked h) (d_populates h)
  | TakeReused => λ t, match t with Got s => with_slot (Some s) true h | _ => h end
  | TakeNew => λ t, match t with Ok (Some s) => with_slot (Some s) true h | _ => h end
  | OnSlot s op => λ ok, mkHands (d_slot h) (d_since h ++ [(op, ok)]) (d_ready h) (d_assigned h) (d_tracked h) (d_populates h)
  | TryTrack => λ ok, mkHands (d_slot h) (d_since h) (d_ready h) (d_assigned h) ok (d_populates h)
  | TrackDone => λ _, mkHands (d_slot h) (d_since h) (d_ready h) (d_assigned h) false (d_populates h)
  | RangeNew | DrainReused => λ o, match o with Some s => with_slot (Some s) true h | None => h end
  | _ => λ _, h
  end.

Record job := mkJob { j_task : task; j_prog : prog outcome; j_hands : hands }.

(** [started]: there is one [Populate]. *)
Record world := mkWorld { w_state : state; w_jobs : list job; started : bool }.

Inductive event := ESpawn (t : task) | ECall (i : nat) (x : choice).

Definition populates (t : task) : bool := match t with TPopulate _ => true | _ => false end.

(** The identifiers of lifecycles are unique. *)
Definition life_of (t : task) : option nat := match t with TSandbox life _ _ => Some life | _ => None end.

Definition new_life (t : task) (js : list job) : bool :=
  match life_of t with None => true | Some life => forallb (λ j, negb (bool_decide (life_of (j_task j) = Some life))) js end.

Definition run_job (x : choice) (w : state) (j : job) : option (state * job) :=
  match j_prog j with
  | Ret _ => None
  | Do c k => '(w', a) ← exec c x w; Some (w', mkJob (j_task j) (k a) (record c (j_hands j) a))
  end.

Definition move (e : event) (w : world) : option world :=
  match e with
  | ESpawn t =>
      if populates t && started w || negb (new_life t (w_jobs w)) then None
      else Some (mkWorld (w_state w) (w_jobs w ++ [mkJob t (program t) (mkHands None [] false false false (populates t))]) (started w || populates t))
  | ECall i x =>
      j ← w_jobs w !! i;
      '(s, j') ← run_job x (w_state w) j;
      Some (mkWorld s (<[i := j']> (w_jobs w)) (started w))
  end.

Definition step (w w' : world) : Prop := ∃ e, move e w = Some w'.
Notation steps := (rtc step).

(** [NewPool]. *)
Definition NewPool (st : store) : world := mkWorld (mkState st [] [] [] false false false 0 false ∅) [] false.

Definition running (j : job) : bool := match j_prog j with Ret _ => false | Do _ _ => true end.

(** ** The slots in use *)

#[local] Arguments policy_after : simpl never.
#[local] Arguments open_policy : simpl never.

Notation ranges := ((orchestratorIP ++ "/32")%string :: internalCIDRs).

(** A slot with what is known of its firewall. *)
Notation place := (nat * option policy)%type.

Definition in_hand (h : hands) : list place :=
  match d_slot h with None => [] | Some s => [(s, if d_ready h then Some (policy_after (d_since h)) else None)] end.

Definition in_channels (w : state) : list place := (λ s, (s, Some open_policy)) <$> newSlots w ++ reusedSlots w.

Definition places (w : world) : list place := in_channels (w_state w) ++ (w_jobs w ≫= λ j, in_hand (j_hands j)).

(** The firewall of a slot in use keeps its policy. *)
Definition keeps (o : slot_obj) (m : option policy) : Prop :=
  match m with None => n_slot o = None | Some m => ∃ sl, n_slot o = Some sl ∧ holds sl ranges m end.

Record stock (T : list place) (l : list slot_obj) (st : store) : Prop := {
  sk_once : NoDup T.*1;
  sk_live s m : (s, m) ∈ T → ∃ o, l !! s = Some o ∧ n_released o = O ∧ keeps o m;
  sk_all s o : l !! s = Some o → n_released o = O → s ∈ T.*1;
  sk_released s o : l !! s = Some o → (n_released o <= 1)%nat;
  sk_addr s o : l !! s = Some o → own (n_addr o) ∧ NewSlot hostNetworkCIDR vrtNetworkCIDR (Key (n_addr o)) (Idx (n_addr o)) = Some (n_addr o);
  sk_has s o : l !! s = Some o → n_released o = O → has st (Idx (n_addr o));
  sk_apart s s' o o' : l !! s = Some o → l !! s' = Some o' → n_released o = O → n_released o' = O → Idx (n_addr o) = Idx (n_addr o') → s = s'
}.

#[global] Instance stock_proper : Proper ((≡ₚ) ==> eq ==> eq ==> iff) stock.
Proof using.
  intros T T' E l ? <- st ? <-. assert (∀ T T' : list place, T ≡ₚ T' → stock T l st → stock T' l st) as Hp by
    (intros U U' EU [S1 S2 S3 S4 S5 S6 S7]; split; try done; [by rewrite <- EU|intros s m; rewrite <- EU; apply S2|intros s o; rewrite <- EU; apply S3]).
  split; by apply Hp.
Qed.

Lemma stock_store T l st st' : (∀ i, has st i → has st' i) → stock T l st → stock T l st'.
Proof using. intros Hst [S1 S2 S3 S4 S5 S6 S7]. split; try done. intros s o Hs Ho. by eapply Hst, S6. Qed.

Lemma stock_acquire T l st st' a q : Acquire q st = (st', Some a) → stock T l st → stock ((length l, None) :: T) (l ++ [mkObj a None 0]) st'.
Proof using.
  intros E S. destruct (acquire_some q _ _ _ E) as (Hnew & Hhas & Hown & Hslot).
  assert (Hk : ∀ i, has st i → has st' i) by (intros i Hi; pose proof (acquire_keeps q _ _ Hi) as Hi'; by rewrite E in Hi').
  destruct S as [S1 S2 S3 S4 S5 S6 S7].
  assert (Hat : ∀ s o, (l ++ [mkObj a None 0]) !! s = Some o → (l !! s = Some o ∧ s ≠ length l) ∨ (s = length l ∧ o = mkObj a None 0)).
  { intros s o [Hs|[Hs [? <-]%list_lookup_singleton_Some]]%lookup_app_Some; [left|right]; [|split; [lia|done]]. split; [done|]. apply lookup_lt_Some in Hs. lia. }
  split.
  - cbn. constructor; [|done]. intros ([s m] & Hs & Hin)%list_elem_of_fmap. cbn in Hs. subst s. apply S2 in Hin as (o & Ho & _). apply lookup_lt_Some in Ho. lia.
  - intros s m [[= -> ->]|Hin]%elem_of_cons; [exists (mkObj a None 0); split_and!; [|done|done]; by apply list_lookup_middle|].
    apply S2 in Hin as (o & Ho & H1). exists o. split; [by apply lookup_app_l_Some|done].
  - intros s o [[Ho _]|[-> ->]]%Hat Hr; cbn; [|left]. right. by eapply S3.
  - intros s o [[Ho _]|[-> ->]]%Hat; [by eapply S4|cbn; lia].
  - intros s o [[Ho _]|[-> ->]]%Hat; [by eapply S5|done].
  - intros s o [[Ho _]|[-> ->]]%Hat Hr; [by eapply Hk, S6|done].
  - intros s s' o o' [[Ho _]|[-> ->]]%Hat [[Ho' _]|[-> ->]]%Hat Hr Hr' Hi; [by eapply S7| | |done]; exfalso; apply Hnew; cbn in Hi; [rewrite <- Hi|rewrite Hi]; by eapply S6.
Qed.

Lemma alter_at (f : slot_obj → slot_obj) s (l : list slot_obj) s' o : alter f s l !! s' = Some o →
  (s' ≠ s ∧ l !! s' = Some o) ∨ (s' = s ∧ ∃ o0, l !! s = Some o0 ∧ o = f o0).
Proof using.
  destruct (decide (s' = s)) as [->|Hne]; [|rewrite list_lookup_alter_ne by done; auto].
  rewrite list_lookup_alter_eq. intros (o0 & Ho & ->)%fmap_Some. right. eauto.
Qed.

(** A slot changes while its owner has it. *)
Lemma stock_update T l st s m m' f : stock ((s, m) :: T) l st → (∀ o, n_addr (f o) = n_addr o ∧ n_released (f o) = n_released o) →
  (∀ o, l !! s = Some o → keeps o m → keeps (f o) m') → stock ((s, m') :: T) (alter f s l) st.
Proof using.
  intros [S1 S2 S3 S4 S5 S6 S7] Hf Hm. apply NoDup_cons in S1 as [Hs S1].
  assert (Hat : ∀ s' o, alter f s l !! s' = Some o → ∃ o0, l !! s' = Some o0 ∧ n_addr o = n_addr o0 ∧ n_released o = n_released o0).
  { intros s' o [[_ Ho]|(-> & o0 & Ho & ->)]%alter_at; [by exists o|]. exists o0. destruct (Hf o0). done. }
  split.
  - cbn. by constructor.
  - intros s' m0 [[= -> ->]|Hin]%elem_of_cons.
    + destruct (S2 s m) as (o & Ho & Hr & Hk); [by left|]. exists (f o). rewrite list_lookup_alter_eq, Ho. split_and!; [done|by rewrite (proj2 (Hf o))|by apply Hm].
    + destruct (S2 s' m0) as (o & Ho & H1); [by right|]. exists o. rewrite list_lookup_alter_ne; [done|]. intros ->. apply Hs. apply list_elem_of_fmap. by exists (s', m0).
  - intros s' o (o0 & Ho & _ & ->)%Hat Hr. by eapply S3.
  - intros s' o (o0 & Ho & _ & ->)%Hat. by eapply S4.
  - intros s' o (o0 & Ho & -> & _)%Hat. by eapply S5.
  - intros s' o (o0 & Ho & -> & ->)%Hat Hr. by eapply S6.
  - intros s1 s2 o1 o2 (a1 & H1 & -> & ->)%Hat (a2 & H2 & -> & ->)%Hat. by apply S7.
Qed.

Lemma stock_release T l st st' s m o q ok : stock ((s, m) :: T) l st → l !! s = Some o → Release q (n_addr o) st = (st', ok) →
  stock T (alter (λ o, mkObj (n_addr o) (n_slot o) (S (n_released o))) s l) st'.
Proof using.
  intros [S1 S2 S3 S4 S5 S6 S7] Ho E. apply NoDup_cons in S1 as [Hs S1]. set (f := λ o, mkObj _ _ _).
  assert (Hr0 : n_released o = O) by (destruct (S2 s m) as (o' & Ho' & Hr & _); [by left|]; by simplify_eq).
  assert (Hat : ∀ s' o', alter f s l !! s' = Some o' → n_released o' = O → s' ≠ s ∧ l !! s' = Some o').
  { intros s' o' [?|(-> & o0 & ? & ->)]%alter_at Hr; [done|]. unfold f in Hr. cbn in Hr. lia. }
  split.
  - done.
  - intros s' m0 Hin. destruct (S2 s' m0) as (o' & Ho' & H1); [by right|]. exists o'. rewrite list_lookup_alter_ne; [done|]. intros ->. apply Hs. apply list_elem_of_fmap. by exists (s', m0).
  - intros s' o' Ho' Hr. destruct (Hat _ _ Ho' Hr) as [Hne Hl]. pose proof (S3 _ _ Hl Hr) as [->|Hin]%elem_of_cons; [done|done].
  - intros s' o' [[_ Ho']|(-> & o0 & Ho' & ->)]%alter_at; [by eapply S4|]. simplify_eq. unfold f. cbn. lia.
  - intros s' o' [[_ Ho']|(-> & o0 & Ho' & ->)]%alter_at; [by eapply S5|]. cbn. by eapply S5.
  - intros s' o' Ho' Hr. destruct (Hat _ _ Ho' Hr) as [Hne Hl]. pose proof (release_keeps q st (n_addr o) (Idx (n_addr o'))) as Hk. rewrite E in Hk. apply Hk; [by eapply S5| |by eapply S6].
    intros Hi. apply Hne. by eapply S7.
  - intros s1 s2 o1 o2 H1 H2 R1 R2. destruct (Hat _ _ H1 R1), (Hat _ _ H2 R2). by eapply S7.
Qed.

(** ** What others may do *)

(** The slots in [newSlots], with the one a round of [Populate] may add. *)
Definition phi (w : state) : nat := length (newSlots w) + (if armed w then 1 else 0).

Definition bounded (w : state) : Prop := (length (newSlots w) <= cap_new)%nat ∧ (length (reusedSlots w) <= cap_reused)%nat.

Record rely (h : hands) (w w' : state) : Prop := {
  ry_done : done w = true → done w' = true ∧ (phi w' <= phi w)%nat;
  ry_closed : closed w = true → closed w' = true ∧ (length (reusedSlots w') <= length (reusedSlots w))%nat ∧ (returnsWG w' <= returnsWG w)%nat;
  ry_ended : new_closed w = true → new_closed w' = true ∧ (length (newSlots w') <= length (newSlots w))%nat;
  ry_sender : d_populates h = true → new_closed w' = new_closed w ∧ armed w' = armed w;
  ry_bounded : bounded w → bounded w'
}.

Lemma rely_refl h w : rely h w w.
Proof using. by split. Qed.

Lemma rely_trans h w1 w2 w3 : rely h w1 w2 → rely h w2 w3 → rely h w1 w3.
Proof using.
  intros [A1 A2 A3 A4 A5] [B1 B2 B3 B4 B5]. split.
  - intros (H1 & ?)%A1. destruct (B1 H1). split; [done|lia].
  - intros (H1 & ? & ?)%A2. destruct (B2 H1) as (? & ? & ?). split_and!; [done|lia|lia].
  - intros (H1 & ?)%A3. destruct (B3 H1). split; [done|lia].
  - intros Hp. destruct (A4 Hp), (B4 Hp). split; congruence.
  - auto.
Qed.

(** What a call of [Populate] needs of others. *)
Definition sender_only {A} (c : call A) (h : hands) (w : state) : Prop :=
  match c with
  | CloseNew | Poll => d_populates h = false
  | SendNew _ => d_populates h = false ∧ armed w = true
  | _ => True
  end.

Ltac exec_cases :=
  repeat match goal with
  | H : context [match ?x with _ => _ end] |- _ => lazymatch type of H with _ = Some _ => destruct x eqn:?; try discriminate H; simplify_eq/= end
  | H : _ ≫= _ = Some _ |- _ => apply bind_Some in H as (? & ? & ?); simplify_eq/=
  | H : _ && _ = true |- _ => apply andb_true_iff in H as [? ?]
  | H : bool_decide _ = true |- _ => apply bool_decide_eq_true in H
  | H : negb _ = true |- _ => apply negb_true_iff in H
  end.

Lemma exec_rely {A} (c : call A) x w w' a h : exec c x w = Some (w', a) → sender_only c h w → rely h w w'.
Proof using.
  intros He Hc. destruct c; cbn in He, Hc; exec_cases; try apply rely_refl; split; unfold phi, bounded; cbn; intros; rewrite ?length_app; cbn;
    repeat match goal with H : newSlots _ = _ |- _ => rewrite H in * | H : reusedSlots _ = _ |- _ => rewrite H in * | H : armed _ = _ |- _ => rewrite H in * end; cbn in *;
    destruct_and?; try (congruence || (split_and!; (done || lia || congruence || (repeat case_match; cbn; lia)))).
  split; [done|]. match goal with H : done _ = true |- _ => rewrite H end. rewrite orb_true_r. cbn. lia.
Qed.

(** ** What each program does *)

Section tasks.
Context (t : task).

(** A sandbox's own configuration and updates are all that was done to the
    slot since it has it. *)
Definition tenancy (h : hands) : Prop :=
  ∃ life egress rounds updates, t = TSandbox life egress rounds ∧ d_since h = (Configure egress, true) :: updates ∧ Forall (λ x, update_op x.1 = true) updates.

(** A slot may be given up: it has no entry any more, or the pool is closing. *)
Definition unassigned (h : hands) (w : state) : Prop := d_assigned h = false ∨ done w = true.

Definition call_pre A (c : call A) (h : hands) (w : state) : Prop :=
  match c with
  | Poll => d_populates h = true
  | AcquireSlot | TakeReused | TakeNew | RangeNew | DrainReused => d_slot h = None
  | CreateNetwork s => d_slot h = Some s ∧ d_ready h = false
  | RemoveNetwork s => d_slot h = Some s
  | ReleaseSlot s => d_slot h = Some s ∧ unassigned h w
  | SendNew s => d_slot h = Some s ∧ d_ready h = true ∧ d_since h = [] ∧ d_populates h = true ∧ armed w = true ∧ unassigned h w
  | CloseNew => d_populates h = true ∧ new_closed w = false
  | OnSlot s _ => d_slot h = Some s ∧ d_ready h = true
  | Assign s life => d_slot h = Some s ∧ life_of t = Some life
  | HoldOp => d_slot h ≠ None ∧ d_ready h = true ∧ d_assigned h = true ∧ tenancy h
  | Notify s => d_slot h = Some s ∨ done w = true
  | TryReuse s => d_slot h = Some s ∧ d_ready h = true ∧ policy_after (d_since h) = open_policy ∧ unassigned h w
  | TryTrack => d_tracked h = false
  | TrackDone => d_tracked h = true
  | _ => True
  end.

Notation wp := (Prog.wp rely call_pre (λ A c h w a h' w', h' = record c h a ∧ ∃ x, exec c x w = Some (w', a))).

Definition idle : hands := mkHands None [] false false false false.

(** What holds once [Close] has returned. *)
Definition finished (w : state) : Prop :=
  done w = true ∧ closed w = true ∧ new_closed w = true ∧ newSlots w = [] ∧ reusedSlots w = [] ∧ returnsWG w = O.

Definition post (h : hands) (w : state) (r : outcome) : Prop :=
  d_slot h = None ∧ d_tracked h = false ∧ d_populates h = false ∧ match r with Drained all => all = true ∧ finished w | _ => True end.

Lemma finished_rely h w w' : rely h w w' → finished w → finished w'.
Proof using.
  intros R (F1 & F2 & F3 & F4 & F5 & F6). destruct (ry_done _ _ _ R F1) as [? _], (ry_closed _ _ _ R F2) as (? & L1 & L2), (ry_ended _ _ _ R F3) as [? L3].
  rewrite F4 in L3. rewrite F5 in L1. rewrite F6 in L2. cbn in *. split_and!; try done; (by apply nil_length_inv; lia) || lia.
Qed.

Lemma unassigned_rely h w w' : rely h w w' → unassigned h w → unassigned h w'.
Proof using. intros R [?|Hd]; [by left|right]. by destruct (ry_done _ _ _ R Hd). Qed.

Lemma cleanup_spec s h w : d_slot h = Some s → unassigned h w → wp (cleanup s) (λ h' w' _, h' = with_slot None false h ∧ rely h w w') h w.
Proof using.
  intros Hs Hu w1 R1. split; [done|]. intros removed h1 w2 [-> [x1 E1]] w3 R3. pose proof (exec_rely _ _ _ _ _ h E1 I) as R2. cbn [record] in *.
  split; [split; [done|]; by eapply unassigned_rely; [|eapply unassigned_rely; [|eapply unassigned_rely]]|]. intros released h2 w4 [-> [x2 E2]]. split; [done|].
  eapply rely_trans; [exact R1|]. eapply rely_trans; [exact R2|]. eapply rely_trans; [exact R3|]. by eapply exec_rely.
Qed.

(** A slot is given up, the rest kept. *)
Definition gave_up (h h' : hands) : Prop := d_slot h' = None ∧ d_tracked h' = d_tracked h ∧ d_populates h' = d_populates h.

Lemma cleanup_unit_spec s h w : d_slot h = Some s → unassigned h w → wp (_ ← cleanup s; Ret ()) (λ h' _ _, gave_up h h') h w.
Proof using. intros Hs Hu. apply prog_wp_bind. eapply prog_wp_mono; [|by apply cleanup_spec]. by intros h' w' _ [-> _]. Qed.

Lemma recycle_spec s h w : d_slot h = Some s → d_ready h = true → d_assigned h = false → wp (recycle s) (λ h' _ _, gave_up h h') h w.
Proof using.
  intros Hs Hr Ha w1 _. split; [done|]. intros ok h1 w2 [-> _]. cbn [record]. destruct ok; [|by eapply (cleanup_unit_spec s (mkHands _ _ _ _ _ _)); [|left]].
  intros w3 _. split; [split_and!; [done|done| |by left]; cbn [d_since record]; unfold policy_after; by rewrite foldl_app|]. intros reused h2 w4 [-> _]. cbn [record].
  destruct reused; [done|]. by eapply (cleanup_unit_spec s (mkHands _ _ _ _ _ _)); [|left].
Qed.

(** A return without a notice is one of a slot that has no entry. *)
Lemma returnSlot_spec notify s h w : d_slot h = Some s → d_ready h = true → (notify = false → d_assigned h = false) →
  wp (returnSlot notify s) (λ h' _ _, gave_up h h') h w.
Proof using.
  intros Hs Hr Hn w1 _. split; [done|]. intros over h1 w2 [-> [x2 E2]]. cbn [record]. destruct over.
  - assert (Hd : done w2 = true) by (cbn in E2; destruct x2 as [|[|]| | | |]; try done; destruct (done w1) eqn:Ed; [|done]; by injection E2 as <-).
    apply prog_wp_bind. eapply prog_wp_mono; [|apply cleanup_spec; [done|by right]]. intros h' w' _ [-> R']. unfold notifyNetworkRelease. destruct notify; [|done].
    intros w3 R3. destruct (ry_done _ _ _ R' Hd) as [Hd' _]. split; [right; by destruct (ry_done _ _ _ R3 Hd')|]. by intros [] h2 w4 [-> _].
  - unfold notifyNetworkRelease. destruct notify; cbn; [|apply recycle_spec; auto]. intros w3 _. split; [by left|]. intros [] h2 w4 [-> _]. by eapply (recycle_spec s (mkHands _ _ _ _ _ _)).
Qed.

Lemma ReturnAsync_spec notify s h w : d_slot h = Some s → d_ready h = true → (notify = false → d_assigned h = false) → d_tracked h = false →
  wp (ReturnAsync notify s) (λ h' _ _, gave_up h h') h w.
Proof using.
  intros Hs Hr Hn Ht w1 _. split; [done|]. intros tracked h1 w2 [-> _]. cbn [record]. destruct tracked.
  - apply prog_wp_bind. eapply prog_wp_mono; [|by apply returnSlot_spec]. intros h' w' [] (G1 & G2 & G3). intros w3 _. split; [done|]. intros [] h2 w4 [-> _]. unfold gave_up. cbn in *. by rewrite Ht.
  - eapply prog_wp_mono; [|by apply returnSlot_spec]. intros h' w' [] (G1 & G2 & G3). unfold gave_up. cbn in *. by rewrite Ht.
Qed.

Lemma exec_new_closed {A} (c : call A) x w w' a : exec c x w = Some (w', a) → (match c with CloseNew => False | _ => True end) → new_closed w' = new_closed w.
Proof using. intros He Hc. destruct c; cbn in He, Hc; try done; exec_cases; done. Qed.

(** [Populate] between two rounds. *)
Record sending (h : hands) (w : state) : Prop := {
  sd_slot : d_slot h = None;
  sd_tracked : d_tracked h = false;
  sd_populates : d_populates h = true;
  sd_open : new_closed w = false;
  sd_assigned : d_assigned h = false
}.

Lemma sending_rely h w w' : rely h w w' → sending h w → sending h w'.
Proof using. intros R [S1 S2 S3 S4 S5]. split; try done. by rewrite (proj1 (ry_sender _ _ _ R S3)). Qed.

(** A slot just made. *)
Record made (s : nat) (h : hands) (w : state) : Prop := {
  md_slot : d_slot h = Some s;
  md_ready : d_ready h = true;
  md_since : d_since h = [];
  md_tracked : d_tracked h = false;
  md_populates : d_populates h = true;
  md_open : new_closed w = false;
  md_armed : armed w = true;
  md_assigned : d_assigned h = false
}.

Lemma createNetworkSlot_spec h w : sending h w → armed w = true →
  wp createNetworkSlot (λ h' w' o, match o with None => sending h' w' | Some s => made s h' w' end) h w.
Proof using.
  intros S Ha w1 R1. pose proof (sending_rely _ _ _ R1 S) as [S1 S2 S3 S4 S5]. assert (Ha1 : armed w1 = true) by by rewrite (proj2 (ry_sender _ _ _ R1 S3)).
  split; [done|]. intros ips h1 w2 [-> [x2 E2]]. pose proof (exec_rely _ _ _ _ _ h E2 I) as R2.
  destruct (ry_sender _ _ _ R2 S3) as [N2 A2]. cbn [record]. destruct ips as [s|]; [|split; congruence].
  intros w3 R3. destruct (ry_sender _ _ _ R3 S3) as [N3 A3]. split; [done|]. intros ok h2 w4 [-> [x4 E4]].
  pose proof (exec_rely _ _ _ _ _ h E4 I) as R4. destruct (ry_sender _ _ _ R4 S3) as [N4 A4]. destruct ok; cbn [record]; [split; cbn; congruence|].
  intros w5 R5. destruct (ry_sender _ _ _ R5 S3) as [N5 A5]. split; [split; [done|by left]|]. intros released h3 w6 [-> [x6 E6]].
  pose proof (exec_new_closed _ _ _ _ _ E6 I). split; cbn; congruence.
Qed.

Lemma populate_loop_spec rounds h w : sending h w → wp (populate_loop rounds) (λ h' w' _, sending h' w') h w.
Proof using.
  revert h w. induction rounds as [|rounds IH]; intros h w S; cbn [populate_loop]; intros w1 R1; pose proof (sending_rely _ _ _ R1 S) as S1;
    (split; [apply S1|]); intros stop h1 w2 [-> [x2 E2]]; cbn [record];
    (assert (sending h w2) as S2 by (destruct S1; split; try done; by rewrite (exec_new_closed _ _ _ _ _ E2 I)));
    destruct stop; try done.
  assert (Ha : armed w2 = true) by (cbn in E2; destruct x2; try done; injection E2 as <- Hst; cbn; by rewrite Hst).
  apply prog_wp_bind. eapply prog_wp_mono; [|by apply createNetworkSlot_spec]. intros h2 w3 [s|]; [|apply IH].
  intros [M1 M2 M3 M4 M5 M6 M7 M8] w4 R4. destruct (ry_sender _ _ _ R4 M5) as [N4 A4]. split; [split_and!; (done || congruence || by left)|].
  intros sent h3 w5 [-> [x5 E5]]. pose proof (exec_new_closed _ _ _ _ _ E5 I) as N5. cbn [record]. destruct sent; [apply IH; split; cbn; congruence|].
  intros w6 R6. destruct (ry_sender _ _ _ R6 M5) as [N6 A6]. split; [done|]. intros removed h4 w7 [-> [x7 E7]]. pose proof (exec_new_closed _ _ _ _ _ E7 I) as N7.
  intros w8 R8. destruct (ry_sender _ _ _ R8 M5) as [N8 A8]. split; [split; [done|by left]|]. intros released h5 w9 [-> [x9 E9]]. pose proof (exec_new_closed _ _ _ _ _ E9 I) as N9.
  split; cbn; congruence.
Qed.

Lemma Populate_spec rounds h w : sending h w → wp (Populate rounds) (λ h' _ _, d_slot h' = None ∧ d_tracked h' = false ∧ d_populates h' = false) h w.
Proof using.
  intros S. apply prog_wp_bind. eapply prog_wp_mono; [|by apply populate_loop_spec]. intros h1 w1 [] S1 w2 R2.
  destruct (sending_rely _ _ _ R2 S1). split; [done|]. by intros [] h2 w3 [-> _].
Qed.

(** *** A sandbox *)

Lemma take_spec w : wp take (λ h' _ r, match r with Ok (Some s) => h' = with_slot (Some s) true idle | _ => h' = idle end) idle w.
Proof using.
  intros w1 _. split; [done|]. intros t1 h1 w2 [-> _]. cbn [record]. destruct t1; cbn; [|done|done].
  intros w3 _. split; [done|]. by intros [[s|]|e] h2 w4 [-> _].
Qed.

Lemma Get_spec egress w :
  wp (Get egress) (λ h' _ r, match r with
    | Ok s => d_slot h' = Some s ∧ d_ready h' = true ∧ d_since h' = [(Configure egress, true)] ∧ d_assigned h' = false ∧ d_tracked h' = false ∧ d_populates h' = false
    | Err _ => gave_up idle h' end) idle w.
Proof using.
  apply prog_wp_bind. eapply prog_wp_mono; [|apply take_spec]. intros h1 w1 [[s|]|e]; [|by intros ->..]. intros ->.
  intros w2 _. split; [done|]. intros ok h2 w3 [-> _]. cbn [record]. destruct ok; [done|].
  apply prog_wp_bind. eapply prog_wp_mono; [|by apply ReturnAsync_spec]. by intros h3 w4 [] G.
Qed.

Lemma hold_spec rounds s h w : d_slot h = Some s → d_ready h = true → d_assigned h = true → d_tracked h = false → d_populates h = false → tenancy h →
  wp (hold rounds s) (λ h' _ _, d_slot h' = Some s ∧ d_ready h' = true ∧ d_tracked h' = false ∧ d_populates h' = false) h w.
Proof using.
  revert h w. induction rounds as [|rounds IH]; intros h w H1 H2 HA H3 H4 H5; cbn [hold]; intros w1 _;
    (split; [split_and!; [by rewrite H1|done|done|done]|]); intros op h1 w2 [-> [x2 E2]]; cbn [record]; destruct op as [op|]; try done.
  intros w3 _. split; [done|]. intros ok h2 w4 [-> _]. apply IH; try done. cbn [record].
  destruct H5 as (life & egress & r & updates & Ht & Es & Hu). exists life, egress, r, (updates ++ [(op, ok)]). cbn. split_and!; [done|by rewrite Es|].
  apply Forall_app. split; [done|]. apply Forall_singleton. cbn in E2. destruct x2 as [| | | | |[op'|]]; try done. by destruct (update_op op') eqn:Eu; simplify_eq.
Qed.

Lemma getNetworkSlot_spec life egress rounds w : t = TSandbox life egress rounds → wp (getNetworkSlot life egress rounds) (λ h' _ _, gave_up idle h') idle w.
Proof using.
  intros Ht. unfold getNetworkSlot, check. apply prog_wp_bind. eapply prog_wp_mono; [|apply Get_spec]. intros h1 w1 [s|e]; [|done]. intros (G1 & G2 & G3 & G4 & G5 & G6).
  intros w2 _. split; [done|]. intros entered h2 w3 [-> _]. cbn [record]. apply prog_wp_bind.
  apply (prog_wp_mono _ _ _ _ (λ h' _ _, d_slot h' = Some s ∧ d_ready h' = true ∧ d_tracked h' = false ∧ d_populates h' = false)).
  - intros h3 w4 [] (H1 & H2 & H3 & H4). apply prog_wp_bind. eapply prog_wp_mono; [|by apply ReturnAsync_spec]. intros h4 w5 [] (R1 & R2 & R3). split_and!; cbn; congruence.
  - destruct entered; [|done]. intros w4 _. split; [split; [done|by rewrite Ht]|]. intros [] h3 w5 [-> _]. apply hold_spec; try done. by exists life, egress, rounds, [].
Qed.

(** *** [Close] *)

Lemma cleanup_idle_spec s w : wp (cleanup s) (λ h' w' _, h' = idle ∧ rely idle w w') (with_slot (Some s) true idle) w.
Proof using. eapply prog_wp_mono; [|apply cleanup_spec; [done|by left]]. intros h' w' _ [-> [R1 R2 R3 R4 R5]]. split; [done|]. by split. Qed.

Lemma range_loop_spec rounds w : done w = true → (phi w < rounds)%nat →
  wp (range_loop rounds) (λ h' w' b, h' = idle ∧ b = true ∧ rely idle w w' ∧ new_closed w' = true ∧ newSlots w' = []) idle w.
Proof using.
  revert w. induction rounds as [|rounds IH]; intros w Hd Hp; cbn [range_loop]; [lia|]. intros w1 R1. destruct (ry_done _ _ _ R1 Hd) as [Hd1 Hp1].
  split; [done|]. intros o h1 w2 [-> [x2 E2]]. pose proof (exec_rely _ _ _ _ _ idle E2 I) as R2. cbn in E2. destruct x2, (newSlots w1) as [|s l] eqn:En; try done.
  - destruct (new_closed w1) eqn:Ec; [|done]. injection E2 as <- <-. split_and!; try done.
  - injection E2 as <- <-. cbn [record]. apply prog_wp_bind. eapply prog_wp_mono; [|apply cleanup_idle_spec]. intros h3 w3 b [-> R3].
    destruct (ry_done _ _ _ R3 Hd1) as [Hd3 Hp3]. eapply prog_wp_mono; [|apply IH; [done|]].
    + intros h4 w4 b4 (-> & -> & R4 & Hc). split_and!; [done|done| |apply Hc|apply Hc]. eapply rely_trans; [exact R1|]. eapply rely_trans; [exact R2|]. by eapply rely_trans.
    + unfold phi in *. cbn in *. rewrite En in Hp1. cbn in Hp1. lia.
Qed.

Lemma drain_loop_spec rounds w : closed w = true → (length (reusedSlots w) < rounds)%nat →
  wp (drain_loop rounds) (λ h' w' b, h' = idle ∧ b = true ∧ rely idle w w' ∧ reusedSlots w' = []) idle w.
Proof using.
  revert w. induction rounds as [|rounds IH]; intros w Hd Hp; cbn [drain_loop]; [lia|]. intros w1 R1. destruct (ry_closed _ _ _ R1 Hd) as (Hd1 & Hp1 & _).
  split; [done|]. intros o h1 w2 [-> [x2 E2]]. pose proof (exec_rely _ _ _ _ _ idle E2 I) as R2. cbn in E2. destruct x2, (reusedSlots w1) as [|s l] eqn:En; try done.
  - injection E2 as <- <-. split_and!; try done.
  - injection E2 as <- <-. cbn [record]. apply prog_wp_bind. eapply prog_wp_mono; [|apply cleanup_idle_spec]. intros h3 w3 b [-> R3].
    destruct (ry_closed _ _ _ R3 Hd1) as (Hd3 & Hp3 & _). eapply prog_wp_mono; [|apply IH; [done|]].
    + intros h4 w4 b4 (-> & -> & R4 & Hc). split_and!; [done|done| |apply Hc]. eapply rely_trans; [exact R1|]. eapply rely_trans; [exact R2|]. by eapply rely_trans.
    + cbn in Hp3, Hp1. lia.
Qed.

Lemma Close_spec w : bounded w → wp Close (λ h' w' b, h' = idle ∧ b = true ∧ finished w') idle w.
Proof using.
  intros B w1 R1. apply (ry_bounded _ _ _ R1) in B. split; [done|]. intros [] h1 w2 [-> [x2 E2]].
  pose proof (ry_bounded _ _ _ (exec_rely _ _ _ _ _ idle E2 I) B) as B2. cbn in E2. destruct x2; try done. injection E2 as <-.
  intros w3 R3. destruct (ry_done _ _ _ R3 eq_refl) as [D3 _]. apply (ry_bounded _ _ _ R3) in B2. split; [done|]. intros [] h2 w4 [-> [x4 E4]].
  pose proof (ry_bounded _ _ _ (exec_rely _ _ _ _ _ idle E4 I) B2) as B4. cbn in E4. destruct x4; try done. injection E4 as <-.
  intros w5 R5. destruct (ry_closed _ _ _ R5 eq_refl) as [C5 _], (ry_done _ _ _ R5 D3) as [D5 _]. apply (ry_bounded _ _ _ R5) in B4. split; [done|].
  intros [] h3 w6 [-> [x6 E6]]. cbn in E6. destruct x6; try done. case_bool_decide as W5; [|done]. injection E6 as <-. cbn [record].
  apply prog_wp_bind. eapply prog_wp_mono; [|apply range_loop_spec; [done|]].
  - intros h4 w7 b (-> & -> & R7 & N7 & L7). destruct (ry_closed _ _ _ R7 C5) as (C7 & _ & W7), (ry_done _ _ _ R7 D5) as [D7 _]. apply (ry_bounded _ _ _ R7) in B4.
    apply prog_wp_bind. eapply prog_wp_mono; [|apply drain_loop_spec; [done|]].
    + intros h5 w8 b5 (-> & -> & R8 & L8). destruct (ry_closed _ _ _ R8 C7) as (C8 & _ & W8), (ry_done _ _ _ R8 D7) as [D8 _], (ry_ended _ _ _ R8 N7) as [N8 L9].
      split; [done|]. split; [done|]. rewrite L7 in L9. split_and!; try done; [by apply nil_length_inv; cbn in L9; lia|lia].
    + destruct B4. lia.
  - destruct B4. unfold phi. case_match; lia.
Qed.

End tasks.

(** ** Executions *)

Definition course (t : task) (p : prog outcome) (h : hands) (w : state) : Prop :=
  Prog.wp rely (call_pre t) (λ A c h w a h' w', h' = record c h a ∧ ∃ x, exec c x w = Some (w', a)) p post h w.

Lemma pool_program_spec t w : bounded w → (populates t = true → new_closed w = false) → course t (program t) (mkHands None [] false false false (populates t)) w.
Proof using.
  intros B Hp. destruct t as [rounds|life egress rounds|]; unfold course, program; cbn [populates] in *; apply prog_wp_bind.
  - eapply prog_wp_mono; [|apply Populate_spec; split; [done|done|done|by apply Hp|done]]. intros h w' [] (G1 & G2 & G3). by split_and!.
  - eapply prog_wp_mono; [|by eapply getNetworkSlot_spec]. intros h w' r (G1 & G2 & G3). by split_and!.
  - eapply prog_wp_mono; [|by apply Close_spec]. intros h w' b (-> & -> & F). by split_and!.
Qed.

Lemma course_rely t p h w w' : rely h w w' → course t p h w → course t p h w'.
Proof using.
  intros R. apply prog_wp_rely; [apply rely_trans| |done]. intros w1 w2 r R' (P1 & P2 & P3 & P4). split_and!; try done. destruct r; try done. destruct P4. split; [done|]. by eapply finished_rely.
Qed.

Definition tracked (js : list job) : nat := length (filter (λ j, d_tracked (j_hands j) = true) js).

(** The sandbox of job [j] is the one entered at [ip]. *)
Definition entered (s : state) (j : job) (ip : IP) (life : nat) : Prop :=
  life_of (j_task j) = Some life ∧ d_assigned (j_hands j) = true ∧
  ∃ n o, d_slot (j_hands j) = Some n ∧ objs s !! n = Some o ∧ HostIP (n_addr o) = ip.

Record pool_inv (w : world) : Prop := {
  pi_course i j : w_jobs w !! i = Some j → course (j_task j) (j_prog j) (j_hands j) (w_state w);
  pi_stock : stock (places w) (objs (w_state w)) (st_store (w_state w));
  pi_bounded : bounded (w_state w);
  pi_sender i i' j j' : w_jobs w !! i = Some j → w_jobs w !! i' = Some j' → d_populates (j_hands j) = true → d_populates (j_hands j') = true → i = i';
  pi_started : started w = false → new_closed (w_state w) = false ∧ ∀ i j, w_jobs w !! i = Some j → d_populates (j_hands j) = false;
  pi_tracked : returnsWG (w_state w) = tracked (w_jobs w);
  pi_network ip life : done (w_state w) = false → network (w_state w) !! ip = Some life → ∃ i j, w_jobs w !! i = Some j ∧ entered (w_state w) j ip life;
  pi_lives i i' j j' life : w_jobs w !! i = Some j → w_jobs w !! i' = Some j' → life_of (j_task j) = Some life → life_of (j_task j') = Some life → i = i'
}.

(** The places of the others. *)
Definition elsewhere (js : list job) : list place := js ≫= λ j, in_hand (j_hands j).

Lemma elsewhere_split js i j : js !! i = Some j → elsewhere js ≡ₚ in_hand (j_hands j) ++ elsewhere (delete i js).
Proof using. intros Hi. exact (bind_Permutation _ _ _ (delete_Permutation _ _ _ Hi)). Qed.

Lemma delete_of_insert {A} (l : list A) i x : delete i (<[i:=x]> l) = delete i l.
Proof using. revert i. induction l as [|y l IH]; intros [|i]; cbn; [done|done|done|]. f_equal. apply IH. Qed.

Lemma elsewhere_insert js i j j' : js !! i = Some j → elsewhere (<[i := j']> js) ≡ₚ in_hand (j_hands j') ++ elsewhere (delete i js).
Proof using.
  intros Hi. rewrite (elsewhere_split (<[i := j']> js) i j'); [|apply list_lookup_insert_eq; by eapply lookup_lt_Some].
  by rewrite delete_of_insert.
Qed.

Lemma tracked_insert js i j j' : js !! i = Some j →
  (tracked (<[i := j']> js) + (if d_tracked (j_hands j) then 1 else 0) = tracked js + (if d_tracked (j_hands j') then 1 else 0))%nat.
Proof using.
  intros Hi. unfold tracked. rewrite insert_take_drop by (by eapply lookup_lt_Some). rewrite <- (take_drop_middle _ _ _ Hi) at 3.
  rewrite !filter_app, !filter_cons, !length_app. repeat case_decide; repeat case_match; cbn; try congruence; lia.
Qed.


Lemma stock_move (U V : list place) l st : U ≡ₚ V → stock U l st → stock V l st.
Proof using. by intros ->. Qed.

Lemma channels_received s n new reused : newSlots s ++ reusedSlots s ≡ₚ n :: new ++ reused →
  in_channels s ≡ₚ (n, Some open_policy) :: in_channels (with_channels new reused s).
Proof using. intros E. unfold in_channels. rewrite E. done. Qed.

Lemma channels_sent s n new reused : new ++ reused ≡ₚ n :: newSlots s ++ reusedSlots s →
  in_channels (with_channels new reused s) ≡ₚ (n, Some open_policy) :: in_channels s.
Proof using. intros E. unfold in_channels. cbn. rewrite E. done. Qed.

(** A slot goes from a channel to a hand, or back. *)
Lemma stock_received s n new reused R l st : newSlots s ++ reusedSlots s ≡ₚ n :: new ++ reused →
  stock (in_channels s ++ R) l st → stock (in_channels (with_channels new reused s) ++ (n, Some open_policy) :: R) l st.
Proof using. intros E. apply stock_move. rewrite (channels_received _ _ _ _ E). cbn. apply Permutation_middle. Qed.

Lemma stock_sent s n new reused R l st : new ++ reused ≡ₚ n :: newSlots s ++ reusedSlots s →
  stock (in_channels s ++ (n, Some open_policy) :: R) l st → stock (in_channels (with_channels new reused s) ++ R) l st.
Proof using. intros E. apply stock_move. rewrite (channels_sent _ _ _ _ E). cbn. symmetry. apply Permutation_middle. Qed.

(** A call keeps the stock. *)
Lemma exec_stock t {A} (c : call A) x s s' a h R : exec c x s = Some (s', a) → call_pre t A c h s →
  stock (in_channels s ++ in_hand h ++ R) (objs s) (st_store s) → stock (in_channels s' ++ in_hand (record c h a) ++ R) (objs s') (st_store s').
Proof using.
  intros He Hp S. destruct h as [o since ready tr po]. destruct c; cbn in He, Hp; exec_cases; try exact S; cbn [record in_hand with_slot d_slot d_since d_ready d_tracked d_populates] in *;
    destruct_and?; simplify_eq/=; cbn [in_hand d_slot d_since d_ready] in *.
  - match goal with E : Acquire _ _ = _ |- _ => eapply stock_acquire in S; [|exact E] end. eapply stock_move; [|exact S]. apply Permutation_middle.
  - eapply stock_store; [|exact S]. intros i Hi. match goal with E : Acquire ?q _ = _ |- _ => pose proof (acquire_keeps q _ _ Hi) as Hk; by rewrite E in Hk end.
  - match goal with E : InitializeFirewall _ _ _ = Some _ |- _ => pose proof (InitializeFirewall_holds _ _ _ _ E) as Hh end.
    eapply stock_move; [|eapply stock_update; [eapply stock_move; [|exact S]| |]]; [apply Permutation_middle|symmetry; apply Permutation_middle|done|].
    intros o _ _. eexists. split; [done|exact Hh].
  - match goal with E : Release _ _ _ = _ |- _ => eapply stock_release; [|done|exact E] end. eapply stock_move; [|exact S]. symmetry. apply Permutation_middle.
  - eapply (stock_sent s _ (newSlots s ++ [_]) (reusedSlots s)); [|exact S]. solve_Permutation.
  - eapply (stock_received s _ (newSlots s)); [|exact S]. match goal with E : reusedSlots s = _ |- _ => rewrite E end. solve_Permutation.
  - eapply (stock_received s _ _ (reusedSlots s)); [|exact S]. match goal with E : newSlots s = _ |- _ => rewrite E end. done.
  - eapply stock_move; [|eapply stock_update; [eapply stock_move; [|exact S]| |]]; [apply Permutation_middle|symmetry; apply Permutation_middle|done|].
    intros o Ho (sl & Hsl & Hh). simplify_eq. eexists. split; [done|]. by eapply run_op_holds.
  - eapply (stock_sent s _ (newSlots s) (reusedSlots s ++ [_])); [|]; [solve_Permutation|]. match goal with E : policy_after since = _ |- _ => by rewrite E in S end.
  - eapply (stock_received s _ _ (reusedSlots s)); [|exact S]. match goal with E : newSlots s = _ |- _ => rewrite E end. done.
  - eapply (stock_received s _ (newSlots s)); [|exact S]. match goal with E : reusedSlots s = _ |- _ => rewrite E end. solve_Permutation.
Qed.

Lemma record_populates {A} (c : call A) h a : d_populates (record c h a) = true → d_populates h = true.
Proof using. destruct c; cbn in *; repeat case_match; done. Qed.

Lemma exec_tracked t {A} (c : call A) x s s' a h : exec c x s = Some (s', a) → call_pre t A c h s → (d_tracked h = true → returnsWG s ≠ O) →
  (returnsWG s' + (if d_tracked h then 1 else 0) = returnsWG s + (if d_tracked (record c h a) then 1 else 0))%nat.
Proof using.
  intros He Hp Hw. destruct c; cbn in He, Hp; exec_cases; cbn [record with_slot d_tracked] in *; repeat case_match; simplify_eq/=; try done; try lia.
Qed.

Lemma exec_addr {A} (c : call A) x s s' a n o : exec c x s = Some (s', a) → objs s !! n = Some o → ∃ o', objs s' !! n = Some o' ∧ n_addr o' = n_addr o.
Proof using.
  intros He Ho. destruct c; cbn in He; exec_cases; try (by exists o).
  - exists o. split; [by apply lookup_app_l_Some|done].
  - destruct (decide (n = s0)) as [->|Hne]; [rewrite list_lookup_alter_eq, Ho; by eexists|rewrite list_lookup_alter_ne by done; by exists o].
  - destruct (decide (n = s0)) as [->|Hne]; [rewrite list_lookup_alter_eq, Ho; by eexists|rewrite list_lookup_alter_ne by done; by exists o].
  - destruct (decide (n = s0)) as [->|Hne]; [rewrite list_lookup_alter_eq, Ho; by eexists|rewrite list_lookup_alter_ne by done; by exists o].
Qed.

(** An entry was there and, if it is the caller's, its slot stays; or it is the
    caller's new one. *)
Lemma exec_network t {A} (c : call A) x s s' a h ip life : exec c x s = Some (s', a) → call_pre t A c h s → done s' = false → network s' !! ip = Some life →
  (network s !! ip = Some life ∧ done s = false ∧
   (d_assigned h = true → ∀ n o, d_slot h = Some n → objs s !! n = Some o → HostIP (n_addr o) = ip → d_assigned (record c h a) = true ∧ d_slot (record c h a) = Some n)) ∨
  (life_of t = Some life ∧ d_assigned (record c h a) = true ∧ ∃ n o, d_slot (record c h a) = Some n ∧ objs s !! n = Some o ∧ HostIP (n_addr o) = ip).
Proof using.
  intros He Hp Hd Hn. destruct c; cbn in He, Hp; unfold unassigned in *; exec_cases; cbn [record with_slot d_assigned d_slot] in *; destruct_and?; try (exfalso; congruence);
    try (left; split_and!; [done|done|intros; split; (done || congruence)]);
    try (left; split_and!; [done|done|]; intros; destruct_or?; congruence).
  - rewrite AssignNetwork_lookup in Hn. case_decide; [|left; split_and!; [done|done|intros; split; congruence]]. right. split_and!; [congruence|done|]. by exists s0, x.
  - left. rewrite NetworkReleased_lookup in Hn. case_decide; [done|]. split_and!; [done|done|]. intros Ha n o Hs Ho Hip. exfalso. destruct_or?; congruence.
Qed.

Lemma pool_call_inv w i j A (c : call A) k x s a : pool_inv w → w_jobs w !! i = Some j → j_prog j = Do c k → exec c x (w_state w) = Some (s, a) →
  pool_inv (mkWorld s (<[i := mkJob (j_task j) (k a) (record c (j_hands j) a)]> (w_jobs w)) (started w)).
Proof using.
  intros [P1 P2 P3 P4 P5 P6 P7 P8] Hi Ep He. pose proof (P1 _ _ Hi) as Hc. rewrite Ep in Hc. destruct (Hc (w_state w) (rely_refl _ _)) as [Hpre Hk].
  assert (Hs : ∀ h, d_populates h = false → sender_only c h (w_state w)) by (intros h Hh; destruct c; cbn in *; destruct_and?; done).
  assert (Hsend : match c with Poll | CloseNew | SendNew _ => d_populates (j_hands j) = true | _ => True end) by (destruct c; cbn in *; destruct_and?; done).
  set (js := <[i := _]> (w_jobs w)).
  assert (Hjs : ∀ n jn, js !! n = Some jn → (n = i ∧ jn = mkJob (j_task j) (k a) (record c (j_hands j) a)) ∨ (n ≠ i ∧ w_jobs w !! n = Some jn)).
  { intros n jn Hn. apply list_lookup_insert_Some in Hn as [(-> & <- & _)|(Hne & Hn)]; auto. }
  assert (Hpop : ∀ n jn, js !! n = Some jn → d_populates (j_hands jn) = true → ∃ jo, w_jobs w !! n = Some jo ∧ d_populates (j_hands jo) = true).
  { intros n jn [[-> ->]|[_ Hn]]%Hjs Hd; [exists j; split; [done|]; by eapply record_populates|by exists jn]. }
  split; cbn [w_state w_jobs started].
  - intros n jn [[-> ->]|[Hne Hn]]%Hjs; [apply Hk; split; [done|]; by exists x|]. eapply course_rely; [|by eapply P1]. eapply exec_rely; [exact He|].
    destruct (d_populates (j_hands jn)) eqn:Ed; [|by apply Hs]. assert (d_populates (j_hands j) = false) as Hf.
    { destruct (d_populates (j_hands j)) eqn:Ej; [|done]. exfalso. by eapply Hne, P4. }
    rewrite Hf in Hsend. by destruct c.
  - unfold places in *. cbn [w_state w_jobs]. fold (elsewhere (w_jobs w)) in P2. fold (elsewhere js). unfold js. rewrite (elsewhere_insert _ _ _ _ Hi).
    rewrite (elsewhere_split _ _ _ Hi) in P2. by eapply exec_stock.
  - eapply (ry_bounded idle); [|exact P3]. eapply exec_rely; [exact He|]. by apply Hs.
  - intros n m jn jm Hn Hm Dn Dm. destruct (Hpop _ _ Hn Dn) as (jo & Ho & Do'), (Hpop _ _ Hm Dm) as (jo' & Ho' & Do''). by eapply P4.
  - intros [Hc0 Hn0]%P5. split.
    + rewrite (exec_new_closed _ _ _ _ _ He); [done|]. rewrite (Hn0 _ _ Hi) in Hsend. by destruct c.
    + intros n jn Hn. destruct (d_populates (j_hands jn)) eqn:Ed; [|done]. destruct (Hpop _ _ Hn Ed) as (jo & Ho & Ed'). by rewrite (Hn0 _ _ Ho) in Ed'.
  - pose proof (tracked_insert (w_jobs w) i j (mkJob (j_task j) (k a) (record c (j_hands j) a)) Hi) as Ht. cbn [j_hands] in Ht. fold js in Ht.
    pose proof (exec_tracked _ _ _ _ _ _ _ He Hpre) as Hx. rewrite P6 in Hx. 
    assert (Hn : d_tracked (j_hands j) = true → tracked (w_jobs w) ≠ O).
    { intros Hd. pose proof (tracked_insert (w_jobs w) i j (mkJob (j_task j) (j_prog j) idle) Hi) as H0'. rewrite Hd in H0'. cbn in H0'. lia. }
    specialize (Hx Hn). lia.
  - intros ip life Hd Hn. assert (Hin : js !! i = Some (mkJob (j_task j) (k a) (record c (j_hands j) a))) by (apply list_lookup_insert_eq; by eapply lookup_lt_Some).
    destruct (exec_network _ _ _ _ _ _ _ _ _ He Hpre Hd Hn) as [(Hn0 & Hd0 & Hown)|(Hl & Ha & n & o & Hsl & Ho & Hip)].
    + destruct (P7 _ _ Hd0 Hn0) as (i' & j' & Hi' & Hl & Ha & n & o & Hsl & Ho & Hip). destruct (exec_addr _ _ _ _ _ _ _ He Ho) as (o' & Ho' & Ea). destruct (decide (i' = i)) as [->|Hne].
      * assert (j' = j) as -> by congruence. destruct (Hown Ha _ _ Hsl Ho Hip). eexists i, _. split; [exact Hin|]. split_and!; [done|done|]. exists n, o'. by rewrite Ea.
      * exists i', j'. split; [by unfold js; rewrite list_lookup_insert_ne|]. split_and!; [done|done|]. exists n, o'. by rewrite Ea.
    + destruct (exec_addr _ _ _ _ _ _ _ He Ho) as (o' & Ho' & Ea). eexists i, _. split; [exact Hin|]. split_and!; [done|done|]. exists n, o'. by rewrite Ea.
  - assert (Ht : ∀ n jn, js !! n = Some jn → ∃ jo, w_jobs w !! n = Some jo ∧ j_task jo = j_task jn) by (intros n jn [[-> ->]|[_ Hn]]%Hjs; [by exists j|by exists jn]).
    intros n m jn jm life (jo & Ho & Eo)%Ht (jo' & Ho' & Eo')%Ht. rewrite <- Eo, <- Eo'. by apply P8.
Qed.

Lemma pool_move_inv e w w' : pool_inv w → move e w = Some w' → pool_inv w'.
Proof using.
  intros P. destruct e as [t|i x]; cbn [move].
  - destruct (populates t && started w || _) eqn:E; [done|]. apply orb_false_iff in E as [E El%negb_false_iff]. intros [= <-]. destruct P as [P1 P2 P3 P4 P5 P6 P7 P8]. set (jn := mkJob t _ _).
    assert (Hjs : ∀ n jo, (w_jobs w ++ [jn]) !! n = Some jo → w_jobs w !! n = Some jo ∨ (n = length (w_jobs w) ∧ jo = jn)).
    { intros n jo [Hn|[Hn [? <-]%list_lookup_singleton_Some]]%lookup_app_Some; [by left|right]. split; [lia|done]. }
    assert (Hnew : populates t = true → started w = false) by (intros Hp; by rewrite Hp in E).
    split; cbn [w_state w_jobs started].
    + intros n jo [Hn|[-> ->]]%Hjs; [by eapply P1|]. apply pool_program_spec; [done|]. intros Hp. by apply P5, Hnew.
    + unfold places in *. cbn [w_state w_jobs]. rewrite bind_app. cbn. by rewrite app_nil_r.
    + done.
    + intros n m j1 j2 [H1|[-> ->]]%Hjs [H2|[-> ->]]%Hjs D1 D2; [by eapply P4| | |done]; cbn in D1, D2.
      * destruct (P5 (Hnew D2)) as [_ Hn]. by rewrite (Hn _ _ H1) in D1.
      * destruct (P5 (Hnew D1)) as [_ Hn]. by rewrite (Hn _ _ H2) in D2.
    + intros [Hs Hp]%orb_false_iff. destruct (P5 Hs) as [Hc Hn]. split; [done|]. intros n jo [Ho|[-> ->]]%Hjs; [by eapply Hn|done].
    + unfold tracked. rewrite filter_app. cbn. by rewrite app_nil_r.
    + intros ip life Hd Hn. destruct (P7 _ _ Hd Hn) as (i & j & Hi & He). exists i, j. split; [by apply lookup_app_l_Some|done].
    + assert (Hlife : ∀ n jo life, w_jobs w !! n = Some jo → life_of t = Some life → life_of (j_task jo) ≠ Some life).
      { intros n jo life Hn Ht. unfold new_life in El. rewrite Ht, forallb_forall in El. specialize (El jo (proj1 (list_elem_of_In _ _) (list_elem_of_lookup_2 _ _ _ Hn))).
        by apply negb_true_iff, bool_decide_eq_false in El. }
      intros n m j1 j2 life [H1|[-> ->]]%Hjs [H2|[-> ->]]%Hjs L1 L2; [by eapply P8| | |done]; exfalso; by eapply Hlife.
  - destruct (w_jobs w !! i) as [j|] eqn:Hi; [|done]. cbn. unfold run_job. destruct (j_prog j) as [r|A c k] eqn:Ep; [done|].
    destruct (exec c x (w_state w)) as [[s a]|] eqn:He; [|done]. cbn. intros [= <-]. by eapply pool_call_inv.
Qed.

Lemma NewPool_inv st : pool_inv (NewPool st).
Proof using.
  split; cbn; try by intros.
  - split; cbn; try by intros.
    + constructor.
    + by intros s m ?%elem_of_nil.
  - split; cbn; lia.
Qed.

Lemma pool_steps_inv st w : rtc step (NewPool st) w → pool_inv w.
Proof using.
  intros Hs. assert (∀ w', pool_inv w' → rtc step w' w → pool_inv w) as Hr; [|by eapply Hr; [apply NewPool_inv|]].
  clear Hs. intros w' P Hs. induction Hs as [|w1 w2 w3 [e He] _ IH]; [done|]. by eapply IH, pool_move_inv.
Qed.

(** ** What the pool promises *)

Lemma hand_stock w i j s : pool_inv w → w_jobs w !! i = Some j → d_slot (j_hands j) = Some s →
  ∃ o, objs (w_state w) !! s = Some o ∧ n_released o = O ∧ keeps o (if d_ready (j_hands j) then Some (policy_after (d_since (j_hands j))) else None).
Proof using.
  intros P Hi Hs. apply (sk_live _ _ _ (pi_stock _ P)). apply elem_of_app. right. apply list_elem_of_bind. exists j. split; [|by eapply list_elem_of_lookup_2].
  unfold in_hand. rewrite Hs. by left.
Qed.

Lemma hands_apart w i j i' j' s : pool_inv w → w_jobs w !! i = Some j → w_jobs w !! i' = Some j' → d_slot (j_hands j) = Some s → d_slot (j_hands j') = Some s → i = i'.
Proof using.
  intros P Hi Hi' Hs Hs'. destruct (decide (i = i')) as [|Hne]; [done|exfalso]. pose proof (sk_once _ _ _ (pi_stock _ P)) as Hn.
  assert (E : places w ≡ₚ in_channels (w_state w) ++ in_hand (j_hands j) ++ elsewhere (delete i (w_jobs w))) by (unfold places; fold (elsewhere (w_jobs w)); by rewrite (elsewhere_split _ _ _ Hi)).
  rewrite E, !fmap_app in Hn. apply NoDup_app in Hn as (_ & _ & Hn). apply NoDup_app in Hn as (_ & Hn & _). apply (Hn s).
  - unfold in_hand. rewrite Hs. by left.
  - assert (j' ∈ delete i (w_jobs w)) as Hin.
    { pose proof (list_elem_of_lookup_2 _ _ _ Hi') as Hj. rewrite list_elem_of_lookup in *. destruct Hj. 
      destruct (decide (i' < i)%nat); [exists i'; by rewrite list_lookup_delete_lt|exists (pred i')]. rewrite list_lookup_delete_ge by lia. by replace (Datatypes.S (pred i')) with i' by lia. }
    apply list_elem_of_fmap. exists (s, if d_ready (j_hands j') then Some (policy_after (d_since (j_hands j'))) else None). split; [done|].
    apply list_elem_of_bind. exists j'. split; [|done]. unfold in_hand. rewrite Hs'. by left.
Qed.

(** Live slots differ in address. *)
Lemma stock_addresses T l st host vrt s s' o o' : stock T l st → networks hostNetworkCIDR vrtNetworkCIDR host vrt → l !! s = Some o → l !! s' = Some o' →
  n_released o = O → n_released o' = O → s ≠ s' →
  HostIP (n_addr o) ≠ HostIP (n_addr o') ∧
  ∀ ip, ip ∈ ips (n_addr o) → Contains (mkNet (vEthIp (n_addr o)) vrtMask) ip = true ∧ Contains (mkNet (vEthIp (n_addr o')) vrtMask) ip = false.
Proof using.
  intros S N Ho Ho' Hr Hr' Hne. destruct (sk_addr _ _ _ S _ _ Ho) as [_ Ea], (sk_addr _ _ _ S _ _ Ho') as [_ Ea'].
  assert (Hidx : Idx (n_addr o) ≠ Idx (n_addr o')) by (intros E; apply Hne; by eapply (sk_apart _ _ _ S)).
  destruct (NewSlot_idx _ _ _ _ _ Ea) as (_ & _ & Hb), (NewSlot_idx _ _ _ _ _ Ea') as (_ & _ & Hb').
  destruct (Slots_disjoint _ _ host vrt (Key (n_addr o)) (Key (n_addr o')) _ _ N Hb Hb' Hidx) as (a & b & Na & Nb & Hh & _ & Hips).
  rewrite Ea in Na. rewrite Ea' in Nb. injection Na as <-. injection Nb as <-. split; [done|]. intros ip Hip. by destruct (Hips ip Hip) as (_ & ? & ?).
Qed.

Lemma hands_addresses w host vrt i j i' j' s s' o o' : pool_inv w → networks hostNetworkCIDR vrtNetworkCIDR host vrt → w_jobs w !! i = Some j → w_jobs w !! i' = Some j' →
  d_slot (j_hands j) = Some s → d_slot (j_hands j') = Some s' → objs (w_state w) !! s = Some o → objs (w_state w) !! s' = Some o' → HostIP (n_addr o) = HostIP (n_addr o') → i = i'.
Proof using.
  intros P N Hi Hi' Es Es' Ho Ho' Hip. destruct (hand_stock _ _ _ _ P Hi Es) as (o1 & Ho1 & Hr & _), (hand_stock _ _ _ _ P Hi' Es') as (o2 & Ho2 & Hr' & _). simplify_eq.
  destruct (decide (s = s')) as [->|Hne]; [by eapply hands_apart|]. by destruct (stock_addresses _ _ _ _ _ _ _ _ _ (pi_stock _ P) N Ho Ho' Hr Hr' Hne).
Qed.

(** *** The index has an entry for each sandbox entered *)

Definition indexed (t : task) (h : hands) (w : state) : Prop :=
  ∃ s o life, life_of t = Some life ∧ d_slot h = Some s ∧ objs w !! s = Some o ∧ network w !! HostIP (n_addr o) = Some life.

Lemma exec_done {A} (c : call A) x s s' a : exec c x s = Some (s', a) → done s' = false → done s = false.
Proof using. intros He Hd. destruct c; cbn in He; exec_cases; try done; congruence. Qed.

Lemma exec_network_kept t {A} (c : call A) x s s' a h ip life : exec c x s = Some (s', a) → call_pre t A c h s → done s = false → network s !! ip = Some life →
  (∀ n o, d_slot h = Some n → objs s !! n = Some o → HostIP (n_addr o) ≠ ip) → network s' !! ip = Some life.
Proof using.
  intros He Hp Hd Hn Ho. destruct c; cbn in He, Hp; exec_cases; try done; destruct_and?; destruct_or?; try congruence.
  - rewrite AssignNetwork_lookup, decide_False by by eapply Ho. done.
  - rewrite NetworkReleased_lookup, decide_False by by eapply Ho. done.
Qed.

Lemma exec_indexed t {A} (c : call A) x s s' a h : exec c x s = Some (s', a) → call_pre t A c h s → done s = false → (d_assigned h = true → indexed t h s) →
  d_assigned (record c h a) = true → indexed t (record c h a) s'.
Proof using.
  intros He Hp Hd Hi Ha. unfold indexed in *. pose proof (λ n o, exec_addr c x s s' a n o He) as Hobj.
  destruct c; cbn in He, Hp; unfold unassigned in *; exec_cases; cbn [record with_slot d_assigned d_slot] in *; destruct_and?; simplify_eq; try done; try (by apply Hi).
  all: try (destruct (Hi Ha) as (n' & o' & life' & Hl & Hs & Ho & Hn); destruct_or?; try congruence; destruct (Hobj _ _ Ho) as (o'' & Ho' & Ea); exists n', o'', life'; by rewrite Ea).
  match goal with Ho : objs s !! _ = Some ?o |- _ => eexists _, o, _; split_and!; [done|done|done|]; cbn; by rewrite AssignNetwork_lookup, decide_True end.
Qed.

Lemma pool_steps_indexed st w host vrt : networks hostNetworkCIDR vrtNetworkCIDR host vrt → rtc step (NewPool st) w → done (w_state w) = false →
  ∀ i j, w_jobs w !! i = Some j → d_assigned (j_hands j) = true → indexed (j_task j) (j_hands j) (w_state w).
Proof using.
  intros N. revert w. apply (rtc_ind_r (λ w, done (w_state w) = false → ∀ i j, w_jobs w !! i = Some j → d_assigned (j_hands j) = true → indexed (j_task j) (j_hands j) (w_state w))); [done|].
  intros w1 w2 Hs [e Hm] IH. pose proof (pool_steps_inv _ _ Hs) as P. destruct e as [t|i x]; cbn [move] in Hm.
  - case_match; [done|]. injection Hm as <-. intros Hd n jn [Hn|[_ [_ <-]%list_lookup_singleton_Some]]%lookup_app_Some; [by eapply IH|done].
  - destruct (w_jobs w1 !! i) as [j|] eqn:Hi; [|done]. cbn in Hm. unfold run_job in Hm. destruct (j_prog j) as [r|A c k] eqn:Ep; [done|].
    destruct (exec c x (w_state w1)) as [[s a]|] eqn:He; [|done]. cbn in Hm. injection Hm as <-. cbn [w_state w_jobs]. intros Hd. pose proof (exec_done _ _ _ _ _ He Hd) as Hd0. specialize (IH Hd0).
    pose proof (pi_course _ P _ _ Hi) as Hc. rewrite Ep in Hc. destruct (Hc (w_state w1) (rely_refl _ _)) as [Hpre _].
    intros n jn [(-> & <- & _)|(Hne & Hn)]%list_lookup_insert_Some Ha; [by eapply (exec_indexed (j_task j)); [exact He|exact Hpre|exact Hd0|by apply (IH _ _ Hi)|]|].
    destruct (IH _ _ Hn Ha) as (s0 & o & life & Hl & Es & Ho & Hnet). destruct (exec_addr _ _ _ _ _ _ _ He Ho) as (o' & Ho' & Ea).
    exists s0, o', life. rewrite Ea. split_and!; [done|done|done|]. eapply exec_network_kept; [done..|]. intros s1 o1 Es1 Ho1 Hip. by eapply Hne, hands_addresses.
Qed.

(** C39. In every execution, no two programs have a slot in common, and none has
    one that waits in a channel; the slots they have are taken in the storage,
    and differ in index, so in the address of the sandbox and in the link. *)
Theorem Slots_apart st w host vrt i i' j j' s s' : networks hostNetworkCIDR vrtNetworkCIDR host vrt → rtc step (NewPool st) w →
  w_jobs w !! i = Some j → w_jobs w !! i' = Some j' → i ≠ i' → d_slot (j_hands j) = Some s → d_slot (j_hands j') = Some s' →
  s ∉ newSlots (w_state w) ++ reusedSlots (w_state w) ∧
  ∃ o o', objs (w_state w) !! s = Some o ∧ objs (w_state w) !! s' = Some o' ∧ has (st_store (w_state w)) (Idx (n_addr o)) ∧
    HostIP (n_addr o) ≠ HostIP (n_addr o') ∧
    ∀ ip, ip ∈ ips (n_addr o) → Contains (mkNet (vEthIp (n_addr o)) vrtMask) ip = true ∧ Contains (mkNet (vEthIp (n_addr o')) vrtMask) ip = false.
Proof using.
  intros N Hs Hi Hi' Hne Es Es'. pose proof (pool_steps_inv _ _ Hs) as P.
  destruct (hand_stock _ _ _ _ P Hi Es) as (o & Ho & Hr & _), (hand_stock _ _ _ _ P Hi' Es') as (o' & Ho' & Hr' & _).
  assert (Hss : s ≠ s') by (intros ->; by eapply Hne, hands_apart). split.
  - pose proof (sk_once _ _ _ (pi_stock _ P)) as Hn. unfold places in Hn. rewrite fmap_app in Hn. apply NoDup_app in Hn as (_ & Hn & _). intros Hin. apply (Hn s).
    + unfold in_channels. rewrite <- list_fmap_compose. apply list_elem_of_fmap. by exists s.
    + apply list_elem_of_fmap. exists (s, if d_ready (j_hands j) then Some (policy_after (d_since (j_hands j))) else None). split; [done|].
      apply list_elem_of_bind. exists j. split; [|by eapply list_elem_of_lookup_2]. unfold in_hand. rewrite Es. by left.
  - exists o, o'. split_and!; [done|done|by eapply (sk_has _ _ _ (pi_stock _ P))|..]; by eapply (stock_addresses _ _ _ host vrt s s' o o' (pi_stock _ P)).
Qed.

(** C10. When the network of a sandbox is up, and until it gives its slot back,
    the kernel judges what it sends by the configuration it asked for and its
    own updates since, whoever had the slot before and whatever failed. *)
Theorem Tenant_rules st w i j k : rtc step (NewPool st) w → w_jobs w !! i = Some j → j_prog j = Do HoldOp k →
  ∃ life egress rounds updates s o sl, j_task j = TSandbox life egress rounds ∧ Forall (λ x, update_op x.1 = true) updates ∧
    d_since (j_hands j) = (Configure egress, true) :: updates ∧
    d_slot (j_hands j) = Some s ∧ objs (w_state w) !! s = Some o ∧ n_slot o = Some sl ∧
    ∀ p, accepts (fw_kernel (s_Firewall sl)) p = permits ranges (policy_after ((Configure egress, true) :: updates)) p.
Proof using.
  intros Hs Hi Ep. pose proof (pool_steps_inv _ _ Hs) as P. pose proof (pi_course _ P _ _ Hi) as Hc. rewrite Ep in Hc.
  destruct (Hc _ (rely_refl _ _)) as [(Hslot & Hready & _ & life & egress & rounds & updates & Ht & Es & Hu) _].
  destruct (d_slot (j_hands j)) as [s|] eqn:Ed; [|done]. destruct (hand_stock _ _ _ _ P Hi Ed) as (o & Ho & _ & Hk). rewrite Hready, Es in Hk.
  destruct Hk as (sl & Hsl & Hh). exists life, egress, rounds, updates, s, o, sl. split_and!; try done. apply Hh.
Qed.

(** C11. Until the node closes, what the index says of an address is true: the
    sandbox of that lifecycle has a slot of this address, and is the only one
    to.  And a sandbox that runs is found at its address: the notice of an
    earlier tenant of the slot, given long after its end, takes no entry but
    its own. *)
Theorem Connections_attributed st w host vrt : networks hostNetworkCIDR vrtNetworkCIDR host vrt → rtc step (NewPool st) w → done (w_state w) = false →
  (∀ ip life, GetByHostPort ip (network (w_state w)) = Some life →
    ∃ i j s o, w_jobs w !! i = Some j ∧ running j = true ∧ life_of (j_task j) = Some life ∧
      d_slot (j_hands j) = Some s ∧ objs (w_state w) !! s = Some o ∧ HostIP (n_addr o) = ip ∧
      ∀ i' j' s' o', w_jobs w !! i' = Some j' → d_slot (j_hands j') = Some s' → objs (w_state w) !! s' = Some o' → HostIP (n_addr o') = ip → i' = i) ∧
  ∀ i j k, w_jobs w !! i = Some j → j_prog j = Do HoldOp k →
    ∃ s o life, life_of (j_task j) = Some life ∧ d_slot (j_hands j) = Some s ∧ objs (w_state w) !! s = Some o ∧
      GetByHostPort (HostIP (n_addr o)) (network (w_state w)) = Some life.
Proof using.
  intros N Hs Hd. pose proof (pool_steps_inv _ _ Hs) as P. split.
  - intros ip life Hn. destruct (pi_network _ P _ _ Hd Hn) as (i & j & Hi & Hl & Ha & s & o & Es & Ho & Hip). exists i, j, s, o. split_and!; try done.
    + unfold running. destruct (j_prog j) eqn:Ep; [|done]. pose proof (pi_course _ P _ _ Hi) as Hc. rewrite Ep in Hc. destruct Hc as [Hc _]. congruence.
    + intros i' j' s' o' Hi' Es' Ho' Hip'. eapply hands_addresses; [done..|congruence].
  - intros i j k Hi Ep. pose proof (pi_course _ P _ _ Hi) as Hc. rewrite Ep in Hc. destruct (Hc _ (rely_refl _ _)) as [(_ & _ & Ha & _) _].
    destruct (pool_steps_indexed _ _ _ _ N Hs Hd _ _ Hi Ha) as (s & o & life & Hl & Es & Ho & Hn). by exists s, o, life.
Qed.

(** C40. [Close] drains the pool in the rounds it takes: once it has returned
    the channels are empty and stay so, no return is under way, and every slot
    ever acquired was given back to the storage, exactly once, but for those
    that sandboxes still have, which give them back themselves. *)
Theorem Close_releases_all st w i j all : rtc step (NewPool st) w → w_jobs w !! i = Some j → j_prog j = Ret (Drained all) →
  all = true ∧ newSlots (w_state w) = [] ∧ reusedSlots (w_state w) = [] ∧
  (∀ n jn, w_jobs w !! n = Some jn → d_tracked (j_hands jn) = false) ∧
  ∀ s o, objs (w_state w) !! s = Some o →
    n_released o = 1%nat ∨ n_released o = O ∧ ∃ n jn, w_jobs w !! n = Some jn ∧ running jn = true ∧ d_slot (j_hands jn) = Some s.
Proof using.
  intros Hs Hi Ep. pose proof (pool_steps_inv _ _ Hs) as P. pose proof (pi_course _ P _ _ Hi) as Hc. rewrite Ep in Hc.
  destruct Hc as (_ & _ & _ & -> & _ & _ & _ & Hnew & Hreused & Hwg). split_and!; try done.
  - intros n jn Hn. destruct (d_tracked (j_hands jn)) eqn:Ed; [|done]. exfalso. pose proof (tracked_insert (w_jobs w) n jn (mkJob (j_task jn) (j_prog jn) idle) Hn) as Ht.
    rewrite <- (pi_tracked _ P), Hwg, Ed in Ht. cbn in Ht. lia.
  - intros s o Ho. pose proof (sk_released _ _ _ (pi_stock _ P) _ _ Ho). destruct (n_released o) as [|[|]] eqn:Er; [right|by left|lia]. split; [done|].
    pose proof (sk_all _ _ _ (pi_stock _ P) _ _ Ho Er) as Hin. unfold places, in_channels in Hin. rewrite Hnew, Hreused in Hin. cbn in Hin.
    apply list_elem_of_fmap in Hin as ([s' m] & -> & Hin). apply list_elem_of_bind in Hin as (jn & Hin & Hj). apply list_elem_of_lookup in Hj as [n Hn].
    exists n, jn. split; [done|]. unfold in_hand in Hin. destruct (d_slot (j_hands jn)) as [s0|] eqn:Es; [|by apply elem_of_nil in Hin].
    apply list_elem_of_singleton in Hin as [= -> _]. split; [|done]. unfold running. destruct (j_prog jn) eqn:Ej; [|done].
    pose proof (pi_course _ P _ _ Hn) as Hc. rewrite Ej in Hc. destruct Hc as [Hc _]. congruence.
Qed.
End pool.
