(* ===== verification/PoolRuns.v ===== *)
(** * PoolRuns: executions of the pool

    Instances of the interfaces of [Slots] and [Pool], a driver, the executions
    at which the theorems of [Pool] are applied, and executions that show
    defects. *)

From stdpp Require Import relations strings gmap.
From S2P Require Import Prelude Prog Egress EgressRuns Slots Pool.

(** ** Addresses *)

Definition indexed (n : IPNet) (index : Z) : option IP :=
  match net_IP n with
  | V4 base => if (0 <=? index) && (index <? 2 ^ (32 - net_ones n)) then Some (V4 (base + index)) else None
  | V6 _ => None
  end.

Lemma indexed_law base ones index : 0 <= base < 2 ^ 32 → 0 <= ones <= 32 → base mod 2 ^ (32 - ones) = 0 → 0 <= index < 2 ^ (32 - ones) →
  indexed (mkNet (V4 base) ones) index = Some (V4 (base + index)).
Proof. intros _ _ _ Hi. unfold indexed. cbn. by destruct (Z.leb_spec 0 index), (Z.ltb_spec index (2 ^ (32 - ones))); try lia. Qed.

#[global] Instance indexed_ip : IndexedIP := {| GetIndexedIP := indexed; indexed_v4 := indexed_law |}.

(** 10.11.0.0/16 and 10.12.0.0/16. *)
Definition host_net : IPNet := mkNet (V4 168493056) 16.
Definition vrt_net : IPNet := mkNet (V4 168558592) 16.

Lemma sample_networks : networks host_net vrt_net 168493056 168558592.
Proof. split; by vm_compute. Qed.

(** ** The driver *)

#[global] Instance sample_storage : SlotStorage host_net vrt_net := memory_storage host_net vrt_net.

Notation sample_move := (move (hostNetworkCIDR:=host_net) (vrtNetworkCIDR:=vrt_net) 32 100 "192.0.2.1" []).
Notation sample_step := (step (hostNetworkCIDR:=host_net) (vrtNetworkCIDR:=vrt_net) 32 100 "192.0.2.1" []).
Notation sample_world := (world (hostNetworkCIDR:=host_net) (vrtNetworkCIDR:=vrt_net)).

(** What a call gets where nothing fails. *)
Definition driven {A} (c : call A) : choice (hostNetworkCIDR:=host_net) (vrtNetworkCIDR:=vrt_net) :=
  match c with
  | Poll | Delay => Flag false
  | AcquireSlot | ReleaseSlot _ => Store ()
  | CreateNetwork _ | OnSlot _ _ => Kernel true smooth
  | RemoveNetwork _ | SendNew _ | TryReuse _ | Enter => Flag true
  | TakeReused => Pick 1
  | TakeNew => Pick 2
  | HoldOp => Ask None
  | _ => Go
  end.

Fixpoint drive (i n : nat) (w : sample_world) : option sample_world :=
  match n, j_prog <$> w_jobs w !! i with
  | S n, Some (Do c _) => w ← sample_move (ECall i (driven c)) w; drive i n w
  | _, _ => Some w
  end.

Inductive act := Event (e : event (hostNetworkCIDR:=host_net) (vrtNetworkCIDR:=vrt_net)) | Calls (i n : nat).

Definition act_run (a : act) (w : sample_world) : option sample_world := match a with Event e => sample_move e w | Calls i n => drive i n w end.

Fixpoint run (l : list act) (w : sample_world) : option sample_world := match l with [] => Some w | a :: l => w ← act_run a w; run l w end.

Lemma pool_drive_steps i n w w' : drive i n w = Some w' → rtc sample_step w w'.
Proof.
  revert w. induction n as [|n IH]; intros w; cbn [drive run]; [by intros [= <-]|].
  destruct (j_prog <$> w_jobs w !! i) as [[r|A c k]|]; try by intros [= <-]. destruct (sample_move (ECall i (driven c)) w) as [w1|] eqn:E; [|done]. cbn. intros H.
  eapply rtc_l; [by exists (ECall i (driven c))|by apply IH].
Qed.

Lemma pool_run_steps l w w' : run l w = Some w' → rtc sample_step w w'.
Proof.
  revert w. induction l as [|a l IH]; intros w; cbn [drive run]; [by intros [= <-]|]. destruct (act_run a w) as [w1|] eqn:E; [|done]. cbn. intros H.
  etrans; [|by apply IH]. destruct a as [e|i n]; [by apply rtc_once; exists e|by eapply pool_drive_steps].
Qed.

Lemma pool_run_proj {A} l w (f : sample_world → A) a : f <$> run l w = Some a → ∃ w', run l w = Some w' ∧ f w' = a.
Proof. intros (w' & H & Hw)%fmap_Some. by exists w'. Qed.

Definition sample_pool : sample_world := NewPool (NewStorageMemory 40).

(** [Populate] makes two slots; a sandbox with a proxy of its own takes one,
    a second sandbox the other. *)
Definition two_sandboxes : list act :=
  [Event (ESpawn (TPopulate 5)); Calls 0 8; Event (ESpawn (TSandbox 71 (Some own_proxy) 2)); Calls 1 5; Event (ESpawn (TSandbox 72 (Some by_rules) 2)); Calls 2 5].

Lemma two_sandboxes_run : (λ w, ((λ j, d_slot (j_hands j)) <$> w_jobs w, newSlots (w_state w))) <$> run two_sandboxes sample_pool = Some ([None; Some 0%nat; Some 1%nat], []).
Proof. vm_compute. reflexivity. Qed.

(** The first sandbox is over, its slot is reset and reused by a third. *)
Definition slot_reused : list act :=
  two_sandboxes ++ [Calls 1 20; Event (ESpawn (TSandbox 73 (Some by_rules) 2)); Calls 3 4].

(** All is over, and the pool closed. *)
Definition all_closed : list act :=
  slot_reused ++ [Event (ESpawn TClose); Calls 4 2; Calls 2 5; Event (ECall 2 (Flag false)); Calls 2 20;
    Calls 3 2; Event (ECall 3 (Flag true)); Calls 3 20; Event (ECall 0 (Flag true)); Calls 0 20; Calls 4 400].

Definition slots_of (w : sample_world) : list (option nat) := (λ j, d_slot (j_hands j)) <$> w_jobs w.

Lemma slot_reused_run : slots_of <$> run slot_reused sample_pool = Some [None; None; Some 1%nat; Some 0%nat].
Proof. vm_compute. reflexivity. Qed.

Lemma all_closed_run : (λ w, (slots_of w, running <$> w_jobs w, n_released <$> objs (w_state w))) <$> run all_closed sample_pool =
  Some ([None; None; None; None; None], [false; false; false; false; false], [1; 1]%nat).
Proof. vm_compute. reflexivity. Qed.

(** ** The theorems at these executions *)

Definition reaches (l : list act) (w : sample_world) : Prop := run l sample_pool = Some w.

Lemma Slots_apart_witness : ∃ w j j', rtc sample_step sample_pool w ∧ w_jobs w !! 1%nat = Some j ∧ w_jobs w !! 2%nat = Some j' ∧
  0%nat ∉ newSlots (w_state w) ++ reusedSlots (w_state w) ∧
  ∃ o o', objs (w_state w) !! 0%nat = Some o ∧ objs (w_state w) !! 1%nat = Some o' ∧ has (st_store (w_state w)) (Idx (n_addr o)) ∧
    HostIP (n_addr o) ≠ HostIP (n_addr o') ∧
    ∀ ip, ip ∈ ips (n_addr o) → Contains (mkNet (vEthIp (n_addr o)) vrtMask) ip = true ∧ Contains (mkNet (vEthIp (n_addr o')) vrtMask) ip = false.
Proof.
  destruct (pool_run_proj two_sandboxes sample_pool slots_of [None; Some 0%nat; Some 1%nat]) as (w & Hw & Hj); [vm_compute; reflexivity|].
  destruct (proj1 (list_lookup_fmap_Some _ _ _ _) (f_equal (lookup 1%nat) Hj)) as (j & Es & Hj1).
  destruct (proj1 (list_lookup_fmap_Some _ _ _ _) (f_equal (lookup 2%nat) Hj)) as (j' & Es' & Hj2).
  exists w, j, j'. pose proof (pool_run_steps _ _ _ Hw) as Hs. split_and!; [exact Hs|exact Hj1|exact Hj2|..];
    apply (Slots_apart (SlotStorage0:=sample_storage) 32 100 "192.0.2.1" [] (NewStorageMemory 40) w 168493056 168558592 1 2 j j' 0 1 sample_networks Hs Hj1 Hj2 ltac:(discriminate) (eq_sym Es) (eq_sym Es')).
Defined.

(** The third sandbox, in the slot of the first. *)
Lemma Tenant_rules_witness : ∃ w j k, rtc sample_step sample_pool w ∧ w_jobs w !! 3%nat = Some j ∧ j_prog j = Do HoldOp k ∧ d_slot (j_hands j) = Some 0%nat ∧
  ∃ life egress rounds updates s o sl, j_task j = TSandbox life egress rounds ∧ Forall (λ x, update_op x.1 = true) updates ∧
    d_since (j_hands j) = (Configure egress, true) :: updates ∧
    d_slot (j_hands j) = Some s ∧ objs (w_state w) !! s = Some o ∧ n_slot o = Some sl ∧
    ∀ p, accepts (fw_kernel (s_Firewall sl)) p = permits ["192.0.2.1/32"] (policy_after ((Configure egress, true) :: updates)) p.
Proof.
  destruct (pool_run_proj slot_reused sample_pool (λ w, (λ j, (d_slot (j_hands j), match j_prog j with Do HoldOp _ => true | _ => false end)) <$> w_jobs w)
    [(None, false); (None, false); (Some 1%nat, true); (Some 0%nat, true)]) as (w & Hw & Hj); [vm_compute; reflexivity|].
  destruct (proj1 (list_lookup_fmap_Some _ _ _ _) (f_equal (lookup 3%nat) Hj)) as (j & Es & Hj3).
  pose proof (pool_run_steps _ _ _ Hw) as Hs. clear Hj Hw. injection Es as Es Ep. destruct (j_prog j) as [r|A c k] eqn:E; [done|].
  destruct c; try discriminate Ep. exists w, j, k. split_and!; [exact Hs|exact Hj3|exact E|by symmetry|].
  exact (Tenant_rules (SlotStorage0:=sample_storage) 32 100 "192.0.2.1" [] (NewStorageMemory 40) w 3 j k Hs Hj3 E).
Defined.

(** The address of the slot of the first and the third sandbox, now the third's. *)
Lemma Connections_attributed_witness : ∃ w, rtc sample_step sample_pool w ∧ done (w_state w) = false ∧
  GetByHostPort (V4 (168493056 + 1)) (network (w_state w)) = Some 73%nat ∧
  (∃ i j s o, w_jobs w !! i = Some j ∧ running j = true ∧ life_of (j_task j) = Some 73%nat ∧
    d_slot (j_hands j) = Some s ∧ objs (w_state w) !! s = Some o ∧ HostIP (n_addr o) = V4 (168493056 + 1) ∧
    ∀ i' j' s' o', w_jobs w !! i' = Some j' → d_slot (j_hands j') = Some s' → objs (w_state w) !! s' = Some o' → HostIP (n_addr o') = V4 (168493056 + 1) → i' = i) ∧
  ∃ j k, w_jobs w !! 2%nat = Some j ∧ j_prog j = Do HoldOp k ∧
    ∃ s o life, life_of (j_task j) = Some life ∧ d_slot (j_hands j) = Some s ∧ objs (w_state w) !! s = Some o ∧
      GetByHostPort (HostIP (n_addr o)) (network (w_state w)) = Some life.
Proof.
  destruct (pool_run_proj slot_reused sample_pool (λ w, (done (w_state w), GetByHostPort (V4 (168493056 + 1)) (network (w_state w)), (λ j, match j_prog j with Do HoldOp _ => true | _ => false end) <$> w_jobs w !! 2%nat))
    (false, Some 73%nat, Some true)) as (w & Hw & Hj); [vm_compute; reflexivity|]. injection Hj as Hd Hn Hh. pose proof (pool_run_steps _ _ _ Hw) as Hs. clear Hw.
  destruct (Connections_attributed (SlotStorage0:=sample_storage) 32 100 "192.0.2.1" [] (NewStorageMemory 40) w 168493056 168558592 sample_networks Hs Hd) as [H1 H2].
  destruct (w_jobs w !! 2%nat) as [j|] eqn:Ej; [|discriminate Hh]. injection Hh as Hh. destruct (j_prog j) as [r|A c k] eqn:E; [discriminate Hh|]. destruct c; try discriminate Hh.
  exists w. split_and!; [exact Hs|exact Hd|exact Hn|exact (H1 _ _ Hn)|]. exists j, k. split_and!; [exact Ej|exact E|exact (H2 _ _ _ Ej E)].
Defined.

Lemma Close_releases_all_witness : ∃ w j, rtc sample_step sample_pool w ∧ w_jobs w !! 4%nat = Some j ∧ j_prog j = Ret (Drained true) ∧
  newSlots (w_state w) = [] ∧ reusedSlots (w_state w) = [] ∧
  (∀ n jn, w_jobs w !! n = Some jn → d_tracked (j_hands jn) = false) ∧
  ∀ s o, objs (w_state w) !! s = Some o →
    n_released o = 1%nat ∨ n_released o = O ∧ ∃ n jn, w_jobs w !! n = Some jn ∧ running jn = true ∧ d_slot (j_hands jn) = Some s.
Proof.
  destruct (pool_run_proj all_closed sample_pool (λ w, (λ j, match j_prog j with Ret (Drained b) => b | _ => false end) <$> w_jobs w)
    [false; false; false; false; true]) as (w & Hw & Hj); [vm_compute; reflexivity|].
  destruct (proj1 (list_lookup_fmap_Some _ _ _ _) (f_equal (lookup 4%nat) Hj)) as (j & Ep & Hj4).
  pose proof (pool_run_steps _ _ _ Hw) as Hs. clear Hj Hw. destruct (j_prog j) as [[| |all]|] eqn:E; try discriminate Ep.
  destruct (Close_releases_all (SlotStorage0:=sample_storage) 32 100 "192.0.2.1" [] (NewStorageMemory 40) w 4 j all Hs Hj4 E) as (-> & H).
  exists w, j. split_and!; [exact Hs|exact Hj4|exact E|apply H..].
Defined.

(** ** Defects *)

(** [Populate] ends with its context, before the pool is closed: the next
    sandbox gets a nil slot, which [ConfigureInternet] dereferences. *)
Lemma Nil_slot_is_taken :
  (λ w, (λ j, match j_prog j with Ret (Ended (Err NilSlot)) => true | _ => false end) <$> w_jobs w) <$>
    run [Event (ESpawn (TPopulate 5)); Event (ECall 0 (Flag true)); Calls 0 20; Event (ESpawn (TSandbox 71 None 2)); Calls 1 20] sample_pool = Some [false; true].
Proof. vm_compute. reflexivity. Qed.

(** The storage over Consul draws index 0, for which there is no slot: the
    request fails and the key stays taken. *)
Lemma Zero_is_drawn :
  let r := kv_Acquire host_net vrt_net "node" (mkAsked (λ _, 0) (λ _, ConsulOk) true (λ _, ConsulOk) true true ConsulOk) (mkKV 32766 ∅) in
  r.2 = None ∧ elements (kv_keys r.1) = ["node/0"].
Proof. vm_compute. done. Qed.

(** A namespace of our own that outlived its slot, its removal having failed,
    is foreign from then on: the slot is never tried again. *)
Lemma Own_namespace_is_foreign :
  let r1 := local_Acquire host_net vrt_net [Some true] (NewStorageLocal vrt_net ∅) in
  let s2 := (local_Release [] (default (mkAddresses "" 0 (V4 0) (V4 0) (V4 0)) r1.2) r1.1).1 in
  let r3 := local_Acquire host_net vrt_net [Some false; Some true] s2 in
  (Idx <$> r1.2) = Some 2 ∧ (Idx <$> r3.2) = Some 3 ∧ elements (foreignNs r3.1) = ["ns-2"] ∧
  (Idx <$> (local_Acquire host_net vrt_net [Some true; Some true; Some true] r3.1).2) = Some 4.
Proof. vm_compute. done. Qed.
